(* ===== verification/_CoqProject ===== *)
-Q . S2P
Prelude.v
Endian.v
Intset.v
UtilNum.v
Glob.v
Dict.v
DictScan.v
Adlist.v
Sds.v
SdsText.v
Lzf.v
Crc.v
Minheap.v
Coroutine.v
LdbCoding.v
LdbFormat.v
LdbBatch.v
LdbVersionEdit.v
LdbCrc32c.v
LdbLog.v
LdbRandom.v
LdbArena.v
LdbSkiplist.v
LdbMemtable.v
LdbDb.v
LdbBlock.v
LdbBloom.v
LdbFilter.v
