(* ===== verification/Prelude.v ===== *)
(** * Verified core of the annotated server sources

    The repository collects annotated copies of server software: Redis 5.0,
    libevent, cloudwu's coroutine library, leveldb, muduo, libco, sofa-pbrpc,
    boost.lockfree and some Go projects.  This development models data
    structures and algorithms the programs rest on and proves them correct, and
    for leveldb the whole path of a write: from the batch through the log and the
    memtable to recovery after a crash.

    ** Parts and files

    - [Prelude] (this file): machine integers as [Z] with explicit wrap-around
      ([u8] ... [i64]), arrays ([znth], [zset]) and byte buffers ([rd], [wr],
      [memmove], [zrealloc]) whose accesses out of range are [None], byte
      encodings, tactics and the lemmas the other files share.
    - [Endian]: redis-5.0/src/endianconv.c; byte reversal and the conversions
      between host and little-endian order.  The host order is a parameter [be]
      of everything that depends on it.
    - [Intset]: intset.c, sorted arrays of integers of one width, on the bytes of
      their allocation; uses [Endian].
    - [UtilNum], [Glob]: the number conversions and the glob matcher of util.c.
    - [Dict], [DictScan]: dict.c, hash tables with incremental rehashing, and
      dictScan.  Keys, values and the callbacks of [dictType] are a type class
      ([DictType]) with its laws ([DictTypeLaws]).
    - [Adlist]: adlist.c, doubly linked lists on a heap of nodes.
    - [Sds], [SdsText]: sds.c and sds.h, dynamic strings on the bytes of their
      allocation with the five header types, and the number, formatting,
      splitting and quoting functions on top of them; [SdsText] uses [UtilNum]
      for the reference decimal strings.
    - [Lzf]: lzf_c.c and lzf_d.c, the compressor and the decompressor, with the
      configuration of lzfP.h for 64-bit x86.
    - [Crc]: crc16.c, crc64.c and keyHashSlot of cluster.c.
    - [Minheap]: libevent/minheap-internal.h, the timer heap.
    - [Coroutine]: coroutine/coroutine.c, coroutines on a shared stack.

    The other files are leveldb-1.20; file names below are under that directory.

    - [LdbCoding]: util/coding.cc and coding.h (fixed and variable length
      integers), slices and Status.
      [Platform] gives the byte order and the contents of fresh buffers.
    - [LdbFormat]: db/dbformat.cc, internal keys, their comparator, lookup keys,
      and util/comparator.cc; user comparators are an interface with laws
      ([Comparator], [ComparatorLaws]).
    - [LdbBatch]: db/write_batch.cc; [LdbVersionEdit]: db/version_edit.cc.
    - [LdbCrc32c]: util/crc32c.cc.  [LdbLog]: db/log_writer.cc and
      log_reader.cc, over file interfaces ([WritableFile], [SequentialFile]).
    - [LdbRandom], [LdbArena]: util/random.h, util/arena.cc.  [Malloc] is
      operator new, with its laws.
    - [LdbSkiplist]: db/skiplist.h on a store of nodes, its operations, and as
      step functions one writer and a reader that interleave.
    - [LdbMemtable]: db/memtable.cc and the inserter of write_batch.cc; it puts
      the skip list, the arena and the internal keys together.
    - [LdbDb]: Write with its queue and groups of batches, Get and
      RecoverLogFile of db/db_impl.cc, on top of the log and the memtable.
    - [LdbBlock]: table/block_builder.cc and block.cc, the blocks of table files
      with their prefix compression and restart points, and the iterator.
    - [LdbBloom]: util/hash.cc, util/bloom.cc, and the interface of filter
      policies ([FilterPolicy], [FilterPolicyLaws]).  [LdbFilter]:
      table/filter_block.cc for any policy that keeps it.

    ** How state and effects are modelled

    C objects are records, memory is lists of bytes or maps from pointers to
    records, and every operation is an executable function that threads the
    state.  [None] stands for what the program must never do: an access outside
    an object, a NULL or dangling pointer, a failed assertion, undefined
    arithmetic, or a loop that runs longer than its bound.  Three signed
    computations wrap around instead, as compilers make them: the negation of
    [LLONG_MIN] in [sdsll2str], which the tests of sds.c rely on, and, with no
    effect on the result, the lengths of [sdsrange] and the index of [listIndex].
    Counters and sizes keep their C types where they can leave them: the [int]s
    of [sdssplitlen], [sdssplitargs], [dictRehash] and [dictRehashMilliseconds],
    the [size_t] that [dictExpand] allocates.  Uninitialised memory
    is an argument ([junk]); so is the outcome of allocations where the code
    checks it.  Results that C returns as error codes stay values.

    ** What the theorems show

    - Histories ([dict_history_refines], [adlist_history_refines],
      [sds_history_refines], [minheap_history_refines],
      [coroutine_private_stacks], and the intset theorems): every sequence of
      operations on a component is defined and behaves as the same operations on
      a mathematical object (finite map, list, byte string, priority queue,
      private stacks, finite set), with the representation invariant preserved.
    - Round trips ([sds_repr_splitargs], [sds_split_join], [lzf_roundtrip],
      [ll2string_string2ll] and the endian conversions).  [lzf_roundtrip] holds
      for any contents of the hash table, which the code does not initialise;
      [lzf_decompress_safe] is about input that no compressor wrote.
    - Optimised code against a reference: byte swapping, digit counting and
      conversions, the glob matcher against its relational semantics, dictScan's
      reverse-binary cursor, CRC tables against polynomial division.
    - Guarantees across operations: dictScan returns every element that stays in
      the table, rehashing completes, lists may be modified during iteration, a
      read into reserved string space can be committed in place.
    - leveldb: [db_durable] composes the files above (acknowledged writes survive
      a log cut off at any byte, none survives in part); [log_recovers],
      [memtable_snapshots], [skiplist_refines] and [arena_separates] are its
      layers; [skiplist_readers_safe] and [skiplist_reader_finishes] are about
      readers beside the writer.  [block_refines], [filter_block_sound] and
      [bloom_no_false_negatives] are about what table files are made of.
    - Some theorems record defects of the code: [sdsIncrLen_zero_type5],
      [sdscatfmt_lone_percent], [lzf_compress_one_byte], [dictExpand_wraps] and
      [stringmatchlen_empty_string] on their functions,
      [reuse_logs_loses_write] for every log cut off behind a header, and
      [block_length_wraps] for every entry whose lengths add up past 32 bits.

    ** Bounds and fuel

    Loops that are not structural take a [nat] bound computed from the data (a
    length, a count, a number of bits); the theorems show that the bound is never
    reached.  Searches in a skip list are bounded by its nodes plus its height;
    the log reader and recovery take any bound of at least the length
    of the log plus two; scans of a table block are bounded by its bytes;
    the loops of LZF by the bytes of the input, and of one match by its largest
    length.  Sizes are bounded where the code's own arithmetic would wrap:
    strings below 2^62 bytes, at most 5*2^28-1 tokens of a string and [INT_MAX]
    arguments of a line, fewer than 2^59 operations on a dictionary and tables of
    at most 2^60 buckets, fewer than 2^30 timers or coroutines, counters
    within their C types, leveldb batches below 2^31 records and sequence numbers
    within 56 bits; the statements carry these bounds as hypotheses.

    ** Assumptions

    The allocator of Redis returns the memory it is asked for (it ends the process
    otherwise).  In [Coroutine] the local [dummy] of [_save_stack] lies at the
    stack pointer that is saved.  Interleavings of leveldb's skip list are sequentially consistent, and there
    is one writer, as its comments demand.  Operator new returns fresh memory and
    does not fail.  Files in the durability theorem are byte sequences to which
    appends succeed; a crash leaves a prefix.  MakeRoomForWrite succeeds without
    switching the memtable or the log.  WriteLevel0Table succeeds there too.

    ** Not modelled

    System calls, sockets, files, threads, clocks and the allocator itself (they
    are outside the sources); floating point; code that is a thin layer over
    those (networking, persistence, replication, cluster bus, sentinel, event
    back ends, RPC and HTTP); the Lua and module bindings of Redis; muduo, libco,
    sofa-pbrpc, boost.lockfree and the Go projects.  Of leveldb: table files as
    a whole, versions, compaction, iterators over the database, opening and repair, the
    cache and the environment.  In modelled files: dict iterators, random sampling and
    statistics; floating point and random helpers of util.c; freeing functions
    that only return memory. *)
From stdpp Require Import base option list numbers.
From Stdlib Require Import ZArith Lia Bool.

Declare Scope c_scope.
Delimit Scope c_scope with C.
Open Scope Z_scope.
Open Scope c_scope.

(** ** Machine integers

    A C integer is a [Z]; a value of a [w]-bit unsigned (signed) type is the
    representative in [0, 2^w) (in [-2^(w-1), 2^(w-1))). *)

(** The largest [int]; a result above it is an overflow. *)
Notation INT_MAX := (2 ^ 31 - 1).

Definition wrap (w z : Z) : Z := z mod 2 ^ w.
Definition swrap (w z : Z) : Z := (z + 2 ^ (w - 1)) mod 2 ^ w - 2 ^ (w - 1).

Definition u8 (z : Z) : Z := wrap 8 z.
Definition u16 (z : Z) : Z := wrap 16 z.
Definition u32 (z : Z) : Z := wrap 32 z.
Definition u64 (z : Z) : Z := wrap 64 z.
Definition i8 (z : Z) : Z := swrap 8 z.
Definition i16 (z : Z) : Z := swrap 16 z.
Definition i32 (z : Z) : Z := swrap 32 z.
Definition i64 (z : Z) : Z := swrap 64 z.

Definition in_u (w z : Z) : Prop := 0 <= z < 2 ^ w.
Definition in_s (w z : Z) : Prop := - 2 ^ (w - 1) <= z < 2 ^ (w - 1).

Lemma wrap_id w z : in_u w z -> wrap w z = z.
Proof. unfold in_u, wrap. intros. by apply Z.mod_small. Qed.

Lemma wrap_range w z : 0 <= w -> in_u w (wrap w z).
Proof. intros. unfold in_u, wrap. apply Z.mod_pos_bound, Z.pow_pos_nonneg; lia. Qed.

Lemma pow2_half w : 0 < w -> 2 ^ w = 2 * 2 ^ (w - 1).
Proof.
  intros. replace w with (1 + (w - 1)) at 1 by lia.
  by rewrite Z.pow_add_r by lia.
Qed.

Lemma swrap_id w z : 0 < w -> in_s w z -> swrap w z = z.
Proof.
  unfold in_s, swrap. intros Hw Hz. pose proof (pow2_half w Hw).
  rewrite Z.mod_small; lia.
Qed.

Lemma swrap_range w z : 0 < w -> in_s w (swrap w z).
Proof.
  unfold in_s, swrap. intros Hw. pose proof (pow2_half w Hw).
  assert (0 < 2 ^ (w - 1)) by (apply Z.pow_pos_nonneg; lia).
  pose proof (Z.mod_pos_bound (z + 2 ^ (w - 1)) (2 ^ w)). lia.
Qed.

(** Reading a signed value back from its unsigned representation. *)
Lemma wrap_swrap w z : 0 < w -> wrap w (swrap w z) = wrap w z.
Proof.
  intros Hw. unfold wrap, swrap. rewrite Zminus_mod_idemp_l. f_equal. lia.
Qed.

Lemma swrap_wrap w z : 0 < w -> swrap w (wrap w z) = swrap w z.
Proof.
  intros Hw. unfold swrap, wrap.
  assert (0 < 2 ^ w) by (apply Z.pow_pos_nonneg; lia).
  by rewrite Zplus_mod_idemp_l.
Qed.

(** ** Lists measured and indexed by [Z] *)

Definition zlen {A} (l : list A) : Z := Z.of_nat (length l).

Lemma zlen_nonneg {A} (l : list A) : 0 <= zlen l.
Proof. unfold zlen. lia. Qed.
Lemma zlen_nil {A} : zlen (@nil A) = 0.
Proof. reflexivity. Qed.
Lemma zlen_cons {A} (x : A) l : zlen (x :: l) = 1 + zlen l.
Proof. unfold zlen. simpl. lia. Qed.
Lemma zlen_app {A} (l k : list A) : zlen (l ++ k) = zlen l + zlen k.
Proof. unfold zlen. rewrite length_app. lia. Qed.
Lemma zlen_map {A B} (f : A -> B) l : zlen (map f l) = zlen l.
Proof. unfold zlen. by rewrite length_map. Qed.
Lemma zlen_rev {A} (l : list A) : zlen (rev l) = zlen l.
Proof. unfold zlen. by rewrite length_rev. Qed.
Lemma zlen_replicate {A} n (x : A) : zlen (replicate n x) = Z.of_nat n.
Proof. unfold zlen. by rewrite length_replicate. Qed.
Lemma zlen_insert {A} i (x : A) l : zlen (<[i:=x]> l) = zlen l.
Proof. unfold zlen. by rewrite length_insert. Qed.
Lemma zlen_take {A} n (l : list A) : zlen (take n l) = Z.min (Z.of_nat n) (zlen l).
Proof. unfold zlen. rewrite length_take. lia. Qed.
Lemma zlen_drop {A} n (l : list A) :
  zlen (drop n l) = Z.max 0 (zlen l - Z.of_nat n).
Proof. unfold zlen. rewrite length_drop. lia. Qed.
Lemma zlen_0_inv {A} (l : list A) : zlen l = 0 -> l = [].
Proof. unfold zlen. destruct l; simpl; [done|lia]. Qed.

Create Rewrite HintDb zlen.
#[export] Hint Rewrite @zlen_nil @zlen_cons @zlen_app @zlen_map @zlen_rev
  @zlen_replicate @zlen_insert @zlen_take @zlen_drop : zlen.

(** Array access [a[i]]; out of range is undefined behaviour. *)
Definition znth {A} (l : list A) (i : Z) : option A :=
  if 0 <=? i then l !! Z.to_nat i else None.
(** Array store [a[i] = x]. *)
Definition zset {A} (l : list A) (i : Z) (x : A) : option (list A) :=
  if (0 <=? i) && (i <? zlen l) then Some (<[Z.to_nat i := x]> l) else None.

(** ** Byte buffers

    [rd b off n] is the read of [n] bytes at [b + off]; [wr b off x] stores the
    bytes [x] at [b + off].  Both are [None] when a byte outside the buffer
    would be touched. *)
Definition rd (b : list Z) (off n : Z) : option (list Z) :=
  if (0 <=? off) && (0 <=? n) && (off + n <=? zlen b)
  then Some (take (Z.to_nat n) (drop (Z.to_nat off) b)) else None.
Definition wr (b : list Z) (off : Z) (x : list Z) : option (list Z) :=
  if (0 <=? off) && (off + zlen x <=? zlen b)
  then Some (take (Z.to_nat off) b ++ x ++ drop (Z.to_nat (off + zlen x)) b)
  else None.
(** [memmove(b+dst, b+src, n)] *)
Definition memmove (b : list Z) (dst src n : Z) : option (list Z) :=
  x ← rd b src n; wr b dst x.

Definition is_byte (z : Z) : Prop := 0 <= z < 256.
Definition bytes (l : list Z) : Prop := Forall is_byte l.

(** Uninitialised memory handed out by the allocator: an arbitrary function of
    the position. *)
Definition garbage (junk : nat -> Z) (from n : nat) : list Z :=
  map (fun i => junk i mod 256) (seq from n).
(** [zrealloc] to [size] bytes: the common prefix is kept, the rest is
    uninitialised. *)
Definition zrealloc (junk : nat -> Z) (b : list Z) (size : Z) : list Z :=
  take (Z.to_nat size) b ++
  garbage junk (length b) (Z.to_nat size - length b).

(** ** Tactics *)

Ltac zlens := autorewrite with zlen in *.

(** Case analysis on the boolean comparisons of an executable definition. *)
Ltac zb_step :=
  match goal with
  | H : context [?a <=? ?b] |- _ => destruct (Z.leb_spec a b)
  | H : context [?a <? ?b] |- _ => destruct (Z.ltb_spec a b)
  | H : context [?a =? ?b] |- _ => destruct (Z.eqb_spec a b)
  | |- context [?a <=? ?b] => destruct (Z.leb_spec a b)
  | |- context [?a <? ?b] => destruct (Z.ltb_spec a b)
  | |- context [?a =? ?b] => destruct (Z.eqb_spec a b)
  end.
Ltac zb := repeat (zb_step; simpl andb in *; simpl orb in *; simpl negb in *; cbv iota in *).
(** Decide one boolean comparison whose outcome linear arithmetic knows. *)
Ltac zb_true :=
  repeat match goal with
  | |- context [?a <=? ?b] =>
      first [ rewrite (proj2 (Z.leb_le a b)) by lia
            | rewrite (proj2 (Z.leb_gt a b)) by lia ]
  | |- context [?a <? ?b] =>
      first [ rewrite (proj2 (Z.ltb_lt a b)) by lia
            | rewrite (proj2 (Z.ltb_ge a b)) by lia ]
  | |- context [?a =? ?b] =>
      first [ rewrite (proj2 (Z.eqb_eq a b)) by lia
            | rewrite (proj2 (Z.eqb_neq a b)) by lia ]
  end; simpl andb; simpl orb; simpl negb; cbv iota.

(** Evaluate the closed powers of the context. *)
Ltac pow2s :=
  repeat match goal with
  | |- context [?b ^ ?n] =>
      is_ground b; is_ground n; let v := eval vm_compute in (b ^ n) in
      progress change (b ^ n) with v
  | H : context [?b ^ ?n] |- _ =>
      is_ground b; is_ground n; let v := eval vm_compute in (b ^ n) in
      progress change (b ^ n) with v in H
  end.

(** ** Buffer lemmas *)

Lemma rd_Some b off n :
  0 <= off -> 0 <= n -> off + n <= zlen b ->
  rd b off n = Some (take (Z.to_nat n) (drop (Z.to_nat off) b)).
Proof. intros. unfold rd. by zb_true. Qed.

Lemma rd_inv b off n x :
  rd b off n = Some x -> 0 <= off /\ 0 <= n /\ off + n <= zlen b /\ zlen x = n.
Proof.
  unfold rd. intros. zb; simplify_eq. zlens. lia.
Qed.

(** A read that falls on a known segment. *)
Lemma rd_seg p x s off n :
  off = zlen p -> n = zlen x -> rd (p ++ x ++ s) off n = Some x.
Proof.
  intros -> ->. pose proof (zlen_nonneg p). pose proof (zlen_nonneg x).
  pose proof (zlen_nonneg s).
  rewrite rd_Some by (zlens; lia). unfold zlen. rewrite !Nat2Z.id.
  by rewrite drop_app_length, take_app_length.
Qed.

Lemma wr_Some b off x :
  0 <= off -> off + zlen x <= zlen b ->
  wr b off x = Some (take (Z.to_nat off) b ++ x ++ drop (Z.to_nat (off + zlen x)) b).
Proof. intros. unfold wr. by zb_true. Qed.

(** A store that falls on a known segment. *)
Lemma wr_seg p y s off x :
  off = zlen p -> zlen x = zlen y -> wr (p ++ y ++ s) off x = Some (p ++ x ++ s).
Proof.
  intros -> Hx. pose proof (zlen_nonneg p). pose proof (zlen_nonneg y).
  pose proof (zlen_nonneg s).
  rewrite wr_Some by (zlens; lia). unfold zlen in *. rewrite Nat2Z.id.
  rewrite take_app_length. f_equal. f_equal. f_equal.
  replace (Z.to_nat (Z.of_nat (length p) + Z.of_nat (length x)))
    with (length p + length y)%nat by lia.
  by rewrite <- length_app, (assoc_L (++)), drop_app_length.
Qed.

Lemma wr_zlen b off x b' : wr b off x = Some b' -> zlen b' = zlen b.
Proof.
  unfold wr. intros. pose proof (zlen_nonneg x). zb; simplify_eq. zlens. lia.
Qed.

Lemma length_garbage junk from n : length (garbage junk from n) = n.
Proof. unfold garbage. by rewrite length_map, length_seq. Qed.

Lemma bytes_garbage junk from n : bytes (garbage junk from n).
Proof.
  unfold garbage, bytes. apply Forall_map, Forall_true. intros i.
  unfold is_byte. pose proof (Z.mod_pos_bound (junk i) 256). lia.
Qed.

Lemma zrealloc_zlen junk b size : 0 <= size -> zlen (zrealloc junk b size) = size.
Proof.
  intros. unfold zrealloc. rewrite zlen_app, zlen_take.
  unfold zlen at 2. rewrite length_garbage. unfold zlen. lia.
Qed.

Lemma zrealloc_grow junk b size :
  zlen b <= size ->
  zrealloc junk b size = b ++ garbage junk (length b) (Z.to_nat (size - zlen b)).
Proof.
  unfold zlen, zrealloc. intros. rewrite take_ge by lia. do 2 f_equal. lia.
Qed.

Lemma zrealloc_shrink junk b size :
  0 <= size <= zlen b -> zrealloc junk b size = take (Z.to_nat size) b.
Proof.
  unfold zlen, zrealloc. intros.
  replace (Z.to_nat size - length b)%nat with 0%nat by lia.
  by rewrite app_nil_r.
Qed.

(** ** Little-endian integers in memory *)

Fixpoint le_enc (n : nat) (z : Z) : list Z :=
  match n with
  | O => []
  | S n => z mod 256 :: le_enc n (z / 256)
  end.
Fixpoint le_dec (l : list Z) : Z :=
  match l with
  | [] => 0
  | b :: l => b + 256 * le_dec l
  end.
(** Big-endian, for the hosts on which [BYTE_ORDER == BIG_ENDIAN]. *)
Definition be_enc (n : nat) (z : Z) : list Z := rev (le_enc n z).
Definition be_dec (l : list Z) : Z := le_dec (rev l).

Lemma length_le_enc n z : length (le_enc n z) = n.
Proof. revert z. induction n; simpl; intros; [done|]. by rewrite IHn. Qed.
Lemma zlen_le_enc n z : zlen (le_enc n z) = Z.of_nat n.
Proof. unfold zlen. by rewrite length_le_enc. Qed.
#[export] Hint Rewrite zlen_le_enc : zlen.

Lemma bytes_le_enc n z : bytes (le_enc n z).
Proof.
  revert z. induction n; simpl; intros; constructor; [|apply IHn].
  unfold is_byte. pose proof (Z.mod_pos_bound z 256). lia.
Qed.

Lemma le_dec_enc n z : le_dec (le_enc n z) = wrap (8 * Z.of_nat n) z.
Proof.
  revert z. induction n as [|n IH]; intros z; unfold wrap.
  - by rewrite Z.mod_1_r.
  - cbn [le_enc le_dec]. rewrite IH. unfold wrap.
    replace (8 * Z.of_nat (S n)) with (8 + 8 * Z.of_nat n) by lia.
    rewrite Z.pow_add_r by lia. change (2 ^ 8) with 256.
    rewrite Z.rem_mul_r; [lia..|]. apply Z.pow_pos_nonneg; lia.
Qed.

Lemma le_dec_range l : bytes l -> 0 <= le_dec l < 2 ^ (8 * zlen l).
Proof.
  induction 1 as [|b l Hb Hl IH]; [done|]. cbn [le_dec]. rewrite zlen_cons.
  pose proof (zlen_nonneg l). unfold is_byte in Hb.
  replace (8 * (1 + zlen l)) with (8 + 8 * zlen l) by lia.
  rewrite Z.pow_add_r by lia. change (2 ^ 8) with 256. lia.
Qed.

Lemma le_enc_dec l : bytes l -> le_enc (length l) (le_dec l) = l.
Proof.
  induction 1 as [|b l Hb Hl IH]; [done|]. simpl. unfold is_byte in Hb.
  rewrite (Z.mul_comm 256), Z_mod_plus_full, Z.mod_small by lia.
  rewrite Z.div_add by lia. by rewrite Z.div_small, Z.add_0_l, IH by lia.
Qed.

(** Only the residue of the value matters. *)
Lemma le_enc_wrap n z : le_enc n (wrap (8 * Z.of_nat n) z) = le_enc n z.
Proof.
  rewrite <- le_dec_enc. rewrite <- (length_le_enc n z) at 1.
  apply le_enc_dec, bytes_le_enc.
Qed.

Lemma be_dec_enc n z : be_dec (be_enc n z) = wrap (8 * Z.of_nat n) z.
Proof. unfold be_dec, be_enc. by rewrite rev_involutive, le_dec_enc. Qed.

(** ** Arrays of fixed-width elements *)

(** [encs w l] is the memory of an array of the [w]-byte little-endian
    integers [l]. *)
Definition encs (w : nat) (l : list Z) : list Z := concat (map (le_enc w) l).

Lemma encs_nil w : encs w [] = [].
Proof. reflexivity. Qed.
Lemma encs_cons w x l : encs w (x :: l) = le_enc w x ++ encs w l.
Proof. reflexivity. Qed.
Lemma encs_app w l k : encs w (l ++ k) = encs w l ++ encs w k.
Proof. unfold encs. by rewrite map_app, concat_app. Qed.
Lemma zlen_encs w l : zlen (encs w l) = Z.of_nat w * zlen l.
Proof.
  induction l; [rewrite encs_nil, !zlen_nil; lia|].
  rewrite encs_cons. zlens. lia.
Qed.
#[export] Hint Rewrite zlen_encs : zlen.
Lemma length_encs w l : length (encs w l) = (length l * w)%nat.
Proof. pose proof (zlen_encs w l). unfold zlen in *. lia. Qed.

Lemma encs_lookup w l i x :
  l !! i = Some x ->
  encs w l = encs w (take i l) ++ le_enc w x ++ encs w (drop (S i) l).
Proof.
  intros H. rewrite <- (take_drop_middle l i x H) at 1.
  by rewrite encs_app, encs_cons.
Qed.

Lemma lookup_zlen {A} (l : list A) i x : l !! i = Some x -> Z.of_nat i < zlen l.
Proof. intros H%lookup_lt_Some. unfold zlen. lia. Qed.

(** Reading, and overwriting, element [i] of such an array. *)
Lemma rd_encs w l i x s off n :
  l !! i = Some x -> off = Z.of_nat i * Z.of_nat w -> n = Z.of_nat w ->
  rd (encs w l ++ s) off n = Some (le_enc w x).
Proof.
  intros H -> ->. rewrite (encs_lookup w l i x H), <- !(assoc_L (++)).
  pose proof (lookup_zlen _ _ _ H).
  apply rd_seg; zlens; [|done]. rewrite Z.min_l by lia. lia.
Qed.

Lemma wr_encs w l i x y s off :
  l !! i = Some x -> off = Z.of_nat i * Z.of_nat w ->
  wr (encs w l ++ s) off (le_enc w y) = Some (encs w (<[i:=y]> l) ++ s).
Proof.
  intros H ->. pose proof (lookup_zlen _ _ _ H).
  rewrite (encs_lookup w l i x H), <- !(assoc_L (++)).
  rewrite (wr_seg _ (le_enc w x)); [|zlens; rewrite Z.min_l by lia; lia|by zlens].
  rewrite (encs_lookup w (<[i:=y]> l) i y)
    by (apply list_lookup_insert_eq; eapply lookup_lt_Some; eauto).
  rewrite take_insert_ge by lia. rewrite drop_insert_lt by lia.
  by rewrite <- !(assoc_L (++)).
Qed.

(** Reading back, and overwriting, a segment that was just stored. *)
Lemma wr_split b off x b' :
  wr b off x = Some b' ->
  exists p y s, b = p ++ y ++ s /\ b' = p ++ x ++ s /\ zlen p = off /\ zlen y = zlen x.
Proof.
  unfold wr. pose proof (zlen_nonneg x). intros. zb; simplify_eq.
  exists (take (Z.to_nat off) b),
    (take (Z.to_nat (zlen x)) (drop (Z.to_nat off) b)),
    (drop (Z.to_nat (off + zlen x)) b).
  zlens. split_and!; [|done|lia|lia].
  rewrite Z2Nat.inj_add, <- drop_drop by lia. by rewrite !take_drop.
Qed.

Lemma rd_wr_same b off x b' :
  wr b off x = Some b' -> rd b' off (zlen x) = Some x.
Proof. intros (p & y & s & -> & -> & <- & ?)%wr_split. by apply rd_seg. Qed.

Lemma wr_wr_same b off x y b' :
  wr b off x = Some b' -> zlen x = zlen y -> wr b' off y = wr b off y.
Proof.
  intros (p & z & s & -> & -> & <- & ?)%wr_split ?.
  rewrite !(wr_seg p) by congruence. done.
Qed.

(** What a store leaves untouched. *)
Lemma wr_take b off x b' n :
  wr b off x = Some b' -> (n <= Z.to_nat off)%nat -> take n b' = take n b.
Proof.
  intros (p & y & s & -> & -> & <- & ?)%wr_split Hn.
  unfold zlen in Hn. by rewrite !take_app_le by lia.
Qed.
Lemma wr_drop b off x b' :
  wr b off x = Some b' ->
  drop (Z.to_nat off) b' = x ++ drop (Z.to_nat (off + zlen x)) b.
Proof.
  intros (p & y & s & -> & -> & <- & Hy)%wr_split.
  unfold zlen in *. rewrite Nat2Z.id, drop_app_length. f_equal.
  replace (Z.to_nat _) with (length (p ++ y)) by (rewrite length_app; lia).
  by rewrite (assoc_L (++)), drop_app_length.
Qed.
Lemma wr_drop_after b off x b' :
  wr b off x = Some b' -> drop (Z.to_nat (off + zlen x)) b' = drop (Z.to_nat (off + zlen x)) b.
Proof.
  intros (p & y & s & -> & -> & <- & Hy)%wr_split. unfold zlen in *.
  rewrite (assoc_L (++)), (assoc_L (++) p y). rewrite !drop_app_length'; [done|rewrite length_app; lia..].
Qed.

Lemma wr_is_Some b off x :
  0 <= off -> off + zlen x <= zlen b -> is_Some (wr b off x).
Proof. intros. rewrite wr_Some by done. eauto. Qed.

(** A store of one byte is a store of a segment of length one. *)
Lemma zset_wr b i x : zset b i x = wr b i [x].
Proof.
  unfold zset, wr. change (zlen [x]) with 1.
  destruct (Z.leb_spec 0 i), (Z.ltb_spec i (zlen b)), (Z.leb_spec (i + 1) (zlen b));
    simpl; try lia; try done.
  f_equal. rewrite insert_take_drop by (unfold zlen in *; lia).
  do 2 f_equal. rewrite Z2Nat.inj_add by lia. simpl. f_equal. lia.
Qed.

(** Any range inside a list is a segment of it. *)
Lemma split_seg {A} (l : list A) off n :
  0 <= off -> 0 <= n -> off + n <= zlen l ->
  exists p y s, l = p ++ y ++ s /\ zlen p = off /\ zlen y = n.
Proof.
  intros. exists (take (Z.to_nat off) l), (take (Z.to_nat n) (drop (Z.to_nat off) l)),
    (drop (Z.to_nat n) (drop (Z.to_nat off) l)).
  rewrite !take_drop. zlens. split_and!; [done|lia|lia].
Qed.

(** Adjacent stores, the higher one first, are one store. *)
Lemma wr_app b off x y b1 :
  0 <= off -> wr b (off + zlen x) y = Some b1 -> wr b1 off x = wr b off (x ++ y).
Proof.
  intros Hoff (p & z & s & -> & -> & Hp & Hz)%wr_split.
  destruct (split_seg p off (zlen x)) as (p1 & y1 & s1 & -> & Hp1 & Hy1);
    [done|apply zlen_nonneg|lia|].
  assert (s1 = []) as -> by (apply zlen_0_inv; zlens; lia). zlens.
  rewrite app_nil_r, <- !(assoc_L (++)). rewrite (wr_seg p1) by lia.
  rewrite (assoc_L (++) y1), (wr_seg p1) by (zlens; lia).
  by rewrite <- (assoc_L (++)).
Qed.

Lemma zset_pair b i x y :
  1 <= i < zlen b ->
  exists b1, zset b i y = Some b1 /\ zset b1 (i - 1) x = wr b (i - 1) [x; y].
Proof.
  intros Hi. rewrite zset_wr. destruct (wr_is_Some b i [y]) as [b1 Hb1]; [lia|zlens; lia|].
  exists b1. split; [done|]. rewrite zset_wr. apply (wr_app b (i - 1) [x] [y] b1); [lia|].
  change (zlen [x]) with 1. by replace (i - 1 + 1) with i by lia.
Qed.

(** ** Arrays of any type *)

Lemma znth_nat {A} (l : list A) i : 0 <= i -> znth l i = l !! Z.to_nat i.
Proof. intros. unfold znth. by rewrite (proj2 (Z.leb_le 0 i)). Qed.

Lemma to_nat_zlen {A} (l : list A) : Z.to_nat (zlen l) = length l.
Proof. unfold zlen. apply Nat2Z.id. Qed.

Lemma znth_insert {A} (l : list A) i j x :
  0 <= i < zlen l -> znth (<[Z.to_nat i := x]> l) j = if j =? i then Some x else znth l j.
Proof.
  intros Hi. destruct (Z.ltb_spec j 0).
  - unfold znth. rewrite (proj2 (Z.eqb_neq j i)) by lia. by rewrite (proj2 (Z.leb_gt 0 j)) by lia.
  - rewrite !znth_nat by lia. destruct (Z.eqb_spec j i) as [->|].
    + apply list_lookup_insert_eq. unfold zlen in Hi. lia.
    + apply list_lookup_insert_ne. lia.
Qed.
Lemma znth_middle {A} (p : list A) x t : znth (p ++ x :: t) (zlen p) = Some x.
Proof. rewrite znth_nat by apply zlen_nonneg. by rewrite to_nat_zlen, list_lookup_middle. Qed.

Lemma znth_range {A} (l : list A) i x : znth l i = Some x -> 0 <= i < zlen l.
Proof.
  unfold znth, zlen. destruct (Z.leb_spec 0 i) as [Hi|Hi]; [|done].
  intros ?%lookup_lt_Some. lia.
Qed.

Lemma znth_seg {A} (p x s : list A) i b : znth x i = Some b -> znth (p ++ x ++ s) (zlen p + i) = Some b.
Proof.
  intros H. pose proof (znth_range _ _ _ H) as Hr. pose proof (zlen_nonneg p).
  rewrite znth_nat in * by lia. rewrite lookup_app_r by (unfold zlen in *; lia).
  rewrite lookup_app_l by (unfold zlen in *; lia). rewrite <- H. f_equal. unfold zlen. lia.
Qed.

Lemma znth_seg0 {A} (p x s : list A) b : znth x 0 = Some b -> znth (p ++ x ++ s) (zlen p) = Some b.
Proof. intros H. rewrite <- (Z.add_0_r (zlen p)). by apply znth_seg. Qed.

Lemma znth_is_Some {A} (l : list A) i : 0 <= i < zlen l -> exists x, znth l i = Some x.
Proof.
  intros Hi. rewrite znth_nat by lia. apply lookup_lt_is_Some_2. unfold zlen in Hi. lia.
Qed.

Lemma zset_Some {A} (l : list A) i x :
  0 <= i < zlen l -> zset l i x = Some (<[Z.to_nat i := x]> l).
Proof. intros Hi. unfold zset. zb_true. done. Qed.

(** The elements of an array of lists, one of which is replaced. *)
Lemma concat_insert_nil {A} (t : list (list A)) i b :
  t !! i = Some b -> Permutation (concat t) (b ++ concat (<[i := []]> t)).
Proof.
  revert i. induction t as [|c t IH]; intros [|i] Hi; simplify_eq/=; [done|].
  rewrite (IH i Hi). by rewrite !(assoc_L (++)), (Permutation_app_comm c b).
Qed.

Lemma concat_insert {A} (t : list (list A)) i b b' :
  t !! i = Some b ->
  Permutation (concat (<[i := b']> t)) (b' ++ concat (<[i := []]> t)).
Proof.
  intros Hi. rewrite (concat_insert_nil (<[i := b']> t) i b').
  - by rewrite list_insert_insert_eq.
  - apply list_lookup_insert_eq. by eapply lookup_lt_Some.
Qed.

Lemma elem_of_concat {A} (t : list (list A)) x :
  x ∈ concat t <-> exists i b, t !! i = Some b /\ x ∈ b.
Proof.
  rewrite list_elem_of_In, in_concat. split.
  - intros (b & [i Hi]%list_elem_of_In%list_elem_of_lookup & Hx). exists i, b.
    by rewrite list_elem_of_In.
  - intros (i & b & Hi & Hx). exists b. rewrite <- !list_elem_of_In.
    split; [by eapply list_elem_of_lookup_2|done].
Qed.

Lemma zlen_perm {A} (l k : list A) : Permutation l k -> zlen l = zlen k.
Proof. intros H. unfold zlen. by rewrite H. Qed.

#[global] Arguments le_enc : simpl never.
#[global] Arguments le_dec : simpl never.
#[global] Arguments be_enc : simpl never.
#[global] Arguments be_dec : simpl never.
#[global] Arguments encs : simpl never.
#[global] Arguments rd : simpl never.
#[global] Arguments wr : simpl never.
#[global] Arguments zlen : simpl never.
#[global] Arguments wrap : simpl never.
#[global] Arguments swrap : simpl never.
#[global] Arguments Z.mul : simpl never.
#[global] Arguments Z.add : simpl never.

Lemma rd_front (x t : list Z) n : n = zlen x -> rd (x ++ t) 0 n = Some x.
Proof. intros ->. by apply (rd_seg []). Qed.

Lemma wr_front (x y t : list Z) : zlen x = zlen y -> wr (y ++ t) 0 x = Some (x ++ t).
Proof. intros Hx. by apply (wr_seg [] y t 0 x). Qed.

Lemma zset_middle (p : list Z) x y t : zset (p ++ y :: t) (zlen p) x = Some (p ++ x :: t).
Proof.
  rewrite zset_wr. change (y :: t) with ([y] ++ t). change (x :: t) with ([x] ++ t). by apply wr_seg.
Qed.

(** ** Comparison of byte strings *)

(** [memcmp]: only the sign is specified. *)
Fixpoint memcmp (a b : list Z) : Z :=
  match a, b with
  | x :: a, y :: b => if x =? y then memcmp a b else if x <? y then -1 else 1
  | _, _ => 0
  end.

Lemma memcmp_eq a b : length a = length b -> (memcmp a b =? 0) = true <-> a = b.
Proof.
  revert b. induction a as [|x a IH]; intros [|y b] Hl; simpl in *; try done; try lia.
  destruct (Z.eqb_spec x y) as [->|Hne].
  - rewrite IH by lia. split; [by intros ->|by intros [= ->]].
  - destruct (x <? y); (split; [done|by intros [= -> ->]]).
Qed.

(** Lexicographic order of byte strings. *)
Fixpoint lex (a b : list Z) : Z :=
  match a, b with
  | [], [] => 0
  | [], _ => -1
  | _, [] => 1
  | x :: a, y :: b => if x =? y then lex a b else if x <? y then -1 else 1
  end.

Lemma lex_memcmp a b :
  lex a b =
  (let m := Z.to_nat (if zlen a <? zlen b then zlen a else zlen b) in
   let cmp := memcmp (take m a) (take m b) in
   if cmp =? 0 then (if zlen b <? zlen a then 1 else if zlen a <? zlen b then -1 else 0) else cmp).
Proof.
  revert b. induction a as [|x a IH]; intros [|y b].
  - done.
  - cbv zeta. pose proof (zlen_nonneg b). zlens. by zb_true.
  - cbv zeta. pose proof (zlen_nonneg a). zlens. by zb_true.
  - cbv zeta in *. zlens. cbn [lex].
    assert (Hlt : (1 + zlen a <? 1 + zlen b) = (zlen a <? zlen b))
      by (destruct (Z.ltb_spec (zlen a) (zlen b)); zb_true; done).
    assert (Hgt : (1 + zlen b <? 1 + zlen a) = (zlen b <? zlen a))
      by (destruct (Z.ltb_spec (zlen b) (zlen a)); zb_true; done).
    rewrite Hlt, Hgt. set (m := if zlen a <? zlen b then zlen a else zlen b) in *.
    assert (Hm : 0 <= m) by (unfold m; destruct (zlen a <? zlen b); apply zlen_nonneg).
    replace (Z.to_nat (if zlen a <? zlen b then 1 + zlen a else 1 + zlen b)) with (S (Z.to_nat m))
      by (unfold m in *; destruct (zlen a <? zlen b); lia).
    cbn [take memcmp]. destruct (x =? y); [apply IH|]. by destruct (x <? y).
Qed.

Lemma lex_eq a b : lex a b = 0 <-> a = b.
Proof.
  revert b. induction a as [|x a IH]; intros [|y b]; simpl; try done.
  destruct (Z.eqb_spec x y) as [->|Hne].
  - rewrite IH. split; [by intros ->|by intros [= ->]].
  - destruct (x <? y); (split; [done|by intros [= -> ->]]).
Qed.

Lemma lex_opp a b : lex b a = - lex a b.
Proof.
  revert b. induction a as [|x a IH]; intros [|y b]; simpl; try done.
  rewrite (Z.eqb_sym y x). destruct (Z.eqb_spec x y); [apply IH|].
  destruct (Z.ltb_spec x y), (Z.ltb_spec y x); lia.
Qed.

Lemma lex_range a b : lex a b = -1 \/ lex a b = 0 \/ lex a b = 1.
Proof.
  revert b. induction a as [|x a IH]; intros [|y b]; simpl; auto.
  destruct (x =? y); [apply IH|]. destruct (x <? y); auto.
Qed.

Lemma lex_trans a b c : lex a b < 0 -> lex b c < 0 -> lex a c < 0.
Proof.
  revert b c. induction a as [|x a IH]; intros [|y b] [|z c]; simpl; try lia.
  destruct (Z.eqb_spec x y) as [->|Hxy].
  - destruct (Z.eqb_spec y z) as [->|Hyz]; [apply IH|]. destruct (Z.ltb_spec y z); lia.
  - destruct (Z.ltb_spec x y); [|lia]. intros _. destruct (Z.eqb_spec y z) as [->|Hyz].
    + destruct (Z.eqb_spec x z); [lia|]. destruct (Z.ltb_spec x z); lia.
    + destruct (Z.ltb_spec y z); [|lia]. destruct (Z.eqb_spec x z); [lia|]. destruct (Z.ltb_spec x z); lia.
Qed.

(** ** Bit operations as arithmetic *)

Lemma lor_shift r c s : 0 <= s -> 0 <= r < 2 ^ s -> Z.lor r (Z.shiftl c s) = r + c * 2 ^ s.
Proof.
  intros Hs Hr. rewrite <- Z.shiftl_mul_pow2 by lia. pose proof (Z.add_lor_land r (Z.shiftl c s)) as H.
  assert (Z.land r (Z.shiftl c s) = 0) as Hl; [|lia].
  apply Z.bits_inj'. intros i Hi. rewrite Z.land_spec, Z.bits_0.
  destruct (Z.lt_ge_cases i s).
  - by rewrite (Z.shiftl_spec_low c s i), andb_false_r by lia.
  - rewrite <- (Z.mod_small r (2 ^ s)), Z.mod_pow2_bits_high by lia. done.
Qed.

(** Adding a part above bit [s] to a value below it, at width [w]. *)
Lemma lor_shift_wrap w r c s :
  0 <= s <= w -> 0 <= r < 2 ^ s -> Z.lor r (wrap w (Z.shiftl c s)) = wrap w (r + c * 2 ^ s).
Proof.
  intros Hs Hr. unfold wrap. replace w with (s + (w - s)) by lia.
  assert (0 < 2 ^ s) by lia. assert (0 < 2 ^ (w - s)) by (apply Z.pow_pos_nonneg; lia).
  rewrite Z.shiftl_mul_pow2, Z.pow_add_r, (Z.mul_comm c) by lia.
  rewrite Z.mul_mod_distr_l by lia.
  rewrite (Z.mul_comm (2 ^ s) (c mod _)), <- (Z.shiftl_mul_pow2 (c mod _) s), lor_shift by lia.
  rewrite Z.rem_mul_r, ?(Z.mul_comm (2 ^ s) c) by lia.
  rewrite Z.div_add, Z.mod_add, (Z.mod_small r), (Z.div_small r) by lia. rewrite Z.add_0_l. lia.
Qed.

Lemma land_low z n : 0 <= n -> Z.land z (2 ^ n - 1) = z mod 2 ^ n.
Proof. intros. rewrite <- Z.land_ones by lia. by rewrite Z.ones_equiv, Z.sub_1_r. Qed.
