(* ===== verification/Endian.v ===== *)
(** * Endian: [endianconv.c] and the [*ifbe] macros of [endianconv.h]

    The byte order of the host is the parameter [be] of every definition
    ([true] when [BYTE_ORDER == BIG_ENDIAN]), so that the theorems cover both
    branches of the preprocessor conditionals. *)
From stdpp Require Import base option list numbers.
From Stdlib Require Import ZArith Lia Bool.
From S2P Require Import Prelude.
Open Scope Z_scope.

(** ** Loads and stores of the host *)

(** The [n] bytes that hold the unsigned value [v] in the memory of the host,
    and the value the host reads from such bytes. *)
Definition host_store (be : bool) (n : nat) (v : Z) : list Z :=
  if be then be_enc n v else le_enc n v.
Definition host_load (be : bool) (l : list Z) : Z :=
  if be then be_dec l else le_dec l.

(** ** endianconv.c *)

(** [t = x[i]; x[i] = x[j]; x[j] = t;] *)
Definition swap_bytes (x : list Z) (i j : Z) : option (list Z) :=
  t ← znth x i; y ← znth x j; x ← zset x i y; zset x j t.

Definition memrev16 (x : list Z) : option (list Z) := swap_bytes x 0 1.
Definition memrev32 (x : list Z) : option (list Z) :=
  x ← swap_bytes x 0 3; swap_bytes x 1 2.
Definition memrev64 (x : list Z) : option (list Z) :=
  x ← swap_bytes x 0 7; x ← swap_bytes x 1 6;
  x ← swap_bytes x 2 5; swap_bytes x 3 4.

Definition intrev16 (be : bool) (v : Z) : option Z :=
  x ← memrev16 (host_store be 2 v); Some (host_load be x).
Definition intrev32 (be : bool) (v : Z) : option Z :=
  x ← memrev32 (host_store be 4 v); Some (host_load be x).
Definition intrev64 (be : bool) (v : Z) : option Z :=
  x ← memrev64 (host_store be 8 v); Some (host_load be x).

(** ** endianconv.h *)

Definition memrev16ifbe (be : bool) (x : list Z) : option (list Z) :=
  if be then memrev16 x else Some x.
Definition memrev32ifbe (be : bool) (x : list Z) : option (list Z) :=
  if be then memrev32 x else Some x.
Definition memrev64ifbe (be : bool) (x : list Z) : option (list Z) :=
  if be then memrev64 x else Some x.
Definition intrev16ifbe (be : bool) (v : Z) : option Z :=
  if be then intrev16 be v else Some v.
Definition intrev32ifbe (be : bool) (v : Z) : option Z :=
  if be then intrev32 be v else Some v.
Definition intrev64ifbe (be : bool) (v : Z) : option Z :=
  if be then intrev64 be v else Some v.
Definition htonu64 (be : bool) (v : Z) : option Z :=
  if be then Some v else intrev64 be v.
Definition ntohu64 (be : bool) (v : Z) : option Z :=
  if be then Some v else intrev64 be v.

(** ** The reversals reverse *)

(** A list of known length is a literal list. *)
Lemma list_of_length {A} (x : list A) n :
  zlen x = Z.of_nat n -> length x = n.
Proof. unfold zlen. lia. Qed.

Ltac explode x H :=
  apply list_of_length in H;
  repeat (destruct x as [|? x]; simpl in H; try discriminate H;
          try (injection H as H)); clear H.

Lemma memrev16_rev x : zlen x = Z.of_nat 2 -> memrev16 x = Some (rev x).
Proof. intros H. explode x H. reflexivity. Qed.
Lemma memrev32_rev x : zlen x = Z.of_nat 4 -> memrev32 x = Some (rev x).
Proof. intros H. explode x H. reflexivity. Qed.
Lemma memrev64_rev x : zlen x = Z.of_nat 8 -> memrev64 x = Some (rev x).
Proof. intros H. explode x H. reflexivity. Qed.

Lemma zlen_host_store be n v : zlen (host_store be n v) = Z.of_nat n.
Proof. destruct be; simpl; unfold be_enc; by zlens. Qed.
#[export] Hint Rewrite zlen_host_store : zlen.

Lemma host_load_store be n v :
  host_load be (host_store be n v) = wrap (8 * Z.of_nat n) v.
Proof. destruct be; [apply be_dec_enc | apply le_dec_enc]. Qed.

(** Storing a value and applying the [memrev*ifbe] macro of its width leaves
    the little-endian representation in memory, on every host. *)
Lemma memrev16ifbe_store be v :
  memrev16ifbe be (host_store be 2 v) = Some (le_enc 2 v).
Proof.
  destruct be; [|done]. simpl. rewrite memrev16_rev by (unfold be_enc; by zlens).
  unfold be_enc. by rewrite rev_involutive.
Qed.
Lemma memrev32ifbe_store be v :
  memrev32ifbe be (host_store be 4 v) = Some (le_enc 4 v).
Proof.
  destruct be; [|done]. simpl. rewrite memrev32_rev by (unfold be_enc; by zlens).
  unfold be_enc. by rewrite rev_involutive.
Qed.
Lemma memrev64ifbe_store be v :
  memrev64ifbe be (host_store be 8 v) = Some (le_enc 8 v).
Proof.
  destruct be; [|done]. simpl. rewrite memrev64_rev by (unfold be_enc; by zlens).
  unfold be_enc. by rewrite rev_involutive.
Qed.

(** Conversely the macro turns little-endian memory into what the host
    stores. *)
Lemma memrev16ifbe_le be v :
  memrev16ifbe be (le_enc 2 v) = Some (host_store be 2 v).
Proof. destruct be; [|done]. simpl. by rewrite memrev16_rev by (by zlens). Qed.
Lemma memrev32ifbe_le be v :
  memrev32ifbe be (le_enc 4 v) = Some (host_store be 4 v).
Proof. destruct be; [|done]. simpl. by rewrite memrev32_rev by (by zlens). Qed.
Lemma memrev64ifbe_le be v :
  memrev64ifbe be (le_enc 8 v) = Some (host_store be 8 v).
Proof. destruct be; [|done]. simpl. by rewrite memrev64_rev by (by zlens). Qed.

(** ** Value reversals *)

(** The value whose little-endian bytes are those of [v] reversed. *)
Definition bswap (n : nat) (v : Z) : Z := be_dec (le_enc n v).

Lemma bytes_rev l : bytes l -> bytes (rev l).
Proof. apply Forall_rev. Qed.

Lemma bswap_range n v : in_u (8 * Z.of_nat n) (bswap n v).
Proof.
  unfold bswap, be_dec, in_u.
  pose proof (le_dec_range (rev (le_enc n v))) as H.
  zlens. apply H, bytes_rev, bytes_le_enc.
Qed.

Lemma le_enc_bswap n v : le_enc n (bswap n v) = rev (le_enc n v).
Proof.
  unfold bswap, be_dec.
  pose proof (le_enc_dec (rev (le_enc n v)) (bytes_rev _ (bytes_le_enc n v))) as H.
  by rewrite length_rev, length_le_enc in H.
Qed.

Lemma bswap_involutive n v : in_u (8 * Z.of_nat n) v -> bswap n (bswap n v) = v.
Proof.
  intros. unfold bswap at 1, be_dec. rewrite le_enc_bswap, rev_involutive.
  by rewrite le_dec_enc, wrap_id.
Qed.

Lemma intrev16_bswap be v : intrev16 be v = Some (bswap 2 v).
Proof.
  unfold intrev16. rewrite memrev16_rev by (by zlens). simpl.
  unfold bswap. destruct be; simpl; unfold be_enc, be_dec;
    by rewrite ?rev_involutive.
Qed.
Lemma intrev32_bswap be v : intrev32 be v = Some (bswap 4 v).
Proof.
  unfold intrev32. rewrite memrev32_rev by (by zlens). simpl.
  unfold bswap. destruct be; simpl; unfold be_enc, be_dec;
    by rewrite ?rev_involutive.
Qed.
Lemma intrev64_bswap be v : intrev64 be v = Some (bswap 8 v).
Proof.
  unfold intrev64. rewrite memrev64_rev by (by zlens). simpl.
  unfold bswap. destruct be; simpl; unfold be_enc, be_dec;
    by rewrite ?rev_involutive.
Qed.

#[global] Arguments host_store : simpl never.
#[global] Arguments host_load : simpl never.
#[global] Arguments memrev16ifbe : simpl never.
#[global] Arguments memrev32ifbe : simpl never.
#[global] Arguments memrev64ifbe : simpl never.
#[global] Arguments intrev32ifbe : simpl never.
