(* ===== verification/Intset.v ===== *)
(** * Intset: the sorted integer set of [intset.c]

    An intset is one memory block: a header (encoding, length) and an array of
    2, 4 or 8 byte integers in ascending order, always little-endian.  The
    model works on the bytes of that block. *)
From stdpp Require Import base option list numbers gmap sorting.
From Stdlib Require Import ZArith Lia Bool.
From S2P Require Import Prelude Endian.
Open Scope Z_scope.

(** ** Data *)

(** [struct intset]; the two header fields hold what the host reads from the
    struct, before [intrev32ifbe]. *)
Record intset := mk_intset {
  is_encoding : Z;
  is_length : Z;
  is_contents : list Z
}.

Definition INTSET_ENC_INT16 : Z := 2.
Definition INTSET_ENC_INT32 : Z := 4.
Definition INTSET_ENC_INT64 : Z := 8.

Definition INT16_MIN : Z := - 2 ^ 15.
Definition INT16_MAX : Z := 2 ^ 15 - 1.
Definition INT32_MIN : Z := - 2 ^ 31.
Definition INT32_MAX : Z := 2 ^ 31 - 1.

Section Operations.
(** The host's byte order and the contents of fresh memory. *)
Variable be : bool.
Variable junk : nat -> Z.

(** ** Operations *)

Definition _intsetValueEncoding (v : Z) : Z :=
  if (v <? INT32_MIN) || (INT32_MAX <? v) then INTSET_ENC_INT64
  else if (v <? INT16_MIN) || (INT16_MAX <? v) then INTSET_ENC_INT32
  else INTSET_ENC_INT16.

Definition _intsetGetEncoded (iset : intset) (pos enc : Z) : option Z :=
  if enc =? INTSET_ENC_INT64 then
    v64 ← rd (is_contents iset) (pos * 8) 8;
    v64 ← memrev64ifbe be v64;
    Some (i64 (host_load be v64))
  else if enc =? INTSET_ENC_INT32 then
    v32 ← rd (is_contents iset) (pos * 4) 4;
    v32 ← memrev32ifbe be v32;
    Some (i32 (host_load be v32))
  else
    v16 ← rd (is_contents iset) (pos * 2) 2;
    v16 ← memrev16ifbe be v16;
    Some (i16 (host_load be v16)).

Definition _intsetGet (iset : intset) (pos : Z) : option Z :=
  enc ← intrev32ifbe be (is_encoding iset);
  _intsetGetEncoded iset pos (u8 enc).

(** Store [value] in slot [pos] of width [w], then reverse the slot in place. *)
Definition set_slot (w : nat) (revifbe : bool -> list Z -> option (list Z))
    (c : list Z) (pos value : Z) : option (list Z) :=
  c ← wr c (pos * Z.of_nat w) (host_store be w value);
  x ← rd c (pos * Z.of_nat w) (Z.of_nat w);
  x ← revifbe be x;
  wr c (pos * Z.of_nat w) x.

Definition _intsetSet (iset : intset) (pos value : Z) : option intset :=
  encoding ← intrev32ifbe be (is_encoding iset);
  c ← (if encoding =? INTSET_ENC_INT64 then
         set_slot 8 memrev64ifbe (is_contents iset) pos value
       else if encoding =? INTSET_ENC_INT32 then
         set_slot 4 memrev32ifbe (is_contents iset) pos value
       else
         set_slot 2 memrev16ifbe (is_contents iset) pos value);
  Some (mk_intset (is_encoding iset) (is_length iset) c).

Definition intsetNew : option intset :=
  e ← intrev32ifbe be INTSET_ENC_INT16; Some (mk_intset e 0 []).

Definition intsetResize (iset : intset) (len : Z) : option intset :=
  e ← intrev32ifbe be (is_encoding iset);
  let size := u32 (len * e) in
  Some (mk_intset (is_encoding iset) (is_length iset)
          (zrealloc junk (is_contents iset) size)).

(** The [while(max >= min)] loop of [intsetSearch]; the result is
    [(min, mid, cur)] at its exit. *)
Fixpoint search_loop (fuel : nat) (iset : intset) (value min max mid cur : Z)
    : option (Z * Z * Z) :=
  match fuel with
  | O => None
  | S fuel =>
      if min <=? max then
        let mid := i32 (Z.shiftr (u32 (u32 min + u32 max)) 1) in
        cur ← _intsetGet iset mid;
        if cur <? value then search_loop fuel iset value (mid + 1) max mid cur
        else if value <? cur then search_loop fuel iset value min (mid - 1) mid cur
        else Some (min, mid, cur)
      else Some (min, mid, cur)
  end.

(** Returns the C result (0 or 1) and the value left in [*pos]. *)
Definition intsetSearch (iset : intset) (value : Z) : option (Z * Z) :=
  len ← intrev32ifbe be (is_length iset);
  let min := 0 in
  let max := i32 (u32 (len - 1)) in
  if len =? 0 then Some (0, 0)
  else
    last ← _intsetGet iset max;
    if last <? value then Some (0, len)
    else
      first ← _intsetGet iset 0;
      if value <? first then Some (0, 0)
      else
        '(min, mid, cur) ← search_loop (S (S (Z.to_nat max))) iset value min max (-1) (-1);
        if value =? cur then Some (1, u32 mid) else Some (0, u32 min).

(** [while(length--) _intsetSet(iset,length+prepend,
      _intsetGetEncoded(iset,length,curenc));] *)
Fixpoint upgrade_loop (length : nat) (iset : intset) (prepend curenc : Z)
    : option intset :=
  match length with
  | O => Some iset
  | S length =>
      v ← _intsetGetEncoded iset (Z.of_nat length) curenc;
      iset ← _intsetSet iset (Z.of_nat length + prepend) v;
      upgrade_loop length iset prepend curenc
  end.

Definition set_length (iset : intset) (f : Z -> Z) : option intset :=
  len ← intrev32ifbe be (is_length iset);
  len ← intrev32ifbe be (u32 (f len));
  Some (mk_intset (is_encoding iset) len (is_contents iset)).

Definition intsetUpgradeAndAdd (iset : intset) (value : Z) : option intset :=
  curenc ← intrev32ifbe be (is_encoding iset);
  let curenc := u8 curenc in
  let newenc := _intsetValueEncoding value in
  len ← intrev32ifbe be (is_length iset);
  let length := i32 len in
  let prepend := if value <? 0 then 1 else 0 in
  e ← intrev32ifbe be newenc;
  let iset := mk_intset e (is_length iset) (is_contents iset) in
  iset ← intsetResize iset (u32 (len + 1));
  iset ← (if length <? 0 then None
        else upgrade_loop (Z.to_nat length) iset prepend curenc);
  iset ← (if value <? 0 then _intsetSet iset 0 value
        else
          len ← intrev32ifbe be (is_length iset);
          _intsetSet iset len value);
  set_length iset (fun len => len + 1).

Definition intsetMoveTail (iset : intset) (from to : Z) : option intset :=
  len ← intrev32ifbe be (is_length iset);
  let bytes := u32 (len - from) in
  encoding ← intrev32ifbe be (is_encoding iset);
  c ← (if encoding =? INTSET_ENC_INT64 then
         memmove (is_contents iset) (to * 8) (from * 8) (u32 (bytes * 8))
       else if encoding =? INTSET_ENC_INT32 then
         memmove (is_contents iset) (to * 4) (from * 4) (u32 (bytes * 4))
       else
         memmove (is_contents iset) (to * 2) (from * 2) (u32 (bytes * 2)));
  Some (mk_intset (is_encoding iset) (is_length iset) c).

(** The second component is the value of [*success]. *)
Definition intsetAdd (iset : intset) (value : Z) : option (intset * Z) :=
  let valenc := _intsetValueEncoding value in
  enc ← intrev32ifbe be (is_encoding iset);
  if enc <? valenc then
    iset ← intsetUpgradeAndAdd iset value; Some (iset, 1)
  else
    '(found, pos) ← intsetSearch iset value;
    if found =? 1 then Some (iset, 0)
    else
      len ← intrev32ifbe be (is_length iset);
      iset ← intsetResize iset (u32 (len + 1));
      iset ← (if pos <? len then intsetMoveTail iset pos (u32 (pos + 1)) else Some iset);
      iset ← _intsetSet iset pos value;
      iset ← set_length iset (fun len => len + 1);
      Some (iset, 1).

Definition intsetRemove (iset : intset) (value : Z) : option (intset * Z) :=
  let valenc := _intsetValueEncoding value in
  enc ← intrev32ifbe be (is_encoding iset);
  if valenc <=? enc then
    '(found, pos) ← intsetSearch iset value;
    if found =? 1 then
      len ← intrev32ifbe be (is_length iset);
      iset ← (if pos <? u32 (len - 1) then intsetMoveTail iset (u32 (pos + 1)) pos
            else Some iset);
      iset ← intsetResize iset (u32 (len - 1));
      iset ← set_length iset (fun _ => len - 1);
      Some (iset, 1)
    else Some (iset, 0)
  else Some (iset, 0).

Definition intsetFind (iset : intset) (value : Z) : option Z :=
  let valenc := _intsetValueEncoding value in
  enc ← intrev32ifbe be (is_encoding iset);
  if valenc <=? enc then
    '(found, _) ← intsetSearch iset value; Some found
  else Some 0.

(** [r] is the value returned by [rand()]. *)
Definition intsetRandom (r : Z) (iset : intset) : option Z :=
  len ← intrev32ifbe be (is_length iset);
  if len =? 0 then None else _intsetGet iset (r mod len).

(** [Some (1, v)] when [*value] is set to [v]. *)
Definition intsetGet (iset : intset) (pos : Z) : option (Z * option Z) :=
  len ← intrev32ifbe be (is_length iset);
  if pos <? len then v ← _intsetGet iset pos; Some (1, Some v)
  else Some (0, None).

Definition intsetLen (iset : intset) : option Z := intrev32ifbe be (is_length iset).

Definition intsetBlobLen (iset : intset) : option Z :=
  len ← intrev32ifbe be (is_length iset);
  enc ← intrev32ifbe be (is_encoding iset);
  Some (8 + u32 (len * enc)).

(** The bytes of the whole block, as they are copied to disk by the RDB
    writer: [intsetBlobLen] bytes from the address of the struct. *)
Definition intset_blob (iset : intset) : list Z :=
  host_store be 4 (is_encoding iset) ++ host_store be 4 (is_length iset)
  ++ is_contents iset.
End Operations.

(** Evaluation on both hosts. *)
Definition add_all (be : bool) (iset : option intset) (vs : list Z) : option intset :=
  foldl (fun iset v => iset ← iset; '(iset, _) ← intsetAdd be (fun _ => 0) iset v; Some iset) iset vs.

Example intset_run_le :
  intset_blob false <$> add_all false (intsetNew false) [5; -3; 5; 40000; -7] =
  Some [4; 0; 0; 0; 4; 0; 0; 0; 249; 255; 255; 255; 253; 255; 255; 255;
        5; 0; 0; 0; 64; 156; 0; 0].
Proof. vm_compute. reflexivity. Qed.
Example intset_run_be :
  intset_blob true <$> add_all true (intsetNew true) [5; -3; 5; 40000; -7] =
  intset_blob false <$> add_all false (intsetNew false) [5; -3; 5; 40000; -7].
Proof. vm_compute. reflexivity. Qed.

(** ** Representation *)

Section Proofs.
Variable be : bool.
Variable junk : nat -> Z.

Definition rev32 (v : Z) : Z := if be then bswap 4 v else v.

Lemma intrev32ifbe_eq v : intrev32ifbe be v = Some (rev32 v).
Proof. unfold intrev32ifbe, rev32. destruct be; [apply intrev32_bswap|done]. Qed.

Lemma rev32_rev32 v : in_u 32 v -> rev32 (rev32 v) = v.
Proof. intros. unfold rev32. destruct be; [|done]. by apply (bswap_involutive 4). Qed.

Definition is_width (w : nat) : Prop := w = 2%nat \/ w = 4%nat \/ w = 8%nat.

(** [rep w l s]: the block [s] holds the strictly increasing sequence [l] in
    slots of [w] bytes. *)
Record rep (w : nat) (l : list Z) (s : intset) : Prop := {
  rep_width : is_width w;
  rep_enc : is_encoding s = rev32 (Z.of_nat w);
  rep_len : is_length s = rev32 (zlen l);
  rep_contents : is_contents s = encs w l;
  rep_sorted : StronglySorted Z.lt l;
  rep_range : Forall (in_s (8 * Z.of_nat w)) l;
  rep_size : zlen l * Z.of_nat w < 2 ^ 32
}.

Lemma rep_int w l s : rep w l s -> zlen l < 2 ^ 31.
Proof.
  intros H. pose proof (rep_size _ _ _ H). pose proof (zlen_nonneg l).
  destruct (rep_width _ _ _ H) as [-> | [-> | ->]]; lia.
Qed.

(** *** Slots *)

Lemma get_rd s w i x :
  is_width w ->
  rd (is_contents s) (i * Z.of_nat w) (Z.of_nat w) = Some (le_enc w x) ->
  in_s (8 * Z.of_nat w) x ->
  _intsetGetEncoded be s i (Z.of_nat w) = Some x.
Proof.
  unfold _intsetGetEncoded.
  intros [-> | [-> | ->]] Hrd Hx;
    [change (Z.of_nat 2) with 2 in * | change (Z.of_nat 4) with 4 in *
    | change (Z.of_nat 8) with 8 in *]; simpl; rewrite Hrd; simpl.
  - rewrite memrev16ifbe_le. simpl. rewrite host_load_store.
    unfold i16. f_equal. rewrite swrap_wrap by lia. by apply swrap_id.
  - rewrite memrev32ifbe_le. simpl. rewrite host_load_store.
    unfold i32. f_equal. rewrite swrap_wrap by lia. by apply swrap_id.
  - rewrite memrev64ifbe_le. simpl. rewrite host_load_store.
    unfold i64. f_equal. rewrite swrap_wrap by lia. by apply swrap_id.
Qed.

Lemma set_slot_wr w revifbe c i x c' :
  revifbe be (host_store be w x) = Some (le_enc w x) ->
  wr c (i * Z.of_nat w) (le_enc w x) = Some c' ->
  set_slot be w revifbe c i x = Some c'.
Proof.
  intros Hrev Hwr. unfold set_slot.
  assert (zlen (le_enc w x) = zlen (host_store be w x)) as Hl by (by zlens).
  destruct (wr c (i * Z.of_nat w) (host_store be w x)) as [c1|] eqn:H1; simpl.
  - pose proof (rd_wr_same _ _ _ _ H1) as H2. rewrite zlen_host_store in H2.
    rewrite H2. simpl. rewrite Hrev. simpl.
    by rewrite (wr_wr_same _ _ _ (le_enc w x) _ H1).
  - unfold wr in *. rewrite Hl in Hwr. by destruct (_ && _).
Qed.

Lemma set_wr s w i x c' :
  is_width w -> is_encoding s = rev32 (Z.of_nat w) ->
  wr (is_contents s) (i * Z.of_nat w) (le_enc w x) = Some c' ->
  _intsetSet be s i x = Some (mk_intset (is_encoding s) (is_length s) c').
Proof.
  intros Hw He Hwr. unfold _intsetSet. rewrite intrev32ifbe_eq. simpl.
  rewrite He, rev32_rev32
    by (destruct Hw as [-> | [-> | ->]]; unfold in_u; lia).
  destruct Hw as [-> | [-> | ->]]; simpl.
  - by rewrite (set_slot_wr 2 _ _ _ _ _ (memrev16ifbe_store be x) Hwr).
  - by rewrite (set_slot_wr 4 _ _ _ _ _ (memrev32ifbe_store be x) Hwr).
  - by rewrite (set_slot_wr 8 _ _ _ _ _ (memrev64ifbe_store be x) Hwr).
Qed.

Lemma set_wr_mk w e n c i x c' :
  is_width w -> e = rev32 (Z.of_nat w) ->
  wr c (i * Z.of_nat w) (le_enc w x) = Some c' ->
  _intsetSet be (mk_intset e n c) i x = Some (mk_intset e n c').
Proof. apply (set_wr (mk_intset e n c)). Qed.

Lemma width_u8 w : is_width w -> u8 (Z.of_nat w) = Z.of_nat w.
Proof. by intros [-> | [-> | ->]]. Qed.

Lemma width_u32 w : is_width w -> in_u 32 (Z.of_nat w).
Proof. intros [-> | [-> | ->]]; unfold in_u; lia. Qed.

Lemma rep_enc_rev w l s : rep w l s -> intrev32ifbe be (is_encoding s) = Some (Z.of_nat w).
Proof.
  intros H. rewrite intrev32ifbe_eq, (rep_enc _ _ _ H), rev32_rev32; [done|].
  apply width_u32, (rep_width _ _ _ H).
Qed.

Lemma rep_len_u32 w l s : rep w l s -> in_u 32 (zlen l).
Proof. intros H. pose proof (rep_int _ _ _ H). pose proof (zlen_nonneg l). unfold in_u. lia. Qed.

Lemma rep_len_rev w l s : rep w l s -> intrev32ifbe be (is_length s) = Some (zlen l).
Proof.
  intros H. rewrite intrev32ifbe_eq, (rep_len _ _ _ H), rev32_rev32; [done|].
  by eapply rep_len_u32.
Qed.

Lemma rep_get w l s (i : nat) x :
  rep w l s -> l !! i = Some x -> _intsetGet be s (Z.of_nat i) = Some x.
Proof.
  intros H Hi. unfold _intsetGet. rewrite (rep_enc_rev _ _ _ H). simpl.
  rewrite width_u8 by apply H. apply get_rd; [apply H| |].
  - rewrite (rep_contents _ _ _ H), <- (app_nil_r (encs w l)).
    by eapply rd_encs.
  - eapply Forall_lookup_1; [apply H|done].
Qed.

(** *** Search *)

(** [lower v l p]: [p] is the position of [v] in the increasing sequence [l],
    or the position at which it can be inserted. *)
Definition lower (v : Z) (l : list Z) (p : nat) : Prop :=
  (forall i x, l !! i = Some x -> (i < p)%nat -> x < v) /\
  (forall i x, l !! i = Some x -> (p <= i)%nat -> v < x).

Lemma sorted_lookup l i j x y :
  StronglySorted Z.lt l -> l !! i = Some x -> l !! j = Some y -> (i < j)%nat -> x < y.
Proof.
  intros Hs. revert i j. induction Hs as [|a l Hs IH Ha]; intros i j Hi Hj Hij; [done|].
  destruct j as [|j]; [lia|]. destruct i as [|i]; simpl in *; simplify_eq.
  - eapply Forall_lookup_1; eauto.
  - eapply IH; eauto. lia.
Qed.

Lemma mid_eq mn mx :
  0 <= mn -> mn <= mx -> mx < 2 ^ 31 ->
  i32 (Z.shiftr (u32 (u32 mn + u32 mx)) 1) = (mn + mx) / 2.
Proof.
  intros. unfold u32, i32.
  rewrite (wrap_id 32 mn), (wrap_id 32 mx) by (unfold in_u; lia).
  rewrite wrap_id by (unfold in_u; lia).
  rewrite Z.shiftr_div_pow2 by lia. change (2 ^ 1) with 2.
  apply swrap_id; [lia|]. unfold in_s. change (2 ^ (32 - 1)) with (2 ^ 31).
  split; [|apply Z.div_lt_upper_bound; lia].
  apply Z.le_trans with 0; [lia|]. apply Z.div_pos; lia.
Qed.

Lemma search_loop_spec w l s v fuel mn mx md cu :
  rep w l s -> 0 <= mn -> mx < zlen l -> mn <= mx + 1 ->
  (Z.to_nat (mx - mn + 1) < fuel)%nat ->
  (forall i x, l !! i = Some x -> Z.of_nat i < mn -> x < v) ->
  (forall i x, l !! i = Some x -> mx < Z.of_nat i -> v < x) ->
  (mn <= mx \/ cu <> v) ->
  exists mn' md' cu', search_loop be fuel s v mn mx md cu = Some (mn', md', cu') /\
    ((cu' = v /\ 0 <= md' < 2 ^ 31 /\ l !! Z.to_nat md' = Some v) \/
     (cu' <> v /\ 0 <= mn' <= zlen l /\ lower v l (Z.to_nat mn'))).
Proof.
  intros Hrep. revert mn mx md cu.
  induction fuel as [|fuel IH]; intros mn mx md cu Hmn Hmx Hle Hf Hlo Hhi Hcu; [lia|].
  pose proof (rep_int _ _ _ Hrep). cbn [search_loop].
  destruct (Z.leb_spec mn mx) as [Hm|Hm].
  - rewrite mid_eq by lia. set (mid := (mn + mx) / 2).
    assert (mn <= mid <= mx) as Hmid
      by (subst mid; split; [apply Z.div_le_lower_bound|apply Z.div_le_upper_bound]; lia).
    destruct (lookup_lt_is_Some_2 l (Z.to_nat mid)) as [x Hx]; [unfold zlen in *; lia|].
    pose proof (rep_get _ _ _ _ _ Hrep Hx) as Hg. rewrite Z2Nat.id in Hg by lia.
    rewrite Hg. cbn [mbind option_bind].
    destruct (Z.ltb_spec x v) as [Hxv|Hxv]; [|destruct (Z.ltb_spec v x) as [Hvx|Hvx]].
    + apply IH; try lia; [|done]. intros i y Hi Hlt.
      destruct (decide (i = Z.to_nat mid)) as [->|]; [by simplify_eq|].
      assert (y < x); [|lia]. eapply sorted_lookup; eauto; [apply Hrep|lia].
    + apply IH; try lia; [done|]. intros i y Hi Hlt.
      destruct (decide (i = Z.to_nat mid)) as [->|]; [by simplify_eq|].
      assert (x < y); [|lia]. eapply sorted_lookup; eauto; [apply Hrep|lia].
    + assert (x = v) as -> by lia. do 3 eexists. split; [done|]. left. split_and!; lia || done.
  - do 3 eexists. split; [done|]. right.
    split_and!; [lia|lia|lia|]. split; intros i x Hi Hlt.
    + eapply Hlo; eauto. lia.
    + eapply Hhi; eauto. lia.
Qed.

Lemma lower_not_elem v l p : lower v l p -> v ∉ l.
Proof.
  intros [H1 H2] [i Hi]%list_elem_of_lookup.
  destruct (decide (i < p)%nat); [apply H1 in Hi|apply H2 in Hi]; lia.
Qed.

Lemma lower_begin v l x :
  StronglySorted Z.lt l -> l !! 0%nat = Some x -> v < x -> lower v l 0.
Proof.
  intros Hs Hx Hv. split; intros i y Hi ?; [lia|].
  destruct i as [|i]; [by simplify_eq|].
  assert (x < y) by (eapply sorted_lookup; eauto; lia). lia.
Qed.

Lemma lower_end v l x :
  StronglySorted Z.lt l -> l !! pred (length l) = Some x -> x < v ->
  lower v l (length l).
Proof.
  intros Hs Hx Hv. split; intros i y Hi Hlt.
  - destruct (decide (i = pred (length l))) as [->|]; [by simplify_eq|].
    assert (y < x) by (eapply sorted_lookup; eauto; lia). lia.
  - apply lookup_lt_Some in Hi. lia.
Qed.

(** The outcome of [intsetSearch]: the value is found at the returned position,
    or it is absent and the returned position is its insertion point. *)
Lemma intsetSearch_spec w l s v :
  rep w l s ->
  exists r p, intsetSearch be s v = Some (r, Z.of_nat p) /\
    ((r = 1 /\ l !! p = Some v) \/
     (r = 0 /\ (p <= length l)%nat /\ lower v l p)).
Proof.
  intros Hrep. pose proof (rep_int _ _ _ Hrep) as Hint. pose proof (zlen_nonneg l).
  pose proof (rep_sorted _ _ _ Hrep) as Hs.
  unfold intsetSearch. rewrite (rep_len_rev _ _ _ Hrep). cbn [mbind option_bind].
  destruct (Z.eqb_spec (zlen l) 0) as [H0|H0].
  { apply zlen_0_inv in H0 as ->. exists 0, 0%nat. split; [done|right].
    split_and!; [done|done|]. split; intros i x; by rewrite lookup_nil. }
  assert (i32 (u32 (zlen l - 1)) = zlen l - 1) as ->.
  { unfold u32, i32. rewrite swrap_wrap, swrap_id by (unfold in_s; lia). done. }
  destruct (lookup_lt_is_Some_2 l (pred (length l))) as [last Hlast]; [unfold zlen in *; lia|].
  destruct (lookup_lt_is_Some_2 l 0) as [first Hfirst]; [unfold zlen in *; lia|].
  pose proof (rep_get _ _ _ _ _ Hrep Hlast) as Hgl.
  replace (Z.of_nat (pred (length l))) with (zlen l - 1) in Hgl by (unfold zlen in *; lia).
  pose proof (rep_get _ _ _ _ _ Hrep Hfirst) as Hgf. change (Z.of_nat 0) with 0 in Hgf.
  rewrite Hgl. cbn [mbind option_bind].
  destruct (Z.ltb_spec last v) as [Hv|Hv].
  { exists 0, (length l). split; [done|right]. eauto using lower_end. }
  rewrite Hgf. cbn [mbind option_bind].
  destruct (Z.ltb_spec v first) as [Hv'|Hv'].
  { exists 0, 0%nat. split; [done|right]. split_and!; [done|lia|eauto using lower_begin]. }
  destruct (search_loop_spec w l s v (S (S (Z.to_nat (zlen l - 1)))) 0 (zlen l - 1) (-1) (-1))
    as (mn & md & cu & -> & Hres); try done; try lia.
  { intros i x Hi ?. apply lookup_zlen in Hi. lia. }
  cbn [mbind option_bind]. unfold u32.
  destruct Hres as [(-> & Hmd & Hl) | (Hne & Hmn & Hlow)].
  - rewrite Z.eqb_refl. exists 1, (Z.to_nat md).
    rewrite wrap_id, Z2Nat.id by (unfold in_u; lia). eauto.
  - destruct (Z.eqb_spec v cu); [congruence|]. exists 0, (Z.to_nat mn).
    rewrite wrap_id, Z2Nat.id by (unfold in_u; lia).
    split; [done|right]. split_and!; [done|unfold zlen in *; lia|done].
Qed.

(** *** Encodings *)

Definition valenc (v : Z) : nat := Z.to_nat (_intsetValueEncoding v).

Lemma valenc_Z v : _intsetValueEncoding v = Z.of_nat (valenc v).
Proof. unfold valenc, _intsetValueEncoding. by repeat case_match. Qed.

Lemma valenc_width v : is_width (valenc v).
Proof.
  unfold is_width, valenc, _intsetValueEncoding.
  repeat case_match; vm_compute; auto.
Qed.

Lemma valenc_le w v :
  is_width w -> in_s 64 v -> ((valenc v <= w)%nat <-> in_s (8 * Z.of_nat w) v).
Proof.
  unfold valenc, _intsetValueEncoding, in_s, INT32_MIN, INT32_MAX, INT16_MIN, INT16_MAX.
  unfold INTSET_ENC_INT16, INTSET_ENC_INT32, INTSET_ENC_INT64.
  intros [-> | [-> | ->]] Hv; pow2s; zb; lia.
Qed.

Lemma width_mono w w' x :
  is_width w -> is_width w' -> (w <= w')%nat ->
  in_s (8 * Z.of_nat w) x -> in_s (8 * Z.of_nat w') x.
Proof.
  unfold in_s.
  intros [-> | [-> | ->]] [-> | [-> | ->]] Hle Hx; pow2s; lia.
Qed.

(** *** Upgrade *)

Lemma wr_cell s w i x :
  is_width w -> is_encoding s = rev32 (Z.of_nat w) ->
  0 <= i -> (i + 1) * Z.of_nat w <= zlen (is_contents s) ->
  exists c', _intsetSet be s i x = Some (mk_intset (is_encoding s) (is_length s) c') /\
    wr (is_contents s) (i * Z.of_nat w) (le_enc w x) = Some c'.
Proof.
  intros Hw He Hi Hc.
  destruct (wr_is_Some (is_contents s) (i * Z.of_nat w) (le_enc w x)) as [c' Hc'].
  - lia.
  - zlens. lia.
  - exists c'. split; [|done]. by apply (set_wr s w).
Qed.

Lemma upgrade_loop_spec cur new l prepend tail n s :
  is_width cur -> is_width new -> (cur <= new)%nat -> 0 <= prepend ->
  Forall (in_s (8 * Z.of_nat cur)) l ->
  is_encoding s = rev32 (Z.of_nat new) ->
  (n <= length l)%nat ->
  (Z.of_nat n + prepend) * Z.of_nat new <= zlen (is_contents s) ->
  take (n * cur) (is_contents s) = encs cur (take n l) ->
  drop (Z.to_nat ((Z.of_nat n + prepend) * Z.of_nat new)) (is_contents s)
    = encs new (drop n l) ++ tail ->
  exists c', upgrade_loop be n s prepend (Z.of_nat cur)
      = Some (mk_intset (is_encoding s) (is_length s) c') /\
    zlen c' = zlen (is_contents s) /\
    drop (Z.to_nat (prepend * Z.of_nat new)) c' = encs new l ++ tail.
Proof.
  intros Hcur Hnew Hlt Hp Hl. revert s.
  induction n as [|k IH]; intros s He Hn Hz Htake Hdrop; cbn [upgrade_loop].
  { destruct s as [e len c]. exists c. by split_and!. }
  destruct (lookup_lt_is_Some_2 l k) as [x Hx]; [lia|].
  rewrite (get_rd s cur (Z.of_nat k) x); [|done| |by eapply Forall_lookup_1].
  2: { rewrite <- (take_drop (S k * cur) (is_contents s)), Htake.
       rewrite (take_S_r _ _ _ Hx), encs_app, <- (assoc_L (++)), encs_cons, encs_nil, app_nil_r.
       apply rd_seg; [|by zlens]. zlens. apply lookup_zlen in Hx. lia. }
  cbn [mbind option_bind].
  destruct (wr_cell s new (Z.of_nat k + prepend) x) as (c1 & -> & Hwr); try done; [lia|lia|].
  cbn [mbind option_bind]. pose proof (wr_zlen _ _ _ _ Hwr) as Hlen.
  destruct (IH (mk_intset (is_encoding s) (is_length s) c1)) as (c' & ? & ? & ?);
    simpl; try done; [lia|nia| | |].
  - rewrite (wr_take _ _ _ _ _ Hwr) by nia.
    pose proof (f_equal (take (k * cur)) Htake) as Ht.
    rewrite take_take, Nat.min_l in Ht by lia. rewrite Ht.
    rewrite (take_S_r _ _ _ Hx), encs_app.
    apply take_app_length'. rewrite length_encs, length_take.
    apply lookup_lt_Some in Hx. lia.
  - rewrite (wr_drop _ _ _ _ Hwr), zlen_le_enc.
    replace ((Z.of_nat k + prepend) * Z.of_nat new + Z.of_nat new)
      with ((Z.of_nat (S k) + prepend) * Z.of_nat new) by lia.
    rewrite Hdrop, (drop_S _ _ _ Hx), encs_cons. by rewrite (assoc_L (++)).
  - exists c'. simpl in *. split_and!; [done|lia|done].
Qed.

(** *** Insertion *)

Fixpoint insert_sorted (v : Z) (l : list Z) : list Z :=
  match l with
  | [] => [v]
  | x :: k => if v <? x then v :: l else x :: insert_sorted v k
  end.

Lemma lower_insert v l p :
  lower v l p -> (p <= length l)%nat ->
  take p l ++ v :: drop p l = insert_sorted v l.
Proof.
  revert p. induction l as [|x l IH]; intros p [H1 H2] Hp; simpl in *.
  { by destruct p; [|lia]. }
  destruct p as [|p]; simpl.
  - assert (v < x) by (apply (H2 0%nat); [done|lia]). by zb_true.
  - assert (x < v) by (apply (H1 0%nat); [done|lia]). zb_true. f_equal.
    apply IH; [|lia].
    split; intros i y Hi ?; [apply (H1 (S i))|apply (H2 (S i))]; simpl; lia || done.
Qed.

Lemma elem_of_insert_sorted v x l : x ∈ insert_sorted v l <-> x = v \/ x ∈ l.
Proof.
  induction l as [|y l IH]; simpl; [by rewrite list_elem_of_singleton, elem_of_nil; tauto|].
  destruct (Z.ltb_spec v y); rewrite !elem_of_cons; [tauto|rewrite IH; tauto].
Qed.

Lemma zlen_insert_sorted v l : zlen (insert_sorted v l) = zlen l + 1.
Proof.
  induction l as [|y l IH]; simpl; [done|].
  destruct (Z.ltb_spec v y); zlens; lia.
Qed.

Lemma insert_sorted_sorted v l :
  StronglySorted Z.lt l -> v ∉ l -> StronglySorted Z.lt (insert_sorted v l).
Proof.
  induction 1 as [|y l Hs IH Hy]; simpl; intros Hv.
  { repeat constructor. }
  destruct (Z.ltb_spec v y) as [Hlt|Hge].
  - constructor; [by constructor|]. constructor; [done|].
    eapply Forall_impl; [done|]. simpl. lia.
  - constructor; [apply IH; set_solver|].
    apply Forall_forall. intros x [->|Hx]%elem_of_insert_sorted.
    + set_solver by lia.
    + by eapply Forall_forall in Hx.
Qed.

(** The representation after the insertion of a value that was absent. *)
Lemma rep_insert w l e n v :
  is_width w -> e = rev32 (Z.of_nat w) -> n = rev32 (zlen l + 1) ->
  (zlen l + 1) * Z.of_nat w < 2 ^ 32 ->
  StronglySorted Z.lt l -> v ∉ l ->
  Forall (in_s (8 * Z.of_nat w)) l -> in_s (8 * Z.of_nat w) v ->
  rep w (insert_sorted v l) (mk_intset e n (encs w (insert_sorted v l))).
Proof.
  intros ? -> -> ? ? Hv Hl ?. split; simpl; rewrite ?zlen_insert_sorted;
    auto using insert_sorted_sorted.
  apply Forall_forall. intros x [->|Hx]%elem_of_insert_sorted; [done|].
  by eapply Forall_forall in Hx.
Qed.

Lemma set_length_spec s f n :
  is_length s = rev32 n -> in_u 32 n -> in_u 32 (f n) ->
  set_length be s f = Some (mk_intset (is_encoding s) (rev32 (f n)) (is_contents s)).
Proof.
  intros Hs Hn Hf. unfold set_length. rewrite !intrev32ifbe_eq, Hs. simpl.
  rewrite rev32_rev32 by done. rewrite !intrev32ifbe_eq. simpl.
  unfold u32. by rewrite wrap_id.
Qed.

Lemma resize_spec s w len :
  is_width w -> is_encoding s = rev32 (Z.of_nat w) -> 0 <= len -> len * Z.of_nat w < 2 ^ 32 ->
  intsetResize be junk s len
  = Some (mk_intset (is_encoding s) (is_length s)
            (zrealloc junk (is_contents s) (len * Z.of_nat w))).
Proof.
  intros Hw He Hl Hs. unfold intsetResize. rewrite intrev32ifbe_eq, He. simpl.
  rewrite rev32_rev32 by by apply width_u32.
  unfold u32. rewrite wrap_id; [done|]. unfold in_u. lia.
Qed.

(** An increasing sequence of [w]-wide values is extended at one of its ends by
    a value that needs a wider slot. *)
Lemma insert_wide w l v :
  is_width w -> Forall (in_s (8 * Z.of_nat w)) l -> ~ in_s (8 * Z.of_nat w) v ->
  (v ∉ l) /\ insert_sorted v l = (if v <? 0 then v :: l else l ++ [v]).
Proof.
  intros Hw Hl Hv. split.
  { intros Hin. by eapply Forall_forall in Hin. }
  destruct (Z.ltb_spec v 0) as [Hneg|Hpos].
  - destruct l as [|x l]; [done|]. simpl. inversion Hl; subst.
    destruct (Z.ltb_spec v x); [done|]. exfalso. apply Hv. unfold in_s in *. 
    assert (0 < 2 ^ (8 * Z.of_nat w - 1)) by (apply Z.pow_pos_nonneg; destruct Hw as [->|[->| ->]]; lia).
    lia.
  - induction Hl as [|x l Hx Hl IH]; [done|]. simpl.
    destruct (Z.ltb_spec v x); [|by rewrite IH]. exfalso. apply Hv.
    unfold in_s in *. lia.
Qed.

(** The whole loop, from the buffer [intsetResize] returns. *)
Lemma upgrade_loop_full w w' l g p e n :
  is_width w -> is_width w' -> (w <= w')%nat -> 0 <= p <= 1 ->
  Forall (in_s (8 * Z.of_nat w)) l -> e = rev32 (Z.of_nat w') ->
  zlen (encs w l ++ g) = (zlen l + 1) * Z.of_nat w' ->
  exists c' tail,
    upgrade_loop be (length l) (mk_intset e n (encs w l ++ g)) p (Z.of_nat w)
      = Some (mk_intset e n c') /\
    zlen c' = (zlen l + 1) * Z.of_nat w' /\
    drop (Z.to_nat (p * Z.of_nat w')) c' = encs w' l ++ tail.
Proof.
  intros Hw Hw' Hle Hp Hl -> Hc.
  edestruct (upgrade_loop_spec w w' l p
     (drop (Z.to_nat ((Z.of_nat (length l) + p) * Z.of_nat w')) (encs w l ++ g)) (length l)
     (mk_intset (rev32 (Z.of_nat w')) n (encs w l ++ g))) as (c' & Hloop & Hc' & Hd);
    simpl; try done; try lia.
  - rewrite Hc. unfold zlen. nia.
  - rewrite firstn_all. apply take_app_length'. by rewrite length_encs.
  - by rewrite drop_all.
  - simpl in *. exists c', (drop (Z.to_nat ((Z.of_nat (length l) + p) * Z.of_nat w')) (encs w l ++ g)).
    split_and!; [done|lia|done].
Qed.

(** The final store of [intsetUpgradeAndAdd], at either end. *)
Lemma place_end w l v e n c tail :
  is_width w -> e = rev32 (Z.of_nat w) ->
  zlen c = (zlen l + 1) * Z.of_nat w ->
  drop (Z.to_nat ((if v <? 0 then 1 else 0) * Z.of_nat w)) c = encs w l ++ tail ->
  (if v <? 0 then _intsetSet be (mk_intset e n c) 0 v
   else _intsetSet be (mk_intset e n c) (zlen l) v)
  = Some (mk_intset e n (encs w (if v <? 0 then v :: l else l ++ [v]))).
Proof.
  intros Hw -> Hc Hd. pose proof (zlen_nonneg l) as Hl0.
  destruct (Z.ltb_spec v 0).
  - rewrite Z.mul_1_l in Hd. pose proof (f_equal zlen Hd) as Hz. zlens.
    assert (tail = []) as -> by (apply zlen_0_inv; pose proof (zlen_nonneg tail); nia).
    rewrite app_nil_r in Hd. apply (set_wr_mk w); try done.
    rewrite Z.mul_0_l, wr_Some by (zlens; nia).
    by rewrite take_0, Z.add_0_l, zlen_le_enc, Hd, encs_cons.
  - rewrite Z.mul_0_l, drop_0 in Hd. subst c. zlens.
    apply (set_wr_mk w); try done.
    rewrite <- (app_nil_r tail), (wr_seg _ tail) by (zlens; nia).
    by rewrite encs_app, encs_cons, encs_nil, !app_nil_r.
Qed.

Lemma upgradeAndAdd_spec w l s v :
  rep w l s -> in_s 64 v -> (w < valenc v)%nat -> (zlen l + 1) * 8 < 2 ^ 32 ->
  exists s', intsetUpgradeAndAdd be junk s v = Some s' /\
    rep (valenc v) (insert_sorted v l) s' /\ v ∉ l.
Proof.
  intros Hrep Hv Hlt Hsize.
  pose proof (rep_width _ _ _ Hrep) as Hw. pose proof (valenc_width v) as Hw'.
  pose proof (zlen_nonneg l) as Hl0. pose proof (rep_range _ _ _ Hrep) as Hr.
  assert (~ in_s (8 * Z.of_nat w) v) as Hnv by (rewrite <- (valenc_le w v) by done; lia).
  destruct (insert_wide w l v Hw Hr Hnv) as [Hvl Hins].
  set (w' := valenc v) in *. assert (Z.of_nat w' <= 8) as Hw8
    by (destruct Hw' as [-> | [-> | ->]]; lia).
  unfold intsetUpgradeAndAdd. rewrite (rep_enc_rev _ _ _ Hrep), (rep_len_rev _ _ _ Hrep).
  cbn [mbind option_bind]. rewrite width_u8 by done. rewrite valenc_Z. fold w'.
  rewrite intrev32ifbe_eq. cbn [mbind option_bind].
  unfold i32, u32 at 1. rewrite wrap_id, swrap_id by (unfold in_u, in_s; lia).
  rewrite (resize_spec _ w') by (simpl; done || nia).
  cbn [mbind option_bind is_encoding is_length is_contents]. zb_true.
  rewrite (rep_contents _ _ _ Hrep), zrealloc_grow by (zlens; nia).
  replace (Z.to_nat (zlen l)) with (length l) by (unfold zlen; lia).
  match goal with |- context [garbage ?j ?a ?b] => set (g := garbage j a b) end.
  destruct (upgrade_loop_full w w' l g (if v <? 0 then 1 else 0) (rev32 (Z.of_nat w')) (is_length s))
    as (c' & tail & -> & Hc' & Hd); [done|done|lia|by case_match|done|done| |].
  { subst g. rewrite zlen_app. unfold zlen at 2. rewrite length_garbage. zlens. nia. }
  cbn [mbind option_bind is_length]. rewrite (rep_len_rev _ _ _ Hrep). cbn [mbind option_bind].
  erewrite place_end by done. cbn [mbind option_bind].
  rewrite (set_length_spec _ _ (zlen l)); simpl;
    [|apply (rep_len _ _ _ Hrep)|unfold in_u; lia|unfold in_u; lia].
  eexists. split_and!; [done| |done]. rewrite <- Hins.
  apply rep_insert; try done; [nia|apply Hrep| |by apply valenc_le].
  eapply Forall_impl; [done|]. intros x. apply width_mono; done || lia.
Qed.

(** *** Moving the tail *)

Lemma moveTail_spec w l s c from to :
  rep w l s -> 0 <= from <= zlen l ->
  intsetMoveTail be (mk_intset (is_encoding s) (is_length s) c) from to =
  (c' ← memmove c (to * Z.of_nat w) (from * Z.of_nat w) ((zlen l - from) * Z.of_nat w);
   Some (mk_intset (is_encoding s) (is_length s) c')).
Proof.
  intros Hrep Hf. unfold intsetMoveTail. simpl.
  rewrite (rep_len_rev _ _ _ Hrep), (rep_enc_rev _ _ _ Hrep). cbn [mbind option_bind].
  pose proof (rep_size _ _ _ Hrep) as Hs.
  unfold u32 at 2 4 6. rewrite (wrap_id 32 (zlen l - from))
    by (pose proof (rep_int _ _ _ Hrep); unfold in_u; lia).
  unfold u32.
  destruct (rep_width _ _ _ Hrep) as [-> | [-> | ->]]; simpl;
    [change (Z.of_nat 2) with 2 in * | change (Z.of_nat 4) with 4 in *
    | change (Z.of_nat 8) with 8 in *]; by rewrite wrap_id by (unfold in_u; nia).
Qed.

(** After the optional [memmove] of [intsetAdd] slot [p] is free and the
    others hold [l]. *)
Lemma open_slot w l s g p :
  rep w l s -> zlen g = Z.of_nat w -> (p <= length l)%nat ->
  exists x, zlen x = Z.of_nat w /\
    (if Z.of_nat p <? zlen l
     then intsetMoveTail be (mk_intset (is_encoding s) (is_length s) (encs w l ++ g))
            (Z.of_nat p) (Z.of_nat p + 1)
     else Some (mk_intset (is_encoding s) (is_length s) (encs w l ++ g)))
    = Some (mk_intset (is_encoding s) (is_length s)
              (encs w (take p l) ++ x ++ encs w (drop p l))).
Proof.
  intros Hrep Hg Hp. destruct (Z.ltb_spec (Z.of_nat p) (zlen l)) as [Hlt|Hge].
  - rewrite (moveTail_spec w l s) by (done || lia).
    set (t := encs w (drop p l) ++ g).
    assert (encs w l ++ g = encs w (take p l) ++ t) as ->
      by (subst t; by rewrite (assoc_L (++)), <- encs_app, take_drop).
    assert (zlen t = (zlen l - Z.of_nat p + 1) * Z.of_nat w) as Ht
      by (subst t; zlens; unfold zlen in *; nia).
    exists (take w t). split; [zlens; nia|]. unfold memmove.
    rewrite (rd_seg _ (encs w (drop p l)) g) by (zlens; unfold zlen in *; nia).
    cbn [mbind option_bind].
    replace (encs w (take p l) ++ t)
      with ((encs w (take p l) ++ take w t) ++ drop w t ++ [])
      by by rewrite app_nil_r, <- (assoc_L (++)), take_drop.
    rewrite wr_seg by (zlens; unfold zlen in *; nia).
    by rewrite app_nil_r, <- (assoc_L (++)).
  - exists g. split; [done|]. rewrite take_ge, drop_ge by (unfold zlen in *; lia).
    by rewrite encs_nil, app_nil_r.
Qed.

(** *** The operations on the abstract sequence *)

Definition abs_add (w : nat) (l : list Z) (v : Z) : nat * list Z :=
  if decide (v ∈ l) then (w, l) else (Nat.max w (valenc v), insert_sorted v l).
Definition abs_remove (w : nat) (l : list Z) (v : Z) : nat * list Z :=
  (w, filter (fun x => x <> v) l).

Lemma u32_small z : 0 <= z < 2 ^ 32 -> u32 z = z.
Proof. intros. by apply wrap_id. Qed.

Lemma add_rep w l s v :
  rep w l s -> in_s 64 v -> (zlen l + 1) * 8 < 2 ^ 32 ->
  exists s', intsetAdd be junk s v = Some (s', if decide (v ∈ l) then 0 else 1) /\
    rep (abs_add w l v).1 (abs_add w l v).2 s'.
Proof.
  intros Hrep Hv Hsize. pose proof (zlen_nonneg l) as Hl0.
  pose proof (rep_width _ _ _ Hrep) as Hw.
  unfold intsetAdd. rewrite (rep_enc_rev _ _ _ Hrep). cbn [mbind option_bind].
  rewrite valenc_Z. unfold abs_add.
  destruct (Z.ltb_spec (Z.of_nat w) (Z.of_nat (valenc v))) as [Hlt|Hge].
  { destruct (upgradeAndAdd_spec w l s v) as (s' & -> & Hs' & Hn); [done|done|lia|done|].
    exists s'. rewrite !decide_False by done. simpl.
    by rewrite Nat.max_r by lia. }
  destruct (intsetSearch_spec w l s v Hrep) as (r & p & -> & [[-> Hp] | (-> & Hp & Hlow)]);
    cbn [mbind option_bind]; simpl Z.eqb; cbv iota.
  { assert (v ∈ l) by (eapply list_elem_of_lookup_2; eauto).
    exists s. by rewrite !decide_True. }
  pose proof (lower_not_elem _ _ _ Hlow) as Hn.
  rewrite (rep_len_rev _ _ _ Hrep). cbn [mbind option_bind].
  rewrite !u32_small by (unfold zlen in *; lia).
  assert (Z.of_nat w <= 8) as Hw8 by (destruct Hw as [-> | [-> | ->]]; lia).
  rewrite (resize_spec _ w); [|done|apply Hrep|lia|nia]. cbn [mbind option_bind].
  rewrite (rep_contents _ _ _ Hrep), zrealloc_grow by (zlens; nia).
  edestruct (open_slot w l s) as (x & Hx & ->); [done| |done|].
  { unfold zlen at 1. rewrite length_garbage. zlens. lia. }
  cbn [mbind option_bind].
  erewrite (set_wr_mk w); [|done|apply Hrep|].
  2: { apply wr_seg; zlens; unfold zlen in *; nia. }
  cbn [mbind option_bind].
  rewrite (set_length_spec _ _ (zlen l)); simpl;
    [|apply (rep_len _ _ _ Hrep)|unfold in_u; lia|unfold in_u; lia].
  cbn [mbind option_bind]. eexists. rewrite !decide_False by done. split; [done|].
  rewrite <- encs_cons, <- encs_app, (lower_insert v l p) by done. simpl.
  rewrite Nat.max_l by lia.
  apply rep_insert; try done; [apply Hrep|nia|apply Hrep|apply Hrep|].
  apply valenc_le; done || lia.
Qed.

Lemma find_rep w l s v :
  rep w l s -> in_s 64 v ->
  intsetFind be s v = Some (if decide (v ∈ l) then 1 else 0).
Proof.
  intros Hrep Hv. unfold intsetFind. rewrite (rep_enc_rev _ _ _ Hrep).
  cbn [mbind option_bind]. rewrite valenc_Z.
  destruct (Z.leb_spec (Z.of_nat (valenc v)) (Z.of_nat w)) as [Hle|Hgt].
  - destruct (intsetSearch_spec w l s v Hrep) as (r & p & -> & [[-> Hp] | (-> & Hp & Hlow)]);
      cbn [mbind option_bind].
    + rewrite decide_True; [done|]. eapply list_elem_of_lookup_2; eauto.
    + rewrite decide_False; [done|]. by eapply lower_not_elem.
  - rewrite decide_False; [done|]. intros Hin.
    assert (in_s (8 * Z.of_nat w) v) as Hr by (eapply Forall_forall in Hin; [|apply Hrep]; done).
    apply valenc_le in Hr; [lia|apply Hrep|done].
Qed.

Lemma filter_ne_absent (l : list Z) v : v ∉ l -> filter (fun x => x <> v) l = l.
Proof.
  induction l as [|x l IH]; [done|]. intros Hn. rewrite filter_cons_True, IH; set_solver.
Qed.

Lemma filter_ne_at (l : list Z) p v :
  StronglySorted Z.lt l -> l !! p = Some v ->
  filter (fun x => x <> v) l = take p l ++ drop (S p) l.
Proof.
  intros Hs Hp. rewrite <- (take_drop_middle l p v Hp) at 1.
  rewrite filter_app, filter_cons_False by tauto.
  f_equal; apply filter_ne_absent; intros [i Hi]%list_elem_of_lookup.
  - apply lookup_take_Some in Hi as [Hi ?]. assert (v < v); [|lia].
    by eapply (sorted_lookup l i p).
  - rewrite lookup_drop in Hi. assert (v < v); [|lia].
    eapply (sorted_lookup l p (S p + i)); eauto. lia.
Qed.

Lemma Forall_filter_ne (P : Z -> Prop) (l : list Z) v :
  Forall P l -> Forall P (filter (fun x => x <> v) l).
Proof.
  rewrite !Forall_forall. intros H x [_ Hx]%list_elem_of_filter. by apply H.
Qed.

Lemma rep_filter w (l : list Z) e n v :
  is_width w -> e = rev32 (Z.of_nat w) ->
  StronglySorted Z.lt l -> Forall (in_s (8 * Z.of_nat w)) l ->
  n = rev32 (zlen (filter (fun x => x <> v) l)) -> zlen l * Z.of_nat w < 2 ^ 32 ->
  rep w (filter (fun x => x <> v) l) (mk_intset e n (encs w (filter (fun x => x <> v) l))).
Proof.
  intros ? -> Hs Hr -> Hz. split; simpl; try done.
  - clear Hz Hr. induction Hs as [|x l Hs IH Hx]; [constructor|].
    rewrite filter_cons. case_decide; [|done]. constructor; [done|].
    by apply Forall_filter_ne.
  - by apply Forall_filter_ne.
  - assert (zlen (filter (fun x => x <> v) l) <= zlen l); [|nia].
    unfold zlen. pose proof (length_filter (fun x => x <> v) l). lia.
Qed.

(** The optional [memmove] of [intsetRemove] closes slot [p]. *)
Lemma close_slot w l s p :
  rep w l s -> (p < length l)%nat ->
  exists tail,
    (if Z.of_nat p <? zlen l - 1
     then intsetMoveTail be s (Z.of_nat p + 1) (Z.of_nat p) else Some s)
    = Some (mk_intset (is_encoding s) (is_length s)
              (encs w (take p l ++ drop (S p) l) ++ tail)) /\ zlen tail = Z.of_nat w.
Proof.
  intros Hrep Hp. destruct (lookup_lt_is_Some_2 l p Hp) as [x Hx].
  pose proof (rep_contents _ _ _ Hrep) as Hc. destruct s as [e n c]. simpl in *. subst c.
  destruct (Z.ltb_spec (Z.of_nat p) (zlen l - 1)) as [Hlt|Hge].
  - rewrite (moveTail_spec w l _ (encs w l) _ _ Hrep) by lia. unfold memmove. simpl.
    set (k := drop (S p) l).
    assert (zlen k = zlen l - Z.of_nat p - 1) as Hk by (subst k; zlens; lia).
    rewrite (encs_lookup w l p x Hx). fold k.
    set (t := le_enc w x ++ encs w k).
    replace (rd (encs w (take p l) ++ t) ((Z.of_nat p + 1) * Z.of_nat w)
               ((zlen l - (Z.of_nat p + 1)) * Z.of_nat w)) with (Some (encs w k)).
    2: { symmetry. subst t. rewrite (assoc_L (++)), <- (app_nil_r (_ ++ encs w k)), <- (assoc_L (++)).
         apply rd_seg; zlens; unfold zlen in *; nia. }
    cbn [mbind option_bind].
    replace (encs w (take p l) ++ t)
      with (encs w (take p l) ++ take (length (encs w k)) t ++ drop (length (encs w k)) t)
      by by rewrite take_drop.
    assert (zlen t = zlen k * Z.of_nat w + Z.of_nat w) as Ht by (subst t; zlens; lia).
    rewrite wr_seg by (zlens; rewrite ?length_encs; unfold zlen in *; nia).
    exists (drop (length (encs w k)) t). rewrite encs_app, <- (assoc_L (++)).
    split; [done|]. zlens. rewrite length_encs. unfold zlen in *. nia.
  - exists (le_enc w x). split; [|by zlens]. rewrite (encs_lookup w l p x Hx).
    rewrite drop_ge by (unfold zlen in *; lia). by rewrite encs_nil, !app_nil_r.
Qed.

Lemma remove_rep w l s v :
  rep w l s -> in_s 64 v ->
  exists s', intsetRemove be junk s v = Some (s', if decide (v ∈ l) then 1 else 0) /\
    rep (abs_remove w l v).1 (abs_remove w l v).2 s'.
Proof.
  intros Hrep Hv. pose proof (zlen_nonneg l) as Hl0.
  pose proof (rep_width _ _ _ Hrep) as Hw. pose proof (rep_size _ _ _ Hrep) as Hsz.
  unfold abs_remove. simpl.
  unfold intsetRemove. rewrite (rep_enc_rev _ _ _ Hrep). cbn [mbind option_bind].
  rewrite valenc_Z.
  destruct (decide (v ∈ l)) as [Hin|Hn].
  2: { rewrite filter_ne_absent by done. exists s. split; [|done].
    destruct (Z.leb_spec (Z.of_nat (valenc v)) (Z.of_nat w)); [|done].
    destruct (intsetSearch_spec w l s v Hrep) as (r & p & -> & [[-> Hp] | (-> & Hp & Hlow)]);
      [|done]. destruct Hn. by eapply list_elem_of_lookup_2. }
  assert (in_s (8 * Z.of_nat w) v) as Hr by (eapply Forall_forall in Hin; [|apply Hrep]; done).
  apply valenc_le in Hr; [|done|done]. zb_true.
  destruct (intsetSearch_spec w l s v Hrep) as (r & p & -> & [[-> Hp] | (-> & Hp & Hlow)]);
    [|by apply lower_not_elem in Hlow].
  cbn [mbind option_bind]. simpl Z.eqb. cbv iota.
  pose proof (lookup_lt_Some _ _ _ Hp) as Hplt. pose proof (rep_int _ _ _ Hrep) as Hint.
  rewrite (rep_len_rev _ _ _ Hrep). cbn [mbind option_bind].
  rewrite !u32_small by (unfold zlen in *; lia).
  destruct (close_slot w l s p Hrep Hplt) as (tail & -> & Htail). cbn [mbind option_bind].
  rewrite (resize_spec _ w); simpl; [|done|apply Hrep|unfold zlen in *; lia|nia].
  cbn [mbind option_bind]. rewrite <- (filter_ne_at l p v) by (apply Hrep || done).
  assert (zlen (filter (fun x => x <> v) l) = zlen l - 1) as Hz
    by (rewrite (filter_ne_at l p v) by (apply Hrep || done); zlens; unfold zlen; lia).
  assert (1 <= zlen l) as Hl1 by (unfold zlen; lia).
  rewrite zrealloc_shrink by (zlens; rewrite Hz, Htail; nia).
  rewrite take_app_length' by (rewrite length_encs; unfold zlen in *; lia).
  rewrite (set_length_spec _ _ (zlen l)); simpl;
    [|apply (rep_len _ _ _ Hrep)|unfold in_u; lia|unfold in_u, zlen in *; lia].
  cbn [mbind option_bind]. eexists. split; [done|].
  apply rep_filter; try apply Hrep. by rewrite Hz.
Qed.
End Proofs.

(** ** Correctness

    [models be s X]: on a host of byte order [be] the block [s] represents the
    finite set [X]. *)
Definition models (be : bool) (s : intset) (X : gset Z) : Prop :=
  exists w l, rep be w l s /\ X = list_to_set l.

Lemma rep_nodup be w l s : rep be w l s -> NoDup l.
Proof.
  intros H. apply NoDup_alt. intros i j x Hi Hj.
  destruct (lt_eq_lt_dec i j) as [[Hij|]|Hij]; [|done|];
    eapply sorted_lookup in Hij; eauto; try apply H; lia.
Qed.

Lemma rep_size_set be w l s : rep be w l s -> Z.of_nat (size (list_to_set l :> gset Z)) = zlen l.
Proof. intros H. rewrite size_list_to_set by by eapply rep_nodup. done. Qed.

Lemma decide_list_to_set (v : Z) (l : list Z) (a b : Z) :
  (if decide (v ∈ (list_to_set l : gset Z)) then a else b)
  = (if decide (v ∈ l) then a else b).
Proof. apply decide_ext, elem_of_list_to_set. Qed.

Lemma abs_add_set w l v :
  list_to_set (abs_add w l v).2 = ({[v]} ∪ list_to_set l : gset Z).
Proof.
  unfold abs_add. case_decide as Hv; simpl.
  - set_solver.
  - apply set_eq. intros x. rewrite elem_of_list_to_set, elem_of_insert_sorted. set_solver.
Qed.

Lemma abs_remove_set w (l : list Z) v :
  list_to_set (abs_remove w l v).2 = (list_to_set l ∖ {[v]} : gset Z).
Proof.
  unfold abs_remove; simpl. apply set_eq. intros x.
  rewrite elem_of_list_to_set, list_elem_of_filter. set_solver.
Qed.

(** The empty intset. *)
Lemma intsetNew_rep be :
  exists s, intsetNew be = Some s /\ rep be 2 [] s.
Proof.
  unfold intsetNew. rewrite intrev32ifbe_eq. eexists. split; [done|].
  split; simpl; try done; [by left| |constructor].
  by destruct be.
Qed.

(** C19: [intsetAdd] refines set insertion: from a block that represents the
    set [X] it returns (it never touches a byte outside the block, whatever the
    fresh memory holds, on either byte order, including the back-to-front
    upgrade to a wider encoding) a block that represents [{[v]} ∪ X], and
    reports success exactly when [v] was absent. *)
Theorem intsetAdd_refines be junk s X v :
  models be s X -> in_s 64 v -> (Z.of_nat (size X) + 1) * 8 < 2 ^ 32 ->
  exists s', intsetAdd be junk s v = Some (s', if decide (v ∈ X) then 0 else 1) /\
    models be s' ({[v]} ∪ X).
Proof.
  intros (w & l & Hrep & ->) Hv Hs. rewrite (rep_size_set _ _ _ _ Hrep) in Hs.
  destruct (add_rep be junk w l s v Hrep Hv Hs) as (s' & Hadd & Hrep').
  exists s'. rewrite decide_list_to_set. split; [done|].
  do 2 eexists. split; [done|]. by rewrite abs_add_set.
Qed.

(** C20: [intsetRemove] refines set removal and reports success exactly when the
    value was present. *)
Theorem intsetRemove_refines be junk s X v :
  models be s X -> in_s 64 v ->
  exists s', intsetRemove be junk s v = Some (s', if decide (v ∈ X) then 1 else 0) /\
    models be s' (X ∖ {[v]}).
Proof.
  intros (w & l & Hrep & ->) Hv.
  destruct (remove_rep be junk w l s v Hrep Hv) as (s' & Hrem & Hrep').
  exists s'. rewrite decide_list_to_set. split; [done|].
  do 2 eexists. split; [done|]. by rewrite abs_remove_set.
Qed.

(** The binary search of [intsetFind] terminates, stays inside the block
    and decides membership; [intsetLen] is the cardinality and [intsetBlobLen]
    the size of the block. *)
Lemma intsetFind_refines be s X v :
  models be s X -> in_s 64 v ->
  intsetFind be s v = Some (if decide (v ∈ X) then 1 else 0) /\
  intsetLen be s = Some (Z.of_nat (size X)) /\
  intsetBlobLen be s = Some (zlen (intset_blob be s)).
Proof.
  intros (w & l & Hrep & ->) Hv. rewrite decide_list_to_set, (rep_size_set _ _ _ _ Hrep).
  split_and!; [by eapply find_rep|by eapply rep_len_rev|].
  unfold intsetBlobLen. rewrite (rep_len_rev _ _ _ _ Hrep), (rep_enc_rev _ _ _ _ Hrep). simpl.
  unfold intset_blob. rewrite (rep_contents _ _ _ _ Hrep). zlens.
  rewrite u32_small by (pose proof (rep_size _ _ _ _ Hrep); pose proof (zlen_nonneg l); nia).
  f_equal. lia.
Qed.

(** [intsetGet] enumerates the set in increasing order, each position below
    the length once, and [intsetRandom] returns a member. *)
Lemma intsetGet_sorted be s X :
  models be s X ->
  exists l, StronglySorted Z.lt l /\ X = list_to_set l /\
    (forall i, 0 <= i -> intsetGet be s i =
       Some (match l !! Z.to_nat i with Some v => (1, Some v) | None => (0, None) end)) /\
    (forall r, 0 <= r -> X <> ∅ -> exists v, intsetRandom be r s = Some v /\ v ∈ X).
Proof.
  intros (w & l & Hrep & ->). exists l. split_and!; [apply Hrep|done| |].
  - intros i Hi. unfold intsetGet. rewrite (rep_len_rev _ _ _ _ Hrep). simpl.
    destruct (l !! Z.to_nat i) as [v|] eqn:Hl.
    + pose proof (lookup_zlen _ _ _ Hl). zb_true.
      pose proof (rep_get be w l s _ _ Hrep Hl) as Hg. rewrite Z2Nat.id in Hg by lia.
      by rewrite Hg.
    + apply lookup_ge_None in Hl. destruct (Z.ltb_spec i (zlen l)); [unfold zlen in *; lia|done].
  - intros r Hr Hne. unfold intsetRandom. rewrite (rep_len_rev _ _ _ _ Hrep). simpl.
    destruct (Z.eqb_spec (zlen l) 0) as [H0|H0].
    { apply zlen_0_inv in H0 as ->. done. }
    pose proof (zlen_nonneg l). pose proof (Z.mod_pos_bound r (zlen l)).
    destruct (lookup_lt_is_Some_2 l (Z.to_nat (r mod zlen l))) as [v Hv]; [unfold zlen in *; lia|].
    pose proof (rep_get be w l s _ _ Hrep Hv) as Hg. rewrite Z2Nat.id in Hg by lia.
    exists v. split; [done|]. apply elem_of_list_to_set. by eapply list_elem_of_lookup_2.
Qed.

(** A client's sequence of updates. *)
Inductive op := Add (v : Z) | Remove (v : Z).
Definition op_value (o : op) : Z := match o with Add v => v | Remove v => v end.
Definition run_op (be : bool) (junk : nat -> Z) (s : intset) (o : op) : option intset :=
  fst <$> match o with
          | Add v => intsetAdd be junk s v
          | Remove v => intsetRemove be junk s v
          end.
Definition run_ops (be : bool) (junk : nat -> Z) (os : list op) : option intset :=
  foldl (fun s o => s ← s; run_op be junk s o) (intsetNew be) os.

Definition abs_op (a : nat * list Z) (o : op) : nat * list Z :=
  match o with
  | Add v => abs_add a.1 a.2 v
  | Remove v => abs_remove a.1 a.2 v
  end.

Lemma run_op_rep be junk a s o :
  rep be a.1 a.2 s -> in_s 64 (op_value o) -> (zlen a.2 + 1) * 8 < 2 ^ 32 ->
  exists s', run_op be junk s o = Some s' /\
    rep be (abs_op a o).1 (abs_op a o).2 s' /\ zlen (abs_op a o).2 <= zlen a.2 + 1.
Proof.
  destruct a as [w l]. intros Hrep Hv Hs. destruct o as [v|v]; simpl in *.
  - destruct (add_rep be junk w l s v Hrep Hv Hs) as (s' & Hadd & Hrep').
    exists s'. unfold run_op. rewrite Hadd. split_and!; [done|done|].
    unfold abs_add. case_decide; simpl; [lia|]. rewrite zlen_insert_sorted. lia.
  - destruct (remove_rep be junk w l s v Hrep Hv) as (s' & Hrem & Hrep').
    exists s'. unfold run_op. rewrite Hrem. split_and!; [done|done|].
    unfold zlen. pose proof (length_filter (fun x => x <> v) l). simpl in *. lia.
Qed.

Lemma rep_blob be w l s :
  rep be w l s -> intset_blob be s = le_enc 4 (Z.of_nat w) ++ le_enc 4 (zlen l) ++ encs w l.
Proof.
  intros H. unfold intset_blob.
  rewrite (rep_enc _ _ _ _ H), (rep_len _ _ _ _ H), (rep_contents _ _ _ _ H).
  assert (forall v, host_store be 4 (rev32 be v) = le_enc 4 v) as Hh.
  { intros v. unfold host_store, rev32. destruct be; [|done].
    unfold be_enc. by rewrite le_enc_bswap, rev_involutive. }
  by rewrite !Hh.
Qed.

Lemma run_ops_rep be junk os :
  Forall (fun o => in_s 64 (op_value o)) os ->
  forall a s, rep be a.1 a.2 s -> (zlen os + zlen a.2 + 1) * 8 < 2 ^ 32 ->
  exists s', foldl (fun s o => s ← s; run_op be junk s o) (Some s) os = Some s' /\
    rep be (foldl abs_op a os).1 (foldl abs_op a os).2 s'.
Proof.
  induction 1 as [|o os Ho Hos IH]; intros a s Hrep Hn; [by exists s|].
  pose proof (zlen_nonneg os). zlens.
  destruct (run_op_rep be junk a s o Hrep Ho) as (s1 & H1 & Hrep1 & Hz1); [lia|].
  simpl. rewrite H1. apply IH; [done|lia].
Qed.

(** C32: the serialised block does not depend on the host or on what fresh
    memory contains: any sequence of insertions and removals of 64-bit values,
    run on a little-endian and on a big-endian host, succeeds on both and
    leaves byte-identical blocks. *)
Theorem intset_blob_portable junk1 junk2 os :
  Forall (fun o => in_s 64 (op_value o)) os -> (zlen os + 1) * 8 < 2 ^ 32 ->
  exists s1 s2, run_ops false junk1 os = Some s1 /\ run_ops true junk2 os = Some s2 /\
    intset_blob false s1 = intset_blob true s2.
Proof.
  intros Hos Hz.
  destruct (intsetNew_rep false) as (n1 & Hn1 & Hr1), (intsetNew_rep true) as (n2 & Hn2 & Hr2).
  destruct (run_ops_rep false junk1 os Hos (2%nat, []) n1 Hr1) as (s1 & Hs1 & Hrep1); [simpl; zlens; lia|].
  destruct (run_ops_rep true junk2 os Hos (2%nat, []) n2 Hr2) as (s2 & Hs2 & Hrep2); [simpl; zlens; lia|].
  exists s1, s2. unfold run_ops. rewrite Hn1, Hn2. split_and!; [done|done|].
  by rewrite (rep_blob _ _ _ _ Hrep1), (rep_blob _ _ _ _ Hrep2).
Qed.

(** *** Witnesses *)

(** The block of [{-3, 5}] on a big-endian host. *)
Definition sample : intset := mk_intset 33554432 33554432 [253; 255; 5; 0].
Lemma sample_models : models true sample {[-3; 5]}.
Proof.
  exists 2%nat, [-3; 5]. split; [|by vm_compute].
  split; try by vm_compute.
  - by left.
  - repeat constructor.
  - repeat constructor; by vm_compute.
Qed.

Lemma intsetAdd_refines_witness :
  exists s', intsetAdd true (fun _ => 7) sample 70000 = Some (s', 1) /\
    models true s' ({[70000]} ∪ {[-3; 5]}).
Proof.
  destruct (intsetAdd_refines true (fun _ => 7) sample {[-3; 5]} 70000) as (s' & H & M);
    [apply sample_models | by vm_compute | by vm_compute |].
  exists s'. split; [|exact M]. rewrite H, decide_False; [done|].
  rewrite elem_of_union, !elem_of_singleton. lia.
Defined.

Lemma intsetRemove_refines_witness :
  exists s', intsetRemove true (fun _ => 7) sample (-3) = Some (s', 1) /\
    models true s' ({[-3; 5]} ∖ {[-3]}).
Proof.
  destruct (intsetRemove_refines true (fun _ => 7) sample {[-3; 5]} (-3)) as (s' & H & M);
    [apply sample_models | by vm_compute |].
  exists s'. split; [|exact M]. rewrite H, decide_True; [done|].
  rewrite elem_of_union, !elem_of_singleton. lia.
Defined.

Lemma intset_blob_portable_witness :
  exists s1 s2, run_ops false (fun _ => 0) [Add 5; Add (-70000); Remove 5; Add (2 ^ 40)] = Some s1 /\
    run_ops true (fun _ => 255) [Add 5; Add (-70000); Remove 5; Add (2 ^ 40)] = Some s2 /\
    intset_blob false s1 = intset_blob true s2.
Proof.
  apply (intset_blob_portable (fun _ => 0) (fun _ => 255));
    [repeat constructor; by vm_compute | by vm_compute].
Defined.
