(* ===== verification/UtilNum.v ===== *)
(** * UtilNum: the number/string conversions of [util.c]

    [digits10], [sdigits10], [ll2string], [string2ll] and [string2l].  Strings
    are lists of byte values; buffers are written in place, and an access
    outside a buffer makes the model [None]. *)
From Stdlib Require Import ZArith Lia Bool String Ascii.
From stdpp Require Import base option list numbers.
From S2P Require Import Prelude.
Open Scope Z_scope.

(** ** Constants *)

Definition LLONG_MIN : Z := - 2 ^ 63.
Definition LLONG_MAX : Z := 2 ^ 63 - 1.
Definition ULLONG_MAX : Z := 2 ^ 64 - 1.

(** Character codes of a string literal. *)
Definition codes (s : string) : list Z :=
  map (fun c => Z.of_nat (nat_of_ascii c)) (list_ascii_of_string s).

Definition ch_minus : Z := 45.
Definition ch_0 : Z := 48.
Definition ch_1 : Z := 49.
Definition ch_9 : Z := 57.

Definition b2z (b : bool) : Z := if b then 1 else 0.

(** ** Operations *)

(** The recursion of [digits10] on [v / 10^12]; two levels are enough for a
    64-bit value. *)
Fixpoint digits10_f (fuel : nat) (v : Z) : option Z :=
  match fuel with
  | O => None
  | S fuel =>
    if v <? 10 then Some 1
    else if v <? 100 then Some 2
    else if v <? 1000 then Some 3
    else if v <? 1000000000000 then
      if v <? 100000000 then
        if v <? 1000000 then
          if v <? 10000 then Some 4
          else Some (5 + b2z (100000 <=? v))
        else Some (7 + b2z (10000000 <=? v))
      else if v <? 10000000000 then Some (9 + b2z (1000000000 <=? v))
      else Some (11 + b2z (100000000000 <=? v))
    else
      d ← digits10_f fuel (v / 1000000000000); Some (12 + d)
  end.
Definition digits10 (v : Z) : option Z := digits10_f 2 v.

Definition sdigits10 (v : Z) : option Z :=
  if v <? 0 then
    let uv := if negb (v =? LLONG_MIN) then u64 (- v) else u64 (LLONG_MAX + 1) in
    d ← digits10 uv; Some (d + 1)
  else digits10 v.

Definition digits : list Z := codes
  (("0001020304050607080910111213141516171819" ++
    "2021222324252627282930313233343536373839" ++
    "4041424344454647484950515253545556575859" ++
    "6061626364656667686970717273747576777879" ++
    "8081828384858687888990919293949596979899")%string).

(** The loop [while (value >= 100)] of [ll2string] followed by its last one or
    two digits. *)
Fixpoint ll2string_loop (fuel : nat) (dst : list Z) (next value : Z) : option (list Z) :=
  match fuel with
  | O => None
  | S fuel =>
    if 100 <=? value then
      let i := value mod 100 * 2 in
      let value := value / 100 in
      a ← znth digits (i + 1);
      dst ← zset dst next a;
      b ← znth digits i;
      dst ← zset dst (next - 1) b;
      ll2string_loop fuel dst (next - 2) value
    else if value <? 10 then
      zset dst next (ch_0 + value)
    else
      let i := value * 2 in
      a ← znth digits (i + 1);
      dst ← zset dst next a;
      b ← znth digits i;
      zset dst (next - 1) b
  end.

(** Returns the buffer and the C result. *)
Definition ll2string (dst : list Z) (dstlen svalue : Z) : option (list Z * Z) :=
  let negative := svalue <? 0 in
  let value :=
    if svalue <? 0 then
      if negb (svalue =? LLONG_MIN) then u64 (- svalue) else u64 (LLONG_MAX + 1)
    else svalue in
  d ← digits10 value;
  let length := d + b2z negative in
  if dstlen <=? length then Some (dst, 0)
  else
    dst ← zset dst length 0;
    dst ← ll2string_loop 11 dst (length - 1) value;
    dst ← (if negative then zset dst 0 ch_minus else Some dst);
    Some (dst, length).

(** The digit loop of [string2ll]: [Some None] is the [return 0] on overflow,
    [Some (Some (v, plen))] the state at the loop's exit. *)
Fixpoint string2ll_loop (fuel : nat) (s : list Z) (slen plen v : Z)
    : option (option (Z * Z)) :=
  match fuel with
  | O => None
  | S fuel =>
    if plen <? slen then
      c ← znth s plen;
      if (ch_0 <=? c) && (c <=? ch_9) then
        if ULLONG_MAX / 10 <? v then Some None
        else
          let v := u64 (v * 10) in
          if ULLONG_MAX - (c - ch_0) <? v then Some None
          else string2ll_loop fuel s slen (plen + 1) (u64 (v + (c - ch_0)))
      else Some (Some (v, plen))
    else Some (Some (v, plen))
  end.

(** [Some None] is [return 0]; [Some (Some v)] is [return 1] with [*value = v]. *)
Definition string2ll (s : list Z) (slen : Z) : option (option Z) :=
  if 0 =? slen then Some None
  else
    c0 ← znth s 0;
    if (slen =? 1) && (c0 =? ch_0) then Some (Some 0)
    else
      let negative := c0 =? ch_minus in
      let plen := if negative then 1 else 0 in
      if negative && (plen =? slen) then Some None
      else
        c ← znth s plen;
        if (ch_1 <=? c) && (c <=? ch_9) then
          r ← string2ll_loop (S (Z.to_nat slen)) s slen (plen + 1) (u64 (c - ch_0));
          match r with
          | None => Some None
          | Some (v, plen) =>
              if plen <? slen then Some None
              else if negative then
                if u64 (- (LLONG_MIN + 1)) + 1 <? v then Some None
                else Some (Some (i64 (u64 (- v))))
              else
                if LLONG_MAX <? v then Some None
                else Some (Some (i64 v))
          end
        else Some None.

(** [LONG_MIN] and [LONG_MAX] of the platform bound the accepted values. *)
Definition string2l (LONG_MIN LONG_MAX : Z) (s : list Z) (slen : Z) : option (option Z) :=
  r ← string2ll s slen;
  match r with
  | None => Some None
  | Some llval =>
      if (llval <? LONG_MIN) || (LONG_MAX <? llval) then Some None
      else Some (Some llval)
  end.

Example ll2string_ex :
  ll2string (replicate 8 7) 8 (-12345) = Some (codes "-12345" ++ [0; 7], 6).
Proof. vm_compute. reflexivity. Qed.
Example string2ll_ex : string2ll (codes "-9223372036854775808") 20 = Some (Some LLONG_MIN).
Proof. vm_compute. reflexivity. Qed.
Example string2ll_overflow : string2ll (codes "9223372036854775808") 19 = Some None.
Proof. vm_compute. reflexivity. Qed.

(** ** Reference: the canonical decimal representation *)

Fixpoint dec_f (fuel : nat) (n : Z) : list Z :=
  match fuel with
  | O => []
  | S fuel => (if n <? 10 then [] else dec_f fuel (n / 10)) ++ [ch_0 + n mod 10]
  end.
(** The decimal digits of [n < 10^20]. *)
Definition dec (n : Z) : list Z := dec_f 20 n.
(** The canonical decimal string of a 64-bit integer. *)
Definition dec_string (z : Z) : list Z :=
  if z <? 0 then ch_minus :: dec (- z) else dec z.

Lemma dec_f_S f n :
  dec_f (S f) n = (if n <? 10 then [] else dec_f f (n / 10)) ++ [ch_0 + n mod 10].
Proof. reflexivity. Qed.

(** Any sufficient fuel gives the same digits. *)
Lemma dec_f_mono f g n :
  0 <= n < 10 ^ Z.of_nat f -> (f <= g)%nat -> (0 < f)%nat -> dec_f g n = dec_f f n.
Proof.
  revert g n. induction f as [|f IH]; intros g n Hn Hle Hf; [lia|].
  destruct g as [|g]; [lia|]. rewrite !dec_f_S.
  destruct (Z.ltb_spec n 10); [done|]. f_equal.
  assert (0 < f)%nat.
  { destruct f; [|lia]. change (10 ^ Z.of_nat 1) with 10 in Hn. lia. }
  apply IH; [|lia|lia]. split; [apply Z.div_pos; lia|].
  apply Z.div_lt_upper_bound; [lia|].
  replace (Z.of_nat (S f)) with (1 + Z.of_nat f) in Hn by lia.
  rewrite Z.pow_add_r in Hn by lia. lia.
Qed.

Lemma dec_step n : 10 <= n < 10 ^ 20 -> dec n = dec (n / 10) ++ [ch_0 + n mod 10].
Proof.
  intros Hn. unfold dec at 1. rewrite dec_f_S. zb_true.
  rewrite <- (dec_f_mono 19 20); [reflexivity| |lia|lia].
  change (10 ^ Z.of_nat 19) with (10 ^ 19).
  split; [apply Z.div_pos; lia|]. apply Z.div_lt_upper_bound; lia.
Qed.

Lemma dec_small n : 0 <= n < 10 -> dec n = [ch_0 + n].
Proof. intros. unfold dec. rewrite dec_f_S. zb_true. by rewrite Z.mod_small by lia. Qed.

Lemma dec_step2 n :
  100 <= n < 10 ^ 20 ->
  dec n = dec (n / 100) ++ [ch_0 + n mod 100 / 10; ch_0 + n mod 100 mod 10].
Proof.
  intros Hn. rewrite dec_step by lia.
  assert (10 <= n / 10 < 10 ^ 20) as Hd.
  { split; [apply Z.div_le_lower_bound; lia|apply Z.div_lt_upper_bound; lia]. }
  rewrite dec_step by done. rewrite <- (assoc_L (++)). simpl.
  rewrite Z.div_div by lia. change (10 * 10) with 100.
  assert (n mod 100 = n mod 10 + 10 * ((n / 10) mod 10)) as ->
    by (change 100 with (10 * 10); by rewrite Z.rem_mul_r by lia).
  rewrite (Z.mul_comm 10), Z.div_add, Z_mod_plus_full, Z.mod_mod by lia.
  by rewrite (Z.div_small (n mod 10)), Z.add_0_l by (apply Z.mod_pos_bound; lia).
Qed.

#[global] Opaque dec_f.
#[global] Arguments dec : simpl never.
#[global] Arguments digits10 : simpl never.

(** Digits, and the value a digit string denotes. *)
Definition is_digit (c : Z) : Prop := ch_0 <= c <= ch_9.
Definition dval (acc : Z) (ds : list Z) : Z := foldl (fun acc c => acc * 10 + (c - ch_0)) acc ds.

Lemma dval_app acc l k : dval acc (l ++ k) = dval (dval acc l) k.
Proof. apply foldl_app. Qed.

Lemma dval_ge acc ds : 0 <= acc -> Forall is_digit ds -> acc <= dval acc ds.
Proof.
  intros Ha Hd. revert acc Ha. induction Hd as [|c ds Hc Hd IH]; intros acc Ha; [done|].
  change (acc <= dval (acc * 10 + (c - ch_0)) ds).
  unfold is_digit, ch_0 in *. specialize (IH (acc * 10 + (c - 48))). lia.
Qed.

(** Induction over the decimal digits of [n]. *)
Lemma dec_ind (P : Z -> Prop) :
  (forall n, 0 <= n < 10 -> P n) ->
  (forall n, 10 <= n < 10 ^ 20 -> P (n / 10) -> P n) ->
  forall n, 0 <= n < 10 ^ 20 -> P n.
Proof.
  intros Hb Hs n [Hn0 Hn]. revert Hn.
  pattern n. apply Zlt_0_ind; [|done]. clear n Hn0. intros n IH Hn0 Hn.
  destruct (Z.ltb_spec n 10); [apply Hb; lia|]. apply Hs; [lia|].
  pose proof (Z.div_lt n 10). pose proof (Z.div_pos n 10). apply IH; lia.
Qed.

Lemma dval_dec n : 0 <= n < 10 ^ 20 -> dval 0 (dec n) = n.
Proof.
  apply (dec_ind (fun n => dval 0 (dec n) = n)); clear n; intros n Hn.
  - rewrite dec_small by done. unfold dval. simpl. unfold ch_0. lia.
  - intros IH. rewrite dec_step, dval_app, IH by done. unfold dval; simpl. unfold ch_0.
    pose proof (Z.div_mod n 10). lia.
Qed.

Lemma dec_digits n : 0 <= n < 10 ^ 20 -> Forall is_digit (dec n).
Proof.
  apply (dec_ind (fun n => Forall is_digit (dec n))); clear n; intros n Hn.
  - rewrite dec_small by done. repeat constructor; unfold ch_0, ch_9; lia.
  - intros IH. rewrite dec_step by done. apply Forall_app. split; [done|].
    pose proof (Z.mod_pos_bound n 10). repeat constructor; unfold ch_0, ch_9; lia.
Qed.

Lemma dec_head n : 1 <= n < 10 ^ 20 -> exists c ds, dec n = c :: ds /\ ch_1 <= c <= ch_9.
Proof.
  intros Hn. assert (0 <= n < 10 ^ 20) as Hn' by lia. destruct Hn as [Hn1 _]. revert Hn1.
  apply (dec_ind (fun n => 1 <= n -> exists c ds, dec n = c :: ds /\ ch_1 <= c <= ch_9));
    [| |done]; clear n Hn'; intros n Hn.
  - intros. rewrite dec_small by done. do 2 eexists. split; [done|].
    unfold ch_0, ch_1, ch_9. lia.
  - intros IH _. destruct IH as (c & ds & Hd & Hc); [apply Z.div_le_lower_bound; lia|].
    rewrite dec_step, Hd by done. exists c. eexists. by split.
Qed.

Lemma dec_snoc n c :
  1 <= n -> is_digit c -> n * 10 + (c - ch_0) < 10 ^ 20 ->
  dec (n * 10 + (c - ch_0)) = dec n ++ [c].
Proof.
  unfold is_digit, ch_0, ch_9. intros Hn Hc Hlt. rewrite dec_step by lia.
  rewrite Z.div_add_l, Z.div_small, Z.add_0_r by lia.
  rewrite (Z.add_comm (n * 10)), Z_mod_plus_full, Z.mod_small by lia.
  do 2 f_equal. unfold ch_0. lia.
Qed.

Lemma zlen_dec_step n : 10 <= n < 10 ^ 20 -> zlen (dec n) = zlen (dec (n / 10)) + 1.
Proof. intros. rewrite dec_step by done. by zlens. Qed.

Lemma zlen_dec d n :
  (1 <= d <= 20)%nat -> (if decide (d = 1%nat) then 0 else 10 ^ (Z.of_nat d - 1)) <= n < 10 ^ Z.of_nat d ->
  zlen (dec n) = Z.of_nat d.
Proof.
  revert n. induction d as [|d IH]; intros n Hd Hn; [lia|].
  destruct d as [|d].
  { change (10 ^ Z.of_nat 1) with 10 in Hn. simpl in Hn. by rewrite dec_small. }
  rewrite decide_False in Hn by lia.
  replace (Z.of_nat (S (S d)) - 1) with (1 + Z.of_nat d) in Hn by lia.
  replace (Z.of_nat (S (S d))) with (2 + Z.of_nat d) in Hn |- * by lia.
  rewrite !Z.pow_add_r in Hn by lia. change (10 ^ 1) with 10 in Hn. change (10 ^ 2) with 100 in Hn.
  assert (10 ^ Z.of_nat d <= 10 ^ 18) by (apply Z.pow_le_mono_r; lia).
  assert (0 < 10 ^ Z.of_nat d) by (apply Z.pow_pos_nonneg; lia).
  rewrite zlen_dec_step by lia. rewrite IH; [lia|lia|].
  replace (Z.of_nat (S d)) with (1 + Z.of_nat d) by lia. rewrite Z.pow_add_r by lia.
  change (10 ^ 1) with 10. replace (1 + Z.of_nat d - 1) with (Z.of_nat d) by lia.
  split; [|apply Z.div_lt_upper_bound; lia].
  case_decide; [apply Z.div_pos; lia|apply Z.div_le_lower_bound; lia].
Qed.

Lemma zlen_decZ d n :
  2 <= d <= 20 -> 10 ^ (d - 1) <= n < 10 ^ d -> zlen (dec n) = d.
Proof.
  intros Hd Hn. pose proof (zlen_dec (Z.to_nat d) n) as H.
  rewrite decide_False, !Z2Nat.id in H by lia. apply H; lia.
Qed.

Lemma zlen_dec_div k n :
  (k <= 19)%nat -> 10 ^ Z.of_nat k <= n < 10 ^ 20 ->
  zlen (dec n) = Z.of_nat k + zlen (dec (n / 10 ^ Z.of_nat k)).
Proof.
  revert n. induction k as [|k IH]; intros n Hk Hn.
  { change (10 ^ Z.of_nat 0) with 1. by rewrite Z.div_1_r. }
  replace (Z.of_nat (S k)) with (1 + Z.of_nat k) in * by lia.
  rewrite Z.pow_add_r in * by lia. change (10 ^ 1) with 10 in *.
  assert (0 < 10 ^ Z.of_nat k) by (apply Z.pow_pos_nonneg; lia).
  rewrite zlen_dec_step by lia. rewrite IH; [rewrite Z.div_div by lia; lia|lia|].
  split; [apply Z.div_le_lower_bound; lia|apply Z.div_lt_upper_bound; lia].
Qed.

Lemma digits10_f_big f v :
  1000000000000 <= v ->
  digits10_f (S f) v = (d ← digits10_f f (v / 1000000000000); Some (12 + d)).
Proof. intros. cbn [digits10_f]. by zb_true. Qed.

(** [digits10] counts the decimal digits of every 64-bit unsigned value;
    the recursion through [v / 10^12] returns within two levels. *)
Lemma digits10_ok v : in_u 64 v -> digits10 v = Some (zlen (dec v)).
Proof.
  unfold in_u. intros Hv. pow2s. unfold digits10.
  assert (forall f v, 0 <= v < 10 ^ 12 -> digits10_f (S f) v = Some (zlen (dec v))) as Hsmall.
  { clear. intros f v Hv. change (10 ^ 12) with 1000000000000 in Hv. cbn [digits10_f].
    zb; try lia; simpl b2z; try (rewrite dec_small by lia; reflexivity); symmetry;
      apply f_equal, zlen_decZ; pow2s; lia. }
  destruct (Z.ltb_spec v (10 ^ 12)) as [Hlt|Hge]; [apply Hsmall; lia|].
  change (10 ^ 12) with 1000000000000 in Hge. rewrite digits10_f_big by done.
  assert (0 <= v / 1000000000000 < 10 ^ 12) as Hq.
  { split; [apply Z.div_pos; lia|apply Z.div_lt_upper_bound; lia]. }
  rewrite (Hsmall 0%nat) by done. cbn [mbind option_bind].
  rewrite (zlen_dec_div 12 v); [done|lia|]. change (10 ^ Z.of_nat 12) with 1000000000000. lia.
Qed.

(** ** Printing *)

Lemma digits_pair i :
  0 <= i < 100 ->
  znth digits (i * 2 + 1) = Some (ch_0 + i mod 10) /\
  znth digits (i * 2) = Some (ch_0 + i / 10).
Proof.
  intros Hi.
  assert (Forall (fun i => znth digits (i * 2 + 1) = Some (ch_0 + i mod 10) /\
                           znth digits (i * 2) = Some (ch_0 + i / 10)) (seqZ 0 100)) as H.
  { apply (bool_decide_unpack _). by vm_compute. }
  rewrite Forall_forall in H. apply H, list_elem_of_In, elem_of_seqZ. lia.
Qed.

(** The digit loop stores the decimal representation of [value] in the bytes
    that end at [next]. *)
Lemma ll2string_loop_spec f dst next value :
  0 <= value < 10 ^ 20 -> value < 100 ^ Z.of_nat f -> (0 < f)%nat ->
  0 <= next + 1 - zlen (dec value) -> next < zlen dst ->
  ll2string_loop f dst next value = wr dst (next + 1 - zlen (dec value)) (dec value).
Proof.
  revert dst next value. induction f as [|f IH]; intros dst next value Hv Hf Hf0 Hn Hlt; [lia|].
  cbn [ll2string_loop]. destruct (Z.leb_spec 100 value) as [Hge|Hsmall].
  - destruct (digits_pair (value mod 100)) as [-> ->]; [apply Z.mod_pos_bound; lia|].
    cbn [mbind option_bind]. rewrite dec_step2 in * by lia.
    set (q := value / 100) in *. assert (1 <= q) as Hq1 by (apply Z.div_le_lower_bound; lia).
    set (d1 := ch_0 + value mod 100 / 10). set (d2 := ch_0 + (value mod 100) mod 10).
    pose proof (zlen_nonneg (dec q)) as Hl0. zlens.
    destruct (zset_pair dst next d1 d2) as (dst1 & -> & Hset); [lia|].
    cbn [mbind option_bind]. rewrite Hset.
    destruct (wr_is_Some dst (next - 1) [d1; d2]) as [dst2 Hdst2]; [lia|zlens; lia|].
    pose proof (wr_zlen _ _ _ _ Hdst2) as Hl2. rewrite Hdst2. cbn [mbind option_bind].
    rewrite IH.
    + replace (next - 2 + 1 - zlen (dec q)) with (next + 1 - (zlen (dec q) + (1 + (1 + 0)))) by lia.
      apply wr_app; [lia|]. rewrite <- Hdst2. f_equal. lia.
    + split; [lia|]. subst q. apply Z.div_lt_upper_bound; lia.
    + subst q. apply Z.div_lt_upper_bound; [lia|].
      replace (Z.of_nat (Datatypes.S f)) with (1 + Z.of_nat f) in Hf by lia.
      rewrite Z.pow_add_r in Hf by lia. lia.
    + destruct f; [|lia]. change (100 ^ Z.of_nat 1) with 100 in Hf. lia.
    + lia.
    + lia.
  - destruct (Z.ltb_spec value 10) as [H1|H2].
    + rewrite dec_small by lia. rewrite zset_wr. f_equal. zlens. lia.
    + destruct (digits_pair value) as [-> ->]; [lia|]. cbn [mbind option_bind].
      rewrite dec_step in * by lia. rewrite dec_small in *
        by (split; [apply Z.div_pos|apply Z.div_lt_upper_bound]; lia). zlens. simpl in *.
      destruct (zset_pair dst next (ch_0 + value / 10) (ch_0 + value mod 10))
        as (dst1 & -> & Hset); [lia|].
      cbn [mbind option_bind]. rewrite Hset. f_equal. lia.
Qed.

#[global] Arguments ll2string_loop : simpl never.

Lemma abs_u64 v :
  in_s 64 v ->
  (if v <? 0 then if negb (v =? LLONG_MIN) then u64 (- v) else u64 (LLONG_MAX + 1) else v)
  = Z.abs v /\ in_u 64 (Z.abs v).
Proof.
  unfold in_s, in_u, u64, LLONG_MIN, LLONG_MAX. intros Hv. pow2s.
  split; [|lia]. zb; rewrite ?wrap_id; unfold in_u; pow2s; lia.
Qed.

Lemma zlen_dec_pos n : 0 <= n < 10 ^ 20 -> 1 <= zlen (dec n).
Proof.
  intros Hn. destruct (Z.ltb_spec n 10); [rewrite dec_small by lia; zlens; lia|].
  rewrite zlen_dec_step by lia. pose proof (zlen_nonneg (dec (n / 10))). lia.
Qed.

Lemma dec_string_zlen v : zlen (dec_string v) = zlen (dec (Z.abs v)) + b2z (v <? 0).
Proof.
  unfold dec_string, b2z. destruct (Z.ltb_spec v 0); zlens.
  - rewrite Z.abs_neq by lia. lia.
  - rewrite Z.abs_eq by lia. lia.
Qed.

Lemma ll2string_ok dst dstlen v :
  in_s 64 v -> dstlen <= zlen dst ->
  ll2string dst dstlen v =
  Some (if zlen (dec_string v) <? dstlen
        then (dec_string v ++ [0] ++ drop (S (length (dec_string v))) dst, zlen (dec_string v))
        else (dst, 0)).
Proof.
  intros Hv Hd. unfold ll2string. destruct (abs_u64 v Hv) as [-> Hn].
  rewrite digits10_ok by done. cbn [mbind option_bind].
  rewrite <- dec_string_zlen. set (n := Z.abs v) in *. set (ds := dec_string v).
  assert (0 <= n < 10 ^ 20) as Hn' by (unfold in_u in Hn; pow2s; lia).
  pose proof (zlen_dec_pos n Hn') as Hpos. pose proof (dec_string_zlen v) as Hds. fold n ds in Hds.
  rewrite Z.leb_antisym. destruct (Z.ltb_spec (zlen ds) dstlen) as [Hlt|]; cbn [negb]; [|done].
  pose proof (zlen_nonneg ds). rewrite zset_wr.
  destruct (wr_is_Some dst (zlen ds) [0]) as [d1 H1]; [lia|zlens; lia|].
  rewrite H1. cbn [mbind option_bind]. pose proof (wr_zlen _ _ _ _ H1) as Hz1.
  rewrite ll2string_loop_spec; [|done|unfold in_u in Hn; pow2s; lia|lia| |lia].
  2: { rewrite Hds. destruct (v <? 0); simpl; lia. }
  assert (wr d1 (zlen ds - 1 + 1 - zlen (dec n)) (dec n) = wr dst (b2z (v <? 0)) (dec n ++ [0])) as ->.
  { replace (zlen ds - 1 + 1 - zlen (dec n)) with (b2z (v <? 0)) by lia.
    apply wr_app; [by destruct (v <? 0)|]. rewrite <- H1. f_equal. lia. }
  assert (wr dst 0 (ds ++ [0]) = Some (ds ++ [0] ++ drop (S (length ds)) dst)) as Hfin.
  { rewrite wr_Some by (zlens; lia). rewrite take_0, <- (assoc_L (++)). simpl. do 3 f_equal.
    f_equal. zlens. unfold zlen. lia. }
  subst ds n. unfold dec_string in *. destruct (Z.ltb_spec v 0) as [Hneg|Hnn]; simpl b2z in *.
  - rewrite Z.abs_neq in * by lia.
    destruct (wr_is_Some dst 1 (dec (- v) ++ [0])) as [d2 H2]; [lia|zlens; lia|].
    rewrite H2. cbn [mbind option_bind]. rewrite zset_wr, (wr_app dst 0 [ch_minus] (dec (- v) ++ [0])) by done.
    change ([ch_minus] ++ dec (- v) ++ [0]) with ((ch_minus :: dec (- v)) ++ [0]).
    by rewrite Hfin.
  - rewrite Z.abs_eq in * by lia. by rewrite Hfin.
Qed.

(** C23: [ll2string] prints every 64-bit signed value, [LLONG_MIN] included:
    when [dstlen] leaves room for the string and its terminator it stores
    exactly the canonical decimal string followed by a NUL, leaves the rest of
    the buffer alone and returns the length; otherwise it returns 0 and writes
    nothing.  No byte outside the first [dstlen] is touched. *)
Theorem ll2string_correct dst dstlen v :
  in_s 64 v -> dstlen <= zlen dst ->
  ll2string dst dstlen v =
  Some (if zlen (dec_string v) <? dstlen
        then (dec_string v ++ [0] ++ drop (S (length (dec_string v))) dst, zlen (dec_string v))
        else (dst, 0)).
Proof. apply ll2string_ok. Qed.

(** ** Parsing *)

Lemma dec_inj n m : 0 <= n < 10 ^ 20 -> 0 <= m < 10 ^ 20 -> dec n = dec m -> n = m.
Proof. intros Hn Hm H. rewrite <- (dval_dec n), <- (dval_dec m) by done. by rewrite H. Qed.

Definition nondigit_head (l : list Z) : Prop :=
  match l with [] => True | c :: _ => ~ is_digit c end.

(** The digit loop consumes the longest run of digits, or stops because the
    value they denote does not fit in 64 bits. *)
Lemma string2ll_loop_spec fuel pre rest v :
  1 <= v < 2 ^ 64 -> (length rest < fuel)%nat ->
  let s := pre ++ dec v ++ rest in
  exists r, string2ll_loop fuel s (zlen s) (zlen (pre ++ dec v)) v = Some r /\
    match r with
    | Some (v', plen') => 1 <= v' < 2 ^ 64 /\ exists rest',
        s = pre ++ dec v' ++ rest' /\ plen' = zlen (pre ++ dec v') /\ nondigit_head rest'
    | None => forall n, 0 <= n < 2 ^ 64 -> s <> pre ++ dec n
    end.
Proof.
  revert rest v. induction fuel as [|fuel IH]; intros rest v Hv Hf; [lia|].
  intros s. cbn [string2ll_loop].
  destruct rest as [|c rest].
  { subst s. rewrite app_nil_r, Z.ltb_irrefl. eexists. split; [done|].
    split; [done|]. exists []. by rewrite app_nil_r. }
  subst s. zlens. pose proof (zlen_nonneg rest). zb_true.
  assert (znth (pre ++ dec v ++ c :: rest) (zlen pre + zlen (dec v)) = Some c) as ->.
  { unfold znth. rewrite (assoc_L (++)), <- zlen_app. unfold zlen. zb_true.
    rewrite Nat2Z.id. by apply list_lookup_middle. }
  cbn [mbind option_bind].
  destruct (Z.leb_spec ch_0 c) as [Hc0|Hc0]; simpl andb.
  2: { eexists. split; [done|]. split; [done|]. exists (c :: rest). split_and!; [done|by zlens|].
       simpl. unfold is_digit. lia. }
  destruct (Z.leb_spec c ch_9) as [Hc9|Hc9].
  2: { eexists. split; [done|]. split; [done|]. exists (c :: rest). split_and!; [done|by zlens|].
       simpl. unfold is_digit. lia. }
  assert (is_digit c) as Hdig by done. unfold ch_0, ch_9 in Hc0, Hc9.
  assert (v * 10 + (c - ch_0) >= 2 ^ 64 -> forall n, 0 <= n < 2 ^ 64 ->
          pre ++ dec v ++ c :: rest <> pre ++ dec n) as Hover.
  { intros Hbig n Hn Heq%app_inv_head. pow2s.
    assert (0 <= n < 10 ^ 20) as Hn' by (pow2s; lia).
    pose proof (dec_digits n Hn') as Hd. pose proof (dval_dec n Hn') as Hval.
    rewrite <- Heq in Hd, Hval. apply Forall_app in Hd as [_ Hd]. inversion_clear Hd as [|? ? _ Hd'].
    rewrite dval_app, dval_dec in Hval by (pow2s; lia). change (dval (v * 10 + (c - ch_0)) rest = n) in Hval.
    pose proof (dval_ge (v * 10 + (c - ch_0)) rest) as Hge. unfold ch_0 in *.
    specialize (Hge ltac:(lia) Hd'). lia. }
  unfold ULLONG_MAX, ch_0 in *. change ((2 ^ 64 - 1) / 10) with 1844674407370955161.
  pow2s. destruct (Z.ltb_spec 1844674407370955161 v).
  { exists None. split; [done|]. cbv iota. apply Hover. lia. }
  unfold u64. rewrite wrap_id by (unfold in_u; pow2s; lia).
  destruct (Z.ltb_spec (18446744073709551616 - 1 - (c - 48)) (v * 10)).
  { exists None. split; [done|]. cbv iota. apply Hover. lia. }
  rewrite wrap_id by (unfold in_u; pow2s; lia).
  destruct (IH rest (v * 10 + (c - 48))) as (r & Hr & Hres); [pow2s; lia|simpl in Hf; lia|].
  pose proof (dec_snoc v c) as Hsn. unfold ch_0 in Hsn. rewrite Hsn in Hr, Hres by (pow2s; lia || done).
  rewrite <- !(assoc_L (++)) in Hr, Hres. simpl in Hr, Hres. zlens. simpl in Hr.
  exists r. split.
  { rewrite <- Hr. f_equal; lia. }
  destruct r as [[v' plen']|]; pow2s; exact Hres.
Qed.

#[global] Arguments string2ll_loop : simpl never.

Definition sign_prefix (neg : bool) : list Z := if neg then [ch_minus] else [].
Definition signed (neg : bool) (n : Z) : Z := if neg then - n else n.
(** The magnitudes [string2ll] accepts behind a sign. *)
Definition magnitude_ok (neg : bool) (n : Z) : Prop :=
  if neg then 1 <= n <= 2 ^ 63 else 0 <= n < 2 ^ 63.

#[export] Instance magnitude_ok_dec neg n : Decision (magnitude_ok neg n).
Proof. unfold magnitude_ok. destruct neg; apply _. Defined.

Lemma magnitude_range neg n : magnitude_ok neg n -> 0 <= n < 2 ^ 64.
Proof. unfold magnitude_ok. destruct neg; pow2s; lia. Qed.

Lemma dec_not_minus n t : 0 <= n < 10 ^ 20 -> dec n <> ch_minus :: t.
Proof.
  intros Hn Heq. pose proof (dec_digits n Hn) as Hd. rewrite Heq in Hd.
  inversion_clear Hd as [|? ? Hc _]. unfold is_digit, ch_minus, ch_0 in Hc. lia.
Qed.

(** Which values have a given string as their canonical representation. *)
Lemma dec_string_iff neg c t v :
  (neg = false -> c <> ch_minus) ->
  (in_s 64 v /\ sign_prefix neg ++ c :: t = dec_string v) <->
  (exists n, dec n = c :: t /\ v = signed neg n /\ magnitude_ok neg n).
Proof.
  intros Hc. unfold in_s, dec_string, signed, magnitude_ok.
  change (64 - 1) with 63. split.
  - intros [Hv Heq]. pow2s. destruct neg; simpl in Heq; destruct (Z.ltb_spec v 0).
    + injection Heq as Heq. exists (- v). split_and!; [done|lia|lia|lia].
    + exfalso. apply (dec_not_minus v (c :: t)); [pow2s; lia|done].
    + injection Heq as Heq _. by destruct (Hc eq_refl).
    + exists v. split_and!; [done|done|lia|lia].
  - intros (n & Hd & -> & Hn). destruct neg; pow2s.
    + split; [lia|]. destruct (Z.ltb_spec (- n) 0); [|lia].
      by rewrite Z.opp_involutive, Hd.
    + split; [lia|]. destruct (Z.ltb_spec n 0); [lia|]. by rewrite Hd.
Qed.

(** The part of [string2ll] behind the optional sign. *)
Definition string2ll_magnitude (neg : bool) (s : list Z) : option (option Z) :=
  c ← znth s (zlen (sign_prefix neg));
  if (ch_1 <=? c) && (c <=? ch_9) then
    r ← string2ll_loop (S (Z.to_nat (zlen s))) s (zlen s) (zlen (sign_prefix neg) + 1) (u64 (c - ch_0));
    match r with
    | None => Some None
    | Some (v, plen) =>
        if plen <? zlen s then Some None
        else if neg then
          if u64 (- (LLONG_MIN + 1)) + 1 <? v then Some None
          else Some (Some (i64 (u64 (- v))))
        else
          if LLONG_MAX <? v then Some None
          else Some (Some (i64 v))
    end
  else Some None.

Lemma final_check (neg : bool) v :
  1 <= v < 2 ^ 64 ->
  (if neg then
     if u64 (- (LLONG_MIN + 1)) + 1 <? v then Some None
     else Some (Some (i64 (u64 (- v))))
   else
     if LLONG_MAX <? v then @Some (option Z) None
     else Some (Some (i64 v)))
  = Some (if decide (magnitude_ok neg v) then Some (signed neg v) else None).
Proof.
  unfold magnitude_ok, signed, u64, i64, LLONG_MIN, LLONG_MAX. intros Hv.
  destruct neg; case_decide as Hm; pow2s.
  - rewrite wrap_id by (unfold in_u; pow2s; lia). zb_true.
    rewrite swrap_wrap, swrap_id by (unfold in_s; pow2s; lia). done.
  - rewrite wrap_id by (unfold in_u; pow2s; lia). by zb_true.
  - zb_true. rewrite swrap_id by (unfold in_s; pow2s; lia). done.
  - by zb_true.
Qed.

Lemma magnitude_dec neg n : magnitude_ok neg n -> 0 <= n < 10 ^ 20.
Proof. intros H%magnitude_range. pow2s. lia. Qed.

(** A canonical magnitude is 0 or starts with a digit from 1 to 9. *)
Lemma dec_first n c t :
  0 <= n < 10 ^ 20 -> dec n = c :: t -> (n = 0 /\ c = ch_0 /\ t = []) \/ ch_1 <= c <= ch_9.
Proof.
  intros Hn Hd. destruct (Z.eqb_spec n 0) as [->|].
  - left. rewrite dec_small in Hd by lia. by simplify_eq.
  - right. destruct (dec_head n) as (c' & ds & Hd' & ?); [lia|].
    rewrite Hd' in Hd. by simplify_eq.
Qed.

Lemma magnitude_spec neg c t :
  (neg = false -> c :: t <> [ch_0]) ->
  let s := sign_prefix neg ++ c :: t in
  exists r : option Z, string2ll_magnitude neg s = Some r /\
    forall v, r = Some v <-> exists n, dec n = c :: t /\ v = signed neg n /\ magnitude_ok neg n.
Proof.
  intros H0 s. unfold string2ll_magnitude. subst s.
  assert (znth (sign_prefix neg ++ c :: t) (zlen (sign_prefix neg)) = Some c) as ->
    by by destruct neg.
  cbn [mbind option_bind]. destruct (_ && _) eqn:Hc.
  2: { exists None. split; [done|]. intros v. split; [done|].
    intros (n & Hd & _ & Hm). exfalso.
    destruct (dec_first n c t) as [(-> & -> & ->)|Hc']; [by eapply magnitude_dec|done| |].
    - destruct neg; [unfold magnitude_ok in Hm; lia|]. by apply H0.
    - apply andb_false_iff in Hc as [Hc%Z.leb_gt|Hc%Z.leb_gt]; lia. }
  apply andb_true_iff in Hc as [Hc1%Z.leb_le Hc9%Z.leb_le]. unfold ch_1, ch_9 in Hc1, Hc9.
  assert (u64 (c - ch_0) = c - ch_0) as ->
    by (apply wrap_id; unfold in_u, ch_0; pow2s; lia).
  assert (dec (c - ch_0) = [c]) as Hd0.
  { rewrite dec_small by (unfold ch_0; lia). f_equal. lia. }
  destruct (string2ll_loop_spec (S (Z.to_nat (zlen (sign_prefix neg ++ c :: t))))
              (sign_prefix neg) t (c - ch_0)) as (r & Hr & Hres).
  { unfold ch_0; pow2s; lia. }
  { zlens. pose proof (zlen_nonneg (sign_prefix neg)). unfold zlen at 2. lia. }
  rewrite Hd0 in Hr, Hres. simpl in Hr, Hres.
  replace (zlen (sign_prefix neg ++ [c])) with (zlen (sign_prefix neg) + 1) in Hr by (zlens; lia).
  rewrite Hr. cbn [mbind option_bind]. destruct r as [[v' plen']|].
  - destruct Hres as (Hv' & rest' & Heq & -> & Hnd). apply app_inv_head in Heq.
    destruct rest' as [|x rest'].
    + rewrite Heq, app_nil_r. rewrite Z.ltb_irrefl, final_check by done.
      assert (forall n, dec n = dec v' -> magnitude_ok neg n -> n = v') as Hinj.
      { intros n Hd Hn%magnitude_dec. apply dec_inj; [done|pow2s; lia|done]. }
      eexists. split; [done|]. intros v. case_decide as Hm.
      * split; [intros [= <-]; by exists v'|].
        intros (n & Hd & -> & Hn). by rewrite (Hinj n).
      * split; [done|]. intros (n & Hd & -> & Hn). destruct Hm. by rewrite <- (Hinj n).
    + rewrite Heq. zlens. pose proof (zlen_nonneg rest'). zb_true.
      exists None. split; [done|]. intros v. split; [done|]. intros (n & Hd & _ & Hn).
      exfalso. apply Hnd. pose proof (dec_digits n) as Hdig. rewrite Hd in Hdig.
      assert (Forall is_digit (dec v' ++ x :: rest')) as Hall%Forall_app.
      { by eapply Hdig, magnitude_dec. }
      destruct Hall as [_ Hall]. by inversion_clear Hall.
  - exists None. split; [done|]. intros v. split; [done|]. intros (n & Hd & _ & Hn).
    exfalso. eapply Hres; [by eapply magnitude_range|]. by rewrite Hd.
Qed.

Lemma string2ll_split s :
  s <> [] -> s <> [ch_0] -> s <> [ch_minus] ->
  exists neg c t, s = sign_prefix neg ++ c :: t /\
    (neg = false -> c <> ch_minus) /\ (neg = false -> c :: t <> [ch_0]) /\
    string2ll s (zlen s) = string2ll_magnitude neg s.
Proof.
  intros H1 H2 H3. destruct s as [|c0 t]; [done|].
  assert (zlen (c0 :: t) <> 0) as Hz by (zlens; pose proof (zlen_nonneg t); lia).
  assert ((zlen (c0 :: t) =? 1) && (c0 =? ch_0) = false) as Hsp.
  { apply not_true_iff_false. intros [Hl%Z.eqb_eq ->%Z.eqb_eq]%andb_true_iff. zlens.
    assert (t = []) as -> by (apply zlen_0_inv; lia). done. }
  unfold string2ll, string2ll_magnitude. rewrite (Z.eqb_sym 0).
  destruct (Z.eqb_spec (zlen (c0 :: t)) 0); [done|]. simpl znth. cbn [mbind option_bind].
  change (znth (c0 :: t) 0) with (Some c0). cbn [mbind option_bind]. rewrite Hsp.
  destruct (Z.eqb_spec c0 ch_minus) as [->|Hc].
  - destruct t as [|c t]; [done|]. exists true, c, t. split_and!; [done|done|done|].
    assert (true && (1 =? zlen (ch_minus :: c :: t)) = false) as ->.
    { apply Z.eqb_neq. zlens. pose proof (zlen_nonneg t). lia. }
    reflexivity.
  - exists false, c0, t. split_and!; [done|done|done|]. reflexivity.
Qed.

Lemma string2ll_ok s :
  exists r : option Z, string2ll s (zlen s) = Some r /\
    forall v, r = Some v <-> (in_s 64 v /\ s = dec_string v).
Proof.
  destruct (decide (s = [])) as [->|H1].
  { exists None. split; [done|]. intros v. split; [done|]. intros [Hv Heq].
    pose proof (dec_string_zlen v) as Hl. rewrite <- Heq in Hl.
    pose proof (zlen_dec_pos (Z.abs v)). unfold in_s in Hv. pow2s.
    unfold b2z in Hl. zlens. destruct (v <? 0); lia. }
  destruct (decide (s = [ch_minus])) as [->|H3].
  { exists None. split; [done|]. intros v. split; [done|]. intros [Hv Heq]. exfalso.
    unfold in_s, dec_string in *. pow2s. destruct (Z.ltb_spec v 0).
    - injection Heq as Heq. pose proof (zlen_dec_pos (- v)) as Hp. rewrite <- Heq in Hp. zlens.
      pow2s. lia.
    - by apply (dec_not_minus v []); [pow2s; lia|]. }
  destruct (decide (s = [ch_0])) as [->|H2].
  { exists (Some 0). split; [done|]. intros v.
    pose proof (dec_string_iff false ch_0 [] v) as Hi. simpl in Hi. rewrite Hi by done.
    split; [intros [= <-]; exists 0; split_and!; [by rewrite dec_small by lia|done|done|done]|].
    intros (n & Hd & -> & Hn). simpl.
    rewrite (dec_inj n 0); [done|pow2s; lia|pow2s; lia|]. rewrite Hd. by rewrite dec_small by lia. }
  destruct (string2ll_split s H1 H2 H3) as (neg & c & t & -> & Hc & Ht & ->).
  destruct (magnitude_spec neg c t Ht) as (r & Hr & Hres). exists r. split; [done|].
  intros v. by rewrite Hres, dec_string_iff.
Qed.

(** C22: [string2ll] accepts exactly the canonical decimal strings of the 64-bit
    signed integers, and returns their value: no leading zero, plus sign,
    blank, "-0" or out of range number is accepted, and no canonical one is
    rejected.  It always returns, without reading outside the string. *)
Theorem string2ll_correct s :
  exists r : option Z, string2ll s (zlen s) = Some r /\
    forall v, r = Some v <-> (in_s 64 v /\ s = dec_string v).
Proof. apply string2ll_ok. Qed.

(** Printing and parsing are inverse: what [ll2string] stores is read back
    by [string2ll] as the same value. *)
Lemma ll2string_string2ll dst dstlen v :
  in_s 64 v -> dstlen <= zlen dst -> zlen (dec_string v) < dstlen ->
  exists dst' n, ll2string dst dstlen v = Some (dst', n) /\ 0 < n < dstlen /\
    string2ll (take (Z.to_nat n) dst') n = Some (Some v).
Proof.
  intros Hv Hd Hlen. rewrite ll2string_ok by done.
  rewrite (proj2 (Z.ltb_lt _ _) Hlen). do 2 eexists. split; [done|].
  pose proof (dec_string_zlen v) as Hl. pose proof (zlen_dec_pos (Z.abs v)) as Hp.
  unfold in_s in Hv. pow2s. split.
  { rewrite Hl in *. unfold b2z in *. destruct (v <? 0); lia. }
  rewrite take_app_length' by (unfold zlen; lia).
  destruct (string2ll_ok (dec_string v)) as (r & -> & Hr). f_equal.
  apply Hr. split; [|done]. unfold in_s. pow2s. lia.
Qed.

Lemma ll2string_correct_witness :
  ll2string (replicate 21 7) 21 LLONG_MIN =
  Some (if zlen (dec_string LLONG_MIN) <? 21
        then (dec_string LLONG_MIN ++ [0]
              ++ drop (S (length (dec_string LLONG_MIN))) (replicate 21 7),
              zlen (dec_string LLONG_MIN))
        else (replicate 21 7, 0)).
Proof. apply (ll2string_correct (replicate 21 7) 21 LLONG_MIN); by vm_compute. Defined.
