(* ===== verification/Glob.v ===== *)
(** * Glob: the pattern matcher [stringmatchlen] of [util.c]

    A pointer into a buffer is the buffer and an offset; the lengths passed
    beside the pointers are separate, as in the source, so that reading one
    byte past the pattern (which the code does, relying on the terminator of
    the string) is visible in the model. *)
From stdpp Require Import base option list numbers.
From Stdlib Require Import ZArith Lia Bool.
From S2P Require Import Prelude.
Open Scope Z_scope.

(** ** Characters ([char] is signed) *)

Definition ch_star : Z := 42.
Definition ch_qmark : Z := 63.
Definition ch_lbrack : Z := 91.
Definition ch_rbrack : Z := 93.
Definition ch_backslash : Z := 92.
Definition ch_caret : Z := 94.
Definition ch_dash : Z := 45.

(** [tolower] of the C locale. *)
Definition tolower (c : Z) : Z := if (65 <=? c) && (c <=? 90) then c + 32 else c.

(** Comparison of a pattern character with a string character. *)
Definition char_eq (nocase : bool) (a b : Z) : bool :=
  if negb nocase then a =? b else tolower a =? tolower b.

(** ** The matcher *)

(** [while (pattern[1] == '*') { pattern++; patternLen--; }] *)
Fixpoint skip_stars (fuel : nat) (pat : list Z) (p plen : Z) : option (Z * Z) :=
  match fuel with
  | O => None
  | S fuel =>
      c ← znth pat (p + 1);
      if c =? ch_star then skip_stars fuel pat (p + 1) (plen - 1)
      else Some (p, plen)
  end.

(** [while(STAR pattern == '*') { pattern++; patternLen--; }] *)
Fixpoint skip_trailing (fuel : nat) (pat : list Z) (p plen : Z) : option (Z * Z) :=
  match fuel with
  | O => None
  | S fuel =>
      c ← znth pat p;
      if c =? ch_star then skip_trailing fuel pat (p + 1) (plen - 1)
      else Some (p, plen)
  end.

(** The range test of a class: [start], [end] and [c] as in the source. *)
Definition in_range (nocase : bool) (start end_ c : Z) : bool :=
  let '(start, end_) := if end_ <? start then (end_, start) else (start, end_) in
  let '(start, end_, c) :=
    if nocase then (tolower start, tolower end_, tolower c) else (start, end_, c) in
  (start <=? c) && (c <=? end_).

(** The [while(1)] loop of a character class; [sc] is [string[0]].  The result
    is [(pattern, patternLen, match)] at the loop's exit. *)
Fixpoint class_loop (fuel : nat) (pat : list Z) (p plen sc : Z) (nocase match_ : bool)
    : option (Z * Z * bool) :=
  match fuel with
  | O => None
  | S fuel =>
      c ← znth pat p;
      if (c =? ch_backslash) && (2 <=? plen) then
        c ← znth pat (p + 1);
        let match_ := if c =? sc then true else match_ in
        class_loop fuel pat (p + 1 + 1) (plen - 1 - 1) sc nocase match_
      else if c =? ch_rbrack then Some (p, plen, match_)
      else if plen =? 0 then Some (p - 1, plen + 1, match_)
      else
        c1 ← znth pat (p + 1);
        if (c1 =? ch_dash) && (3 <=? plen) then
          c2 ← znth pat (p + 2);
          let match_ := if in_range nocase c c2 sc then true else match_ in
          class_loop fuel pat (p + 2 + 1) (plen - 2 - 1) sc nocase match_
        else
          let match_ := if char_eq nocase c sc then true else match_ in
          class_loop fuel pat (p + 1) (plen - 1) sc nocase match_
  end.

(** [while(stringLen) { if (rec string stringLen) return 1; string++; stringLen--; }
    return 0;] with [n] the value of [stringLen] on entry. *)
Fixpoint star_loop (n : nat) (rec : Z -> Z -> option bool) (s slen : Z) : option bool :=
  match n with
  | O => Some false
  | S n =>
      r ← rec s slen;
      if (r : bool) then Some true else star_loop n rec (s + 1) (slen - 1)
  end.

(** The statements that follow the [switch], with the string advanced; [rec]
    is the next turn of the loop. *)
Definition after_switch (rec : Z -> Z -> Z -> Z -> option bool) (pat : list Z)
    (p plen s slen : Z) : option bool :=
  let p := p + 1 in
  let plen := plen - 1 in
  if slen =? 0 then
    '(p, plen) ← skip_trailing (S (length pat)) pat p plen;
    Some ((plen =? 0) && (slen =? 0))
  else rec p plen s slen.

(** One call of [stringmatchlen] from the loop head on; every turn of the loop
    and every recursive call has a shorter pattern, which bounds the fuel. *)
Fixpoint match_loop (fuel : nat) (pat : list Z) (p plen : Z) (str : list Z) (s slen : Z)
    (nocase : bool) : option bool :=
  match fuel with
  | O => None
  | S fuel =>
    let next := after_switch
      (fun p plen s slen => match_loop fuel pat p plen str s slen nocase) pat in
    let literal p plen :=
      c ← znth pat p;
      sc ← znth str s;
      if negb (char_eq nocase c sc) then Some false
      else next p plen (s + 1) (slen - 1) in
    if negb (plen =? 0) && negb (slen =? 0) then
      c ← znth pat p;
      if c =? ch_star then
        '(p, plen) ← skip_stars (S (length pat)) pat p plen;
        if plen =? 1 then Some true
        else star_loop (Z.to_nat slen)
               (fun s slen => match_loop fuel pat (p + 1) (plen - 1) str s slen nocase)
               s slen
      else if c =? ch_qmark then
        if slen =? 0 then Some false
        else next p plen (s + 1) (slen - 1)
      else if c =? ch_lbrack then
        let p := p + 1 in
        let plen := plen - 1 in
        c ← znth pat p;
        let not_ := c =? ch_caret in
        let '(p, plen) := if not_ then (p + 1, plen - 1) else (p, plen) in
        sc ← znth str s;
        '(p, plen, match_) ← class_loop (S (length pat)) pat p plen sc nocase false;
        let match_ := if not_ then negb match_ else match_ in
        if negb match_ then Some false
        else next p plen (s + 1) (slen - 1)
      else if (c =? ch_backslash) && (2 <=? plen) then literal (p + 1) (plen - 1)
      else literal p plen
    else Some ((plen =? 0) && (slen =? 0))
  end.

Definition stringmatchlen (pattern : list Z) (patternLen : Z) (string : list Z)
    (stringLen : Z) (nocase : bool) : option bool :=
  match_loop (S (Z.to_nat patternLen)) pattern 0 patternLen string 0 stringLen nocase.

(** [strlen] of a NUL-terminated buffer. *)
Fixpoint strlen (s : list Z) : option Z :=
  match s with
  | [] => None
  | c :: s => if c =? 0 then Some 0 else n ← strlen s; Some (1 + n)
  end.
Definition stringmatch (pattern string : list Z) (nocase : bool) : option bool :=
  pl ← strlen pattern; sl ← strlen string;
  stringmatchlen pattern pl string sl nocase.

(** ** Reference semantics

    A pattern is parsed into tokens; a token list matches a string by the
    rules of glob patterns. *)
Inductive item :=
| IChar (c : Z)            (** a plain member, compared up to case *)
| IEsc (c : Z)             (** an escaped member, compared exactly *)
| IRange (a b : Z).
Inductive tok :=
| Star
| Any
| Class (neg : bool) (items : list item)
| Lit (c : Z).

(** [cls] is [Some (neg, items)] inside a class. *)
Fixpoint parse (cls : option (bool * list item)) (r : list Z) : list tok :=
  match cls with
  | None =>
      match r with
      | [] => []
      | c :: r =>
          if c =? ch_star then Star :: parse None r
          else if c =? ch_qmark then Any :: parse None r
          else if c =? ch_lbrack then
            match r with
            | c' :: r' => if c' =? ch_caret then parse (Some (true, [])) r'
                          else parse (Some (false, [])) r
            | [] => [Class false []]
            end
          else if c =? ch_backslash then
            match r with
            | c' :: r' => Lit c' :: parse None r'
            | [] => [Lit c]
            end
          else Lit c :: parse None r
      end
  | Some (neg, items) =>
      match r with
      | [] => [Class neg items]
      | c :: r =>
          if c =? ch_rbrack then Class neg items :: parse None r
          else
            match r with
            | c1 :: r1 =>
                if c =? ch_backslash then parse (Some (neg, items ++ [IEsc c1])) r1
                else
                  match r1 with
                  | c2 :: r2 =>
                      if c1 =? ch_dash then parse (Some (neg, items ++ [IRange c c2])) r2
                      else parse (Some (neg, items ++ [IChar c])) r
                  | [] => parse (Some (neg, items ++ [IChar c])) r
                  end
            | [] => parse (Some (neg, items ++ [IChar c])) r
            end
      end
  end.

Definition item_match (nocase : bool) (c : Z) (i : item) : bool :=
  match i with
  | IChar a => char_eq nocase a c
  | IEsc a => a =? c
  | IRange a b => in_range nocase a b c
  end.

(** [gmatch nocase ts s]: the string [s] matches the tokens [ts]. *)
Inductive gmatch (nocase : bool) : list tok -> list Z -> Prop :=
| gm_nil : gmatch nocase [] []
| gm_star ts s1 s2 : gmatch nocase ts s2 -> gmatch nocase (Star :: ts) (s1 ++ s2)
| gm_any ts c s : gmatch nocase ts s -> gmatch nocase (Any :: ts) (c :: s)
| gm_class ts neg items c s :
    xorb neg (existsb (item_match nocase c) items) = true ->
    gmatch nocase ts s -> gmatch nocase (Class neg items :: ts) (c :: s)
| gm_lit ts a c s :
    char_eq nocase a c = true -> gmatch nocase ts s -> gmatch nocase (Lit a :: ts) (c :: s).

(** ** Correctness *)

Lemma znth_at {A} (q t : list A) k : 0 <= k -> znth (q ++ t) (zlen q + k) = znth t k.
Proof.
  intros Hk. unfold znth. pose proof (zlen_nonneg q). zb_true.
  rewrite lookup_app_r by (unfold zlen; lia). f_equal. unfold zlen. lia.
Qed.
Lemma znth_at0 {A} (q t : list A) c : znth (q ++ c :: t) (zlen q) = Some c.
Proof. rewrite <- (Z.add_0_r (zlen q)), znth_at by lia. reflexivity. Qed.
Lemma znth_at1 {A} (q t : list A) c d : znth (q ++ c :: d :: t) (zlen q + 1) = Some d.
Proof. rewrite znth_at by lia. reflexivity. Qed.
Lemma znth_at2 {A} (q t : list A) c d e : znth (q ++ c :: d :: e :: t) (zlen q + 2) = Some e.
Proof. rewrite znth_at by lia. reflexivity. Qed.

(** *** Runs of stars *)

Definition stars (n : nat) : list Z := replicate n ch_star.
#[global] Arguments stars : simpl never.
Definition no_star (r : list Z) : Prop := match r with [] => True | c :: _ => c <> ch_star end.

Lemma stars_S n : stars (S n) = ch_star :: stars n.
Proof. reflexivity. Qed.

Lemma split_stars r : exists n r', r = stars n ++ r' /\ no_star r'.
Proof.
  induction r as [|c r (n & r' & -> & Hr)]; [by exists 0%nat, []|].
  destruct (decide (c = ch_star)) as [->|Hc]; [by exists (S n), r'|].
  by exists 0%nat, (c :: stars n ++ r').
Qed.

Lemma no_star_head r : no_star r -> exists c t, r ++ [0] = c :: t /\ c <> ch_star.
Proof. destruct r as [|c r]; intros Hr; simpl; do 2 eexists; by split. Qed.

Lemma skip_stars_spec fuel q n r :
  no_star r -> (n < fuel)%nat ->
  skip_stars fuel (q ++ ch_star :: stars n ++ r ++ [0]) (zlen q) (1 + zlen (stars n ++ r))
  = Some (zlen q + Z.of_nat n, 1 + zlen r).
Proof.
  intros Hr. revert fuel q. induction n as [|n IH]; intros fuel q Hf;
    (destruct fuel as [|fuel]; [lia|]); cbn [skip_stars].
  - destruct (no_star_head r Hr) as (c & t & -> & Hc). simpl. rewrite znth_at1. simpl.
    apply Z.eqb_neq in Hc. rewrite Hc. do 2 f_equal. lia.
  - rewrite stars_S. simpl app. rewrite znth_at1. simpl.
    specialize (IH fuel (q ++ [ch_star])). rewrite <- (assoc_L (++)) in IH. simpl in IH.
    zlens. replace (1 + (1 + (zlen (stars n) + zlen r)) - 1) with (1 + (zlen (stars n) + zlen r)) by lia.
    rewrite Z.add_0_r in IH. rewrite IH by lia. do 2 f_equal. lia.
Qed.

Lemma skip_trailing_spec fuel q n r :
  no_star r -> (n < fuel)%nat ->
  skip_trailing fuel (q ++ stars n ++ r ++ [0]) (zlen q) (zlen (stars n ++ r))
  = Some (zlen q + Z.of_nat n, zlen r).
Proof.
  intros Hr. revert fuel q. induction n as [|n IH]; intros fuel q Hf;
    (destruct fuel as [|fuel]; [lia|]); cbn [skip_trailing].
  - destruct (no_star_head r Hr) as (c & t & -> & Hc). simpl. rewrite znth_at0. simpl.
    apply Z.eqb_neq in Hc. rewrite Hc. do 2 f_equal. lia.
  - rewrite stars_S. simpl app. rewrite znth_at0. simpl.
    specialize (IH fuel (q ++ [ch_star])). rewrite <- (assoc_L (++)) in IH. simpl in IH.
    zlens. replace (1 + (zlen (stars n) + zlen r) - 1) with (zlen (stars n) + zlen r) by lia.
    rewrite Z.add_0_r in IH. rewrite IH by lia. do 2 f_equal. lia.
Qed.

Lemma parse_stars n r : parse None (stars n ++ r) = replicate n Star ++ parse None r.
Proof. induction n as [|n IH]; [done|]. rewrite stars_S. simpl. by rewrite IH. Qed.

Lemma gmatch_star_inv nocase ts s :
  gmatch nocase (Star :: ts) s -> exists s1 s2, s = s1 ++ s2 /\ gmatch nocase ts s2.
Proof. inversion 1; subst. eauto. Qed.

Lemma gmatch_stars nocase n ts s :
  gmatch nocase (Star :: replicate n Star ++ ts) s <-> gmatch nocase (Star :: ts) s.
Proof.
  split.
  - revert s. induction n as [|n IH]; intros s; [done|]. simpl.
    intros (s1 & s2 & -> & (s3 & s4 & -> & H)%IH%gmatch_star_inv)%gmatch_star_inv.
    rewrite (assoc_L (++)). by constructor.
  - induction n as [|n IH]; [done|]. intros H%IH. apply (gm_star _ _ [] s). exact H.
Qed.

(** *** Classes *)

(** [class_ok]: from pattern position [q], with [r] left, the class loop reads
    the members the parser collects, up to the closing bracket or the end of
    the pattern, and leaves [pattern] on the last character it consumed. *)
Definition class_ok (fuel : nat) (q r : list Z) (sc : Z) (nocase m : bool) : Prop :=
  exists its q' rest,
    class_loop fuel (q ++ r ++ [0]) (zlen q) (zlen r) sc nocase m
    = Some (zlen q' - 1, zlen rest + 1, m || existsb (item_match nocase sc) its) /\
    (forall neg items, parse (Some (neg, items)) r = Class neg (items ++ its) :: parse None rest) /\
    q ++ r = q' ++ rest /\ (length rest <= length r)%nat.

(** One member [i], written with the characters [used]. *)
Lemma class_step fuel q used i r sc nocase m :
  class_ok fuel (q ++ used) r sc nocase (if item_match nocase sc i then true else m) ->
  class_loop (S fuel) (q ++ (used ++ r) ++ [0]) (zlen q) (zlen (used ++ r)) sc nocase m
  = class_loop fuel ((q ++ used) ++ r ++ [0]) (zlen (q ++ used)) (zlen r) sc nocase
      (if item_match nocase sc i then true else m) ->
  (forall neg items, parse (Some (neg, items)) (used ++ r) = parse (Some (neg, items ++ [i])) r) ->
  class_ok (S fuel) q (used ++ r) sc nocase m.
Proof.
  intros (its & q' & rest & Hl & Hp & Hq & Hr) Hstep Hparse.
  exists (i :: its), q', rest. split_and!.
  - rewrite Hstep, Hl. simpl. by destruct (item_match _ _ _), m.
  - intros neg items. by rewrite Hparse, Hp, <- (assoc_L (++)).
  - by rewrite <- (assoc_L (++)) in Hq.
  - rewrite length_app. lia.
Qed.

Lemma class_loop_spec fuel q r sc nocase m :
  (length r < fuel)%nat -> class_ok fuel q r sc nocase m.
Proof.
  revert q r m. induction fuel as [|fuel IH]; intros q r m Hf; [lia|].
  destruct r as [|c r].
  { exists [], q, []. cbn [class_loop]. simpl. rewrite znth_at0. simpl.
    split_and!; [|intros; simpl|done|done]; by rewrite ?orb_false_r, ?app_nil_r. }
  destruct (Z.eqb_spec c ch_rbrack) as [->|Hrb].
  { exists [], (q ++ [ch_rbrack]), r. cbn [class_loop]. simpl app. rewrite znth_at0. simpl.
    split_and!; [|intros; simpl| |simpl; lia].
    - rewrite orb_false_r. zlens. do 3 f_equal; lia.
    - by rewrite app_nil_r.
    - by rewrite <- (assoc_L (++)). }
  apply Z.eqb_neq in Hrb. pose proof (zlen_nonneg r) as Hr0.
  assert (forall b, (c =? ch_backslash) && (2 <=? 1 + zlen r) = false ->
            (c1 ← znth (r ++ [0]) 0; Some ((c1 =? ch_dash) && (3 <=? 1 + zlen r))) = Some false ->
            (forall neg items, parse (Some (neg, items)) (c :: r) = parse (Some (neg, items ++ [IChar c])) r) ->
            class_ok (S fuel) q (c :: r) sc nocase b) as Hplain.
  { intros b H1 H2 H3. apply (class_step fuel q [c] (IChar c) r); [apply IH; simpl in *; lia| |done].
    cbn [class_loop]. simpl app. rewrite znth_at0. cbn [mbind option_bind]. zlens.
    rewrite H1, Hrb. zb_true. change (c :: r ++ [0]) with ([c] ++ (r ++ [0])).
    rewrite (assoc_L (++)), <- (Z.add_0_r (zlen q + 1)).
    replace (zlen q + 1 + 0) with (zlen (q ++ [c]) + 0) at 1 by (zlens; lia).
    rewrite znth_at by lia. destruct (znth (r ++ [0]) 0) as [c1|]; [|done].
    cbn [mbind option_bind] in *. injection H2 as H2. rewrite H2.
    f_equal; (reflexivity || (zlens; lia)). }
  destruct (Z.eqb_spec c ch_backslash) as [->|Hbs].
  { destruct r as [|c1 r]; [by apply Hplain|].
    apply (class_step fuel q [ch_backslash; c1] (IEsc c1) r); [apply IH; simpl in *; lia| |done].
    cbn [class_loop]. simpl app. rewrite znth_at0, znth_at1. cbn [mbind option_bind]. zlens.
    pose proof (zlen_nonneg r). zb_true. rewrite <- (assoc_L (++)). simpl. f_equal; (reflexivity || lia). }
  apply Z.eqb_neq in Hbs. destruct r as [|c1 [|c2 r]].
  - apply Hplain; [done|done|]. intros. simpl. by rewrite Hrb.
  - apply Hplain; [done|simpl; by rewrite andb_false_r|].
    intros. simpl. by rewrite Hrb, Hbs.
  - destruct (Z.eqb_spec c1 ch_dash) as [->|Hd].
    + apply (class_step fuel q [c; ch_dash; c2] (IRange c c2) r); [apply IH; simpl in *; lia| |].
      * cbn [class_loop]. simpl app. rewrite znth_at0, znth_at1, znth_at2. cbn [mbind option_bind].
        zlens. rewrite Hbs, Hrb. pose proof (zlen_nonneg r). zb_true. rewrite <- (assoc_L (++)). simpl. f_equal; (reflexivity || lia).
      * intros. simpl. by rewrite Hrb, Hbs.
    + apply Z.eqb_neq in Hd. apply Hplain; [done|simpl; by rewrite Hd|].
      intros. simpl. by rewrite Hrb, Hbs, Hd.
Qed.

(** *** The matcher *)

(** The call returns, and returns true exactly when [P] holds. *)
Definition decides (o : option bool) (P : Prop) : Prop :=
  exists b, o = Some b /\ (b = true <-> P).

Lemma decides_iff o P Q : decides o P -> (P <-> Q) -> decides o Q.
Proof. intros (b & -> & H) HPQ. exists b. split; [done|]. tauto. Qed.
Lemma decides_bool (b : bool) P : (b = true <-> P) -> decides (Some b) P.
Proof. intros H. by exists b. Qed.

Lemma parse_class_head neg items r : exists its ts, parse (Some (neg, items)) r = Class neg its :: ts.
Proof.
  destruct (class_loop_spec (S (length r)) [] r 0 false false) as (its & q' & rest & _ & Hp & _); [lia|].
  eauto.
Qed.

(** A pattern that does not start with a star needs a character. *)
Lemma gmatch_needs_char nocase r :
  no_star r -> r <> [] -> ~ gmatch nocase (parse None r) [].
Proof.
  destruct r as [|c r]; [done|]. simpl. intros Hc%Z.eqb_neq _. rewrite Hc.
  intros H. repeat case_match; try by inversion H.
  - destruct (parse_class_head true [] l) as (its & ts & Hp). rewrite Hp in H. inversion H.
  - destruct (parse_class_head false [] (z :: l)) as (its & ts & Hp). rewrite Hp in H. inversion H.
Qed.

Lemma gmatch_empty nocase n r :
  no_star r -> (gmatch nocase (parse None (stars n ++ r)) [] <-> r = []).
Proof.
  intros Hr. rewrite parse_stars. split.
  - intros H. destruct (decide (r = [])) as [->|Hne]; [done|]. exfalso.
    eapply (gmatch_needs_char nocase r Hr Hne). clear Hr Hne.
    induction n as [|n IH]; [done|]. simpl in H.
    apply gmatch_star_inv in H as (s1 & s2 & Hs & H).
    symmetry in Hs. apply app_nil in Hs as [-> ->]. by apply IH.
  - intros ->. simpl. induction n as [|n IH]; simpl; [constructor|]. by apply (gm_star _ _ [] []).
Qed.

Lemma after_switch_spec rec nocase q r sl s p plen :
  p + 1 = zlen q -> plen - 1 = zlen r ->
  (sl <> [] -> decides (rec (zlen q) (zlen r) s (zlen sl)) (gmatch nocase (parse None r) sl)) ->
  decides (after_switch rec (q ++ r ++ [0]) p plen s (zlen sl)) (gmatch nocase (parse None r) sl).
Proof.
  intros Hp Hpl Hrec. unfold after_switch. rewrite Hp, Hpl.
  destruct (Z.eqb_spec (zlen sl) 0) as [Hz|Hz].
  - apply zlen_0_inv in Hz as ->. destruct (split_stars r) as (n & r' & -> & Hr).
    rewrite <- (assoc_L (++)), skip_trailing_spec; [|done|].
    2: { unfold stars. rewrite !length_app, length_replicate. lia. }
    simpl. apply decides_bool. rewrite gmatch_empty by done. rewrite andb_true_r, Z.eqb_eq.
    split; [apply zlen_0_inv|by intros ->].
  - apply Hrec. by intros ->.
Qed.

(** The string loop of a star tries every non-empty suffix. *)
Lemma star_loop_spec rec (P : list Z -> Prop) sl s :
  (forall s1 s2, sl = s1 ++ s2 -> s2 <> [] -> decides (rec (s + zlen s1) (zlen s2)) (P s2)) ->
  decides (star_loop (length sl) rec s (zlen sl))
    (exists s1 s2, sl = s1 ++ s2 /\ s2 <> [] /\ P s2).
Proof.
  revert s. induction sl as [|c sl IH]; intros s Hrec; simpl.
  { apply decides_bool. split; [done|]. intros (s1 & s2 & Hs & Hne & _).
    symmetry in Hs. by apply app_nil in Hs as [_ ->]. }
  destruct (Hrec [] (c :: sl)) as (b & Hb & HP); [done|done|].
  rewrite Z.add_0_r in Hb. rewrite Hb. simpl. destruct b.
  { apply decides_bool. split; [|done]. intros _. exists [], (c :: sl). split_and!; try done. by apply HP. }
  replace (zlen (c :: sl) - 1) with (zlen sl) by (zlens; lia).
  eapply decides_iff; [apply IH|].
  - intros s1 s2 -> Hne. replace (s + 1 + zlen s1) with (s + zlen (c :: s1)) by (zlens; lia).
    by apply Hrec.
  - split.
    + intros (s1 & s2 & -> & Hne & H). by exists (c :: s1), s2.
    + intros (s1 & s2 & Hs & Hne & H). destruct s1 as [|c' s1]; simpl in Hs.
      * subst s2. by apply HP in H.
      * simplify_eq. by exists s1, s2.
Qed.

(** What a call must decide: on a non-empty string the glob semantics; the
    empty string is matched by the empty pattern only. *)
Definition call_spec (nocase : bool) (r sl : list Z) : Prop :=
  match sl with [] => r = [] | _ => gmatch nocase (parse None r) sl end.

Definition loop_ok (fuel : nat) (nocase : bool) : Prop :=
  forall q r qs sl, (length r < fuel)%nat ->
  decides (match_loop fuel (q ++ r ++ [0]) (zlen q) (zlen r) (qs ++ sl) (zlen qs) (zlen sl) nocase)
    (call_spec nocase r sl).

(** The next turn of the loop, after one character [sc] of the string. *)
Lemma next_turn fuel nocase q r qs sc sl p plen :
  loop_ok fuel nocase -> (length r < fuel)%nat -> p + 1 = zlen q -> plen - 1 = zlen r ->
  decides (after_switch (fun p plen s slen => match_loop fuel (q ++ r ++ [0]) p plen (qs ++ sc :: sl) s slen nocase)
             (q ++ r ++ [0]) p plen (zlen qs + 1) (zlen (sc :: sl) - 1))
    (gmatch nocase (parse None r) sl).
Proof.
  intros IH Hr Hp Hpl. replace (zlen (sc :: sl) - 1) with (zlen sl) by (zlens; lia).
  apply after_switch_spec; [done|done|]. intros Hne.
  specialize (IH q r (qs ++ [sc]) sl Hr). rewrite <- (assoc_L (++)) in IH. simpl in IH.
  replace (zlen (qs ++ [sc])) with (zlen qs + 1) in IH by (zlens; lia).
  by destruct sl.
Qed.

(** A star followed by [n] more and the star-free [r]. *)
Lemma star_case fuel nocase q n r qs sl :
  loop_ok fuel nocase -> (length r < fuel)%nat -> no_star r -> sl <> [] ->
  decides
    ('(p, plen) ← skip_stars (S (length (q ++ (ch_star :: stars n ++ r) ++ [0])))
         (q ++ (ch_star :: stars n ++ r) ++ [0]) (zlen q) (zlen (ch_star :: stars n ++ r));
     if plen =? 1 then Some true
     else star_loop (Z.to_nat (zlen sl))
            (fun s slen => match_loop fuel (q ++ (ch_star :: stars n ++ r) ++ [0]) (p + 1) (plen - 1)
                             (qs ++ sl) s slen nocase) (zlen qs) (zlen sl))
    (gmatch nocase (parse None (ch_star :: stars n ++ r)) sl).
Proof.
  intros IH Hf Hr Hne. simpl app. rewrite zlen_cons, <- (assoc_L (++)).
  rewrite skip_stars_spec; [|done|].
  2: { unfold stars. simpl. rewrite !length_app. simpl. rewrite !length_app, length_replicate. lia. }
  cbn [mbind option_bind]. change (parse None (ch_star :: stars n ++ r)) with (Star :: parse None (stars n ++ r)).
  rewrite parse_stars. eapply decides_iff; [|symmetry; apply gmatch_stars].
  destruct (Z.eqb_spec (1 + zlen r) 1) as [Hz|Hz].
  { assert (r = []) as -> by (apply zlen_0_inv; lia). apply decides_bool. split; [intros _|done].
    rewrite <- (app_nil_r sl). constructor. constructor. }
  assert (r <> []) as Hrne by by intros ->.
  replace (Z.to_nat (zlen sl)) with (length sl) by (unfold zlen; lia).
  eapply decides_iff; [apply (star_loop_spec _ (gmatch nocase (parse None r)))|].
  - intros s1 s2 -> Hs2.
    specialize (IH (q ++ ch_star :: stars n) r (qs ++ s1) s2 Hf).
    rewrite <- !(assoc_L (++)) in IH. simpl in IH.
    replace (zlen (q ++ ch_star :: stars n)) with (zlen q + Z.of_nat n + 1) in IH
      by (unfold stars; zlens; lia).
    replace (1 + zlen r - 1) with (zlen r) by lia. rewrite <- zlen_app. by destruct s2.
  - split.
    + intros (s1 & s2 & -> & _ & H). by constructor.
    + intros (s1 & s2 & -> & H)%gmatch_star_inv. exists s1, s2. split_and!; [done| |done].
      intros ->. by apply (gmatch_needs_char nocase r) in H.
Qed.

(** The [default] case, for the pattern character [c]. *)
Lemma literal_case fuel nocase q c r qs sc sl :
  loop_ok fuel nocase -> (length r < fuel)%nat ->
  decides
    (c' ← znth (q ++ c :: r ++ [0]) (zlen q);
     sc' ← znth (qs ++ sc :: sl) (zlen qs);
     if negb (char_eq nocase c' sc') then Some false
     else after_switch (fun p plen s slen => match_loop fuel (q ++ c :: r ++ [0]) p plen (qs ++ sc :: sl) s slen nocase)
            (q ++ c :: r ++ [0]) (zlen q) (1 + zlen r) (zlen qs + 1) (zlen (sc :: sl) - 1))
    (gmatch nocase (Lit c :: parse None r) (sc :: sl)).
Proof.
  intros IH Hf. rewrite !znth_at0. cbn [mbind option_bind].
  destruct (char_eq nocase c sc) eqn:Hc; simpl negb; cbv iota.
  - replace (q ++ c :: r ++ [0]) with ((q ++ [c]) ++ r ++ [0]) by by rewrite <- (assoc_L (++)).
    eapply decides_iff; [apply next_turn; [done|done|zlens; lia|lia]|].
    split; [by constructor|by inversion 1].
  - apply decides_bool. split; [done|]. inversion 1; congruence.
Qed.

(** A character class: [r] is the pattern behind the opening bracket and the
    optional caret. *)
Lemma class_case fuel nocase neg q r qs sc sl :
  loop_ok fuel nocase -> (length r < fuel)%nat ->
  decides
    (sc' ← znth (qs ++ sc :: sl) (zlen qs);
     '(p, plen, match_) ← class_loop (S (length (q ++ r ++ [0]))) (q ++ r ++ [0]) (zlen q) (zlen r) sc' nocase false;
     let match_ := if (neg : bool) then negb match_ else match_ in
     if negb match_ then Some false
     else after_switch (fun p plen s slen => match_loop fuel (q ++ r ++ [0]) p plen (qs ++ sc :: sl) s slen nocase)
            (q ++ r ++ [0]) p plen (zlen qs + 1) (zlen (sc :: sl) - 1))
    (gmatch nocase (parse (Some (neg, [])) r) (sc :: sl)).
Proof.
  intros IH Hf. rewrite znth_at0. cbn [mbind option_bind].
  destruct (class_loop_spec (S (length (q ++ r ++ [0]))) q r sc nocase false)
    as (its & q' & rest & Hl & Hp & Hq & Hr); [rewrite !length_app; lia|].
  rewrite Hl, Hp. cbn [mbind option_bind]. simpl app.
  assert ((if neg then negb (false || existsb (item_match nocase sc) its)
           else false || existsb (item_match nocase sc) its)
          = xorb neg (existsb (item_match nocase sc) its)) as -> by by destruct neg.
  destruct (xorb neg _) eqn:Hx; simpl negb; cbv iota.
  - rewrite (assoc_L (++)), Hq, <- (assoc_L (++)).
    eapply decides_iff; [apply next_turn; [done|lia|lia|lia]|].
    split; [by constructor|by inversion 1].
  - apply decides_bool. split; [done|]. inversion 1; congruence.
Qed.

Lemma match_loop_spec fuel nocase : loop_ok fuel nocase.
Proof.
  induction fuel as [|fuel IH]; intros q r qs sl Hf; [lia|]. cbn [match_loop].
  destruct sl as [|sc sl].
  { change (zlen (@nil Z) =? 0) with true. rewrite andb_false_r. apply decides_bool. simpl.
    rewrite andb_true_r, Z.eqb_eq. split; [apply zlen_0_inv|by intros ->]. }
  unfold call_spec. pose proof (zlen_nonneg sl) as Hsl.
  assert ((zlen (sc :: sl) =? 0) = false) as -> by (apply Z.eqb_neq; zlens; lia).
  destruct r as [|c r].
  { simpl. apply decides_bool. split; [done|]. inversion 1. }
  pose proof (zlen_nonneg r) as Hr0. simpl in Hf.
  assert ((zlen (c :: r) =? 0) = false) as -> by (apply Z.eqb_neq; zlens; lia).
  simpl negb. simpl andb. cbv iota. simpl app.
  rewrite (znth_at0 q (r ++ [0]) c) at 1. cbn [mbind option_bind].
  destruct (Z.eqb_spec c ch_star) as [->|Hst].
  { destruct (split_stars r) as (n & r' & -> & Hr').
    apply star_case; [done| |done|done]. rewrite length_app in Hf. lia. }
  apply Z.eqb_neq in Hst. cbn [parse]. rewrite Hst.
  destruct (Z.eqb_spec c ch_qmark) as [->|Hq].
  { eapply decides_iff.
    - replace (q ++ ch_qmark :: r ++ [0]) with ((q ++ [ch_qmark]) ++ r ++ [0]) by by rewrite <- (assoc_L (++)).
      apply next_turn; [done|lia|zlens; lia|zlens; lia].
    - split; [by constructor|by inversion 1]. }
  destruct (Z.eqb_spec c ch_lbrack) as [->|Hlb].
  { replace (zlen (ch_lbrack :: r) - 1) with (zlen r) by (zlens; lia).
    replace (zlen q + 1) with (zlen (q ++ [ch_lbrack])) by (zlens; lia).
    replace (q ++ ch_lbrack :: r ++ [0]) with ((q ++ [ch_lbrack]) ++ r ++ [0]) by by rewrite <- (assoc_L (++)).
    destruct r as [|c r]; simpl app.
    { rewrite (znth_at0 (q ++ [ch_lbrack]) [] 0) at 1. cbn [mbind option_bind]. simpl Z.eqb. cbv iota.
      apply (class_case fuel nocase false _ []); [done|simpl; lia]. }
    rewrite (znth_at0 (q ++ [ch_lbrack]) (r ++ [0]) c) at 1.
    cbn [mbind option_bind]. destruct (Z.eqb_spec c ch_caret) as [->|Hca].
    - replace (zlen (q ++ [ch_lbrack]) + 1) with (zlen ((q ++ [ch_lbrack]) ++ [ch_caret])) by (zlens; lia).
      replace (zlen (ch_caret :: r) - 1) with (zlen r) by (zlens; lia).
      replace ((q ++ [ch_lbrack]) ++ ch_caret :: r ++ [0])
        with (((q ++ [ch_lbrack]) ++ [ch_caret]) ++ r ++ [0]) by by rewrite <- !(assoc_L (++)).
      apply (class_case fuel nocase true); [done|simpl in *; lia].
    - apply (class_case fuel nocase false _ (c :: r)); [done|simpl in *; lia]. }
  destruct (Z.eqb_spec c ch_backslash) as [->|Hbs].
  - destruct r as [|c r].
    + change (zlen [ch_backslash]) with (1 + zlen (@nil Z)). simpl andb. cbv iota.
      apply (literal_case fuel nocase q ch_backslash []); [done|simpl in *; lia].
    + assert ((2 <=? zlen (ch_backslash :: c :: r)) = true) as ->
        by (apply Z.leb_le; zlens; pose proof (zlen_nonneg r); lia).
      simpl andb. cbv iota.
      replace (zlen q + 1) with (zlen (q ++ [ch_backslash])) by (zlens; lia).
      replace (q ++ ch_backslash :: (c :: r) ++ [0])
        with ((q ++ [ch_backslash]) ++ c :: r ++ [0]) by by rewrite <- (assoc_L (++)).
      replace (zlen (ch_backslash :: c :: r) - 1) with (1 + zlen r) by (zlens; lia).
      apply literal_case; [done|simpl in *; lia].
  - simpl andb. cbv iota. rewrite (zlen_cons c). apply literal_case; [done|lia].
Qed.

(** C30: on a non-empty string and a NUL-terminated pattern [stringmatchlen]
    always returns, reads nothing outside the string and nothing beyond the
    terminator of the pattern, and answers exactly the glob semantics of the
    parsed pattern: stars (runs of them included), question marks, classes with
    ranges, negation, escapes and a missing closing bracket, escaped literals
    and a trailing backslash, with and without case folding. *)
Theorem stringmatchlen_correct P S nocase :
  S <> [] ->
  exists b, stringmatchlen (P ++ [0]) (zlen P) S (zlen S) nocase = Some b /\
    (b = true <-> gmatch nocase (parse None P) S).
Proof.
  intros HS. destruct (match_loop_spec (Datatypes.S (Z.to_nat (zlen P))) nocase [] P [] S)
    as (b & Hb & Hs); [unfold zlen; lia|].
  exists b. split; [exact Hb|]. by destruct S.
Qed.

(** On the empty string the answer is whether the pattern is empty; so the
    pattern [*] (or any non-empty run of stars), which matches the empty string
    in the glob semantics, is answered "no match". *)
Lemma stringmatchlen_empty_string P nocase n :
  stringmatchlen (P ++ [0]) (zlen P) [] 0 nocase = Some (zlen P =? 0) /\
  gmatch nocase (parse None (stars n)) [].
Proof.
  split.
  - destruct (match_loop_spec (Datatypes.S (Z.to_nat (zlen P))) nocase [] P [] [])
      as (b & Hb & Hs); [unfold zlen; lia|].
    change (stringmatchlen (P ++ [0]) (zlen P) [] 0 nocase = Some b) in Hb. rewrite Hb. f_equal.
    simpl in Hs. apply eq_true_iff_eq. rewrite Hs, Z.eqb_eq.
    split; [by intros ->|apply zlen_0_inv].
  - rewrite <- (app_nil_r (stars n)). by apply gmatch_empty.
Qed.

Lemma stringmatchlen_correct_witness :
  exists b, stringmatchlen ([ch_lbrack; 97; ch_dash; 99; ch_rbrack; ch_star] ++ [0]) 6 [98; 120] 2 false = Some b /\
    (b = true <-> gmatch false (parse None [ch_lbrack; 97; ch_dash; 99; ch_rbrack; ch_star]) [98; 120]).
Proof. apply (stringmatchlen_correct [ch_lbrack; 97; ch_dash; 99; ch_rbrack; ch_star] [98; 120] false). done. Defined.

Example glob_yes : stringmatchlen [ch_lbrack; 97; ch_dash; 99; ch_rbrack; ch_star; 0] 6 [98; 120] 2 false = Some true.
Proof. reflexivity. Qed.
Example glob_no : stringmatchlen [ch_lbrack; ch_caret; 97; ch_rbrack; ch_qmark; 0] 5 [97; 120] 2 false = Some false.
Proof. reflexivity. Qed.
