(* ===== verification/Dict.v ===== *)
(** * Dict: the incrementally rehashed hash table of [dict.c]

    The chain of a bucket is the list of its entries in link order; a table is
    an array of chains, or [None] for the NULL pointer.  Every access to an
    array is checked, so a [Some] result is also a statement of memory safety.
    Entries are addressed by references (table, bucket, position in the chain),
    which stand for [dictEntry *]. *)
From stdpp Require Import base option list numbers.
From Stdlib Require Import ZArith Lia Bool.
From S2P Require Import Prelude.
Open Scope Z_scope.

(** ** The interface of keys and values: [dictType] *)

(** The callbacks.  A NULL [keyDup] or [valDup] is the identity; [keyPtrEq] is
    the pointer comparison [key == he->key]. *)
Class DictType (K V : Type) := {
  hashFunction : K -> Z;
  keyCompare : K -> K -> bool;
  keyPtrEq : K -> K -> bool;
  keyDup : K -> K;
  valDup : V -> V
}.

(** What the table relies on. *)
Class DictTypeLaws (K V : Type) `{DictType K V} : Prop := {
  hash_range : forall k, in_u 64 (hashFunction k);
  cmp_refl : forall k, keyCompare k k = true;
  cmp_sym : forall a b, keyCompare a b = true -> keyCompare b a = true;
  cmp_trans : forall a b c, keyCompare a b = true -> keyCompare b c = true -> keyCompare a c = true;
  cmp_hash : forall a b, keyCompare a b = true -> hashFunction a = hashFunction b;
  ptr_cmp : forall a b, keyPtrEq a b = true -> keyCompare a b = true;
  dup_cmp : forall k, keyCompare k (keyDup k) = true
}.

Definition DICT_OK : Z := 0.
Definition DICT_ERR : Z := 1.
Definition DICT_HT_INITIAL_SIZE : Z := 4.
Definition dict_force_resize_ratio : Z := 5.
Definition LONG_MAX : Z := 2 ^ 63 - 1.

Section Dict.
Context {K V : Type} `{DictType K V}.
(** What the value of an entry holds before the caller of [dictAddRaw] sets it. *)
Variable uninit : V.
(** The global [dict_can_resize]. *)
Variable dict_can_resize : bool.

(** ** Data *)

Record dictEntry := mk_entry { de_key : K; de_val : V }.
Abbreviation chain := (list dictEntry).

Record dictht := mk_ht {
  ht_table : option (list chain);
  ht_size : Z;
  ht_sizemask : Z;
  ht_used : Z
}.

Record dict := mk_dict {
  ht0 : dictht;
  ht1 : dictht;
  rehashidx : Z;
  iterators : Z
}.

Definition dictIsRehashing (d : dict) : bool := negb (rehashidx d =? -1).
Definition dictSize (d : dict) : Z := ht_used (ht0 d) + ht_used (ht1 d).
Definition dictSlots (d : dict) : Z := ht_size (ht0 d) + ht_size (ht1 d).

(** [d->ht[table]] *)
Definition get_ht (d : dict) (table : Z) : dictht := if table =? 0 then ht0 d else ht1 d.
Definition set_ht (d : dict) (table : Z) (h : dictht) : dict :=
  if table =? 0 then mk_dict h (ht1 d) (rehashidx d) (iterators d)
  else mk_dict (ht0 d) h (rehashidx d) (iterators d).

(** ** Creation *)

Definition _dictReset : dictht := mk_ht None 0 0 0.
Definition dictCreate : dict := mk_dict _dictReset _dictReset (-1) 0.

(** ** Growing *)

(** The loop of [_dictNextPower]; [i] is an [unsigned long]. *)
Fixpoint next_power (fuel : nat) (i size : Z) : option Z :=
  match fuel with
  | O => None
  | S fuel => if size <=? i then Some i else next_power fuel (u64 (i * 2)) size
  end.
Definition _dictNextPower (size : Z) : option Z :=
  if LONG_MAX <=? size then Some (u64 (LONG_MAX + 1))
  else next_power 64 DICT_HT_INITIAL_SIZE size.

(** The result and the return code.  The size of the allocation,
    [realsize] pointers of 8 bytes, is a [size_t]: the table has as many buckets as
    fit in what is left of it after the wrap-around. *)
Definition dictExpand (d : dict) (size : Z) : option (dict * Z) :=
  if dictIsRehashing d || (size <? ht_used (ht0 d)) then Some (d, DICT_ERR)
  else
    realsize ← _dictNextPower size;
    if realsize =? ht_size (ht0 d) then Some (d, DICT_ERR)
    else
      let table := replicate (Z.to_nat (u64 (realsize * 8) / 8)) [] in
      let n := mk_ht (Some table) realsize (realsize - 1) 0 in
      match ht_table (ht0 d) with
      | None => Some (set_ht d 0 n, DICT_OK)
      | Some _ => Some (mk_dict (ht0 d) n 0 (iterators d), DICT_OK)
      end.

Definition dictResize (d : dict) : option (dict * Z) :=
  if negb dict_can_resize || dictIsRehashing d then Some (d, DICT_ERR)
  else
    let minimal := i32 (ht_used (ht0 d)) in
    let minimal := if minimal <? DICT_HT_INITIAL_SIZE then DICT_HT_INITIAL_SIZE else minimal in
    dictExpand d minimal.

Definition _dictExpandIfNeeded (d : dict) : option (dict * Z) :=
  if dictIsRehashing d then Some (d, DICT_OK)
  else if ht_size (ht0 d) =? 0 then dictExpand d DICT_HT_INITIAL_SIZE
  else if (ht_size (ht0 d) <=? ht_used (ht0 d)) &&
          (dict_can_resize ||
           (dict_force_resize_ratio <? ht_used (ht0 d) / ht_size (ht0 d)))
  then dictExpand d (u64 (ht_used (ht0 d) * 2))
  else Some (d, DICT_OK).

(** ** Incremental rehashing *)

(** [while(d->ht[0].table[d->rehashidx] == NULL) { d->rehashidx++;
      if (--empty_visits == 0) return 1; }]
    The flag tells that the function returned from inside the loop. *)
Fixpoint skip_empty (fuel : nat) (t : list chain) (idx empty_visits : Z) : option (bool * Z * Z) :=
  match fuel with
  | O => None
  | S fuel =>
      b ← znth t idx;
      match b with
      | [] =>
          let idx := idx + 1 in
          let empty_visits := empty_visits - 1 in
          if empty_visits =? 0 then Some (true, idx, empty_visits)
          else skip_empty fuel t idx empty_visits
      | _ => Some (false, idx, empty_visits)
      end
  end.

(** [while(de) { ... }]: the entries of a chain are pushed, in order, in front
    of their buckets in the new table. *)
Fixpoint move_chain (b : chain) (h0 h1 : dictht) : option (dictht * dictht) :=
  match b with
  | [] => Some (h0, h1)
  | de :: nextde =>
      let h := Z.land (hashFunction (de_key de)) (ht_sizemask h1) in
      t1 ← ht_table h1;
      c ← znth t1 h;
      t1 ← zset t1 h (de :: c);
      move_chain nextde
        (mk_ht (ht_table h0) (ht_size h0) (ht_sizemask h0) (ht_used h0 - 1))
        (mk_ht (Some t1) (ht_size h1) (ht_sizemask h1) (ht_used h1 + 1))
  end.

(** [while(n-- && d->ht[0].used != 0)]; [None] in the second component is the
    exit of the loop, [Some r] a [return r] from inside. *)
Fixpoint rehash_loop (n : nat) (d : dict) (empty_visits : Z) : option (dict * option Z) :=
  match n with
  | O => Some (d, None)
  | S n =>
      if ht_used (ht0 d) =? 0 then Some (d, None)
      else if ht_size (ht0 d) <=? u64 (rehashidx d) then None  (* assert *)
      else
        t0 ← ht_table (ht0 d);
        '(ret, idx, empty_visits) ← skip_empty (S (length t0)) t0 (rehashidx d) empty_visits;
        if (ret : bool) then Some (mk_dict (ht0 d) (ht1 d) idx (iterators d), Some 1)
        else
          de ← znth t0 idx;
          '(h0, h1) ← move_chain de (ht0 d) (ht1 d);
          t0 ← zset t0 idx [];
          rehash_loop n
            (mk_dict (mk_ht (Some t0) (ht_size h0) (ht_sizemask h0) (ht_used h0)) h1
               (idx + 1) (iterators d)) empty_visits
  end.

(** [n] is an [int] that is not negative; [n*10] must be an [int] too. *)
Definition dictRehash (d : dict) (n : nat) : option (dict * Z) :=
  let empty_visits := Z.of_nat n * 10 in
  if INT_MAX <? empty_visits then None
  else if negb (dictIsRehashing d) then Some (d, 0)
  else
    '(d, ret) ← rehash_loop n d empty_visits;
    match ret with
    | Some r => Some (d, r)
    | None =>
        if ht_used (ht0 d) =? 0 then
          Some (mk_dict (ht1 d) _dictReset (-1) (iterators d), 0)
        else Some (d, 1)
    end.

Definition _dictRehashStep (d : dict) : option dict :=
  if iterators d =? 0 then '(d, _) ← dictRehash d 1; Some d else Some d.

(** [if (dictIsRehashing(d)) _dictRehashStep(d);] *)
Definition step_if_rehashing (d : dict) : option dict :=
  if dictIsRehashing d then _dictRehashStep d else Some d.

(** [dictRehashMilliseconds]: [expired i] tells whether the clock passed the
    limit at the [i]-th reading; [fuel] bounds the number of slices.  [rehashes]
    is an [int]. *)
Fixpoint dictRehashMilliseconds (fuel : nat) (expired : nat -> bool) (i : nat) (d : dict)
    (rehashes : Z) : option (dict * Z) :=
  match fuel with
  | O => None
  | S fuel =>
      '(d, r) ← dictRehash d 100;
      if r =? 0 then Some (d, rehashes)
      else
        let rehashes := rehashes + 100 in
        if INT_MAX <? rehashes then None
        else if expired i then Some (d, rehashes)
        else dictRehashMilliseconds fuel expired (S i) d rehashes
  end.

(** ** Searching *)

(** [key==he->key || dictCompareKeys(d, key, he->key)] *)
Definition same_key (key : K) (he : dictEntry) : bool :=
  keyPtrEq key (de_key he) || keyCompare key (de_key he).

(** Walk of a chain: the position of the first entry with the key. *)
Fixpoint chain_find (key : K) (b : chain) : option nat :=
  match b with
  | [] => None
  | he :: b => if same_key key he then Some 0%nat else S <$> chain_find key b
  end.

(** A [dictEntry *] inside the dictionary. *)
Definition entry_ref : Type := Z * Z * nat.

(** [for (table = 0; table <= 1; table++) { idx = h & sizemask; ... }]: the
    reference found, and the value of [idx] at the loop's exit. *)
Definition search_table (table : Z) (ht : dictht) (h : Z) (key : K) : option (option entry_ref * Z) :=
  let idx := Z.land h (ht_sizemask ht) in
  t ← ht_table ht;
  b ← znth t idx;
  Some ((fun pos => (table, idx, pos)) <$> chain_find key b, idx).
Definition search_tables (d : dict) (h : Z) (key : K) : option (option entry_ref * Z) :=
  '(r, idx) ← search_table 0 (ht0 d) h key;
  match r with
  | Some r => Some (Some r, idx)
  | None => if negb (dictIsRehashing d) then Some (None, idx)
            else search_table 1 (ht1 d) h key
  end.

(** The entry a reference designates. *)
Definition deref (d : dict) (r : entry_ref) : option dictEntry :=
  let '(table, idx, pos) := r in
  t ← ht_table (get_ht d table);
  b ← znth t idx;
  b !! pos.

(** Change of the entry (or the removal of the entry) a reference designates. *)
Definition update_chain (h : dictht) (idx : Z) (f : chain -> option chain) : option dictht :=
  t ← ht_table h;
  b ← znth t idx;
  b ← f b;
  t ← zset t idx b;
  Some (mk_ht (Some t) (ht_size h) (ht_sizemask h) (ht_used h)).
Definition update_ref (d : dict) (r : entry_ref) (f : nat -> chain -> option chain) : option dict :=
  let '(table, idx, pos) := r in
  h ← update_chain (get_ht d table) idx (f pos);
  Some (set_ht d table h).

(** [dictSetVal(d, entry, val)] *)
Definition dictSetVal (d : dict) (r : entry_ref) (val : V) : option dict :=
  update_ref d r (fun pos b =>
    he ← b !! pos; Some (<[pos := mk_entry (de_key he) (valDup val)]> b)).

(** [index] is -1 when the key exists or the table cannot grow; the last
    component is [*existing]. *)
Definition _dictKeyIndex (d : dict) (key : K) (hash : Z) : option (dict * Z * option entry_ref) :=
  '(d, ret) ← _dictExpandIfNeeded d;
  if ret =? DICT_ERR then Some (d, -1, None)
  else
    '(r, idx) ← search_tables d hash key;
    match r with
    | Some r => Some (d, -1, Some r)
    | None => Some (d, idx, None)
    end.

(** ** Updates *)

(** The entry added (None when the key exists) and [*existing]. *)
Definition dictAddRaw (d : dict) (key : K) : option (dict * option entry_ref * option entry_ref) :=
  d ← step_if_rehashing d;
  '(d, index, existing) ← _dictKeyIndex d key (hashFunction key);
  if index =? -1 then Some (d, None, existing)
  else
    let table := if dictIsRehashing d then 1 else 0 in
    h ← update_chain (get_ht d table) index (fun b => Some (mk_entry (keyDup key) uninit :: b));
    let h := mk_ht (ht_table h) (ht_size h) (ht_sizemask h) (ht_used h + 1) in
    Some (set_ht d table h, Some (table, index, 0%nat), existing).

Definition dictAdd (d : dict) (key : K) (val : V) : option (dict * Z) :=
  '(d, entry, _) ← dictAddRaw d key;
  match entry with
  | None => Some (d, DICT_ERR)
  | Some r => d ← dictSetVal d r val; Some (d, DICT_OK)
  end.

Definition dictReplace (d : dict) (key : K) (val : V) : option (dict * Z) :=
  '(d, entry, existing) ← dictAddRaw d key;
  match entry with
  | Some r => d ← dictSetVal d r val; Some (d, 1)
  | None => r ← existing; d ← dictSetVal d r val; Some (d, 0)
  end.

Definition dictAddOrFind (d : dict) (key : K) : option (dict * option entry_ref) :=
  '(d, entry, existing) ← dictAddRaw d key;
  Some (d, match entry with Some r => Some r | None => existing end).

(** Returns the entry that was unlinked. *)
Definition dictGenericDelete (d : dict) (key : K) : option (dict * option dictEntry) :=
  if (ht_used (ht0 d) =? 0) && (ht_used (ht1 d) =? 0) then Some (d, None)
  else
    d ← step_if_rehashing d;
    '(r, _) ← search_tables d (hashFunction key) key;
    match r with
    | None => Some (d, None)
    | Some r =>
        he ← deref d r;
        d ← update_ref d r (fun pos b => Some (take pos b ++ drop (S pos) b));
        let '(table, _, _) := r in
        let h := get_ht d table in
        let h := mk_ht (ht_table h) (ht_size h) (ht_sizemask h) (ht_used h - 1) in
        Some (set_ht d table h, Some he)
    end.

Definition dictDelete (d : dict) (key : K) : option (dict * Z) :=
  '(d, he) ← dictGenericDelete d key;
  Some (d, match he with Some _ => DICT_OK | None => DICT_ERR end).
Definition dictUnlink (d : dict) (key : K) : option (dict * option dictEntry) :=
  dictGenericDelete d key.

Definition dictFind (d : dict) (key : K) : option (dict * option entry_ref) :=
  if ht_used (ht0 d) + ht_used (ht1 d) =? 0 then Some (d, None)
  else
    d ← step_if_rehashing d;
    '(r, _) ← search_tables d (hashFunction key) key;
    Some (d, r).

Definition dictFetchValue (d : dict) (key : K) : option (dict * option V) :=
  '(d, r) ← dictFind d key;
  match r with
  | None => Some (d, None)
  | Some r => he ← deref d r; Some (d, Some (de_val he))
  end.

(** [_dictClear]: the loop over the buckets stops when [used] reaches 0; the
    first component collects the entries freed. *)
Fixpoint clear_loop (fuel : nat) (t : list chain) (i size used : Z) : option (list dictEntry) :=
  if (i <? size) && (0 <? used) then
    match fuel with
    | O => None
    | S fuel =>
        b ← znth t i;
        rest ← clear_loop fuel t (i + 1) size (used - zlen b);
        Some (b ++ rest)
    end
  else Some [].
Definition _dictClear (h : dictht) : option (list dictEntry * dictht) :=
  match ht_table h with
  | None => if (0 <? ht_size h) && (0 <? ht_used h) then None else Some ([], _dictReset)
  | Some t => freed ← clear_loop (length t) t 0 (ht_size h) (ht_used h); Some (freed, _dictReset)
  end.
Definition dictEmpty (d : dict) : option (list dictEntry * dict) :=
  '(f0, h0) ← _dictClear (ht0 d);
  '(f1, h1) ← _dictClear (ht1 d);
  Some (f0 ++ f1, mk_dict h0 h1 (-1) 0).
End Dict.

Arguments dictEntry : clear implicits.
Arguments dictht : clear implicits.
Arguments dict : clear implicits.

(** ** Invariant and abstraction *)

Section DictSpec.
Context {K V : Type} `{HT : DictType K V, HL : !DictTypeLaws K V}.

Abbreviation entry := (dictEntry K V).
Abbreviation eq_key k e := (keyCompare k (de_key e) = true).

(** No two entries of a multiset have equal keys. *)
Definition uniq (l : list entry) : Prop :=
  forall e1 e2 l', Permutation l (e1 :: e2 :: l') -> keyCompare (de_key e1) (de_key e2) = false.

(** A table of size [2^k] whose entries sit in the bucket of their hash. *)
Definition ht_ok (h : dictht K V) (t : list (list entry)) : Prop :=
  ht_table h = Some t /\
  (exists k, 2 <= k <= 63 /\ ht_size h = 2 ^ k) /\
  zlen t = ht_size h /\
  ht_sizemask h = ht_size h - 1 /\
  ht_used h = zlen (concat t) /\
  (forall i b, t !! i = Some b ->
     Forall (fun e => Z.land (hashFunction (de_key e)) (ht_sizemask h) = Z.of_nat i) b).

Definition tbl (h : dictht K V) : list (list entry) := default [] (ht_table h).
(** All the entries of the dictionary. *)
Definition entries (d : dict K V) : list entry := concat (tbl (ht0 d)) ++ concat (tbl (ht1 d)).

(** The buckets below [r] have been moved. *)
Definition moved (t : list (list entry)) (r : Z) : Prop :=
  forall i b, t !! i = Some b -> Z.of_nat i < r -> b = [].
Definition rehashing_ok (d : dict K V) : Prop :=
  exists t0 t1, ht_ok (ht0 d) t0 /\ ht_ok (ht1 d) t1 /\
    ht_size (ht0 d) <> ht_size (ht1 d) /\
    0 <= rehashidx d /\ moved t0 (rehashidx d).
Definition stable_ok (d : dict K V) : Prop :=
  rehashidx d = -1 /\ (ht0 d = _dictReset \/ exists t, ht_ok (ht0 d) t) /\ ht1 d = _dictReset.

Definition max_entries : Z := 2 ^ 61.
(** Below this many entries the size of the next table, in bytes, does not wrap. *)
Definition grow_limit : Z := 2 ^ 59.
Definition wf (d : dict K V) : Prop :=
  (rehashing_ok d \/ stable_ok d) /\ uniq (entries d) /\ zlen (entries d) < max_entries.

(** The finite map a dictionary stands for. *)
Definition assoc (l : list entry) (k : K) : option V :=
  de_val <$> List.find (fun e => keyCompare k (de_key e)) l.
Definition dmap (d : dict K V) : K -> option V := assoc (entries d).

(** *** Multisets of entries with distinct keys *)

#[global] Instance uniq_proper : Proper (Permutation ==> iff) uniq.
Proof.
  intros l k Hlk. unfold uniq.
  split; intros Hu e1 e2 l' Hp; apply (Hu e1 e2 l'); rewrite <- Hp; by rewrite Hlk.
Qed.

Lemma cmp_sym_false a b : keyCompare a b = false -> keyCompare b a = false.
Proof.
  intros Hab. destruct (keyCompare b a) eqn:E; [|done]. apply cmp_sym in E. congruence.
Qed.

Lemma cmp_false_l a b c :
  keyCompare a b = true -> keyCompare a c = false -> keyCompare b c = false.
Proof.
  intros Hab Hac. destruct (keyCompare b c) eqn:E; [|done].
  rewrite (cmp_trans _ _ _ Hab E) in Hac. done.
Qed.

Lemma uniq_cons e l :
  uniq (e :: l) <-> uniq l /\ Forall (fun e' => keyCompare (de_key e) (de_key e') = false) l.
Proof.
  split.
  - intros Hu. split.
    + intros e1 e2 l' Hp. apply (Hu e1 e2 (e :: l')). rewrite Hp. solve_Permutation.
    + apply list.Forall_forall. intros e' [l' Hl']%elem_of_Permutation.
      apply (Hu e e' l'). by rewrite Hl'.
  - intros [Hu Hf] e1 e2 l' Hp. rewrite list.Forall_forall in Hf.
    assert (e ∈ e1 :: e2 :: l') as Hin by (rewrite <- Hp; left).
    apply elem_of_cons in Hin as [->|[->|[l'' Hl'']%elem_of_Permutation]%elem_of_cons].
    + apply Permutation_cons_inv in Hp. apply Hf. rewrite Hp. left.
    + rewrite Permutation_swap in Hp. apply Permutation_cons_inv in Hp.
      apply cmp_sym_false, Hf. rewrite Hp. left.
    + apply (Hu e1 e2 l''). apply (Permutation_cons_inv (a:=e)).
      rewrite Hp, Hl''. solve_Permutation.
Qed.

Lemma uniq_nil : uniq [].
Proof. intros e1 e2 l' Hp%Permutation_nil_l. done. Qed.

Lemma find_none (l : list entry) k :
  assoc l k = None <-> Forall (fun e => keyCompare k (de_key e) = false) l.
Proof.
  unfold assoc. induction l as [|e l IH]; simpl; [done|].
  rewrite list.Forall_cons. destruct (keyCompare k (de_key e)); simpl; intuition congruence.
Qed.

Lemma assoc_cons e l k :
  assoc (e :: l) k = if keyCompare k (de_key e) then Some (de_val e) else assoc l k.
Proof. unfold assoc. simpl. by destruct (keyCompare k (de_key e)). Qed.

(** In a multiset with distinct keys the order is irrelevant. *)
Lemma assoc_elem l k e :
  uniq l -> e ∈ l -> eq_key k e -> assoc l k = Some (de_val e).
Proof.
  induction l as [|e' l IH]; intros Hu Hin Hk; [by apply not_elem_of_nil in Hin|].
  apply uniq_cons in Hu as [Hu Hf]. rewrite assoc_cons.
  apply elem_of_cons in Hin as [->|Hin]; [by rewrite Hk|].
  destruct (keyCompare k (de_key e')) eqn:E; [|by apply IH].
  rewrite list.Forall_forall in Hf. specialize (Hf e Hin).
  rewrite (cmp_trans _ _ _ (cmp_sym _ _ E) Hk) in Hf. done.
Qed.

Lemma assoc_Some l k v :
  assoc l k = Some v -> exists e, e ∈ l /\ eq_key k e /\ de_val e = v.
Proof.
  unfold assoc. intros (e & Hf & ->)%fmap_Some.
  apply List.find_some in Hf as [Hin Hk]. exists e. split; [|done]. by apply list_elem_of_In.
Qed.

Lemma assoc_perm l l' k : uniq l -> Permutation l l' -> assoc l k = assoc l' k.
Proof.
  intros Hu Hp. destruct (assoc l k) as [v|] eqn:E.
  - apply assoc_Some in E as (e & Hin & Hk & <-). symmetry. apply assoc_elem; [| |done].
    + by rewrite <- Hp.
    + by rewrite <- Hp.
  - apply find_none in E. symmetry. apply find_none. by rewrite <- Hp.
Qed.

Lemma assoc_compat l a b : keyCompare a b = true -> assoc l a = assoc l b.
Proof.
  intros Hab. induction l as [|e l IH]; [done|]. rewrite !assoc_cons, IH.
  destruct (keyCompare a (de_key e)) eqn:Ea, (keyCompare b (de_key e)) eqn:Eb; try done.
  - apply cmp_sym in Hab. rewrite (cmp_trans _ _ _ Hab Ea) in Eb. done.
  - rewrite (cmp_trans _ _ _ Hab Eb) in Ea. done.
Qed.

(** *** Tables *)

Lemma land_mask h k : 0 <= k -> Z.land h (2 ^ k - 1) = h mod 2 ^ k.
Proof. intros. rewrite Z.sub_1_r, <- Z.ones_equiv. by apply Z.land_ones. Qed.

Lemma ht_ok_idx h t k :
  ht_ok h t -> 0 <= Z.land (hashFunction k) (ht_sizemask h) < zlen t.
Proof.
  intros (_ & (n & Hn & Hs) & Hl & Hm & _). rewrite Hm, Hl, Hs, land_mask by lia.
  apply Z.mod_pos_bound. lia.
Qed.

Lemma ht_ok_tbl h t : ht_ok h t -> tbl h = t.
Proof. intros [Ht _]. unfold tbl. by rewrite Ht. Qed.

Lemma ht_ok_used h t : ht_ok h t -> ht_used h = zlen (concat t).
Proof. by intros (_ & _ & _ & _ & Hu & _). Qed.

(** Replacing the chain of a bucket. *)
Lemma ht_ok_update h t i b b' n :
  ht_ok h t -> t !! i = Some b ->
  Forall (fun e => Z.land (hashFunction (de_key e)) (ht_sizemask h) = Z.of_nat i) b' ->
  n = ht_used h + zlen b' - zlen b ->
  ht_ok (mk_ht (Some (<[i := b']> t)) (ht_size h) (ht_sizemask h) n) (<[i := b']> t).
Proof.
  intros (Ht & Hk & Hl & Hm & Hu & Hp) Hi Hb' ->.
  pose proof (zlen_perm _ _ (concat_insert_nil _ _ _ Hi)) as H1.
  pose proof (zlen_perm _ _ (concat_insert _ _ _ b' Hi)) as H2. rewrite zlen_app in H1, H2.
  split_and!; cbn [ht_table ht_size ht_sizemask ht_used]; try done.
  - by rewrite zlen_insert.
  - lia.
  - intros j c Hj. destruct (decide (i = j)) as [->|Hij].
    + rewrite list_lookup_insert_eq in Hj by (by eapply lookup_lt_Some). by simplify_eq.
    + rewrite list_lookup_insert_ne in Hj by done. by apply Hp.
Qed.

(** An entry with an equal key can only be in the bucket of the hash. *)
Lemma ht_ok_bucket h t k e :
  ht_ok h t -> e ∈ concat t -> eq_key k e ->
  exists b, t !! Z.to_nat (Z.land (hashFunction k) (ht_sizemask h)) = Some b /\ e ∈ b.
Proof.
  intros (_ & _ & _ & _ & _ & Hp) (i & b & Hi & Hin)%elem_of_concat Hk.
  exists b. split; [|done]. specialize (Hp i b Hi). rewrite list.Forall_forall in Hp.
  rewrite (cmp_hash _ _ Hk), Hp by done. by rewrite Nat2Z.id.
Qed.

(** *** Rehashing *)

Lemma move_chain_ok (b : list entry) h0 h1 t1 :
  ht_ok h1 t1 ->
  exists h1' t1',
    move_chain b h0 h1 =
      Some (mk_ht (ht_table h0) (ht_size h0) (ht_sizemask h0) (ht_used h0 - zlen b), h1') /\
    ht_ok h1' t1' /\ ht_size h1' = ht_size h1 /\ Permutation (concat t1') (b ++ concat t1).
Proof.
  revert h0 h1 t1. induction b as [|e b IH]; intros h0 h1 t1 Hok; simpl.
  - exists h1, t1. split_and!; try done. rewrite Z.sub_0_r. by destruct h0.
  - pose proof (ht_ok_idx h1 t1 (de_key e) Hok) as Hidx.
    set (i := Z.land (hashFunction (de_key e)) (ht_sizemask h1)) in *.
    rewrite (proj1 Hok). cbn [mbind option_bind].
    destruct (znth_is_Some t1 i Hidx) as [c Hc]. rewrite Hc. cbn [mbind option_bind].
    rewrite zset_Some by done. cbn [mbind option_bind].
    rewrite znth_nat in Hc by lia.
    destruct (IH (mk_ht (ht_table h0) (ht_size h0) (ht_sizemask h0) (ht_used h0 - 1))
      (mk_ht (Some (<[Z.to_nat i := e :: c]> t1)) (ht_size h1) (ht_sizemask h1) (ht_used h1 + 1))
      (<[Z.to_nat i := e :: c]> t1)) as (h1' & t1' & -> & Hok' & Hs & Hp).
    { eapply ht_ok_update; [done|done| |zlens; lia].
      constructor; [unfold i in *; lia|]. by apply Hok. }
    exists h1', t1'. split_and!; [|done|done|].
    + cbn [ht_table ht_size ht_sizemask ht_used]. do 3 f_equal. zlens. lia.
    + rewrite Hp, (concat_insert _ _ _ _ Hc), (concat_insert_nil _ _ _ Hc).
      solve_Permutation.
Qed.

(** The scan for a non-empty bucket stays inside the table as long as there is
    one, and only passes over empty buckets. *)
Lemma skip_empty_ok fuel (t : list (list entry)) idx ev j b :
  0 <= idx <= Z.of_nat j -> t !! j = Some b -> b <> [] -> (j < Z.to_nat idx + fuel)%nat ->
  exists ret idx' ev', skip_empty fuel t idx ev = Some (ret, idx', ev') /\
    idx <= idx' <= Z.of_nat j /\ ev' = ev - (idx' - idx) /\ (ret = true -> ev' = 0) /\
    (forall i c, t !! i = Some c -> idx <= Z.of_nat i < idx' -> c = []) /\
    (ret = false -> exists c, t !! Z.to_nat idx' = Some c /\ c <> []).
Proof.
  revert idx ev. induction fuel as [|fuel IH]; intros idx ev Hidx Hj Hb Hf; [lia|].
  simpl. rewrite znth_nat by lia.
  destruct (lookup_lt_is_Some_2 t (Z.to_nat idx)) as [c Hc].
  { apply lookup_lt_Some in Hj. lia. }
  rewrite Hc. cbn [mbind option_bind]. destruct c as [|e c].
  2: { exists false, idx, ev. split_and!; try done; try lia; eauto. }
  assert (idx <> Z.of_nat j) by (intros ->; rewrite Nat2Z.id in Hc; congruence).
  assert (Hemp : forall i c, t !! i = Some c -> idx <= Z.of_nat i < idx + 1 -> c = []).
  { intros i c' Hi ?. assert (i = Z.to_nat idx) as -> by lia. congruence. }
  destruct (Z.eqb_spec (ev - 1) 0).
  - exists true, (idx + 1), (ev - 1). split_and!; try done; try lia.
  - destruct (IH (idx + 1) (ev - 1)) as (ret & idx' & ev' & -> & ? & ? & ? & He & Hn); [lia|done|done|lia|].
    exists ret, idx', ev'. split_and!; try done; try lia.
    intros i c' Hi ?. destruct (decide (Z.of_nat i < idx + 1)); [eapply Hemp|eapply He]; eauto; lia.
Qed.

(** Entries left in the old table are at or above [rehashidx]. *)
Lemma nonempty_bucket (t : list (list entry)) :
  concat t <> [] -> exists j b, t !! j = Some b /\ b <> [].
Proof.
  intros Hne. destruct (concat t) as [|e l] eqn:E; [done|].
  assert (e ∈ concat t) as (i & b & Hi & Hin)%elem_of_concat by (rewrite E; left).
  exists i, b. split; [done|]. intros ->. by apply elem_of_nil in Hin.
Qed.

Lemma moved_skip t r r' :
  moved t r -> (forall i c, t !! i = Some c -> r <= Z.of_nat i < r' -> c = []) -> moved t r'.
Proof.
  intros Hm He i c Hi Hlt. destruct (Z.lt_ge_cases (Z.of_nat i) r).
  - by eapply Hm.
  - eapply He; [done|lia].
Qed.

Lemma moved_clear t r : 0 <= r < zlen t -> moved t r -> moved (<[Z.to_nat r := []]> t) (r + 1).
Proof.
  intros Hr Hm i c Hi Hlt. unfold zlen in Hr. destruct (decide (i = Z.to_nat r)) as [->|Hne].
  - rewrite list_lookup_insert_eq in Hi by lia. by simplify_eq.
  - rewrite list_lookup_insert_ne in Hi by done. eapply Hm; [done|lia].
Qed.

(** Entries left in the old table are at or above [rehashidx]; in particular
    the assertion of [dictRehash] holds. *)
Lemma rehash_pos h t r :
  ht_ok h t -> 0 <= r -> moved t r -> ht_used h <> 0 ->
  exists j b, t !! j = Some b /\ b <> [] /\ r <= Z.of_nat j < ht_size h /\ ht_size h <= 2 ^ 63.
Proof.
  intros (Ht & (k & Hk & Hs) & Hl & Hm & Hus & Hpl) Hr Hmoved Hu.
  destruct (nonempty_bucket t) as (j & b & Hj & Hb).
  { intros Hc. rewrite Hus, Hc, zlen_nil in Hu. done. }
  exists j, b. rewrite <- Hl. split_and!; try done.
  - destruct (Z.le_gt_cases r (Z.of_nat j)); [done|]. exfalso. by eapply Hb, Hmoved.
  - by eapply lookup_zlen.
  - rewrite Hl, Hs. apply Z.pow_le_mono_r; lia.
Qed.

(** Moving one bucket. *)
Lemma rehash_move d t0 t1 idx c :
  ht_ok (ht0 d) t0 -> ht_ok (ht1 d) t1 -> ht_size (ht0 d) <> ht_size (ht1 d) ->
  0 <= idx -> moved t0 idx -> t0 !! Z.to_nat idx = Some c ->
  exists h0' h1' t0', move_chain c (ht0 d) (ht1 d) = Some (h0', h1') /\
    zset t0 idx [] = Some t0' /\
    let d' := mk_dict (mk_ht (Some t0') (ht_size h0') (ht_sizemask h0') (ht_used h0')) h1'
                (idx + 1) (iterators d) in
    rehashing_ok d' /\ Permutation (entries d') (entries d) /\ ht_size (ht0 d') = ht_size (ht0 d).
Proof.
  intros H0 H1 Hne Hidx Hm Hc.
  destruct (move_chain_ok c (ht0 d) (ht1 d) t1 H1) as (h1' & t1' & Hmv & H1' & Hs1 & Hp).
  rewrite Hmv. eexists _, h1', _. split; [done|].
  pose proof (lookup_zlen _ _ _ Hc).
  split; [apply zset_Some; lia|]. cbn [ht_size ht_sizemask ht_used]. split_and!.
  - exists (<[Z.to_nat idx := []]> t0), t1'. split_and!; simpl; try done; [|congruence|lia|].
    + eapply ht_ok_update; [done|done|done|zlens; lia].
    + apply moved_clear; [lia|done].
  - unfold entries. simpl. rewrite (ht_ok_tbl _ _ H0), (ht_ok_tbl _ _ H1), (ht_ok_tbl _ _ H1').
    unfold tbl. simpl. rewrite Hp, (concat_insert_nil _ _ _ Hc). solve_Permutation.
  - done.
Qed.

Lemma rehash_loop_ok n (d : dict K V) ev :
  rehashing_ok d ->
  exists d' r, rehash_loop n d ev = Some (d', r) /\
    rehashing_ok d' /\ Permutation (entries d') (entries d) /\ iterators d' = iterators d /\
    (r = None \/ r = Some 1 /\ ht_used (ht0 d') <> 0) /\
    ht_size (ht0 d') = ht_size (ht0 d) /\ rehashidx d <= rehashidx d' /\
    (ht_used (ht0 d') <> 0 -> Z.min (Z.of_nat n) ev <= rehashidx d' - rehashidx d).
Proof.
  revert d ev. induction n as [|n IH]; intros d ev Hd.
  { exists d, None. split_and!; auto; lia. }
  cbn [rehash_loop]. destruct (Z.eqb_spec (ht_used (ht0 d)) 0) as [Hu|Hu].
  { exists d, None. split_and!; auto; lia. }
  pose proof Hd as (t0 & t1 & H0 & H1 & Hne & Hr0 & Hmoved).
  destruct (rehash_pos _ _ _ H0 Hr0 Hmoved Hu) as (j & b & Hj & Hb & Hrj & Hsz).
  unfold u64. rewrite wrap_id by (unfold in_u; pow2s; lia).
  rewrite (proj2 (Z.leb_gt _ _)) by lia. rewrite (proj1 H0). cbn [mbind option_bind].
  destruct (skip_empty_ok (S (length t0)) t0 (rehashidx d) ev j b)
    as (ret & idx' & ev' & -> & Hidx' & Hev & Hret & Hemp & Hbk); [lia|done|done| |].
  { apply lookup_lt_Some in Hj. lia. }
  pose proof (moved_skip _ _ _ Hmoved Hemp) as Hmoved'.
  cbn [mbind option_bind]. destruct ret.
  - exists (mk_dict (ht0 d) (ht1 d) idx' (iterators d)), (Some 1).
    specialize (Hret eq_refl). split_and!; simpl; try done; try (right; done); [|lia|lia].
    exists t0, t1. split_and!; simpl; try done. lia.
  - destruct Hbk as (c & Hc & Hcne); [done|].
    rewrite znth_nat, Hc by lia. cbn [mbind option_bind].
    destruct (rehash_move d t0 t1 idx' c) as (h0' & h1' & t0' & -> & Hz & Hd2 & Hp2 & Hs2);
      try done; [lia|].
    cbn [mbind option_bind]. rewrite Hz. cbn [mbind option_bind].
    destruct (IH _ ev' Hd2) as (d' & r & -> & Hok & Hperm & Hit & Hr & Hsz' & Hle & Hadv).
    simpl in Hle, Hadv, Hsz', Hs2. exists d', r. split_and!; try done; try lia. by rewrite Hperm.
Qed.

(** *** Well-formed dictionaries *)

Lemma wf_perm d d' :
  wf d -> (rehashing_ok d' \/ stable_ok d') -> Permutation (entries d') (entries d) -> wf d'.
Proof.
  intros (_ & Hu & Hn) Hd Hp. split_and!; [done|by rewrite Hp|]. by rewrite (zlen_perm _ _ Hp).
Qed.

Lemma dmap_perm d d' k : wf d -> Permutation (entries d') (entries d) -> dmap d' k = dmap d k.
Proof. intros (_ & Hu & _) Hp. symmetry. by apply assoc_perm. Qed.

Lemma rehashing_flag d : rehashing_ok d -> dictIsRehashing d = true.
Proof. intros (t0 & t1 & _ & _ & _ & Hr & _). unfold dictIsRehashing. by zb_true. Qed.

Lemma stable_flag d : stable_ok d -> dictIsRehashing d = false.
Proof. intros [Hr _]. unfold dictIsRehashing. by rewrite Hr. Qed.

Lemma wf_rehashing d : wf d -> dictIsRehashing d = true -> rehashing_ok d.
Proof. intros [[?|?%stable_flag] _] ?; [done|congruence]. Qed.

Lemma wf_stable d : wf d -> dictIsRehashing d = false -> stable_ok d.
Proof. intros [[?%rehashing_flag|?] _] ?; [congruence|done]. Qed.

Lemma dictRehash_ok n d :
  wf d -> Z.of_nat n * 10 <= INT_MAX ->
  exists d' r, dictRehash d n = Some (d', r) /\
    wf d' /\ Permutation (entries d') (entries d) /\ iterators d' = iterators d /\
    r = (if dictIsRehashing d' then 1 else 0) /\
    (dictIsRehashing d' = true -> dictIsRehashing d = true /\ ht_used (ht0 d') <> 0 /\
       ht_size (ht0 d') = ht_size (ht0 d) /\ rehashidx d + Z.of_nat n <= rehashidx d').
Proof.
  intros Hwf Hn. unfold dictRehash. rewrite (proj2 (Z.ltb_ge _ _) Hn).
  destruct (dictIsRehashing d) eqn:Hre; cbn [negb].
  2: { exists d, 0. rewrite Hre. by split_and!. }
  pose proof (wf_rehashing _ Hwf Hre) as Hd.
  destruct (rehash_loop_ok n d (Z.of_nat n * 10) Hd)
    as (d' & r & -> & Hd' & Hp & Hit & Hr & Hs & _ & Hadv).
  pose proof (rehashing_flag _ Hd') as Hre'.
  cbn [mbind option_bind]. destruct Hr as [->|[-> Hu]].
  2: { exists d', 1. rewrite Hre'. split_and!; auto; [by eapply wf_perm; [|left|]|lia]. }
  destruct (Z.eqb_spec (ht_used (ht0 d')) 0) as [Hu|Hu].
  - eexists _, 0. split; [done|]. unfold dictIsRehashing at 1 2. cbn [rehashidx].
    pose proof Hd' as (t0 & t1 & H0 & H1 & _).
    assert (Permutation (entries (mk_dict (ht1 d') _dictReset (-1) (iterators d'))) (entries d)) as Hp'.
    { rewrite <- Hp. unfold entries. simpl.
      rewrite (ht_ok_tbl _ _ H0), app_nil_r.
      rewrite (ht_ok_used _ _ H0) in Hu. by rewrite (zlen_0_inv _ Hu). }
    split_and!; try done. eapply wf_perm; [done| |done].
    right. split_and!; simpl; eauto.
  - exists d', 1. rewrite Hre'. split_and!; auto; [by eapply wf_perm; [|left|]|lia].
Qed.

(** *** Growing *)

Lemma next_power_ok fuel j size :
  2 <= j <= 63 -> size <= 2 ^ 63 -> (64 - Z.to_nat j <= fuel)%nat ->
  exists k, next_power fuel (2 ^ j) size = Some (2 ^ k) /\ j <= k <= 63 /\ size <= 2 ^ k /\
    (k = j \/ 2 ^ (k - 1) < size).
Proof.
  revert j. induction fuel as [|fuel IH]; intros j Hj Hs Hf; [lia|].
  cbn [next_power]. destruct (Z.leb_spec size (2 ^ j)).
  - exists j. split_and!; auto; lia.
  - assert (j <> 63) by (intros ->; lia).
    assert (2 ^ j * 2 = 2 ^ (j + 1)) as Hpow by (rewrite Z.pow_add_r; lia).
    assert (2 ^ (j + 1) <= 2 ^ 63) by (apply Z.pow_le_mono_r; lia).
    assert (0 < 2 ^ (j + 1)) by lia.
    unfold u64. rewrite Hpow, wrap_id by (unfold in_u; pow2s; lia).
    destruct (IH (j + 1)) as (k & Hk & Hjk & Hsk & Hor); [lia|done|lia|].
    exists k. split_and!; try done; try lia. right. destruct Hor as [->|]; [|done].
    by replace (j + 1 - 1) with j by lia.
Qed.

Lemma _dictNextPower_ok size :
  size <= 2 ^ 63 ->
  exists k, _dictNextPower size = Some (2 ^ k) /\ 2 <= k <= 63 /\ size <= 2 ^ k /\
    (k = 2 \/ 2 ^ (k - 1) < size).
Proof.
  intros Hs. unfold _dictNextPower. destruct (Z.leb_spec LONG_MAX size) as [Hm|Hm].
  - exists 63. unfold LONG_MAX in *. split_and!; try done. right. pow2s. lia.
  - change DICT_HT_INITIAL_SIZE with (2 ^ 2). apply next_power_ok; [lia|done|].
    vm_compute. lia.
Qed.

Lemma concat_replicate_nil {A} n : concat (replicate n (@nil A)) = [].
Proof. by induction n. Qed.

Lemma new_table_ok k :
  2 <= k <= 63 ->
  ht_ok (mk_ht (Some (replicate (Z.to_nat (2 ^ k)) [])) (2 ^ k) (2 ^ k - 1) 0)
    (replicate (Z.to_nat (2 ^ k)) []).
Proof.
  intros Hk. split_and!; cbn [ht_table ht_size ht_sizemask ht_used]; eauto.
  - rewrite zlen_replicate. lia.
  - by rewrite concat_replicate_nil.
  - intros i b [-> _]%lookup_replicate. constructor.
Qed.

Lemma used_entries d : wf d -> ht_used (ht0 d) + ht_used (ht1 d) = zlen (entries d).
Proof.
  intros [[(t0 & t1 & H0 & H1 & _)|(_ & [H0|[t0 H0]] & H1)] _]; unfold entries; rewrite zlen_app.
  - by rewrite (ht_ok_tbl _ _ H0), (ht_ok_tbl _ _ H1), (ht_ok_used _ _ H0), (ht_ok_used _ _ H1).
  - by rewrite H0, H1.
  - by rewrite (ht_ok_tbl _ _ H0), H1, (ht_ok_used _ _ H0).
Qed.

(** The buckets that are allocated for [2^k]: all of them, or none. *)
Lemma buckets_fit k : 2 <= k <= 60 -> u64 (2 ^ k * 8) / 8 = 2 ^ k.
Proof.
  intros Hk. assert (2 ^ k <= 2 ^ 60) by (apply Z.pow_le_mono_r; lia).
  assert (0 < 2 ^ k) by (apply Z.pow_pos_nonneg; lia).
  unfold u64. rewrite wrap_id by (unfold in_u; pow2s; lia). by rewrite Z.div_mul.
Qed.
Lemma buckets_wrap k : 61 <= k -> u64 (2 ^ k * 8) / 8 = 0.
Proof.
  intros Hk. unfold u64, wrap. change 8 with (2 ^ 3) at 1. rewrite <- Z.pow_add_r by lia.
  replace (k + 3) with ((k - 61) + 64) by lia. rewrite Z.pow_add_r by lia.
  by rewrite Z.mod_mul.
Qed.

(** [dictExpand] never changes the contents; it fails exactly when a rehash is
    in progress, the size is too small or the table already has it. *)
Lemma dictExpand_ok d size :
  wf d -> 0 <= size <= 2 ^ 60 ->
  exists d' r k, dictExpand d size = Some (d', r) /\ wf d' /\ entries d' = entries d /\
    iterators d' = iterators d /\ 2 <= k /\ size <= 2 ^ k /\ (k = 2 \/ 2 ^ (k - 1) < size) /\
    (r = DICT_ERR /\ d' = d /\
       (dictIsRehashing d = true \/ size < ht_used (ht0 d) \/ ht_size (ht0 d) = 2 ^ k) \/
     r = DICT_OK /\ dictIsRehashing d = false /\ ht_size (ht0 d) <> 2 ^ k /\
       (exists t, ht_ok (ht0 d') t) /\
       (if ht_table (ht0 d) is Some _ then ht0 d' = ht0 d /\ dictIsRehashing d' = true /\ ht_size (ht1 d') = 2 ^ k
        else dictIsRehashing d' = false /\ ht_size (ht0 d') = 2 ^ k)).
Proof.
  intros Hwf Hs. destruct (_dictNextPower_ok size) as (k & Hk & Hk2 & Hsk & Hmin); [pow2s; lia|].
  assert (k <= 60) as Hk60.
  { destruct Hmin as [->|Hmin]; [done|]. assert (k - 1 < 60) by (apply (Z.pow_lt_mono_r_iff 2); lia). lia. }
  unfold dictExpand. destruct (dictIsRehashing d) eqn:Hre; cbn [orb].
  { exists d, DICT_ERR, k. split_and!; try done; try lia. left. auto. }
  destruct (Z.ltb_spec size (ht_used (ht0 d))).
  { exists d, DICT_ERR, k. split_and!; try done; try lia. left. auto. }
  rewrite Hk. cbn [mbind option_bind]. rewrite buckets_fit by lia. destruct (Z.eqb_spec (2 ^ k) (ht_size (ht0 d))).
  { exists d, DICT_ERR, k. split_and!; try done; try lia. left. auto. }
  pose proof (wf_stable _ Hwf Hre) as (Hr & H0 & H1).
  pose proof (new_table_ok k Hk2) as Hn.
  destruct (ht_table (ht0 d)) eqn:Ht.
  - destruct H0 as [H0|[t H0]]; [by rewrite H0 in Ht|].
    eexists _, DICT_OK, k. split; [done|].
    assert (entries (mk_dict (ht0 d) (mk_ht (Some (replicate (Z.to_nat (2 ^ k)) [])) (2 ^ k)
      (2 ^ k - 1) 0) 0 (iterators d)) = entries d) as He.
    { unfold entries. simpl. unfold tbl at 2. simpl. by rewrite concat_replicate_nil, H1. }
    split_and!; try done; try lia; [|right; split_and!; eauto].
    eapply wf_perm; [done| |by rewrite He]. left. exists t, (replicate (Z.to_nat (2 ^ k)) []).
    split_and!; simpl; try done. intros i b _ ?. lia.
  - destruct H0 as [H0|[t H0]]; [|by rewrite (proj1 H0) in Ht].
    eexists _, DICT_OK, k. split; [done|].
    assert (entries (set_ht d 0 (mk_ht (Some (replicate (Z.to_nat (2 ^ k)) [])) (2 ^ k)
      (2 ^ k - 1) 0)) = entries d) as He.
    { unfold entries. simpl. unfold tbl at 1. simpl. by rewrite concat_replicate_nil, H0, H1. }
    split_and!; try done; try lia.
    + eapply wf_perm; [done| |by rewrite He]. right. split_and!; simpl; eauto.
    + right. split_and!; eauto.
Qed.

(** The table can always grow: the failure path of [_dictKeyIndex] is dead. *)
Lemma _dictExpandIfNeeded_ok can_resize d :
  wf d -> zlen (entries d) < grow_limit ->
  exists d', _dictExpandIfNeeded can_resize d = Some (d', DICT_OK) /\
    wf d' /\ entries d' = entries d /\ iterators d' = iterators d /\
    (exists t, ht_ok (ht0 d') t) /\
    (dictIsRehashing d' = dictIsRehashing d \/ dictIsRehashing d' = true).
Proof.
  intros Hwf Hmax. pose proof (used_entries _ Hwf) as Hu.
  unfold grow_limit in Hmax. unfold _dictExpandIfNeeded.
  destruct (dictIsRehashing d) eqn:Hre.
  { exists d. pose proof (wf_rehashing _ Hwf Hre) as (t0 & t1 & H0 & _). split_and!; eauto. }
  pose proof (wf_stable _ Hwf Hre) as (Hr & H0 & H1).
  rewrite H1 in Hu. simpl in Hu.
  destruct H0 as [H0|[t H0]].
  - rewrite H0 in *. simpl.
    destruct (dictExpand_ok d DICT_HT_INITIAL_SIZE Hwf) as
      (d' & r & k & -> & Hwf' & He & Hit & Hk & _ & _ & [(_ & _ & [Hx|[Hx|Hx]])|Hx]); [done|congruence| | |].
    + rewrite H0 in Hx. done.
    + rewrite H0 in Hx. simpl in Hx. lia.
    + destruct Hx as (-> & _ & _ & Ht & Hif). rewrite H0 in Hif. simpl in Hif.
      exists d'. split_and!; try done. left. apply Hif.
  - pose proof H0 as (Ht & (k0 & Hk0 & Hs) & Hl & Hm & Hus & _).
    assert (0 < 2 ^ k0) by lia. pose proof (zlen_nonneg (concat t)).
    rewrite (proj2 (Z.eqb_neq _ _)) by lia.
    destruct (Z.leb_spec (ht_size (ht0 d)) (ht_used (ht0 d))); cbn [andb].
    2: { exists d. split_and!; eauto. }
    destruct (can_resize || _).
    2: { exists d. split_and!; eauto. }
    unfold u64. rewrite wrap_id by (unfold in_u; pow2s; lia).
    destruct (dictExpand_ok d (ht_used (ht0 d) * 2) Hwf) as
      (d' & r & k & -> & Hwf' & He & Hit & Hk & Hle & _ & [(_ & _ & [Hx|[Hx|Hx]])|Hx]);
      [pow2s; lia|congruence|lia|lia|].
    destruct Hx as (-> & _ & _ & Ht' & Hif). rewrite Ht in Hif.
    exists d'. split_and!; try done. right. apply Hif.
Qed.

(** *** Searching *)

Lemma same_key_cmp k (e : entry) : same_key k e = keyCompare k (de_key e).
Proof.
  unfold same_key. destruct (keyPtrEq k (de_key e)) eqn:E; [|done].
  by rewrite (ptr_cmp _ _ E).
Qed.

Lemma chain_find_ok k (b : list entry) :
  match chain_find k b with
  | Some pos => exists e, b !! pos = Some e /\ eq_key k e
  | None => Forall (fun e => keyCompare k (de_key e) = false) b
  end.
Proof.
  induction b as [|e b IH]; simpl; [done|]. rewrite same_key_cmp.
  destruct (keyCompare k (de_key e)) eqn:E; [by exists e|].
  destruct (chain_find k b); simpl; [done|]. by constructor.
Qed.

Lemma search_table_ok table h t k :
  ht_ok h t ->
  exists r, search_table table h (hashFunction k) k =
      Some (r, Z.land (hashFunction k) (ht_sizemask h)) /\
    match r with
    | Some (table', idx, pos) => table' = table /\ 0 <= idx /\
        exists b e, t !! Z.to_nat idx = Some b /\ b !! pos = Some e /\ eq_key k e
    | None => Forall (fun e => keyCompare k (de_key e) = false) (concat t)
    end.
Proof.
  intros Hok. pose proof (ht_ok_idx h t k Hok) as Hidx. unfold search_table.
  set (i := Z.land _ _) in *. rewrite (proj1 Hok). cbn [mbind option_bind].
  destruct (znth_is_Some t i Hidx) as [b Hb]. rewrite Hb. cbn [mbind option_bind].
  rewrite znth_nat in Hb by lia. eexists. split; [done|].
  pose proof (chain_find_ok k b) as Hf. destruct (chain_find k b) as [pos|]; simpl.
  - destruct Hf as (e & He & Hk). split_and!; try done; [lia|]. by exists b, e.
  - apply list.Forall_forall. intros e Hin.
    destruct (keyCompare k (de_key e)) eqn:E; [|done].
    destruct (ht_ok_bucket h t k e Hok Hin E) as (b' & Hb' & Hin').
    fold i in Hb'. assert (b' = b) as -> by congruence.
    rewrite list.Forall_forall in Hf. rewrite <- E. by apply Hf.
Qed.

(** The structural part of the invariant. *)
Definition ok (d : dict K V) : Prop := rehashing_ok d \/ stable_ok d.

Lemma ok_ht d table t :
  ok d -> ht_table (get_ht d table) = Some t -> ht_ok (get_ht d table) t.
Proof.
  unfold get_ht. intros [(t0 & t1 & H0 & H1 & _)|(_ & [H0|[t0 H0]] & H1)] Ht;
    destruct (table =? 0).
  - by rewrite (proj1 H0) in Ht; simplify_eq.
  - by rewrite (proj1 H1) in Ht; simplify_eq.
  - by rewrite H0 in Ht.
  - by rewrite H1 in Ht.
  - by rewrite (proj1 H0) in Ht; simplify_eq.
  - by rewrite H1 in Ht.
Qed.

(** What a reference designates. *)
Lemma deref_ok d table idx pos e :
  ok d -> deref d (table, idx, pos) = Some e ->
  exists t b, ht_ok (get_ht d table) t /\ 0 <= idx /\ t !! Z.to_nat idx = Some b /\ b !! pos = Some e.
Proof.
  intros Hok. unfold deref. destruct (ht_table (get_ht d table)) as [t|] eqn:Ht; [|done].
  cbn [mbind option_bind]. destruct (znth t idx) as [b|] eqn:Hb; [|done].
  cbn [mbind option_bind]. intros He. exists t, b. pose proof (znth_range _ _ _ Hb).
  rewrite znth_nat in Hb by lia. split_and!; try done; [by apply ok_ht|lia].
Qed.

Lemma search_tables_ok d k :
  wf d -> (exists t, ht_ok (ht0 d) t) ->
  exists r idx, search_tables d (hashFunction k) k = Some (r, idx) /\
    match r with
    | Some r => exists e, deref d r = Some e /\ eq_key k e
    | None => Forall (fun e => keyCompare k (de_key e) = false) (entries d) /\
        idx = Z.land (hashFunction k)
                (ht_sizemask (get_ht d (if dictIsRehashing d then 1 else 0)))
    end.
Proof.
  intros Hwf [t0 H0]. unfold search_tables.
  assert (Hd : forall table idx pos t b e, ht_ok (get_ht d table) t -> 0 <= idx ->
    t !! Z.to_nat idx = Some b -> b !! pos = Some e -> deref d (table, idx, pos) = Some e).
  { intros table idx pos t b e Ht Hi Hb He. unfold deref. rewrite (proj1 Ht).
    cbn [mbind option_bind]. rewrite znth_nat, Hb by done. done. }
  destruct (search_table_ok 0 (ht0 d) t0 k H0) as (r0 & -> & Hr0). cbn [mbind option_bind].
  destruct r0 as [[[table idx] pos]|].
  { eexists _, _. split; [done|]. destruct Hr0 as (-> & Hi & b & e & Hb & He & Hk).
    exists e. split; [|done]. by eapply (Hd 0). }
  destruct (dictIsRehashing d) eqn:Hre; cbn [negb].
  - pose proof (wf_rehashing _ Hwf Hre) as (t0' & t1 & H0' & H1 & _).
    destruct (search_table_ok 1 (ht1 d) t1 k H1) as (r1 & -> & Hr1).
    eexists _, _. split; [done|]. destruct r1 as [[[table idx] pos]|].
    + destruct Hr1 as (-> & Hi & b & e & Hb & He & Hk). exists e. split; [|done]. by eapply (Hd 1).
    + split; [|done]. unfold entries. rewrite (ht_ok_tbl _ _ H0), (ht_ok_tbl _ _ H1).
      by apply Forall_app.
  - eexists _, _. split; [done|]. split; [|done].
    pose proof (wf_stable _ Hwf Hre) as (_ & _ & H1).
    unfold entries. rewrite (ht_ok_tbl _ _ H0), H1. by rewrite app_nil_r.
Qed.

(** *** Updating a table *)

(** Replacing a bucket of one of the tables. *)
Lemma ok_set_ht d table t i b b' h' :
  ok d -> ht_ok (get_ht d table) t -> t !! i = Some b ->
  ht_ok h' (<[i := b']> t) -> ht_size h' = ht_size (get_ht d table) ->
  (b = [] -> dictIsRehashing d = true -> (table =? 0) = false) ->
  ok (set_ht d table h') /\
  exists rest, Permutation (entries d) (b ++ rest) /\
    Permutation (entries (set_ht d table h')) (b' ++ rest).
Proof.
  intros Hok Ht Hi Hh' Hs Hb. unfold set_ht, get_ht in *.
  destruct (table =? 0) eqn:Htab.
  - split.
    + destruct Hok as [Hd|Hd].
      * left. pose proof (rehashing_flag _ Hd) as Hre. destruct Hd as (t0 & t1 & H0 & H1 & Hne & Hr & Hm).
        assert (t0 = t) as -> by (pose proof (proj1 H0); pose proof (proj1 Ht); congruence).
        exists (<[i := b']> t), t1. split_and!; simpl; try done; [congruence|].
        intros j c Hj Hlt. destruct (decide (i = j)) as [->|Hij].
        -- exfalso. specialize (Hm j b Hi Hlt). by specialize (Hb Hm Hre).
        -- rewrite list_lookup_insert_ne in Hj by done. by eapply Hm.
      * right. destruct Hd as (Hr & _ & H1). split_and!; simpl; eauto.
    + exists (concat (<[i := []]> t) ++ concat (tbl (ht1 d))). unfold entries. simpl.
      rewrite (ht_ok_tbl _ _ Ht), (ht_ok_tbl _ _ Hh'), !(assoc_L (++)).
      by rewrite (concat_insert_nil _ _ _ Hi), (concat_insert _ _ _ b' Hi).
  - destruct Hok as [Hd|(_ & _ & H1)]; [|by rewrite H1 in Ht; destruct Ht].
    destruct Hd as (t0 & t1 & H0 & H1 & Hne & Hr & Hm). split.
    + left. exists t0, (<[i := b']> t). split_and!; simpl; try done. congruence.
    + exists (concat (tbl (ht0 d)) ++ concat (<[i := []]> t)). unfold entries. simpl.
      rewrite (ht_ok_tbl _ _ Ht), (ht_ok_tbl _ _ Hh').
      rewrite (concat_insert_nil _ _ _ Hi), (concat_insert _ _ _ b' Hi). split; solve_Permutation.
Qed.

Lemma update_chain_ok h t idx b b' f :
  ht_ok h t -> 0 <= idx -> t !! Z.to_nat idx = Some b -> f b = Some b' ->
  update_chain h idx f =
    Some (mk_ht (Some (<[Z.to_nat idx := b']> t)) (ht_size h) (ht_sizemask h) (ht_used h)).
Proof.
  intros Hok Hi Hb Hf. pose proof (lookup_zlen _ _ _ Hb). unfold update_chain.
  rewrite (proj1 Hok). cbn [mbind option_bind]. rewrite znth_nat, Hb by done.
  cbn [mbind option_bind]. rewrite Hf. cbn [mbind option_bind]. by rewrite zset_Some by lia.
Qed.

Lemma get_set_ht (d : dict K V) table h : get_ht (set_ht d table h) table = h.
Proof. unfold get_ht, set_ht. by destruct (table =? 0). Qed.
Lemma set_set_ht (d : dict K V) table h h' : set_ht (set_ht d table h) table h' = set_ht d table h'.
Proof. unfold set_ht. by destruct (table =? 0). Qed.
Lemma set_ht_iterators (d : dict K V) table h : iterators (set_ht d table h) = iterators d.
Proof. unfold set_ht. by destruct (table =? 0). Qed.
Lemma set_ht_rehashing (d : dict K V) table h :
  dictIsRehashing (set_ht d table h) = dictIsRehashing d.
Proof. unfold set_ht. by destruct (table =? 0). Qed.

Lemma dictSetVal_ok d r e v :
  ok d -> deref d r = Some e ->
  exists d' rest, dictSetVal d r v = Some d' /\ ok d' /\ iterators d' = iterators d /\
    Permutation (entries d) (e :: rest) /\
    Permutation (entries d') (mk_entry (de_key e) (valDup v) :: rest).
Proof.
  intros Hok. destruct r as [[table idx] pos]. intros He.
  destruct (deref_ok _ _ _ _ _ Hok He) as (t & b & Ht & Hi & Hb & Hp).
  set (e' := mk_entry (de_key e) (valDup v)). unfold dictSetVal, update_ref.
  rewrite (update_chain_ok _ t _ b (<[pos := e']> b)); [|done..|].
  2: { rewrite Hp. done. }
  cbn [mbind option_bind]. eexists. 
  assert (Hlen : length (<[pos:=e']> b) = length b) by apply length_insert.
  destruct (ok_set_ht d table t (Z.to_nat idx) b (<[pos := e']> b)
    (mk_ht (Some (<[Z.to_nat idx := <[pos := e']> b]> t)) (ht_size (get_ht d table))
      (ht_sizemask (get_ht d table)) (ht_used (get_ht d table)))) as (Hok' & rest & Hr & Hr'); try done.
  { eapply ht_ok_update; [done|done| |unfold zlen; rewrite Hlen; lia].
    apply list.Forall_insert; [by apply Ht|].
    assert (Hpl : Forall (fun e => Z.land (hashFunction (de_key e)) (ht_sizemask (get_ht d table))
      = Z.of_nat (Z.to_nat idx)) b) by (by apply Ht).
    rewrite list.Forall_forall in Hpl. apply (Hpl e). by eapply list_elem_of_lookup_2. }
  { intros ->. done. }
  exists (take pos b ++ drop (S pos) b ++ rest).
  split_and!; [done|done|by rewrite set_ht_iterators| |].
  - rewrite Hr. rewrite <- (take_drop_middle b pos e Hp) at 1. solve_Permutation.
  - rewrite Hr', insert_take_drop by (by eapply lookup_lt_Some). solve_Permutation.
Qed.

(** *** The operations, on multisets of entries *)

Lemma step_if_rehashing_ok d :
  wf d ->
  exists d', step_if_rehashing d = Some d' /\ wf d' /\ Permutation (entries d') (entries d) /\
    iterators d' = iterators d.
Proof.
  intros Hwf. unfold step_if_rehashing, _dictRehashStep.
  destruct (dictIsRehashing d); [|by exists d]. destruct (iterators d =? 0); [|by exists d].
  destruct (dictRehash_ok 1 d Hwf) as (d' & r & -> & Hwf' & Hp & Hit & _); [done|]. by exists d'.
Qed.

Lemma entries_table0 d d1 :
  wf d1 -> Permutation (entries d1) (entries d) -> zlen (entries d) <> 0 ->
  exists t, ht_ok (ht0 d1) t.
Proof.
  intros [[(t0 & t1 & H0 & _)|(_ & [H0|H0] & H1)] _] Hp Hne; eauto.
  exfalso. apply Hne. rewrite <- (zlen_perm _ _ Hp). unfold entries. by rewrite H0, H1.
Qed.

Variable uninit : V.
Variable can_resize : bool.

Lemma dictAddRaw_ok d k :
  wf d -> zlen (entries d) + 1 < grow_limit ->
  exists d' added existing, dictAddRaw uninit can_resize d k = Some (d', added, existing) /\
    ok d' /\ iterators d' = iterators d /\
    match added with
    | Some r => Forall (fun e => keyCompare k (de_key e) = false) (entries d) /\
        deref d' r = Some (mk_entry (keyDup k) uninit) /\ existing = None /\
        Permutation (entries d') (mk_entry (keyDup k) uninit :: entries d)
    | None => exists r e, existing = Some r /\ deref d' r = Some e /\ eq_key k e /\
        wf d' /\ Permutation (entries d') (entries d)
    end.
Proof.
  intros Hwf Hmax. unfold dictAddRaw.
  destruct (step_if_rehashing_ok d Hwf) as (d1 & -> & Hwf1 & Hp1 & Hit1). cbn [mbind option_bind].
  unfold _dictKeyIndex. destruct (_dictExpandIfNeeded_ok can_resize d1 Hwf1) as
    (d2 & -> & Hwf2 & He2 & Hit2 & Ht2 & _); [rewrite (zlen_perm _ _ Hp1); lia|]. cbn [mbind option_bind]. change (DICT_OK =? DICT_ERR) with false.
  cbv iota. destruct (search_tables_ok d2 k Hwf2 Ht2) as (r & idx & -> & Hr). cbn [mbind option_bind].
  destruct r as [r|]; cbn [mbind option_bind].
  { destruct Hr as (e & He & Hk). change (-1 =? -1) with true. cbv iota.
    exists d2, None, (Some r). split_and!; try done; [apply Hwf2|congruence|].
    exists r, e. split_and!; try done. by rewrite He2. }
  destruct Hr as [Hnone ->]. set (table := if dictIsRehashing d2 then 1 else 0) in *.
  assert (exists t, ht_ok (get_ht d2 table) t) as [t Ht].
  { unfold table, get_ht. destruct (dictIsRehashing d2) eqn:Hre; [|done].
    destruct (wf_rehashing _ Hwf2 Hre) as (t0 & t1 & _ & H1 & _). by exists t1. }
  pose proof (ht_ok_idx _ _ k Ht) as Hidx. set (i := Z.land _ _) in *.
  rewrite (proj2 (Z.eqb_neq i (-1))) by lia.
  destruct (znth_is_Some t i Hidx) as [b Hb]. rewrite znth_nat in Hb by lia.
  set (e := mk_entry (keyDup k) uninit).
  rewrite (update_chain_ok _ t i b (e :: b)); [|done|lia|done|done].
  cbn [mbind option_bind ht_table ht_size ht_sizemask ht_used].
  destruct (ok_set_ht d2 table t (Z.to_nat i) b (e :: b)
    (mk_ht (Some (<[Z.to_nat i := e :: b]> t)) (ht_size (get_ht d2 table))
      (ht_sizemask (get_ht d2 table)) (ht_used (get_ht d2 table) + 1))) as (Hok' & rest & Hr & Hr'); try done.
  { apply Hwf2. }
  { eapply ht_ok_update; [done|done| |zlens; lia]. constructor; [|by apply Ht].
    simpl. rewrite <- (cmp_hash _ _ (dup_cmp k)). fold i. lia. }
  { unfold table. intros _ ->. done. }
  eexists _, (Some (table, i, 0%nat)), None. split; [done|].
  split_and!; try done.
  - rewrite set_ht_iterators. congruence.
  - by rewrite <- Hp1, <- He2.
  - unfold deref. rewrite get_set_ht. cbn [ht_table mbind option_bind]. rewrite znth_nat by lia.
    by rewrite list_lookup_insert_eq by (by eapply lookup_lt_Some).
  - rewrite Hr', <- Hp1, <- He2, Hr. done.
Qed.

(** Adding an entry with a fresh key keeps the invariant. *)
Lemma wf_add d d' e k :
  wf d -> zlen (entries d) + 1 < max_entries -> ok d' ->
  keyCompare k (de_key e) = true ->
  Forall (fun e => keyCompare k (de_key e) = false) (entries d) ->
  Permutation (entries d') (e :: entries d) -> wf d'.
Proof.
  intros (_ & Hu & _) Hmax Hok Hk Hf Hp. split_and!; [done| |].
  - rewrite Hp. apply uniq_cons. split; [done|]. eapply list.Forall_impl; [done|].
    intros e' He'. simpl. by eapply cmp_false_l.
  - rewrite (zlen_perm _ _ Hp). zlens. lia.
Qed.

(** Replacing the value of an entry keeps the invariant. *)
Lemma wf_replace d d' e v rest :
  wf d -> ok d' -> Permutation (entries d) (e :: rest) ->
  Permutation (entries d') (mk_entry (de_key e) v :: rest) -> wf d'.
Proof.
  intros (_ & Hu & Hm) Hok Hp Hp'. split_and!; [done| |].
  - rewrite Hp'. rewrite Hp in Hu. apply uniq_cons in Hu. by apply uniq_cons.
  - rewrite (zlen_perm _ _ Hp'). rewrite (zlen_perm _ _ Hp) in Hm. by zlens.
Qed.

Lemma wf_remove d d' e :
  wf d -> ok d' -> Permutation (entries d) (e :: entries d') -> wf d'.
Proof.
  intros (_ & Hu & Hm) Hok Hp. split_and!; [done| |].
  - rewrite Hp in Hu. by apply uniq_cons in Hu as [? _].
  - rewrite (zlen_perm _ _ Hp) in Hm. zlens. lia.
Qed.

Lemma dmap_add d d' e k k' :
  wf d' -> keyCompare k (de_key e) = true -> Permutation (entries d') (e :: entries d) ->
  dmap d' k' = if keyCompare k k' then Some (de_val e) else dmap d k'.
Proof.
  intros (_ & Hu & _) Hk Hp. unfold dmap. rewrite (assoc_perm _ _ _ Hu Hp), assoc_cons.
  destruct (keyCompare k k') eqn:E.
  - by rewrite (cmp_trans _ _ _ (cmp_sym _ _ E) Hk).
  - destruct (keyCompare k' (de_key e)) eqn:E'; [|done].
    rewrite (cmp_trans _ _ _ Hk (cmp_sym _ _ E')) in E. done.
Qed.

Lemma dmap_remove d d' e k k' :
  wf d -> keyCompare k (de_key e) = true -> Permutation (entries d) (e :: entries d') ->
  dmap d' k' = if keyCompare k k' then None else dmap d k'.
Proof.
  intros (_ & Hu & _) Hk Hp. unfold dmap. rewrite (assoc_perm _ _ k' Hu Hp), assoc_cons.
  rewrite Hp in Hu. apply uniq_cons in Hu as [Hu Hf].
  destruct (keyCompare k k') eqn:E.
  - apply find_none. eapply list.Forall_impl; [done|]. intros e' He'. simpl in He'.
    eapply cmp_false_l; [|done]. eapply cmp_trans; [by apply cmp_sym|done].
  - destruct (keyCompare k' (de_key e)) eqn:E'; [|done].
    rewrite (cmp_trans _ _ _ Hk (cmp_sym _ _ E')) in E. done.
Qed.

Lemma used_nonneg d : wf d -> 0 <= ht_used (ht0 d) /\ 0 <= ht_used (ht1 d).
Proof.
  intros [[(t0 & t1 & H0 & H1 & _)|(_ & [H0|[t0 H0]] & H1)] _];
    rewrite ?(ht_ok_used _ _ H0), ?(ht_ok_used _ _ H1), ?H0, ?H1; simpl; try done;
    split; try apply zlen_nonneg; done.
Qed.

(** Unlinking the entry a reference designates. *)
Lemma unlink_ok d table idx pos e :
  ok d -> deref d (table, idx, pos) = Some e ->
  exists d1, update_ref d (table, idx, pos) (fun pos b => Some (take pos b ++ drop (S pos) b)) = Some d1 /\
    let h := get_ht d1 table in
    let d' := set_ht d1 table (mk_ht (ht_table h) (ht_size h) (ht_sizemask h) (ht_used h - 1)) in
    ok d' /\ iterators d' = iterators d /\ Permutation (entries d) (e :: entries d').
Proof.
  intros Hok He. destruct (deref_ok _ _ _ _ _ Hok He) as (t & b & Ht & Hi & Hb & Hp).
  unfold update_ref. erewrite update_chain_ok by done. cbn [mbind option_bind].
  eexists. split; [done|]. rewrite get_set_ht. cbn [ht_table ht_size ht_sizemask ht_used].
  rewrite set_set_ht. set (b' := take pos b ++ drop (S pos) b).
  assert (Hpb : Permutation b (e :: b')).
  { rewrite <- (take_drop_middle b pos e Hp) at 1. unfold b'. solve_Permutation. }
  destruct (ok_set_ht d table t (Z.to_nat idx) b b'
    (mk_ht (Some (<[Z.to_nat idx := b']> t)) (ht_size (get_ht d table))
      (ht_sizemask (get_ht d table)) (ht_used (get_ht d table) - 1))) as (Hok' & rest & Hr & Hr'); try done.
  { eapply ht_ok_update; [done|done| |rewrite (zlen_perm _ _ Hpb); zlens; lia].
    assert (Hf : Forall (fun e => Z.land (hashFunction (de_key e)) (ht_sizemask (get_ht d table))
      = Z.of_nat (Z.to_nat idx)) b) by (by apply Ht).
    rewrite Hpb in Hf. by apply list.Forall_cons in Hf as [_ ?]. }
  { intros ->. done. }
  split_and!; [done|by rewrite set_ht_iterators|]. by rewrite Hr, Hr', Hpb.
Qed.

Lemma dictGenericDelete_ok d k :
  wf d ->
  exists d' r, dictGenericDelete d k = Some (d', r) /\ wf d' /\ iterators d' = iterators d /\
    match r with
    | Some e => eq_key k e /\ Permutation (entries d) (e :: entries d')
    | None => Forall (fun e => keyCompare k (de_key e) = false) (entries d) /\
        Permutation (entries d') (entries d)
    end.
Proof.
  intros Hwf. unfold dictGenericDelete. pose proof (used_entries _ Hwf) as Hu.
  pose proof (used_nonneg _ Hwf) as Hnn.
  destruct ((ht_used (ht0 d) =? 0) && (ht_used (ht1 d) =? 0)) eqn:Hz.
  { apply andb_true_iff in Hz as [?%Z.eqb_eq ?%Z.eqb_eq].
    assert (entries d = []) as He by (apply zlen_0_inv; lia).
    exists d, None. rewrite He. by split_and!. }
  destruct (step_if_rehashing_ok d Hwf) as (d1 & -> & Hwf1 & Hp1 & Hit1). cbn [mbind option_bind].
  assert (exists t, ht_ok (ht0 d1) t) as Ht1.
  { apply (entries_table0 d); [done|done|].
    apply andb_false_iff in Hz as [?%Z.eqb_neq|?%Z.eqb_neq]; lia. }
  destruct (search_tables_ok d1 k Hwf1 Ht1) as (r & idx & -> & Hr). cbn [mbind option_bind].
  destruct r as [[[table i] pos]|].
  - destruct Hr as (e & He & Hk). rewrite He. cbn [mbind option_bind].
    destruct (unlink_ok d1 table i pos e) as (d2 & -> & Hok & Hit & Hp); [apply Hwf1|done|].
    cbn [mbind option_bind]. eexists _, (Some e). split; [done|]. split_and!; [|congruence|done|].
    + by eapply wf_remove.
    + by rewrite <- Hp1.
  - destruct Hr as [Hf _]. exists d1, None. split_and!; try done. by rewrite <- Hp1.
Qed.

Lemma dictFind_ok d k :
  wf d ->
  exists d' r, dictFind d k = Some (d', r) /\ wf d' /\ iterators d' = iterators d /\
    Permutation (entries d') (entries d) /\
    match r with
    | Some r => exists e, deref d' r = Some e /\ eq_key k e /\ e ∈ entries d
    | None => Forall (fun e => keyCompare k (de_key e) = false) (entries d)
    end.
Proof.
  intros Hwf. unfold dictFind. pose proof (used_entries _ Hwf) as Hu.
  destruct (Z.eqb_spec (ht_used (ht0 d) + ht_used (ht1 d)) 0).
  { assert (entries d = []) as He by (apply zlen_0_inv; lia).
    exists d, None. rewrite He. by split_and!. }
  destruct (step_if_rehashing_ok d Hwf) as (d1 & -> & Hwf1 & Hp1 & Hit1). cbn [mbind option_bind].
  assert (exists t, ht_ok (ht0 d1) t) as Ht1.
  { apply (entries_table0 d); [done|done|lia]. }
  destruct (search_tables_ok d1 k Hwf1 Ht1) as (r & idx & -> & Hr). cbn [mbind option_bind].
  exists d1, r. split_and!; try done. destruct r as [r|]; [|by rewrite <- Hp1; apply Hr].
  destruct Hr as (e & He & Hk). exists e. split_and!; try done. rewrite <- Hp1.
  destruct r as [[table i] pos].
  destruct (deref_ok _ _ _ _ _ (proj1 Hwf1) He) as (t & b & Ht & _ & Hb & Hpos).
  assert (e ∈ concat t) as Hin.
  { apply elem_of_concat. eexists _, b. split; [done|]. by eapply list_elem_of_lookup_2. }
  rewrite <- (ht_ok_tbl _ _ Ht) in Hin. unfold entries, get_ht in *.
  apply elem_of_app. destruct (table =? 0); auto.
Qed.

(** ** The contract: a dictionary is a finite map *)

Abbreviation kmap := (K -> option V).
Definition map_insert (m : kmap) (k : K) (v : V) : kmap :=
  fun k' => if keyCompare k k' then Some v else m k'.
Definition map_delete (m : kmap) (k : K) : kmap :=
  fun k' => if keyCompare k k' then None else m k'.

(** [d] is a well-formed dictionary with [n] entries that stands for [m]. *)
Definition models (d : dict K V) (m : kmap) (n : Z) : Prop :=
  wf d /\ (forall k, dmap d k = m k) /\ dictSize d = n.

Lemma models_size d m n : models d m n -> zlen (entries d) = n.
Proof. intros (Hwf & _ & <-). by rewrite <- used_entries. Qed.

Lemma models_perm d d' m n :
  models d m n -> wf d' -> Permutation (entries d') (entries d) -> models d' m n.
Proof.
  intros Hm Hwf' Hp. pose proof (models_size _ _ _ Hm) as Hn. destruct Hm as (Hwf & Hdm & _).
  split_and!; [done| |].
  - intros k. by rewrite (dmap_perm d d' k Hwf Hp).
  - unfold dictSize. rewrite (used_entries _ Hwf'), (zlen_perm _ _ Hp). done.
Qed.

Lemma fresh_key d m n k :
  models d m n -> Forall (fun e => keyCompare k (de_key e) = false) (entries d) -> m k = None.
Proof. intros (_ & Hm & _) Hf. rewrite <- Hm. by apply find_none. Qed.

Lemma present_key d m n k e :
  models d m n -> e ∈ entries d -> eq_key k e -> m k = Some (de_val e).
Proof. intros ((_ & Hu & _) & Hm & _) Hin Hk. rewrite <- Hm. by apply assoc_elem. Qed.

(** The common part of [dictAdd] and [dictReplace] when the key is new. *)
Lemma add_new d m n d1 r k v :
  models d m n -> n + 1 < grow_limit ->
  Forall (fun e => keyCompare k (de_key e) = false) (entries d) -> ok d1 ->
  deref d1 r = Some (mk_entry (keyDup k) uninit) ->
  Permutation (entries d1) (mk_entry (keyDup k) uninit :: entries d) ->
  exists d', dictSetVal d1 r v = Some d' /\ models d' (map_insert m k (valDup v)) (n + 1).
Proof.
  intros Hm Hmax Hf Hok Hr Hp. pose proof (models_size _ _ _ Hm) as Hn.
  destruct Hm as (Hwf & Hdm & _).
  destruct (dictSetVal_ok d1 r _ v Hok Hr) as (d' & rest & Hset & Hok' & _ & Hp1 & Hp').
  rewrite Hp in Hp1. apply Permutation_cons_inv in Hp1. simpl in Hp'. rewrite <- Hp1 in Hp'.
  exists d'. split; [done|].
  assert (wf d') as Hwf' by (apply (wf_add d d' (mk_entry (keyDup k) (valDup v)) k);
    [done|unfold grow_limit, max_entries in *; lia|done|apply dup_cmp|done|done]).
  split_and!; [done| |].
  - intros k'. rewrite (dmap_add d d' (mk_entry (keyDup k) (valDup v)) k k' Hwf' (dup_cmp k) Hp'). unfold map_insert.
    by rewrite Hdm.
  - unfold dictSize. rewrite used_entries, (zlen_perm _ _ Hp') by done. zlens. lia.
Qed.

Lemma dictAdd_models d m n k v :
  models d m n -> n + 1 < grow_limit ->
  exists d', match m k with
    | None => dictAdd uninit can_resize d k v = Some (d', DICT_OK) /\
              models d' (map_insert m k (valDup v)) (n + 1)
    | Some _ => dictAdd uninit can_resize d k v = Some (d', DICT_ERR) /\ models d' m n
    end.
Proof.
  intros Hm Hmax. unfold dictAdd. pose proof (models_size _ _ _ Hm) as Hn.
  destruct (dictAddRaw_ok d k) as (d1 & added & existing & -> & Hok & _ & Hadd); [apply Hm|lia|].
  cbn [mbind option_bind]. destruct added as [r|].
  - destruct Hadd as (Hf & Hr & _ & Hp). rewrite (fresh_key _ _ _ _ Hm Hf).
    destruct (add_new d m n d1 r k v) as (d' & -> & Hm'); try done. by exists d'.
  - destruct Hadd as (r & e & _ & He & Hk & Hwf1 & Hp). exists d1.
    pose proof (models_perm _ _ _ _ Hm Hwf1 Hp) as Hm1.
    destruct (dictSetVal_ok d1 r e v) as (d' & rest & _ & _ & _ & Hin & _); [done|done|].
    rewrite (present_key d1 m n k e Hm1); [done| |done]. rewrite Hin. left.
Qed.

Lemma dictReplace_models d m n k v :
  models d m n -> n + 1 < grow_limit ->
  exists d', match m k with
    | None => dictReplace uninit can_resize d k v = Some (d', 1) /\
              models d' (map_insert m k (valDup v)) (n + 1)
    | Some _ => dictReplace uninit can_resize d k v = Some (d', 0) /\
              models d' (map_insert m k (valDup v)) n
    end.
Proof.
  intros Hm Hmax. unfold dictReplace. pose proof (models_size _ _ _ Hm) as Hn.
  destruct (dictAddRaw_ok d k) as (d1 & added & existing & -> & Hok & _ & Hadd); [apply Hm|lia|].
  cbn [mbind option_bind]. destruct added as [r|].
  - destruct Hadd as (Hf & Hr & _ & Hp). rewrite (fresh_key _ _ _ _ Hm Hf).
    destruct (add_new d m n d1 r k v) as (d' & -> & Hm'); try done. by exists d'.
  - destruct Hadd as (r & e & -> & He & Hk & Hwf1 & Hp). cbn [mbind option_bind].
    pose proof (models_perm _ _ _ _ Hm Hwf1 Hp) as Hm1.
    destruct (dictSetVal_ok d1 r e v) as (d' & rest & -> & Hok' & _ & Hin & Hp'); [done|done|].
    exists d'. rewrite (present_key d1 m n k e Hm1); [|rewrite Hin; left|done].
    split; [done|]. pose proof (wf_replace d1 d' e (valDup v) rest Hwf1 Hok' Hin Hp') as Hwf'.
    split_and!; [done| |].
    + intros k'. destruct Hm1 as ((_ & Hu1 & _) & Hdm & _). unfold map_insert. rewrite <- Hdm.
      unfold dmap. rewrite (assoc_perm _ _ k' (proj1 (proj2 Hwf')) Hp'), (assoc_perm _ _ k' Hu1 Hin).
      rewrite !assoc_cons. simpl. destruct (keyCompare k k') eqn:E.
      * by rewrite (cmp_trans _ _ _ (cmp_sym _ _ E) Hk).
      * destruct (keyCompare k' (de_key e)) eqn:E'; [|done].
        rewrite (cmp_trans _ _ _ Hk (cmp_sym _ _ E')) in E. done.
    + unfold dictSize. rewrite used_entries, (zlen_perm _ _ Hp') by done.
      rewrite <- (models_size _ _ _ Hm1), (zlen_perm _ _ Hin). by zlens.
Qed.

Lemma dictDelete_models d m n k :
  models d m n ->
  exists d', match m k with
    | None => dictDelete d k = Some (d', DICT_ERR) /\ models d' m n
    | Some _ => dictDelete d k = Some (d', DICT_OK) /\ models d' (map_delete m k) (n - 1)
    end.
Proof.
  intros Hm. pose proof (models_size _ _ _ Hm) as Hn. unfold dictDelete.
  destruct (dictGenericDelete_ok d k) as (d' & r & -> & Hwf' & _ & Hr); [apply Hm|].
  cbn [mbind option_bind]. exists d'. destruct r as [e|].
  - destruct Hr as [Hk Hp]. rewrite (present_key d m n k e Hm); [|rewrite Hp; left|done].
    split; [done|]. destruct Hm as (Hwf & Hdm & _). split_and!; [done| |].
    + intros k'. rewrite (dmap_remove d d' e k k' Hwf Hk Hp). unfold map_delete. by rewrite Hdm.
    + unfold dictSize. rewrite used_entries by done. rewrite (zlen_perm _ _ Hp) in Hn.
      zlens. lia.
  - destruct Hr as [Hf Hp]. rewrite (fresh_key _ _ _ _ Hm Hf). split; [done|].
    by eapply models_perm.
Qed.

Lemma dictFetchValue_models d m n k :
  models d m n -> exists d', dictFetchValue d k = Some (d', m k) /\ models d' m n.
Proof.
  intros Hm. unfold dictFetchValue.
  destruct (dictFind_ok d k) as (d' & r & -> & Hwf' & _ & Hp & Hr); [apply Hm|].
  cbn [mbind option_bind]. exists d'. destruct r as [r|].
  - destruct Hr as (e & -> & Hk & Hin). cbn [mbind option_bind].
    rewrite (present_key d m n k e Hm Hin Hk). split; [done|]. by eapply models_perm.
  - rewrite (fresh_key _ _ _ _ Hm Hr). split; [done|]. by eapply models_perm.
Qed.

Lemma dictRehash_models d m n steps :
  models d m n -> Z.of_nat steps * 10 <= INT_MAX ->
  exists d' r, dictRehash d steps = Some (d', r) /\ models d' m n.
Proof.
  intros Hm Hs. destruct (dictRehash_ok steps d) as (d' & r & Hr & Hwf' & Hp & _); [apply Hm|done|].
  exists d', r. split; [done|]. by eapply models_perm.
Qed.

Lemma dictExpand_models d m n size :
  models d m n -> 0 <= size <= 2 ^ 60 ->
  exists d' r, dictExpand d size = Some (d', r) /\ models d' m n.
Proof.
  intros Hm Hs. destruct (dictExpand_ok d size) as (d' & r & k & Hr & Hwf' & He & _); [apply Hm|done|].
  exists d', r. split; [done|]. eapply models_perm; [done|done|by rewrite He].
Qed.

Lemma dictResize_models d m n :
  models d m n -> exists d' r, dictResize can_resize d = Some (d', r) /\ models d' m n.
Proof.
  intros Hm. unfold dictResize. destruct (negb can_resize || dictIsRehashing d); [by eexists _, _|].
  apply dictExpand_models; [done|].
  pose proof (swrap_range 32 (ht_used (ht0 d))) as Hr. unfold in_s in Hr. unfold i32.
  unfold DICT_HT_INITIAL_SIZE. destruct (Z.ltb_spec (swrap 32 (ht_used (ht0 d))) 4); pow2s; lia.
Qed.

(** *** Histories *)

Inductive dict_op :=
  | OpAdd (k : K) (v : V)
  | OpReplace (k : K) (v : V)
  | OpDelete (k : K)
  | OpFetch (k : K)
  | OpRehash (n : nat)
  | OpExpand (size : Z)
  | OpResize.

(** What the client observes. *)
Inductive dict_obs :=
  | ObsCode (r : Z)
  | ObsVal (v : option V)
  | ObsNone.

Definition run_op (d : dict K V) (o : dict_op) : option (dict K V * dict_obs) :=
  match o with
  | OpAdd k v => '(d, r) ← dictAdd uninit can_resize d k v; Some (d, ObsCode r)
  | OpReplace k v => '(d, r) ← dictReplace uninit can_resize d k v; Some (d, ObsCode r)
  | OpDelete k => '(d, r) ← dictDelete d k; Some (d, ObsCode r)
  | OpFetch k => '(d, v) ← dictFetchValue d k; Some (d, ObsVal v)
  | OpRehash n => '(d, _) ← dictRehash d n; Some (d, ObsNone)
  | OpExpand size => '(d, _) ← dictExpand d size; Some (d, ObsNone)
  | OpResize => '(d, _) ← dictResize can_resize d; Some (d, ObsNone)
  end.
Fixpoint run_ops (d : dict K V) (os : list dict_op) : option (dict K V * list dict_obs) :=
  match os with
  | [] => Some (d, [])
  | o :: os =>
      '(d, r) ← run_op d o;
      '(d, rs) ← run_ops d os;
      Some (d, r :: rs)
  end.

(** The same operations on a finite map. *)
Definition spec_op (m : kmap) (o : dict_op) : kmap * dict_obs :=
  match o with
  | OpAdd k v => match m k with
                 | None => (map_insert m k (valDup v), ObsCode DICT_OK)
                 | Some _ => (m, ObsCode DICT_ERR)
                 end
  | OpReplace k v => (map_insert m k (valDup v), ObsCode (if m k is Some _ then 0 else 1))
  | OpDelete k => match m k with
                  | None => (m, ObsCode DICT_ERR)
                  | Some _ => (map_delete m k, ObsCode DICT_OK)
                  end
  | OpFetch k => (m, ObsVal (m k))
  | OpRehash _ | OpExpand _ | OpResize => (m, ObsNone)
  end.
Fixpoint spec_ops (m : kmap) (os : list dict_op) : kmap * list dict_obs :=
  match os with
  | [] => (m, [])
  | o :: os =>
      let '(m, r) := spec_op m o in
      let '(m, rs) := spec_ops m os in
      (m, r :: rs)
  end.

(** [dictExpand] is asked for at most [2^60] buckets, [dictRehash] for a number of
    steps whose tenfold is an [int]. *)
Definition op_ok (o : dict_op) : Prop :=
  match o with
  | OpExpand size => 0 <= size <= 2 ^ 60
  | OpRehash n => Z.of_nat n * 10 <= INT_MAX
  | _ => True
  end.

Lemma run_op_models d m n o :
  models d m n -> n + 1 < grow_limit -> op_ok o ->
  exists d' n', run_op d o = Some (d', snd (spec_op m o)) /\
    models d' (fst (spec_op m o)) n' /\ n' <= n + 1.
Proof.
  intros Hm Hmax Ho. destruct o as [k v|k v|k|k|s|size|]; simpl.
  - destruct (dictAdd_models d m n k v Hm Hmax) as [d' Hd].
    destruct (m k); destruct Hd as [-> ?]; eexists d', _; (split_and!; [done|done|lia]).
  - destruct (dictReplace_models d m n k v Hm Hmax) as [d' Hd].
    destruct (m k); destruct Hd as [-> ?]; eexists d', _; (split_and!; [done|done|lia]).
  - destruct (dictDelete_models d m n k Hm) as [d' Hd].
    destruct (m k); destruct Hd as [-> ?]; eexists d', _; (split_and!; [done|done|lia]).
  - destruct (dictFetchValue_models d m n k Hm) as (d' & -> & ?).
    eexists d', _. split_and!; [done|done|lia].
  - destruct (dictRehash_models d m n s Hm Ho) as (d' & r & -> & ?).
    eexists d', _. split_and!; [done|done|lia].
  - destruct (dictExpand_models d m n size Hm Ho) as (d' & r & -> & ?).
    eexists d', _. split_and!; [done|done|lia].
  - destruct (dictResize_models d m n Hm) as (d' & r & -> & ?).
    eexists d', _. split_and!; [done|done|lia].
Qed.

Lemma run_ops_models os d m n :
  models d m n -> n + zlen os < grow_limit -> Forall op_ok os ->
  exists d' n', run_ops d os = Some (d', snd (spec_ops m os)) /\ models d' (fst (spec_ops m os)) n'.
Proof.
  revert d m n. induction os as [|o os IH]; intros d m n Hm Hmax Ho; [by exists d, n|].
  apply list.Forall_cons in Ho as [Ho Hos]. zlens. pose proof (zlen_nonneg os).
  destruct (run_op_models d m n o Hm) as (d1 & n1 & Hrun & Hm1 & Hn1); [lia|done|].
  simpl. rewrite Hrun. cbn [mbind option_bind].
  destruct (spec_op m o) as [m1 r]. simpl in *.
  destruct (IH d1 m1 n1 Hm1) as (d2 & n2 & -> & Hm2); [lia|done|].
  cbn [mbind option_bind]. destruct (spec_ops m1 os) as [m2 rs]. by exists d2, n2.
Qed.

Lemma dictCreate_models : models dictCreate (fun _ => None) 0.
Proof.
  split_and!; try done. split_and!; [|apply uniq_nil|done]. right. split_and!; auto.
Qed.

(** C2: starting from [dictCreate], every sequence of [dictAdd], [dictReplace],
    [dictDelete], [dictFetchValue], [dictRehash], [dictExpand] and [dictResize]
    runs without an invalid memory access or a failed assertion, and the return
    codes and values the client sees are those of a finite map: the incremental
    rehash and the resizing are unobservable.  The history has fewer than [2^59]
    operations, [dictExpand] is asked for at most [2^60] buckets and [dictRehash]
    for at most [INT_MAX/10] steps; [dictExpand_wraps] below shows what happens
    beyond. *)
Theorem dict_history_refines (os : list dict_op) :
  zlen os < grow_limit -> Forall op_ok os ->
  exists d, run_ops dictCreate os = Some (d, snd (spec_ops (fun _ => None) os)) /\
    wf d /\ forall k, dmap d k = fst (spec_ops (fun _ => None) os) k.
Proof.
  intros Hn Ho. destruct (run_ops_models os dictCreate (fun _ => None) 0) as (d & n & Hr & Hm);
    [apply dictCreate_models|done|done|]. exists d. split_and!; [done|apply Hm|apply Hm].
Qed.

(** *** Completion of the rehash *)

Lemma rehashidx_bound d :
  wf d -> dictIsRehashing d = true -> ht_used (ht0 d) <> 0 ->
  0 <= rehashidx d < ht_size (ht0 d).
Proof.
  intros Hwf Hre Hu. destruct (wf_rehashing _ Hwf Hre) as (t0 & t1 & H0 & _ & _ & Hr & Hm).
  destruct (rehash_pos _ _ _ H0 Hr Hm Hu) as (j & b & _ & _ & Hj & _). lia.
Qed.

Lemma rehashidx_nonneg d : wf d -> dictIsRehashing d = true -> 0 <= rehashidx d.
Proof. intros Hwf Hre. by destruct (wf_rehashing _ Hwf Hre) as (t0 & t1 & _ & _ & _ & Hr & _). Qed.

Lemma ht_size_nonneg d : wf d -> 0 <= ht_size (ht0 d).
Proof.
  intros [[(t0 & t1 & H0 & _)|(_ & [->|[t0 H0]] & _)] _]; [|done|];
    destruct H0 as (_ & _ & <- & _); apply zlen_nonneg.
Qed.

(** A slice of 100 steps that does not finish moves [rehashidx] by 100 buckets. *)
Lemma rehash_slice_ok d :
  wf d ->
  exists d' r, dictRehash d 100 = Some (d', r) /\ wf d' /\ Permutation (entries d') (entries d) /\
    r = (if dictIsRehashing d' then 1 else 0) /\
    (dictIsRehashing d' = true -> dictIsRehashing d = true /\ ht_size (ht0 d') = ht_size (ht0 d) /\
       rehashidx d + 100 <= rehashidx d' < ht_size (ht0 d)).
Proof.
  intros Hwf. destruct (dictRehash_ok 100 d Hwf) as (d' & r & E & Hwf' & Hp & _ & Hr & Hadv); [done|].
  exists d', r. split_and!; try done. intros Hre. destruct (Hadv Hre) as (H0 & Hu & Hs & Hle).
  pose proof (rehashidx_bound d' Hwf' Hre Hu). split_and!; [done|done|lia|lia].
Qed.

(** [n] slices in a row. *)
Fixpoint rehash_slices (n : nat) (d : dict K V) : option (dict K V) :=
  match n with O => Some d | S n => '(d, _) ← dictRehash d 100; rehash_slices n d end.

Lemma rehash_slices_ok n d :
  wf d -> (0 < n)%nat ->
  (dictIsRehashing d = true -> ht_size (ht0 d) - rehashidx d <= 100 * Z.of_nat n) ->
  exists d', rehash_slices n d = Some d' /\ wf d' /\ Permutation (entries d') (entries d) /\
    dictIsRehashing d' = false.
Proof.
  revert d. induction n as [|n IH]; intros d Hwf Hpos Hn; [lia|].
  destruct (rehash_slice_ok d Hwf) as (d1 & r & E & Hwf1 & Hp1 & _ & Hadv).
  cbn [rehash_slices]. rewrite E. cbn [mbind option_bind].
  destruct (decide (n = O)) as [->|Hn0].
  - exists d1. split_and!; try done. destruct (dictIsRehashing d1); [|done]. destruct (Hadv eq_refl) as (Hre & _ & ?). specialize (Hn Hre). lia.
  - destruct (IH d1 Hwf1) as (d' & -> & Hwf' & Hp & Hd); [lia| |].
    + intros Hre1. destruct (Hadv Hre1) as (Hre & -> & ?). specialize (Hn Hre). lia.
    + exists d'. split_and!; try done. by rewrite Hp.
Qed.

Lemma rehash_ms_ok sz fuel expired i d c :
  wf d -> sz <= INT_MAX -> (0 < fuel)%nat -> 0 <= c <= sz ->
  (dictIsRehashing d = true -> ht_size (ht0 d) = sz /\ c <= rehashidx d /\ sz - rehashidx d <= 100 * Z.of_nat fuel) ->
  exists d' c', dictRehashMilliseconds fuel expired i d c = Some (d', c') /\
    wf d' /\ Permutation (entries d') (entries d) /\ 0 <= c' <= sz /\
    ((forall j, expired j = false) -> dictIsRehashing d' = false).
Proof.
  revert i d c. induction fuel as [|fuel IH]; intros i d c Hwf Hsz Hpos Hc Hf; [lia|].
  cbn [dictRehashMilliseconds].
  destruct (rehash_slice_ok d Hwf) as (d1 & r & -> & Hwf1 & Hp1 & -> & Hadv).
  cbn [mbind option_bind]. destruct (dictIsRehashing d1) eqn:Hre1; cbn [Z.eqb].
  2: { exists d1, c. split_and!; auto; lia. }
  destruct (Hadv eq_refl) as (Hre & Hs & Hlt). destruct (Hf Hre) as (Hs0 & Hcr & Hfu).
  rewrite (proj2 (Z.ltb_ge INT_MAX (c + 100))) by lia. destruct (expired i) eqn:Hex.
  { exists d1, (c + 100). split_and!; try done; try lia. intros He. by rewrite He in Hex. }
  destruct (IH (S i) d1 (c + 100) Hwf1 Hsz) as (d' & c' & -> & Hwf' & Hp & Hc' & Hdone); [lia|lia|lia|].
  exists d', c'. split_and!; try done; try lia. by rewrite Hp.
Qed.

(** C34: rehashing terminates.  One slice of 100 steps for every 100 buckets of
    the old table and one more finish it, whatever the size: there is no second
    table left and the entries are exactly those of the dictionary.  When the old
    table has no more buckets than an [int] counts, [dictRehashMilliseconds] runs
    at most as many slices, its counter does not overflow and is at most the
    number of buckets, the entries are kept, and without a time limit the rehash
    is complete. *)
Theorem dictRehash_completes (d : dict K V) (expired : nat -> bool) :
  wf d ->
  let slices := S (Z.to_nat (ht_size (ht0 d) / 100)) in
  (exists d', rehash_slices slices d = Some d' /\ wf d' /\ Permutation (entries d') (entries d) /\
     dictIsRehashing d' = false) /\
  (ht_size (ht0 d) <= INT_MAX ->
   exists d' c, dictRehashMilliseconds slices expired 0 d 0 = Some (d', c) /\
     wf d' /\ Permutation (entries d') (entries d) /\ 0 <= c <= ht_size (ht0 d) /\
     ((forall j, expired j = false) -> dictIsRehashing d' = false)).
Proof.
  intros Hwf slices. pose proof (ht_size_nonneg d Hwf) as Hsz.
  pose proof (Z_div_mod_eq_full (ht_size (ht0 d)) 100). pose proof (Z.mod_pos_bound (ht_size (ht0 d)) 100 ltac:(done)).
  pose proof (Z.div_pos (ht_size (ht0 d)) 100 Hsz ltac:(done)).
  assert (dictIsRehashing d = true -> 0 <= rehashidx d /\ ht_size (ht0 d) - rehashidx d <= 100 * Z.of_nat slices) as Hf.
  { intros Hre. pose proof (rehashidx_nonneg d Hwf Hre). unfold slices. lia. }
  split; [apply rehash_slices_ok; [done|unfold slices; lia|apply Hf]|].
  intros Hi. apply (rehash_ms_ok (ht_size (ht0 d))); [done|done|unfold slices; lia|lia|]. intros Hre. by destruct (Hf Hre).
Qed.

(** A table of more than [2^60] buckets: its size in bytes wraps to 0, so a new
    dictionary gets a table without buckets, and the first addition reads it. *)
Lemma dictExpand_wraps (size : Z) (k : K) (v : V) :
  2 ^ 60 < size < 2 ^ 64 ->
  exists d, dictExpand dictCreate size = Some (d, DICT_OK) /\ ht_table (ht0 d) = Some [] /\
    dictAdd uninit can_resize d k v = None.
Proof.
  intros Hs. assert (exists j, 61 <= j <= 63 /\ _dictNextPower size = Some (2 ^ j)) as (j & Hj & E).
  { destruct (Z.le_gt_cases size (2 ^ 63)).
    - destruct (_dictNextPower_ok size) as (j & Hj & Hr & Hle & _); [done|]. exists j. split; [|done].
      assert (60 < j) by (apply (Z.pow_lt_mono_r_iff 2); lia). lia.
    - exists 63. split; [done|]. unfold _dictNextPower. by rewrite (proj2 (Z.leb_le LONG_MAX size)) by (unfold LONG_MAX; pow2s; lia). }
  assert (0 < 2 ^ j) by lia.
  unfold dictExpand. change (dictIsRehashing dictCreate) with false. change (ht_used (ht0 dictCreate)) with 0.
  rewrite (proj2 (Z.ltb_ge size 0)) by lia. cbn [orb]. rewrite E. cbn [mbind option_bind].
  change (ht_size (ht0 dictCreate)) with 0. rewrite (proj2 (Z.eqb_neq (2 ^ j) 0)), buckets_wrap by lia.
  eexists. split_and!; [reflexivity|reflexivity|].
  set (d := set_ht dictCreate 0 _). assert (step_if_rehashing d = Some d) as E1 by done.
  assert (_dictExpandIfNeeded can_resize d = Some (d, DICT_OK)) as E2.
  { unfold _dictExpandIfNeeded. change (dictIsRehashing d) with false. change (ht_size (ht0 d)) with (2 ^ j).
    change (ht_used (ht0 d)) with 0. by rewrite (proj2 (Z.eqb_neq (2 ^ j) 0)), (proj2 (Z.leb_gt (2 ^ j) 0)) by lia. }
  unfold dictAdd, dictAddRaw, _dictKeyIndex. rewrite E1. cbn [mbind option_bind]. rewrite E2.
  cbn [mbind option_bind]. change (DICT_OK =? DICT_ERR) with false. unfold search_tables, search_table.
  change (ht_table (ht0 d)) with (Some (@nil (list entry))). cbn [mbind option_bind].
  assert (forall i, znth (@nil (list entry)) i = None) as -> by (intros i; unfold znth; by destruct (0 <=? i)).
  done.
Qed.

(** [_dictNextPower] returns the least power of two that is at least 4 and at
    least its argument, for every argument up to [2^63]. *)
Lemma dictNextPower_least (size : Z) :
  0 <= size <= 2 ^ 63 ->
  exists k, _dictNextPower size = Some (2 ^ k) /\ 2 <= k <= 63 /\ size <= 2 ^ k /\
    forall j, 2 <= j -> size <= 2 ^ j -> k <= j.
Proof.
  intros Hs. destruct (_dictNextPower_ok size) as (k & Hk & Hr & Hle & Hmin); [lia|].
  exists k. split_and!; try done; try lia. intros j Hj Hsj.
  destruct Hmin as [->|Hmin]; [done|]. apply Z.le_ngt. intros Hlt.
  assert (2 ^ j <= 2 ^ (k - 1)) by (apply Z.pow_le_mono_r; lia). lia.
Qed.

(** *** Clearing *)

Lemma clear_loop_ok fuel (t : list (list entry)) i used :
  0 <= i <= zlen t -> used = zlen (concat (drop (Z.to_nat i) t)) ->
  (length t <= Z.to_nat i + fuel)%nat ->
  exists freed, clear_loop fuel t i (zlen t) used = Some freed /\
    freed = concat (drop (Z.to_nat i) t).
Proof.
  revert i used. induction fuel as [|fuel IH]; intros i used Hi Hu Hf; simpl.
  - assert (Z.to_nat i = length t) as Hi' by (unfold zlen in Hi; lia).
    assert (zlen t <= i) by (unfold zlen; lia).
    rewrite (proj2 (Z.ltb_ge i (zlen t))) by done. simpl.
    exists []. split; [done|]. rewrite Hi'. by rewrite drop_all.
  - destruct (Z.ltb_spec i (zlen t)); simpl.
    2: { exists []. split; [done|]. rewrite drop_ge; [done|]. unfold zlen in *. lia. }
    destruct (znth_is_Some t i) as [b Hb]; [lia|]. rewrite Hb.
    rewrite znth_nat in Hb by lia. pose proof (drop_S _ _ _ Hb) as Hd.
    destruct (Z.ltb_spec 0 used).
    2: { exists []. split; [done|]. symmetry. apply zlen_0_inv.
         pose proof (zlen_nonneg (concat (drop (Z.to_nat i) t))). lia. }
    cbn [mbind option_bind]. rewrite Hd in *. cbn [concat] in *. rewrite zlen_app in Hu.
    destruct (IH (i + 1) (used - zlen b)) as (freed & -> & ->); [lia| |lia|].
    { replace (Z.to_nat (i + 1)) with (S (Z.to_nat i)) by lia. lia. }
    eexists. split; [done|]. by replace (Z.to_nat (i + 1)) with (S (Z.to_nat i)) by lia.
Qed.

Lemma _dictClear_ok h t :
  ht_ok h t -> _dictClear h = Some (concat t, _dictReset).
Proof.
  intros (Ht & _ & Hl & _ & Hu & _). unfold _dictClear. rewrite Ht, <- Hl.
  destruct (clear_loop_ok (length t) t 0 (ht_used h)) as (freed & -> & ->);
    [pose proof (zlen_nonneg t); lia|done|lia|done].
Qed.

(** [dictEmpty] (and [dictRelease], which clears the two tables the same way)
    frees every entry exactly once, although the loop over the buckets stops as
    soon as the [used] counter reaches zero, and leaves a freshly created
    dictionary. *)
Lemma dictEmpty_frees_all (d : dict K V) :
  wf d -> dictEmpty d = Some (entries d, dictCreate).
Proof.
  intros [[(t0 & t1 & H0 & H1 & _)|(_ & [H0|[t0 H0]] & H1)] _]; unfold dictEmpty, entries.
  - by rewrite (_dictClear_ok _ _ H0), (_dictClear_ok _ _ H1), (ht_ok_tbl _ _ H0), (ht_ok_tbl _ _ H1).
  - by rewrite H0, H1.
  - by rewrite (_dictClear_ok _ _ H0), (ht_ok_tbl _ _ H0), H1.
Qed.
End DictSpec.

(** ** A concrete instance: integer keys hashed to themselves *)

#[export] Instance int_dict_type : DictType Z Z := {
  hashFunction k := wrap 64 k;
  keyCompare a b := a =? b;
  keyPtrEq a b := a =? b;
  keyDup k := k;
  valDup v := v
}.

#[export] Instance int_dict_laws : DictTypeLaws Z Z.
Proof.
  constructor; simpl; intros.
  - apply wrap_range. lia.
  - apply Z.eqb_refl.
  - lia.
  - lia.
  - by rewrite (proj1 (Z.eqb_eq a b)).
  - done.
  - apply Z.eqb_refl.
Qed.

Definition sample_ops : list (dict_op (K:=Z) (V:=Z)) :=
  [OpAdd 1 10; OpAdd 5 50; OpAdd 2 20; OpAdd 3 30; OpAdd 9 90; OpAdd 1 11; OpReplace 2 21;
   OpDelete 5; OpFetch 9; OpFetch 5; OpAdd 17 170; OpResize].

(** Five keys: the table has grown from 4 to 8 buckets and the rehash has just
    started. *)
Definition growing_ops : list (dict_op (K:=Z) (V:=Z)) :=
  [OpAdd 1 10; OpAdd 5 50; OpAdd 2 20; OpAdd 3 30; OpAdd 9 90].
Definition growing_dict : dict Z Z :=
  mk_dict
    (mk_ht (Some [[]; [mk_entry 5 50; mk_entry 1 10]; [mk_entry 2 20]; [mk_entry 3 30]]) 4 3 4)
    (mk_ht (Some [[]; [mk_entry 9 90]; []; []; []; []; []; []]) 8 7 1) 0 0.

Lemma growing_wf : wf growing_dict.
Proof.
  destruct (run_ops_models 0 true growing_ops dictCreate (fun _ => None) 0) as (d & n & Hr & Hm).
  - apply dictCreate_models.
  - done.
  - repeat constructor.
  - vm_compute in Hr. simplify_eq. apply Hm.
Qed.

Lemma dict_history_refines_witness :
  exists d, run_ops 0 true dictCreate sample_ops =
      Some (d, [ObsCode 0; ObsCode 0; ObsCode 0; ObsCode 0; ObsCode 0; ObsCode 1; ObsCode 0;
                ObsCode 0; ObsVal (Some 90); ObsVal None; ObsCode 0; ObsNone]) /\
    wf d /\ dmap d 2 = Some 21.
Proof.
  destruct (dict_history_refines 0 true sample_ops) as (d & Hr & Hwf & Hm).
  - done.
  - repeat constructor.
  - exists d. split_and!; [exact Hr|exact Hwf|exact (Hm 2)].
Defined.

Lemma dictRehash_completes_witness :
  dictIsRehashing growing_dict = true /\
  (exists d', rehash_slices 1 growing_dict = Some d' /\ dictIsRehashing d' = false) /\
  exists d' c, dictRehashMilliseconds 1 (fun _ => false) 0 growing_dict 0 = Some (d', c) /\
    dictIsRehashing d' = false.
Proof.
  destruct (dictRehash_completes growing_dict (fun _ => false) growing_wf) as [(d1 & H1 & _ & _ & Hd1) Hms].
  destruct Hms as (d' & c & H & _ & _ & _ & Hd); [by vm_compute|].
  split_and!; [done|by exists d1|]. exists d', c. split; [exact H|by apply Hd].
Defined.


