(* ===== verification/DictScan.v ===== *)
(** * DictScan: the stateless cursor of [dictScan]

    The cursor is incremented with its bits reversed, so that a scan survives
    any number of resizes between two calls.  The file proves the guarantee the
    long comment above [dictScan] claims. *)
From stdpp Require Import base option list numbers.
From Stdlib Require Import ZArith Lia Bool.
From S2P Require Import Prelude Dict.
Open Scope Z_scope.

(** [~m] on [unsigned long] *)
Definition lnot64 (m : Z) : Z := Z.lxor m (Z.ones 64).

(** [v = ((v >> s) & mask) | ((v << s) & ~mask)] *)
Definition swap_bits (s mask v : Z) : Z :=
  Z.lor (Z.land (Z.shiftr v s) mask) (Z.land (u64 (Z.shiftl v s)) (lnot64 mask)).
(** [while ((s >>= 1) > 0) { mask ^= (mask << s); v = ...; }] *)
Fixpoint rev_loop (fuel : nat) (s mask v : Z) : option Z :=
  match fuel with
  | O => None
  | S fuel =>
      let s := Z.shiftr s 1 in
      if 0 <? s then
        let mask := Z.lxor mask (u64 (Z.shiftl mask s)) in
        rev_loop fuel s mask (swap_bits s mask v)
      else Some v
  end.
Definition rev (v : Z) : Z := default 0 (rev_loop 8 64 (Z.ones 64) v).

(** [v |= ~m; v = rev(v); v++; v = rev(v);] *)
Definition next_cursor (v m : Z) : Z := rev (u64 (rev (Z.lor v (lnot64 m)) + 1)).

Section Scan.
Context {K V : Type} `{HT : DictType K V}.

(** The calls the scan makes: [bucketfn(privdata, &t->table[idx])] for one of
    the tables and [fn(privdata, de)]. *)
Inductive scan_event :=
  | EvBucket (table idx : Z)
  | EvEntry (de : dictEntry K V).

Variable has_bucketfn : bool.

(** Emission of the entries of a bucket. *)
Definition emit (d : dict K V) (table idx : Z) : option (list scan_event) :=
  t ← ht_table (get_ht d table);
  b ← znth t idx;
  Some ((if has_bucketfn then [EvBucket table idx] else []) ++ map EvEntry b).

(** The [do ... while (v & (m0 ^ m1))] loop over the larger table. *)
Fixpoint scan_loop (fuel : nat) (d : dict K V) (t1 m0 m1 v : Z) : option (Z * list scan_event) :=
  match fuel with
  | O => None
  | S fuel =>
      ev ← emit d t1 (Z.land v m1);
      let v := next_cursor v m1 in
      if Z.land v (Z.lxor m0 m1) =? 0 then Some (v, ev)
      else '(v, evs) ← scan_loop fuel d t1 m0 m1 v; Some (v, ev ++ evs)
  end.

Definition dictScan (d : dict K V) (v : Z) : option (Z * list scan_event) :=
  if dictSize d =? 0 then Some (0, [])
  else if negb (dictIsRehashing d) then
    let m0 := ht_sizemask (ht0 d) in
    ev ← emit d 0 (Z.land v m0);
    Some (next_cursor v m0, ev)
  else
    let '(t0, t1) := if ht_size (ht1 d) <? ht_size (ht0 d) then (1, 0) else (0, 1) in
    let m0 := ht_sizemask (get_ht d t0) in
    let m1 := ht_sizemask (get_ht d t1) in
    ev ← emit d t0 (Z.land v m0);
    '(v, evs) ← scan_loop (Z.to_nat (ht_size (get_ht d t1))) d t1 m0 m1 v;
    Some (v, ev ++ evs).

(** The entries handed to [fn]. *)
Definition scanned (evs : list scan_event) : list (dictEntry K V) :=
  omap (fun ev => match ev with EvEntry de => Some de | EvBucket _ _ => None end) evs.

(** A client that calls [dictScan] on the successive states of a dictionary,
    each time with the cursor of the previous call. *)
Fixpoint scans (ds : list (dict K V)) (v : Z) : option (Z * list (dictEntry K V)) :=
  match ds with
  | [] => Some (v, [])
  | d :: ds =>
      '(v, evs) ← dictScan d v;
      '(v, out) ← scans ds v;
      Some (v, scanned evs ++ out)
  end.
End Scan.

(** ** Bits *)

Lemma in_u_bits w z : 0 <= w -> (forall i, w <= i -> Z.testbit z i = false) -> in_u w z.
Proof.
  intros Hw Hz. assert (z = z mod 2 ^ w) as ->; [|apply Z.mod_pos_bound; lia].
  apply Z.bits_inj'. intros i Hi. destruct (Z.lt_ge_cases i w).
  - by rewrite Z.mod_pow2_bits_low.
  - rewrite Z.mod_pow2_bits_high by lia. by apply Hz.
Qed.

Lemma bits_in_u w z i : in_u w z -> 0 <= w <= i -> Z.testbit z i = false.
Proof.
  intros Hz Hi. rewrite <- (Z.mod_small z (2 ^ w)) by done. apply Z.mod_pow2_bits_high. lia.
Qed.

Lemma testbit_lnot64 m i : 0 <= i < 64 -> Z.testbit (lnot64 m) i = negb (Z.testbit m i).
Proof.
  intros Hi. unfold lnot64. rewrite Z.lxor_spec, Z.ones_spec_low by lia. by rewrite xorb_true_r.
Qed.

(** The position a bit comes from. *)
Definition source (s mask i : Z) : Z := if Z.testbit mask i then i + s else i - s.

Lemma swap_bits_spec s mask v i :
  0 <= i < 64 -> 0 <= s -> Z.testbit (swap_bits s mask v) i = Z.testbit v (source s mask i).
Proof.
  intros Hi Hs. unfold swap_bits, source, u64, wrap.
  rewrite Z.lor_spec, !Z.land_spec, testbit_lnot64, Z.shiftr_spec, Z.mod_pow2_bits_low,
    Z.shiftl_spec by lia.
  destruct (Z.testbit mask i); simpl.
  - by rewrite andb_true_r, andb_false_r, orb_false_r.
  - by rewrite andb_false_r, andb_true_r.
Qed.

Lemma swap_bits_range s mask v : in_u 64 mask -> in_u 64 (swap_bits s mask v).
Proof.
  intros Hm. apply in_u_bits; [lia|]. intros i Hi. unfold swap_bits, u64, wrap.
  rewrite Z.lor_spec, !Z.land_spec, (bits_in_u 64 mask), Z.mod_pow2_bits_high by (done || lia).
  by rewrite andb_false_r.
Qed.

Lemma rev_unfold v :
  rev v =
  swap_bits 1 0x5555555555555555 (swap_bits 2 0x3333333333333333 (swap_bits 4 0x0F0F0F0F0F0F0F0F
    (swap_bits 8 0x00FF00FF00FF00FF (swap_bits 16 0x0000FFFF0000FFFF
      (swap_bits 32 0x00000000FFFFFFFF v))))).
Proof. reflexivity. Qed.

Lemma rev_bits v i : 0 <= i < 64 -> Z.testbit (rev v) i = Z.testbit v (63 - i).
Proof.
  intros Hi. rewrite rev_unfold.
  set (i1 := source 1 0x5555555555555555 i). set (i2 := source 2 0x3333333333333333 i1).
  set (i4 := source 4 0x0F0F0F0F0F0F0F0F i2). set (i8 := source 8 0x00FF00FF00FF00FF i4).
  set (i16 := source 16 0x0000FFFF0000FFFF i8). set (i32 := source 32 0x00000000FFFFFFFF i16).
  assert (Forall (fun x => 0 <= x < 64) [i1; i2; i4; i8; i16] /\ i32 = 63 - i) as [Hr Hlast].
  { subst i1 i2 i4 i8 i16 i32.
    assert (exists n, i = Z.of_nat n /\ (n < 64)%nat) as (n & -> & Hn).
    { exists (Z.to_nat i). lia. }
    do 64 (destruct n as [|n]; [vm_compute; split; [repeat constructor; done|done]|]). lia. }
  rewrite !list.Forall_cons in Hr. destruct Hr as (? & ? & ? & ? & ? & _).
  rewrite <- Hlast. unfold i32. by rewrite !swap_bits_spec by (done || lia).
Qed.

Lemma rev_range v : in_u 64 (rev v).
Proof. rewrite rev_unfold. apply swap_bits_range. done. Qed.

Lemma rev_involutive_u v : in_u 64 v -> rev (rev v) = v.
Proof.
  intros Hv. apply Z.bits_inj'. intros i Hi. destruct (Z.lt_ge_cases i 64).
  - rewrite !rev_bits by lia. f_equal. lia.
  - rewrite !(bits_in_u 64) by (apply rev_range || done || lia). done.
Qed.

(** ** The reversed cursor as a position

    [rev v] is the position of a cursor on the segment [0, 2^64).  A bucket of a
    table of size [2^k] is a block of [2^(64-k)] positions. *)

Lemma rev_eq_zero v : in_u 64 v -> rev v = 0 -> v = 0.
Proof. intros Hv H0. rewrite <- (rev_involutive_u v Hv), H0. reflexivity. Qed.

Lemma rev_or_mask v k :
  0 <= k <= 64 -> rev (Z.lor v (lnot64 (2 ^ k - 1))) = Z.lor (rev v) (Z.ones (64 - k)).
Proof.
  intros Hk. rewrite Z.sub_1_r, <- Z.ones_equiv. apply Z.bits_inj'. intros i Hi.
  rewrite Z.lor_spec. destruct (Z.lt_ge_cases i 64).
  - rewrite !rev_bits, Z.lor_spec, testbit_lnot64 by lia. f_equal.
    destruct (Z.lt_ge_cases i (64 - k)).
    + rewrite Z.ones_spec_high, Z.ones_spec_low by lia. done.
    + rewrite Z.ones_spec_low, Z.ones_spec_high by lia. done.
  - rewrite Z.ones_spec_high by lia.
    by rewrite !(bits_in_u 64) by (apply rev_range || lia).
Qed.

Lemma lor_ones x j : 0 <= j -> Z.lor x (Z.ones j) = x / 2 ^ j * 2 ^ j + (2 ^ j - 1).
Proof.
  intros Hj. assert (Z.lor x (Z.ones j) = Z.lor (x / 2 ^ j * 2 ^ j) (Z.ones j)) as ->.
  { rewrite <- Z.shiftr_div_pow2, <- Z.shiftl_mul_pow2 by done. apply Z.bits_inj'. intros i Hi.
    rewrite !Z.lor_spec. destruct (Z.lt_ge_cases i j).
    - by rewrite Z.ones_spec_low, !orb_true_r by lia.
    - rewrite Z.shiftl_spec, Z.shiftr_spec by lia. do 2 f_equal. lia. }
  pose proof (Z.add_lor_land (x / 2 ^ j * 2 ^ j) (Z.ones j)) as Hadd.
  rewrite Z.land_ones, Z_mod_mult in Hadd by done. rewrite Z.ones_equiv in *. lia.
Qed.

Lemma rev_next v k :
  0 <= k <= 64 ->
  rev (next_cursor v (2 ^ k - 1)) = u64 ((rev v / 2 ^ (64 - k) + 1) * 2 ^ (64 - k)).
Proof.
  intros Hk. unfold next_cursor. rewrite rev_involutive_u by (apply wrap_range; lia).
  rewrite rev_or_mask, lor_ones by lia. f_equal. lia.
Qed.

Lemma next_range v m : in_u 64 (next_cursor v m).
Proof. apply rev_range. Qed.

(** Two hashes whose positions are in the same block fall in the same bucket. *)
Lemma same_bucket h v k :
  0 <= k <= 64 -> rev h / 2 ^ (64 - k) = rev v / 2 ^ (64 - k) ->
  Z.land h (2 ^ k - 1) = Z.land v (2 ^ k - 1).
Proof.
  intros Hk Heq. rewrite !Z.sub_1_r, <- Z.ones_equiv. apply Z.bits_inj'. intros i Hi.
  rewrite !Z.land_spec. destruct (Z.lt_ge_cases i k).
  - f_equal. rewrite <- !Z.shiftr_div_pow2 in Heq by lia.
    apply (f_equal (fun z => Z.testbit z (k - 1 - i))) in Heq.
    rewrite !Z.shiftr_spec, !rev_bits in Heq by lia.
    by replace (63 - (k - 1 - i + (64 - k))) with i in Heq by lia.
  - by rewrite Z.ones_spec_high, !andb_false_r by lia.
Qed.

Lemma block_eq r p j : 0 <= j -> r <= p < (r / 2 ^ j + 1) * 2 ^ j -> p / 2 ^ j = r / 2 ^ j.
Proof.
  intros Hj [Hl Hu]. apply Z.le_antisymm.
  - assert (p / 2 ^ j < r / 2 ^ j + 1); [|lia]. apply Z.div_lt_upper_bound; lia.
  - apply Z.div_le_mono; lia.
Qed.

(** The exit test of the inner loop: all the bits between the two masks are
    zero exactly when the position is on the boundary of a block of the smaller
    table. *)
Lemma exit_test v k0 k1 :
  0 <= k0 <= k1 -> k1 <= 64 -> rev v mod 2 ^ (64 - k1) = 0 ->
  (Z.land v (Z.lxor (2 ^ k0 - 1) (2 ^ k1 - 1)) = 0 <-> rev v mod 2 ^ (64 - k0) = 0).
Proof.
  intros Hk0 Hk1 Hal. rewrite !Z.sub_1_r, <- !Z.ones_equiv.
  assert (Hlow : forall i, 0 <= i < 64 - k1 -> Z.testbit (rev v) i = false).
  { intros i Hi. apply (f_equal (fun z => Z.testbit z i)) in Hal.
    by rewrite Z.mod_pow2_bits_low, Z.bits_0 in Hal by lia. }
  split; intros H0; apply Z.bits_inj'; intros i Hi; rewrite Z.bits_0.
  - destruct (Z.lt_ge_cases i (64 - k0)); [|apply Z.mod_pow2_bits_high; lia].
    rewrite Z.mod_pow2_bits_low by lia.
    destruct (Z.lt_ge_cases i (64 - k1)); [apply Hlow; lia|].
    apply (f_equal (fun z => Z.testbit z (63 - i))) in H0.
    rewrite Z.land_spec, Z.lxor_spec, Z.ones_spec_high, Z.ones_spec_low, Z.bits_0 in H0 by lia.
    rewrite rev_bits by lia. by rewrite andb_true_r in H0.
  - rewrite Z.land_spec, Z.lxor_spec. destruct (Z.lt_ge_cases i k0).
    + rewrite !Z.ones_spec_low by lia. by rewrite andb_false_r.
    + destruct (Z.lt_ge_cases i k1).
      * apply (f_equal (fun z => Z.testbit z (63 - i))) in H0.
        rewrite Z.mod_pow2_bits_low, rev_bits, Z.bits_0 in H0 by lia.
        replace (63 - (63 - i)) with i in H0 by lia. by rewrite H0.
      * rewrite !Z.ones_spec_high by lia. by rewrite andb_false_r.
Qed.

(** ** The guarantee *)

Section ScanSpec.
Context {K V : Type} `{HT : DictType K V, HL : !DictTypeLaws K V}.
Variable bf : bool.
Abbreviation entry := (dictEntry K V).

(** The position of an entry. *)
Definition pos (e : entry) : Z := rev (hashFunction (de_key e)).

(** [out] has all the entries of [l] whose position is in [lo, hi). *)
Definition covers (l out : list entry) (lo hi : Z) : Prop :=
  forall e, e ∈ l -> lo <= pos e < hi -> e ∈ out.

Lemma covers_app l o1 o2 a b c :
  covers l o1 a b -> covers l o2 b c -> covers l (o1 ++ o2) a c.
Proof.
  intros H1 H2 e He Hp. apply elem_of_app. destruct (Z.lt_ge_cases (pos e) b).
  - left. apply H1; [done|lia].
  - right. apply H2; [done|lia].
Qed.

Lemma scanned_app (a b : list (scan_event (K:=K) (V:=V))) : scanned (a ++ b) = scanned a ++ scanned b.
Proof. unfold scanned. apply omap_app. Qed.

Lemma scanned_entries (b : list entry) : scanned (map EvEntry b) = b.
Proof. unfold scanned. induction b as [|e b IH]; simpl; [done|]. f_equal. apply IH. Qed.

(** One bucket: the whole block around the cursor. *)
Lemma emit_ok d table t k v :
  ht_ok (get_ht d table) t -> 0 <= k <= 64 -> ht_size (get_ht d table) = 2 ^ k ->
  exists ev, emit bf d table (Z.land v (2 ^ k - 1)) = Some ev /\
    (forall e, e ∈ scanned ev -> e ∈ concat t) /\
    covers (concat t) (scanned ev) (rev v) ((rev v / 2 ^ (64 - k) + 1) * 2 ^ (64 - k)).
Proof.
  intros Ht Hk Hs. pose proof Ht as (Htab & _ & Hl & Hm & _ & Hpl).
  assert (0 <= Z.land v (2 ^ k - 1) < zlen t) as Hidx.
  { rewrite Hl, Hs, land_mask by lia. apply Z.mod_pos_bound. lia. }
  unfold emit. rewrite Htab. cbn [mbind option_bind].
  destruct (znth_is_Some t _ Hidx) as [b Hb]. rewrite Hb. cbn [mbind option_bind].
  rewrite znth_nat in Hb by lia. eexists. split; [done|].
  assert (scanned ((if bf then [EvBucket table (Z.land v (2 ^ k - 1))] else []) ++ map EvEntry b) = b) as ->.
  { rewrite scanned_app, scanned_entries. by destruct bf. }
  split.
  - intros e He. apply elem_of_concat. eauto.
  - intros e (i & b' & Hi & He)%elem_of_concat Hp.
    specialize (Hpl i b' Hi). rewrite list.Forall_forall in Hpl. specialize (Hpl e He).
    rewrite Hm, Hs in Hpl.
    rewrite (same_bucket _ v k) in Hpl; [|done|].
    2: { apply block_eq; [lia|done]. }
    rewrite Hpl, Nat2Z.id, Hi in Hb. by simplify_eq.
Qed.

(** Stepping the cursor inside a block of the smaller table. *)
Lemma step_in_block r a b :
  0 <= b <= a -> let Q := (r / 2 ^ a + 1) * 2 ^ a in let r' := (r / 2 ^ b + 1) * 2 ^ b in
  r < r' <= Q /\ (r' < Q -> r' / 2 ^ a = r / 2 ^ a /\ r' mod 2 ^ a <> 0).
Proof.
  intros Hab Q r'.
  assert (0 < 2 ^ b) by lia. assert (0 < 2 ^ a) by lia.
  assert (2 ^ a = 2 ^ (a - b) * 2 ^ b) as Hpow by (rewrite <- Z.pow_add_r by lia; f_equal; lia).
  assert (0 < 2 ^ (a - b)) by lia.
  pose proof (Z.div_mod r (2 ^ b)) as Eb. pose proof (Z.mod_pos_bound r (2 ^ b)) as Mb.
  pose proof (Z.div_mod r (2 ^ a)) as Ea. pose proof (Z.mod_pos_bound r (2 ^ a)) as Ma.
  assert (r / 2 ^ b < (r / 2 ^ a + 1) * 2 ^ (a - b)) as Hlt.
  { apply Z.div_lt_upper_bound; [lia|]. nia. }
  assert (r < r') by (unfold r'; nia).
  assert (r' <= Q) by (unfold r', Q; nia).
  split; [done|]. intros HQ.
  assert (r' / 2 ^ a = r / 2 ^ a) as Hd.
  { symmetry. apply Z.div_unique with (r' - 2 ^ a * (r / 2 ^ a)); [|lia]. unfold Q in HQ. lia. }
  split; [done|]. pose proof (Z.div_mod r' (2 ^ a)) as E'. intros Hm0. rewrite Hd, Hm0 in E'. lia.
Qed.

Lemma block_end_le r k :
  0 <= k <= 64 -> in_u 64 r -> (r / 2 ^ (64 - k) + 1) * 2 ^ (64 - k) <= 2 ^ 64.
Proof.
  intros Hk [Hr1 Hr2].
  assert (2 ^ 64 = 2 ^ k * 2 ^ (64 - k)) as Hpow by (rewrite <- Z.pow_add_r by lia; f_equal; lia).
  rewrite Hpow. apply Z.mul_le_mono_nonneg_r; [lia|].
  assert (r / 2 ^ (64 - k) < 2 ^ k); [|lia].
  apply Z.div_lt_upper_bound; [lia|]. rewrite Z.mul_comm, <- Hpow. lia.
Qed.

Lemma block_bounds v k :
  0 <= k <= 64 -> rev v < (rev v / 2 ^ (64 - k) + 1) * 2 ^ (64 - k) <= 2 ^ 64.
Proof.
  intros Hk. split.
  - by destruct (step_in_block (rev v) (64 - k) (64 - k)) as [[? _] _]; [lia|].
  - apply block_end_le; [lia|apply rev_range].
Qed.

Lemma u64_aligned x b : 0 <= b <= 64 -> u64 (x * 2 ^ b) mod 2 ^ b = 0.
Proof.
  intros Hb. unfold u64, wrap. replace 64 with (b + (64 - b)) by lia.
  rewrite Z.pow_add_r, (Z.mul_comm x), Z.mul_mod_distr_l, Z.mul_comm by lia. apply Z_mod_mult.
Qed.

Lemma scan_loop_ok fuel d table t k0 k1 v :
  ht_ok (get_ht d table) t -> ht_size (get_ht d table) = 2 ^ k1 -> 0 <= k0 <= k1 -> k1 <= 64 ->
  let a := 64 - k0 in let b := 64 - k1 in
  let Q := (rev v / 2 ^ a + 1) * 2 ^ a in
  Q / 2 ^ b - rev v / 2 ^ b <= Z.of_nat fuel ->
  exists v' evs, scan_loop bf fuel d table (2 ^ k0 - 1) (2 ^ k1 - 1) v = Some (v', evs) /\
    in_u 64 v' /\ rev v' = u64 Q /\
    (forall e, e ∈ scanned evs -> e ∈ concat t) /\ covers (concat t) (scanned evs) (rev v) Q.
Proof.
  intros Ht Hs Hk0 Hk1 a b. revert v. induction fuel as [|fuel IH]; intros v Q Hf;
    destruct (step_in_block (rev v) a b) as [Hr Hblk]; try lia; fold Q in Hr, Hblk.
  { exfalso. assert (rev v / 2 ^ b + 1 <= Q / 2 ^ b); [|lia]. apply Z.div_le_lower_bound; lia. }
  cbn [scan_loop]. destruct (emit_ok d table t k1 v Ht) as (ev & -> & Hin & Hcov); [lia|done|].
  cbn [mbind option_bind]. fold b in Hcov.
  set (v2 := next_cursor v (2 ^ k1 - 1)). set (r2 := (rev v / 2 ^ b + 1) * 2 ^ b) in *.
  assert (rev v2 = u64 r2) as Hrev2 by (apply rev_next; lia).
  assert (Hal : rev v2 mod 2 ^ b = 0) by (rewrite Hrev2; apply u64_aligned; lia).
  pose proof (exit_test v2 k0 k1 Hk0 Hk1 Hal) as Hexit. fold a in Hexit.
  destruct (Z.lt_ge_cases r2 Q) as [Hlt|Hge].
  - pose proof (block_end_le (rev v) k0 ltac:(lia) (rev_range v)) as HQ. fold a Q in HQ.
    unfold u64 in Hrev2. rewrite wrap_id in Hrev2 by (pose proof (rev_range v); unfold in_u in *; lia).
    destruct (Hblk Hlt) as [Hdiv Hmod].
    rewrite (proj2 (Z.eqb_neq _ _)) by (rewrite Hexit, Hrev2; done).
    assert (r2 / 2 ^ b = rev v / 2 ^ b + 1) as Hdb by (apply Z.div_mul; lia).
    destruct (IH v2) as (v' & evs & -> & Hv' & Hrev' & Hin' & Hcov').
    { rewrite Hrev2, Hdiv, Hdb. fold Q. lia. }
    rewrite Hrev2, Hdiv in Hrev', Hcov'. fold Q in Hrev', Hcov'. cbn [mbind option_bind].
    exists v', (ev ++ evs). rewrite scanned_app. split_and!; try done.
    + intros e [?|?]%elem_of_app; auto.
    + by eapply covers_app.
  - assert (r2 = Q) as HrQ by lia. rewrite HrQ in *.
    rewrite (proj2 (Z.eqb_eq _ _)) by (apply Hexit; rewrite Hrev2; apply u64_aligned; lia).
    exists v2, ev. split_and!; try done; apply next_range.
Qed.

(** The number of iterations of the inner loop is at most the size of the
    larger table. *)
Lemma scan_fuel_enough r k0 k1 :
  0 <= k0 <= k1 -> k1 <= 64 ->
  (r / 2 ^ (64 - k0) + 1) * 2 ^ (64 - k0) / 2 ^ (64 - k1) - r / 2 ^ (64 - k1) <= 2 ^ k1.
Proof.
  intros Hk0 Hk1.
  set (a := 64 - k0). set (b := 64 - k1).
  assert (2 ^ a = 2 ^ (a - b) * 2 ^ b) as Hpow by (rewrite <- Z.pow_add_r by lia; f_equal; lia).
  rewrite Hpow, Z.mul_assoc, Z.div_mul by lia. rewrite <- Hpow.
  assert (r / 2 ^ a * 2 ^ (a - b) <= r / 2 ^ b) as Hle.
  { apply Z.div_le_lower_bound; [lia|]. pose proof (Z.mul_div_le r (2 ^ a)). nia. }
  assert (2 ^ (a - b) <= 2 ^ k1) by (apply Z.pow_le_mono_r; lia). lia.
Qed.

(** Both tables, the smaller one first. *)
Lemma scan_two d ta tb la lb ka kb v :
  ht_ok (get_ht d ta) la -> ht_size (get_ht d ta) = 2 ^ ka ->
  ht_ok (get_ht d tb) lb -> ht_size (get_ht d tb) = 2 ^ kb -> 0 <= ka <= kb -> kb <= 64 ->
  let Q := (rev v / 2 ^ (64 - ka) + 1) * 2 ^ (64 - ka) in
  exists v' ev evs, emit bf d ta (Z.land v (2 ^ ka - 1)) = Some ev /\
    scan_loop bf (Z.to_nat (2 ^ kb)) d tb (2 ^ ka - 1) (2 ^ kb - 1) v = Some (v', evs) /\
    in_u 64 v' /\ rev v' = u64 Q /\
    (forall e, e ∈ scanned (ev ++ evs) -> e ∈ concat la ++ concat lb) /\
    covers (concat la ++ concat lb) (scanned (ev ++ evs)) (rev v) Q.
Proof.
  intros Ha Hsa Hb Hsb Hk Hkb Q.
  destruct (emit_ok d ta la ka v Ha) as (ev & -> & Hin & Hcov); [lia|done|]. fold Q in Hcov.
  destruct (scan_loop_ok (Z.to_nat (2 ^ kb)) d tb lb ka kb v Hb Hsb Hk Hkb)
    as (v' & evs & -> & Hv' & Hrev & Hin' & Hcov'); fold Q.
  { rewrite Z2Nat.id by lia. by apply scan_fuel_enough. }
  exists v', ev, evs. rewrite scanned_app. split_and!; try done.
  - intros e [?|?]%elem_of_app; apply elem_of_app; auto.
  - intros e [He|He]%elem_of_app Hp; apply elem_of_app; auto.
Qed.

(** The number of buckets of the smaller table. *)
Definition scan_size (d : dict K V) : Z :=
  if dictIsRehashing d then Z.min (ht_size (ht0 d)) (ht_size (ht1 d)) else ht_size (ht0 d).

(** One call: the cursor advances to the boundary [Q] of a block, and every entry
    between the two cursors is emitted. *)
Lemma dictScan_ok d v :
  wf d -> dictSize d <> 0 ->
  exists k v' evs, 2 <= k <= 63 /\ scan_size d = 2 ^ k /\
    let Q := (rev v / 2 ^ (64 - k) + 1) * 2 ^ (64 - k) in
    dictScan bf d v = Some (v', evs) /\ in_u 64 v' /\ rev v' = u64 Q /\
    (forall e, e ∈ scanned evs -> e ∈ entries d) /\ covers (entries d) (scanned evs) (rev v) Q.
Proof.
  intros Hwf Hne. unfold dictScan, scan_size. rewrite (proj2 (Z.eqb_neq _ _)) by done.
  destruct (dictIsRehashing d) eqn:Hre; cbn [negb].
  - destruct (wf_rehashing _ Hwf Hre) as (t0 & t1 & H0 & H1 & Hns & _).
    pose proof H0 as (_ & (k0 & Hk0 & Hs0) & _ & Hm0 & _).
    pose proof H1 as (_ & (k1 & Hk1 & Hs1) & _ & Hm1 & _).
    unfold entries. rewrite (ht_ok_tbl _ _ H0), (ht_ok_tbl _ _ H1).
    destruct (Z.ltb_spec (ht_size (ht1 d)) (ht_size (ht0 d))) as [Hlt|Hge];
      cbv zeta beta iota; change (get_ht d 1) with (ht1 d); change (get_ht d 0) with (ht0 d);
      rewrite Hm0, Hm1, Hs0, Hs1.
    + assert (k1 <= k0) by (apply Z.lt_le_incl, (Z.pow_lt_mono_r_iff 2); lia).
      destruct (scan_two d 1 0 t1 t0 k1 k0 v) as (v' & ev & evs & -> & Hl & Hv' & Hr & Hin & Hc);
        try done; [lia|lia|].
      cbn [mbind option_bind]. rewrite Hl. cbn [mbind option_bind].
      exists k1, v', (ev ++ evs). split_and!; try done; [lia|lia|lia| |].
      * intros e He. rewrite Permutation_app_comm. by apply Hin.
      * intros e He. rewrite Permutation_app_comm in He. by apply Hc.
    + assert (k0 <= k1) by (apply (Z.pow_le_mono_r_iff 2); lia).
      destruct (scan_two d 0 1 t0 t1 k0 k1 v) as (v' & ev & evs & -> & Hl & Hv' & Hr & Hin & Hc);
        try done; [lia|lia|].
      cbn [mbind option_bind]. rewrite Hl. cbn [mbind option_bind].
      exists k0, v', (ev ++ evs). split_and!; try done; lia.
  - destruct (wf_stable _ Hwf Hre) as (_ & [H0|[t0 H0]] & H1).
    { exfalso. apply Hne. unfold dictSize. by rewrite H0, H1. }
    pose proof H0 as (_ & (k0 & Hk0 & Hs0) & _ & Hm0 & _). rewrite Hm0, Hs0.
    destruct (emit_ok d 0 t0 k0 v) as (ev & -> & Hin & Hcov); [done|lia|done|].
    cbn [mbind option_bind]. eexists k0, _, ev. split; [done|]. split; [done|]. split; [done|].
    unfold entries. rewrite (ht_ok_tbl _ _ H0), H1, app_nil_r.
    split; [apply next_range|]. split; [apply rev_next; lia|done].
Qed.

Definition has_key (k : K) (l : list entry) : Prop :=
  exists e, e ∈ l /\ keyCompare k (de_key e) = true.

Lemma has_key_app k l1 l2 : has_key k l1 \/ has_key k l2 -> has_key k (l1 ++ l2).
Proof. intros [(e & He & Hk)|(e & He & Hk)]; exists e; rewrite elem_of_app; auto. Qed.

(** A key ahead of the cursor is either emitted by the call or still ahead of a
    cursor that is not zero. *)
Lemma dictScan_step d v k :
  wf d -> has_key k (entries d) -> rev v <= rev (hashFunction k) ->
  exists v' evs, dictScan bf d v = Some (v', evs) /\
    (forall e, e ∈ scanned evs -> e ∈ entries d) /\
    (has_key k (scanned evs) \/ v' <> 0 /\ rev v' <= rev (hashFunction k)).
Proof.
  intros Hwf (e & He & Hk) Hle.
  destruct (dictScan_ok d v Hwf) as (n & v' & evs & Hn & _ & Hs & Hv' & Hrev & Hin & Hcov).
  { intros Hz. unfold dictSize in Hz. rewrite used_entries in Hz by done.
    apply zlen_0_inv in Hz. rewrite Hz in He. by apply elem_of_nil in He. }
  exists v', evs. split_and!; try done.
  pose proof (block_bounds v n ltac:(lia)) as HQ. set (Q := _ * 2 ^ (64 - n)) in *.
  assert (pos e = rev (hashFunction k)) as Hpos by (unfold pos; by rewrite (cmp_hash _ _ Hk)).
  destruct (Z.lt_ge_cases (pos e) Q).
  - left. exists e. split; [|done]. apply Hcov; [done|lia].
  - right. pose proof (rev_range (hashFunction k)). pose proof (rev_range v). unfold in_u in *.
    unfold u64 in Hrev. rewrite wrap_id in Hrev by (unfold in_u; lia).
    split; [|lia]. intros ->. change (rev 0) with 0 in Hrev. lia.
Qed.

Lemma scans_total ds v :
  Forall wf ds -> exists v' out, scans bf ds v = Some (v', out) /\
    forall e, e ∈ out -> exists d, d ∈ ds /\ e ∈ entries d.
Proof.
  revert v. induction ds as [|d ds IH]; intros v Hds.
  { exists v, []. split; [done|]. intros e He. by apply elem_of_nil in He. }
  apply list.Forall_cons in Hds as [Hwf Hds].
  assert (exists v1 evs, dictScan bf d v = Some (v1, evs) /\
    forall e, e ∈ scanned evs -> e ∈ entries d) as (v1 & evs & Hs & Hin).
  { destruct (decide (dictSize d = 0)) as [Hz|Hz].
    - exists 0, []. unfold dictScan. rewrite Hz. split; [done|].
      intros e He. by apply elem_of_nil in He.
    - destruct (dictScan_ok d v Hwf Hz) as (n & v1 & evs & _ & _ & Hs & _ & _ & Hin & _). eauto. }
  simpl. rewrite Hs. cbn [mbind option_bind].
  destruct (IH v1 Hds) as (v' & out & -> & Hout). cbn [mbind option_bind].
  exists v', (scanned evs ++ out). split; [done|]. intros e [He|He]%elem_of_app.
  - exists d. split; [left|auto].
  - destruct (Hout e He) as (d' & Hd' & He'). exists d'. split; [by right|done].
Qed.

Lemma scans_ok ds v k :
  Forall (fun d => wf d /\ has_key k (entries d)) ds -> rev v <= rev (hashFunction k) ->
  exists v' out, scans bf ds v = Some (v', out) /\ (has_key k out \/ (ds <> [] -> v' <> 0)).
Proof.
  revert v. induction ds as [|d ds IH]; intros v Hds Hle; [by exists v, []; auto|].
  apply list.Forall_cons in Hds as [[Hwf Hk] Hds].
  destruct (dictScan_step d v k Hwf Hk Hle) as (v1 & evs & Hs & _ & Hor).
  simpl. rewrite Hs. cbn [mbind option_bind].
  destruct Hor as [Hin|[Hne Hle1]].
  - destruct (scans_total ds v1) as (v' & out & -> & _).
    { eapply list.Forall_impl; [done|]. by intros ? [? _]. }
    exists v', (scanned evs ++ out). split; [done|]. left. apply has_key_app. auto.
  - destruct (IH v1 Hds Hle1) as (v' & out & Hrun & Hor). rewrite Hrun. cbn [mbind option_bind].
    exists v', (scanned evs ++ out). split; [done|]. destruct Hor as [?|Hnz].
    + left. apply has_key_app. auto.
    + right. intros _. destruct ds as [|d' ds]; [|by apply Hnz]. simpl in Hrun. congruence.
Qed.

(** C3: the SCAN guarantee.  Let a client call [dictScan] on a dictionary with
    cursor 0 and then with the cursor of the previous call, while between the
    calls the dictionary may change in any way (inserts, deletes, growing,
    shrinking, any amount of incremental rehashing: the states [ds] are only
    required to be well formed).  Every call succeeds, only entries of the
    dictionary are returned, and when the cursor comes back to 0 every key that
    was in the dictionary during the whole iteration has been returned. *)
Theorem dictScan_complete (ds : list (dict K V)) (k : K) :
  ds <> [] -> Forall (fun d => wf d /\ exists v, dmap d k = Some v) ds ->
  exists v' out, scans bf ds 0 = Some (v', out) /\
    (forall e, e ∈ out -> exists d, d ∈ ds /\ e ∈ entries d) /\
    (v' = 0 -> exists e, e ∈ out /\ keyCompare k (de_key e) = true).
Proof.
  intros Hne Hds. assert (Forall (fun d => wf d /\ has_key k (entries d)) ds) as Hds'.
  { eapply list.Forall_impl; [done|]. intros d (Hwf & w & Hw). split; [done|].
    apply assoc_Some in Hw as (e & He & Hk & _). by exists e. }
  assert (Forall wf ds) as Hwf by (eapply list.Forall_impl; [done|]; by intros ? [? _]).
  destruct (scans_ok ds 0 k Hds') as (v' & out & Hrun & Hor).
  { change (rev 0) with 0. apply rev_range. }
  destruct (scans_total ds 0 Hwf) as (v2 & out2 & Hrun2 & Hin).
  rewrite Hrun in Hrun2. injection Hrun2 as <- <-. exists v', out. split_and!; try done. intros ->. destruct Hor as [?|Hnz]; [done|].
  by destruct (Hnz Hne).
Qed.

Lemma scans_cycle d k i v :
  wf d -> dictSize d <> 0 -> scan_size d = 2 ^ k -> 2 <= k <= 63 -> (Z.of_nat (S i) <= 2 ^ k) ->
  rev v = (2 ^ k - Z.of_nat (S i)) * 2 ^ (64 - k) ->
  exists out, scans bf (replicate (S i) d) v = Some (0, out) /\
    covers (entries d) out (rev v) (2 ^ 64).
Proof.
  intros Hwf Hne Hk Hk2. revert v. induction i as [|i IH]; intros v Hi Hv;
    destruct (dictScan_ok d v Hwf Hne) as (k' & v' & evs & Hk' & Hs' & Hs & Hv' & Hrev & _ & Hcov);
    assert (k' = k) as -> by (apply (Z.pow_inj_r 2); [lia..|congruence]);
    rewrite Hv, Z.div_mul in Hrev, Hcov by lia;
    assert (2 ^ k * 2 ^ (64 - k) = 2 ^ 64) as Hpow by (rewrite <- Z.pow_add_r by lia; f_equal; lia).
  - replace (2 ^ k - Z.of_nat 1 + 1) with (2 ^ k) in Hrev, Hcov by lia. rewrite Hpow in Hrev, Hcov.
    assert (v' = 0) as -> by (apply rev_eq_zero; [done|by rewrite Hrev]).
    simpl. rewrite Hs. cbn [mbind option_bind]. exists (scanned evs ++ []). split; [done|].
    rewrite app_nil_r, Hv. done.
  - replace (2 ^ k - Z.of_nat (S (S i)) + 1) with (2 ^ k - Z.of_nat (S i)) in Hrev, Hcov by lia.
    unfold u64 in Hrev. rewrite wrap_id in Hrev by (unfold in_u; nia).
    destruct (IH v') as (out & Hrun & Hcov'); [lia|done|].
    change (replicate (S (S i)) d) with (d :: replicate (S i) d).
    cbn [scans]. rewrite Hs. cbn [mbind option_bind]. rewrite Hrun. cbn [mbind option_bind].
    exists (scanned evs ++ out). split; [done|]. eapply covers_app; [by rewrite Hv|].
    by rewrite <- Hrev.
Qed.

(** C35: a scan of a dictionary that does not change terminates: as many calls as
    the smaller table has buckets bring the cursor back to 0, and return all the
    entries, also in the middle of a rehash. *)
Theorem dictScan_terminates (d : dict K V) :
  wf d -> dictSize d <> 0 ->
  exists out, scans bf (replicate (Z.to_nat (scan_size d)) d) 0 = Some (0, out) /\
    forall e, e ∈ entries d -> e ∈ out.
Proof.
  intros Hwf Hne.
  destruct (dictScan_ok d 0 Hwf Hne) as (k & _ & _ & Hk & Hs & _).
  destruct (scans_cycle d k (Z.to_nat (scan_size d) - 1) 0 Hwf Hne Hs Hk) as (out & Hrun & Hcov).
  - rewrite Hs. lia.
  - rewrite Hs. change (rev 0) with 0. assert (0 < 2 ^ k) by lia.
    replace (Z.of_nat (S (Z.to_nat (2 ^ k) - 1))) with (2 ^ k) by lia. lia.
  - replace (S (Z.to_nat (scan_size d) - 1)) with (Z.to_nat (scan_size d)) in Hrun by (rewrite Hs; lia).
    exists out. split; [done|]. intros e He. apply Hcov; [done|]. apply rev_range.
Qed.
End ScanSpec.

(** [rev] reverses the 64 bits of its argument, and is its own inverse. *)
Lemma rev_reverses (v : Z) :
  in_u 64 v ->
  in_u 64 (rev v) /\ (forall i, 0 <= i < 64 -> Z.testbit (rev v) i = Z.testbit v (63 - i)) /\
  rev (rev v) = v.
Proof.
  intros Hv. split_and!; [apply rev_range| |by apply rev_involutive_u].
  intros i Hi. by apply rev_bits.
Qed.

(** A scan with a growth in the middle: two calls on the table of 4 buckets, then
    the table is being rehashed to 8 buckets until the cursor returns to 0. *)
Definition small_ops : list (dict_op (K:=Z) (V:=Z)) :=
  [OpAdd 1 10; OpAdd 5 50; OpAdd 2 20; OpAdd 3 30].
Definition small_dict : dict Z Z :=
  mk_dict (mk_ht (Some [[]; [mk_entry 5 50; mk_entry 1 10]; [mk_entry 2 20]; [mk_entry 3 30]]) 4 3 4)
    _dictReset (-1) 0.
Lemma small_wf : wf small_dict.
Proof.
  destruct (run_ops_models 0 true small_ops dictCreate (fun _ => None) 0) as (d & n & Hr & Hm);
    [apply dictCreate_models|done|repeat constructor|].
  vm_compute in Hr. simplify_eq. apply Hm.
Qed.

Definition sample_states : list (dict Z Z) := [small_dict; small_dict; growing_dict; growing_dict].

Lemma dictScan_complete_witness :
  exists out, scans false sample_states 0 = Some (0, out) /\ exists e, e ∈ out /\ (3 =? de_key e) = true.
Proof.
  destruct (dictScan_complete false sample_states 3) as (v' & out & Hrun & _ & Hk).
  - discriminate.
  - repeat (apply List.Forall_cons;
      [split; [first [apply small_wf | apply growing_wf] | exists 30; reflexivity]|]).
    apply List.Forall_nil.
  - assert (v' = 0) as -> by (vm_compute in Hrun; congruence).
    exists out. split; [exact Hrun|]. by apply Hk.
Defined.

Lemma dictScan_terminates_witness :
  exists out, scans true (replicate 4 growing_dict) 0 = Some (0, out) /\
    forall e, e ∈ entries growing_dict -> e ∈ out.
Proof. apply (dictScan_terminates true growing_dict); [apply growing_wf|discriminate]. Defined.
