(* ===== verification/Adlist.v ===== *)
(** * Adlist: the doubly linked list of [adlist.c]

    The nodes live in an explicit heap; pointers are positive numbers and NULL
    is [None].  Reading or writing through NULL or through a dangling pointer
    makes the result [None], so the theorems also state memory safety.  The
    result of [zmalloc] is an argument: [None] when the allocation fails, a
    pointer that is not in the heap otherwise.  *)
From stdpp Require Import base option list numbers gmap.
From Stdlib Require Import ZArith Lia Bool.
From S2P Require Import Prelude.
Open Scope Z_scope.

Abbreviation ptr := positive.

Section Adlist.
Context {V : Type} `{HV : EqDecision V}.

(** ** Data *)

Record listNode := mk_node {
  n_prev : option ptr;
  n_next : option ptr;
  n_value : V
}.
Abbreviation heap := (gmap ptr listNode).

(** [dup] returns [None] when it fails; of the [free] method only its presence
    is kept, the operations return the values handed to it. *)
Record alist := mk_list {
  l_head : option ptr;
  l_tail : option ptr;
  l_dup : option (V -> option V);
  l_free : bool;
  l_match : option (V -> V -> bool);
  l_len : Z
}.

Inductive direction := AL_START_HEAD | AL_START_TAIL.
Record listIter := mk_iter { i_next : option ptr; i_direction : direction }.

(** [p->next = x] and [p->prev = x] *)
Definition set_next (h : heap) (p x : option ptr) : option heap :=
  p ← p; n ← h !! p; Some (<[p := mk_node (n_prev n) x (n_value n)]> h).
Definition set_prev (h : heap) (p x : option ptr) : option heap :=
  p ← p; n ← h !! p; Some (<[p := mk_node x (n_next n) (n_value n)]> h).

Definition with_ends (l : alist) (head tail : option ptr) (len : Z) : alist :=
  mk_list head tail (l_dup l) (l_free l) (l_match l) len.

(** ** Operations *)

Definition listCreate : alist := mk_list None None None false None 0.

(** [while(len--) { ... }] *)
Fixpoint empty_loop (len : nat) (h : heap) (current : option ptr) : option (heap * list V) :=
  match len with
  | O => Some (h, [])
  | S len =>
      c ← current;
      n ← h !! c;
      '(h, freed) ← empty_loop len (delete c h) (n_next n);
      Some (h, n_value n :: freed)
  end.
Definition listEmpty (h : heap) (l : alist) : option (heap * alist * list V) :=
  '(h, freed) ← empty_loop (Z.to_nat (l_len l)) h (l_head l);
  Some (h, with_ends l None None 0, if l_free l then freed else []).

Definition listAddNodeHead (node : option ptr) (h : heap) (l : alist) (value : V)
    : option (heap * alist * bool) :=
  match node with
  | None => Some (h, l, false)
  | Some p =>
      if l_len l =? 0 then
        Some (<[p := mk_node None None value]> h, with_ends l (Some p) (Some p) (u64 (l_len l + 1)), true)
      else
        let h := <[p := mk_node None (l_head l) value]> h in
        h ← set_prev h (l_head l) (Some p);
        Some (h, with_ends l (Some p) (l_tail l) (u64 (l_len l + 1)), true)
  end.

Definition listAddNodeTail (node : option ptr) (h : heap) (l : alist) (value : V)
    : option (heap * alist * bool) :=
  match node with
  | None => Some (h, l, false)
  | Some p =>
      if l_len l =? 0 then
        Some (<[p := mk_node None None value]> h, with_ends l (Some p) (Some p) (u64 (l_len l + 1)), true)
      else
        let h := <[p := mk_node (l_tail l) None value]> h in
        h ← set_next h (l_tail l) (Some p);
        Some (h, with_ends l (l_head l) (Some p) (u64 (l_len l + 1)), true)
  end.

Definition listInsertNode (node : option ptr) (h : heap) (l : alist) (old_node : ptr) (value : V)
    (after : bool) : option (heap * alist * bool) :=
  match node with
  | None => Some (h, l, false)
  | Some p =>
      o ← h !! old_node;
      let '(prev, next, head, tail) :=
        if after then
          (Some old_node, n_next o, l_head l,
           if decide (l_tail l = Some old_node) then Some p else l_tail l)
        else
          (n_prev o, Some old_node,
           (if decide (l_head l = Some old_node) then Some p else l_head l), l_tail l) in
      let h := <[p := mk_node prev next value]> h in
      h ← match prev with Some q => set_next h (Some q) (Some p) | None => Some h end;
      h ← match next with Some q => set_prev h (Some q) (Some p) | None => Some h end;
      Some (h, with_ends l head tail (u64 (l_len l + 1)), true)
  end.

(** Returns what was handed to the [free] method. *)
Definition listDelNode (h : heap) (l : alist) (node : ptr) : option (heap * alist * list V) :=
  n ← h !! node;
  '(h, head) ← match n_prev n with
               | Some q => h ← set_next h (Some q) (n_next n); Some (h, l_head l)
               | None => Some (h, n_next n)
               end;
  n ← h !! node;
  '(h, tail) ← match n_next n with
               | Some q => h ← set_prev h (Some q) (n_prev n); Some (h, l_tail l)
               | None => Some (h, n_prev n)
               end;
  n ← h !! node;
  Some (delete node h, with_ends l head tail (u64 (l_len l - 1)),
        if l_free l then [n_value n] else []).

Definition listGetIterator (l : alist) (d : direction) : listIter :=
  mk_iter (match d with AL_START_HEAD => l_head l | AL_START_TAIL => l_tail l end) d.
Definition listRewind (l : alist) : listIter := mk_iter (l_head l) AL_START_HEAD.
Definition listRewindTail (l : alist) : listIter := mk_iter (l_tail l) AL_START_TAIL.

Definition listNext (h : heap) (iter : listIter) : option (listIter * option ptr) :=
  match i_next iter with
  | None => Some (iter, None)
  | Some c =>
      n ← h !! c;
      Some (mk_iter (match i_direction iter with
                     | AL_START_HEAD => n_next n
                     | AL_START_TAIL => n_prev n
                     end) (i_direction iter), Some c)
  end.

(** The loop of [listDup]; [nodes] are the results of the allocations. *)
Fixpoint dup_loop (fuel : nat) (nodes : list (option ptr)) (h : heap) (copy : alist) (iter : listIter)
    : option (heap * option alist) :=
  match fuel with
  | O => None
  | S fuel =>
      '(iter, node) ← listNext h iter;
      match node with
      | None => Some (h, Some copy)
      | Some c =>
          n ← h !! c;
          let value := match l_dup copy with Some dup => dup (n_value n) | None => Some (n_value n) end in
          match value with
          | None => '(h, _, _) ← listEmpty h copy; Some (h, None)
          | Some value =>
              node ← head nodes;
              '(h, copy, added) ← listAddNodeTail node h copy value;
              if (added : bool) then dup_loop fuel (tail nodes) h copy iter
              else '(h, _, _) ← listEmpty h copy; Some (h, None)
          end
      end
  end.
Definition listDup (fuel : nat) (nodes : list (option ptr)) (h : heap) (orig : alist)
    : option (heap * option alist) :=
  dup_loop fuel nodes h (mk_list None None (l_dup orig) (l_free orig) (l_match orig) 0)
    (listRewind orig).

Fixpoint search_key_loop (fuel : nat) (h : heap) (l : alist) (key : V) (iter : listIter)
    : option (option ptr) :=
  match fuel with
  | O => None
  | S fuel =>
      '(iter, node) ← listNext h iter;
      match node with
      | None => Some None
      | Some c =>
          n ← h !! c;
          let found := match l_match l with
                       | Some f => f (n_value n) key
                       | None => bool_decide (key = n_value n)
                       end in
          if found then Some (Some c) else search_key_loop fuel h l key iter
      end
  end.
Definition listSearchKey (h : heap) (l : alist) (key : V) : option (option ptr) :=
  search_key_loop (S (size h)) h l key (listRewind l).

(** [while(index-- && n) n = n->next;] (or [prev]) *)
Fixpoint index_loop (fuel : nat) (h : heap) (forward : bool) (index : Z) (n : option ptr)
    : option (option ptr) :=
  match fuel with
  | O => None
  | S fuel =>
      if index =? 0 then Some n
      else match n with
           | None => Some None
           | Some c =>
               x ← h !! c;
               index_loop fuel h forward (index - 1) (if forward then n_next x else n_prev x)
           end
  end.
(** For [LONG_MIN] both steps of [(-index)-1] wrap around, to the same value. *)
Definition listIndex (h : heap) (l : alist) (index : Z) : option (option ptr) :=
  if index <? 0 then index_loop (S (S (size h))) h false (- index - 1) (l_tail l)
  else index_loop (S (S (size h))) h true index (l_head l).

Definition listRotate (h : heap) (l : alist) : option (heap * alist) :=
  let tail := l_tail l in
  if l_len l <=? 1 then Some (h, l)
  else
    t ← tail;
    n ← h !! t;
    let new_tail := n_prev n in
    h ← set_next h new_tail None;
    h ← set_prev h (l_head l) tail;
    h ← set_prev h tail None;
    h ← set_next h tail (l_head l);
    Some (h, with_ends l tail new_tail (l_len l)).

Definition listJoin (h : heap) (l o : alist) : option (heap * alist * alist) :=
  h ← match l_head o with Some _ => set_prev h (l_head o) (l_tail l) | None => Some h end;
  '(h, head) ← match l_tail l with
               | Some _ => h ← set_next h (l_tail l) (l_head o); Some (h, l_head l)
               | None => Some (h, l_head o)
               end;
  let tail := match l_tail o with Some _ => l_tail o | None => l_tail l end in
  Some (h, with_ends l head tail (u64 (l_len l + l_len o)), with_ends o None None 0).
End Adlist.
Arguments listNode : clear implicits.
Arguments alist : clear implicits.
Arguments set_next : simpl never.
Arguments set_prev : simpl never.

(** ** Representation *)

Section AdlistSpec.
Context {V : Type} `{HV : EqDecision V}.
Abbreviation heap := (gmap ptr (listNode V)).
Abbreviation cell := (ptr * V)%type.

(** The pointer to the first cell of [xs], or [n]; to the last cell, or [p]. *)
Definition first (xs : list cell) (n : option ptr) : option ptr :=
  match xs with [] => n | (q, _) :: _ => Some q end.
Definition final (p : option ptr) (xs : list cell) : option ptr :=
  match last xs with None => p | Some (q, _) => Some q end.

Arguments final : simpl never.

(** The cells [xs] are linked in the heap, between the pointers [p] and [n]. *)
Fixpoint dseg (h : heap) (p : option ptr) (xs : list cell) (n : option ptr) : Prop :=
  match xs with
  | [] => True
  | (q, v) :: xs => h !! q = Some (mk_node p (first xs n) v) /\ dseg h (Some q) xs n
  end.

Definition ptrs (xs : list cell) : list ptr := map fst xs.
Definition vals (xs : list cell) : list V := map snd xs.

Definition is_list (h : heap) (l : alist V) (xs : list cell) : Prop :=
  NoDup (ptrs xs) /\ dseg h None xs None /\ l_head l = first xs None /\
  l_tail l = final None xs /\ l_len l = zlen xs.

(** The two heaps only differ at the given addresses. *)
Definition same_outside (h h' : heap) (ps : list ptr) : Prop :=
  forall q, q ∉ ps -> h' !! q = h !! q.

(** *** Segments *)

Lemma final_cons p q v xs : final p ((q, v) :: xs) = final (Some q) xs.
Proof.
  unfold final. destruct xs as [|[r w] xs]; [done|]. rewrite last_cons_cons.
  destruct (last ((r, w) :: xs)) as [[]|] eqn:E; [done|]. by apply last_None in E.
Qed.

Lemma final_snoc p xs q v : final p (xs ++ [(q, v)]) = Some q.
Proof. unfold final. by rewrite last_snoc. Qed.

Lemma first_app xs ys n : first (xs ++ ys) n = first xs (first ys n).
Proof. by destruct xs as [|[]]. Qed.

Lemma final_app p xs ys : final p (xs ++ ys) = final (final p xs) ys.
Proof.
  revert p. induction xs as [|[q v] xs IH]; intros p; [done|]. simpl. by rewrite !final_cons, IH.
Qed.

Lemma dseg_app h p xs ys n :
  dseg h p (xs ++ ys) n <-> dseg h p xs (first ys n) /\ dseg h (final p xs) ys n.
Proof.
  revert p. induction xs as [|[q v] xs IH]; intros p; simpl; [unfold final; simpl; tauto|].
  rewrite IH, final_cons, first_app. tauto.
Qed.

Lemma dseg_frame h h' p xs n :
  dseg h p xs n -> (forall q, q ∈ ptrs xs -> h' !! q = h !! q) -> dseg h' p xs n.
Proof.
  revert p. induction xs as [|[q v] xs IH]; intros p; simpl; [done|].
  intros [Hq Hs] Hf. split.
  - rewrite Hf by left. done.
  - apply IH; [done|]. intros r Hr. apply Hf. by right.
Qed.

Lemma dseg_outside h h' ps p xs n :
  dseg h p xs n -> same_outside h h' ps -> (forall q, q ∈ ptrs xs -> q ∉ ps) -> dseg h' p xs n.
Proof. intros Hs Ho Hd. eapply dseg_frame; [done|]. intros q Hq. by apply Ho, Hd. Qed.

Lemma dseg_set_prev h p p' q v xs n :
  NoDup (ptrs ((q, v) :: xs)) -> dseg h p ((q, v) :: xs) n ->
  exists h', set_prev h (Some q) p' = Some h' /\ dseg h' p' ((q, v) :: xs) n /\
    same_outside h h' [q].
Proof.
  intros Hnd [Hq Hs]. simpl in Hnd. apply NoDup_cons in Hnd as [Hni _].
  unfold set_prev. cbn [mbind option_bind]. rewrite Hq. cbn [mbind option_bind n_next n_value].
  eexists. split; [done|]. split.
  - split; [by rewrite lookup_insert_eq|]. eapply dseg_frame; [done|].
    intros r Hr. rewrite lookup_insert_ne; [done|]. by intros <-.
  - intros r Hr. rewrite lookup_insert_ne; [done|]. intros <-. apply Hr. left.
Qed.

Lemma dseg_set_next h p xs q v n n' :
  NoDup (ptrs (xs ++ [(q, v)])) -> dseg h p (xs ++ [(q, v)]) n ->
  exists h', set_next h (Some q) n' = Some h' /\ dseg h' p (xs ++ [(q, v)]) n' /\
    same_outside h h' [q].
Proof.
  intros Hnd [Hs [Hq _]]%dseg_app. unfold ptrs in Hnd. rewrite map_app in Hnd.
  apply NoDup_app in Hnd as (_ & Hni & _). simpl in Hq.
  unfold set_next. cbn [mbind option_bind]. rewrite Hq. cbn [mbind option_bind n_prev n_value].
  eexists. split; [done|]. split.
  - apply dseg_app. split; [|split; [by rewrite lookup_insert_eq|done]].
    eapply dseg_frame; [done|]. intros r Hr. rewrite lookup_insert_ne; [done|]. intros <-.
    apply (Hni q Hr). left.
  - intros r Hr. rewrite lookup_insert_ne; [done|]. intros <-. apply Hr. left.
Qed.

Lemma dseg_lookup h p xs n q v : dseg h p xs n -> (q, v) ∈ xs -> exists x, h !! q = Some x /\ n_value x = v.
Proof.
  revert p. induction xs as [|[r w] xs IH]; intros p; [by intros _ ?%not_elem_of_nil|].
  intros [Hq Hs] [Heq|Hin]%elem_of_cons; [|by eapply IH].
  simplify_eq. eauto.
Qed.

Lemma fresh_not_in h p xs n q : dseg h p xs n -> h !! q = None -> q ∉ ptrs xs.
Proof.
  intros Hs Hq ([r v] & -> & Hin)%list_elem_of_fmap.
  destruct (dseg_lookup _ _ _ _ _ _ Hs Hin) as (x & Hx & _). simpl in Hq. congruence.
Qed.

(** *** Relinking two segments *)

Lemma same_outside_mono h h' ps qs :
  same_outside h h' ps -> (forall q, q ∈ ps -> q ∈ qs) -> same_outside h h' qs.
Proof. intros Ho Hsub q Hq. apply Ho. auto. Qed.

Lemma same_outside_trans h1 h2 h3 ps :
  same_outside h1 h2 ps -> same_outside h2 h3 ps -> same_outside h1 h3 ps.
Proof. intros H1 H2 q Hq. rewrite H2, H1; done. Qed.

Lemma ptrs_app xs ys : ptrs (xs ++ ys) = ptrs xs ++ ptrs ys.
Proof. apply map_app. Qed.

(** [if (p) p->next = x;] and [if (p) p->prev = x;] on the ends of a segment. *)
Lemma relink_next h ys a a' :
  NoDup (ptrs ys) -> dseg h None ys a ->
  exists h', match final None ys with Some q => set_next h (Some q) a' | None => Some h end = Some h' /\
    dseg h' None ys a' /\ same_outside h h' (ptrs ys).
Proof.
  intros Hnd Hs. destruct ys as [|[q v] ys _] using rev_ind.
  { exists h. split_and!; try done. }
  rewrite final_snoc. destruct (dseg_set_next _ _ _ _ _ _ a' Hnd Hs) as (h' & -> & Hs' & Ho).
  exists h'. split_and!; try done. eapply same_outside_mono; [done|].
  intros r ->%list_elem_of_singleton. rewrite ptrs_app. apply elem_of_app. right. left.
Qed.

Lemma relink_prev h b b' zs :
  NoDup (ptrs zs) -> dseg h b zs None ->
  exists h', match first zs None with Some q => set_prev h (Some q) b' | None => Some h end = Some h' /\
    dseg h' b' zs None /\ same_outside h h' (ptrs zs).
Proof.
  intros Hnd Hs. destruct zs as [|[q v] zs].
  { exists h. split_and!; try done. }
  destruct (dseg_set_prev _ _ b' _ _ _ _ Hnd Hs) as (h' & Hset & Hs' & Ho).
  exists h'. split_and!; try done; try apply Hs'. eapply same_outside_mono; [done|].
  intros r ->%list_elem_of_singleton. left.
Qed.

Lemma relink h ys zs a b a' b' :
  NoDup (ptrs (ys ++ zs)) -> dseg h None ys a -> dseg h b zs None ->
  exists h1 h2,
    match final None ys with Some q => set_next h (Some q) a' | None => Some h end = Some h1 /\
    match first zs None with Some q => set_prev h1 (Some q) b' | None => Some h1 end = Some h2 /\
    dseg h2 None ys a' /\ dseg h2 b' zs None /\ same_outside h h2 (ptrs (ys ++ zs)) /\
    same_outside h h1 (ptrs ys).
Proof.
  rewrite ptrs_app. intros (Hy & Hyz & Hz)%NoDup_app Hsy Hsz.
  destruct (relink_next h ys a a' Hy Hsy) as (h1 & Hh1 & Hsy1 & Ho1).
  assert (dseg h1 b zs None) as Hsz1.
  { eapply dseg_outside; [done|done|]. intros q Hq Hq'. by eapply Hyz. }
  destruct (relink_prev h1 b b' zs Hz Hsz1) as (h2 & Hh2 & Hsz2 & Ho2).
  exists h1, h2. split_and!; try done.
  - eapply dseg_outside; [done|done|]. intros q Hq Hq'. by eapply Hyz.
  - eapply same_outside_trans; (eapply same_outside_mono; [done|]);
      intros q Hq; apply elem_of_app; auto.
Qed.

Definition same_methods (l l' : alist V) : Prop :=
  l_dup l' = l_dup l /\ l_free l' = l_free l /\ l_match l' = l_match l.

Lemma not_elem_same h h' ps q : same_outside h h' ps -> q ∉ ps -> h' !! q = h !! q.
Proof. intros Ho. apply Ho. Qed.

(** A fresh node linked between two halves of a list. *)
Lemma link_node h ys zs p v :
  NoDup (ptrs (ys ++ zs)) -> dseg h None (ys ++ zs) None -> h !! p = None ->
  exists h1 h2,
    let h0 := <[p := mk_node (final None ys) (first zs None) v]> h in
    match final None ys with Some q => set_next h0 (Some q) (Some p) | None => Some h0 end = Some h1 /\
    match first zs None with Some q => set_prev h1 (Some q) (Some p) | None => Some h1 end = Some h2 /\
    dseg h2 None (ys ++ (p, v) :: zs) None /\ NoDup (ptrs (ys ++ (p, v) :: zs)) /\
    same_outside h h2 (ptrs (ys ++ (p, v) :: zs)).
Proof.
  intros Hnd Hs Hp. pose proof (fresh_not_in _ _ _ _ _ Hs Hp) as Hni.
  set (h0 := <[p := _]> h).
  assert (dseg h0 None (ys ++ zs) None) as Hs0.
  { eapply dseg_frame; [done|]. intros q Hq. apply lookup_insert_ne. by intros ->. }
  apply dseg_app in Hs0 as [Hy Hz].
  destruct (relink h0 ys zs _ _ (Some p) (Some p) Hnd Hy Hz)
    as (h1 & h2 & Hh1 & Hh2 & Hy2 & Hz2 & Ho & _).
  exists h1, h2. split_and!; try done.
  - apply dseg_app. split; [done|]. split; [|done].
    rewrite (Ho p Hni). apply lookup_insert_eq.
  - rewrite ptrs_app in *. simpl. apply NoDup_app in Hnd as (Hny & Hyz & Hnz).
    apply NoDup_app. rewrite elem_of_app in Hni. split_and!; [done| |].
    + intros q Hq [->|Hq']%elem_of_cons; [tauto|]. by eapply Hyz.
    + apply NoDup_cons. tauto.
  - intros q Hq. rewrite ptrs_app in *. simpl in Hq.
    rewrite elem_of_app, elem_of_cons in Hq. rewrite Ho by (rewrite elem_of_app; tauto).
    unfold h0. apply lookup_insert_ne. intros ->. tauto.
Qed.

Lemma final_first_ne (xs : list cell) : xs <> [] -> exists q q', first xs None = Some q /\ final None xs = Some q'.
Proof.
  intros Hne. destruct xs as [|[q v] xs] using rev_ind; [done|]. rewrite final_snoc, first_app.
  destruct xs as [|[r w] xs]; simpl; eauto.
Qed.

Lemma len_zero_inv h l xs : is_list h l xs -> l_len l = 0 -> xs = [].
Proof. intros (_ & _ & _ & _ & Hl) H0. apply zlen_0_inv. congruence. Qed.

Lemma u64_len (xs : list cell) k :
  zlen xs + k < 2 ^ 64 -> 0 <= zlen xs + k -> u64 (zlen xs + k) = zlen xs + k.
Proof. intros. apply wrap_id. unfold in_u. lia. Qed.

Lemma listAddNodeHead_ok h l xs p v :
  is_list h l xs -> h !! p = None -> zlen xs + 1 < 2 ^ 64 ->
  exists h' l', listAddNodeHead (Some p) h l v = Some (h', l', true) /\
    is_list h' l' ((p, v) :: xs) /\ same_outside h h' (ptrs ((p, v) :: xs)) /\ same_methods l l'.
Proof.
  intros Hl Hp Hmax. pose proof Hl as (Hnd & Hs & Hh & Ht & Hlen). pose proof (zlen_nonneg xs).
  destruct (link_node h [] xs p v Hnd Hs Hp) as (h1 & h2 & Hh1 & Hh2 & Hs2 & Hnd2 & Ho).
  change (final None []) with (@None ptr) in Hh1, Hh2. simpl in *. simplify_eq. unfold listAddNodeHead. destruct (Z.eqb_spec (l_len l) 0) as [H0|H0].
  - pose proof (len_zero_inv _ _ _ Hl H0) as ->. simpl in *. simplify_eq.
    eexists _, _. split; [done|]. split; [|done]. split_and!; try done. simpl. by rewrite H0.
  - destruct (final_first_ne xs) as (q & q' & Hq & Hq'); [by intros ->|].
    assert (Hset : set_prev (<[p := mk_node None (first xs None) v]> h) (first xs None) (Some p) = Some h2)
      by (rewrite Hq in Hh2 |- *; done).
    rewrite Hh, Hset. cbn [mbind option_bind].
    eexists _, _. split; [done|]. split; [|done]. split_and!; try done; simpl.
    + rewrite Ht, final_cons. unfold final in *. by destruct (last xs).
    + rewrite Hlen, u64_len by lia. zlens. lia.
Qed.

Lemma final_ne (xs : list cell) q : final None xs = Some q -> forall p, final p xs = Some q.
Proof. unfold final. by destruct (last xs) as [[]|]. Qed.

Lemma listAddNodeTail_ok h l xs p v :
  is_list h l xs -> h !! p = None -> zlen xs + 1 < 2 ^ 64 ->
  exists h' l', listAddNodeTail (Some p) h l v = Some (h', l', true) /\
    is_list h' l' (xs ++ [(p, v)]) /\ same_outside h h' (ptrs (xs ++ [(p, v)])) /\ same_methods l l'.
Proof.
  intros Hl Hp Hmax. pose proof Hl as (Hnd & Hs & Hh & Ht & Hlen). pose proof (zlen_nonneg xs).
  destruct (link_node h xs [] p v) as (h1 & h2 & Hh1 & Hh2 & Hs2 & Hnd2 & Ho);
    [by rewrite app_nil_r..|done|].
  cbn [first] in Hh1, Hh2. simplify_eq. unfold listAddNodeTail.
  destruct (Z.eqb_spec (l_len l) 0) as [H0|H0].
  - pose proof (len_zero_inv _ _ _ Hl H0) as ->. change (final None []) with (@None ptr) in Hh1.
    simplify_eq/=. eexists _, _. split; [done|]. split; [|done].
    split_and!; try done; simpl. by rewrite H0.
  - destruct (final_first_ne xs) as (q & q' & Hq & Hq'); [by intros ->|].
    assert (Hset : set_next (<[p := mk_node (final None xs) None v]> h) (final None xs) (Some p) = Some h2)
      by (rewrite Hq' in Hh1 |- *; done).
    rewrite Ht, Hset. cbn [mbind option_bind].
    eexists _, _. split; [done|]. split; [|done]. split_and!; try done; simpl.
    + rewrite Hh, first_app. by rewrite Hq; destruct xs as [|[]].
    + by rewrite final_snoc.
    + rewrite Hlen, u64_len by lia. zlens. lia.
Qed.

(** A node of the list splits it. *)
Lemma is_list_node h l ys q w zs :
  is_list h l (ys ++ (q, w) :: zs) ->
  h !! q = Some (mk_node (final None ys) (first zs None) w) /\
  (l_tail l = Some q <-> zs = []) /\ (l_head l = Some q <-> ys = []).
Proof.
  intros (Hnd & Hs & Hh & Ht & _). apply dseg_app in Hs as [Hy [Hq Hz]]. split; [done|].
  rewrite ptrs_app in Hnd. apply NoDup_app in Hnd as (_ & Hyz & [Hni _]%NoDup_cons).
  rewrite Ht, Hh, final_app, final_cons, first_app. split.
  - split; [|by intros ->]. destruct zs as [|[r u] zs _] using rev_ind; [done|].
    rewrite final_snoc. intros [= ->]. exfalso. apply Hni. rewrite ptrs_app. apply elem_of_app. right. left.
  - split; [|by intros ->]. destruct ys as [|[r u] ys]; [done|]. simpl. intros [= <-].
    exfalso. apply (Hyz r); left.
Qed.

Lemma listInsertNode_ok h l ys q w zs p v (after : bool) :
  is_list h l (ys ++ (q, w) :: zs) -> h !! p = None -> zlen (ys ++ (q, w) :: zs) + 1 < 2 ^ 64 ->
  let xs' := if after then ys ++ (q, w) :: (p, v) :: zs else ys ++ (p, v) :: (q, w) :: zs in
  exists h' l', listInsertNode (Some p) h l q v after = Some (h', l', true) /\
    is_list h' l' xs' /\ same_outside h h' (ptrs xs') /\ same_methods l l'.
Proof.
  intros Hl Hp Hmax xs'. pose proof (zlen_nonneg (ys ++ (q, w) :: zs)).
  destruct (is_list_node _ _ _ _ _ _ Hl) as (Hq & Htl & Hhd).
  pose proof Hl as (Hnd & Hs & Hh & Ht & Hlen). unfold listInsertNode. rewrite Hq.
  cbn [mbind option_bind n_prev n_next]. destruct after.
  - replace (ys ++ (q, w) :: zs) with ((ys ++ [(q, w)]) ++ zs) in Hnd, Hs
      by (by rewrite <- (assoc_L (++))).
    destruct (link_node h _ zs p v Hnd Hs Hp) as (h1 & h2 & Hh1 & Hh2 & Hs2 & Hnd2 & Ho).
    rewrite final_snoc in Hh1. rewrite Hh1. cbn [mbind option_bind]. rewrite Hh2. cbn [mbind option_bind].
    rewrite <- (assoc_L (++)) in Hs2, Hnd2, Ho. eexists _, _. split; [done|].
    split; [|done]. split_and!; try done; simpl.
    + rewrite Hh. unfold xs'. by rewrite !first_app.
    + unfold xs'. rewrite final_app, !final_cons. case_decide as Hd.
      * apply Htl in Hd as ->. done.
      * rewrite Ht, final_app, final_cons.
        destruct zs as [|[r u] zs]; [by destruct Hd; apply Htl|]. by rewrite !final_cons.
    + rewrite Hlen, u64_len by lia. unfold xs'. zlens. lia.
  - destruct (link_node h ys ((q, w) :: zs) p v Hnd Hs Hp) as (h1 & h2 & Hh1 & Hh2 & Hs2 & Hnd2 & Ho).
    cbn [first] in Hh1, Hh2. rewrite Hh1. cbn [mbind option_bind]. rewrite Hh2. cbn [mbind option_bind].
    eexists _, _. split; [done|]. split; [|done]. split_and!; try done; simpl.
    + unfold xs'. rewrite first_app. case_decide as Hd.
      * apply Hhd in Hd as ->. done.
      * rewrite Hh, first_app. destruct ys as [|[r u] ys]; [by destruct Hd; apply Hhd|]. done.
    + unfold xs'. rewrite Ht, !final_app, !final_cons. done.
    + rewrite Hlen, u64_len by lia. unfold xs'. zlens. lia.
Qed.

Lemma listDelNode_ok h l ys q w zs :
  is_list h l (ys ++ (q, w) :: zs) -> zlen (ys ++ (q, w) :: zs) < 2 ^ 64 ->
  exists h' l', listDelNode h l q = Some (h', l', (if l_free l then [w] else [])) /\
    is_list h' l' (ys ++ zs) /\ h' !! q = None /\
    same_outside h h' (ptrs (ys ++ (q, w) :: zs)) /\ same_methods l l'.
Proof.
  intros Hl Hmax. destruct (is_list_node _ _ _ _ _ _ Hl) as (Hq & Htl & Hhd).
  pose proof Hl as (Hnd & Hs & Hh & Ht & Hlen). pose proof Hs as [Hy [_ Hz]]%dseg_app.
  assert ((q ∉ ptrs (ys ++ zs)) /\ NoDup (ptrs (ys ++ zs))) as [Hni Hnd'].
  { rewrite ptrs_app in *. simpl in Hnd. rewrite <- Permutation_middle in Hnd.
    by apply NoDup_cons in Hnd. }
  destruct (relink h ys zs _ _ (first zs None) (final None ys) Hnd' Hy Hz)
    as (h1 & h2 & Hh1 & Hh2 & Hy2 & Hz2 & Ho & Ho1).
  assert (h1 !! q = h !! q) as Hq1.
  { apply Ho1. intros Hin. apply Hni. rewrite ptrs_app. apply elem_of_app. auto. }
  pose proof (Ho q Hni) as Hq2. unfold listDelNode. rewrite Hq. cbn [mbind option_bind n_prev n_next].
  assert (Hstep1 : match final None ys with
     | Some q0 => h ← set_next h (Some q0) (first zs None); Some (h, l_head l)
     | None => Some (h, first zs None) end = Some (h1, first (ys ++ zs) None)).
  { rewrite first_app. destruct ys as [|[r u] ys _] using rev_ind; [by injection Hh1 as <-|].
    rewrite final_snoc in *. rewrite Hh1. cbn [mbind option_bind]. rewrite Hh, !first_app.
    by destruct ys as [|[]]. }
  rewrite Hstep1. cbn [mbind option_bind]. rewrite Hq1, Hq. cbn [mbind option_bind n_prev n_next].
  assert (Hstep2 : match first zs None with
     | Some q0 => h ← set_prev h1 (Some q0) (final None ys); Some (h, l_tail l)
     | None => Some (h1, final None ys) end = Some (h2, final None (ys ++ zs))).
  { rewrite final_app. destruct zs as [|[r u] zs]; [by injection Hh2 as <-|]. cbn [first] in *.
    rewrite Hh2. cbn [mbind option_bind]. by rewrite Ht, final_app, !final_cons. }
  rewrite Hstep2. cbn [mbind option_bind]. rewrite Hq2, Hq. cbn [mbind option_bind n_value].
  eexists _, _. split; [done|]. assert (Ho' : same_outside h2 (delete q h2) [q]).
  { intros r Hr. apply lookup_delete_ne. intros <-. apply Hr. left. }
  split; [|split_and!; [apply lookup_delete_eq| |done]].
  - split_and!; try done; simpl.
    + eapply dseg_outside; [by apply dseg_app; split|done|]. by intros r Hr ->%list_elem_of_singleton.
    + rewrite Hlen. zlens. replace (zlen ys + (1 + zlen zs) - 1) with (zlen (ys ++ zs) + 0) by (zlens; lia).
      pose proof (zlen_nonneg (ys ++ zs)). rewrite u64_len; zlens; lia.
  - intros r Hr. rewrite ptrs_app in *. simpl in Hr. rewrite elem_of_app, elem_of_cons in Hr.
    rewrite Ho'; [apply Ho; rewrite elem_of_app; tauto|]. rewrite list_elem_of_singleton. tauto.
Qed.

Lemma listRotate_ok h l ys t v :
  is_list h l (ys ++ [(t, v)]) ->
  exists h' l', listRotate h l = Some (h', l') /\ is_list h' l' ((t, v) :: ys) /\
    same_outside h h' (ptrs (ys ++ [(t, v)])) /\ same_methods l l'.
Proof.
  intros Hl. pose proof Hl as (Hnd & Hs & Hh & Ht & Hlen). rewrite final_snoc in Ht.
  unfold listRotate. destruct ys as [|[q w] ys].
  { rewrite Hlen. exists h, l. by split_and!. }
  rewrite Hlen, Ht. zlens. pose proof (zlen_nonneg ys).
  rewrite (proj2 (Z.leb_gt _ _)) by lia. cbn [mbind option_bind].
  set (zs := (q, w) :: ys) in *. change (((q, w) :: ys) ++ [(t, v)]) with (zs ++ [(t, v)]) in *.
  apply dseg_app in Hs as [Hz [Hq _]]. rewrite Hq. cbn [mbind option_bind n_prev].
  rewrite ptrs_app in Hnd. apply NoDup_app in Hnd as (Hndz & Hdisj & _).
  assert (Hnt : t ∉ ptrs zs) by (intros Hin; by apply (Hdisj t Hin); left).
  destruct (relink_next h zs _ None Hndz Hz) as (h1 & Hh1 & Hz1 & Ho1).
  destruct (dseg_set_prev h1 None (Some t) q w ys None Hndz Hz1) as (h2 & Hh2 & Hz2 & Ho2).
  destruct (final_first_ne zs) as (q0 & q' & Hf & Hfi); [done|].
  assert (l_head l = Some q) as Hh' by (rewrite Hh; done). rewrite Hh'.
  rewrite Hfi in *. rewrite Hh1. cbn [mbind option_bind]. rewrite Hh2. cbn [mbind option_bind].
  assert (h2 !! t = Some (mk_node (Some q') None v)) as Ht2.
  { rewrite Ho2, Ho1; [done|done|]. intros ->%list_elem_of_singleton. apply Hnt. left. }
  unfold set_prev, set_next. cbn [mbind option_bind]. rewrite Ht2. cbn [mbind option_bind n_next n_value].
  rewrite lookup_insert_eq. cbn [mbind option_bind n_prev n_value]. rewrite insert_insert_eq.
  set (h3 := <[t := _]> h2). assert (Ho3 : same_outside h2 h3 [t]).
  { intros r Hr. apply lookup_insert_ne. intros <-. apply Hr. left. }
  eexists _, _. split; [done|]. split; [|split; [|done]].
  - split_and!; simpl.
    + apply NoDup_cons. split; [done|exact Hndz].
    + split; [unfold h3; by rewrite lookup_insert_eq|].
      eapply (dseg_outside h2 h3 [t] (Some t) zs None); [exact Hz2|exact Ho3|].
      intros r Hr ->%list_elem_of_singleton. done.
    + done.
    + rewrite final_cons. symmetry. by apply final_ne.
    + unfold zs. zlens. lia.
  - intros r Hr. rewrite ptrs_app, elem_of_app in Hr.
    rewrite Ho3, Ho2, Ho1; [done|tauto| |].
    + intros ->%list_elem_of_singleton. apply Hr. left. left.
    + intros ->%list_elem_of_singleton. apply Hr. right. left.
Qed.

Lemma listJoin_ok h l o xs ys :
  is_list h l xs -> is_list h o ys -> NoDup (ptrs (xs ++ ys)) -> zlen xs + zlen ys < 2 ^ 64 ->
  exists h' l' o', listJoin h l o = Some (h', l', o') /\
    is_list h' l' (xs ++ ys) /\ is_list h' o' [] /\ same_outside h h' (ptrs (xs ++ ys)) /\
    same_methods l l' /\ same_methods o o'.
Proof.
  intros (Hndx & Hx & Hhx & Htx & Hlx) (Hndy & Hy & Hhy & Hty & Hly) Hnd Hmax.
  pose proof (zlen_nonneg xs). pose proof (zlen_nonneg ys).
  unfold listJoin. rewrite Hhy, Htx, Hty, Hhx, Hlx, Hly.
  destruct (relink_prev h None (final None xs) ys Hndy Hy) as (h1 & Hh1 & Hy1 & Ho1).
  rewrite ptrs_app in Hnd. apply NoDup_app in Hnd as (_ & Hdisj & _).
  assert (dseg h1 None xs None) as Hx1 by (eapply dseg_outside; eauto).
  destruct (relink_next h1 xs None (first ys None) Hndx Hx1) as (h2 & Hh2 & Hx2 & Ho2).
  assert (dseg h2 (final None xs) ys None) as Hy2.
  { eapply dseg_outside; [done|done|]. intros q Hq Hq'. by eapply Hdisj. }
  assert (Hprev : match first ys None with
     | Some _ => set_prev h (first ys None) (final None xs) | None => Some h end = Some h1).
  { by destruct (first ys None). }
  rewrite Hprev. cbn [mbind option_bind].
  assert (Hnext : match final None xs with
     | Some _ => h ← set_next h1 (final None xs) (first ys None); Some (h, first xs None)
     | None => Some (h1, first ys None) end = Some (h2, first (xs ++ ys) None)).
  { rewrite first_app. destruct xs as [|[q v] xs _] using rev_ind; [by injection Hh2 as <-|].
    rewrite final_snoc in *. rewrite Hh2. cbn [mbind option_bind]. rewrite !first_app.
    by destruct xs as [|[]]. }
  rewrite Hnext. cbn [mbind option_bind]. eexists _, _, _. split; [done|].
  split; [|split; [by split_and!; try constructor|split; [|done]]].
  - split_and!; simpl; try done.
    + rewrite ptrs_app. by apply NoDup_app.
    + apply dseg_app. done.
    + rewrite final_app. destruct ys as [|[q v] ys _] using rev_ind; [done|].
      by rewrite !final_snoc.
    + zlens. apply wrap_id. unfold in_u. lia.
  - rewrite ptrs_app. eapply same_outside_trans; (eapply same_outside_mono; [done|]);
      intros q Hq; apply elem_of_app; auto.
Qed.

(** *** Traversals *)

Lemma dseg_size h p xs n : NoDup (ptrs xs) -> dseg h p xs n -> (length xs <= size h)%nat.
Proof.
  intros Hnd Hs. rewrite <- (size_dom (D := gset ptr)).
  replace (length xs) with (size (list_to_set (ptrs xs) : gset ptr)).
  - apply subseteq_size. intros q Hq%elem_of_list_to_set. apply elem_of_dom.
    apply list_elem_of_fmap in Hq as ([r v] & -> & Hin).
    destruct (dseg_lookup _ _ _ _ _ _ Hs Hin) as (x & Hx & _). by exists x.
  - rewrite size_list_to_set by done. apply length_map.
Qed.

Lemma index_forward fuel h p zs i :
  dseg h p zs None -> 0 <= i -> (length zs + 1 < fuel)%nat ->
  index_loop fuel h true i (first zs None) = Some (fst <$> zs !! Z.to_nat i).
Proof.
  revert p zs i. induction fuel as [|fuel IH]; intros p zs i Hs Hi Hf; [lia|].
  simpl. destruct (Z.eqb_spec i 0) as [->|Hi0]; [by destruct zs as [|[]]|].
  destruct zs as [|[q v] zs]; simpl; [done|]. destruct Hs as [Hq Hs]. rewrite Hq.
  cbn [mbind option_bind n_next]. simpl in Hf. rewrite (IH (Some q)) by (done || lia).
  replace (Z.to_nat i) with (S (Z.to_nat (i - 1))) by lia. done.
Qed.

Lemma index_backward fuel h ys n i :
  dseg h None ys n -> 0 <= i -> (length ys + 1 < fuel)%nat ->
  index_loop fuel h false i (final None ys) = Some (fst <$> reverse ys !! Z.to_nat i).
Proof.
  revert ys n i. induction fuel as [|fuel IH]; intros ys n i Hs Hi Hf; [lia|].
  simpl. destruct ys as [|[q v] ys _] using rev_ind.
  { change (final None []) with (@None ptr). by destruct (i =? 0). }
  rewrite final_snoc, reverse_snoc. destruct (Z.eqb_spec i 0) as [->|Hi0]; [done|].
  apply dseg_app in Hs as [Hs [Hq _]]. rewrite Hq. cbn [mbind option_bind n_prev].
  rewrite length_app in Hf. simpl in Hf. rewrite (IH ys (Some q)) by (done || lia).
  replace (Z.to_nat i) with (S (Z.to_nat (i - 1))) by lia. done.
Qed.

Definition cell_at (xs : list cell) (i : Z) : option cell :=
  if i <? 0 then reverse xs !! Z.to_nat (- i - 1) else xs !! Z.to_nat i.

Lemma listIndex_ok h l xs i :
  is_list h l xs -> listIndex h l i = Some (fst <$> cell_at xs i).
Proof.
  intros (Hnd & Hs & Hh & Ht & _). pose proof (dseg_size _ _ _ _ Hnd Hs).
  unfold listIndex, cell_at. destruct (Z.ltb_spec i 0).
  - rewrite Ht. apply (index_backward _ _ _ None); [done|lia|lia].
  - rewrite Hh. apply (index_forward _ _ None); [done|lia|lia].
Qed.

(** The test of [listSearchKey]. *)
Definition matches (l : alist V) (key : V) (c : cell) : bool :=
  match l_match l with Some f => f (snd c) key | None => bool_decide (key = snd c) end.

Lemma search_key_ok fuel h l p zs key :
  dseg h p zs None -> (length zs < fuel)%nat ->
  search_key_loop fuel h l key (mk_iter (first zs None) AL_START_HEAD) =
    Some (fst <$> List.find (matches l key) zs).
Proof.
  revert p zs. induction fuel as [|fuel IH]; intros p zs Hs Hf; [lia|].
  cbn [search_key_loop]. unfold listNext. cbn [i_next i_direction].
  destruct zs as [|[q v] zs]; [done|]. destruct Hs as [Hq Hs]. cbn [first]. rewrite Hq.
  cbn [mbind option_bind n_next n_value]. rewrite Hq. cbn [mbind option_bind n_next n_value].
  simpl in Hf. cbn [List.find]. unfold matches at 1. cbn [snd].
  destruct (match l_match l with Some f => f v key | None => bool_decide (key = v) end); [done|].
  by rewrite (IH (Some q)) by (done || lia).
Qed.

Lemma listSearchKey_ok h l xs key :
  is_list h l xs -> listSearchKey h l key = Some (fst <$> List.find (matches l key) xs).
Proof.
  intros (Hnd & Hs & Hh & _). pose proof (dseg_size _ _ _ _ Hnd Hs).
  unfold listSearchKey, listRewind. rewrite Hh. apply (search_key_ok _ _ _ None); [done|lia].
Qed.

(** *** Releasing and duplicating *)

Lemma empty_loop_ok h p xs n :
  NoDup (ptrs xs) -> dseg h p xs n ->
  exists h', empty_loop (length xs) h (first xs n) = Some (h', vals xs) /\
    same_outside h h' (ptrs xs) /\ (forall q, q ∈ ptrs xs -> h' !! q = None).
Proof.
  revert h p. induction xs as [|[q v] xs IH]; intros h p Hnd Hs.
  { exists h. split_and!; try done. by intros q ?%not_elem_of_nil. }
  simpl in Hnd. apply NoDup_cons in Hnd as [Hni Hnd]. destruct Hs as [Hq Hs].
  simpl. rewrite Hq. cbn [mbind option_bind n_next n_value].
  assert (Hd : same_outside h (delete q h) [q]).
  { intros r Hr. apply lookup_delete_ne. intros <-. apply Hr. left. }
  destruct (IH (delete q h) (Some q) Hnd) as (h' & -> & Ho & Hnone).
  { eapply dseg_outside; [done|done|]. by intros r Hr ->%list_elem_of_singleton. }
  cbn [mbind option_bind]. exists h'. split_and!; [done| |].
  - intros r Hr. rewrite elem_of_cons in Hr. rewrite Ho by tauto. apply Hd.
    rewrite list_elem_of_singleton. tauto.
  - intros r [->|Hr]%elem_of_cons; [|by apply Hnone].
    rewrite Ho by done. apply lookup_delete_eq.
Qed.

Lemma listEmpty_ok h l xs :
  is_list h l xs ->
  exists h' l', listEmpty h l = Some (h', l', (if l_free l then vals xs else [])) /\
    is_list h' l' [] /\ same_methods l l' /\
    same_outside h h' (ptrs xs) /\ (forall q, q ∈ ptrs xs -> h' !! q = None).
Proof.
  intros (Hnd & Hs & Hh & Ht & Hlen). unfold listEmpty. rewrite Hlen, Hh.
  unfold zlen. rewrite Nat2Z.id.
  destruct (empty_loop_ok h None xs None Hnd Hs) as (h' & -> & Ho & Hn). cbn [mbind option_bind].
  eexists h', _. split; [done|]. split; [|done]. split_and!; try done. constructor.
Qed.

(** What [listDup] makes of a value. *)
Definition dup_value (l : alist V) (v : V) : option V :=
  match l_dup l with Some dup => dup v | None => Some v end.

(** The pointers the allocator will return are distinct and not in use. *)
Definition supply_ok (h : heap) (nodes : list (option ptr)) : Prop :=
  NoDup (omap id nodes) /\ forall p, Some p ∈ nodes -> h !! p = None.

Lemma release_copy h0 h copy cs :
  is_list h copy cs -> same_outside h0 h (ptrs cs) -> (forall q, q ∈ ptrs cs -> h0 !! q = None) ->
  exists l' freed, listEmpty h copy = Some (h0, l', freed).
Proof.
  intros Hc Ho Hf. destruct (listEmpty_ok h copy cs Hc) as (h' & l' & -> & _ & _ & Ho' & Hn).
  assert (h' = h0) as ->; [|eauto]. apply map_eq. intros q.
  destruct (decide (q ∈ ptrs cs)) as [Hin|Hin].
  - by rewrite Hn, Hf.
  - by rewrite Ho', Ho.
Qed.

Lemma same_methods_trans (l1 l2 l3 : alist V) :
  same_methods l1 l2 -> same_methods l2 l3 -> same_methods l1 l3.
Proof. intros (? & ? & ?) (? & ? & ?). split_and!; congruence. Qed.

(** One more node in the copy. *)
Lemma dup_extend h0 h h1 copy cs nq v nodes :
  is_list h copy cs -> same_outside h0 h (ptrs cs) -> (forall q, q ∈ ptrs cs -> h0 !! q = None) ->
  supply_ok h (Some nq :: nodes) -> same_outside h h1 (ptrs (cs ++ [(nq, v)])) ->
  same_outside h0 h1 (ptrs (cs ++ [(nq, v)])) /\
  (forall q, q ∈ ptrs (cs ++ [(nq, v)]) -> h0 !! q = None) /\ supply_ok h1 nodes.
Proof.
  intros (_ & Hs & _) Ho Hf [Hnd Hfr] Ho1. rewrite ptrs_app in *. simpl in *.
  assert (h !! nq = None) as Hnq by (apply Hfr; left).
  pose proof (fresh_not_in _ _ _ _ _ Hs Hnq) as Hni.
  cbn in Hnd. apply NoDup_cons in Hnd as [Hni' Hnd]. split_and!.
  - eapply same_outside_trans; [|done]. eapply same_outside_mono; [done|].
    intros q Hq. apply elem_of_app. auto.
  - intros q [Hq| ->%list_elem_of_singleton]%elem_of_app; [by apply Hf|]. by rewrite <- Ho.
  - split; [done|]. intros r Hr. assert (h !! r = None) as Hrn by (apply Hfr; by right).
    rewrite Ho1; [done|]. intros [Hq| ->%list_elem_of_singleton]%elem_of_app.
    + by destruct (fresh_not_in _ _ _ _ _ Hs Hrn).
    + apply Hni'. apply list_elem_of_omap. exists (Some nq). done.
Qed.

Lemma dup_loop_ok fuel nodes h0 h copy p zs cs :
  is_list h copy cs -> same_outside h0 h (ptrs cs) -> (forall q, q ∈ ptrs cs -> h0 !! q = None) ->
  dseg h0 p zs None -> (length zs < fuel)%nat -> (length zs <= length nodes)%nat ->
  supply_ok h nodes -> zlen cs + zlen zs < 2 ^ 64 ->
  exists h' r, dup_loop fuel nodes h copy (mk_iter (first zs None) AL_START_HEAD) = Some (h', r) /\
    match r with
    | Some c => exists ds, is_list h' c (cs ++ ds) /\ mapM (dup_value copy) (vals zs) = Some (vals ds) /\
        same_outside h0 h' (ptrs (cs ++ ds)) /\ (forall q, q ∈ ptrs (cs ++ ds) -> h0 !! q = None) /\
        same_methods copy c
    | None => h' = h0 /\ (mapM (dup_value copy) (vals zs) = None \/ None ∈ take (length zs) nodes)
    end.
Proof.
  revert nodes h copy p zs cs. induction fuel as [|fuel IH];
    intros nodes h copy p zs cs Hc Ho Hf Hz Hfu Hn Hsup Hmax; [lia|].
  assert (dseg h p zs None) as Hz'.
  { eapply dseg_outside; [done|done|]. intros q Hq Hq'.
    by destruct (fresh_not_in _ _ _ _ _ Hz (Hf q Hq')). }
  cbn [dup_loop]. unfold listNext. cbn [i_next i_direction]. destruct zs as [|[q v] zs].
  { eexists h, (Some copy). split; [done|]. exists []. rewrite app_nil_r. by split_and!. }
  destruct Hz as [Hq0 Hz], Hz' as [Hq Hz']. cbn [first]. rewrite Hq.
  cbn [mbind option_bind n_next n_value]. rewrite Hq. cbn [mbind option_bind n_value].
  change (match l_dup copy with Some dup => dup v | None => Some v end) with (dup_value copy v).
  simpl in Hn, Hfu. destruct nodes as [|node nodes]; [simpl in Hn; lia|].
  destruct (dup_value copy v) as [v'|] eqn:Hv.
  2: { destruct (release_copy h0 h copy cs Hc Ho Hf) as (l' & freed & ->). cbn [mbind option_bind].
       exists h0, None. split; [done|]. split; [done|]. left. simpl. by rewrite Hv. }
  cbn [head mbind option_bind tail]. destruct node as [nq|].
  2: { cbn [listAddNodeTail mbind option_bind].
       destruct (release_copy h0 h copy cs Hc Ho Hf) as (l' & freed & ->). cbn [mbind option_bind].
       exists h0, None. split; [done|]. split; [done|]. right. simpl. left. }
  zlens. pose proof (zlen_nonneg zs).
  destruct (listAddNodeTail_ok h copy cs nq v' Hc) as (h1 & c1 & -> & Hc1 & Ho1 & Hm1);
    [apply Hsup; left|lia|].
  cbn [mbind option_bind].
  destruct (dup_extend h0 h h1 copy cs nq v' nodes Hc Ho Hf Hsup Ho1) as (Ho2 & Hf2 & Hsup2).
  destruct (IH nodes h1 c1 (Some q) zs (cs ++ [(nq, v')])) as (h' & r & -> & Hr); try done;
    [lia|simpl in Hn; lia|zlens; lia|].
  exists h', r. split; [done|].
  assert (Hdv : dup_value c1 = dup_value copy) by (unfold dup_value; by rewrite (proj1 Hm1)).
  rewrite Hdv in Hr. destruct r as [c|].
  - destruct Hr as (ds & Hl & Hmap & Ho' & Hf' & Hm). exists ((nq, v') :: ds).
    rewrite <- (assoc_L (++)) in Hl, Ho', Hf'. split_and!; try done.
    + simpl. rewrite Hv. cbn [mbind option_bind]. by rewrite Hmap.
    + by eapply same_methods_trans.
  - destruct Hr as [-> [Hr|Hr]]; split; [done| |done|].
    + left. simpl. rewrite Hv. cbn [mbind option_bind]. by rewrite Hr.
    + right. simpl. by right.
Qed.

(** [listDup] leaves the original list as it was.  When it succeeds the copy
    has, in order, the values the [dup] method makes (the values themselves
    without one) in nodes that are not nodes of the original; when an allocation
    or the [dup] method fails everything allocated has been released: the heap
    is exactly what it was. *)
Lemma listDup_correct (h : heap) (l : alist V) (xs : list cell) (nodes : list (option ptr)) :
  is_list h l xs -> (length xs <= length nodes)%nat -> supply_ok h nodes -> zlen xs < 2 ^ 64 ->
  exists h' r, listDup (S (length xs)) nodes h l = Some (h', r) /\ is_list h' l xs /\
    match r with
    | Some c => exists cs, is_list h' c cs /\ mapM (dup_value l) (vals xs) = Some (vals cs) /\
        same_methods l c /\ (forall q, q ∈ ptrs cs -> q ∉ ptrs xs)
    | None => h' = h /\ (mapM (dup_value l) (vals xs) = None \/ None ∈ take (length xs) nodes)
    end.
Proof.
  intros Hl Hn Hsup Hmax. pose proof Hl as (Hnd & Hs & Hh & _). unfold listDup, listRewind.
  rewrite Hh. set (c0 := mk_list _ _ _ _ _ _).
  destruct (dup_loop_ok (S (length xs)) nodes h h c0 None xs []) as (h' & r & -> & Hr); try done.
  { split_and!; try done. constructor. }
  { by intros q ?%not_elem_of_nil. }
  { lia. }
  exists h', r. split; [done|]. destruct r as [c|].
  - destruct Hr as (cs & Hc & Hmap & Ho & Hf & Hm). simpl in *.
    assert (Hdisj : forall q, q ∈ ptrs xs -> q ∉ ptrs cs).
    { intros q Hq Hq'. by destruct (fresh_not_in _ _ _ _ _ Hs (Hf q Hq')). }
    split.
    + destruct Hl as (_ & _ & Hrest). split_and!; try done; try apply Hrest.
      by eapply dseg_outside.
    + exists cs. split_and!; try done; try apply Hm. intros q Hq Hq'. by eapply Hdisj.
  - destruct Hr as [-> Hr]. done.
Qed.

(** [listJoin] appends the second list to the first in place and leaves the
    second one empty; the nodes of other lists are not touched. *)
Lemma listJoin_correct (h : heap) (l o : alist V) (xs ys : list cell) :
  is_list h l xs -> is_list h o ys -> NoDup (ptrs (xs ++ ys)) -> zlen xs + zlen ys < 2 ^ 64 ->
  exists h' l' o', listJoin h l o = Some (h', l', o') /\
    is_list h' l' (xs ++ ys) /\ is_list h' o' [] /\ same_outside h h' (ptrs (xs ++ ys)).
Proof.
  intros Hx Hy Hnd Hmax.
  destruct (listJoin_ok h l o xs ys Hx Hy Hnd Hmax) as (h' & l' & o' & Hj & Hl' & Ho' & Hout & _).
  by exists h', l', o'.
Qed.

(** *** Deleting while iterating *)

(** [while ((node = listNext(&iter)) != NULL) if (f(value)) listDelNode(l, node);]
    collecting the values visited. *)
Fixpoint iter_delete (fuel : nat) (f : V -> bool) (h : heap) (l : alist V) (iter : listIter)
    : option (heap * alist V * list V) :=
  match fuel with
  | O => None
  | S fuel =>
      '(iter, node) ← listNext h iter;
      match node with
      | None => Some (h, l, [])
      | Some c =>
          n ← h !! c;
          '(h, l) ← (if f (n_value n) then '(h, l, _) ← listDelNode h l c; Some (h, l) else Some (h, l));
          '(h, l, seen) ← iter_delete fuel f h l iter;
          Some (h, l, n_value n :: seen)
      end
  end.

Lemma iter_delete_ok fuel f h l ys zs :
  is_list h l (ys ++ zs) -> (length zs < fuel)%nat -> zlen (ys ++ zs) < 2 ^ 64 ->
  exists h' l', iter_delete fuel f h l (mk_iter (first zs None) AL_START_HEAD) = Some (h', l', vals zs) /\
    is_list h' l' (ys ++ List.filter (fun c => negb (f (snd c))) zs).
Proof.
  revert h l ys zs. induction fuel as [|fuel IH]; intros h l ys zs Hl Hf Hmax; [lia|].
  cbn [iter_delete]. unfold listNext. cbn [i_next i_direction]. destruct zs as [|[q v] zs].
  { cbn [first mbind option_bind]. exists h, l. done. }
  destruct (is_list_node _ _ _ _ _ _ Hl) as (Hq & _). cbn [first]. rewrite Hq.
  cbn [mbind option_bind n_next n_value]. rewrite Hq. cbn [mbind option_bind n_value].
  simpl in Hf. cbn [List.filter snd]. destruct (f v); cbn [negb].
  - destruct (listDelNode_ok h l ys q v zs Hl Hmax) as (h1 & l1 & -> & Hl1 & _). cbn [mbind option_bind].
    destruct (IH h1 l1 ys zs Hl1) as (h' & l' & -> & Hl'); [lia|zlens; lia|].
    cbn [mbind option_bind]. by exists h', l'.
  - cbn [mbind option_bind]. destruct (IH h l (ys ++ [(q, v)]) zs) as (h' & l' & -> & Hl');
      [by rewrite <- (assoc_L (++))|lia|by rewrite <- (assoc_L (++))|].
    rewrite <- (assoc_L (++)) in Hl'. cbn [mbind option_bind]. by exists h', l'.
Qed.

(** Deleting the node just returned by [listNext] is safe: a traversal that
    deletes the nodes whose value satisfies [f] visits every value of the list
    once, in order, never follows a dangling pointer, and leaves the other
    nodes. *)
Lemma listNext_delete_safe (f : V -> bool) (h : heap) (l : alist V) (xs : list cell) :
  is_list h l xs -> zlen xs < 2 ^ 64 ->
  exists h' l', iter_delete (S (length xs)) f h l (listRewind l) = Some (h', l', vals xs) /\
    is_list h' l' (List.filter (fun c => negb (f (snd c))) xs).
Proof.
  intros Hl Hmax. unfold listRewind. rewrite (proj1 (proj2 (proj2 Hl))).
  apply (iter_delete_ok _ f h l [] xs); [done|lia|done].
Qed.

(** ** The contract: a list of values *)

(** The position an index designates in a list of [n] elements: negative
    indexes count from the tail. *)
Definition norm (n : nat) (i : Z) : option nat :=
  let j := if i <? 0 then Z.of_nat n + i else i in
  if (0 <=? j) && (j <? Z.of_nat n) then Some (Z.to_nat j) else None.

Lemma cell_at_norm (xs : list cell) i :
  cell_at xs i = k ← norm (length xs) i; xs !! k.
Proof.
  unfold cell_at, norm. destruct (Z.ltb_spec i 0).
  - destruct (Z.leb_spec 0 (Z.of_nat (length xs) + i)); simpl.
    + rewrite (proj2 (Z.ltb_lt _ _)) by lia. cbn [mbind option_bind].
      rewrite reverse_lookup by lia. f_equal. lia.
    + apply lookup_ge_None_2. rewrite length_reverse. lia.
  - rewrite (proj2 (Z.leb_le _ _)) by lia. simpl. destruct (Z.ltb_spec i (Z.of_nat (length xs))); [done|].
    apply lookup_ge_None_2. lia.
Qed.

Inductive list_op :=
  | LPushHead (v : V)
  | LPushTail (v : V)
  | LInsert (i : Z) (v : V) (after : bool)
  | LDelete (i : Z)
  | LRotate
  | LIndex (i : Z)
  | LSearch (key : V)
  | LEmpty.

(** A fresh pointer for every heap. *)
Variable alloc : heap -> ptr.
Hypothesis alloc_fresh : forall h, h !! alloc h = None.

(** The operations a client makes with [listIndex], [listSearchKey] and the
    functions on nodes; the observation is the value of the node designated. *)
Definition node_value (h : heap) (p : option ptr) : option (option V) :=
  match p with None => Some None | Some p => n ← h !! p; Some (Some (n_value n)) end.
Definition run_list_op (h : heap) (l : alist V) (o : list_op) : option (heap * alist V * option V) :=
  match o with
  | LPushHead v => '(h, l, _) ← listAddNodeHead (Some (alloc h)) h l v; Some (h, l, None)
  | LPushTail v => '(h, l, _) ← listAddNodeTail (Some (alloc h)) h l v; Some (h, l, None)
  | LInsert i v after =>
      p ← listIndex h l i;
      r ← node_value h p;
      match p with
      | None => Some (h, l, r)
      | Some p => '(h, l, _) ← listInsertNode (Some (alloc h)) h l p v after; Some (h, l, r)
      end
  | LDelete i =>
      p ← listIndex h l i;
      r ← node_value h p;
      match p with
      | None => Some (h, l, r)
      | Some p => '(h, l, _) ← listDelNode h l p; Some (h, l, r)
      end
  | LRotate => '(h, l) ← listRotate h l; Some (h, l, None)
  | LIndex i => p ← listIndex h l i; r ← node_value h p; Some (h, l, r)
  | LSearch key => p ← listSearchKey h l key; r ← node_value h p; Some (h, l, r)
  | LEmpty => '(h, l, _) ← listEmpty h l; Some (h, l, None)
  end.
Fixpoint run_list_ops (h : heap) (l : alist V) (os : list list_op)
    : option (heap * alist V * list (option V)) :=
  match os with
  | [] => Some (h, l, [])
  | o :: os =>
      '(h, l, r) ← run_list_op h l o;
      '(h, l, rs) ← run_list_ops h l os;
      Some (h, l, r :: rs)
  end.

Definition spec_list_op (f : option (V -> V -> bool)) (vs : list V) (o : list_op) : list V * option V :=
  match o with
  | LPushHead v => (v :: vs, None)
  | LPushTail v => (vs ++ [v], None)
  | LInsert i v after =>
      match norm (length vs) i with
      | None => (vs, None)
      | Some k => let j := if after then S k else k in (take j vs ++ v :: drop j vs, vs !! k)
      end
  | LDelete i =>
      match norm (length vs) i with
      | None => (vs, None)
      | Some k => (take k vs ++ drop (S k) vs, vs !! k)
      end
  | LRotate => (match last vs with Some v => v :: removelast vs | None => vs end, None)
  | LIndex i => (vs, k ← norm (length vs) i; vs !! k)
  | LSearch key =>
      (vs, List.find (fun v => match f with Some f => f v key | None => bool_decide (key = v) end) vs)
  | LEmpty => ([], None)
  end.
Fixpoint spec_list_ops f (vs : list V) (os : list list_op) : list V * list (option V) :=
  match os with
  | [] => (vs, [])
  | o :: os =>
      let '(vs, r) := spec_list_op f vs o in
      let '(vs, rs) := spec_list_ops f vs os in
      (vs, r :: rs)
  end.

Lemma vals_app xs ys : vals (xs ++ ys) = vals xs ++ vals ys.
Proof. apply map_app. Qed.

(** The node at an index, or nothing. *)
Lemma index_split h l xs i :
  is_list h l xs ->
  match norm (length (vals xs)) i with
  | None => listIndex h l i = Some None
  | Some k => exists ys q w zs, xs = ys ++ (q, w) :: zs /\ length ys = k /\
      listIndex h l i = Some (Some q) /\ node_value h (Some q) = Some (Some w)
  end.
Proof.
  intros Hl. rewrite (listIndex_ok _ _ _ _ Hl), cell_at_norm.
  unfold vals. rewrite length_map. destruct (norm (length xs) i) as [k|] eqn:Hk; [|done].
  assert (is_Some (xs !! k)) as [[q w] Hq].
  { apply lookup_lt_is_Some_2. unfold norm in Hk.
    destruct (_ && _) eqn:E in Hk; [|done]. injection Hk as <-.
    apply andb_true_iff in E as [?%Z.leb_le ?%Z.ltb_lt]. lia. }
  pose proof (take_drop_middle _ _ _ Hq) as Hsplit.
  exists (take k xs), q, w, (drop (S k) xs). split_and!; [done| | |].
  - rewrite length_take. apply lookup_lt_Some in Hq. lia.
  - cbn [mbind option_bind]. by rewrite Hq.
  - rewrite <- Hsplit in Hl. destruct (is_list_node _ _ _ _ _ _ Hl) as (Hn & _).
    simpl. by rewrite Hn.
Qed.

Lemma find_vals f (xs : list cell) : List.find f (vals xs) = snd <$> List.find (fun c => f (snd c)) xs.
Proof. induction xs as [|[q v] xs IH]; simpl; [done|]. by destruct (f v). Qed.

(** The lists of values on both sides of a node. *)
Lemma vals_split ys (q : ptr) w zs :
  take (length ys) (vals (ys ++ (q, w) :: zs)) = vals ys /\
  drop (length ys) (vals (ys ++ (q, w) :: zs)) = w :: vals zs /\
  vals (ys ++ (q, w) :: zs) !! length ys = Some w /\
  take (S (length ys)) (vals (ys ++ (q, w) :: zs)) = vals ys ++ [w] /\
  drop (S (length ys)) (vals (ys ++ (q, w) :: zs)) = vals zs.
Proof.
  assert (Hlen : length (vals ys) = length ys) by apply length_map.
  rewrite vals_app. simpl. rewrite <- Hlen. split_and!.
  - by rewrite take_app_length.
  - by rewrite drop_app_length.
  - by rewrite list_lookup_middle.
  - rewrite <- Nat.add_1_r, take_app_add. done.
  - rewrite <- Nat.add_1_r, drop_app_add. done.
Qed.

Lemma run_list_op_ok h l xs o :
  is_list h l xs -> zlen xs + 1 < 2 ^ 64 ->
  exists h' l' xs', run_list_op h l o = Some (h', l', snd (spec_list_op (l_match l) (vals xs) o)) /\
    is_list h' l' xs' /\ vals xs' = fst (spec_list_op (l_match l) (vals xs) o) /\
    l_match l' = l_match l /\ zlen xs' <= zlen xs + 1.
Proof.
  intros Hl Hmax. destruct o as [v|v|i v after|i| |i|key|];
    cbn [run_list_op spec_list_op fst snd].
  - destruct (listAddNodeHead_ok h l xs (alloc h) v Hl) as (h' & l' & -> & Hl' & _ & Hm); [done|lia|].
    eexists h', l', _. split_and!; [done|done|done|apply Hm|zlens; lia].
  - destruct (listAddNodeTail_ok h l xs (alloc h) v Hl) as (h' & l' & -> & Hl' & _ & Hm); [done|lia|].
    eexists h', l', _. split_and!; [done|done|by rewrite vals_app|apply Hm|zlens; lia].
  - pose proof (index_split h l xs i Hl) as Hi. destruct (norm (length (vals xs)) i) as [k|].
    + destruct Hi as (ys & q & w & zs & -> & <- & -> & Hv). cbn [mbind option_bind]. rewrite Hv.
      cbn [mbind option_bind]. destruct (vals_split ys q w zs) as (Ht & Hd & Hlk & HtS & HdS).
      destruct (listInsertNode_ok h l ys q w zs (alloc h) v after Hl) as (h' & l' & -> & Hl' & _ & Hm);
        [done|lia|]. cbn [mbind option_bind]. eexists h', l', _.
      split_and!; [by rewrite Hlk|done| |apply Hm|by destruct after; zlens; lia].
      destruct after; simpl; rewrite ?Ht, ?Hd, ?HtS, ?HdS, vals_app; simpl;
        rewrite <- ?(assoc_L (++)); done.
    + rewrite Hi. cbn [mbind option_bind node_value]. exists h, l, xs. split_and!; try done; lia.
  - pose proof (index_split h l xs i Hl) as Hi. destruct (norm (length (vals xs)) i) as [k|].
    + destruct Hi as (ys & q & w & zs & -> & <- & -> & Hv). cbn [mbind option_bind]. rewrite Hv.
      cbn [mbind option_bind]. destruct (vals_split ys q w zs) as (Ht & Hd & Hlk & HtS & HdS).
      destruct (listDelNode_ok h l ys q w zs Hl) as (h' & l' & -> & Hl' & _ & _ & Hm); [lia|].
      cbn [mbind option_bind]. eexists h', l', _.
      split_and!; [by rewrite Hlk|done|simpl; by rewrite Ht, HdS, vals_app|apply Hm|zlens; lia].
    + rewrite Hi. cbn [mbind option_bind node_value]. exists h, l, xs. split_and!; try done; lia.
  - destruct xs as [|[t v] ys _] using rev_ind.
    { unfold listRotate. pose proof Hl as (_ & _ & _ & _ & Hlen). rewrite Hlen. exists h, l, [].
      by split_and!. }
    destruct (listRotate_ok h l ys t v Hl) as (h' & l' & -> & Hl' & _ & Hm). cbn [mbind option_bind].
    eexists h', l', _. split_and!; [done|done| |apply Hm|zlens; lia].
    rewrite vals_app. change (vals [(t, v)]) with [v]. by rewrite last_snoc, removelast_last.
  - pose proof (index_split h l xs i Hl) as Hi. exists h, l, xs.
    destruct (norm (length (vals xs)) i) as [k|].
    + destruct Hi as (ys & q & w & zs & -> & <- & -> & Hv). cbn [mbind option_bind]. rewrite Hv.
      cbn [mbind option_bind]. destruct (vals_split ys q w zs) as (_ & _ & -> & _). split_and!; try done; lia.
    + rewrite Hi. split_and!; try done; lia.
  - rewrite (listSearchKey_ok _ _ _ _ Hl). cbn [mbind option_bind]. exists h, l, xs.
    rewrite find_vals. change (fun c : cell => _) with (matches l key).
    destruct (List.find (matches l key) xs) as [[q w]|] eqn:Hfind; simpl; [|by split_and!; try done; lia].
    apply List.find_some in Hfind as [Hin%list_elem_of_In _].
    destruct (dseg_lookup _ _ _ _ _ _ (proj1 (proj2 Hl)) Hin) as (x & -> & <-).
    split_and!; try done; lia.
  - destruct (listEmpty_ok h l xs Hl) as (h' & l' & -> & Hl' & Hm & _). cbn [mbind option_bind].
    exists h', l', []. pose proof (zlen_nonneg xs). split_and!; try done; [apply Hm|zlens; lia].
Qed.

Lemma run_list_ops_ok os h l xs :
  is_list h l xs -> zlen xs + zlen os < 2 ^ 64 ->
  exists h' l' xs', run_list_ops h l os = Some (h', l', snd (spec_list_ops (l_match l) (vals xs) os)) /\
    is_list h' l' xs' /\ vals xs' = fst (spec_list_ops (l_match l) (vals xs) os).
Proof.
  revert h l xs. induction os as [|o os IH]; intros h l xs Hl Hmax; [by exists h, l, xs|].
  zlens. pose proof (zlen_nonneg os).
  destruct (run_list_op_ok h l xs o Hl) as (h1 & l1 & xs1 & Hrun & Hl1 & Hv1 & Hm1 & Hn1); [lia|].
  cbn [run_list_ops spec_list_ops]. rewrite Hrun. cbn [mbind option_bind].
  destruct (IH h1 l1 xs1 Hl1) as (h2 & l2 & xs2 & -> & Hl2 & Hv2); [lia|].
  cbn [mbind option_bind]. rewrite Hm1, Hv1 in *.
  destruct (spec_list_op (l_match l) (vals xs) o) as [vs r]. cbn [fst snd] in *.
  destruct (spec_list_ops (l_match l) vs os) as [vs' rs]. by exists h2, l2, xs2.
Qed.

(** C5: on a list made by [listCreate], every sequence of insertions at both ends,
    before and after a node, deletions, rotations, searches, index look-ups
    (from either end) and clearings runs without following a NULL or dangling
    pointer, and behaves as the corresponding functions on a list of values; the
    links in both directions, the end pointers and the length stay consistent. *)
Theorem adlist_history_refines (h : heap) (os : list list_op) :
  zlen os < 2 ^ 64 ->
  exists h' l' xs, run_list_ops h listCreate os = Some (h', l', snd (spec_list_ops None [] os)) /\
    is_list h' l' xs /\ vals xs = fst (spec_list_ops None [] os).
Proof.
  intros Hmax. apply (run_list_ops_ok os h listCreate []); [|done].
  split_and!; try done. constructor.
Qed.
End AdlistSpec.

(** ** Instances *)

Definition fresh_ptr (h : gmap ptr (listNode Z)) : ptr := fresh (dom h : gset ptr).
Lemma fresh_ptr_fresh h : h !! fresh_ptr h = None.
Proof. apply (not_elem_of_dom (D:=gset ptr)). exact (is_fresh (dom h : gset ptr)). Qed.

Definition sample_list_ops : list (list_op (V:=Z)) :=
  [LPushTail 1; LPushTail 2; LPushHead 0; LInsert (-1) 9 false; LRotate; LDelete 1; LIndex (-1);
   LSearch 1; LSearch 7].

Lemma adlist_history_refines_witness :
  exists h' l' xs, run_list_ops fresh_ptr ∅ listCreate sample_list_ops =
      Some (h', l', [None; None; None; Some 2; None; Some 0; Some 9; Some 1; None]) /\
    is_list h' l' xs /\ vals xs = [2; 1; 9].
Proof.
  destruct (adlist_history_refines fresh_ptr fresh_ptr_fresh ∅ sample_list_ops) as (h' & l' & xs & Hr & Hl & Hv);
    [done|].
  exists h', l', xs. vm_compute in Hv. vm_compute (spec_list_ops _ _ _) in Hr.
  split_and!; [exact Hr|exact Hl|exact Hv].
Defined.

Definition two_cells : list (ptr * Z) := [(1%positive, 10); (2%positive, 20)].
Definition two_heap : gmap ptr (listNode Z) :=
  {[ 1%positive := mk_node None (Some 2%positive) 10; 2%positive := mk_node (Some 1%positive) None 20 ]}.
Definition two_list : alist Z := mk_list (Some 1%positive) (Some 2%positive) None false None 2.
Lemma two_is_list : is_list two_heap two_list two_cells.
Proof.
  split_and!; try done. unfold ptrs. simpl. repeat constructor; set_solver.
Qed.

