(* ===== verification/Sds.v ===== *)
(** * Sds: the dynamic strings of [sds.c] and [sds.h]

    An sds is one allocation, a list of bytes that holds the header and the
    buffer, and the offset of the buffer in it (what the [char *] points to).
    Header fields are stored in the byte order [be] of the host; fresh memory
    has the arbitrary contents [junk].  [zmalloc] and [zrealloc] do not return
    when memory is exhausted, so the NULL paths of the file are dead and left
    out. *)
From stdpp Require Import base option list numbers.
From Stdlib Require Import ZArith Lia Bool.
From S2P Require Import Prelude Endian.
Open Scope Z_scope.

Definition SDS_TYPE_5 : Z := 0.
Definition SDS_TYPE_8 : Z := 1.
Definition SDS_TYPE_16 : Z := 2.
Definition SDS_TYPE_32 : Z := 3.
Definition SDS_TYPE_64 : Z := 4.
Definition SDS_TYPE_MASK : Z := 7.
Definition SDS_TYPE_BITS : Z := 3.
Definition SDS_MAX_PREALLOC : Z := 1024 * 1024.

Record sds := mk_sds { mem : list Z; base : Z }.

Section Sds.
Variable be : bool.
Variable junk : nat -> Z.

(** ** Memory accesses relative to the pointer *)

Definition s_get (s : sds) (i : Z) : option Z := znth (mem s) (base s + i).
Definition s_set (s : sds) (i x : Z) : option sds :=
  m ← zset (mem s) (base s + i) x; Some (mk_sds m (base s)).
Definition s_rd (s : sds) (i n : Z) : option (list Z) := rd (mem s) (base s + i) n.
Definition s_wr (s : sds) (i : Z) (x : list Z) : option sds :=
  m ← wr (mem s) (base s + i) x; Some (mk_sds m (base s)).

(** ** Headers *)

(** The width in bytes of the fields of [struct sdshdr<T>]. *)
Definition field_width (type : Z) : nat :=
  if type =? SDS_TYPE_8 then 1%nat else if type =? SDS_TYPE_16 then 2%nat
  else if type =? SDS_TYPE_32 then 4%nat else 8%nat.

Definition sdsHdrSize (type : Z) : Z :=
  let t := Z.land type SDS_TYPE_MASK in
  if t =? SDS_TYPE_5 then 1
  else if t =? SDS_TYPE_8 then 3
  else if t =? SDS_TYPE_16 then 5
  else if t =? SDS_TYPE_32 then 9
  else if t =? SDS_TYPE_64 then 17
  else 0.

Definition sdsReqType (string_size : Z) : Z :=
  if string_size <? Z.shiftl 1 5 then SDS_TYPE_5
  else if string_size <? Z.shiftl 1 8 then SDS_TYPE_8
  else if string_size <? Z.shiftl 1 16 then SDS_TYPE_16
  else if string_size <? Z.shiftl 1 32 then SDS_TYPE_32
  else SDS_TYPE_64.

(** [SDS_HDR(T,s)->len] and [SDS_HDR(T,s)->alloc], reading and writing. *)
Definition hdr_len_off (type : Z) : Z := - (2 * Z.of_nat (field_width type) + 1).
Definition hdr_alloc_off (type : Z) : Z := - (Z.of_nat (field_width type) + 1).
Definition get_field (s : sds) (type off : Z) : option Z :=
  x ← s_rd s off (Z.of_nat (field_width type)); Some (host_load be x).
Definition set_field (s : sds) (type off v : Z) : option sds :=
  s_wr s off (host_store be (field_width type) v).

(** Is the type one of those with a [struct sdshdr]? *)
Definition has_hdr (type : Z) : bool := (SDS_TYPE_8 <=? type) && (type <=? SDS_TYPE_64).

Definition sdslen (s : sds) : option Z :=
  flags ← s_get s (-1);
  let type := Z.land flags SDS_TYPE_MASK in
  if type =? SDS_TYPE_5 then Some (Z.shiftr flags SDS_TYPE_BITS)
  else if has_hdr type then get_field s type (hdr_len_off type)
  else Some 0.

Definition sdsavail (s : sds) : option Z :=
  flags ← s_get s (-1);
  let type := Z.land flags SDS_TYPE_MASK in
  if type =? SDS_TYPE_5 then Some 0
  else if has_hdr type then
    alloc ← get_field s type (hdr_alloc_off type);
    len ← get_field s type (hdr_len_off type);
    Some (if type =? SDS_TYPE_32 then u32 (alloc - len) else u64 (alloc - len))
  else Some 0.

Definition sdssetlen (s : sds) (newlen : Z) : option sds :=
  flags ← s_get s (-1);
  let type := Z.land flags SDS_TYPE_MASK in
  if type =? SDS_TYPE_5 then
    s_set s (-1) (u8 (Z.lor SDS_TYPE_5 (Z.shiftl newlen SDS_TYPE_BITS)))
  else if has_hdr type then set_field s type (hdr_len_off type) newlen
  else Some s.

Definition sdsinclen (s : sds) (inc : Z) : option sds :=
  flags ← s_get s (-1);
  let type := Z.land flags SDS_TYPE_MASK in
  if type =? SDS_TYPE_5 then
    let newlen := u8 (Z.shiftr flags SDS_TYPE_BITS + inc) in
    s_set s (-1) (u8 (Z.lor SDS_TYPE_5 (Z.shiftl newlen SDS_TYPE_BITS)))
  else if has_hdr type then
    len ← get_field s type (hdr_len_off type);
    set_field s type (hdr_len_off type) (len + inc)
  else Some s.

Definition sdsalloc (s : sds) : option Z :=
  flags ← s_get s (-1);
  let type := Z.land flags SDS_TYPE_MASK in
  if type =? SDS_TYPE_5 then Some (Z.shiftr flags SDS_TYPE_BITS)
  else if has_hdr type then get_field s type (hdr_alloc_off type)
  else Some 0.

Definition sdssetalloc (s : sds) (newlen : Z) : option sds :=
  flags ← s_get s (-1);
  let type := Z.land flags SDS_TYPE_MASK in
  if has_hdr type then set_field s type (hdr_alloc_off type) newlen
  else Some s.

(** ** Creation *)

(** The [init] argument of [sdsnewlen]. *)
Inductive sds_init := InitNull | InitNoInit | InitBytes (l : list Z).

Definition zmalloc (size : Z) : list Z := garbage junk 0 (Z.to_nat size).

Definition sdsnewlen (init : sds_init) (initlen : Z) : option sds :=
  let type := sdsReqType initlen in
  let type := if (type =? SDS_TYPE_5) && (initlen =? 0) then SDS_TYPE_8 else type in
  let hdrlen := sdsHdrSize type in
  let size := u64 (hdrlen + initlen + 1) in
  let sh := match init with InitNull => replicate (Z.to_nat size) 0 | _ => zmalloc size end in
  let s := mk_sds sh hdrlen in
  s ← (if type =? SDS_TYPE_5 then
         s_set s (-1) (u8 (Z.lor type (Z.shiftl initlen SDS_TYPE_BITS)))
       else
         s ← set_field s type (hdr_len_off type) initlen;
         s ← set_field s type (hdr_alloc_off type) initlen;
         s_set s (-1) type);
  s ← match init with
      | InitBytes l => if initlen =? 0 then Some s else x ← rd l 0 initlen; s_wr s 0 x
      | _ => Some s
      end;
  s_set s initlen 0.

Definition sdsempty : option sds := sdsnewlen (InitBytes [0]) 0.

(** [strlen] of the C string that starts at offset [i] of a block. *)
Fixpoint strlen_from (fuel : nat) (l : list Z) (i n : Z) : option Z :=
  match fuel with
  | O => None
  | S fuel => c ← znth l i; if c =? 0 then Some n else strlen_from fuel l (i + 1) (n + 1)
  end.
Definition strlen (l : list Z) : option Z := strlen_from (S (length l)) l 0 0.

Definition sdsnew (init : option (list Z)) : option sds :=
  match init with
  | None => sdsnewlen InitNull 0
  | Some l => initlen ← strlen l; sdsnewlen (InitBytes l) initlen
  end.

(** The bytes a [char *] into the buffer gives access to. *)
Definition s_bytes (s : sds) : list Z := drop (Z.to_nat (base s)) (mem s).
Definition sdsdup (s : sds) : option sds :=
  len ← sdslen s; sdsnewlen (InitBytes (s_bytes s)) len.

Definition sdsupdatelen (s : sds) : option sds :=
  reallen ← strlen (s_bytes s); sdssetlen s reallen.

Definition sdsclear (s : sds) : option sds :=
  s ← sdssetlen s 0; s_set s 0 0.

(** ** Reallocation *)

(** [(char* )s - hdrlen] is the start of the allocation; anything else cannot be
    given to [zrealloc] or [zfree]. *)
Definition block (s : sds) (hdrlen : Z) : option (list Z) :=
  if base s =? hdrlen then Some (mem s) else None.

(** [newsh = s_realloc(sh, size); s = newsh + hdrlen] *)
Definition sds_realloc (s : sds) (hdrlen size : Z) : option sds :=
  sh ← block s hdrlen;
  Some (mk_sds (zrealloc junk sh size) hdrlen).
(** [newsh = s_malloc(size); memcpy(newsh + hdrlen, s, len+1); s_free(sh);
     s = newsh + hdrlen; s[-1] = type; sdssetlen(s, len);] *)
Definition sds_move (s : sds) (oldhdrlen type hdrlen size len : Z) : option sds :=
  x ← s_rd s 0 (u64 (len + 1));
  newsh ← wr (zmalloc size) hdrlen x;
  _ ← block s oldhdrlen;
  s ← s_set (mk_sds newsh hdrlen) (-1) type;
  sdssetlen s len.

Definition sdsMakeRoomFor (s : sds) (addlen : Z) : option sds :=
  avail ← sdsavail s;
  flags ← s_get s (-1);
  let oldtype := Z.land flags SDS_TYPE_MASK in
  if addlen <=? avail then Some s
  else
    len ← sdslen s;
    let newlen := u64 (len + addlen) in
    let newlen := if newlen <? SDS_MAX_PREALLOC then u64 (newlen * 2) else u64 (newlen + SDS_MAX_PREALLOC) in
    let type := sdsReqType newlen in
    let type := if type =? SDS_TYPE_5 then SDS_TYPE_8 else type in
    let hdrlen := sdsHdrSize type in
    let size := u64 (hdrlen + newlen + 1) in
    s ← (if oldtype =? type then sds_realloc s hdrlen size
         else sds_move s (sdsHdrSize oldtype) type hdrlen size len);
    sdssetalloc s newlen.

Definition sdsRemoveFreeSpace (s : sds) : option sds :=
  flags ← s_get s (-1);
  let oldtype := Z.land flags SDS_TYPE_MASK in
  let oldhdrlen := sdsHdrSize oldtype in
  len ← sdslen s;
  avail ← sdsavail s;
  if avail =? 0 then Some s
  else
    let type := sdsReqType len in
    let hdrlen := sdsHdrSize type in
    s ← (if (oldtype =? type) || (SDS_TYPE_8 <? type)
         then sds_realloc s oldhdrlen (u64 (oldhdrlen + len + 1))
         else sds_move s oldhdrlen type hdrlen (u64 (hdrlen + len + 1)) len);
    sdssetalloc s len.

Definition sdsAllocSize (s : sds) : option Z :=
  alloc ← sdsalloc s;
  flags ← s_get s (-1);
  Some (u64 (sdsHdrSize flags + alloc + 1)).

(** ** Updates *)

Definition sdsIncrLen (s : sds) (incr : Z) : option sds :=
  flags ← s_get s (-1);
  let type := Z.land flags SDS_TYPE_MASK in
  if type =? SDS_TYPE_5 then
    let oldlen := Z.shiftr flags SDS_TYPE_BITS in
    if ((0 <? incr) && (oldlen + incr <? 32)) || ((incr <? 0) && (u32 (- incr) <=? oldlen)) then
      s ← s_set s (-1) (u8 (Z.lor SDS_TYPE_5 (Z.shiftl (oldlen + incr) SDS_TYPE_BITS)));
      s_set s (oldlen + incr) 0
    else None
  else if has_hdr type then
    alloc ← get_field s type (hdr_alloc_off type);
    len ← get_field s type (hdr_len_off type);
    let room :=
      if type =? SDS_TYPE_64 then (u64 incr <=? u64 (alloc - len))
      else if type =? SDS_TYPE_32 then (u32 incr <=? u32 (alloc - len))
      else (incr <=? alloc - len) in
    let enough := (if type =? SDS_TYPE_64 then u64 (- incr) else u32 (- incr)) <=? len in
    if ((0 <=? incr) && room) || ((incr <? 0) && enough) then
      s ← set_field s type (hdr_len_off type) (len + incr);
      len ← get_field s type (hdr_len_off type);
      s_set s len 0
    else None
  else s_set s 0 0.

Definition sdsgrowzero (s : sds) (len : Z) : option sds :=
  curlen ← sdslen s;
  if len <=? curlen then Some s
  else
    s ← sdsMakeRoomFor s (len - curlen);
    s ← s_wr s curlen (replicate (Z.to_nat (len - curlen + 1)) 0);
    sdssetlen s len.

Definition sdscatlen (s : sds) (t : list Z) (len : Z) : option sds :=
  curlen ← sdslen s;
  s ← sdsMakeRoomFor s len;
  x ← rd t 0 len;
  s ← s_wr s curlen x;
  s ← sdssetlen s (u64 (curlen + len));
  s_set s (u64 (curlen + len)) 0.
Definition sdscat (s : sds) (t : list Z) : option sds := n ← strlen t; sdscatlen s t n.
Definition sdscatsds (s t : sds) : option sds := n ← sdslen t; sdscatlen s (s_bytes t) n.

Definition sdscpylen (s : sds) (t : list Z) (len : Z) : option sds :=
  alloc ← sdsalloc s;
  s ← (if alloc <? len then n ← sdslen s; sdsMakeRoomFor s (u64 (len - n)) else Some s);
  x ← rd t 0 len;
  s ← s_wr s 0 x;
  s ← s_set s len 0;
  sdssetlen s len.
Definition sdscpy (s : sds) (t : list Z) : option sds := n ← strlen t; sdscpylen s t n.

(** [strchr(cset, c)] for the C string [cset]: the terminator is found too. *)
Fixpoint strchr_from (fuel : nat) (cset : list Z) (i c : Z) : option bool :=
  match fuel with
  | O => None
  | S fuel =>
      x ← znth cset i;
      if x =? c then Some true else if x =? 0 then Some false else strchr_from fuel cset (i + 1) c
  end.
Definition strchr (cset : list Z) (c : Z) : option bool := strchr_from (S (length cset)) cset 0 c.

(** [while(sp <= end && strchr(cset, *sp)) sp++;] with offsets for pointers. *)
Fixpoint trim_left (fuel : nat) (s : sds) (cset : list Z) (sp end_ : Z) : option Z :=
  match fuel with
  | O => None
  | S fuel =>
      if sp <=? end_ then
        c ← s_get s sp;
        hit ← strchr cset c;
        if (hit : bool) then trim_left fuel s cset (sp + 1) end_ else Some sp
      else Some sp
  end.
(** [while(ep > sp && strchr(cset, *ep)) ep--;] *)
Fixpoint trim_right (fuel : nat) (s : sds) (cset : list Z) (sp ep : Z) : option Z :=
  match fuel with
  | O => None
  | S fuel =>
      if sp <? ep then
        c ← s_get s ep;
        hit ← strchr cset c;
        if (hit : bool) then trim_right fuel s cset sp (ep - 1) else Some ep
      else Some ep
  end.
Definition sdstrim (s : sds) (cset : list Z) : option sds :=
  n ← sdslen s;
  sp ← trim_left (S (length (mem s))) s cset 0 (n - 1);
  ep ← trim_right (S (length (mem s))) s cset sp (n - 1);
  let len := if ep <? sp then 0 else ep - sp + 1 in
  s ← (if sp =? 0 then Some s else x ← s_rd s sp len; s_wr s 0 x);
  s ← s_set s len 0;
  sdssetlen s len.

(** [(end-start)+1] is computed as [ssize_t] and converted to [size_t]. *)
Definition sdsrange (s : sds) (start end_ : Z) : option sds :=
  len ← sdslen s;
  if len =? 0 then Some s
  else
    let start := if start <? 0 then (let t := i64 (len + start) in if t <? 0 then 0 else t) else start in
    let end_ := if end_ <? 0 then (let t := i64 (len + end_) in if t <? 0 then 0 else t) else end_ in
    let newlen := if end_ <? start then 0 else u64 (i64 (end_ - start + 1)) in
    let '(start, newlen) :=
      if newlen =? 0 then (0, newlen)
      else if i64 len <=? start then (start, 0)
      else if i64 len <=? end_ then
        let end_ := len - 1 in (start, if end_ <? start then 0 else end_ - start + 1)
      else (start, newlen) in
    s ← (if negb (start =? 0) && negb (newlen =? 0) then x ← s_rd s start newlen; s_wr s 0 x
         else Some s);
    s ← s_set s newlen 0;
    sdssetlen s newlen.

(** [for (j = 0; j < len; j++) s[j] = f(s[j]);] *)
Fixpoint map_loop (fuel : nat) (f : Z -> Z) (s : sds) (j : Z) : option sds :=
  match fuel with
  | O => Some s
  | S fuel => c ← s_get s j; s ← s_set s j (f c); map_loop fuel f s (j + 1)
  end.
(** [tolower] and [toupper] in the C locale *)
Definition tolower (c : Z) : Z := if (65 <=? c) && (c <=? 90) then c + 32 else c.
Definition toupper (c : Z) : Z := if (97 <=? c) && (c <=? 122) then c - 32 else c.
Definition sdstolower (s : sds) : option sds := len ← sdslen s; map_loop (Z.to_nat len) tolower s 0.
Definition sdstoupper (s : sds) : option sds := len ← sdslen s; map_loop (Z.to_nat len) toupper s 0.

(** The substitution [sdsmapchars] makes of one character. *)
Fixpoint map_char (from to : list Z) (c : Z) : Z :=
  match from, to with
  | f :: from, t :: to => if c =? f then t else map_char from to c
  | _, _ => c
  end.
Definition sdsmapchars (s : sds) (from to : list Z) (setlen : Z) : option sds :=
  l ← sdslen s;
  f ← rd from 0 setlen;
  t ← rd to 0 setlen;
  map_loop (Z.to_nat l) (map_char f t) s 0.

Definition sdscmp (s1 s2 : sds) : option Z :=
  l1 ← sdslen s1;
  l2 ← sdslen s2;
  let minlen := if l1 <? l2 then l1 else l2 in
  a ← s_rd s1 0 minlen;
  b ← s_rd s2 0 minlen;
  let cmp := memcmp a b in
  Some (if cmp =? 0 then (if l2 <? l1 then 1 else if l1 <? l2 then -1 else 0) else cmp).
End Sds.

(** ** Layout *)

Section SdsSpec.
Variable be : bool.
Variable junk : nat -> Z.

(** The header of an sds of type [ty]. *)
Definition header (ty len al : Z) : list Z :=
  if ty =? SDS_TYPE_5 then [len * 8]
  else host_store be (field_width ty) len ++ host_store be (field_width ty) al ++ [ty].

(** The lengths a header of type [ty] can hold are below [cap ty]. *)
Definition cap (ty : Z) : Z :=
  if ty =? SDS_TYPE_5 then 32 else 2 ^ (8 * Z.of_nat (field_width ty)).

(** A header followed by a buffer, with no relation between the two. *)
Definition raw (s : sds) (ty len al : Z) (buf : list Z) : Prop :=
  mem s = header ty len al ++ buf /\ base s = sdsHdrSize ty /\ 0 <= ty <= 4 /\
  0 <= len < cap ty /\ 0 <= al < cap ty.

(** A string with contents [c] and room for [al] bytes: the buffer holds the
    contents, one byte [z] and at least [al - zlen c] more bytes.  It is well
    formed when [z] is the terminator. *)
Definition repz (z : Z) (s : sds) (ty : Z) (c : list Z) (al : Z) : Prop :=
  exists free, raw s ty (zlen c) al (c ++ z :: free) /\
    zlen c <= al <= zlen c + zlen free /\ (ty = SDS_TYPE_5 -> al = zlen c).
Definition rep (s : sds) (ty : Z) (c : list Z) (al : Z) : Prop := repz 0 s ty c al.

Lemma ty_cases (ty : Z) (P : Z -> Prop) :
  0 <= ty <= 4 -> P 0 -> P 1 -> P 2 -> P 3 -> P 4 -> P ty.
Proof.
  intros Hty H0 H1 H2 H3 H4.
  assert (ty = 0 \/ ty = 1 \/ ty = 2 \/ ty = 3 \/ ty = 4) as [->|[->|[->|[->| ->]]]] by lia; done.
Qed.

Lemma hdr_size ty : 1 <= ty <= 4 -> sdsHdrSize ty = 2 * Z.of_nat (field_width ty) + 1.
Proof.
  intros Hty. assert (ty = 1 \/ ty = 2 \/ ty = 3 \/ ty = 4) as [->|[->|[->| ->]]] by lia; done.
Qed.

Lemma zlen_header ty len al : 0 <= ty <= 4 -> zlen (header ty len al) = sdsHdrSize ty.
Proof.
  intros Hty. unfold header, SDS_TYPE_5. destruct (Z.eqb_spec ty 0) as [->|Hne]; [done|].
  rewrite hdr_size by lia. zlens. change (zlen [ty]) with 1. lia.
Qed.

Lemma land_type ty : 0 <= ty <= 4 -> Z.land ty SDS_TYPE_MASK = ty.
Proof. intros Hty. by apply (ty_cases ty (fun ty => Z.land ty SDS_TYPE_MASK = ty)). Qed.

Lemma shift_len len : Z.lor SDS_TYPE_5 (Z.shiftl len SDS_TYPE_BITS) = len * 8.
Proof. unfold SDS_TYPE_5, SDS_TYPE_BITS. rewrite Z.lor_0_l, Z.shiftl_mul_pow2 by lia. done. Qed.

Lemma flags_5 len :
  Z.land (len * 8) SDS_TYPE_MASK = 0 /\ Z.shiftr (len * 8) SDS_TYPE_BITS = len.
Proof.
  split.
  - change SDS_TYPE_MASK with (Z.ones 3). rewrite Z.land_ones by lia. apply Z_mod_mult.
  - unfold SDS_TYPE_BITS. rewrite Z.shiftr_div_pow2 by lia. change (2 ^ 3) with 8.
    apply Z.div_mul. lia.
Qed.

(** *** The buffer *)

Lemma raw_base s ty len al buf : raw s ty len al buf -> base s = zlen (header ty len al).
Proof. intros (_ & Hb & Hty & _). by rewrite zlen_header. Qed.

Lemma raw_rd s ty len al buf i n :
  raw s ty len al buf -> 0 <= i -> 0 <= n -> s_rd s i n = rd buf i n.
Proof.
  intros Hr Hi Hn. unfold s_rd. rewrite (raw_base _ _ _ _ _ Hr). destruct Hr as [-> _].
  set (h := header ty len al). unfold rd. pose proof (zlen_nonneg h). zlens.
  destruct (Z.leb_spec (i + n) (zlen buf)).
  - zb_true. do 2 f_equal. rewrite drop_app_ge by (unfold zlen in *; lia).
    f_equal. unfold zlen in *. lia.
  - rewrite (proj2 (Z.leb_gt (zlen h + i + n) _)) by lia. by rewrite !andb_false_r.
Qed.

Lemma raw_wr s ty len al buf i x buf' :
  raw s ty len al buf -> 0 <= i -> wr buf i x = Some buf' ->
  exists s', s_wr s i x = Some s' /\ raw s' ty len al buf'.
Proof.
  intros Hr Hi Hw. unfold s_wr. pose proof (raw_base _ _ _ _ _ Hr) as Hb.
  destruct Hr as (Hm & Hb' & Hrest). rewrite Hb, Hm.
  destruct (wr_split _ _ _ _ Hw) as (p & y & t & -> & -> & Hp & Hy).
  rewrite (assoc_L (++) (header ty len al) p (y ++ t)).
  rewrite (wr_seg (header ty len al ++ p)) by (zlens; lia). cbn [mbind option_bind].
  eexists. split; [done|]. split_and!; simpl; try done; try apply Hrest.
  - by rewrite !(assoc_L (++)).
  - by rewrite zlen_header by apply Hrest.
Qed.

Lemma raw_set s ty len al buf i x :
  raw s ty len al buf -> 0 <= i < zlen buf ->
  exists s', s_set s i x = Some s' /\ raw s' ty len al (<[Z.to_nat i := x]> buf).
Proof.
  intros Hr Hi. destruct (raw_wr s ty len al buf i [x] (<[Z.to_nat i := x]> buf) Hr)
    as (s' & Hs & Hr'); [lia| |].
  - rewrite <- zset_wr. by apply zset_Some.
  - exists s'. split; [|done]. unfold s_wr in Hs. unfold s_set. by rewrite zset_wr.
Qed.

Lemma raw_get s ty len al buf i x :
  raw s ty len al buf -> 0 <= i -> buf !! Z.to_nat i = Some x -> s_get s i = Some x.
Proof.
  intros Hr Hi Hx. unfold s_get. rewrite (raw_base _ _ _ _ _ Hr). destruct Hr as [-> _].
  pose proof (zlen_nonneg (header ty len al)). rewrite znth_nat by lia.
  rewrite lookup_app_r by (unfold zlen in *; lia). rewrite <- Hx. f_equal. unfold zlen. lia.
Qed.

(** *** The header *)

Lemma raw_flags s ty len al buf :
  raw s ty len al buf ->
  exists flags, s_get s (-1) = Some flags /\ Z.land flags SDS_TYPE_MASK = ty /\
    (ty = 0 -> Z.shiftr flags SDS_TYPE_BITS = len).
Proof.
  intros Hr. pose proof (raw_base _ _ _ _ _ Hr) as Hb. destruct Hr as (Hm & _ & Hty & _).
  unfold s_get. rewrite Hb, Hm. unfold header, SDS_TYPE_5. destruct (Z.eqb_spec ty 0) as [->|Hne].
  - exists (len * 8). pose proof (flags_5 len) as [? ?]. split_and!; try done.
  - exists ty. split_and!; [|by apply land_type|done].
    set (p := host_store be (field_width ty) len ++ host_store be (field_width ty) al).
    rewrite !(assoc_L (++)). fold p. rewrite <- (assoc_L (++)). cbn [app].
    assert (zlen (p ++ [ty]) + -1 = zlen p) as -> by (zlens; change (zlen [ty]) with 1; lia).
    rewrite znth_nat by apply zlen_nonneg. unfold zlen. rewrite Nat2Z.id.
    by rewrite list_lookup_middle.
Qed.

Lemma host_field w v : 0 <= v < 2 ^ (8 * Z.of_nat w) -> host_load be (host_store be w v) = v.
Proof. intros Hv. rewrite host_load_store. by apply wrap_id. Qed.

Lemma raw_hdr s ty len al buf :
  raw s ty len al buf -> ty <> 0 -> has_hdr ty = true /\ 1 <= ty <= 4 /\
    0 <= len < 2 ^ (8 * Z.of_nat (field_width ty)) /\ 0 <= al < 2 ^ (8 * Z.of_nat (field_width ty)).
Proof.
  intros (_ & _ & Hty & Hlen & Hal) Hne. unfold cap, SDS_TYPE_5 in *.
  rewrite (proj2 (Z.eqb_neq ty 0)) in Hlen, Hal by done. split_and!; try lia.
  unfold has_hdr, SDS_TYPE_8, SDS_TYPE_64. by zb_true.
Qed.

Lemma rd_head x t off n : off = 0 -> n = zlen x -> rd (x ++ t) off n = Some x.
Proof. intros. by apply (rd_seg []). Qed.

Lemma raw_get_len s ty len al buf :
  raw s ty len al buf -> ty <> 0 -> get_field be s ty (hdr_len_off ty) = Some len.
Proof.
  intros Hr Hne. pose proof (raw_hdr _ _ _ _ _ Hr Hne) as (_ & Hty & Hlen & Hal).
  destruct Hr as (Hm & Hb & _). unfold get_field, s_rd, hdr_len_off. rewrite Hb, Hm, hdr_size by done.
  unfold header, SDS_TYPE_5. rewrite (proj2 (Z.eqb_neq ty 0)) by done.
  rewrite <- (assoc_L (++)).
  rewrite (rd_head (host_store be (field_width ty) len)) by (zlens; lia).
  cbn [mbind option_bind]. by rewrite host_field.
Qed.

Lemma raw_get_alloc s ty len al buf :
  raw s ty len al buf -> ty <> 0 -> get_field be s ty (hdr_alloc_off ty) = Some al.
Proof.
  intros Hr Hne. pose proof (raw_hdr _ _ _ _ _ Hr Hne) as (_ & Hty & Hlen & Hal).
  destruct Hr as (Hm & Hb & _). unfold get_field, s_rd, hdr_alloc_off. rewrite Hb, Hm, hdr_size by done.
  unfold header, SDS_TYPE_5. rewrite (proj2 (Z.eqb_neq ty 0)) by done.
  rewrite <- !(assoc_L (++)).
  rewrite (rd_seg (host_store be (field_width ty) len) (host_store be (field_width ty) al)) by (zlens; lia).
  cbn [mbind option_bind]. by rewrite host_field.
Qed.

Lemma wr_head x y t off : off = 0 -> zlen x = zlen y -> wr (y ++ t) off x = Some (x ++ t).
Proof. intros -> Hl. by apply (wr_seg []). Qed.

(** The reads of the header. *)
Lemma sdslen_raw s ty len al buf : raw s ty len al buf -> sdslen be s = Some len.
Proof.
  intros Hr. destruct (raw_flags _ _ _ _ _ Hr) as (flags & Hf & Hty & H5). unfold sdslen.
  rewrite Hf. cbn [mbind option_bind]. rewrite Hty. unfold SDS_TYPE_5.
  destruct (Z.eqb_spec ty 0) as [H0|Hne]; [by rewrite H5|].
  destruct (raw_hdr _ _ _ _ _ Hr Hne) as (-> & _). by eapply raw_get_len.
Qed.

Lemma sdsalloc_raw s ty len al buf :
  raw s ty len al buf -> sdsalloc be s = Some (if ty =? 0 then len else al).
Proof.
  intros Hr. destruct (raw_flags _ _ _ _ _ Hr) as (flags & Hf & Hty & H5). unfold sdsalloc.
  rewrite Hf. cbn [mbind option_bind]. rewrite Hty. unfold SDS_TYPE_5.
  destruct (Z.eqb_spec ty 0) as [H0|Hne]; [by rewrite H5|].
  destruct (raw_hdr _ _ _ _ _ Hr Hne) as (-> & _). by eapply raw_get_alloc.
Qed.

Lemma sdsavail_raw s ty len al buf :
  raw s ty len al buf -> len <= al -> sdsavail be s = Some (if ty =? 0 then 0 else al - len).
Proof.
  intros Hr Hle. destruct (raw_flags _ _ _ _ _ Hr) as (flags & Hf & Hty & H5). unfold sdsavail.
  rewrite Hf. cbn [mbind option_bind]. rewrite Hty. unfold SDS_TYPE_5.
  destruct (Z.eqb_spec ty 0) as [H0|Hne]; [done|].
  destruct (raw_hdr _ _ _ _ _ Hr Hne) as (-> & Ht & Hl & Ha).
  rewrite (raw_get_alloc _ _ _ _ _ Hr Hne). cbn [mbind option_bind].
  rewrite (raw_get_len _ _ _ _ _ Hr Hne). cbn [mbind option_bind]. unfold u32, u64.
  assert (ty = 1 \/ ty = 2 \/ ty = 3 \/ ty = 4) as [->|[->|[->| ->]]] by lia;
    cbn in Ha, Hl |- *; rewrite wrap_id by (unfold in_u; lia); done.
Qed.

(** The writes of the header. *)
Lemma sdssetlen_raw s ty len al buf n :
  raw s ty len al buf -> 0 <= n < cap ty ->
  exists s', sdssetlen be s n = Some s' /\ raw s' ty n al buf.
Proof.
  intros Hr Hn. destruct (raw_flags _ _ _ _ _ Hr) as (flags & Hf & Hty & H5). unfold sdssetlen.
  rewrite Hf. cbn [mbind option_bind]. rewrite Hty. unfold SDS_TYPE_5.
  destruct (Z.eqb_spec ty 0) as [H0|Hne].
  - clear Hty H5. destruct Hr as (Hm & Hb & Ht & Hl & Ha). subst ty. cbn in Hn, Ha, Hm. change (sdsHdrSize 0) with 1 in Hb. unfold s_set.
    rewrite Hb, Hm, zset_Some by (zlens; pose proof (zlen_nonneg buf); lia).
    cbn [mbind option_bind]. eexists. split; [done|].
    change 0 with SDS_TYPE_5 at 1. rewrite shift_len. unfold u8. rewrite wrap_id by (unfold in_u; pow2s; lia).
    change (Z.to_nat (1 + -1)) with 0%nat. split_and!; simpl; try done; cbn; lia.
  - destruct (raw_hdr _ _ _ _ _ Hr Hne) as (-> & Ht & _ & _).
    destruct Hr as (Hm & Hb & Ht' & Hl & Ha). unfold set_field, s_wr, hdr_len_off.
    rewrite Hb, Hm, hdr_size by done. unfold header, SDS_TYPE_5. rewrite (proj2 (Z.eqb_neq ty 0)) by done.
    rewrite <- (assoc_L (++)).
    rewrite (wr_head _ (host_store be (field_width ty) len)) by (zlens; lia).
    cbn [mbind option_bind]. eexists. split; [done|].
    split_and!; simpl; try done; try lia; [|by rewrite hdr_size by done].
    unfold header, SDS_TYPE_5. rewrite (proj2 (Z.eqb_neq ty 0)) by done. by rewrite <- !(assoc_L (++)).
Qed.

Lemma sdssetalloc_raw s ty len al buf n :
  raw s ty len al buf -> 0 <= n < cap ty ->
  exists s', sdssetalloc be s n = Some s' /\ raw s' ty len n buf.
Proof.
  intros Hr Hn. destruct (raw_flags _ _ _ _ _ Hr) as (flags & Hf & Hty & H5). unfold sdssetalloc.
  rewrite Hf. cbn [mbind option_bind]. rewrite Hty.
  destruct (Z.eqb_spec ty 0) as [->|Hne].
  - exists s. split; [done|]. destruct Hr as (Hm & Hb & Ht & Hl & Ha).
    split_and!; [exact Hm|done|lia..].
  - destruct (raw_hdr _ _ _ _ _ Hr Hne) as (-> & Ht & _ & _).
    destruct Hr as (Hm & Hb & Ht' & Hl & Ha). unfold set_field, s_wr, hdr_alloc_off.
    rewrite Hb, Hm, hdr_size by done. unfold header, SDS_TYPE_5. rewrite (proj2 (Z.eqb_neq ty 0)) by done.
    rewrite <- !(assoc_L (++)).
    rewrite (wr_seg (host_store be (field_width ty) len) (host_store be (field_width ty) al)) by (zlens; lia).
    cbn [mbind option_bind]. eexists. split; [done|].
    split_and!; simpl; try done; try lia; [|by rewrite hdr_size by done].
    unfold header, SDS_TYPE_5. rewrite (proj2 (Z.eqb_neq ty 0)) by done. by rewrite <- !(assoc_L (++)).
Qed.

(** *** Reallocation *)

Lemma sds_realloc_raw s ty len al buf m :
  raw s ty len al buf -> 0 <= m ->
  exists s' buf', sds_realloc junk s (sdsHdrSize ty) (sdsHdrSize ty + m) = Some s' /\
    raw s' ty len al buf' /\ zlen buf' = m /\
    (forall n, 0 <= n <= m -> n <= zlen buf -> take (Z.to_nat n) buf' = take (Z.to_nat n) buf).
Proof.
  intros Hr Hm. pose proof (raw_base _ _ _ _ _ Hr) as Hb0. destruct Hr as (Hmem & Hb & Hrest).
  unfold sds_realloc, block. rewrite Hb, Z.eqb_refl. cbn [mbind option_bind].
  set (h := header ty len al) in *. assert (Hh : sdsHdrSize ty = zlen h) by congruence.
  pose proof (zlen_nonneg h).
  set (m' := zrealloc junk (mem s) (sdsHdrSize ty + m)).
  assert (Hlen : zlen m' = zlen h + m) by (unfold m'; rewrite zrealloc_zlen; lia).
  assert (Hpre : m' = h ++ drop (length h) m').
  { unfold m', zrealloc. rewrite Hmem, Hh.
    assert (Htk : take (Z.to_nat (zlen h + m)) (h ++ buf) = h ++ take (Z.to_nat m) buf).
    { rewrite take_app_ge by (unfold zlen; lia). f_equal. f_equal. unfold zlen. lia. }
    rewrite Htk, <- (assoc_L (++)). by rewrite drop_app_length. }
  exists (mk_sds m' (sdsHdrSize ty)), (drop (length h) m'). split; [done|].
  split; [split_and!; simpl; try done; apply Hrest|].
  split; [zlens; unfold zlen in *; lia|].
  intros n Hn Hnb. unfold m', zrealloc. rewrite Hmem, Hh.
  rewrite (take_app_ge h) by (unfold zlen; lia). rewrite <- (assoc_L (++)), drop_app_length.
  rewrite take_app_le by (rewrite length_take; unfold zlen in *; lia).
  rewrite take_take. f_equal. unfold zlen in *. lia.
Qed.

(** Any bytes of the right number are the representation of some field. *)
Lemma host_store_load x : bytes x -> host_store be (length x) (host_load be x) = x.
Proof.
  intros Hx. unfold host_store, host_load. destruct be.
  - unfold be_enc, be_dec. rewrite <- (length_rev x), le_enc_dec by (by apply Forall_rev).
    apply rev_involutive.
  - by apply le_enc_dec.
Qed.

Lemma host_load_range x : bytes x -> 0 <= host_load be x < 2 ^ (8 * zlen x).
Proof.
  intros Hx. unfold host_load. destruct be; [|by apply le_dec_range].
  unfold be_dec. rewrite <- (zlen_rev x). apply le_dec_range. by apply Forall_rev.
Qed.

(** A block whose type byte has been set. *)
Lemma fresh_raw ty g buf :
  0 <= ty <= 4 -> bytes g -> zlen g = sdsHdrSize ty - 1 ->
  exists len al, raw (mk_sds (g ++ ty :: buf) (sdsHdrSize ty)) ty len al buf.
Proof.
  intros Hty Hg Hl. destruct (Z.eq_dec ty 0) as [->|Hne].
  - apply zlen_0_inv in Hl as ->. exists 0, 0. split_and!; try done; cbn; lia.
  - rewrite hdr_size in Hl by lia. set (w := field_width ty) in *.
    destruct (split_seg g 0 (Z.of_nat w)) as (p & a & b & -> & Hp & Ha); [lia|lia|lia|].
    apply zlen_0_inv in Hp as ->. cbn [app] in *. zlens.
    apply Forall_app in Hg as [Hga Hgb].
    assert (Ea : host_store be w (host_load be a) = a).
    { rewrite <- (host_store_load a Hga) at 2. f_equal. unfold zlen in Ha. lia. }
    assert (Eb : host_store be w (host_load be b) = b).
    { rewrite <- (host_store_load b Hgb) at 2. f_equal. unfold zlen in *. lia. }
    exists (host_load be a), (host_load be b).
    assert (Hcap : cap ty = 2 ^ (8 * Z.of_nat w)).
    { unfold cap, SDS_TYPE_5. by rewrite (proj2 (Z.eqb_neq ty 0)). }
    split_and!; simpl; try done; try lia.
    + unfold header, SDS_TYPE_5. rewrite (proj2 (Z.eqb_neq ty 0)) by done. fold w.
      rewrite Ea, Eb. by rewrite <- !(assoc_L (++)).
    + apply host_load_range. done.
    + rewrite Hcap, <- Ha. apply host_load_range. done.
    + apply host_load_range. done.
    + rewrite Hcap. replace (Z.of_nat w) with (zlen b) by lia. by apply host_load_range.
Qed.

(** A block of uninitialised memory, cut into the header without its type byte,
    the type byte and the buffer. *)
Lemma zmalloc_split ty m :
  0 <= ty <= 4 -> 0 <= m ->
  exists g x buf, zmalloc junk (sdsHdrSize ty + m) = g ++ x :: buf /\ bytes g /\
    zlen g = sdsHdrSize ty - 1 /\ zlen buf = m.
Proof.
  intros Hty Hm. assert (1 <= sdsHdrSize ty) as Hs
    by (by apply (ty_cases ty (fun ty => 1 <= sdsHdrSize ty))).
  unfold zmalloc. set (l := garbage _ _ _).
  assert (Hlen : zlen l = sdsHdrSize ty + m) by (unfold l, zlen; rewrite length_garbage; lia).
  destruct (split_seg l (sdsHdrSize ty - 1) 1) as (g & y & buf & Hl & Hg & Hy); [lia..|].
  destruct y as [|x [|]]; [by zlens; lia| |zlens; pose proof (zlen_nonneg l0); lia].
  exists g, x, buf. split_and!; try done.
  - assert (Hb : bytes l) by apply bytes_garbage. rewrite Hl in Hb. by apply Forall_app in Hb as [? _].
  - rewrite Hl in Hlen. zlens. lia.
Qed.

Lemma sds_move_raw s ty len al buf ty' m n c :
  raw s ty len al buf -> 0 <= ty' <= 4 -> rd buf 0 (n + 1) = Some c -> 0 <= n < cap ty' -> n + 1 <= m ->
  m < 2 ^ 64 ->
  exists s' al' free, sds_move be junk s (sdsHdrSize ty) ty' (sdsHdrSize ty') (sdsHdrSize ty' + m) n = Some s' /\
    raw s' ty' n al' (c ++ free) /\ zlen c = n + 1 /\ zlen free = m - (n + 1).
Proof.
  intros Hr Hty' Hrd Hn Hm Hm64. destruct (rd_inv _ _ _ _ Hrd) as (_ & _ & _ & Hcl).
  unfold sds_move, u64. rewrite wrap_id by (unfold in_u; lia).
  rewrite (raw_rd _ _ _ _ _ _ _ Hr), Hrd by lia. cbn [mbind option_bind].
  destruct (zmalloc_split ty' m Hty') as (g & x & b0 & -> & Hg & Hgl & Hbl); [lia|].
  destruct (split_seg b0 0 (n + 1)) as (p & y & free & -> & Hp & Hy); [lia..|].
  apply zlen_0_inv in Hp as ->. cbn [app] in *. zlens.
  assert (Hw : wr (g ++ x :: y ++ free) (sdsHdrSize ty') c = Some (g ++ x :: c ++ free)).
  { replace (g ++ x :: y ++ free) with ((g ++ [x]) ++ y ++ free) by (by rewrite <- (assoc_L (++))).
    rewrite (wr_seg (g ++ [x])); [by rewrite <- (assoc_L (++))|zlens; change (zlen [x]) with 1; lia|lia]. }
  rewrite Hw. cbn [mbind option_bind]. unfold block. rewrite (proj1 (proj2 Hr)), Z.eqb_refl.
  cbn [mbind option_bind]. unfold s_set. cbn [mem base].
  replace (sdsHdrSize ty' + -1) with (zlen g) by lia.
  rewrite zset_Some by (zlens; pose proof (zlen_nonneg g); pose proof (zlen_nonneg (c ++ free)); zlens; lia).
  cbn [mbind option_bind]. replace (Z.to_nat (zlen g)) with (length g + 0)%nat by (unfold zlen; lia).
  rewrite insert_app_r. cbn [insert list_insert].
  destruct (fresh_raw ty' g (c ++ free) Hty' Hg) as (len0 & al0 & Hraw); [done|].
  destruct (sdssetlen_raw _ _ _ _ _ n Hraw Hn) as (s' & -> & Hs').
  exists s', al0, free. split_and!; try done; lia.
Qed.

(** ** The operations on well-formed strings *)

Definition max_len : Z := 2 ^ 62.

(** Evaluate the capacity of a known type. *)
Ltac capv :=
  repeat match goal with
  | |- context [cap ?t] =>
      lazymatch t with Z0 => idtac | Zpos _ => idtac end;
      let v := eval vm_compute in (cap t) in change (cap t) with v
  | H : context [cap ?t] |- _ =>
      lazymatch t with Z0 => idtac | Zpos _ => idtac end;
      let v := eval vm_compute in (cap t) in change (cap t) with v in H
  end.

Lemma sdsReqType_ok n : 0 <= n < 2 ^ 64 -> 0 <= sdsReqType n <= 4 /\ n < cap (sdsReqType n).
Proof.
  intros Hn. unfold sdsReqType. rewrite !Z.shiftl_1_l.
  unfold SDS_TYPE_5, SDS_TYPE_8, SDS_TYPE_16, SDS_TYPE_32, SDS_TYPE_64.
  repeat match goal with |- context [n <? ?b] => destruct (Z.ltb_spec n b) end;
    split; try lia; capv; pow2s; lia.
Qed.

Lemma repz_len z s ty c al : repz z s ty c al -> sdslen be s = Some (zlen c).
Proof. intros (free & Hr & _). by eapply sdslen_raw. Qed.

Lemma repz_avail z s ty c al : repz z s ty c al -> sdsavail be s = Some (al - zlen c).
Proof.
  intros (free & Hr & Hal & H5). rewrite (sdsavail_raw _ _ _ _ _ Hr) by lia.
  destruct (Z.eqb_spec ty 0); [|done]. rewrite H5 by done. f_equal. lia.
Qed.

Lemma rep_len s ty c al : rep s ty c al -> sdslen be s = Some (zlen c).
Proof. apply repz_len. Qed.

Lemma rep_alloc s ty c al : rep s ty c al -> sdsalloc be s = Some al.
Proof.
  intros (free & Hr & Hal & H5). rewrite (sdsalloc_raw _ _ _ _ _ Hr).
  destruct (Z.eqb_spec ty 0); [|done]. by rewrite H5.
Qed.

Lemma rep_avail s ty c al : rep s ty c al -> sdsavail be s = Some (al - zlen c).
Proof. apply repz_avail. Qed.

(** Overwriting a part of the buffer, and setting the terminator. *)
Lemma raw_wr_at s ty len al p x y t i :
  raw s ty len al (p ++ y ++ t) -> i = zlen p -> zlen x = zlen y ->
  exists s', s_wr s i x = Some s' /\ raw s' ty len al (p ++ x ++ t).
Proof.
  intros Hr -> Hx. eapply raw_wr; [done|apply zlen_nonneg|]. by apply wr_seg.
Qed.

Lemma raw_term s ty len al p y t i :
  raw s ty len al (p ++ y :: t) -> i = zlen p ->
  exists s', s_set s i 0 = Some s' /\ raw s' ty len al (p ++ 0 :: t).
Proof.
  intros Hr ->. pose proof (zlen_nonneg p). pose proof (zlen_nonneg t).
  destruct (raw_set _ _ _ _ _ (zlen p) 0 Hr) as (s' & Hs & Hr'); [zlens; lia|].
  exists s'. split; [done|]. unfold zlen in Hr'. rewrite Nat2Z.id in Hr'.
  replace (length p) with (length p + 0)%nat in Hr' by lia. by rewrite insert_app_r in Hr'.
Qed.

(** A buffer long enough for [n] bytes and a terminator. *)
Lemma split_buf (l : list Z) n :
  0 <= n < zlen l -> exists y z t, l = y ++ z :: t /\ zlen y = n.
Proof.
  intros Hn. destruct (split_seg l n 1) as (y & z & t & -> & Hy & Hz); [lia..|].
  destruct z as [|a [|b z]]; zlens; [lia| |pose proof (zlen_nonneg z); lia]. by exists y, a, t.
Qed.

(** Changing the size of the allocation, in place or by moving the string under
    a header of another type. *)
Lemma transfer_ok z s ty c al ty' m (same : bool) :
  repz z s ty c al -> 0 <= ty' <= 4 -> zlen c < cap ty' -> zlen c + 1 <= m -> m < 2 ^ 64 ->
  (same = true -> ty = ty') ->
  exists s1 al1 free1,
    (if same then sds_realloc junk s (sdsHdrSize ty') (sdsHdrSize ty' + m)
     else sds_move be junk s (sdsHdrSize ty) ty' (sdsHdrSize ty') (sdsHdrSize ty' + m) (zlen c)) = Some s1 /\
    raw s1 ty' (zlen c) al1 (c ++ z :: free1) /\ zlen free1 = m - (zlen c + 1).
Proof.
  intros (free & Hr & Hal & H5) Hty' Hcap Hm Hm64 Hsame. pose proof (zlen_nonneg c).
  assert (Hsplit : c ++ z :: free = (c ++ [z]) ++ free) by (by rewrite <- (assoc_L (++))).
  destruct same.
  - rewrite <- Hsame by done.
    destruct (sds_realloc_raw _ _ _ _ _ m Hr) as (s1 & buf' & Hs & Hr1 & Hl & Htk); [lia|].
    assert (Hbuf : take (Z.to_nat (zlen c + 1)) buf' = c ++ [z]).
    { rewrite Htk; [|lia|zlens; pose proof (zlen_nonneg free); lia].
      rewrite Hsplit. apply take_app_length'. unfold zlen. rewrite length_app. simpl. lia. }
    exists s1, al, (drop (Z.to_nat (zlen c + 1)) buf'). split_and!; [done| |zlens; lia].
    by rewrite cons_middle, (assoc_L (++)), <- Hbuf, take_drop.
  - destruct (sds_move_raw _ _ _ _ _ ty' m (zlen c) (c ++ [z]) Hr)
      as (s1 & al1 & free1 & Hs & Hr1 & _ & Hf1); [lia| |lia|lia|lia|].
    { rewrite Hsplit. apply rd_head; [done|by zlens]. }
    exists s1, al1, free1. rewrite <- (assoc_L (++)) in Hr1. split_and!; [done|done|lia].
Qed.

Lemma sdsMakeRoomFor_z z s ty c al n :
  repz z s ty c al -> 0 <= n -> zlen c + n < max_len ->
  exists s' ty' al', sdsMakeRoomFor be junk s n = Some s' /\ repz z s' ty' c al' /\ zlen c + n <= al'.
Proof.
  intros Hrep Hn Hmax. unfold sdsMakeRoomFor. rewrite (repz_avail _ _ _ _ _ Hrep). cbn [mbind option_bind].
  pose proof Hrep as (free & Hr & Hal & H5). pose proof (zlen_nonneg c).
  destruct (raw_flags _ _ _ _ _ Hr) as (flags & -> & Hty & _). cbn [mbind option_bind].
  destruct (Z.leb_spec n (al - zlen c)).
  { exists s, ty, al. split_and!; try done. lia. }
  rewrite (repz_len _ _ _ _ _ Hrep). cbn [mbind option_bind]. rewrite Hty. clear flags Hty.
  unfold u64, max_len in *. rewrite (wrap_id 64 (zlen c + n)) by (unfold in_u; lia).
  set (nl := if zlen c + n <? SDS_MAX_PREALLOC then _ else _).
  assert (Hnl : zlen c + n < nl < 2 ^ 63).
  { unfold nl, SDS_MAX_PREALLOC. destruct (Z.ltb_spec (zlen c + n) (1024 * 1024));
      rewrite wrap_id by (unfold in_u; lia); lia. }
  destruct (sdsReqType_ok nl) as [Hty' Hcap]; [lia|].
  set (ty' := if sdsReqType nl =? SDS_TYPE_5 then SDS_TYPE_8 else sdsReqType nl).
  assert (1 <= ty' <= 4 /\ nl < cap ty') as [Ht Hc].
  { unfold ty', SDS_TYPE_5, SDS_TYPE_8. destruct (Z.eqb_spec (sdsReqType nl) 0) as [E|]; [|lia].
    rewrite E in Hcap. capv. lia. }
  assert (sdsHdrSize ty' <= 17) as Hh by (apply (ty_cases ty' (fun ty => sdsHdrSize ty <= 17)); done || lia).
  assert (1 <= sdsHdrSize ty') as Hh1 by (apply (ty_cases ty' (fun ty => 1 <= sdsHdrSize ty)); done || lia).
  rewrite wrap_id by (unfold in_u; lia). rewrite <- Z.add_assoc.
  destruct (transfer_ok z s ty c al ty' (nl + 1) (ty =? ty')) as (s1 & al1 & free1 & -> & Hr1 & Hf1);
    [done|lia|lia|lia|lia|by intros ->%Z.eqb_eq|].
  cbn [mbind option_bind]. destruct (sdssetalloc_raw _ _ _ _ _ nl Hr1) as (s2 & -> & Hr2); [lia|].
  exists s2, ty', nl. split_and!; [done| |lia]. exists free1. split_and!; try done; try lia.
  unfold SDS_TYPE_5. lia.
Qed.

Lemma sdsMakeRoomFor_ok s ty c al n :
  rep s ty c al -> 0 <= n -> zlen c + n < max_len ->
  exists s' ty' al', sdsMakeRoomFor be junk s n = Some s' /\ rep s' ty' c al' /\ zlen c + n <= al'.
Proof. apply sdsMakeRoomFor_z. Qed.

Lemma cap_max ty : 0 <= ty <= 4 -> 32 <= cap ty <= 2 ^ 64.
Proof. intros Hty. apply (ty_cases ty (fun ty => 32 <= cap ty <= 2 ^ 64)); [done|..]; capv; pow2s; lia. Qed.

(** A string is well formed again once its length and terminator agree. *)
Lemma rep_intro s ty c al free :
  raw s ty (zlen c) al (c ++ 0 :: free) -> zlen c <= al <= zlen c + zlen free ->
  exists al', rep s ty c al' /\ (ty <> 0 -> al' = al).
Proof.
  intros Hr Hal. destruct (Z.eq_dec ty 0) as [->|Hne].
  - exists (zlen c). split; [|done]. exists free. split_and!; try done; try lia.
    destruct Hr as (Hm & Hb & Hty & Hl & _). split_and!; [exact Hm|done|lia..].
  - exists al. split; [|done]. exists free. split_and!; try done; lia.
Qed.

Lemma sdscatlen_ok s ty c al t n x :
  rep s ty c al -> rd t 0 n = Some x -> zlen c + n < max_len ->
  exists s' ty' al', sdscatlen be junk s t n = Some s' /\ rep s' ty' (c ++ x) al'.
Proof.
  intros Hrep Hx Hmax. destruct (rd_inv _ _ _ _ Hx) as (_ & Hn & _ & Hxl). pose proof (zlen_nonneg c).
  unfold sdscatlen. rewrite (rep_len _ _ _ _ Hrep). cbn [mbind option_bind].
  destruct (sdsMakeRoomFor_ok s ty c al n Hrep) as (s1 & ty1 & al1 & -> & Hrep1 & Hroom); [lia..|].
  cbn [mbind option_bind]. rewrite Hx. cbn [mbind option_bind].
  destruct Hrep1 as (free & Hr1 & Hal1 & H51).
  unfold u64, max_len in *. rewrite !wrap_id by (unfold in_u; lia).
  destruct (split_buf (0 :: free) n) as (y & z & t' & Heq & Hy); [zlens; lia|]. rewrite Heq in Hr1.
  assert (Hfr : zlen t' = zlen free - n) by (apply (f_equal zlen) in Heq; zlens; lia).
  destruct (raw_wr_at _ _ _ _ c x y (z :: t') (zlen c) Hr1) as (s2 & -> & Hr2); [done|lia|].
  cbn [mbind option_bind].
  destruct (sdssetlen_raw _ _ _ _ _ (zlen c + n) Hr2) as (s3 & -> & Hr3).
  { destruct Hr1 as (_ & _ & _ & _ & Ha). lia. }
  cbn [mbind option_bind]. rewrite (assoc_L (++)) in Hr3.
  destruct (raw_term _ _ _ _ (c ++ x) z t' (zlen c + n) Hr3) as (s4 & -> & Hr4); [zlens; lia|].
  replace (zlen c + n) with (zlen (c ++ x)) in Hr4 by (zlens; lia).
  destruct (rep_intro _ _ _ _ _ Hr4) as (al' & Hrep' & _); [zlens; lia|]. by exists s4, ty1, al'.
Qed.

Lemma sdscpylen_ok s ty c al t n x :
  rep s ty c al -> rd t 0 n = Some x -> n < max_len ->
  exists s' ty' al', sdscpylen be junk s t n = Some s' /\ rep s' ty' x al'.
Proof.
  intros Hrep Hx Hmax. destruct (rd_inv _ _ _ _ Hx) as (_ & Hn & _ & Hxl). pose proof (zlen_nonneg c).
  unfold sdscpylen. rewrite (rep_alloc _ _ _ _ Hrep), (rep_len _ _ _ _ Hrep). cbn [mbind option_bind].
  assert (exists s1 ty1 al1, (if al <? n then sdsMakeRoomFor be junk s (u64 (n - zlen c)) else Some s) = Some s1 /\
    rep s1 ty1 c al1 /\ n <= al1) as (s1 & ty1 & al1 & -> & Hrep1 & Hroom).
  { destruct (Z.ltb_spec al n); [|by exists s, ty, al]. destruct Hrep as (free & Hr & Hal & H5).
    unfold u64, max_len in *. rewrite wrap_id by (unfold in_u; lia).
    destruct (sdsMakeRoomFor_ok s ty c al (n - zlen c)) as (s1 & ty1 & al1 & Hs & Hrep1 & Hroom);
      [by exists free|lia|unfold max_len; lia|]. exists s1, ty1, al1. split_and!; [done|done|lia]. }
  cbn [mbind option_bind]. rewrite Hx. cbn [mbind option_bind].
  destruct Hrep1 as (free & Hr1 & Hal1 & H51).
  destruct (split_buf (c ++ 0 :: free) n) as (y & z & t' & Heq & Hy); [zlens; lia|].
  assert (Hfr : zlen t' = zlen c + zlen free - n) by (apply (f_equal zlen) in Heq; zlens; lia).
  rewrite Heq in Hr1.
  destruct (raw_wr_at _ _ _ _ [] x y (z :: t') 0 Hr1) as (s2 & -> & Hr2); [done|lia|]. cbn [mbind option_bind].
  destruct (raw_term _ _ _ _ x z t' n Hr2) as (s3 & -> & Hr3); [lia|]. cbn [mbind option_bind].
  destruct (sdssetlen_raw _ _ _ _ _ n Hr3) as (s4 & -> & Hr4).
  { destruct Hr1 as (_ & _ & _ & _ & Ha). lia. }
  rewrite <- Hxl in Hr4 at 1.
  destruct (rep_intro _ _ _ _ _ Hr4) as (al' & Hrep' & _); [lia|]. by exists s4, ty1, al'.
Qed.

(** Cutting the contents down to a part of the buffer already in place. *)
Lemma shrink_ok s ty len al c x z t :
  raw s ty len al (x ++ z :: t) -> zlen x <= al <= zlen x + zlen t -> zlen x < cap ty ->
  (c = x) ->
  exists s1 s2 al', s_set s (zlen x) 0 = Some s1 /\ sdssetlen be s1 (zlen x) = Some s2 /\
    rep s2 ty c al'.
Proof.
  intros Hr Hal Hcap ->. destruct (raw_term _ _ _ _ x z t (zlen x) Hr) as (s1 & -> & Hr1); [done|].
  destruct (sdssetlen_raw _ _ _ _ _ (zlen x) Hr1) as (s2 & Hs2 & Hr2); [pose proof (zlen_nonneg x); lia|].
  destruct (rep_intro _ _ _ _ _ Hr2) as (al' & Hrep' & _); [lia|]. by exists s1, s2, al'.
Qed.

Lemma sdsclear_ok s ty c al :
  rep s ty c al -> exists s' al', sdsclear be s = Some s' /\ rep s' ty [] al'.
Proof.
  intros (free & Hr & Hal & H5). unfold sdsclear. pose proof (zlen_nonneg c).
  pose proof Hr as (_ & _ & Hty & _). pose proof (cap_max ty Hty).
  destruct (sdssetlen_raw _ _ _ _ _ 0 Hr) as (s1 & -> & Hr1); [lia|]. cbn [mbind option_bind].
  destruct (split_buf (c ++ 0 :: free) 0) as (y & z & t & Heq & Hy);
    [zlens; pose proof (zlen_nonneg free); lia|].
  apply zlen_0_inv in Hy as ->. rewrite Heq in Hr1.
  apply (f_equal zlen) in Heq. zlens.
  destruct (raw_term _ _ _ _ [] z t 0 Hr1) as (s2 & -> & Hr2); [done|].
  destruct (rep_intro s2 ty [] al t Hr2) as (al' & Hrep' & _); [zlens; lia|]. by exists s2, al'.
Qed.

Lemma sdsgrowzero_ok s ty c al n :
  rep s ty c al -> n < max_len ->
  exists s' ty' al', sdsgrowzero be junk s n = Some s' /\
    rep s' ty' (c ++ replicate (Z.to_nat (n - zlen c)) 0) al'.
Proof.
  intros Hrep Hmax. pose proof (zlen_nonneg c). unfold sdsgrowzero.
  rewrite (rep_len _ _ _ _ Hrep). cbn [mbind option_bind].
  destruct (Z.leb_spec n (zlen c)).
  { exists s, ty, al. split; [done|]. replace (Z.to_nat (n - zlen c)) with 0%nat by lia. by rewrite app_nil_r. }
  destruct (sdsMakeRoomFor_ok s ty c al (n - zlen c) Hrep) as (s1 & ty1 & al1 & -> & Hrep1 & Hroom); [lia..|].
  cbn [mbind option_bind]. destruct Hrep1 as (free & Hr1 & Hal1 & H51).
  set (k := Z.to_nat (n - zlen c)).
  destruct (split_seg (0 :: free) 0 (n - zlen c + 1)) as (p & y & t & Heq & Hp & Hy); [lia|lia|zlens; lia|].
  apply zlen_0_inv in Hp as ->. cbn [app] in Heq. rewrite Heq in Hr1.
  assert (Ht : zlen t = zlen free - (n - zlen c)) by (apply (f_equal zlen) in Heq; zlens; lia).
  destruct (raw_wr_at _ _ _ _ c (replicate (Z.to_nat (n - zlen c + 1)) 0) y t (zlen c) Hr1)
    as (s2 & -> & Hr2); [done|zlens; lia|]. cbn [mbind option_bind].
  destruct (sdssetlen_raw _ _ _ _ _ n Hr2) as (s3 & -> & Hr3).
  { destruct Hr1 as (_ & _ & _ & _ & Ha). lia. }
  replace (Z.to_nat (n - zlen c + 1)) with (k + 1)%nat in Hr3 by lia.
  rewrite replicate_add, <- (assoc_L (++)), (assoc_L (++) c) in Hr3. cbn [replicate app] in Hr3.
  replace n with (zlen (c ++ replicate k 0)) in Hr3 at 1 by (zlens; lia).
  destruct (rep_intro _ _ _ _ _ Hr3) as (al' & Hrep' & _); [zlens; lia|]. by exists s3, ty1, al'.
Qed.

Lemma hdr_bounds ty : 0 <= ty <= 4 -> 1 <= sdsHdrSize ty <= 17.
Proof. intros Hty. by apply (ty_cases ty (fun ty => 1 <= sdsHdrSize ty <= 17)). Qed.

Lemma sdsRemoveFreeSpace_ok s ty c al :
  rep s ty c al -> zlen c < max_len ->
  exists s' ty', sdsRemoveFreeSpace be junk s = Some s' /\ rep s' ty' c (zlen c).
Proof.
  intros Hrep Hmax. pose proof (zlen_nonneg c). unfold sdsRemoveFreeSpace.
  pose proof Hrep as (free & Hr & Hal & H5). pose proof Hr as (_ & _ & Hty & Hlen & _).
  destruct (raw_flags _ _ _ _ _ Hr) as (flags & -> & Hfl & _). cbn [mbind option_bind]. rewrite Hfl.
  rewrite (rep_len _ _ _ _ Hrep). cbn [mbind option_bind].
  rewrite (rep_avail _ _ _ _ Hrep). cbn [mbind option_bind].
  destruct (Z.eqb_spec (al - zlen c) 0).
  { exists s, ty. split; [done|]. by replace (zlen c) with al by lia. }
  unfold max_len in Hmax. destruct (sdsReqType_ok (zlen c)) as [Hq Hqc]; [lia|].
  set (same := (ty =? sdsReqType (zlen c)) || (SDS_TYPE_8 <? sdsReqType (zlen c))).
  pose proof (hdr_bounds ty Hty). pose proof (hdr_bounds _ Hq).
  unfold u64. rewrite !wrap_id by (unfold in_u; lia). rewrite <- !Z.add_assoc.
  set (ty' := if same then ty else sdsReqType (zlen c)).
  destruct (transfer_ok 0 s ty c al ty' (zlen c + 1) same) as (s1 & al1 & free1 & Hs1 & Hr1 & Hf1);
    [done|by unfold ty'; destruct same|by unfold ty'; destruct same; lia|lia|lia|by unfold ty'; intros ->|].
  assert (Hs1' : (if same then sds_realloc junk s (sdsHdrSize ty) (sdsHdrSize ty + (zlen c + 1))
    else sds_move be junk s (sdsHdrSize ty) (sdsReqType (zlen c)) (sdsHdrSize (sdsReqType (zlen c)))
           (sdsHdrSize (sdsReqType (zlen c)) + (zlen c + 1)) (zlen c)) = Some s1).
  { unfold ty' in Hs1. by destruct same. }
  rewrite Hs1'. cbn [mbind option_bind].
  destruct (sdssetalloc_raw _ _ _ _ _ (zlen c) Hr1) as (s2 & -> & Hr2).
  { split; [lia|]. unfold ty'. destruct same; lia. }
  exists s2, ty'. split; [done|]. exists free1. split_and!; try done; lia.
Qed.

(** The header of a new string, written in a fresh or a zeroed block. *)
Lemma new_header ty n (blk : list Z) m :
  1 <= ty <= 4 -> 0 <= n < cap ty -> zlen blk = sdsHdrSize ty + m -> 0 <= m ->
  exists s1 s2 s3 buf, set_field be (mk_sds blk (sdsHdrSize ty)) ty (hdr_len_off ty) n = Some s1 /\
    set_field be s1 ty (hdr_alloc_off ty) n = Some s2 /\ s_set s2 (-1) ty = Some s3 /\
    raw s3 ty n n buf /\ zlen buf = m /\ buf = drop (Z.to_nat (sdsHdrSize ty)) blk.
Proof.
  intros Hty Hn Hl Hm. rewrite hdr_size in * by done. set (w := field_width ty).
  fold w in Hl. destruct (split_seg blk 0 (Z.of_nat w)) as (p & a & r & -> & Hp & Ha); [lia..|].
  apply zlen_0_inv in Hp as ->. cbn [app] in *. zlens.
  destruct (split_seg r 0 (Z.of_nat w)) as (p & b & r2 & -> & Hp & Hb); [lia..|].
  apply zlen_0_inv in Hp as ->. cbn [app] in *. zlens.
  destruct r2 as [|x buf]; [zlens; lia|]. zlens.
  unfold set_field, s_wr, hdr_len_off, hdr_alloc_off. fold w. cbn [mem base].
  rewrite (wr_head _ a) by (zlens; lia). cbn [mbind option_bind].
  eexists _, _, _, buf. split; [done|]. cbn [mem base].
  rewrite (wr_seg (host_store be w n) b) by (zlens; lia). cbn [mbind option_bind].
  split; [done|]. unfold s_set. cbn [mem base].
  rewrite (assoc_L (++)).
  set (pre := host_store be w n ++ host_store be w n).
  assert (Hpre : zlen pre = 2 * Z.of_nat w) by (unfold pre; zlens; lia).
  replace (2 * Z.of_nat w + 1 + -1) with (zlen pre) by lia.
  rewrite zset_Some by (zlens; pose proof (zlen_nonneg buf); lia). cbn [mbind option_bind].
  replace (Z.to_nat (zlen pre)) with (length pre + 0)%nat by (unfold zlen; lia).
  rewrite insert_app_r. cbn [insert list_insert]. split; [done|]. split; [|split; [lia|]].
  - split_and!; simpl; try lia.
    + unfold header, SDS_TYPE_5. rewrite (proj2 (Z.eqb_neq ty 0)) by lia. fold w. unfold pre.
      by rewrite <- !(assoc_L (++)).
    + by rewrite hdr_size by done.
  - rewrite !(assoc_L (++)), cons_middle, (assoc_L (++)). symmetry. apply drop_app_length'.
    rewrite !length_app. unfold zlen in *. simpl. lia.
Qed.

(** The contents a new string starts with. *)
Definition init_contents (init : sds_init) (n : Z) (c : list Z) : Prop :=
  match init with
  | InitNull => c = replicate (Z.to_nat n) 0
  | InitNoInit => zlen c = n
  | InitBytes l => rd l 0 n = Some c
  end.

(** The fill and the terminator, after the header. *)
Lemma new_fill s ty n buf init x :
  raw s ty n n buf -> zlen buf = n + 1 -> init_contents init n x ->
  (init = InitNull -> buf = replicate (Z.to_nat (n + 1)) 0) ->
  exists s2 s3 c, match init with
      | InitBytes l => if n =? 0 then Some s else x ← rd l 0 n; s_wr s 0 x
      | _ => Some s
      end = Some s2 /\ s_set s2 n 0 = Some s3 /\ rep s3 ty c n /\ init_contents init n c.
Proof.
  intros Hr Hl Hinit Hnull. pose proof Hr as (_ & _ & _ & Hn & _).
  destruct (split_buf buf n) as (y & z & t & -> & Hy); [lia|].
  zlens. assert (t = []) as -> by (apply zlen_0_inv; lia).
  assert (exists s2 c, match init with
      | InitBytes l => if n =? 0 then Some s else x ← rd l 0 n; s_wr s 0 x
      | _ => Some s end = Some s2 /\ raw s2 ty n n (c ++ [z]) /\ zlen c = n /\ init_contents init n c)
    as (s2 & c & Hs2 & Hr2 & Hc & Hic).
  { destruct init as [| |l]; simpl in *.
    - exists s, y. split_and!; try done. specialize (Hnull eq_refl).
      replace (Z.to_nat (n + 1)) with (Z.to_nat n + 1)%nat in Hnull by lia.
      rewrite replicate_add in Hnull. apply app_inj_1 in Hnull as [-> _]; [done|].
      rewrite length_replicate. unfold zlen in Hy. lia.
    - exists s, y. by split_and!.
    - destruct (rd_inv _ _ _ _ Hinit) as (_ & _ & _ & Hxl). destruct (Z.eqb_spec n 0) as [->|].
      + apply zlen_0_inv in Hxl as ->. apply zlen_0_inv in Hy as ->. exists s, []. by split_and!.
      + rewrite Hinit. cbn [mbind option_bind].
        destruct (raw_wr_at _ _ _ _ [] x y [z] 0 Hr) as (s2 & Hs2 & Hr2); [done|lia|]. exists s2, x. by split_and!. }
  destruct (raw_term _ _ _ _ c z [] n Hr2) as (s3 & Hs3 & Hr3); [done|].
  exists s2, s3, c. split_and!; try done. exists []. rewrite <- Hc in Hr3 at 1.
  split_and!; try done; zlens; lia.
Qed.

Lemma sdsnewlen_ok init n x :
  0 <= n < max_len -> init_contents init n x ->
  exists s ty c, sdsnewlen be junk init n = Some s /\ rep s ty c n /\ init_contents init n c.
Proof.
  intros Hn Hinit. unfold sdsnewlen, max_len in *. destruct (sdsReqType_ok n) as [Hq Hqc]; [lia|].
  set (ty := if (sdsReqType n =? SDS_TYPE_5) && (n =? 0) then SDS_TYPE_8 else sdsReqType n).
  assert (0 <= ty <= 4 /\ n < cap ty) as [Hty Hcap].
  { unfold ty, SDS_TYPE_8. destruct (sdsReqType n =? SDS_TYPE_5), (Z.eqb_spec n 0); simpl; split; try lia.
    capv. lia. }
  pose proof (hdr_bounds ty Hty). unfold u64. rewrite wrap_id by (unfold in_u; lia).
  set (blk := match init with InitNull => _ | _ => _ end).
  assert (Hblk : zlen blk = sdsHdrSize ty + (n + 1)).
  { unfold blk, zmalloc. destruct init; zlens; unfold zlen; rewrite ?length_garbage; lia. }
  assert (exists s1 buf, (if ty =? SDS_TYPE_5
     then s_set (mk_sds blk (sdsHdrSize ty)) (-1) (u8 (Z.lor ty (Z.shiftl n SDS_TYPE_BITS)))
     else s ← set_field be (mk_sds blk (sdsHdrSize ty)) ty (hdr_len_off ty) n;
          s ← set_field be s ty (hdr_alloc_off ty) n; s_set s (-1) ty) = Some s1 /\
     raw s1 ty n n buf /\ zlen buf = n + 1 /\ buf = drop (Z.to_nat (sdsHdrSize ty)) blk)
     as (s1 & buf & -> & Hr1 & Hbl & Hbuf).
  { unfold SDS_TYPE_5. destruct (Z.eqb_spec ty 0) as [E|Hne].
    - rewrite E in *. change (sdsHdrSize 0) with 1 in *. unfold s_set. cbn [mem base].
      rewrite zset_Some by lia. cbn [mbind option_bind]. eexists _, (drop 1 blk). split; [done|].
      change 0 with SDS_TYPE_5 at 1. rewrite shift_len. unfold u8. capv.
      rewrite wrap_id by (unfold in_u; pow2s; lia). destruct blk as [|b blk]; [zlens; lia|].
      split; [split_and!; simpl; try done; capv; lia|]. split; [simpl; zlens; lia|done].
    - destruct (new_header ty n blk (n + 1)) as (s1 & s2 & s3 & buf & -> & Hs2 & Hs3 & Hr3 & Hb & Hd); [lia..|].
      cbn [mbind option_bind]. rewrite Hs2. cbn [mbind option_bind]. rewrite Hs3. by exists s3, buf. }
  cbn [mbind option_bind].
  destruct (new_fill s1 ty n buf init x) as (s2 & s3 & c & Hs2 & Hs3 & Hrep & Hic); try done.
  { intros ->. rewrite Hbuf. unfold blk. rewrite drop_replicate. f_equal. lia. }
  rewrite Hs2. cbn [mbind option_bind]. by exists s3, ty, c.
Qed.

Lemma rep_bytes s ty c al : rep s ty c al -> exists free, s_bytes s = c ++ 0 :: free.
Proof.
  intros (free & Hr & _). exists free. unfold s_bytes. rewrite (raw_base _ _ _ _ _ Hr).
  destruct Hr as [-> _]. unfold zlen. rewrite Nat2Z.id. apply drop_app_length.
Qed.

Lemma sdsdup_ok s ty c al :
  rep s ty c al -> zlen c < max_len ->
  exists s' ty', sdsdup be junk s = Some s' /\ rep s' ty' c (zlen c).
Proof.
  intros Hrep Hmax. unfold sdsdup. rewrite (rep_len _ _ _ _ Hrep). cbn [mbind option_bind].
  destruct (rep_bytes _ _ _ _ Hrep) as [free Hb]. pose proof (zlen_nonneg c).
  assert (Hx : rd (s_bytes s) 0 (zlen c) = Some c) by (rewrite Hb; by apply rd_head).
  destruct (sdsnewlen_ok (InitBytes (s_bytes s)) (zlen c) c) as (s' & ty' & c' & Hs & Hrep' & Hc');
    [lia|done|]. simpl in Hc'. rewrite Hx in Hc'. injection Hc' as <-. by exists s', ty'.
Qed.

(** Moving a slice of the contents to the front, then cutting. *)
Lemma slice_ok s ty c al a n :
  rep s ty c al -> 0 <= a -> 0 <= n -> a + n <= zlen c ->
  exists s1 s2 s3 al',
    (if a =? 0 then Some s else x ← s_rd s a n; s_wr s 0 x) = Some s1 /\
    s_set s1 n 0 = Some s2 /\ sdssetlen be s2 n = Some s3 /\
    rep s3 ty (take (Z.to_nat n) (drop (Z.to_nat a) c)) al'.
Proof.
  intros (free & Hr & Hal & H5) Ha Hn Han. pose proof Hr as (_ & _ & _ & Hlen & Halc).
  destruct (split_seg c a n) as (p & x & q & -> & Hp & Hx); [lia..|]. zlens.
  assert (Hsl : take (Z.to_nat n) (drop (Z.to_nat a) (p ++ x ++ q)) = x).
  { rewrite drop_app_length' by (unfold zlen in Hp; lia). apply take_app_length'. unfold zlen in Hx. lia. }
  rewrite Hsl. clear Hsl.
  assert (exists s1 z t, (if a =? 0 then Some s else x ← s_rd s a n; s_wr s 0 x) = Some s1 /\
    raw s1 ty (zlen (p ++ x ++ q)) al (x ++ z :: t) /\ al <= zlen x + zlen t) as (s1 & z & t & -> & Hr1 & Ht).
  { rewrite <- !(assoc_L (++)) in Hr. destruct (Z.eqb_spec a 0) as [->|].
    - apply zlen_0_inv in Hp as ->. cbn [app] in *.
      destruct (split_buf (q ++ 0 :: free) 0) as (y & z & t & Heq & Hy);
        [zlens; pose proof (zlen_nonneg q); pose proof (zlen_nonneg free); lia|].
      apply zlen_0_inv in Hy as ->. rewrite Heq in Hr. exists s, z, t. split_and!; [done| |].
      + zlens. done.
      + apply (f_equal zlen) in Heq. zlens. lia.
    - rewrite (raw_rd _ _ _ _ _ _ _ Hr) by lia. rewrite (rd_seg p x) by lia. cbn [mbind option_bind].
      set (buf := p ++ x ++ q ++ 0 :: free) in *.
      destruct (split_buf buf n) as (y & z & t & Heq & Hy).
      { unfold buf. zlens. pose proof (zlen_nonneg q). pose proof (zlen_nonneg free). lia. }
      rewrite Heq in Hr. destruct (raw_wr_at _ _ _ _ [] x y (z :: t) 0 Hr) as (s1 & Hs1 & Hr1); [done|lia|].
      exists s1, z, t. split_and!; [done| |].
      + zlens. done.
      + apply (f_equal zlen) in Heq. unfold buf in Heq. zlens. lia. }
  destruct (shrink_ok s1 ty _ al x x z t Hr1) as (s2 & s3 & al' & Hs2 & Hs3 & Hrep); [lia|lia|done|].
  rewrite Hx in *. by exists s1, s2, s3, al'.
Qed.

(** The bounds [sdsrange] computes. *)
Definition range_bound (len i : Z) : Z := if i <? 0 then Z.max 0 (len + i) else i.
Definition spec_range (c : list Z) (start end_ : Z) : list Z :=
  let a := range_bound (zlen c) start in
  let b := range_bound (zlen c) end_ in
  take (Z.to_nat (b + 1 - a)) (drop (Z.to_nat a) c).

Lemma i64_bound len i :
  0 <= len < max_len -> - 2 ^ 63 <= i < 2 ^ 63 ->
  (if i <? 0 then (let t := i64 (len + i) in if t <? 0 then 0 else t) else i) = range_bound len i.
Proof.
  intros Hl Hi. unfold range_bound, i64, max_len in *. destruct (Z.ltb_spec i 0); [|done].
  rewrite swrap_id by (unfold in_s; cbn [Z.sub]; lia). cbv zeta.
  destruct (Z.ltb_spec (len + i) 0); lia.
Qed.

Lemma sdsrange_ok s ty c al start end_ :
  rep s ty c al -> zlen c < max_len -> - 2 ^ 63 <= start < 2 ^ 63 -> - 2 ^ 63 <= end_ < 2 ^ 63 ->
  exists s' al', sdsrange be s start end_ = Some s' /\ rep s' ty (spec_range c start end_) al'.
Proof.
  intros Hrep Hmax Hst Hen. pose proof (zlen_nonneg c). unfold sdsrange.
  rewrite (rep_len _ _ _ _ Hrep). cbn [mbind option_bind]. destruct (Z.eqb_spec (zlen c) 0) as [H0|H0].
  { exists s, al. split; [done|]. unfold spec_range. apply zlen_0_inv in H0 as ->.
    by rewrite drop_nil, take_nil. }
  rewrite !i64_bound by lia. unfold spec_range.
  set (a := range_bound (zlen c) start). set (b := range_bound (zlen c) end_).
  assert (0 <= a) by (unfold a, range_bound; destruct (Z.ltb_spec start 0); lia).
  assert (0 <= b) by (unfold b, range_bound; destruct (Z.ltb_spec end_ 0); lia).
  assert (b < 2 ^ 63) by (unfold b, range_bound, max_len in *; destruct (Z.ltb_spec end_ 0); lia).
  assert ((if b <? a then 0 else u64 (i64 (b - a + 1))) = if b <? a then 0 else b - a + 1) as ->.
  { destruct (Z.ltb_spec b a); [done|]. unfold u64, i64. rewrite wrap_swrap by done. apply wrap_id. unfold in_u. lia. }
  unfold i64. rewrite swrap_id by (unfold in_s, max_len in *; lia).
  assert (exists a' n, (let newlen := if b <? a then 0 else b - a + 1 in
      if newlen =? 0 then (0, newlen)
      else if zlen c <=? a then (a, 0)
      else if zlen c <=? b then
        let end_ := zlen c - 1 in (a, if end_ <? a then 0 else end_ - a + 1)
      else (a, newlen)) = (a', n) /\ 0 <= a' /\ 0 <= n /\ (n = 0 \/ a' + n <= zlen c) /\
      take (Z.to_nat (b + 1 - a)) (drop (Z.to_nat a) c) = take (Z.to_nat n) (drop (Z.to_nat a') c))
    as (a' & n & Heq & Ha' & Hn & Hin & Hsl).
  { cbv zeta. destruct (Z.ltb_spec b a).
    { exists 0, 0. split_and!; try done; try lia. replace (Z.to_nat (b + 1 - a)) with 0%nat by lia. done. }
    rewrite (proj2 (Z.eqb_neq (b - a + 1) 0)) by lia.
    destruct (Z.leb_spec (zlen c) a).
    { exists a, 0. split_and!; try done; try lia. rewrite drop_ge by (unfold zlen in *; lia). by rewrite !take_nil. }
    destruct (Z.leb_spec (zlen c) b).
    - rewrite (proj2 (Z.ltb_ge (zlen c - 1) a)) by lia. exists a, (zlen c - 1 - a + 1).
      split_and!; try done; try lia. rewrite !take_ge; try done; rewrite length_drop; unfold zlen in *; lia.
    - exists a, (b - a + 1). split_and!; try done; try lia. do 2 f_equal. lia. }
  cbv zeta in Heq |- *. rewrite Heq, Hsl. clear Heq Hsl.
  destruct (Z.eqb_spec n 0) as [->|Hn0].
  - rewrite andb_false_r. cbn [mbind option_bind].
    destruct (slice_ok s ty c al 0 0 Hrep) as (s1 & s2 & s3 & al' & Hs1 & Hs2 & Hs3 & Hrep'); [lia..|].
    cbn in Hs1. injection Hs1 as <-. rewrite Hs2. cbn [mbind option_bind]. by exists s3, al'.
  - destruct (slice_ok s ty c al a' n Hrep) as (s1 & s2 & s3 & al' & Hs1 & Hs2 & Hs3 & Hrep'); [lia..|].
    rewrite andb_true_r. destruct (Z.eqb_spec a' 0); cbn [negb]; rewrite Hs1; cbn [mbind option_bind];
      rewrite Hs2; cbn [mbind option_bind]; by exists s3, al'.
Qed.

(** *** Trimming *)

Fixpoint drop_while (P : Z -> bool) (l : list Z) : list Z :=
  match l with [] => [] | x :: r => if P x then drop_while P r else l end.
Definition rtrim (P : Z -> bool) (l : list Z) : list Z := reverse (drop_while P (reverse l)).
Definition spec_trim (P : Z -> bool) (c : list Z) : list Z := rtrim P (drop_while P c).

(** The characters [strchr] finds in the C string [cs]: the terminator too. *)
Definition in_set (cs : list Z) (x : Z) : bool := existsb (Z.eqb x) cs || (x =? 0).

Lemma strchr_from_ok fuel p cs t x :
  Forall (fun y => y <> 0) cs -> (length cs < fuel)%nat ->
  strchr_from fuel (p ++ cs ++ 0 :: t) (zlen p) x = Some (in_set cs x).
Proof.
  revert p cs. induction fuel as [|fuel IH]; intros p cs Hcs Hf; [lia|]. cbn [strchr_from].
  destruct cs as [|y cs].
  - cbn [app]. rewrite znth_middle. cbn [mbind option_bind]. unfold in_set. cbn [existsb orb].
    rewrite (Z.eqb_sym x 0). by destruct (0 =? x).
  - cbn [app]. rewrite znth_middle. cbn [mbind option_bind]. unfold in_set. cbn [existsb].
    apply list.Forall_cons in Hcs as [Hy Hcs]. rewrite (Z.eqb_sym x y).
    destruct (Z.eqb_spec y x); [done|]. rewrite (proj2 (Z.eqb_neq y 0)) by done. simpl.
    replace (zlen p + 1) with (zlen (p ++ [y])) by (zlens; change (zlen [y]) with 1; lia).
    rewrite cons_middle, (assoc_L (++)). simpl in Hf. rewrite (IH (p ++ [y]) cs); [done|done|lia].
Qed.

Lemma strchr_ok cs t x :
  Forall (fun y => y <> 0) cs -> strchr (cs ++ 0 :: t) x = Some (in_set cs x).
Proof.
  intros Hcs. unfold strchr. apply (strchr_from_ok _ [] cs t x Hcs). rewrite length_app. simpl. lia.
Qed.

Lemma zlen_drop_while P l : zlen (drop_while P l) <= zlen l.
Proof.
  induction l as [|x l IH]; simpl; [done|]. destruct (P x); [|done]. zlens. lia.
Qed.

Lemma trim_left_ok fuel s ty len al p r q cs t :
  raw s ty len al (p ++ r ++ q) -> Forall (fun y => y <> 0) cs -> (length r < fuel)%nat ->
  trim_left fuel s (cs ++ 0 :: t) (zlen p) (zlen p + zlen r - 1) =
    Some (zlen p + (zlen r - zlen (drop_while (in_set cs) r))).
Proof.
  intros Hr Hcs. revert p r Hr. induction fuel as [|fuel IH]; intros p r Hr Hf; [lia|].
  cbn [trim_left]. destruct r as [|x r].
  - rewrite (proj2 (Z.leb_gt _ _)) by (zlens; lia). simpl. f_equal. zlens. lia.
  - pose proof (zlen_nonneg r). pose proof (zlen_nonneg p). rewrite (proj2 (Z.leb_le _ _)) by (zlens; lia).
    rewrite (raw_get _ _ _ _ _ (zlen p) x Hr); [|lia|].
    2: { rewrite to_nat_zlen. cbn [app]. by rewrite list_lookup_middle. }
    cbn [mbind option_bind]. rewrite strchr_ok by done. cbn [mbind option_bind drop_while].
    destruct (in_set cs x).
    + assert (Hz : zlen (p ++ [x]) = zlen p + 1) by (zlens; change (zlen [x]) with 1; lia).
      replace (zlen p + 1) with (zlen (p ++ [x])) by lia.
      replace (zlen p + zlen (x :: r) - 1) with (zlen (p ++ [x]) + zlen r - 1) by (rewrite Hz; zlens; lia).
      rewrite IH; [|by rewrite <- (assoc_L (++))|simpl in Hf; lia].
      f_equal. rewrite Hz. zlens. lia.
    + f_equal. lia.
Qed.

Lemma rtrim_snoc P l x : rtrim P (l ++ [x]) = if P x then rtrim P l else l ++ [x].
Proof.
  unfold rtrim. rewrite reverse_snoc. simpl. destruct (P x); [done|].
  by rewrite reverse_cons, reverse_involutive.
Qed.

Lemma rtrim_cons P a l : P a = false -> exists l', rtrim P (a :: l) = a :: l'.
Proof.
  intros Ha. induction l as [|x l IH] using rev_ind.
  - change [a] with ([] ++ [a]). rewrite rtrim_snoc, Ha. by exists [].
  - change (a :: l ++ [x]) with ((a :: l) ++ [x]). rewrite rtrim_snoc. destruct (P x); [done|].
    by exists (l ++ [x]).
Qed.

Lemma trim_right_ok fuel s ty len al p a r q cs t :
  raw s ty len al (p ++ (a :: r) ++ q) -> Forall (fun y => y <> 0) cs -> in_set cs a = false ->
  (length r < fuel)%nat ->
  trim_right fuel s (cs ++ 0 :: t) (zlen p) (zlen p + zlen r) =
    Some (zlen p + zlen (rtrim (in_set cs) (a :: r)) - 1).
Proof.
  intros Hr Hcs Ha. revert r q Hr. induction fuel as [|fuel IH]; intros r q Hr Hf; [lia|].
  cbn [trim_right]. pose proof (zlen_nonneg p). destruct r as [|x r _] using rev_ind.
  - rewrite (proj2 (Z.ltb_ge _ _)) by (zlens; lia). 
    change [a] with ([] ++ [a]). rewrite rtrim_snoc, Ha. f_equal. cbn [app]. zlens. lia.
  - pose proof (zlen_nonneg r). assert (Hz : zlen (r ++ [x]) = zlen r + 1) by (zlens; change (zlen [x]) with 1; lia).
    rewrite Hz. rewrite (proj2 (Z.ltb_lt _ _)) by lia.
    assert (Hsp : p ++ (a :: r ++ [x]) ++ q = (p ++ a :: r) ++ x :: q).
    { rewrite app_comm_cons, <- !(assoc_L (++)). done. }
    rewrite (raw_get _ _ _ _ _ (zlen p + (zlen r + 1)) x Hr); [|lia|].
    2: { rewrite Hsp. replace (Z.to_nat (zlen p + (zlen r + 1))) with (length (p ++ a :: r)).
         - by rewrite list_lookup_middle.
         - rewrite length_app. simpl. unfold zlen. lia. }
    cbn [mbind option_bind]. rewrite strchr_ok by done. cbn [mbind option_bind].
    change (a :: r ++ [x]) with ((a :: r) ++ [x]). rewrite rtrim_snoc. destruct (in_set cs x).
    + replace (zlen p + (zlen r + 1) - 1) with (zlen p + zlen r) by lia.
      rewrite length_app in Hf. simpl in Hf. apply (IH r ([x] ++ q)); [|lia].
      rewrite Hsp, <- (assoc_L (++)) in Hr. done.
    + f_equal. zlens. change (zlen [x]) with 1 in *. lia.
Qed.

Lemma drop_while_split P l : exists p, l = p ++ drop_while P l.
Proof.
  induction l as [|x l [p IH]]; simpl; [by exists []|]. destruct (P x); [|by exists []].
  exists (x :: p). simpl. by rewrite <- IH.
Qed.

Lemma drop_while_head P l a r : drop_while P l = a :: r -> P a = false.
Proof.
  induction l as [|x l IH]; simpl; [done|]. destruct (P x) eqn:E; [done|]. by intros [= <- <-].
Qed.

Lemma rtrim_prefix P l : take (length (rtrim P l)) l = rtrim P l.
Proof.
  unfold rtrim. destruct (drop_while_split P (reverse l)) as [p Hp].
  assert (l = reverse (drop_while P (reverse l)) ++ reverse p) as Hl.
  { rewrite <- reverse_app, <- Hp. by rewrite reverse_involutive. }
  rewrite Hl at 2. apply take_app_length.
Qed.

Lemma rtrim_length P l : (length (rtrim P l) <= length l)%nat.
Proof. rewrite <- (rtrim_prefix P l), length_take. lia. Qed.

Lemma sdstrim_ok s ty c al cs t :
  rep s ty c al -> Forall (fun y => y <> 0) cs ->
  exists s' al', sdstrim be s (cs ++ 0 :: t) = Some s' /\ rep s' ty (spec_trim (in_set cs) c) al'.
Proof.
  intros Hrep Hcs. pose proof Hrep as (free & Hr & _). unfold sdstrim, spec_trim.
  rewrite (rep_len _ _ _ _ Hrep). cbn [mbind option_bind].
  assert (Hmem : (length c + 1 <= length (mem s))%nat).
  { destruct Hr as [-> _]. rewrite !length_app. simpl. lia. }
  pose proof (trim_left_ok (S (length (mem s))) s _ _ _ [] c (0 :: free) cs t Hr Hcs) as Hl.
  cbn [zlen length app] in Hl. change (zlen []) with 0 in Hl. rewrite Z.add_0_l in Hl. rewrite Hl by lia.
  rewrite Z.add_0_l. cbn [mbind option_bind].
  destruct (drop_while_split (in_set cs) c) as [p Hp]. set (r := drop_while (in_set cs) c) in *.
  assert (Hpl : zlen c - zlen r = zlen p) by (rewrite Hp at 1; zlens; lia). rewrite Hpl.
  pose proof (zlen_nonneg p).
  assert (exists ep, trim_right (S (length (mem s))) s (cs ++ 0 :: t) (zlen p) (zlen c - 1) = Some ep /\
    (if ep <? zlen p then 0 else ep - zlen p + 1) = zlen (rtrim (in_set cs) r)) as (ep & -> & Hep).
  { destruct r as [|a r'] eqn:Er.
    - cbn [trim_right]. rewrite (proj2 (Z.ltb_ge _ _)) by (zlens; lia). eexists. split; [done|].
      rewrite (proj2 (Z.ltb_lt _ _)) by (zlens; lia). done.
    - assert (Ha : in_set cs a = false) by (by eapply drop_while_head).
      rewrite Hp, <- (assoc_L (++)) in Hr.
      replace (zlen c - 1) with (zlen p + zlen r') by (rewrite <- Hpl; zlens; lia).
      rewrite (trim_right_ok _ _ _ _ _ p a r' _ cs t Hr Hcs Ha).
      2: { rewrite Hp, length_app in Hmem. simpl in Hmem. lia. }
      eexists. split; [done|]. destruct (rtrim_cons (in_set cs) a r' Ha) as [l' ->].
      pose proof (zlen_nonneg l'). rewrite (proj2 (Z.ltb_ge _ _)) by (zlens; lia). zlens. lia. }
  cbn [mbind option_bind]. cbv zeta. rewrite Hep. pose proof (rtrim_length (in_set cs) r).
  destruct (slice_ok s ty c al (zlen p) (zlen (rtrim (in_set cs) r)) Hrep)
    as (s1 & s2 & s3 & al' & -> & Hs2 & Hs3 & Hrep'); [lia|apply zlen_nonneg| |].
  { rewrite Hp at 1. zlens. unfold zlen. lia. }
  cbn [mbind option_bind]. rewrite Hs2. cbn [mbind option_bind]. exists s3, al'. split; [done|].
  rewrite Hp in Hrep'. rewrite drop_app_length' in Hrep' by (unfold zlen; lia).
  unfold zlen in Hrep'. rewrite Nat2Z.id, rtrim_prefix in Hrep'. done.
Qed.

(** *** Character maps and comparison *)

Lemma map_loop_ok f c s ty len al p t :
  raw s ty len al (p ++ c ++ t) ->
  exists s', map_loop (length c) f s (zlen p) = Some s' /\ raw s' ty len al (p ++ map f c ++ t).
Proof.
  revert s p. induction c as [|x c IH]; intros s p Hr; [by exists s|]. cbn [length map_loop].
  pose proof (zlen_nonneg p). cbn [app] in Hr.
  rewrite (raw_get _ _ _ _ _ (zlen p) x Hr); [|lia|by rewrite to_nat_zlen, list_lookup_middle].
  cbn [mbind option_bind].
  destruct (raw_set _ _ _ _ _ (zlen p) (f x) Hr) as (s1 & -> & Hr1).
  { zlens. pose proof (zlen_nonneg c). pose proof (zlen_nonneg t). lia. }
  cbn [mbind option_bind]. rewrite to_nat_zlen in Hr1.
  replace (length p) with (length p + 0)%nat in Hr1 by lia. rewrite insert_app_r in Hr1.
  cbn [insert list_insert] in Hr1. rewrite cons_middle, (assoc_L (++)) in Hr1.
  destruct (IH s1 (p ++ [f x]) Hr1) as (s' & Hs' & Hr').
  replace (zlen (p ++ [f x])) with (zlen p + 1) in Hs' by (zlens; lia).
  exists s'. split; [done|]. by rewrite <- (assoc_L (++)) in Hr'.
Qed.

Lemma map_rep f s ty c al :
  rep s ty c al ->
  exists s', map_loop (Z.to_nat (zlen c)) f s 0 = Some s' /\ rep s' ty (map f c) al.
Proof.
  intros (free & Hr & Hal & H5). rewrite to_nat_zlen.
  destruct (map_loop_ok f c s ty _ al [] (0 :: free) Hr) as (s' & Hs & Hr').
  exists s'. split; [done|]. exists free. rewrite zlen_map. split_and!; try done; lia.
Qed.

Lemma sdsmap_ok s ty c al :
  rep s ty c al ->
  (exists s', sdstolower be s = Some s' /\ rep s' ty (map tolower c) al) /\
  (exists s', sdstoupper be s = Some s' /\ rep s' ty (map toupper c) al) /\
  (forall from to n f t, rd from 0 n = Some f -> rd to 0 n = Some t ->
     exists s', sdsmapchars be s from to n = Some s' /\ rep s' ty (map (map_char f t) c) al).
Proof.
  intros Hrep. pose proof (rep_len _ _ _ _ Hrep) as Hl. split_and!.
  - unfold sdstolower. rewrite Hl. by apply map_rep.
  - unfold sdstoupper. rewrite Hl. by apply map_rep.
  - intros from to n f t Hf Ht. unfold sdsmapchars. rewrite Hl. cbn [mbind option_bind].
    rewrite Hf. cbn [mbind option_bind]. rewrite Ht. by apply map_rep.
Qed.

Lemma sdscmp_ok s1 s2 ty1 ty2 c1 c2 al1 al2 :
  rep s1 ty1 c1 al1 -> rep s2 ty2 c2 al2 -> sdscmp be s1 s2 = Some (lex c1 c2).
Proof.
  intros H1 H2. unfold sdscmp. rewrite (rep_len _ _ _ _ H1). cbn [mbind option_bind].
  rewrite (rep_len _ _ _ _ H2). cbn [mbind option_bind]. rewrite lex_memcmp.
  destruct H1 as (f1 & Hr1 & _), H2 as (f2 & Hr2 & _).
  set (m := if zlen c1 <? zlen c2 then zlen c1 else zlen c2).
  assert (Hm : 0 <= m <= zlen c1 /\ m <= zlen c2).
  { unfold m. pose proof (zlen_nonneg c1). pose proof (zlen_nonneg c2).
    destruct (Z.ltb_spec (zlen c1) (zlen c2)); lia. }
  assert (Hrd : forall c f, m <= zlen c -> rd (c ++ 0 :: f) 0 m = Some (take (Z.to_nat m) c)).
  { intros c f Hc. rewrite <- (take_drop (Z.to_nat m) c) at 1. rewrite <- (assoc_L (++)).
    apply rd_head; [done|]. zlens. lia. }
  rewrite (raw_rd _ _ _ _ _ _ _ Hr1), Hrd by lia. cbn [mbind option_bind].
  rewrite (raw_rd _ _ _ _ _ _ _ Hr2), Hrd by lia. done.
Qed.

(** *** [sdsIncrLen] *)

(** After [sdsMakeRoomFor] the caller writes [x] after the end of the string. *)
Lemma sdsIncrLen_ok s ty c al x z t :
  raw s ty (zlen c) al (c ++ x ++ z :: t) -> ty <> 0 -> zlen c + zlen x <= al <= zlen c + zlen x + zlen t ->
  exists s', sdsIncrLen be s (zlen x) = Some s' /\ rep s' ty (c ++ x) al.
Proof.
  intros Hr Hne Hal. pose proof (zlen_nonneg c). pose proof (zlen_nonneg x).
  unfold sdsIncrLen. destruct (raw_flags _ _ _ _ _ Hr) as (flags & Hg & Hfl & _). rewrite Hg. cbn [mbind option_bind].
  rewrite Hfl. unfold SDS_TYPE_5. rewrite (proj2 (Z.eqb_neq ty 0)) by done.
  destruct (raw_hdr _ _ _ _ _ Hr Hne) as (-> & Hty & Hl & Ha).
  rewrite (raw_get_alloc _ _ _ _ _ Hr Hne). cbn [mbind option_bind].
  rewrite (raw_get_len _ _ _ _ _ Hr Hne). cbn [mbind option_bind].
  assert (Hroom : (if ty =? SDS_TYPE_64 then u64 (zlen x) <=? u64 (al - zlen c)
      else if ty =? SDS_TYPE_32 then u32 (zlen x) <=? u32 (al - zlen c)
      else zlen x <=? al - zlen c) = true).
  { unfold u64, u32. assert (ty = 1 \/ ty = 2 \/ ty = 3 \/ ty = 4) as [->|[->|[->| ->]]] by lia;
      cbn in Ha |- *; rewrite ?wrap_id by (unfold in_u; lia); apply Z.leb_le; lia. }
  rewrite Hroom. rewrite (proj2 (Z.leb_le 0 (zlen x))) by done. cbn [andb orb].
  assert (Hcap : zlen c + zlen x < cap ty) by (destruct Hr as (_ & _ & _ & _ & ?); lia).
  destruct (sdssetlen_raw _ _ _ _ _ (zlen c + zlen x) Hr) as (s1 & Hs1 & Hr1); [lia|].
  assert (Hset : set_field be s ty (hdr_len_off ty) (zlen c + zlen x) = Some s1).
  { unfold sdssetlen in Hs1. rewrite Hg in Hs1. cbn [mbind option_bind] in Hs1.
    rewrite Hfl in Hs1. unfold SDS_TYPE_5 in Hs1.
    rewrite (proj2 (Z.eqb_neq ty 0)) in Hs1 by done.
    by destruct (raw_hdr _ _ _ _ _ Hr Hne) as (Hh & _); rewrite Hh in Hs1. }
  rewrite Hset. cbn [mbind option_bind]. rewrite (raw_get_len _ _ _ _ _ Hr1 Hne). cbn [mbind option_bind].
  rewrite (assoc_L (++)) in Hr1.
  destruct (raw_term _ _ _ _ (c ++ x) z t (zlen c + zlen x) Hr1) as (s2 & -> & Hr2); [zlens; lia|].
  exists s2. split; [done|]. exists t. rewrite <- zlen_app in Hr2. split_and!; try done; zlens; lia.
Qed.

(** [sdsIncrLen] with an increment of 0, which leaves every other string as it
    is, fails its assertion on a string with the 5-bit header: the test is
    [incr > 0] there and [incr >= 0] in the other cases. *)
Lemma sdsIncrLen_zero_type5 s c al :
  rep s SDS_TYPE_5 c al -> sdsIncrLen be s 0 = None.
Proof.
  intros (free & Hr & _). unfold sdsIncrLen.
  destruct (raw_flags _ _ _ _ _ Hr) as (flags & -> & Hfl & _). cbn [mbind option_bind]. by rewrite Hfl.
Qed.

(** ** The contract: a string is its contents *)

Inductive sds_op :=
  | SCat (t : list Z)
  | SCpy (t : list Z)
  | SGrowZero (n : Z)
  | SRange (start end_ : Z)
  | STrim (cs : list Z)
  | SClear
  | SLower
  | SUpper
  | SMap (from to : list Z)
  | SRemoveFree
  | SMakeRoom (n : Z)
  | SDup
  | SCmp (t : list Z).

(** The return value of [sdscmp], or the length after the operation. *)
Definition run_sds_op (s : sds) (o : sds_op) : option (sds * Z) :=
  let with_len r := s ← r; n ← sdslen be s; Some (s, n) in
  match o with
  | SCat t => with_len (sdscatlen be junk s t (zlen t))
  | SCpy t => with_len (sdscpylen be junk s t (zlen t))
  | SGrowZero n => with_len (sdsgrowzero be junk s n)
  | SRange a b => with_len (sdsrange be s a b)
  | STrim cs => with_len (sdstrim be s (cs ++ [0]))
  | SClear => with_len (sdsclear be s)
  | SLower => with_len (sdstolower be s)
  | SUpper => with_len (sdstoupper be s)
  | SMap from to => with_len (sdsmapchars be s from to (zlen from))
  | SRemoveFree => with_len (sdsRemoveFreeSpace be junk s)
  | SMakeRoom n => with_len (sdsMakeRoomFor be junk s n)
  | SDup => with_len (sdsdup be junk s)
  | SCmp t => s2 ← sdsnewlen be junk (InitBytes t) (zlen t); r ← sdscmp be s s2; Some (s, r)
  end.
Fixpoint run_sds_ops (s : sds) (os : list sds_op) : option (sds * list Z) :=
  match os with
  | [] => Some (s, [])
  | o :: os => '(s, r) ← run_sds_op s o; '(s, rs) ← run_sds_ops s os; Some (s, r :: rs)
  end.

Definition spec_sds_op (c : list Z) (o : sds_op) : list Z :=
  match o with
  | SCat t => c ++ t
  | SCpy t => t
  | SGrowZero n => c ++ replicate (Z.to_nat (n - zlen c)) 0
  | SRange a b => spec_range c a b
  | STrim cs => spec_trim (in_set cs) c
  | SClear => []
  | SLower => map tolower c
  | SUpper => map toupper c
  | SMap from to => map (map_char from to) c
  | SRemoveFree | SMakeRoom _ | SDup | SCmp _ => c
  end.
Fixpoint spec_sds_ops (c : list Z) (os : list sds_op) : list Z * list Z :=
  match os with
  | [] => (c, [])
  | o :: os =>
      let c' := spec_sds_op c o in
      let r := match o with SCmp t => lex c t | _ => zlen c' end in
      let '(c'', rs) := spec_sds_ops c' os in
      (c'', r :: rs)
  end.

(** Sizes below [2^62], C strings without inner terminators, tables of equal
    length. *)
Definition sds_op_ok (c : list Z) (o : sds_op) : Prop :=
  match o with
  | SCat t => zlen c + zlen t < max_len
  | SCpy t | SCmp t => zlen t < max_len
  | SGrowZero n => n < max_len
  | SRange a b => - 2 ^ 63 <= a < 2 ^ 63 /\ - 2 ^ 63 <= b < 2 ^ 63
  | STrim cs => Forall (fun y => y <> 0) cs
  | SMap from to => length from = length to
  | SMakeRoom n => 0 <= n /\ zlen c + n < max_len
  | _ => True
  end.
Fixpoint sds_ops_ok (c : list Z) (os : list sds_op) : Prop :=
  match os with
  | [] => True
  | o :: os => sds_op_ok c o /\ sds_ops_ok (spec_sds_op c o) os
  end.

Lemma zlen_spec c o : sds_op_ok c o -> zlen c < max_len -> zlen (spec_sds_op c o) < max_len.
Proof.
  intros Ho Hc. pose proof (zlen_nonneg c). destruct o; simpl in *; zlens; try lia.
  - unfold spec_range. zlens. lia.
  - unfold spec_trim. pose proof (rtrim_length (in_set cs) (drop_while (in_set cs) c)) as Hr.
    pose proof (zlen_drop_while (in_set cs) c). unfold zlen in *. lia.
Qed.

Lemma rd_all t : rd t 0 (zlen t) = Some t.
Proof. rewrite <- (app_nil_r t) at 1. by apply rd_head. Qed.

Lemma with_len_ok r s ty c al :
  r = Some s -> rep s ty c al -> (s ← r; n ← sdslen be s; Some (s, n)) = Some (s, zlen c).
Proof. intros -> Hrep. cbn [mbind option_bind]. by rewrite (rep_len _ _ _ _ Hrep). Qed.

Lemma run_sds_op_ok s ty c al o :
  rep s ty c al -> zlen c < max_len -> sds_op_ok c o ->
  exists s' ty' al', run_sds_op s o = Some (s', match o with SCmp t => lex c t | _ => zlen (spec_sds_op c o) end) /\
    rep s' ty' (spec_sds_op c o) al'.
Proof.
  intros Hrep Hc Ho. pose proof (zlen_nonneg c).
  assert (Hfin : forall r c', (exists s' ty' al', r = Some s' /\ rep s' ty' c' al') ->
    exists s' ty' al', (s ← r; n ← sdslen be s; Some (s, n)) = Some (s', zlen c') /\ rep s' ty' c' al').
  { intros r c' (s' & ty' & al' & Hr & Hrep'). exists s', ty', al'. split; [|done]. by eapply with_len_ok. }
  destruct (sdsmap_ok s ty c al Hrep) as ((sl & Hsl & Hrl) & (su & Hsu & Hru) & Hmap).
  destruct o as [t|t|n|a b|cs| | | |from to| |n| |t]; simpl in Ho |- *; try apply Hfin.
  - eapply sdscatlen_ok; [done|apply rd_all|done].
  - eapply sdscpylen_ok; [done|apply rd_all|done].
  - by eapply sdsgrowzero_ok.
  - destruct Ho. destruct (sdsrange_ok s ty c al a b) as (s' & al' & Hs & Hr'); try done. by exists s', ty, al'.
  - destruct (sdstrim_ok s ty c al cs [] Hrep Ho) as (s' & al' & Hs & Hr'). by exists s', ty, al'.
  - destruct (sdsclear_ok s ty c al Hrep) as (s' & al' & Hs & Hr'). by exists s', ty, al'.
  - by exists sl, ty, al.
  - by exists su, ty, al.
  - destruct (Hmap from to (zlen from) from to) as (s' & Hs & Hr'); [apply rd_all| |by exists s', ty, al].
    replace (zlen from) with (zlen to) by (unfold zlen; congruence). apply rd_all.
  - destruct (sdsRemoveFreeSpace_ok s ty c al Hrep Hc) as (s' & ty' & Hs & Hr'). by exists s', ty', (zlen c).
  - destruct (sdsMakeRoomFor_ok s ty c al n Hrep) as (s' & ty' & al' & Hs & Hr' & _); [lia..|]. by exists s', ty', al'.
  - destruct (sdsdup_ok s ty c al Hrep Hc) as (s' & ty' & Hs & Hr'). by exists s', ty', (zlen c).
  - destruct (sdsnewlen_ok (InitBytes t) (zlen t) t) as (s2 & ty2 & c2 & Hs2 & Hrep2 & Hc2);
      [pose proof (zlen_nonneg t); lia|apply rd_all|]. rewrite Hs2. cbn [mbind option_bind].
    simpl in Hc2. rewrite rd_all in Hc2. injection Hc2 as <-.
    rewrite (sdscmp_ok _ _ _ _ _ _ _ _ Hrep Hrep2). by exists s, ty, al.
Qed.

Lemma run_sds_ops_ok os s ty c al :
  rep s ty c al -> zlen c < max_len -> sds_ops_ok c os ->
  exists s' ty' al', run_sds_ops s os = Some (s', snd (spec_sds_ops c os)) /\
    rep s' ty' (fst (spec_sds_ops c os)) al'.
Proof.
  revert s ty c al. induction os as [|o os IH]; intros s ty c al Hrep Hc; [by exists s, ty, al|].
  intros [Ho Hos]. destruct (run_sds_op_ok s ty c al o Hrep Hc Ho) as (s1 & ty1 & al1 & Hr1 & Hrep1).
  cbn [run_sds_ops spec_sds_ops]. rewrite Hr1. cbn [mbind option_bind].
  destruct (IH s1 ty1 _ al1 Hrep1) as (s2 & ty2 & al2 & -> & Hrep2); [by apply zlen_spec|done|].
  cbn [mbind option_bind]. destruct (spec_sds_ops (spec_sds_op c o) os) as [c' rs]. by exists s2, ty2, al2.
Qed.

(** C4: starting from [sdsnewlen], every sequence of appends, copies, zero
    growths, ranges, trims, clears, case and character maps, reallocations,
    duplications and comparisons stays inside the allocation, whatever header
    type the string has or moves to and whatever fresh memory contains, and has
    the effect of the corresponding functions on the contents; the string stays
    terminated and its header consistent. *)
Theorem sds_history_refines (init : list Z) (os : list sds_op) :
  zlen init < max_len -> sds_ops_ok init os ->
  exists s s' ty al, sdsnewlen be junk (InitBytes init) (zlen init) = Some s /\
    run_sds_ops s os = Some (s', snd (spec_sds_ops init os)) /\
    rep s' ty (fst (spec_sds_ops init os)) al.
Proof.
  intros Hi Hos.
  destruct (sdsnewlen_ok (InitBytes init) (zlen init) init) as (s & ty & c & Hs & Hrep & Hc);
    [pose proof (zlen_nonneg init); lia|apply rd_all|]. simpl in Hc. rewrite rd_all in Hc. injection Hc as <-.
  destruct (run_sds_ops_ok os s ty init _ Hrep Hi Hos) as (s' & ty' & al' & Hr & Hrep').
  by exists s, s', ty', al'.
Qed.

(** The read-into-buffer idiom.  After [sdsMakeRoomFor(s, n)] with [n > 0] any
    [x] of at most [n] bytes can be written after the end of the string, and
    [sdsIncrLen] makes it part of the contents. *)
Lemma sds_append_in_place s ty c al n x :
  rep s ty c al -> 0 < n -> zlen x <= n -> zlen c + n < max_len ->
  exists s1 s2 s3 ty' al', sdsMakeRoomFor be junk s n = Some s1 /\
    s_wr s1 (zlen c) x = Some s2 /\ sdsIncrLen be s2 (zlen x) = Some s3 /\ rep s3 ty' (c ++ x) al'.
Proof.
  intros Hrep Hn Hx Hmax.
  destruct (sdsMakeRoomFor_ok s ty c al n Hrep) as (s1 & ty1 & al1 & Hs1 & Hrep1 & Hroom); [lia..|].
  destruct Hrep1 as (free & Hr1 & Hal1 & H51). pose proof (zlen_nonneg x).
  destruct (split_buf (0 :: free) (zlen x)) as (y & z & t & Heq & Hy); [zlens; lia|]. rewrite Heq in Hr1.
  assert (Ht : zlen t = zlen free - zlen x) by (apply (f_equal zlen) in Heq; zlens; lia).
  destruct (raw_wr_at _ _ _ _ c x y (z :: t) (zlen c) Hr1) as (s2 & Hs2 & Hr2); [done|lia|].
  destruct (sdsIncrLen_ok s2 ty1 c al1 x z t Hr2) as (s3 & Hs3 & Hrep3); [|lia|].
  { intros ->. specialize (H51 eq_refl). lia. }
  by exists s1, s2, s3, ty1, al1.
Qed.
End SdsSpec.

(** ** Instances *)

(** "hello" followed by 250 bytes: the header grows from 5 to 16 bits. *)
Definition sample_sds_ops : list sds_op :=
  [SCat [32; 87; 79]; SLower; SGrowZero 250; SRange 0 4; SUpper; STrim [72; 79]; SRemoveFree; SCmp [69; 76; 76]].

Lemma sds_history_refines_witness :
  exists s s' ty al, sdsnewlen false (fun _ => 170) (InitBytes [104; 101; 108; 108; 111]) 5 = Some s /\
    run_sds_ops false (fun _ => 170) s sample_sds_ops = Some (s', [8; 8; 250; 5; 5; 3; 3; 0]) /\
    rep false s' ty [69; 76; 76] al.
Proof.
  destruct (sds_history_refines false (fun _ => 170) [104; 101; 108; 108; 111] sample_sds_ops)
    as (s & s' & ty & al & Hs & Hr & Hrep).
  - done.
  - vm_compute. repeat split; try discriminate; repeat constructor; discriminate.
  - exists s, s', ty, al. vm_compute (spec_sds_ops _ _) in Hr. vm_compute (fst _) in Hrep.
    split_and!; [exact Hs|exact Hr|exact Hrep].
Defined.

(** A three-byte string with the 5-bit header. *)
Definition sds_abc : sds := mk_sds [24; 97; 98; 99; 0] 1.
Lemma sds_abc_rep : rep false sds_abc 0 [97; 98; 99] 3.
Proof. exists []. split_and!; try done; vm_compute; intuition discriminate. Qed.


