(* ===== verification/SdsText.v ===== *)
(** * SdsText: numbers, formatting, splitting and quoting of [sds.c]

    [sdsll2str], [sdsull2str], [sdsfromlonglong], [sdscatvprintf], [sdscatfmt],
    [sdssplitlen], [sdsjoin], [sdsjoinsds], [sdscatrepr] and [sdssplitargs] on
    the strings of [Sds].  C strings are blocks of bytes that contain their
    terminator; pointers into them are offsets; [None] is an access outside a
    block or an undefined operation. *)
From Stdlib Require Import ZArith Lia Bool String.
From stdpp Require Import base option list numbers.
From S2P Require Import Prelude UtilNum Sds.
Open Scope Z_scope.

(** ** Numbers *)

Definition SDS_LLSTR_SIZE : Z := 21.

(** [do { *p++ = '0'+(v%10); v /= 10; } while(v)]. *)
Fixpoint digit_loop (fuel : nat) (b : list Z) (p v : Z) : option (list Z * Z) :=
  match fuel with
  | O => None
  | S fuel =>
      b ← zset b p (ch_0 + v mod 10);
      if v / 10 =? 0 then Some (b, p + 1) else digit_loop fuel b (p + 1) (v / 10)
  end.

(** [while(s < p) { aux = *s; *s = *p; *p = aux; s++; p--; }]. *)
Fixpoint reverse_loop (fuel : nat) (b : list Z) (s p : Z) : option (list Z) :=
  match fuel with
  | O => None
  | S fuel =>
      if s <? p then
        aux ← znth b s;
        x ← znth b p;
        b ← zset b s x;
        b ← zset b p aux;
        reverse_loop fuel b (s + 1) (p - 1)
      else Some b
  end.

(** The negation wraps around: standard C leaves [-LLONG_MIN] undefined, and the
    tests at the end of sds.c, which print it, rely on the two's complement
    result. *)
Definition sdsll2str (b : list Z) (value : Z) : option (list Z * Z) :=
  let v := u64 (if value <? 0 then i64 (- value) else value) in
  '(b, p) ← digit_loop 20 b 0 v;
  '(b, p) ← (if value <? 0 then b ← zset b p ch_minus; Some (b, p + 1) else Some (b, p));
  let l := p in
  b ← zset b p 0;
  b ← reverse_loop 21 b 0 (p - 1);
  Some (b, l).

Definition sdsull2str (b : list Z) (v : Z) : option (list Z * Z) :=
  '(b, p) ← digit_loop 20 b 0 v;
  let l := p in
  b ← zset b p 0;
  b ← reverse_loop 21 b 0 (p - 1);
  Some (b, l).

Section SdsText.
Variable be : bool.
Variable junk : nat -> Z.

(** [char buf[SDS_LLSTR_SIZE]]. *)
Definition llstr_buf : list Z := zmalloc junk SDS_LLSTR_SIZE.

Definition sdsfromlonglong (value : Z) : option sds :=
  '(buf, len) ← sdsll2str llstr_buf value;
  sdsnewlen be junk (InitBytes buf) len.

(** ** Formatting *)

(** [vsnprintf(buf, size, ...)] when the arguments print as [text]: at most
    [size - 1] bytes and the terminator. *)
Definition vsnprintf (buf : list Z) (size : Z) (text : list Z) : option (list Z) :=
  if size <=? 0 then Some buf else wr buf 0 (take (Z.to_nat (size - 1)) text ++ [0]).

(** The buffer is doubled until the byte before the last stays zero. *)
Fixpoint printf_loop (fuel : nat) (buf : list Z) (buflen : Z) (text : list Z) : option (list Z) :=
  match fuel with
  | O => None
  | S fuel =>
      buf ← zset buf (buflen - 2) 0;
      buf ← vsnprintf buf buflen text;
      c ← znth buf (buflen - 2);
      if negb (c =? 0) then
        let buflen := u64 (buflen * 2) in
        printf_loop fuel (zmalloc junk buflen) buflen text
      else Some buf
  end.

Definition staticbuf_size : Z := 1024.
Definition sdscatvprintf (s : sds) (fmt text : list Z) : option sds :=
  n ← strlen fmt;
  let buflen := u64 (n * 2) in
  let buflen := if staticbuf_size <? buflen then buflen else staticbuf_size in
  buf ← printf_loop 64 (zmalloc junk buflen) buflen text;
  sdscat be junk s buf.
Definition sdscatprintf (s : sds) (fmt text : list Z) : option sds := sdscatvprintf s fmt text.

(** The arguments of [sdscatfmt], as [va_arg] takes them. *)
Inductive fmt_arg :=
  | AStr (str : list Z)
  | ASds (str : sds)
  | AInt (n : Z)
  | ALongLong (n : Z)
  | AUint (n : Z)
  | AULongLong (n : Z).

(** Make room for [l] bytes when needed, copy them at [s+i], advance. *)
Definition fmt_copy (s : sds) (i : Z) (str : list Z) (l : Z) : option (sds * Z) :=
  avail ← sdsavail be s;
  s ← (if avail <? l then sdsMakeRoomFor be junk s l else Some s);
  x ← rd str 0 l;
  s ← s_wr s i x;
  s ← sdsinclen be s l;
  Some (s, i + l).
Definition fmt_putc (s : sds) (i c : Z) : option (sds * Z) :=
  s ← s_set s i c;
  s ← sdsinclen be s 1;
  Some (s, i + 1).

(** One conversion; the characters are '%' 's' 'S' 'i' 'I' 'u' 'U'. *)
Definition fmt_conv (next : Z) (s : sds) (i : Z) (ap : list fmt_arg) : option (sds * Z * list fmt_arg) :=
  if next =? 115 then
    match ap with
    | AStr str :: ap => l ← strlen str; '(s, i) ← fmt_copy s i str l; Some (s, i, ap)
    | _ => None
    end
  else if next =? 83 then
    match ap with
    | ASds str :: ap => l ← sdslen be str; '(s, i) ← fmt_copy s i (s_bytes str) l; Some (s, i, ap)
    | _ => None
    end
  else if (next =? 105) || (next =? 73) then
    match ap with
    | arg :: ap =>
        num ← match arg with
              | AInt n => if next =? 105 then Some n else None
              | ALongLong n => if next =? 73 then Some n else None
              | _ => None
              end;
        '(buf, l) ← sdsll2str llstr_buf num;
        '(s, i) ← fmt_copy s i buf l; Some (s, i, ap)
    | [] => None
    end
  else if (next =? 117) || (next =? 85) then
    match ap with
    | arg :: ap =>
        unum ← match arg with
               | AUint n => if next =? 117 then Some n else None
               | AULongLong n => if next =? 85 then Some n else None
               | _ => None
               end;
        '(buf, l) ← sdsull2str llstr_buf unum;
        '(s, i) ← fmt_copy s i buf l; Some (s, i, ap)
    | [] => None
    end
  else '(s, i) ← fmt_putc s i next; Some (s, i, ap).

Fixpoint fmt_loop (fuel : nat) (s : sds) (i : Z) (fmt : list Z) (f : Z) (ap : list fmt_arg) : option (sds * Z) :=
  match fuel with
  | O => None
  | S fuel =>
      c ← znth fmt f;
      if c =? 0 then Some (s, i)
      else
        avail ← sdsavail be s;
        s ← (if avail =? 0 then sdsMakeRoomFor be junk s 1 else Some s);
        if c =? 37 then
          next ← znth fmt (f + 1);
          '(s, i, ap) ← fmt_conv next s i ap;
          fmt_loop fuel s i fmt (f + 2) ap
        else
          '(s, i) ← fmt_putc s i c;
          fmt_loop fuel s i fmt (f + 1) ap
  end.

Definition sdscatfmt (s : sds) (fmt : list Z) (ap : list fmt_arg) : option sds :=
  initlen ← sdslen be s;
  '(s, i) ← fmt_loop (S (length fmt)) s initlen fmt 0 ap;
  s_set s i 0.

(** ** Splitting and joining *)



Fixpoint join_loop (join : sds) (argv : list (list Z)) (sep : list Z) : option sds :=
  match argv with
  | [] => Some join
  | arg :: argv =>
      join ← sdscat be junk join arg;
      join ← match argv with [] => Some join | _ => sdscat be junk join sep end;
      join_loop join argv sep
  end.
Definition sdsjoin (argv : list (list Z)) (sep : list Z) : option sds :=
  join ← sdsempty be junk; join_loop join argv sep.


(** ** Quoting *)

(** [isprint] and [isspace] in the C locale. *)
Definition isprint (c : Z) : bool := (32 <=? c) && (c <=? 126).
Definition isspace (c : Z) : bool := (c =? 32) || ((9 <=? c) && (c <=? 13)).

(** The digits printed by [%x]. *)
Definition hex_char (d : Z) : Z := if d <? 10 then 48 + d else 87 + d.

Definition repr_char (s : sds) (c : Z) : option sds :=
  if (c =? 92) || (c =? 34) then sdscatprintf s (codes "\%c" ++ [0]) [92; c]
  else if c =? 10 then sdscatlen be junk s (codes "\n") 2
  else if c =? 13 then sdscatlen be junk s (codes "\r") 2
  else if c =? 9 then sdscatlen be junk s (codes "\t") 2
  else if c =? 7 then sdscatlen be junk s (codes "\a") 2
  else if c =? 8 then sdscatlen be junk s (codes "\b") 2
  else if isprint c then sdscatprintf s (codes "%c" ++ [0]) [c]
  else sdscatprintf s (codes "\x%02x" ++ [0]) [92; 120; hex_char (c / 16); hex_char (c mod 16)].

Fixpoint repr_loop (s : sds) (p : list Z) (len : nat) {struct len} : option sds :=
  match len with
  | O => Some s
  | S len => match p with c :: p => s ← repr_char s c; repr_loop s p len | [] => None end
  end.
Definition sdscatrepr (s : sds) (p : list Z) (len : Z) : option sds :=
  s ← sdscatlen be junk s [34] 1;
  s ← repr_loop s p (Z.to_nat len);
  sdscatlen be junk s [34] 1.

Definition is_hex_digit (c : Z) : bool :=
  ((48 <=? c) && (c <=? 57)) || ((97 <=? c) && (c <=? 102)) || ((65 <=? c) && (c <=? 70)).

Definition hex_digit_to_int (c : Z) : Z :=
  if (48 <=? c) && (c <=? 57) then c - 48
  else if (97 <=? c) && (c <=? 102) then c - 87
  else if (65 <=? c) && (c <=? 70) then c - 55
  else 0.

Fixpoint skip_blanks (fuel : nat) (line : list Z) (p : Z) : option Z :=
  match fuel with
  | O => None
  | S fuel =>
      c ← znth line p;
      if negb (c =? 0) && isspace c then skip_blanks fuel line (p + 1) else Some p
  end.

(** The character after a closing quote: a blank or the terminator. *)
Definition closes (line : list Z) (p : Z) : option bool :=
  n ← znth line (p + 1); Some ((n =? 0) || isspace n).

(** The escape test [*p == '\\' && *(p+1) == 'x' && ...]: the byte it denotes. *)
Definition hex_escape (line : list Z) (p c : Z) : option (option Z) :=
  if negb (c =? 92) then Some None
  else
    x ← znth line (p + 1);
    if negb (x =? 120) then Some None
    else
      h ← znth line (p + 2);
      if negb (is_hex_digit h) then Some None
      else
        l ← znth line (p + 3);
        if negb (is_hex_digit l) then Some None
        else Some (Some (u8 (hex_digit_to_int h * 16 + hex_digit_to_int l))).

Definition unescape (c : Z) : Z :=
  if c =? 110 then 10
  else if c =? 114 then 13
  else if c =? 116 then 9
  else if c =? 98 then 8
  else if c =? 97 then 7
  else c.

(** The quoting state of the scanner: [inq], [insq] or neither. *)
Inductive quoting := Plain | InQ | InSQ.

(** What one iteration of [while(!done)] does before [if ( *p) p++]. *)
Inductive scan :=
  | ScanErr
  | ScanDone (p : Z)
  | ScanGo (q : quoting) (p : Z) (current : sds).

Definition scan_inq (line : list Z) (p c : Z) (current : sds) : option scan :=
  h ← hex_escape line p c;
  match h with
  | Some byte => current ← sdscatlen be junk current [byte] 1; Some (ScanGo InQ (p + 3) current)
  | None =>
      esc ← (if c =? 92 then n ← znth line (p + 1); Some (if n =? 0 then None else Some n) else Some None);
      match esc with
      | Some n => current ← sdscatlen be junk current [unescape n] 1; Some (ScanGo InQ (p + 1) current)
      | None =>
          if c =? 34 then ok ← closes line p; Some (if (ok : bool) then ScanDone p else ScanErr)
          else if c =? 0 then Some ScanErr
          else current ← sdscatlen be junk current [c] 1; Some (ScanGo InQ p current)
      end
  end.
Definition scan_insq (line : list Z) (p c : Z) (current : sds) : option scan :=
  esc ← (if c =? 92 then n ← znth line (p + 1); Some (n =? 39) else Some false);
  if (esc : bool) then current ← sdscatlen be junk current [39] 1; Some (ScanGo InSQ (p + 1) current)
  else if c =? 39 then ok ← closes line p; Some (if (ok : bool) then ScanDone p else ScanErr)
  else if c =? 0 then Some ScanErr
  else current ← sdscatlen be junk current [c] 1; Some (ScanGo InSQ p current).
Definition scan_plain (line : list Z) (p c : Z) (current : sds) : option scan :=
  if (c =? 32) || (c =? 10) || (c =? 13) || (c =? 9) || (c =? 0) then Some (ScanDone p)
  else if c =? 34 then Some (ScanGo InQ p current)
  else if c =? 39 then Some (ScanGo InSQ p current)
  else current ← sdscatlen be junk current [c] 1; Some (ScanGo Plain p current).

(** [if ( *p) p++]. *)
Definition advance (line : list Z) (p : Z) : option Z :=
  c ← znth line p; Some (if c =? 0 then p else p + 1).

(** [while(!done)]: [Some None] is [goto err]. *)
Fixpoint scan_token (fuel : nat) (line : list Z) (q : quoting) (p : Z) (current : sds)
    : option (option (Z * sds)) :=
  match fuel with
  | O => None
  | S fuel =>
      c ← znth line p;
      r ← match q with
          | InQ => scan_inq line p c current
          | InSQ => scan_insq line p c current
          | Plain => scan_plain line p c current
          end;
      match r with
      | ScanErr => Some None
      | ScanDone p => p ← advance line p; Some (Some (p, current))
      | ScanGo q p current => p ← advance line p; scan_token fuel line q p current
      end
  end.

(** Each token is stored at [vector[*argc]] after a realloc to one more
    pointers; [*argc] is an [int], and so must [*argc] plus one be. *)
Fixpoint split_args (fuel : nat) (line : list Z) (p argc : Z) (vector : list sds) : option (option (Z * list sds)) :=
  match fuel with
  | O => None
  | S fuel =>
      p ← skip_blanks (S (length line)) line p;
      c ← znth line p;
      if c =? 0 then Some (Some (argc, vector))
      else
        current ← sdsempty be junk;
        r ← scan_token (S (length line)) line Plain p current;
        match r with
        | None => Some None
        | Some (p, current) =>
            if INT_MAX <? argc + 1 then None
            else split_args fuel line p (argc + 1) (vector ++ [current])
        end
  end.

(** [Some None] is the NULL result; otherwise [*argc] and the vector. *)
Definition sdssplitargs (line : list Z) : option (option (Z * list sds)) :=
  split_args (S (length line)) line 0 0 [].
End SdsText.

(** ** Numbers: correctness *)

Lemma digit_loop_ok f x v t y :
  (1 <= f <= 20)%nat -> 0 <= v < 10 ^ Z.of_nat f -> zlen y = zlen (dec v) ->
  digit_loop f (x ++ y ++ t) (zlen x) v = Some (x ++ rev (dec v) ++ t, zlen x + zlen (dec v)).
Proof.
  revert x v y. induction f as [|f IH]; intros x v y Hf Hv Hy; [lia|].
  assert (10 ^ Z.of_nat (S f) <= 10 ^ 20) by (apply Z.pow_le_mono_r; lia).
  pose proof (zlen_dec_pos v ltac:(lia)). destruct y as [|a y]; zlens; [lia|].
  cbn [digit_loop app]. rewrite zset_middle. cbn [mbind option_bind].
  destruct (Z.eqb_spec (v / 10) 0) as [E|E].
  - assert (v < 10) by (apply Z.div_small_iff in E; lia). rewrite dec_small in * by lia. zlens.
    assert (y = []) as -> by (apply zlen_0_inv; lia). rewrite Z.mod_small by lia. done.
  - assert (10 <= v) by (destruct (Z.ltb_spec v 10); [by rewrite Z.div_small in E by lia|lia]).
    rewrite dec_step in * by lia. zlens.
    replace (zlen x + 1) with (zlen (x ++ [ch_0 + v mod 10])) by (zlens; lia).
    replace (x ++ ch_0 + v mod 10 :: y ++ t) with ((x ++ [ch_0 + v mod 10]) ++ y ++ t)
      by (by rewrite <- (assoc_L (++))).
    destruct f as [|f]; [change (10 ^ Z.of_nat 1) with 10 in Hv; lia|].
    rewrite IH; [|lia| |lia].
    + rewrite rev_app_distr. cbn [rev app]. rewrite <- (assoc_L (++)). f_equal. f_equal. zlens. lia.
    + split; [apply Z.div_pos; lia|]. apply Z.div_lt_upper_bound; [lia|].
      rewrite <- Z.pow_succ_r by lia. replace (Z.succ (Z.of_nat (S f))) with (Z.of_nat (S (S f))) by lia. lia.
Qed.

Lemma reverse_loop_ok f x m t :
  (length m < f)%nat ->
  reverse_loop f (x ++ m ++ t) (zlen x) (zlen x + zlen m - 1) = Some (x ++ rev m ++ t).
Proof.
  revert x m t. induction f as [|f IH]; intros x m t Hf; [lia|]. cbn [reverse_loop].
  destruct (Z.ltb_spec (zlen x) (zlen x + zlen m - 1)) as [Hlt|Hge].
  - destruct m as [|a m]; [zlens; lia|]. destruct m as [|z m _] using rev_ind; [zlens; lia|].
    cbn [app]. rewrite <- (assoc_L (++)). cbn [app]. rewrite znth_middle. cbn [mbind option_bind].
    replace (x ++ a :: m ++ z :: t) with ((x ++ a :: m) ++ z :: t) by (by rewrite <- (assoc_L (++))).
    replace (zlen x + zlen (a :: m ++ [z]) - 1) with (zlen (x ++ a :: m)) by (zlens; lia).
    rewrite znth_middle. cbn [mbind option_bind].
    rewrite <- (assoc_L (++)). cbn [app]. rewrite zset_middle. cbn [mbind option_bind].
    replace (x ++ z :: m ++ z :: t) with ((x ++ z :: m) ++ z :: t) by (by rewrite <- (assoc_L (++))).
    replace (zlen (x ++ a :: m)) with (zlen (x ++ z :: m)) by (zlens; lia).
    rewrite zset_middle. cbn [mbind option_bind].
    replace ((x ++ z :: m) ++ a :: t) with ((x ++ [z]) ++ m ++ a :: t) by (by rewrite <- !(assoc_L (++))).
    replace (zlen x + 1) with (zlen (x ++ [z])) by (zlens; lia).
    replace (zlen (x ++ z :: m) - 1) with (zlen (x ++ [z]) + zlen m - 1) by (zlens; lia).
    rewrite IH by (cbn [length] in Hf; rewrite length_app in Hf; simpl in Hf; lia).
    cbn [rev]. rewrite rev_app_distr. cbn [rev app]. by rewrite <- !(assoc_L (++)).
  - assert (length m <= 1)%nat by (unfold zlen in *; lia).
    destruct m as [|a [|b m]]; [done|done|simpl in *; lia].
Qed.

Lemma zlen_dec_max v k : 1 <= k <= 20 -> 0 <= v < 10 ^ k -> zlen (dec v) <= k.
Proof.
  intros Hk. assert (exists j, 0 <= j /\ k = Z.succ j) as (j & Hj & ->) by (exists (k - 1); lia).
  revert Hk v. pattern j. apply natlike_ind; [| |done]; clear j Hj.
  - intros _ v Hv. change (10 ^ Z.succ 0) with 10 in Hv. rewrite dec_small by lia. zlens. lia.
  - intros j Hj IH Hk v Hv. destruct (Z.ltb_spec v 10); [rewrite dec_small by lia; zlens; lia|].
    assert (10 ^ Z.succ (Z.succ j) <= 10 ^ 20) by (apply Z.pow_le_mono_r; lia).
    rewrite zlen_dec_step by lia. rewrite (Z.pow_succ_r 10 (Z.succ j)) in Hv by lia.
    specialize (IH ltac:(lia) (v / 10)).
    assert (0 <= v / 10 < 10 ^ Z.succ j) by (split; [apply Z.div_pos; lia|apply Z.div_lt_upper_bound; lia]). lia.
Qed.

(** The same loops on a whole buffer. *)
Lemma digit_loop_0 v y t :
  0 <= v < 10 ^ 20 -> zlen y = zlen (dec v) ->
  digit_loop 20 (y ++ t) 0 v = Some (rev (dec v) ++ t, zlen (rev (dec v))).
Proof. intros Hv Hy. rewrite zlen_rev. by apply (digit_loop_ok 20 [] v t y ltac:(lia)). Qed.

Lemma reverse_loop_0 m t :
  zlen m <= 20 -> reverse_loop 21 (m ++ t) 0 (zlen m - 1) = Some (rev m ++ t).
Proof. intros Hm. apply (reverse_loop_ok 21 [] m t). unfold zlen in Hm. lia. Qed.

Lemma sdsull2str_ok b v :
  0 <= v < 2 ^ 64 -> SDS_LLSTR_SIZE <= zlen b ->
  exists t, sdsull2str b v = Some (dec v ++ 0 :: t, zlen (dec v)).
Proof.
  unfold SDS_LLSTR_SIZE. intros Hv Hb. pose proof (zlen_dec_max v 20 ltac:(lia) ltac:(lia)) as Hm.
  pose proof (zlen_nonneg (dec v)).
  destruct (split_buf b (zlen (dec v))) as (y & a & t & -> & Hy); [lia|].
  exists t. unfold sdsull2str. rewrite digit_loop_0 by (done || lia). cbn [mbind option_bind].
  rewrite zset_middle. cbn [mbind option_bind]. rewrite reverse_loop_0 by (zlens; lia). cbn [mbind option_bind]. rewrite rev_involutive. by zlens.
Qed.

Lemma sdsll2str_ok b v :
  LLONG_MIN <= v <= LLONG_MAX -> SDS_LLSTR_SIZE <= zlen b ->
  exists t, sdsll2str b v = Some (dec_string v ++ 0 :: t, zlen (dec_string v)).
Proof.
  unfold LLONG_MIN, LLONG_MAX. intros Hv Hb. unfold dec_string, sdsll2str.
  destruct (Z.ltb_spec v 0) as [Hneg|Hpos].
  - unfold u64, i64. rewrite wrap_swrap, wrap_id by (done || (unfold in_u; lia)). set (n := - v).
    pose proof (zlen_dec_max n 19 ltac:(lia) ltac:(lia)) as Hm. unfold SDS_LLSTR_SIZE in Hb.
    pose proof (zlen_nonneg (dec n)).
    destruct (split_buf b (zlen (dec n))) as (y & a & t & -> & Hy); [lia|].
    rewrite digit_loop_0 by (done || lia). cbn [mbind option_bind].
    rewrite zset_middle. cbn [mbind option_bind]. destruct t as [|a' t]; [zlens; lia|].
    replace (rev (dec n) ++ ch_minus :: a' :: t) with ((rev (dec n) ++ [ch_minus]) ++ a' :: t)
      by (by rewrite <- (assoc_L (++))).
    replace (zlen (rev (dec n)) + 1) with (zlen (rev (dec n) ++ [ch_minus])) by (zlens; lia).
    rewrite zset_middle. cbn [mbind option_bind]. exists t.
    rewrite reverse_loop_0 by (zlens; lia).
    cbn [mbind option_bind]. rewrite rev_app_distr, rev_involutive. f_equal. f_equal. zlens. lia.
  - unfold u64. rewrite wrap_id by (unfold in_u; lia).
    destruct (sdsull2str_ok b v) as [t Ht]; [lia|done|]. exists t. rewrite <- Ht. unfold sdsull2str.
    by destruct (digit_loop 20 b 0 v) as [[b' p]|].
Qed.

Section SdsTextSpec.
Variable be : bool.
Variable junk : nat -> Z.

Lemma llstr_buf_size : zlen (llstr_buf junk) = SDS_LLSTR_SIZE.
Proof. unfold llstr_buf, zmalloc, zlen. by rewrite length_garbage. Qed.

(** ** Formatting: correctness *)

(** A C string: no zero byte before the terminator. *)
Definition nonzero (l : list Z) : Prop := Forall (fun x => x <> 0) l.

Lemma strlen_from_ok f p c t n :
  nonzero c -> (length c < f)%nat -> strlen_from f (p ++ c ++ 0 :: t) (zlen p) n = Some (n + zlen c).
Proof.
  intros Hc. revert f p n. induction Hc as [|x c Hx Hc IH]; intros [|f] p n Hf; simpl in Hf; try lia.
  - cbn [strlen_from app]. rewrite znth_middle. cbn [mbind option_bind]. simpl. zlens. f_equal. lia.
  - cbn [strlen_from app]. rewrite znth_middle. cbn [mbind option_bind]. rewrite (proj2 (Z.eqb_neq x 0)) by done.
    replace (zlen p + 1) with (zlen (p ++ [x])) by (zlens; lia).
    replace (p ++ x :: c ++ 0 :: t) with ((p ++ [x]) ++ c ++ 0 :: t) by (by rewrite <- (assoc_L (++))).
    rewrite IH by lia. f_equal. zlens. lia.
Qed.

Lemma strlen_ok c t : nonzero c -> strlen (c ++ 0 :: t) = Some (zlen c).
Proof.
  intros Hc. unfold strlen. apply (strlen_from_ok _ [] c t 0 Hc). rewrite length_app. simpl. lia.
Qed.

Lemma vsnprintf_fits buf size text :
  zlen buf = size -> zlen text + 1 <= size ->
  exists t, vsnprintf buf size text = Some (text ++ 0 :: t) /\ t = drop (S (length text)) buf.
Proof.
  intros Hb Ht. pose proof (zlen_nonneg text). unfold vsnprintf. rewrite (proj2 (Z.leb_gt _ _)) by lia.
  rewrite take_ge by (unfold zlen in *; lia).
  destruct (split_seg buf 0 (zlen text + 1)) as (p & y & t & -> & Hp & Hy); [lia..|].
  apply zlen_0_inv in Hp as ->. cbn [app]. exists t.
  rewrite wr_front by (zlens; lia).
  split; [by rewrite <- (assoc_L (++))|]. rewrite drop_app_length'; [done|]. unfold zlen in *. lia.
Qed.

Lemma znth_drop_tail (l t x : list Z) i v :
  znth l i = Some v -> t = drop (length x) l -> zlen x <= i -> znth (x ++ t) i = Some v.
Proof.
  intros Hl -> Hi. pose proof (zlen_nonneg x). rewrite znth_nat in * by lia.
  rewrite lookup_app_r by (unfold zlen in *; lia). rewrite lookup_drop.
  replace (length x + (Z.to_nat i - length x))%nat with (Z.to_nat i) by (unfold zlen in *; lia). done.
Qed.

Lemma printf_loop_ok fuel buf buflen text :
  (1 <= fuel)%nat -> zlen buf = buflen -> 2 <= buflen -> nonzero text -> zlen text < max_len ->
  zlen text + 1 < buflen * 2 ^ (Z.of_nat fuel - 1) ->
  exists t, printf_loop junk fuel buf buflen text = Some (text ++ 0 :: t).
Proof.
  unfold max_len. revert buf buflen. induction fuel as [|fuel IH]; intros buf buflen Hf Hb Hb2 Hnz Hmax Hlt; [lia|].
  cbn [printf_loop]. pose proof (zlen_nonneg text).
  rewrite zset_Some by lia. cbn [mbind option_bind]. set (buf1 := <[_:=_]> buf).
  assert (Hb1 : zlen buf1 = buflen) by (unfold buf1; by zlens).
  assert (Hz1 : znth buf1 (buflen - 2) = Some 0).
  { rewrite znth_nat by lia. apply list_lookup_insert_eq. unfold zlen in Hb. lia. }
  destruct (Z.leb_spec (zlen text) (buflen - 2)) as [Hfit|Hbig].
  - destruct (vsnprintf_fits buf1 buflen text Hb1) as (t & -> & Ht); [lia|]. cbn [mbind option_bind].
    assert (znth (text ++ 0 :: t) (buflen - 2) = Some 0) as ->; [|by exists t].
    destruct (Z.eq_dec (buflen - 2) (zlen text)) as [->|]; [by rewrite znth_middle|].
    replace (text ++ 0 :: t) with ((text ++ [0]) ++ t) by (by rewrite <- (assoc_L (++))).
    eapply znth_drop_tail; [done| |zlens; lia]. rewrite length_app. simpl. by rewrite Nat.add_1_r.
  - unfold vsnprintf. rewrite (proj2 (Z.leb_gt buflen 0)) by lia. set (x := take _ text ++ [0]).
    assert (Hx : zlen x = buflen) by (unfold x; zlens; lia).
    assert (Hw : wr buf1 0 x = Some x).
    { rewrite <- (app_nil_r buf1), wr_front by lia. by rewrite app_nil_r. }
    rewrite Hw. cbn [mbind option_bind].
    destruct (znth_is_Some text (buflen - 2)) as [c Hc]; [lia|].
    assert (znth x (buflen - 2) = Some c) as ->.
    { rewrite znth_nat in * by lia. unfold x. rewrite lookup_app_l by (rewrite length_take; unfold zlen in *; lia).
      by rewrite lookup_take_lt by lia. }
    cbn [mbind option_bind]. assert (c <> 0) as Hc0.
    { rewrite znth_nat in Hc by lia. by eapply (Forall_lookup_1 _ _ _ _ Hnz). }
    rewrite (proj2 (Z.eqb_neq c 0)) by done. cbn [negb].
    unfold u64. rewrite wrap_id by (unfold in_u; lia). destruct fuel as [|fuel].
    { change (2 ^ (Z.of_nat 1 - 1)) with 1 in Hlt. lia. }
    apply IH; try lia; try done.
    + unfold zmalloc, zlen. rewrite length_garbage. lia.
    + replace (Z.of_nat (S (S fuel)) - 1) with (Z.succ (Z.of_nat (S fuel) - 1)) in Hlt by lia.
      rewrite Z.pow_succ_r in Hlt by lia. lia.
Qed.

Lemma sdscat_ok s ty c al x t :
  rep be s ty c al -> nonzero x -> zlen c + zlen x < max_len ->
  exists s' ty' al', sdscat be junk s (x ++ 0 :: t) = Some s' /\ rep be s' ty' (c ++ x) al'.
Proof.
  intros Hrep Hx Hm. unfold sdscat. rewrite strlen_ok by done. cbn [mbind option_bind].
  eapply sdscatlen_ok; [done|by apply rd_front|done].
Qed.

Lemma sdscatvprintf_ok s ty c al f ft text :
  rep be s ty c al -> nonzero f -> zlen f < max_len -> nonzero text -> zlen c + zlen text < max_len ->
  exists s' ty' al', sdscatvprintf be junk s (f ++ 0 :: ft) text = Some s' /\ rep be s' ty' (c ++ text) al'.
Proof.
  intros Hrep Hf Hfm Ht Hm. unfold sdscatvprintf. rewrite strlen_ok by done. cbn [mbind option_bind].
  pose proof (zlen_nonneg f). pose proof (zlen_nonneg c). unfold u64, staticbuf_size.
  rewrite wrap_id by (unfold in_u, max_len in *; lia).
  set (n := if 1024 <? zlen f * 2 then _ else _).
  assert (Hn : 1024 <= n) by (unfold n; destruct (Z.ltb_spec 1024 (zlen f * 2)); lia).
  destruct (printf_loop_ok 64 (zmalloc junk n) n text) as [t ->]; try done; try lia.
  - unfold zmalloc, zlen. rewrite length_garbage. lia.
  - unfold max_len in *. change (2 ^ (Z.of_nat 64 - 1)) with (2 ^ 63). lia.
  - cbn [mbind option_bind]. by eapply sdscat_ok.
Qed.

Lemma sdsinclen_raw s ty len al buf inc :
  raw be s ty len al buf -> 0 <= len + inc < cap ty ->
  exists s', sdsinclen be s inc = Some s' /\ raw be s' ty (len + inc) al buf.
Proof.
  intros Hr Hn. destruct (sdssetlen_raw be _ _ _ _ _ (len + inc) Hr Hn) as (s' & Hs' & Hr').
  exists s'. split; [|done]. rewrite <- Hs'. unfold sdsinclen, sdssetlen.
  destruct (raw_flags be _ _ _ _ _ Hr) as (flags & -> & Hty & H5). cbn [mbind option_bind]. rewrite Hty.
  unfold SDS_TYPE_5. destruct (Z.eqb_spec ty 0) as [->|Hne].
  - rewrite H5 by done. unfold u8 at 2. rewrite (wrap_id 8 (len + inc)); [done|].
    unfold in_u. change (cap 0) with 32 in Hn. lia.
  - destruct (raw_hdr be _ _ _ _ _ Hr Hne) as (-> & _). rewrite (raw_get_len be _ _ _ _ _ Hr Hne). done.
Qed.

(** Writing [x] at the end of a string with room for it, and counting it. *)
Lemma append_raw z s ty c al x :
  repz be z s ty c al -> zlen c + zlen x <= al ->
  exists s1 s2 z', s_wr s (zlen c) x = Some s1 /\ sdsinclen be s1 (zlen x) = Some s2 /\
    repz be z' s2 ty (c ++ x) al.
Proof.
  intros (free & Hr & Hal & H5) Hx. pose proof (zlen_nonneg x). pose proof (zlen_nonneg c).
  destruct (split_buf (z :: free) (zlen x)) as (y & z' & t & Heq & Hy); [zlens; lia|]. rewrite Heq in Hr.
  assert (Ht : zlen t = zlen free - zlen x) by (apply (f_equal zlen) in Heq; zlens; lia).
  destruct (raw_wr_at be _ _ _ _ c x y (z' :: t) (zlen c) Hr) as (s1 & Hs1 & Hr1); [done|lia|].
  destruct (sdsinclen_raw _ _ _ _ _ (zlen x) Hr1) as (s2 & Hs2 & Hr2).
  { destruct Hr as (_ & _ & _ & _ & Ha). lia. }
  exists s1, s2, z'. split_and!; [done..|]. exists t. zlens. rewrite <- (assoc_L (++)).
  split_and!; [done|lia|lia|]. intros E. specialize (H5 E). lia.
Qed.

Lemma make_room_ok z s ty c al n :
  repz be z s ty c al -> 0 <= n -> zlen c + n < max_len ->
  exists s' ty' al', (if al - zlen c <? n then sdsMakeRoomFor be junk s n else Some s) = Some s' /\
    repz be z s' ty' c al' /\ zlen c + n <= al'.
Proof.
  intros Hrep Hn Hm. destruct (Z.ltb_spec (al - zlen c) n).
  - by apply (sdsMakeRoomFor_z be junk z s ty c al n).
  - exists s, ty, al. split_and!; [done|done|lia].
Qed.

Lemma fmt_copy_ok z s ty c al str l x :
  repz be z s ty c al -> rd str 0 l = Some x -> zlen c + l < max_len ->
  exists s' z' ty' al', fmt_copy be junk s (zlen c) str l = Some (s', zlen (c ++ x)) /\
    repz be z' s' ty' (c ++ x) al'.
Proof.
  intros Hrep Hx Hm. destruct (rd_inv _ _ _ _ Hx) as (_ & Hl & _ & Hxl).
  unfold fmt_copy. rewrite (repz_avail be _ _ _ _ _ Hrep). cbn [mbind option_bind].
  destruct (make_room_ok z s ty c al l Hrep Hl Hm) as (s1 & ty1 & al1 & -> & Hrep1 & Hroom). cbn [mbind option_bind].
  rewrite Hx. cbn [mbind option_bind].
  destruct (append_raw z s1 ty1 c al1 x Hrep1) as (s2 & s3 & z' & -> & Hs3 & Hrep3); [lia|]. cbn [mbind option_bind].
  rewrite Hxl in Hs3. rewrite Hs3. cbn [mbind option_bind]. exists s3, z', ty1, al1. split; [|done]. zlens. by rewrite Hxl.
Qed.

Lemma fmt_putc_ok z s ty c al x :
  repz be z s ty c al -> zlen c + 1 <= al ->
  exists s' z', fmt_putc be s (zlen c) x = Some (s', zlen (c ++ [x])) /\ repz be z' s' ty (c ++ [x]) al.
Proof.
  intros Hrep Hroom. destruct (append_raw z s ty c al [x] Hrep) as (s1 & s2 & z' & Hs1 & Hs2 & Hrep2); [done|].
  exists s2, z'. split; [|done]. unfold fmt_putc.
  assert (s_set s (zlen c) x = Some s1) as -> by (rewrite <- Hs1; unfold s_set, s_wr; by rewrite zset_wr).
  cbn [mbind option_bind]. change (zlen [x]) with 1 in Hs2. rewrite Hs2. cbn [mbind option_bind]. f_equal. f_equal.
  zlens. lia.
Qed.

(** What a conversion prints, and the arguments it accepts. *)
Inductive conv_text : Z -> list fmt_arg -> list Z -> list fmt_arg -> Prop :=
  | CStr x t ap : nonzero x -> conv_text 115 (AStr (x ++ 0 :: t) :: ap) x ap
  | CSds s ty x al ap : rep be s ty x al -> conv_text 83 (ASds s :: ap) x ap
  | CInt n ap : in_s 32 n -> conv_text 105 (AInt n :: ap) (dec_string n) ap
  | CLong n ap : LLONG_MIN <= n <= LLONG_MAX -> conv_text 73 (ALongLong n :: ap) (dec_string n) ap
  | CUint n ap : in_u 32 n -> conv_text 117 (AUint n :: ap) (dec n) ap
  | CULong n ap : in_u 64 n -> conv_text 85 (AULongLong n :: ap) (dec n) ap
  | COther c ap : c <> 0 -> c ∉ [115; 83; 105; 73; 117; 85] -> conv_text c ap [c] ap.

(** The text of a format string, and the arguments it leaves. *)
Inductive fmt_text : list Z -> list fmt_arg -> list Z -> list fmt_arg -> Prop :=
  | FNil ap : fmt_text [] ap [] ap
  | FChar c f ap out ap' :
      c <> 0 -> c <> 37 -> fmt_text f ap out ap' -> fmt_text (c :: f) ap (c :: out) ap'
  | FConv c f ap x ap1 out ap' :
      conv_text c ap x ap1 -> fmt_text f ap1 out ap' -> fmt_text (37 :: c :: f) ap (x ++ out) ap'.

Lemma fmt_conv_ok z s ty c al next ap x ap' :
  repz be z s ty c al -> zlen c + 1 <= al -> conv_text next ap x ap' -> zlen c + zlen x < max_len ->
  exists s' z' ty' al', fmt_conv be junk next s (zlen c) ap = Some (s', zlen (c ++ x), ap') /\
    repz be z' s' ty' (c ++ x) al'.
Proof.
  intros Hrep Hroom Hconv Hm.
  assert (Hcopy : forall str l, rd str 0 l = Some x -> zlen x = l -> exists s' z' ty' al',
    ('(s, i) ← fmt_copy be junk s (zlen c) str l; Some (s, i, ap')) = Some (s', zlen (c ++ x), ap') /\
    repz be z' s' ty' (c ++ x) al').
  { intros str l Hrd <-. destruct (fmt_copy_ok z s ty c al str (zlen x) x Hrep Hrd Hm) as (s' & z' & ty' & al' & -> & Hr').
    by exists s', z', ty', al'. }
  assert (Hll : forall n, LLONG_MIN <= n <= LLONG_MAX -> x = dec_string n -> exists s' z' ty' al',
    ('(buf, l) ← sdsll2str (llstr_buf junk) n; '(s, i) ← fmt_copy be junk s (zlen c) buf l; Some (s, i, ap')) =
      Some (s', zlen (c ++ x), ap') /\ repz be z' s' ty' (c ++ x) al').
  { intros n Hn ->. destruct (sdsll2str_ok (llstr_buf junk) n Hn) as [t ->]; [by rewrite llstr_buf_size|].
    apply Hcopy; [by apply rd_front|done]. }
  assert (Hull : forall n, 0 <= n < 2 ^ 64 -> x = dec n -> exists s' z' ty' al',
    ('(buf, l) ← sdsull2str (llstr_buf junk) n; '(s, i) ← fmt_copy be junk s (zlen c) buf l; Some (s, i, ap')) =
      Some (s', zlen (c ++ x), ap') /\ repz be z' s' ty' (c ++ x) al').
  { intros n Hn ->. destruct (sdsull2str_ok (llstr_buf junk) n Hn) as [t ->]; [by rewrite llstr_buf_size|].
    apply Hcopy; [by apply rd_front|done]. }
  destruct Hconv as [x t ap Hx|str ty' x al' ap Hstr|n ap Hn|n ap Hn|n ap Hn|n ap Hn|ch ap H0 Hch];
    unfold in_s, in_u, LLONG_MIN, LLONG_MAX in *.
  - unfold fmt_conv. cbn [Z.eqb Pos.eqb]. rewrite strlen_ok by done. cbn [mbind option_bind].
    apply Hcopy; [by apply rd_front|done].
  - unfold fmt_conv. cbn [Z.eqb Pos.eqb]. rewrite (rep_len be _ _ _ _ Hstr). cbn [mbind option_bind].
    destruct (rep_bytes be _ _ _ _ Hstr) as [free ->]. apply Hcopy; [by apply rd_front|done].
  - change (2 ^ (32 - 1)) with (2 ^ 31) in Hn. apply (Hll n); [lia|done].
  - by apply (Hll n).
  - apply (Hull n); [lia|done].
  - by apply (Hull n).
  - unfold fmt_conv. assert (Hne : forall k, k ∈ [115; 83; 105; 73; 117; 85] -> (ch =? k) = false).
    { intros k Hk. apply Z.eqb_neq. intros ->. done. }
    rewrite !Hne by (eapply bool_decide_unpack; vm_compute; exact I). cbn [orb].
    destruct (fmt_putc_ok z s ty c al ch Hrep Hroom) as (s' & z' & -> & Hr'). by exists s', z', ty, al.
Qed.

(** The loop over a whole format string, up to what follows it. *)
Lemma fmt_loop_run f ap out ap' fuel p rest z s ty c al :
  fmt_text f ap out ap' -> (length f <= fuel)%nat -> repz be z s ty c al -> zlen c + zlen out + 1 < max_len ->
  exists fuel' s' z' ty' al',
    fmt_loop be junk fuel s (zlen c) (p ++ f ++ rest) (zlen p) ap =
    fmt_loop be junk fuel' s' (zlen (c ++ out)) (p ++ f ++ rest) (zlen (p ++ f)) ap' /\
    repz be z' s' ty' (c ++ out) al' /\ (fuel <= fuel' + length f)%nat.
Proof.
  intros Hf. revert fuel p z s ty c al.
  induction Hf as [ap|ch f ap out ap' H0 H37 Hf IH|ch f ap x ap1 out ap' Hconv Hf IH];
    intros fuel p z s ty c al Hfuel Hrep Hm.
  { exists fuel, s, z, ty, al. rewrite !app_nil_r. split_and!; [done|done|simpl; lia]. }
  all: pose proof (zlen_nonneg c); pose proof (zlen_nonneg out); destruct fuel as [|fuel]; simpl in Hfuel; [lia|].
  all: assert (zlen c <= al) as Hal by (destruct Hrep as (? & _ & ? & _); lia).
  - cbn [fmt_loop app]. rewrite znth_middle. cbn [mbind option_bind]. rewrite (proj2 (Z.eqb_neq ch 0)) by done.
    rewrite (repz_avail be _ _ _ _ _ Hrep). cbn [mbind option_bind].
    replace (al - zlen c =? 0) with (al - zlen c <? 1) by (destruct (Z.ltb_spec (al - zlen c) 1), (Z.eqb_spec (al - zlen c) 0); done || lia).
    zlens. destruct (make_room_ok z s ty c al 1 Hrep) as (s1 & ty1 & al1 & -> & Hrep1 & Hroom); [lia..|].
    cbn [mbind option_bind]. rewrite (proj2 (Z.eqb_neq ch 37)) by done.
    destruct (fmt_putc_ok z s1 ty1 c al1 ch Hrep1 Hroom) as (s2 & z2 & -> & Hrep2). cbn [mbind option_bind].
    destruct (IH fuel (p ++ [ch]) z2 s2 ty1 (c ++ [ch]) al1) as (fuel' & s' & z' & ty' & al' & He & Hr & Hl);
      [lia|done|zlens; lia|].
    rewrite <- !(assoc_L (++)) in He, Hr. cbn [app] in He, Hr. zlens.
    exists fuel', s', z', ty', al'. split_and!; [|done|simpl; lia].
    etrans; [|etrans; [apply He|]]; repeat (f_equal; try lia).
  - cbn [fmt_loop app]. rewrite znth_middle. cbn [mbind option_bind]. cbn [Z.eqb].
    rewrite (repz_avail be _ _ _ _ _ Hrep). cbn [mbind option_bind]. pose proof (zlen_nonneg x).
    replace (al - zlen c =? 0) with (al - zlen c <? 1) by (destruct (Z.ltb_spec (al - zlen c) 1), (Z.eqb_spec (al - zlen c) 0); done || lia).
    zlens. destruct (make_room_ok z s ty c al 1 Hrep) as (s1 & ty1 & al1 & -> & Hrep1 & Hroom); [lia..|].
    cbn [mbind option_bind Z.eqb Pos.eqb].
    replace (p ++ 37 :: ch :: f ++ rest) with ((p ++ [37; ch]) ++ f ++ rest) by (by rewrite <- (assoc_L (++))).
    assert (znth ((p ++ [37; ch]) ++ f ++ rest) (zlen p + 1) = Some ch) as ->.
    { replace ((p ++ [37; ch]) ++ f ++ rest) with ((p ++ [37]) ++ ch :: f ++ rest) by (by rewrite <- !(assoc_L (++))).
      replace (zlen p + 1) with (zlen (p ++ [37])) by (zlens; lia). apply znth_middle. }
    cbn [mbind option_bind].
    destruct (fmt_conv_ok z s1 ty1 c al1 ch ap x ap1 Hrep1 Hroom Hconv) as (s2 & z2 & ty2 & al2 & -> & Hrep2); [lia|].
    cbn [mbind option_bind].
    destruct (IH fuel (p ++ [37; ch]) z2 s2 ty2 (c ++ x) al2) as (fuel' & s' & z' & ty' & al' & He & Hr & Hl);
      [simpl in Hfuel; lia|done|zlens; lia|].
    exists fuel', s', z', ty', al'. rewrite (assoc_L (++) c x out).
    split_and!; [|done|simpl; lia].
    replace (zlen p + 2) with (zlen (p ++ [37; ch])) by (zlens; lia). rewrite He.
    f_equal; zlens; lia.
Qed.

(** C38: [sdscatfmt] appends exactly the text of its format: ordinary characters
    as they are, strings by their length or terminator, integers of the whole
    range of their types in canonical decimal, anything else after a percent sign
    verbatim.  The result is a well formed string.  A format that ends in a lone
    percent sign has no text ([sdscatfmt_lone_percent]). *)
Theorem sdscatfmt_correct s ty c al f t ap out ap' :
  rep be s ty c al -> fmt_text f ap out ap' -> zlen c + zlen out + 1 < max_len ->
  exists s' ty' al', sdscatfmt be junk s (f ++ 0 :: t) ap = Some s' /\ rep be s' ty' (c ++ out) al'.
Proof.
  intros Hrep Hf Hm. unfold sdscatfmt. rewrite (rep_len be _ _ _ _ Hrep). cbn [mbind option_bind].
  destruct (fmt_loop_run f ap out ap' (S (length (f ++ 0 :: t))) [] (0 :: t) 0 s ty c al Hf)
    as (fuel' & s1 & z1 & ty1 & al1 & He & Hr1 & Hl); [rewrite length_app; lia|done|done|].
  change (zlen []) with 0 in He. cbn [app] in He. rewrite He.
  destruct fuel' as [|fuel']; [rewrite length_app in Hl; simpl in Hl; lia|]. cbn [fmt_loop].
  rewrite znth_middle. cbn [mbind option_bind Z.eqb].
  destruct Hr1 as (free & Hr1 & Hal & H5).
  destruct (raw_term be _ _ _ _ (c ++ out) z1 free (zlen (c ++ out)) Hr1) as (s2 & -> & Hr2); [done|].
  exists s2, ty1, al1. split; [done|]. by exists free.
Qed.

(** A format that ends in a lone percent sign makes [sdscatfmt] read past the
    terminator of the format string. *)
Lemma sdscatfmt_lone_percent s ty c al f ap out ap' :
  rep be s ty c al -> fmt_text f ap out ap' -> zlen c + zlen out + 1 < max_len ->
  sdscatfmt be junk s (f ++ [37; 0]) ap = None.
Proof.
  intros Hrep Hf Hm. unfold sdscatfmt. rewrite (rep_len be _ _ _ _ Hrep). cbn [mbind option_bind].
  destruct (fmt_loop_run f ap out ap' (S (length (f ++ [37; 0]))) [] [37; 0] 0 s ty c al Hf)
    as (fuel' & s1 & z1 & ty1 & al1 & He & Hr1 & Hl); [rewrite length_app; lia|done|done|].
  change (zlen []) with 0 in He. cbn [app] in He. rewrite He. rewrite length_app in Hl. simpl in Hl.
  destruct fuel' as [|[|fuel']]; [lia..|]. cbn [fmt_loop].
  rewrite znth_middle. cbn [mbind option_bind Z.eqb]. rewrite (repz_avail be _ _ _ _ _ Hr1). cbn [mbind option_bind].
  destruct (if al1 - zlen (c ++ out) =? 0 then _ else _) as [s2|]; [|done]. cbn [mbind option_bind Pos.eqb].
  replace (f ++ [37; 0]) with ((f ++ [37]) ++ [0]) by (by rewrite <- (assoc_L (++))).
  replace (zlen f + 1) with (zlen (f ++ [37])) by (zlens; lia). rewrite znth_middle. cbn [mbind option_bind].
  destruct (fmt_conv be junk 0 s2 (zlen (c ++ out)) ap') as [[[s3 i3] ap3]|]; [|done]. cbn [mbind option_bind].
  assert (znth ((f ++ [37]) ++ [0]) (zlen f + 2) = None) as ->; [|done].
  pose proof (zlen_nonneg f). rewrite znth_nat by lia. apply lookup_ge_None. rewrite !length_app. unfold zlen. simpl. lia.
Qed.

(** ** Splitting and joining: correctness *)



Fixpoint join_text (sep : list Z) (ts : list (list Z)) : list Z :=
  match ts with
  | [] => []
  | t :: ts => t ++ match ts with [] => [] | _ => sep ++ join_text sep ts end
  end.


(** The strings that hold the given contents. *)
Definition holds (s : sds) (c : list Z) : Prop := exists ty al, rep be s ty c al.


Lemma rd_app_l (l t : list Z) i n x : rd l i n = Some x -> rd (l ++ t) i n = Some x.
Proof.
  intros Hx. destruct (rd_inv _ _ _ _ Hx) as (Hi & Hn & Hle & _). pose proof (zlen_nonneg t).
  rewrite rd_Some in * by (zlens; lia). injection Hx as <-. f_equal.
  rewrite drop_app_le by (unfold zlen in *; lia). rewrite take_app_le by (rewrite length_drop; unfold zlen in *; lia). done.
Qed.

(** A token cut out of the string. *)
Lemma token_ok (pre cur t : list Z) n :
  n = zlen cur -> n < max_len ->
  exists s, sdsnewlen be junk (InitBytes (drop (Z.to_nat (zlen pre)) (pre ++ cur ++ t))) n = Some s /\ holds s cur.
Proof.
  intros -> Hm. rewrite to_nat_zlen, drop_app_length.
  destruct (sdsnewlen_ok be junk (InitBytes (cur ++ t)) (zlen cur) cur) as (s & ty & c & Hs & Hrep & Hc);
    [pose proof (zlen_nonneg cur); lia|by apply rd_front|].
  simpl in Hc. rewrite rd_front in Hc by done. injection Hc as <-. exists s. split; [done|]. by exists ty, (zlen cur).
Qed.








Lemma sdsempty_ok : exists s, sdsempty be junk = Some s /\ holds s [].
Proof.
  destruct (sdsnewlen_ok be junk (InitBytes [0]) 0 []) as (s & ty & c & Hs & Hrep & Hc); [done|done|].
  simpl in Hc. change (rd [0] 0 0) with (Some (@nil Z)) in Hc. injection Hc as <-. exists s. split; [done|]. by exists ty, 0.
Qed.



(** ** Quoting: correctness *)

(** The text [sdscatrepr] writes for a character and for a string. *)
Definition repr_text (c : Z) : list Z :=
  if (c =? 92) || (c =? 34) then [92; c]
  else if c =? 10 then [92; 110]
  else if c =? 13 then [92; 114]
  else if c =? 9 then [92; 116]
  else if c =? 7 then [92; 97]
  else if c =? 8 then [92; 98]
  else if isprint c then [c]
  else [92; 120; hex_char (c / 16); hex_char (c mod 16)].
Definition repr_body (p : list Z) : list Z := concat (map repr_text p).
Definition repr (p : list Z) : list Z := 34 :: repr_body p ++ [34].

(** The three forms of a quoted character. *)
Inductive repr_shape (x : Z) : list Z -> Prop :=
  | RPlain : 32 <= x <= 126 -> x <> 92 -> x <> 34 -> repr_shape x [x]
  | REscape e : e <> 0 -> e <> 120 -> unescape e = x -> repr_shape x [92; e]
  | RHex h l : 0 <= h < 16 -> 0 <= l < 16 -> x = h * 16 + l -> repr_shape x [92; 120; hex_char h; hex_char l].

Lemma repr_text_shape x : is_byte x -> repr_shape x (repr_text x).
Proof.
  intros Hx. unfold is_byte in Hx. unfold repr_text, isprint.
  destruct (Z.eqb_spec x 92) as [->|]; [by apply REscape|]. destruct (Z.eqb_spec x 34) as [->|]; [by apply REscape|].
  cbn [orb]. destruct (Z.eqb_spec x 10) as [->|]; [by apply REscape|].
  destruct (Z.eqb_spec x 13) as [->|]; [by apply REscape|]. destruct (Z.eqb_spec x 9) as [->|]; [by apply REscape|].
  destruct (Z.eqb_spec x 7) as [->|]; [by apply REscape|]. destruct (Z.eqb_spec x 8) as [->|]; [by apply REscape|].
  destruct (Z.leb_spec 32 x), (Z.leb_spec x 126); cbn [andb]; try (apply RPlain; done || lia).
  all: apply RHex; [split; [apply Z.div_pos; lia|apply Z.div_lt_upper_bound; lia]|apply Z.mod_pos_bound; lia|
    rewrite (Z.div_mod x 16) at 1 by done; lia].
Qed.

Lemma hex_char_range d : 0 <= d < 16 -> 48 <= hex_char d <= 102.
Proof. intros Hd. unfold hex_char. destruct (Z.ltb_spec d 10); lia. Qed.

Lemma hex_char_ok d : 0 <= d < 16 -> is_hex_digit (hex_char d) = true /\ hex_digit_to_int (hex_char d) = d.
Proof.
  intros Hd. unfold hex_char, is_hex_digit, hex_digit_to_int. destruct (Z.ltb_spec d 10);
    repeat match goal with |- context [?a <=? ?b] => destruct (Z.leb_spec a b); try lia; cbn [andb orb] end; split; (done || lia).
Qed.

Lemma repr_nonzero x : is_byte x -> nonzero (repr_text x).
Proof.
  intros Hx. destruct (repr_text_shape x Hx) as [? ? ?|e ? ? ?|h l Hh Hl ?]; unfold nonzero;
    repeat constructor; try lia.
  - pose proof (hex_char_range h Hh). lia.
  - pose proof (hex_char_range l Hl). lia.
Qed.

Lemma sdscatlen_holds s c x n :
  holds s c -> n = zlen x -> zlen c + zlen x < max_len ->
  exists s', sdscatlen be junk s x n = Some s' /\ holds s' (c ++ x).
Proof.
  intros (ty & al & Hs) -> Hm. destruct (sdscatlen_ok be junk s ty c al x (zlen x) x Hs) as (s' & ty' & al' & Hs' & Hr');
    [apply rd_all|done|]. exists s'. split; [done|]. by exists ty', al'.
Qed.

Lemma repr_char_ok s c x :
  holds s c -> is_byte x -> zlen c + zlen (repr_text x) < max_len ->
  exists s', repr_char be junk s x = Some s' /\ holds s' (c ++ repr_text x).
Proof.
  intros Hs Hx Hm. pose proof (repr_nonzero x Hx) as Hnz.
  assert (Hpr : forall f text, nonzero f -> zlen f < max_len -> nonzero text -> zlen c + zlen text < max_len ->
    exists s', sdscatprintf be junk s (f ++ [0]) text = Some s' /\ holds s' (c ++ text)).
  { intros f text Hf Hfl Ht Htl. destruct Hs as (ty & al & Hs).
    destruct (sdscatvprintf_ok s ty c al f [] text Hs) as (s' & ty' & al' & Hs' & Hr'); try done.
    exists s'. split; [done|]. by exists ty', al'. }
  revert Hm Hnz. unfold repr_char, repr_text.
  destruct ((x =? 92) || (x =? 34)); intros Hm Hnz; [apply Hpr; try done; repeat constructor; done|].
  repeat match goal with |- context [if x =? ?k then _ else _] =>
    revert Hm Hnz; destruct (x =? k); intros Hm Hnz; [apply (sdscatlen_holds s c [92; _] 2 Hs); [done|exact Hm]|] end.
  revert Hm Hnz. destruct (isprint x); intros Hm Hnz; apply Hpr; try done; repeat constructor; done.
Qed.

Lemma repr_loop_ok p t s c :
  holds s c -> bytes p -> zlen c + zlen (repr_body p) < max_len ->
  exists s', repr_loop be junk s (p ++ t) (length p) = Some s' /\ holds s' (c ++ repr_body p).
Proof.
  intros Hs Hp. revert s c Hs. induction Hp as [|x p Hx Hp IH]; intros s c Hs Hm.
  { exists s. unfold repr_body. simpl. by rewrite app_nil_r. }
  unfold repr_body in *. cbn [map concat] in Hm. zlens. pose proof (zlen_nonneg (concat (map repr_text p))).
  destruct (repr_char_ok s c x Hs Hx) as (s1 & Hs1 & Hh1); [lia|]. cbn [length app repr_loop]. rewrite Hs1.
  cbn [mbind option_bind]. destruct (IH s1 _ Hh1) as (s2 & -> & Hh2); [zlens; lia|].
  exists s2. split; [done|]. cbn [map concat]. by rewrite (assoc_L (++)).
Qed.

Lemma sdscatrepr_ok s c p t :
  holds s c -> bytes p -> zlen c + zlen (repr p) < max_len ->
  exists s', sdscatrepr be junk s (p ++ t) (zlen p) = Some s' /\ holds s' (c ++ repr p).
Proof.
  intros Hs Hp Hm. unfold sdscatrepr, repr in *. zlens. pose proof (zlen_nonneg (repr_body p)).
  destruct (sdscatlen_holds s c [34] 1 Hs) as (s1 & -> & Hh1); [done|zlens; lia|]. cbn [mbind option_bind].
  rewrite to_nat_zlen. destruct (repr_loop_ok p t s1 _ Hh1 Hp) as (s2 & -> & Hh2); [zlens; lia|]. cbn [mbind option_bind].
  destruct (sdscatlen_holds s2 _ [34] 1 Hh2) as (s3 & Hs3 & Hh3); [done|zlens; lia|].
  exists s3. split; [done|]. by rewrite <- !(assoc_L (++)) in Hh3.
Qed.

(** Characters of a line around the scanner's position. *)
Lemma znth_in_seg (p : list Z) l t i k :
  i = zlen p + Z.of_nat k -> (k < length l)%nat -> znth (p ++ l ++ t) i = l !! k.
Proof.
  intros -> Hk. pose proof (zlen_nonneg p). rewrite znth_nat by lia.
  rewrite lookup_app_r by (unfold zlen; lia). rewrite lookup_app_l by (unfold zlen; lia).
  f_equal. unfold zlen. lia.
Qed.

Lemma advance_ok line p c : znth line p = Some c -> c <> 0 -> advance line p = Some (p + 1).
Proof. intros Hc H0. unfold advance. rewrite Hc. cbn [mbind option_bind]. by rewrite (proj2 (Z.eqb_neq c 0)). Qed.

(** One quoted character inside double quotes. *)
Lemma scan_char fuel pre x t cur c :
  holds cur c -> is_byte x -> zlen c + 1 < max_len ->
  exists cur', scan_token be junk (S fuel) (pre ++ repr_text x ++ t) InQ (zlen pre) cur =
      scan_token be junk fuel (pre ++ repr_text x ++ t) InQ (zlen (pre ++ repr_text x)) cur' /\
    holds cur' (c ++ [x]).
Proof.
  intros Hcur Hx Hm. destruct (sdscatlen_holds cur c [x] 1 Hcur) as (cur' & Hcat & Hh); [done|done|].
  exists cur'. split; [|done]. cbn [scan_token]. unfold scan_inq, hex_escape.
  destruct (repr_text_shape x Hx) as [Hr H92 H34|e H0 H120 He|h l Hh' Hl ->].
  - rewrite (znth_in_seg pre [x] t (zlen pre) 0) by (simpl; lia). cbn [lookup list_lookup mbind option_bind].
    rewrite (proj2 (Z.eqb_neq x 92)) by done. cbn [negb mbind option_bind].
    rewrite (proj2 (Z.eqb_neq x 34)), (proj2 (Z.eqb_neq x 0)) by lia. rewrite Hcat. cbn [mbind option_bind].
    rewrite (advance_ok _ _ x); [|by rewrite (znth_in_seg pre [x] t _ 0) by (simpl; lia)|lia]. cbn [mbind option_bind].
    f_equal. zlens. lia.
  - rewrite (znth_in_seg pre [92; e] t (zlen pre) 0) by (simpl; lia). cbn [lookup list_lookup mbind option_bind Z.eqb Pos.eqb negb].
    rewrite (znth_in_seg pre [92; e] t (zlen pre + 1) 1) by (simpl; lia). cbn [lookup list_lookup mbind option_bind].
    rewrite (proj2 (Z.eqb_neq e 120)), (proj2 (Z.eqb_neq e 0)) by done. cbn [negb mbind option_bind]. rewrite He, Hcat.
    cbn [mbind option_bind].
    rewrite (advance_ok _ _ e); [|by rewrite (znth_in_seg pre [92; e] t _ 1) by (simpl; lia)|done]. cbn [mbind option_bind].
    f_equal. zlens. lia.
  - set (u := [92; 120; hex_char h; hex_char l]) in *.
    destruct (hex_char_ok h Hh') as [Hd1 Hv1], (hex_char_ok l Hl) as [Hd2 Hv2].
    rewrite (znth_in_seg pre u t (zlen pre) 0) by (simpl; lia). cbn [u lookup list_lookup mbind option_bind Z.eqb Pos.eqb negb].
    rewrite (znth_in_seg pre u t (zlen pre + 1) 1) by (simpl; lia). cbn [u lookup list_lookup mbind option_bind Z.eqb Pos.eqb negb].
    rewrite (znth_in_seg pre u t (zlen pre + 2) 2) by (simpl; lia). cbn [u lookup list_lookup mbind option_bind].
    rewrite Hd1. cbn [negb].
    rewrite (znth_in_seg pre u t (zlen pre + 3) 3) by (simpl; lia). cbn [u lookup list_lookup mbind option_bind].
    rewrite Hd2. cbn [negb mbind option_bind]. rewrite Hv1, Hv2. unfold u8. rewrite wrap_id by (unfold in_u; lia).
    rewrite Hcat. cbn [mbind option_bind]. pose proof (hex_char_range l Hl).
    rewrite (advance_ok _ _ (hex_char l)); [|by rewrite (znth_in_seg pre u t _ 3) by (simpl; lia)|lia]. cbn [mbind option_bind].
    f_equal. unfold u. zlens. lia.
Qed.

Lemma scan_body fuel pre p t cur c :
  holds cur c -> bytes p -> zlen c + zlen p < max_len ->
  exists cur', scan_token be junk (length p + fuel) (pre ++ repr_body p ++ t) InQ (zlen pre) cur =
      scan_token be junk fuel (pre ++ repr_body p ++ t) InQ (zlen (pre ++ repr_body p)) cur' /\
    holds cur' (c ++ p).
Proof.
  intros Hcur Hp. revert pre cur c Hcur. induction Hp as [|x p Hx Hp IH]; intros pre cur c Hcur Hm.
  { exists cur. unfold repr_body. simpl. by rewrite !app_nil_r. }
  unfold repr_body in *. cbn [map concat length Nat.add]. zlens. pose proof (zlen_nonneg p).
  rewrite <- (assoc_L (++) (repr_text x)).
  destruct (scan_char (length p + fuel) pre x (concat (map repr_text p) ++ t) cur c Hcur Hx) as (cur1 & -> & Hh1); [lia|].
  destruct (IH (pre ++ repr_text x) cur1 _ Hh1) as (cur2 & He & Hh2); [zlens; lia|].
  exists cur2. rewrite <- !(assoc_L (++)) in He, Hh2. split; [|done]. rewrite He. f_equal. zlens. lia.
Qed.

(** A whole quoted argument. *)
Lemma scan_repr fuel pre p y t cur :
  holds cur [] -> bytes p -> zlen p < max_len -> y = 0 \/ isspace y = true -> (length p + 2 <= fuel)%nat ->
  exists cur', scan_token be junk fuel (pre ++ repr p ++ y :: t) Plain (zlen pre) cur =
      Some (Some (zlen (pre ++ repr p), cur')) /\ holds cur' p.
Proof.
  intros Hcur Hp Hm Hy Hf. destruct fuel as [|fuel]; [lia|]. cbn [scan_token].
  set (line := pre ++ repr p ++ y :: t).
  assert (Hline : line = (pre ++ [34]) ++ repr_body p ++ 34 :: y :: t).
  { unfold line, repr. cbn [app]. by rewrite <- !(assoc_L (++)). }
  assert (H34 : znth line (zlen pre) = Some 34) by (unfold line, repr; cbn [app]; apply znth_middle).
  rewrite H34. cbn [mbind option_bind scan_plain Z.eqb Pos.eqb orb].
  rewrite (advance_ok _ _ 34 H34) by done. cbn [mbind option_bind].
  replace (zlen pre + 1) with (zlen (pre ++ [34])) by (zlens; lia). rewrite Hline.
  replace fuel with (length p + S (fuel - length p - 1))%nat by lia.
  destruct (scan_body (S (fuel - length p - 1)) (pre ++ [34]) p (34 :: y :: t) cur [] Hcur Hp) as (cur' & -> & Hh); [done|].
  exists cur'. split; [|done]. rewrite <- Hline. cbn [scan_token].
  set (q := (pre ++ [34]) ++ repr_body p).
  assert (Hq : line = q ++ 34 :: y :: t) by (rewrite Hline; unfold q; by rewrite <- !(assoc_L (++))).
  assert (Hq34 : znth line (zlen q) = Some 34) by (rewrite Hq; apply znth_middle).
  rewrite Hq34. cbn [mbind option_bind]. unfold scan_inq, hex_escape. cbn [Z.eqb Pos.eqb negb mbind option_bind].
  unfold closes. assert (znth line (zlen q + 1) = Some y) as ->.
  { replace (zlen q + 1) with (zlen (q ++ [34])) by (zlens; lia). rewrite Hq.
    replace (q ++ 34 :: y :: t) with ((q ++ [34]) ++ y :: t) by (by rewrite <- (assoc_L (++))). apply znth_middle. }
  cbn [mbind option_bind]. assert ((y =? 0) || isspace y = true) as -> by (destruct Hy as [->| ->]; [done|apply orb_true_r]).
  rewrite (advance_ok _ _ 34 Hq34) by done. cbn [mbind option_bind]. do 3 f_equal. unfold q, repr. zlens. lia.
Qed.

Lemma zlen_repr_body p : bytes p -> zlen p <= zlen (repr_body p).
Proof.
  intros Hp. unfold repr_body. induction Hp as [|x p Hx Hp IH]; [done|]. cbn [map concat]. zlens.
  destruct (repr_text_shape x Hx); zlens; lia.
Qed.

(** One argument of a line, preceded by at most one blank. *)
Lemma split_args_step fuel pre sp p y t vec :
  bytes p -> zlen p < max_len -> y = 0 \/ isspace y = true -> sp = [] \/ sp = [32] -> zlen vec + 1 <= INT_MAX ->
  exists tok, split_args be junk (S fuel) (pre ++ sp ++ repr p ++ y :: t) (zlen pre) (zlen vec) vec =
      split_args be junk fuel (pre ++ sp ++ repr p ++ y :: t) (zlen (pre ++ sp ++ repr p)) (zlen (vec ++ [tok])) (vec ++ [tok]) /\
    holds tok p.
Proof.
  intros Hp Hm Hy Hsp Hvec. set (line := pre ++ sp ++ repr p ++ y :: t). cbn [split_args].
  assert (Hline : line = (pre ++ sp) ++ repr p ++ y :: t) by (unfold line; by rewrite <- (assoc_L (++))).
  assert (H34 : znth line (zlen (pre ++ sp)) = Some 34) by (rewrite Hline; unfold repr; cbn [app]; apply znth_middle).
  assert (Hlen : (3 + length p <= length line)%nat).
  { assert (length p <= length (repr_body p))%nat as Hb by (pose proof (zlen_repr_body p Hp); unfold zlen in *; lia).
    rewrite Hline. unfold repr. repeat (rewrite ?length_app; cbn [length app]). lia. }
  assert (Hskip : skip_blanks (S (length line)) line (zlen pre) = Some (zlen (pre ++ sp))).
  { destruct Hsp as [-> | ->].
    - rewrite app_nil_r in *. cbn [skip_blanks]. rewrite H34. done.
    - destruct (length line) as [|n]; [lia|]. cbn [skip_blanks].
      assert (znth line (zlen pre) = Some 32) as -> by (unfold line; cbn [app]; apply znth_middle).
      cbn [mbind option_bind]. change (negb (32 =? 0) && isspace 32) with true. cbv iota.
      replace (zlen pre + 1) with (zlen (pre ++ [32])) by (zlens; lia). rewrite H34. done. }
  rewrite Hskip. cbn [mbind option_bind]. rewrite H34. cbn [mbind option_bind Z.eqb].
  destruct sdsempty_ok as (cur & -> & Hcur). cbn [mbind option_bind]. rewrite Hline.
  destruct (scan_repr (S (length line)) (pre ++ sp) p y t cur Hcur Hp Hm Hy) as (tok & Hs & Hh); [lia|].
  rewrite <- Hline in *. rewrite Hs. cbn [mbind option_bind]. exists tok. split; [|done].
  rewrite (proj2 (Z.ltb_ge INT_MAX _)) by done. rewrite (zlen_app vec). by rewrite <- (assoc_L (++)).
Qed.

Lemma join_text_head sep t ts : zlen t <= zlen (join_text sep (t :: ts)).
Proof.
  cbn [join_text]. zlens. generalize (match ts with [] => [] | _ :: _ => sep ++ join_text sep ts end).
  intros l. pose proof (zlen_nonneg l). lia.
Qed.

Lemma split_args_ok args fuel pre sp t vec :
  Forall bytes args -> (length args < fuel)%nat -> sp = [] \/ sp = [32] ->
  zlen (join_text [32] (map repr args)) < max_len -> zlen vec + zlen args <= INT_MAX ->
  exists toks, split_args be junk fuel (pre ++ (match args with [] => [] | _ => sp end) ++
      join_text [32] (map repr args) ++ 0 :: t) (zlen pre) (zlen vec) vec = Some (Some (zlen (vec ++ toks), vec ++ toks)) /\
    Forall2 holds toks args.
Proof.
  intros Hb. revert fuel pre sp vec. induction Hb as [|a args Ha Hb IH]; intros fuel pre sp vec Hf Hsp Hm Hv;
    (destruct fuel as [|fuel]; [simpl in Hf; lia|]).
  - cbn [split_args map join_text app skip_blanks]. rewrite znth_middle. cbn [mbind option_bind Z.eqb negb andb].
    rewrite znth_middle. cbn [mbind option_bind Z.eqb]. exists []. by rewrite app_nil_r.
  - pose proof (zlen_nonneg args). rewrite zlen_cons in Hv. assert (Hal : zlen a < max_len).
    { pose proof (zlen_repr_body a Ha). pose proof (join_text_head [32] (repr a) (map repr args)) as Hh.
      unfold repr at 1 in Hh. cbn [map] in Hm. zlens. lia. }
    cbn [map join_text] in *.
    destruct args as [|a2 args].
    + cbn [map] in *. rewrite app_nil_r.
      destruct (split_args_step fuel pre sp a 0 t vec Ha Hal) as (tok & -> & Htok); [by left|done|lia|].
      destruct (IH fuel (pre ++ sp ++ repr a) [] (vec ++ [tok])) as (toks & He & Hts); [simpl in *; lia|by left|done|zlens; lia|].
      cbn [map join_text app] in He. rewrite <- !(assoc_L (++)) in He. exists (tok :: toks). split; [done|by constructor].
    + set (rest := join_text [32] (map repr (a2 :: args))) in *. change (match map repr (a2 :: args) with [] => [] | _ => _ end) with ([32] ++ rest) in *.
      replace ((repr a ++ [32] ++ rest) ++ 0 :: t) with (repr a ++ 32 :: (rest ++ 0 :: t)) by (by rewrite <- (assoc_L (++))).
      destruct (split_args_step fuel pre sp a 32 (rest ++ 0 :: t) vec Ha Hal) as (tok & -> & Htok); [by right|done|lia|].
      destruct (IH fuel (pre ++ sp ++ repr a) [32] (vec ++ [tok])) as (toks & He & Hts);
        [simpl in *; lia|by right|zlens; pose proof (zlen_nonneg (repr a)); lia|zlens; lia|].
      rewrite <- !(assoc_L (++)) in He. exists (tok :: toks). split; [exact He|by constructor].
Qed.

(** A line of quoted arguments, as [replicationFeedMonitors] builds it. *)
Fixpoint repr_args (s : sds) (args : list (list Z)) : option sds :=
  match args with
  | [] => Some s
  | a :: args =>
      s ← sdscatrepr be junk s a (zlen a);
      s ← match args with [] => Some s | _ => sdscatlen be junk s [32] 1 end;
      repr_args s args
  end.

Lemma repr_args_ok args s c :
  holds s c -> Forall bytes args -> zlen c + zlen (join_text [32] (map repr args)) < max_len ->
  exists s', repr_args s args = Some s' /\ holds s' (c ++ join_text [32] (map repr args)).
Proof.
  intros Hs Hb. revert s c Hs. induction Hb as [|a args Ha Hb IH]; intros s c Hs Hm.
  { exists s. simpl. by rewrite app_nil_r. }
  cbn [repr_args].
  destruct (sdscatrepr_ok s c a [] Hs Ha) as (s1 & Hs1 & Hh1).
  { pose proof (join_text_head [32] (repr a) (map repr args)). cbn [map] in Hm. lia. }
  rewrite app_nil_r in Hs1. rewrite Hs1.
  cbn [map join_text] in *.
  cbn [mbind option_bind]. destruct args as [|a2 args].
  - exists s1. cbn [map]. by rewrite app_nil_r.
  - cbn [map] in *. set (rest := join_text [32] (repr a2 :: map repr args)) in *. zlens. pose proof (zlen_nonneg rest).
    destruct (sdscatlen_holds s1 _ [32] 1 Hh1) as (s2 & -> & Hh2); [done|zlens; lia|]. cbn [mbind option_bind].
    destruct (IH s2 _ Hh2) as (s3 & Hs3 & Hh3); [zlens; lia|]. exists s3. split; [done|].
    by rewrite <- !(assoc_L (++)) in Hh3.
Qed.

(** C15: quoting and parsing are inverse.  A line made of the quoted forms of any
    byte strings, zero bytes, quotes and blanks included, is split by
    [sdssplitargs] into exactly those strings, with their number as the argument
    count, which is an [int]. *)
Theorem sds_repr_splitargs args :
  Forall bytes args -> zlen args <= INT_MAX -> zlen (join_text [32] (map repr args)) < max_len ->
  exists s0 s toks, sdsempty be junk = Some s0 /\ repr_args s0 args = Some s /\
    sdssplitargs be junk (s_bytes s) = Some (Some (zlen args, toks)) /\ Forall2 holds toks args.
Proof.
  intros Hb Hn Hm. destruct sdsempty_ok as (s0 & Hs0 & Hh0).
  destruct (repr_args_ok args s0 [] Hh0 Hb) as (s & Hs & ty & al & Hrep); [done|].
  destruct (rep_bytes be _ _ _ _ Hrep) as [free Hbytes]. cbn [app] in Hbytes.
  assert (Hlen : (length args <= length (join_text [32%Z] (map repr args)))%nat).
  { clear. induction args as [|a args IH]; [done|]. destruct args as [|a2 args]; [simpl; lia|].
    change (join_text [32] (map repr (a :: a2 :: args))) with (repr a ++ [32] ++ join_text [32] (map repr (a2 :: args))).
    rewrite !length_app. cbn [length]. cbn [length] in IH. lia. }
  destruct (split_args_ok args (S (length (s_bytes s))) [] [] free []) as (toks & He & Hts); [done| |by left|done|done|].
  { rewrite Hbytes, length_app. lia. }
  exists s0, s, toks. split_and!; try done. unfold sdssplitargs. rewrite Hbytes in *. cbn [app] in He.
  assert (zlen toks = zlen args) as <- by (unfold zlen; by rewrite (list.Forall2_length _ _ _ Hts)).
  by destruct args.
Qed.

(** [sdsfromlonglong] prints every value. *)
Lemma sdsfromlonglong_ok v :
  LLONG_MIN <= v <= LLONG_MAX -> exists s, sdsfromlonglong be junk v = Some s /\ holds s (dec_string v).
Proof.
  intros Hv. unfold sdsfromlonglong. destruct (sdsll2str_ok (llstr_buf junk) v Hv) as [t ->]; [by rewrite llstr_buf_size|].
  cbn [mbind option_bind]. apply (token_ok [] (dec_string v) (0 :: t)); [done|].
  rewrite dec_string_zlen. unfold LLONG_MIN, LLONG_MAX in Hv.
  pose proof (zlen_dec_max (Z.abs v) 19 ltac:(lia) ltac:(lia)). unfold max_len, b2z. destruct (v <? 0); lia.
Qed.
End SdsTextSpec.

(** ** Instances *)

Definition dashes : sds := mk_sds [2; 2; 1; 45; 45; 0] 3.
Lemma dashes_rep : rep false dashes 1 (codes "--") 2.
Proof. exists []. split_and!; try done; vm_compute; intuition discriminate. Qed.

(** A test of sds.c. *)
Definition sample_fmt : list Z := codes "Hello %s World %I,%I--".
Definition sample_ap : list fmt_arg := [AStr (codes "Hi!" ++ [0]); ALongLong LLONG_MIN; ALongLong LLONG_MAX].
Definition sample_out : list Z := codes "Hello Hi! World -9223372036854775808,9223372036854775807--".
Lemma sample_fmt_text : fmt_text false sample_fmt sample_ap sample_out [].
Proof.
  do 6 (apply FChar; [done..|]).
  apply (FConv false 115 (codes " World %I,%I--") _ (codes "Hi!") [ALongLong LLONG_MIN; ALongLong LLONG_MAX]
    (codes " World -9223372036854775808,9223372036854775807--")).
  { apply (CStr false (codes "Hi!") []). repeat constructor; discriminate. }
  do 7 (apply FChar; [done..|]).
  apply (FConv false 73 (codes ",%I--") _ (dec_string LLONG_MIN) [ALongLong LLONG_MAX] (codes ",9223372036854775807--"));
    [by constructor|].
  apply FChar; [done..|].
  apply (FConv false 73 (codes "--") _ (dec_string LLONG_MAX) [] (codes "--")); [by constructor|].
  do 2 (apply FChar; [done..|]). constructor.
Qed.

Lemma sdscatfmt_correct_witness :
  exists s' ty' al', sdscatfmt false (fun _ => 0) dashes (sample_fmt ++ [0]) sample_ap = Some s' /\
    rep false s' ty' (codes "--Hello Hi! World -9223372036854775808,9223372036854775807--") al'.
Proof.
  apply (sdscatfmt_correct false (fun _ => 0) dashes 1 (codes "--") 2 sample_fmt [] sample_ap sample_out []);
    [apply dashes_rep|apply sample_fmt_text|done].
Defined.


Definition sample_args : list (list Z) := [codes "set"; [0; 34; 92; 255; 10]; []; codes "a b'"].
Lemma sds_repr_splitargs_witness :
  exists s0 s toks, sdsempty false (fun _ => 0) = Some s0 /\ repr_args false (fun _ => 0) s0 sample_args = Some s /\
    sdssplitargs false (fun _ => 0) (s_bytes s) = Some (Some (4, toks)) /\ Forall2 (holds false) toks sample_args.
Proof.
  apply (sds_repr_splitargs false (fun _ => 0) sample_args); [|done|done].
  repeat constructor; vm_compute; (split; [discriminate|reflexivity]) || done.
Defined.
