(* ===== verification/Lzf.v ===== *)
(** * LZF: redis-5.0/src/lzf_c.c and lzf_d.c

    The compressor and the decompressor of byte strings, with the configuration
    of lzfP.h for a 64-bit x86 host: VERY_FAST, a hash table of 2^16 offsets that
    is not initialised, unaligned accesses, CHECK_INPUT.  A pointer into the
    input or the output is its offset; the hash table is a function from slots
    to their contents, which are arbitrary at first.  [None] is a read or a
    write outside a buffer. *)

From Stdlib Require Import ZArith Lia Bool.
From stdpp Require Import base option list numbers.
From S2P Require Import Prelude.
Open Scope Z_scope.

(** ** The code *)

(** *** lzf_c.c *)
Definition FRST (data : list Z) (p : Z) : option Z :=
  a ← znth data p; b ← znth data (p + 1); Some (Z.lor (Z.shiftl a 8) b).
Definition NEXT (v : Z) (data : list Z) (p : Z) : option Z :=
  c ← znth data (p + 2); Some (Z.lor (u32 (Z.shiftl v 8)) c).
(** [HLOG] is 16. *)
Definition IDX (h : Z) : Z := Z.land (u32 (Z.shiftr h (3 * 8 - 16) - u32 (h * 5))) (Z.shiftl 1 16 - 1).

Notation MAX_LIT := (Z.shiftl 1 5).
Notation MAX_OFF := (Z.shiftl 1 13).
Notation MAX_REF := (Z.shiftl 1 8 + Z.shiftl 1 3).

Definition set_hslot (htab : Z -> Z) (i v : Z) : Z -> Z := fun j => if j =? i then v else htab j.

(** The slot of the three bytes at [ip] is read and set; [Some off] when it holds
    the place of the same three bytes not too far back. *)
Definition find_match (data : list Z) (htab : Z -> Z) (hval ip : Z) : option ((Z -> Z) * option Z) :=
  let ref := htab (IDX hval) in
  let htab := set_hslot htab (IDX hval) (u32 ip) in
  let off := u64 (ip - ref - 1) in
  if (off <? MAX_OFF) && (0 <? ref) then
    r2 ← znth data (ref + 2);
    i2 ← znth data (ip + 2);
    if negb (r2 =? i2) then Some (htab, None)
    else
      r0 ← znth data ref;
      r1 ← znth data (ref + 1);
      i0 ← znth data ip;
      i1 ← znth data (ip + 1);
      if (r0 =? i0) && (r1 =? i1) then Some (htab, Some off) else Some (htab, None)
  else Some (htab, None).

(** [n] times [len++; if (ref [len] != ip [len]) break;]; [true] when it did not
    break. *)
Fixpoint unrolled (n : nat) (data : list Z) (ref ip len : Z) : option (Z * bool) :=
  match n with
  | O => Some (len, true)
  | S n =>
      let len := len + 1 in
      a ← znth data (ref + len);
      b ← znth data (ip + len);
      if a =? b then unrolled n data ref ip len else Some (len, false)
  end.
(** [do len++; while (len < maxlen && ref[len] == ip[len]);] *)
Fixpoint extend_loop (fuel : nat) (data : list Z) (ref ip maxlen len : Z) : option Z :=
  match fuel with
  | O => None
  | S fuel =>
      let len := len + 1 in
      if len <? maxlen then
        a ← znth data (ref + len);
        b ← znth data (ip + len);
        if a =? b then extend_loop fuel data ref ip maxlen len else Some len
      else Some len
  end.
Definition match_len (data : list Z) (ref ip maxlen : Z) : option Z :=
  '(len, go) ← (if 16 <? maxlen then unrolled 16 data ref ip 2 else Some (2, true));
  if (go : bool) then extend_loop (Z.to_nat MAX_REF) data ref ip maxlen len else Some len.

Record LzfState := mk_lzf { l_ip : Z; l_op : Z; l_lit : Z; l_hval : Z; l_htab : Z -> Z; l_out : list Z }.

(** [lit++; *op++ = *ip++;] and the end of a full run. *)
Definition put_literal (data : list Z) (st : LzfState) : option LzfState :=
  let lit := l_lit st + 1 in
  c ← znth data (l_ip st);
  out ← zset (l_out st) (l_op st) c;
  let op := l_op st + 1 in
  if lit =? MAX_LIT then
    out ← zset out (op - lit - 1) (u8 (lit - 1));
    Some (mk_lzf (l_ip st + 1) (op + 1) 0 (l_hval st) (l_htab st) out)
  else Some (mk_lzf (l_ip st + 1) op lit (l_hval st) (l_htab st) out).

(** A match: the run before it is ended, the back reference written and a run
    started.  [inl] is [return 0], with what the output then holds. *)
Definition put_match (data : list Z) (st : LzfState) (off : Z) : option (list Z + LzfState) :=
  let in_end := zlen data in
  let out_end := zlen (l_out st) in
  let ip := l_ip st in
  let ref := ip - off - 1 in
  let lit := l_lit st in
  let undo := if lit =? 0 then 1 else 0 in
  let maxlen := u32 (in_end - ip - 2) in
  let maxlen := if MAX_REF <? maxlen then MAX_REF else maxlen in
  if (out_end <=? l_op st + 3 + 1) && (out_end <=? l_op st - undo + 3 + 1) then Some (inl (l_out st))
  else
    out ← zset (l_out st) (l_op st - lit - 1) (u8 (lit - 1));
    let op := l_op st - undo in
    len ← match_len data ref ip maxlen;
    let len := len - 2 in
    let ip := ip + 1 in
    '(out, op) ←
      (if len <? 7 then
         out ← zset out op (u8 (Z.shiftr off 8 + Z.shiftl len 5)); Some (out, op + 1)
       else
         out ← zset out op (u8 (Z.shiftr off 8 + Z.shiftl 7 5));
         out ← zset out (op + 1) (u8 (len - 7)); Some (out, op + 2));
    out ← zset out op (u8 off);
    let op := op + 1 in
    Some (inr (mk_lzf (ip + (len + 1)) (op + 1) 0 (l_hval st) (l_htab st) out)).

(** After a match the last two places inside it are hashed. *)
Definition rehash (data : list Z) (st : LzfState) : option LzfState :=
  let ip := l_ip st - 1 - 1 in
  hval ← FRST data ip;
  hval ← NEXT hval data ip;
  let htab := set_hslot (l_htab st) (IDX hval) (u32 ip) in
  let ip := ip + 1 in
  hval ← NEXT hval data ip;
  let htab := set_hslot htab (IDX hval) (u32 ip) in
  Some (mk_lzf (ip + 1) (l_op st) (l_lit st) hval htab (l_out st)).

(** The main loop; [inl] is [return 0]. *)
Fixpoint compress_loop (fuel : nat) (data : list Z) (st : LzfState) : option (list Z + LzfState) :=
  if l_ip st <? zlen data - 2 then
    match fuel with
    | O => None
    | S fuel =>
        hval ← NEXT (l_hval st) data (l_ip st);
        '(htab, found) ← find_match data (l_htab st) hval (l_ip st);
        let st := mk_lzf (l_ip st) (l_op st) (l_lit st) hval htab (l_out st) in
        match found with
        | Some off =>
            r ← put_match data st off;
            match r with
            | inl out => Some (inl out)
            | inr st =>
                if zlen data - 2 <=? l_ip st then Some (inr st)
                else st ← rehash data st; compress_loop fuel data st
            end
        | None =>
            if zlen (l_out st) <=? l_op st then Some (inl (l_out st))
            else st ← put_literal data st; compress_loop fuel data st
        end
    end
  else Some (inr st).

Fixpoint tail_loop (fuel : nat) (data : list Z) (st : LzfState) : option LzfState :=
  if l_ip st <? zlen data then
    match fuel with O => None | S fuel => st ← put_literal data st; tail_loop fuel data st end
  else Some st.

(** The result and the output buffer after it. *)
Definition lzf_compress (htab : Z -> Z) (data out : list Z) : option (Z * list Z) :=
  if (zlen data =? 0) || (zlen out =? 0) then Some (0, out)
  else
    hval ← FRST data 0;
    r ← compress_loop (length data) data (mk_lzf 0 1 0 hval htab out);
    match r with
    | inl out => Some (0, out)
    | inr st =>
        if zlen out <? l_op st + 3 then Some (0, l_out st)
        else
          st ← tail_loop 2 data st;
          out ← zset (l_out st) (l_op st - l_lit st - 1) (u8 (l_lit st - 1));
          Some (l_op st - (if l_lit st =? 0 then 1 else 0), out)
    end.

(** *** lzf_d.c *)

Inductive lzf_error := E2BIG | EINVAL.

(** [n] times [*op++ = *ref++;] inside the output. *)
Fixpoint copy_octets (n : nat) (out : list Z) (op ref : Z) : option (list Z) :=
  match n with
  | O => Some out
  | S n => c ← znth out ref; out ← zset out op c; copy_octets n out (op + 1) (ref + 1)
  end.
(** The last switch: short copies and overlapping ones go octet by octet. *)
Definition copy_ref (out : list Z) (op ref len : Z) : option (list Z) :=
  if 9 <? len then
    let len := len + 2 in
    if ref + len <=? op then c ← rd out ref len; wr out op c
    else copy_octets (Z.to_nat len) out op ref
  else copy_octets (Z.to_nat (len + 2)) out op ref.

(** One turn: [inl] is an error, [inr] where [ip] and [op] are then.  The second
    test of [ip] is in the branch of [len == 7]; elsewhere it repeats the first. *)
Definition decompress_step (data out : list Z) (ip op : Z) : option (lzf_error + Z * Z * list Z) :=
  let in_end := zlen data in
  let out_end := zlen out in
  ctrl ← znth data ip;
  let ip := ip + 1 in
  if ctrl <? Z.shiftl 1 5 then
    let ctrl := ctrl + 1 in
    if out_end <? op + ctrl then Some (inl E2BIG)
    else if in_end <? ip + ctrl then Some (inl EINVAL)
    else
      c ← rd data ip ctrl;
      out ← wr out op c;
      Some (inr (ip + ctrl, op + ctrl, out))
  else
    let len := Z.shiftr ctrl 5 in
    let ref := op - Z.shiftl (Z.land ctrl 31) 8 - 1 in
    if in_end <=? ip then Some (inl EINVAL)
    else
      '(len, ip) ← (if len =? 7 then c ← znth data ip; Some (len + c, ip + 1) else Some (len, ip));
      if in_end <=? ip then Some (inl EINVAL)
      else
        c ← znth data ip;
        let ref := ref - c in
        let ip := ip + 1 in
        if out_end <? op + len + 2 then Some (inl E2BIG)
        else if ref <? 0 then Some (inl EINVAL)
        else out ← copy_ref out op ref len; Some (inr (ip, op + len + 2, out)).

Fixpoint decompress_loop (fuel : nat) (data out : list Z) (ip op : Z) : option (lzf_error + Z * list Z) :=
  match fuel with
  | O => None
  | S fuel =>
      r ← decompress_step data out ip op;
      match r with
      | inl e => Some (inl e)
      | inr (ip, op, out) => if ip <? zlen data then decompress_loop fuel data out ip op else Some (inr (op, out))
      end
  end.
(** [inl] is the result 0 with [errno] set, [inr] the result and the output. *)
Definition lzf_decompress (data out : list Z) : option (lzf_error + Z * list Z) := decompress_loop (length data) data out 0 0.

(** ** The format

    A compressed string is a list of tokens.  A token is about a place [k] of the
    original: it stands for [n] bytes of it, literally or by a distance back. *)
Inductive token := TLit (n : Z) | TRef (off n : Z).
Definition tok_len (t : token) : Z := match t with TLit n => n | TRef _ n => n end.

(** [n] bytes of [data] from [k] on. *)
Definition slice (data : list Z) (k n : Z) : list Z := take (Z.to_nat n) (drop (Z.to_nat k) data).
(** The [n] bytes at [a] and at [b] are the same. *)
Definition same_bytes (data : list Z) (a b n : Z) : Prop := forall i, 0 <= i < n -> znth data (a + i) = znth data (b + i).

Definition tok_ok (data : list Z) (k : Z) (t : token) : Prop :=
  0 <= k /\ k + tok_len t <= zlen data /\
  match t with
  | TLit n => 1 <= n <= 32
  | TRef off n => 3 <= n <= 264 /\ 0 <= off < 2 ^ 13 /\ off + 1 <= k /\ same_bytes data (k - off - 1) k n
  end.
Definition tok_enc (data : list Z) (k : Z) (t : token) : list Z :=
  match t with
  | TLit n => (n - 1) :: slice data k n
  | TRef off n => if n <? 9 then [off / 256 + 32 * (n - 2); off mod 256] else [off / 256 + 224; n - 9; off mod 256]
  end.

Fixpoint toks_enc (data : list Z) (k : Z) (ts : list token) : list Z :=
  match ts with [] => [] | t :: ts => tok_enc data k t ++ toks_enc data (k + tok_len t) ts end.
(** The tokens cover [data] from [k] to [e]. *)
Fixpoint toks_ok (data : list Z) (k : Z) (ts : list token) (e : Z) : Prop :=
  match ts with [] => k = e | t :: ts => tok_ok data k t /\ toks_ok data (k + tok_len t) ts e end.

Lemma toks_snoc data ts t : forall k e, toks_ok data k ts e -> tok_ok data e t ->
  toks_ok data k (ts ++ [t]) (e + tok_len t) /\ toks_enc data k (ts ++ [t]) = toks_enc data k ts ++ tok_enc data e t.
Proof.
  induction ts as [|s ts IH]; intros k e H Ht; cbn [app toks_ok toks_enc] in *.
  - subst e. by rewrite app_nil_r.
  - destruct H as [Hs H]. destruct (IH _ _ H Ht) as [H1 H2]. rewrite H2, app_assoc. by split_and!.
Qed.

Lemma slice_len data k n : 0 <= k -> 0 <= n -> k + n <= zlen data -> zlen (slice data k n) = n.
Proof. intros. unfold slice. rewrite zlen_take, zlen_drop. lia. Qed.
Lemma take_slice data k n : 0 <= k -> 0 <= n -> take (Z.to_nat k) data ++ slice data k n = take (Z.to_nat (k + n)) data.
Proof. intros. unfold slice. rewrite Z2Nat.inj_add by lia. by rewrite take_take_drop. Qed.
Lemma slice_snoc data k n c : 0 <= k -> 0 <= n -> znth data (k + n) = Some c -> slice data k (n + 1) = slice data k n ++ [c].
Proof.
  intros Hk Hn H. unfold slice. rewrite Z2Nat.inj_add by lia. change (Z.to_nat 1) with 1%nat. rewrite Nat.add_1_r. apply take_S_r.
  rewrite lookup_drop. rewrite znth_nat in H by lia. by rewrite <- Z2Nat.inj_add by lia.
Qed.
Lemma same_slice data a b n : 0 <= a -> 0 <= b -> same_bytes data a b n -> a + n <= zlen data -> b + n <= zlen data -> slice data a n = slice data b n.
Proof.
  intros Ha Hb H Hla Hlb. destruct (Z.le_gt_cases n 0); [unfold slice; by rewrite Z2Nat.nonpos by lia|].
  apply list_eq. intros i. unfold slice. destruct (decide (i < Z.to_nat n)%nat).
  - rewrite !lookup_take_lt, !lookup_drop by done. specialize (H (Z.of_nat i) ltac:(lia)). rewrite !znth_nat in H by lia.
    rewrite !Z2Nat.inj_add, Nat2Z.id in H by lia. done.
  - by rewrite !lookup_take_ge by lia.
Qed.

(** ** Decompression *)

Lemma copy_octets_ok data n : forall k ref rest, 0 <= ref < k -> k + Z.of_nat n <= zlen data -> Z.of_nat n <= zlen rest -> same_bytes data ref k (Z.of_nat n) ->
  copy_octets n (take (Z.to_nat k) data ++ rest) k ref = Some (take (Z.to_nat (k + Z.of_nat n)) data ++ drop n rest).
Proof.
  induction n as [|n IH]; intros k ref rest Hr Hk Hrest Hs; cbn [copy_octets]; [by rewrite Z.add_0_r|].
  destruct (znth_is_Some data k ltac:(lia)) as [c Hc]. assert (Hlen : length (take (Z.to_nat k) data) = Z.to_nat k) by (rewrite length_take; unfold zlen in Hk; lia).
  assert (Hread : znth (take (Z.to_nat k) data ++ rest) ref = Some c).
  { specialize (Hs 0 ltac:(lia)). rewrite !Z.add_0_r in Hs. rewrite Hc, znth_nat in Hs by lia. rewrite znth_nat, lookup_app_l, lookup_take_lt by lia. exact Hs. }
  rewrite Hread. cbn [mbind option_bind]. destruct rest as [|y rest]; [rewrite zlen_nil in Hrest; lia|].
  assert (k = zlen (take (Z.to_nat k) data)) as Ek by (unfold zlen; lia). rewrite Ek at 2. rewrite zset_middle. cbn [mbind option_bind].
  assert (Ht : take (Z.to_nat k) data ++ c :: rest = take (Z.to_nat (k + 1)) data ++ rest).
  { rewrite Z2Nat.inj_add by lia. change (Z.to_nat 1) with 1%nat. rewrite Nat.add_1_r. rewrite znth_nat in Hc by lia. by rewrite (take_S_r _ _ _ Hc), <- app_assoc. }
  rewrite Ht, IH; [do 3 f_equal; lia|lia|lia|rewrite zlen_cons in Hrest; lia|].
  intros i Hi. specialize (Hs (i + 1) ltac:(lia)). replace (ref + 1 + i) with (ref + (i + 1)) by lia. by replace (k + 1 + i) with (k + (i + 1)) by lia.
Qed.

Lemma copy_ref_ok data k off n rest : 0 <= k -> tok_ok data k (TRef off n) -> n <= zlen rest ->
  copy_ref (take (Z.to_nat k) data ++ rest) k (k - off - 1) (n - 2) = Some (take (Z.to_nat (k + n)) data ++ drop (Z.to_nat n) rest).
Proof.
  intros Hk (_ & Hl & Hn & Ho & Hok & Hs) Hrest. cbn [tok_len] in Hl. unfold copy_ref. replace (n - 2 + 2) with n by lia.
  assert (Hoct : copy_octets (Z.to_nat n) (take (Z.to_nat k) data ++ rest) k (k - off - 1) = Some (take (Z.to_nat (k + n)) data ++ drop (Z.to_nat n) rest)).
  { rewrite copy_octets_ok; rewrite ?Z2Nat.id by lia; done || lia. }
  destruct (9 <? n - 2); [|exact Hoct]. destruct (Z.leb_spec (k - off - 1 + n) k); [|exact Hoct].
  assert (Hkl : zlen (take (Z.to_nat k) data) = k) by (rewrite zlen_take; lia).
  assert (rd (take (Z.to_nat k) data ++ rest) (k - off - 1) n = Some (slice data k n)) as ->.
  { rewrite rd_Some by (rewrite ?zlen_app; lia). f_equal. rewrite <- (same_slice data (k - off - 1) k n) by (done || lia). unfold slice.
    assert (Hlen : length (take (Z.to_nat k) data) = Z.to_nat k) by (unfold zlen in Hkl; lia).
    rewrite drop_app_le, take_app_le by (rewrite ?length_drop; lia). rewrite skipn_firstn_comm, take_take, Nat.min_l by lia. done. }
  cbn [mbind option_bind]. rewrite <- (take_drop (Z.to_nat n) rest) at 1. rewrite wr_seg; [|lia|rewrite slice_len, zlen_take by lia; lia].
  rewrite app_assoc, take_slice by lia. done.
Qed.

Lemma byte_split a b : 0 <= a < 32 -> 0 <= b < 8 -> Z.shiftr (a + 32 * b) 5 = b /\ Z.land (a + 32 * b) 31 = a.
Proof.
  intros Ha Hb. split.
  - rewrite Z.shiftr_div_pow2 by lia. change (2 ^ 5) with 32. rewrite (Z.mul_comm 32), Z.div_add, Z.div_small by lia. lia.
  - rewrite (land_low _ 5 ltac:(lia) : Z.land (a + 32 * b) 31 = _). change (2 ^ 5) with 32. rewrite (Z.mul_comm 32), Z.mod_add, Z.mod_small by lia. done.
Qed.

Lemma token_step_ok data k t pre post rest : tok_ok data k t -> tok_len t <= zlen rest ->
  decompress_step (pre ++ tok_enc data k t ++ post) (take (Z.to_nat k) data ++ rest) (zlen pre) k =
  Some (inr (zlen (pre ++ tok_enc data k t), k + tok_len t, take (Z.to_nat (k + tok_len t)) data ++ drop (Z.to_nat (tok_len t)) rest)).
Proof.
  intros Hok Hrest. pose proof Hok as (Hk & Hl & Ht). assert (Hkl : zlen (take (Z.to_nat k) data) = k) by (rewrite zlen_take; destruct t; cbn in *; lia).
  pose proof (zlen_nonneg post). pose proof (zlen_nonneg pre). unfold decompress_step. destruct t as [n|off n]; cbn [tok_len tok_enc] in *.
  - rewrite (znth_seg0 pre _ post (n - 1)) by done. cbn [mbind option_bind]. change (Z.shiftl 1 5) with 32. rewrite (proj2 (Z.ltb_lt (n - 1) 32)) by lia. replace (n - 1 + 1) with n by lia.
    assert (Hs : zlen (slice data k n) = n) by (apply slice_len; lia). rewrite !zlen_app, !zlen_cons, Hs, Hkl. rewrite (proj2 (Z.ltb_ge (k + zlen rest) _)), (proj2 (Z.ltb_ge _ (zlen pre + 1 + n))) by lia.
    replace (pre ++ ((n - 1) :: slice data k n) ++ post) with ((pre ++ [n - 1]) ++ slice data k n ++ post) by (by rewrite <- app_assoc).
    rewrite rd_seg by (rewrite ?zlen_app; change (zlen [n - 1]) with 1; lia). cbn [mbind option_bind].
    rewrite <- (take_drop (Z.to_nat n) rest) at 1. rewrite wr_seg; [|lia|rewrite Hs, zlen_take; lia]. cbn [mbind option_bind]. rewrite app_assoc, take_slice by lia. do 4 f_equal. lia.
  - destruct Ht as (Hn & Ho & Hok' & Hs). assert (Hd : 0 <= off / 256 < 32) by (split; [apply Z.div_pos; lia|apply Z.div_lt_upper_bound; pow2s; lia]).
    pose proof (Z.div_mod off 256 ltac:(lia)) as Hdm. set (q := off / 256) in *. set (r := off mod 256) in *. pose proof (copy_ref_ok data k off n rest Hk Hok Hrest) as Hcopy.
    change (Z.shiftl 1 5) with 32. destruct (Z.ltb_spec n 9).
    + rewrite (znth_seg0 pre _ post (q + 32 * (n - 2))) by done. cbn [mbind option_bind]. rewrite (proj2 (Z.ltb_ge _ 32)) by lia.
      destruct (byte_split q (n - 2) Hd ltac:(lia)) as [-> ->]. rewrite (proj2 (Z.eqb_neq (n - 2) 7)) by lia. cbn [mbind option_bind].
      rewrite (znth_seg pre _ post 1 r) by done. rewrite !zlen_app, Hkl. change (zlen [q + 32 * (n - 2); r]) with 2.
      rewrite (proj2 (Z.leb_gt _ (zlen pre + 1))), (proj2 (Z.ltb_ge _ (k + (n - 2) + 2))) by lia. cbn [mbind option_bind].
      rewrite Z.shiftl_mul_pow2 by lia. change (2 ^ 8) with 256. replace (k - q * 256 - 1 - r) with (k - off - 1) by lia. rewrite (proj2 (Z.ltb_ge _ 0)), Hcopy by lia.
      cbn [mbind option_bind]. do 4 f_equal; lia.
    + rewrite (znth_seg0 pre _ post (q + 224)) by done. cbn [mbind option_bind]. rewrite (proj2 (Z.ltb_ge _ 32)) by lia.
      destruct (byte_split q 7 Hd ltac:(lia)) as [H7 H7']. change (32 * 7) with 224 in H7, H7'. rewrite H7, H7'. cbn [Z.eqb Pos.eqb].
      rewrite (znth_seg pre _ post 1 (n - 9)) by done. cbn [mbind option_bind]. replace (zlen pre + 1 + 1) with (zlen pre + 2) by lia.
      rewrite (znth_seg pre _ post 2 r) by done. rewrite !zlen_app, Hkl. change (zlen [q + 224; n - 9; r]) with 3.
      rewrite (proj2 (Z.leb_gt _ (zlen pre + 1))), (proj2 (Z.leb_gt _ (zlen pre + 2))), (proj2 (Z.ltb_ge _ (k + (7 + (n - 9)) + 2))) by lia. cbn [mbind option_bind].
      rewrite Z.shiftl_mul_pow2 by lia. change (2 ^ 8) with 256. replace (k - q * 256 - 1 - r) with (k - off - 1) by lia. rewrite (proj2 (Z.ltb_ge _ 0)) by lia.
      replace (7 + (n - 9)) with (n - 2) by lia. rewrite Hcopy. cbn [mbind option_bind]. do 4 f_equal; lia.
Qed.

Lemma tok_enc_pos data k t : 1 <= zlen (tok_enc data k t).
Proof. destruct t as [n|off n]; cbn [tok_enc]; [|destruct (n <? 9)]; rewrite ?zlen_cons, ?zlen_nil; try lia. pose proof (zlen_nonneg (slice data k n)). lia. Qed.

Lemma decompress_ok data ts : forall fuel k pre rest, ts <> [] -> toks_ok data k ts (zlen data) -> zlen data - k <= zlen rest -> (length (toks_enc data k ts) <= fuel)%nat ->
  decompress_loop fuel (pre ++ toks_enc data k ts) (take (Z.to_nat k) data ++ rest) (zlen pre) k = Some (inr (zlen data, data ++ drop (Z.to_nat (zlen data - k)) rest)).
Proof.
  induction ts as [|t ts IH]; intros fuel k pre rest Hne Hok Hrest Hf; [done|]. cbn [toks_ok toks_enc] in *. destruct Hok as [Ht Hok].
  rewrite length_app in Hf. pose proof (tok_enc_pos data k t) as Hp. unfold zlen in Hp. destruct fuel as [|fuel]; [lia|]. cbn [decompress_loop].
  pose proof Ht as (Hk & Hl & Hn). assert (Hlen : 1 <= tok_len t) by (destruct t; cbn in *; lia).
  rewrite token_step_ok by (done || lia). cbn [mbind option_bind]. rewrite app_assoc, zlen_app. destruct ts as [|t' ts].
  - cbn [toks_enc toks_ok] in *. rewrite app_nil_r. rewrite (proj2 (Z.ltb_ge _ _)) by (rewrite zlen_app; lia).
    rewrite Hok, to_nat_zlen, firstn_all. do 5 f_equal. lia.
  - assert (Hp' : 1 <= zlen (toks_enc data (k + tok_len t) (t' :: ts))).
    { cbn [toks_enc]. rewrite zlen_app. pose proof (tok_enc_pos data (k + tok_len t) t'). pose proof (zlen_nonneg (toks_enc data (k + tok_len t + tok_len t') ts)). lia. }
    rewrite (proj2 (Z.ltb_lt _ _)) by (rewrite !zlen_app; lia). rewrite <- zlen_app.
    assert (Hend : tok_len t + k <= zlen data) by lia. rewrite IH; [|done|done|rewrite zlen_drop; lia|lia]. rewrite drop_drop. do 5 f_equal. lia.
Qed.

(** ** Decompression of anything *)

Lemma copy_octets_safe n : forall out op ref, 0 <= ref -> ref <= op -> op + Z.of_nat n <= zlen out -> 0 < op ->
  exists out', copy_octets n out op ref = Some out' /\ zlen out' = zlen out /\ drop (Z.to_nat (op + Z.of_nat n)) out' = drop (Z.to_nat (op + Z.of_nat n)) out.
Proof.
  induction n as [|n IH]; intros out op ref Hr Hro Ho Hop; cbn [copy_octets]; [by exists out|].
  destruct (znth_is_Some out ref ltac:(lia)) as [c ->]. cbn [mbind option_bind]. rewrite zset_Some by lia. cbn [mbind option_bind].
  destruct (IH (<[Z.to_nat op:=c]> out) (op + 1) (ref + 1)) as (out' & -> & Hz & Hd); [lia|lia|rewrite zlen_insert; lia|lia|]. exists out'.
  rewrite Hz, zlen_insert. split_and!; [done|done|]. replace (op + Z.of_nat (S n)) with (op + 1 + Z.of_nat n) by lia. rewrite Hd. apply drop_insert_lt. lia.
Qed.
Lemma copy_ref_safe out op ref len : 0 <= ref < op -> 0 <= len -> op + len + 2 <= zlen out -> exists out',
  copy_ref out op ref len = Some out' /\ zlen out' = zlen out /\ drop (Z.to_nat (op + len + 2)) out' = drop (Z.to_nat (op + len + 2)) out.
Proof.
  intros Hr Hl Ho. assert (Hoct : exists out', copy_octets (Z.to_nat (len + 2)) out op ref = Some out' /\ zlen out' = zlen out /\ drop (Z.to_nat (op + len + 2)) out' = drop (Z.to_nat (op + len + 2)) out).
  { destruct (copy_octets_safe (Z.to_nat (len + 2)) out op ref) as (out' & E & Hz & Hd); [lia..|]. exists out'. split_and!; [done|done|]. by replace (op + Z.of_nat (Z.to_nat (len + 2))) with (op + len + 2) in Hd by lia. }
  unfold copy_ref. destruct (9 <? len); [|done]. destruct (Z.leb_spec (ref + (len + 2)) op); [|done].
  rewrite rd_Some by lia. cbn [mbind option_bind]. match goal with |- context [wr out op ?c] => assert (Hc : zlen c = len + 2) by (rewrite zlen_take, zlen_drop; lia) end.
  destruct (wr_is_Some out op _ ltac:(lia) ltac:(rewrite Hc; lia)) as [out' E]. rewrite E. exists out'. split_and!; [done|by apply wr_zlen in E|].
  apply wr_drop_after in E. rewrite Hc in E. by rewrite <- Z.add_assoc.
Qed.

Lemma step_safe data out ip op : bytes data -> 0 <= ip < zlen data -> 0 <= op <= zlen out ->
  exists r, decompress_step data out ip op = Some r /\
    match r with inl _ => True | inr (ip', op', out') => ip < ip' <= zlen data /\ op < op' <= zlen out /\ zlen out' = zlen out /\ drop (Z.to_nat op') out' = drop (Z.to_nat op') out end.
Proof.
  intros Hb Hip Hop. unfold decompress_step. assert (Hbyte : forall i c, znth data i = Some c -> 0 <= c < 256).
  { intros i c H. pose proof (znth_range _ _ _ H). rewrite znth_nat in H by lia. unfold bytes in Hb. rewrite list.Forall_forall in Hb. apply (Hb c). by eapply list_elem_of_lookup_2. }
  destruct (znth_is_Some data ip Hip) as [ctrl Ec]. rewrite Ec. cbn [mbind option_bind]. pose proof (Hbyte _ _ Ec) as Hc. change (Z.shiftl 1 5) with 32. destruct (Z.ltb_spec ctrl 32).
  - destruct (Z.ltb_spec (zlen out) (op + (ctrl + 1))); [by eexists|]. destruct (Z.ltb_spec (zlen data) (ip + 1 + (ctrl + 1))); [by eexists|].
    rewrite rd_Some by lia. cbn [mbind option_bind]. match goal with |- context [wr out op ?c] => assert (Hz : zlen c = ctrl + 1) by (rewrite zlen_take, zlen_drop; lia) end.
    destruct (wr_is_Some out op _ ltac:(lia) ltac:(rewrite Hz; lia)) as [out' E]. rewrite E. cbn [mbind option_bind]. eexists. split; [done|].
    split_and!; [lia..|by apply wr_zlen in E|]. apply wr_drop_after in E. by rewrite Hz in E.
  - assert (Hlen : 0 <= Z.shiftr ctrl 5) by (apply Z.shiftr_nonneg; lia). assert (Hsh : 0 <= Z.shiftl (Z.land ctrl 31) 8) by (apply Z.shiftl_nonneg, Z.land_nonneg; lia).
    destruct (Z.leb_spec (zlen data) (ip + 1)); [by eexists|].
    assert (exists len ip', (if Z.shiftr ctrl 5 =? 7 then c ← znth data (ip + 1); Some (Z.shiftr ctrl 5 + c, ip + 1 + 1) else Some (Z.shiftr ctrl 5, ip + 1)) = Some (len, ip') /\ 0 <= len /\ ip < ip') as (len & ip' & -> & Hl & Hi).
    { destruct (_ =? 7); [|eexists _, _; split_and!; [done|lia..]]. destruct (znth_is_Some data (ip + 1) ltac:(lia)) as [c Ec1]. rewrite Ec1. cbn [mbind option_bind].
      pose proof (Hbyte _ _ Ec1). eexists _, _. split_and!; [done|lia..]. }
    cbn [mbind option_bind]. destruct (Z.leb_spec (zlen data) ip'); [by eexists|]. destruct (znth_is_Some data ip' ltac:(lia)) as [c Ec2]. rewrite Ec2. cbn [mbind option_bind].
    pose proof (Hbyte _ _ Ec2). destruct (Z.ltb_spec (zlen out) (op + len + 2)); [by eexists|]. destruct (Z.ltb_spec (op - Z.shiftl (Z.land ctrl 31) 8 - 1 - c) 0); [by eexists|].
    destruct (copy_ref_safe out op (op - Z.shiftl (Z.land ctrl 31) 8 - 1 - c) len) as (out' & -> & Hz & Hd); [lia..|]. cbn [mbind option_bind].
    eexists. split; [done|]. split_and!; [lia..|done|done].
Qed.
Lemma decompress_loop_safe data fuel : bytes data -> forall out ip op, 0 <= ip < zlen data -> 0 <= op <= zlen out -> zlen data - ip <= Z.of_nat fuel ->
  exists r, decompress_loop fuel data out ip op = Some r /\ match r with inl _ => True | inr (n, out') => op < n <= zlen out /\ zlen out' = zlen out /\ drop (Z.to_nat n) out' = drop (Z.to_nat n) out end.
Proof.
  intros Hb. induction fuel as [|fuel IH]; intros out ip op Hip Hop Hf; [lia|]. cbn [decompress_loop].
  destruct (step_safe data out ip op Hb Hip Hop) as (r & -> & Hr). cbn [mbind option_bind]. destruct r as [e|[[ip' op'] out']]; [by eexists|]. destruct Hr as (Hi & Ho & Hz & Hd).
  destruct (Z.ltb_spec ip' (zlen data)); [|eexists; split; [done|]; by split_and!; try lia].
  destruct (IH out' ip' op') as (r & -> & Hr); [lia..|]. eexists. split; [done|]. destruct r as [|[n out'']]; [done|]. destruct Hr as (Hn & Hz' & Hd').
  split_and!; [lia..|]. rewrite Hd'. replace (Z.to_nat n) with (Z.to_nat op' + (Z.to_nat n - Z.to_nat op'))%nat by lia. by rewrite <- !drop_drop, Hd.
Qed.

(** ** Compression *)

Lemma unrolled_ok data ref ip n : forall len, 0 <= ref < ip -> 0 <= len -> ip + len + Z.of_nat n < zlen data -> same_bytes data ref ip (len + 1) ->
  exists len' go, unrolled n data ref ip len = Some (len', go) /\
    if (go : bool) then len' = len + Z.of_nat n /\ same_bytes data ref ip (len' + 1) else len < len' <= len + Z.of_nat n /\ same_bytes data ref ip len'.
Proof.
  induction n as [|n IH]; intros len Hr Hl Hb Hs; cbn [unrolled]; [exists len, true; split; [done|]; rewrite Z.add_0_r; done|].
  destruct (znth_is_Some data (ref + (len + 1)) ltac:(lia)) as [a Ea], (znth_is_Some data (ip + (len + 1)) ltac:(lia)) as [b Eb]. rewrite Ea, Eb. cbn [mbind option_bind].
  destruct (Z.eqb_spec a b) as [->|]; [|exists (len + 1), false; split_and!; [done|lia|lia|done]].
  destruct (IH (len + 1)) as (len' & go & -> & Hgo); [done|lia|lia| |].
  { intros i Hi. destruct (Z.eq_dec i (len + 1)) as [->|]; [by rewrite Ea, Eb|]. apply Hs. lia. }
  exists len', go. split; [done|]. destruct go; destruct Hgo; (split; [lia|done]).
Qed.
Lemma extend_ok data ref ip maxlen fuel : forall len, 0 <= ref < ip -> 0 <= len -> ip + maxlen <= zlen data -> same_bytes data ref ip (len + 1) -> maxlen - len <= Z.of_nat fuel -> (0 < fuel)%nat ->
  exists len', extend_loop fuel data ref ip maxlen len = Some len' /\ len < len' <= Z.max maxlen (len + 1) /\ same_bytes data ref ip len'.
Proof.
  induction fuel as [|fuel IH]; intros len Hr Hl Hm Hs Hf Hpos; [lia|]. cbn [extend_loop]. destruct (Z.ltb_spec (len + 1) maxlen); [|exists (len + 1); split_and!; [done|lia|lia|done]].
  destruct (znth_is_Some data (ref + (len + 1)) ltac:(lia)) as [a Ea], (znth_is_Some data (ip + (len + 1)) ltac:(lia)) as [b Eb]. rewrite Ea, Eb. cbn [mbind option_bind].
  destruct (Z.eqb_spec a b) as [->|]; [|exists (len + 1); split_and!; [done|lia|lia|done]].
  destruct (IH (len + 1)) as (len' & -> & Hb & Hs'); [done|lia|done| |lia|lia|].
  { intros i Hi. destruct (Z.eq_dec i (len + 1)) as [->|]; [by rewrite Ea, Eb|]. apply Hs. lia. }
  exists len'. split_and!; [done|lia|lia|done].
Qed.
(** The match that is taken: the bytes are the same, and it ends in the input. *)
Lemma match_len_ok data ref ip maxlen : 0 <= ref < ip -> same_bytes data ref ip 3 -> 1 <= maxlen <= 264 -> ip + maxlen + 2 <= zlen data ->
  exists n, match_len data ref ip maxlen = Some n /\ 3 <= n <= 264 /\ ip + n <= zlen data /\ same_bytes data ref ip n.
Proof.
  intros Hr Hs Hm Hl. unfold match_len. change (Z.to_nat MAX_REF) with 264%nat. destruct (Z.ltb_spec 16 maxlen).
  - destruct (unrolled_ok data ref ip 16 2) as (len & go & -> & Hgo); [done|lia|lia|done|]. cbn [mbind option_bind]. destruct go; destruct Hgo as [Hlen Hs'].
    + destruct (extend_ok data ref ip maxlen 264 len) as (n & -> & Hn & Hsn); [done|lia|lia|done|lia|lia|]. exists n. split_and!; [done|lia|lia|lia|done].
    + exists len. split_and!; [done|lia|lia|lia|done].
  - cbn [mbind option_bind]. destruct (extend_ok data ref ip maxlen 264 2) as (n & -> & Hn & Hsn); [done|lia|lia|done|lia|lia|]. exists n. split_and!; [done|lia|lia|lia|done].
Qed.

Definition slots_ok (htab : Z -> Z) : Prop := forall i, in_u 32 (htab i).
Lemma set_slot_ok htab i v : slots_ok htab -> slots_ok (set_hslot htab i (u32 v)).
Proof. intros H j. unfold set_hslot. destruct (j =? i); [apply wrap_range; lia|apply H]. Qed.

Lemma find_match_ok data htab hval ip : slots_ok htab -> 0 <= ip -> ip + 2 < zlen data -> zlen data < 2 ^ 32 ->
  exists htab' r, find_match data htab hval ip = Some (htab', r) /\ slots_ok htab' /\
    match r with None => True | Some off => 0 <= off < 2 ^ 13 /\ off + 1 < ip /\ same_bytes data (ip - off - 1) ip 3 end.
Proof.
  intros Hh Hip Hl Hd. unfold find_match. set (h' := set_hslot htab (IDX hval) (u32 ip)). assert (Hh' : slots_ok h') by (by apply set_slot_ok).
  set (ref := htab (IDX hval)). pose proof (Hh (IDX hval)) as Hr. fold ref in Hr. unfold in_u in Hr. change MAX_OFF with (2 ^ 13).
  destruct (Z.ltb_spec (u64 (ip - ref - 1)) (2 ^ 13)) as [Ho|]; cbn [andb]; [|by exists h', None]. destruct (Z.ltb_spec 0 ref); [|by exists h', None].
  assert (Hlt : ref < ip /\ u64 (ip - ref - 1) = ip - ref - 1).
  { destruct (Z.lt_ge_cases ref ip); [split; [done|apply wrap_id; unfold in_u; pow2s; lia]|]. exfalso. revert Ho. unfold u64, wrap.
    rewrite <- (Z.mod_add _ 1) by (pow2s; lia). rewrite Z.mod_small by (pow2s; lia). pow2s. lia. }
  destruct Hlt as [Hlt Eoff]. rewrite Eoff in *.
  destruct (znth_is_Some data (ref + 2) ltac:(lia)) as [r2 E2], (znth_is_Some data (ip + 2) ltac:(lia)) as [i2 F2]. rewrite E2, F2. cbn [mbind option_bind].
  destruct (Z.eqb_spec r2 i2) as [->|]; cbn [negb]; [|by exists h', None].
  destruct (znth_is_Some data ref ltac:(lia)) as [r0 E0], (znth_is_Some data (ref + 1) ltac:(lia)) as [r1 E1], (znth_is_Some data ip ltac:(lia)) as [i0 F0], (znth_is_Some data (ip + 1) ltac:(lia)) as [i1 F1].
  rewrite E0, E1, F0, F1. cbn [mbind option_bind]. destruct (Z.eqb_spec r0 i0) as [->|]; cbn [andb]; [|by exists h', None]. destruct (Z.eqb_spec r1 i1) as [->|]; [|by exists h', None].
  exists h', (Some (ip - ref - 1)). split_and!; [done|done|lia|done|lia|]. replace (ip - (ip - ref - 1) - 1) with ref by lia.
  intros i Hi. assert (i = 0 \/ i = 1 \/ i = 2) as [->|[->| ->]] by lia; rewrite ?Z.add_0_r; congruence.
Qed.

(** Both sides are the same list, up to how it is put together. *)
Ltac app_eq := rewrite <- ?app_assoc; cbn [app]; rewrite <- ?app_assoc; reflexivity.

(** *** The state of the compressor *)
Section Compress.
Context (data : list Z) (N : Z) (Hdata : 2 <= zlen data < 2 ^ 32).

(** What follows the finished tokens: the place for the length of the run and the
    literals of the run; or nothing, when the run has no place and no literal. *)
Definition run_of (st : LzfState) (T : list Z) : Prop :=
  T = [] /\ l_lit st = 0 \/ exists x rest, T = x :: slice data (l_ip st - l_lit st) (l_lit st) ++ rest.

Record cinv (st : LzfState) (ts : list token) : Prop := {
  ci_ip : 0 <= l_lit st < 32 /\ l_lit st <= l_ip st <= zlen data;
  ci_toks : toks_ok data 0 ts (l_ip st - l_lit st);
  ci_op : l_op st = zlen (toks_enc data 0 ts) + 1 + l_lit st;
  ci_out : zlen (l_out st) = N /\ exists T, l_out st = toks_enc data 0 ts ++ T /\ run_of st T;
  ci_slots : slots_ok (l_htab st);
  ci_size : exists r, 0 <= r /\ 32 * r + l_lit st <= l_ip st /\ l_op st <= l_ip st + 1 + r
}.

(** Room in the output means that the run has its place. *)
Lemma run_room st ts : cinv st ts -> l_op st <= N -> exists x rest,
  l_out st = toks_enc data 0 ts ++ x :: slice data (l_ip st - l_lit st) (l_lit st) ++ rest /\ zlen rest = N - l_op st.
Proof.
  intros [Hi _ Hop (Hz & T & HT & Hrun) _ _] Hle. rewrite HT, zlen_app in Hz.
  destruct Hrun as [[-> _]|(x & rest & ->)]; [change (zlen (@nil Z)) with 0 in Hz; lia|]. exists x, rest. split; [done|]. rewrite zlen_cons, zlen_app, slice_len in Hz by lia. lia.
Qed.
Lemma run_start st T : l_lit st = 0 -> run_of st T.
Proof. intros H. destruct T as [|x rest]; [by left|right]. exists x, rest. rewrite H. unfold slice. by rewrite take_0. Qed.

Lemma put_literal_ok st ts : cinv st ts -> l_ip st < zlen data -> l_op st < N ->
  exists st' ts', put_literal data st = Some st' /\ cinv st' ts' /\ l_ip st' = l_ip st + 1 /\
    (l_op st' = l_op st + 1 \/ l_op st' = l_op st + 2 /\ l_lit st' = 0).
Proof.
  intros Hinv Hip Hop. destruct (run_room st ts Hinv ltac:(lia)) as (x & rest & Hout & Hrest). destruct Hinv as [Hi Ht Ho (Hz & _) Hs (r & Hr0 & Hr1 & Hr2)].
  destruct rest as [|y rest]; [change (zlen (@nil Z)) with 0 in Hrest; lia|]. set (E := toks_enc data 0 ts) in *. set (k := l_ip st - l_lit st) in *. set (L := slice data k (l_lit st)) in *.
  assert (HL : zlen L = l_lit st) by (apply slice_len; lia). destruct (znth_is_Some data (l_ip st) ltac:(lia)) as [c Hc].
  assert (HL' : slice data k (l_lit st + 1) = L ++ [c]) by (apply slice_snoc; [lia|lia|]; by replace (k + l_lit st) with (l_ip st) by lia).
  unfold put_literal. rewrite Hc. cbn [mbind option_bind]. rewrite Hout.
  replace (E ++ x :: L ++ y :: rest) with ((E ++ x :: L) ++ y :: rest) by app_eq.
  assert (zset ((E ++ x :: L) ++ y :: rest) (l_op st) c = Some ((E ++ x :: L) ++ c :: rest)) as ->.
  { replace (l_op st) with (zlen (E ++ x :: L)) by (rewrite zlen_app, zlen_cons; lia). apply zset_middle. }
  cbn [mbind option_bind].
  replace ((E ++ x :: L) ++ c :: rest) with (E ++ x :: (L ++ [c]) ++ rest) by app_eq.
  rewrite Hout, zlen_app, zlen_cons, zlen_app, zlen_cons in Hz. change MAX_LIT with 32. destruct (Z.eqb_spec (l_lit st + 1) 32) as [E32|].
  - replace (l_op st + 1 - (l_lit st + 1) - 1) with (zlen E) by lia. rewrite zset_middle. cbn [mbind option_bind]. rewrite E32. change (u8 (32 - 1)) with (32 - 1).
    destruct (toks_snoc data ts (TLit 32) 0 k Ht) as [Ht' He']; [split_and!; cbn [tok_len]; lia|]. cbn [tok_len tok_enc] in Ht', He'. rewrite E32 in HL'.
    eexists _, (ts ++ [TLit 32]). split; [done|]. split; [split; cbn [l_ip l_op l_lit l_hval l_htab l_out]|split; [done|right; split; [cbn [l_op]; lia|]]].
    + lia.
    + replace (l_ip st + 1 - 0) with (k + 32) by lia. done.
    + rewrite He', HL', !zlen_app, zlen_cons, zlen_app. change (zlen [c]) with 1. fold E. lia.
    + split; [rewrite !zlen_app, zlen_cons, !zlen_app; change (zlen [c]) with 1; lia|]. exists rest. split; [|by apply run_start]. rewrite He', HL'. fold E. app_eq.
    + done.
    + exists (r + 1). lia.
    + done.
  - eexists _, ts. split; [done|]. split; [split; cbn [l_ip l_op l_lit l_hval l_htab l_out]|split; [done|by left]].
    + lia.
    + replace (l_ip st + 1 - (l_lit st + 1)) with k by lia. done.
    + fold E. lia.
    + split; [rewrite !zlen_app, zlen_cons, !zlen_app; change (zlen [c]) with 1; lia|]. eexists. split; [done|]. right. exists x, rest. cbn [l_ip l_lit].
      replace (l_ip st + 1 - (l_lit st + 1)) with k by lia. by rewrite HL'.
    + done.
    + exists r. lia.
Qed.

(** The run is ended: what is finished then covers the input up to [ip]. *)
Lemma stop_run_ok st ts : cinv st ts -> l_op st <= N -> exists ts' T out',
  zset (l_out st) (l_op st - l_lit st - 1) (u8 (l_lit st - 1)) = Some out' /\ out' = toks_enc data 0 ts' ++ T /\ zlen out' = N /\
  toks_ok data 0 ts' (l_ip st) /\ zlen (toks_enc data 0 ts') = l_op st - (if l_lit st =? 0 then 1 else 0).
Proof.
  intros Hinv Hop. destruct (run_room st ts Hinv Hop) as (x & rest & Hout & Hrest). destruct Hinv as [Hi Ht Ho (Hz & _) _ _]. rewrite Hout in *.
  replace (l_op st - l_lit st - 1) with (zlen (toks_enc data 0 ts)) by lia. rewrite zset_middle. rewrite zlen_app, zlen_cons in Hz. destruct (Z.eqb_spec (l_lit st) 0) as [E0|].
  - rewrite E0 in *. eexists ts, _, _. split_and!; [done|done|by rewrite zlen_app, zlen_cons|by rewrite Z.sub_0_r in Ht|lia].
  - destruct (toks_snoc data ts (TLit (l_lit st)) 0 _ Ht) as [Ht' He']; [split_and!; cbn [tok_len]; lia|]. cbn [tok_len tok_enc] in Ht', He'.
    exists (ts ++ [TLit (l_lit st)]), rest. eexists. assert (u8 (l_lit st - 1) = l_lit st - 1) as -> by (apply wrap_id; unfold in_u; pow2s; lia). split_and!; [done|rewrite He'; app_eq|by rewrite zlen_app, zlen_cons| |].
    + by replace (l_ip st - l_lit st + l_lit st) with (l_ip st) in Ht' by lia.
    + rewrite He', zlen_app, zlen_cons, slice_len by lia. lia.
Qed.

Lemma enc_off off : 0 <= off < 2 ^ 13 -> Z.shiftr off 8 = off / 256 /\ 0 <= off / 256 < 32 /\ u8 off = off mod 256.
Proof. intros H. split_and!; [by rewrite Z.shiftr_div_pow2 by lia|apply Z.div_pos; lia|apply Z.div_lt_upper_bound; pow2s; lia|done]. Qed.

(** The bytes of a back reference. *)
Lemma write_ref off n E T : 0 <= off < 2 ^ 13 -> 3 <= n <= 264 -> 4 <= zlen T -> exists T', zlen ((E ++ tok_enc data 0 (TRef off n)) ++ T') = zlen (E ++ T) /\
  ('(out, op) ← (if n - 2 <? 7 then out ← zset (E ++ T) (zlen E) (u8 (Z.shiftr off 8 + Z.shiftl (n - 2) 5)); Some (out, zlen E + 1)
                else out ← zset (E ++ T) (zlen E) (u8 (Z.shiftr off 8 + Z.shiftl 7 5)); out ← zset out (zlen E + 1) (u8 (n - 2 - 7)); Some (out, zlen E + 2));
   out ← zset out op (u8 off); Some (out, op)) = Some ((E ++ tok_enc data 0 (TRef off n)) ++ T', zlen (E ++ tok_enc data 0 (TRef off n)) - 1).
Proof.
  intros Ho Hn HT. destruct T as [|a [|b [|c T]]]; [rewrite ?zlen_cons, ?zlen_nil in HT; lia..|]. destruct (enc_off off Ho) as (-> & Hq & ->). cbn [tok_enc].
  rewrite !Z.shiftl_mul_pow2 by lia. change (2 ^ 5) with 32.
  destruct (Z.ltb_spec (n - 2) 7), (Z.ltb_spec n 9); try lia; rewrite zset_middle; cbn [mbind option_bind].
  - unfold u8. rewrite wrap_id by (unfold in_u; pow2s; lia). replace (off / 256 + (n - 2) * 32) with (off / 256 + 32 * (n - 2)) by lia. set (u := off / 256 + 32 * (n - 2)).
    replace (zlen E + 1) with (zlen (E ++ [u])) by (by rewrite zlen_app). replace (E ++ u :: b :: c :: T) with ((E ++ [u]) ++ b :: c :: T) by app_eq.
    rewrite zset_middle. cbn [mbind option_bind]. exists (c :: T). rewrite !zlen_app, !zlen_cons, !zlen_nil. split; [lia|]. do 2 f_equal; [app_eq|lia].
  - unfold u8. rewrite !wrap_id by (unfold in_u; pow2s; lia). change (7 * 32) with 224. replace (n - 2 - 7) with (n - 9) by lia. set (u := off / 256 + 224).
    replace (zlen E + 1) with (zlen (E ++ [u])) by (by rewrite zlen_app). replace (E ++ u :: b :: c :: T) with ((E ++ [u]) ++ b :: c :: T) by app_eq.
    rewrite zset_middle. cbn [mbind option_bind]. replace (zlen E + 2) with (zlen ((E ++ [u]) ++ [n - 9])) by (rewrite !zlen_app; change (zlen [u]) with 1; change (zlen [n - 9]) with 1; lia).
    replace ((E ++ [u]) ++ n - 9 :: c :: T) with (((E ++ [u]) ++ [n - 9]) ++ c :: T) by app_eq.
    rewrite zset_middle. cbn [mbind option_bind]. exists T. rewrite !zlen_app, !zlen_cons, !zlen_nil. split; [lia|]. do 2 f_equal; [app_eq|lia].
Qed.

(** The output is large enough for any input of this length. *)
Definition enough : Prop := zlen data + zlen data / 32 + 4 <= N.
Lemma size_bound st ts : cinv st ts -> l_op st <= l_ip st + 1 + zlen data / 32.
Proof. intros [Hi _ _ _ _ (r & H0 & H1 & H2)]. assert (r <= zlen data / 32) by (apply Z.div_le_lower_bound; lia). lia. Qed.

Lemma put_match_ok st ts off : cinv st ts -> l_ip st < zlen data - 2 -> 0 <= off < 2 ^ 13 -> off + 1 < l_ip st -> same_bytes data (l_ip st - off - 1) (l_ip st) 3 ->
  exists r, put_match data st off = Some r /\
    match r with
    | inl out => out = l_out st /\ ~ enough
    | inr st' => exists ts', cinv st' ts' /\ l_ip st + 3 <= l_ip st' <= zlen data
    end.
Proof.
  intros Hinv Hip Ho Hoi Hs. pose proof (size_bound st ts Hinv) as Hsz. pose proof (ci_ip _ _ Hinv) as Hi. destruct (ci_out _ _ Hinv) as [Hz _]. unfold put_match. rewrite Hz.
  set (undo := if l_lit st =? 0 then 1 else 0). assert (Hundo : 0 <= undo <= 1) by (unfold undo; destruct (_ =? 0); lia).
  set (full := (N <=? l_op st + 3 + 1) && (N <=? l_op st - undo + 3 + 1)). destruct full eqn:Efull; unfold full in Efull.
  { apply andb_true_iff in Efull as [H1%Z.leb_le H2%Z.leb_le]. eexists. split; [done|]. split; [done|]. unfold enough. lia. }
  assert (Hroom : l_op st - undo + 4 < N) by (apply andb_false_iff in Efull as [H%Z.leb_gt|H%Z.leb_gt]; lia). clear Efull full.
  destruct (stop_run_ok st ts Hinv ltac:(lia)) as (ts1 & T & out1 & -> & -> & Hz1 & Ht1 & He1). cbn [mbind option_bind]. fold undo in He1.
  change MAX_REF with 264. assert (Hu : u32 (zlen data - l_ip st - 2) = zlen data - l_ip st - 2) by (apply wrap_id; unfold in_u; lia). rewrite Hu.
  set (maxlen := if 264 <? zlen data - l_ip st - 2 then 264 else zlen data - l_ip st - 2).
  assert (Hmax : 1 <= maxlen <= 264 /\ l_ip st + maxlen + 2 <= zlen data) by (unfold maxlen; destruct (Z.ltb_spec 264 (zlen data - l_ip st - 2)); lia).
  destruct (match_len_ok data (l_ip st - off - 1) (l_ip st) maxlen) as (n & -> & Hn & Hnl & Hns); [lia|done|lia|lia|]. cbn [mbind option_bind].
  destruct (write_ref off n (toks_enc data 0 ts1) T Ho Hn) as (T' & HT' & HW); [rewrite zlen_app in Hz1; lia|]. rewrite <- He1.
  match type of HW with (x ← ?X; _) = _ => destruct X as [[out2 op2]|]; [|done] end. cbn [mbind option_bind] in HW |- *.
  destruct (zset out2 op2 (u8 off)) as [out3|] eqn:E3; [|done]. cbn [mbind option_bind] in HW |- *. injection HW as -> ->. rewrite Hz1 in HT'. clear E3. eexists. split; [done|].
  destruct (toks_snoc data ts1 (TRef off n) 0 (l_ip st) Ht1) as [Ht2 He2]; [split_and!; cbn [tok_len]; done || lia|]. cbn [tok_len] in Ht2.
  change (tok_enc data 0 (TRef off n)) with (tok_enc data (l_ip st) (TRef off n)) in *. rewrite <- He2 in HT'.
  match goal with |- context [if n <? 9 then ?a else ?b] => change (if n <? 9 then a else b) with (tok_enc data (l_ip st) (TRef off n)) end. rewrite <- He2. set (E := toks_enc data 0 (ts1 ++ [TRef off n])) in *.
  exists (ts1 ++ [TRef off n]). assert (HE : zlen E = l_op st - undo + (if n <? 9 then 2 else 3)) by (rewrite He2, zlen_app, He1; cbn [tok_enc]; by destruct (n <? 9)).
  destruct (ci_size _ _ Hinv) as (r & Hr0 & Hr1 & Hr2). split; [|cbn [l_ip]; lia]. split; cbn [l_ip l_op l_lit l_hval l_htab l_out].
  - lia.
  - by replace (l_ip st + 1 + (n - 2 + 1) - 0) with (l_ip st + n) by lia.
  - fold E. lia.
  - split; [|exists T'; split; [done|by apply run_start]]. done.
  - apply (ci_slots _ _ Hinv).
  - exists r. split_and!; [done|lia|]. destruct (Z.ltb_spec n 9); unfold undo in *; destruct (Z.eqb_spec (l_lit st) 0); lia.
Qed.

(** The hash table and the hash change, and nothing else. *)
Lemma cinv_hash st ts hval htab : cinv st ts -> slots_ok htab -> cinv (mk_lzf (l_ip st) (l_op st) (l_lit st) hval htab (l_out st)) ts.
Proof. intros [] Hs. by split. Qed.
Lemma FRST_some p : 0 <= p -> p + 1 < zlen data -> exists v, FRST data p = Some v.
Proof. intros Hp Hl. unfold FRST. destruct (znth_is_Some data p ltac:(lia)) as [a ->], (znth_is_Some data (p + 1) ltac:(lia)) as [b ->]. by eexists. Qed.
Lemma NEXT_some v p : 0 <= p -> p + 2 < zlen data -> exists v', NEXT v data p = Some v'.
Proof. intros Hp Hl. unfold NEXT. destruct (znth_is_Some data (p + 2) ltac:(lia)) as [a ->]. by eexists. Qed.
Lemma rehash_ok st ts : cinv st ts -> 2 <= l_ip st < zlen data - 2 -> exists st', rehash data st = Some st' /\ cinv st' ts /\ l_ip st' = l_ip st.
Proof.
  intros Hinv Hip. unfold rehash. destruct (FRST_some (l_ip st - 1 - 1) ltac:(lia) ltac:(lia)) as [v ->]. cbn [mbind option_bind].
  destruct (NEXT_some v (l_ip st - 1 - 1) ltac:(lia) ltac:(lia)) as [v' ->]. cbn [mbind option_bind].
  destruct (NEXT_some v' (l_ip st - 1 - 1 + 1) ltac:(lia) ltac:(lia)) as [v'' ->]. cbn [mbind option_bind]. eexists. split; [done|].
  replace (l_ip st - 1 - 1 + 1 + 1) with (l_ip st) by lia. split; [|done]. apply cinv_hash; [done|]. apply set_slot_ok, set_slot_ok, (ci_slots _ _ Hinv).
Qed.

Lemma compress_loop_ok fuel : forall st ts, cinv st ts -> zlen data - l_ip st <= Z.of_nat fuel ->
  exists r, compress_loop fuel data st = Some r /\
    match r with inl out => zlen out = N /\ ~ enough | inr st' => exists ts', cinv st' ts' /\ zlen data - 2 <= l_ip st' end.
Proof.
  induction fuel as [|fuel IH]; intros st ts Hinv Hf; cbn [compress_loop]; (destruct (Z.ltb_spec (l_ip st) (zlen data - 2)); [|eexists; split; [done|]; by exists ts]); [lia|].
  pose proof (ci_ip _ _ Hinv) as Hi. destruct (NEXT_some (l_hval st) (l_ip st) ltac:(lia) ltac:(lia)) as [h ->]. cbn [mbind option_bind].
  destruct (find_match_ok data (l_htab st) h (l_ip st) (ci_slots _ _ Hinv)) as (htab & found & -> & Hh & Hfound); [lia..|]. cbn [mbind option_bind].
  pose proof (cinv_hash st ts h htab Hinv Hh) as Hinv'. set (st1 := mk_lzf _ _ _ h htab _) in *. assert (Eip : l_ip st1 = l_ip st) by done. rewrite <- Eip in *. destruct (ci_out _ _ Hinv') as [Hz _].
  destruct found as [off|].
  - destruct Hfound as (Ho & Hoi & Hs). destruct (put_match_ok st1 ts off Hinv' ltac:(lia) Ho Hoi Hs) as (r & -> & Hr). cbn [mbind option_bind].
    destruct r as [out|st2]; [destruct Hr as [-> ?]; eexists; split; [done|]; done|]. destruct Hr as (ts2 & Hinv2 & Hip2).
    destruct (Z.leb_spec (zlen data - 2) (l_ip st2)); [eexists; split; [done|]; by exists ts2|].
    destruct (rehash_ok st2 ts2 Hinv2 ltac:(lia)) as (st3 & -> & Hinv3 & Hip3). cbn [mbind option_bind]. apply (IH st3 ts2 Hinv3). lia.
  - destruct (Z.leb_spec (zlen (l_out st1)) (l_op st1)).
    + eexists. split; [done|]. split; [done|]. pose proof (size_bound st1 ts Hinv'). unfold enough. lia.
    + destruct (put_literal_ok st1 ts Hinv' ltac:(lia) ltac:(lia)) as (st2 & ts2 & -> & Hinv2 & Hip2 & _). cbn [mbind option_bind]. apply (IH st2 ts2 Hinv2). lia.
Qed.

(** At most two bytes are left, and with them at most three are written. *)
Lemma tail_loop_ok st ts : cinv st ts -> zlen data - 2 <= l_ip st -> l_op st + 3 <= N ->
  exists st' ts', tail_loop 2 data st = Some st' /\ cinv st' ts' /\ l_ip st' = zlen data /\ l_op st' <= N.
Proof.
  intros Hinv Hip Hop. pose proof (ci_ip _ _ Hinv) as Hi. cbn [tail_loop]. destruct (Z.ltb_spec (l_ip st) (zlen data)); [|exists st, ts; split_and!; done || lia].
  destruct (put_literal_ok st ts Hinv ltac:(lia) ltac:(lia)) as (st1 & ts1 & -> & Hinv1 & Hip1 & Hop1). cbn [mbind option_bind].
  destruct (Z.ltb_spec (l_ip st1) (zlen data)); [|exists st1, ts1; split_and!; done || lia].
  destruct (put_literal_ok st1 ts1 Hinv1 ltac:(lia) ltac:(lia)) as (st2 & ts2 & E2 & Hinv2 & Hip2 & Hop2). rewrite E2. cbn [mbind option_bind].
  rewrite (proj2 (Z.ltb_ge (l_ip st2) _)) by lia. exists st2, ts2. split_and!; [done|done|lia|].
  destruct Hop1 as [|[? Hlit]]; [lia|]. destruct Hop2 as [|[? Hlit2]]; [lia|]. exfalso. revert E2. unfold put_literal. rewrite Hlit.
  destruct (znth data (l_ip st1)); [|done]. cbn [mbind option_bind]. destruct (zset (l_out st1) (l_op st1) z); [|done]. cbn [mbind option_bind]. change (0 + 1 =? MAX_LIT) with false. cbv iota.
  intros E2. injection E2 as <-. cbn in Hlit2. lia.
Qed.

Lemma compress_ok htab out : slots_ok htab -> zlen out = N -> 1 <= N ->
  exists n out', lzf_compress htab data out = Some (n, out') /\ zlen out' = N /\
    (n = 0 /\ ~ enough \/ 0 < n <= zlen data + zlen data / 32 + 1 /\ exists ts, toks_ok data 0 ts (zlen data) /\ take (Z.to_nat n) out' = toks_enc data 0 ts).
Proof.
  intros Hh Hz HN. unfold lzf_compress. rewrite (proj2 (Z.eqb_neq (zlen data) 0)), (proj2 (Z.eqb_neq (zlen out) 0)) by lia. cbn [orb].
  destruct (FRST_some 0 ltac:(lia) ltac:(lia)) as [h ->]. cbn [mbind option_bind].
  assert (Hinv : cinv (mk_lzf 0 1 0 h htab out) []).
  { split; cbn [l_ip l_op l_lit l_hval l_htab l_out toks_enc toks_ok]; [lia|done|done|split; [done|]; exists out; split; [done|by apply run_start]|done|exists 0; lia]. }
  destruct (compress_loop_ok (length data) _ [] Hinv) as (r & -> & Hr); [cbn; unfold zlen; lia|]. cbn [mbind option_bind]. destruct r as [out1|st].
  { destruct Hr. exists 0, out1. split_and!; [done|done|by left]. }
  destruct Hr as (ts & Hinv1 & Hip). rewrite Hz. destruct (Z.ltb_spec N (l_op st + 3)).
  { exists 0, (l_out st). split_and!; [done|apply (ci_out _ _ Hinv1)|]. left. split; [done|]. pose proof (size_bound st ts Hinv1). pose proof (ci_ip _ _ Hinv1). unfold enough. lia. }
  destruct (tail_loop_ok st ts Hinv1 Hip ltac:(lia)) as (st2 & ts2 & -> & Hinv2 & Hip2 & Hop2). cbn [mbind option_bind].
  destruct (stop_run_ok st2 ts2 Hinv2 Hop2) as (ts3 & T & out3 & -> & -> & Hz3 & Ht3 & He3). cbn [mbind option_bind]. rewrite Hip2 in Ht3. rewrite <- He3.
  eexists _, _. split; [done|]. split; [done|]. right. split; [|exists ts3; split; [done|]; by rewrite to_nat_zlen, take_app_length].
  pose proof (size_bound st2 ts2 Hinv2). pose proof (ci_ip _ _ Hinv2). split.
  - destruct ts3 as [|t ts3]; [cbn in Ht3; lia|]. cbn [toks_enc]. rewrite zlen_app. pose proof (tok_enc_pos data 0 t). match goal with |- context [_ + zlen ?l] => pose proof (zlen_nonneg l) end. lia.
  - rewrite He3. destruct (_ =? 0); lia.
Qed.
End Compress.

(** C10: what is compressed can be decompressed.  For every input of at least two
    bytes, whatever the hash table and the output buffer hold, [lzf_compress]
    stays inside its buffers and returns; it returns 0 only when the output is
    shorter than the input and a 32nd of it and four bytes; otherwise the bytes
    it says it has written, at most a 32nd and one more than the input has, give
    the input back: [lzf_decompress] writes it to any buffer that is large
    enough, returns its length and leaves the rest of the buffer alone. *)
Theorem lzf_roundtrip (htab : Z -> Z) (data out : list Z) :
  slots_ok htab -> 2 <= zlen data < 2 ^ 32 -> 1 <= zlen out ->
  exists n out', lzf_compress htab data out = Some (n, out') /\ zlen out' = zlen out /\
    (zlen data + zlen data / 32 + 4 <= zlen out -> n <> 0) /\
    (n <> 0 -> 0 < n <= zlen data + zlen data / 32 + 1 /\ forall buf, zlen data <= zlen buf ->
       lzf_decompress (take (Z.to_nat n) out') buf = Some (inr (zlen data, data ++ drop (length data) buf))).
Proof.
  intros Hh Hd Ho. destruct (compress_ok data (zlen out) Hd htab out Hh eq_refl Ho) as (n & out' & E & Hz & Hn). exists n, out'. split_and!; [done|done| |].
  - intros He Hn0. destruct Hn as [[_ Hn]|[? _]]; [by apply Hn|lia].
  - intros Hn0. destruct Hn as [[? _]|(Hn & ts & Hts & Et)]; [done|]. split; [done|]. intros buf Hbuf. rewrite Et. unfold lzf_decompress.
    pose proof (decompress_ok data ts (length (toks_enc data 0 ts)) 0 [] buf) as HD. rewrite Z.sub_0_r, to_nat_zlen in HD. apply HD; [|done|lia|lia].
    intros ->. cbn in Hts. lia.
Qed.

Lemma lzf_roundtrip_witness :
  exists n out', lzf_compress (fun i => (5 * i) mod 2 ^ 32) [7; 8; 9; 7; 8; 9; 7; 8; 9; 7; 8; 9; 7; 8; 9; 7; 8; 9] (replicate 40 1) = Some (n, out') /\ zlen out' = 40 /\
    (22 <= 40 -> n <> 0) /\
    (n <> 0 -> 0 < n <= 19 /\ forall buf, 18 <= zlen buf ->
       lzf_decompress (take (Z.to_nat n) out') buf = Some (inr (18, [7; 8; 9; 7; 8; 9; 7; 8; 9; 7; 8; 9; 7; 8; 9; 7; 8; 9] ++ drop 18 buf))).
Proof.
  apply (lzf_roundtrip (fun i => (5 * i) mod 2 ^ 32) [7; 8; 9; 7; 8; 9; 7; 8; 9; 7; 8; 9; 7; 8; 9; 7; 8; 9] (replicate 40 1)).
  - intros i. by apply Z.mod_pos_bound.
  - split; by vm_compute.
  - by vm_compute.
Defined.

(** C29: decompression is safe on every input.  For any bytes, at least one, and any
    output buffer [lzf_decompress] returns: an error, or how many bytes it has
    written, which fit the buffer; it reads and writes nothing outside the two
    buffers and leaves the output behind what it has written as it was. *)
Theorem lzf_decompress_safe (data out : list Z) :
  bytes data -> 1 <= zlen data ->
  exists r, lzf_decompress data out = Some r /\
    match r with inl _ => True | inr (n, out') => 0 < n <= zlen out /\ zlen out' = zlen out /\ drop (Z.to_nat n) out' = drop (Z.to_nat n) out end.
Proof. intros Hb Hl. pose proof (zlen_nonneg out). apply (decompress_loop_safe data (length data) Hb out 0 0); [lia|lia|unfold zlen; lia]. Qed.

Lemma lzf_decompress_safe_witness :
  exists r, lzf_decompress [1; 5; 6; 32; 0; 255] [0; 0; 0; 0; 0; 0; 0; 0] = Some r /\
    match r with inl _ => True | inr (n, out') => 0 < n <= 8 /\ zlen out' = 8 /\ drop (Z.to_nat n) out' = drop (Z.to_nat n) [0; 0; 0; 0; 0; 0; 0; 0] end.
Proof. apply (lzf_decompress_safe [1; 5; 6; 32; 0; 255] [0; 0; 0; 0; 0; 0; 0; 0]); [repeat constructor; by vm_compute|by vm_compute]. Defined.

(** ** Inputs that are too short *)

(** One byte: the first hash reads the byte behind it. *)
Lemma lzf_compress_one_byte htab x out : 1 <= zlen out -> lzf_compress htab [x] out = None.
Proof. intros Ho. unfold lzf_compress. change (zlen [x] =? 0) with false. by rewrite (proj2 (Z.eqb_neq (zlen out) 0)) by lia. Qed.
(** Nothing at all: the first control byte is read before the length is looked
    at. *)
Lemma lzf_decompress_empty out fuel : decompress_loop (S fuel) [] out 0 0 = None.
Proof. done. Qed.
