(* ===== verification/Crc.v ===== *)
(** * Crc: the checksums of [crc16.c] and [crc64.c], and the key slots of [cluster.c]

    The two table-driven loops, byte by byte, with the tables as they stand in
    the sources, and [keyHashSlot] on top of [crc16].  The reference is the
    mathematical definition: polynomials over GF(2) are the bits of an integer,
    and a checksum is the remainder of the message, shifted by the width, modulo
    the generator. *)
From Stdlib Require Import ZArith Lia Bool String.
From stdpp Require Import base option list numbers.
From S2P Require Import Prelude UtilNum.
Open Scope Z_scope.

(** ** The code *)

Definition crc16tab : list Z :=
  [
    0x0000; 0x1021; 0x2042; 0x3063; 0x4084; 0x50a5; 0x60c6; 0x70e7;
    0x8108; 0x9129; 0xa14a; 0xb16b; 0xc18c; 0xd1ad; 0xe1ce; 0xf1ef;
    0x1231; 0x0210; 0x3273; 0x2252; 0x52b5; 0x4294; 0x72f7; 0x62d6;
    0x9339; 0x8318; 0xb37b; 0xa35a; 0xd3bd; 0xc39c; 0xf3ff; 0xe3de;
    0x2462; 0x3443; 0x0420; 0x1401; 0x64e6; 0x74c7; 0x44a4; 0x5485;
    0xa56a; 0xb54b; 0x8528; 0x9509; 0xe5ee; 0xf5cf; 0xc5ac; 0xd58d;
    0x3653; 0x2672; 0x1611; 0x0630; 0x76d7; 0x66f6; 0x5695; 0x46b4;
    0xb75b; 0xa77a; 0x9719; 0x8738; 0xf7df; 0xe7fe; 0xd79d; 0xc7bc;
    0x48c4; 0x58e5; 0x6886; 0x78a7; 0x0840; 0x1861; 0x2802; 0x3823;
    0xc9cc; 0xd9ed; 0xe98e; 0xf9af; 0x8948; 0x9969; 0xa90a; 0xb92b;
    0x5af5; 0x4ad4; 0x7ab7; 0x6a96; 0x1a71; 0x0a50; 0x3a33; 0x2a12;
    0xdbfd; 0xcbdc; 0xfbbf; 0xeb9e; 0x9b79; 0x8b58; 0xbb3b; 0xab1a;
    0x6ca6; 0x7c87; 0x4ce4; 0x5cc5; 0x2c22; 0x3c03; 0x0c60; 0x1c41;
    0xedae; 0xfd8f; 0xcdec; 0xddcd; 0xad2a; 0xbd0b; 0x8d68; 0x9d49;
    0x7e97; 0x6eb6; 0x5ed5; 0x4ef4; 0x3e13; 0x2e32; 0x1e51; 0x0e70;
    0xff9f; 0xefbe; 0xdfdd; 0xcffc; 0xbf1b; 0xaf3a; 0x9f59; 0x8f78;
    0x9188; 0x81a9; 0xb1ca; 0xa1eb; 0xd10c; 0xc12d; 0xf14e; 0xe16f;
    0x1080; 0x00a1; 0x30c2; 0x20e3; 0x5004; 0x4025; 0x7046; 0x6067;
    0x83b9; 0x9398; 0xa3fb; 0xb3da; 0xc33d; 0xd31c; 0xe37f; 0xf35e;
    0x02b1; 0x1290; 0x22f3; 0x32d2; 0x4235; 0x5214; 0x6277; 0x7256;
    0xb5ea; 0xa5cb; 0x95a8; 0x8589; 0xf56e; 0xe54f; 0xd52c; 0xc50d;
    0x34e2; 0x24c3; 0x14a0; 0x0481; 0x7466; 0x6447; 0x5424; 0x4405;
    0xa7db; 0xb7fa; 0x8799; 0x97b8; 0xe75f; 0xf77e; 0xc71d; 0xd73c;
    0x26d3; 0x36f2; 0x0691; 0x16b0; 0x6657; 0x7676; 0x4615; 0x5634;
    0xd94c; 0xc96d; 0xf90e; 0xe92f; 0x99c8; 0x89e9; 0xb98a; 0xa9ab;
    0x5844; 0x4865; 0x7806; 0x6827; 0x18c0; 0x08e1; 0x3882; 0x28a3;
    0xcb7d; 0xdb5c; 0xeb3f; 0xfb1e; 0x8bf9; 0x9bd8; 0xabbb; 0xbb9a;
    0x4a75; 0x5a54; 0x6a37; 0x7a16; 0x0af1; 0x1ad0; 0x2ab3; 0x3a92;
    0xfd2e; 0xed0f; 0xdd6c; 0xcd4d; 0xbdaa; 0xad8b; 0x9de8; 0x8dc9;
    0x7c26; 0x6c07; 0x5c64; 0x4c45; 0x3ca2; 0x2c83; 0x1ce0; 0x0cc1;
    0xef1f; 0xff3e; 0xcf5d; 0xdf7c; 0xaf9b; 0xbfba; 0x8fd9; 0x9ff8;
    0x6e17; 0x7e36; 0x4e55; 0x5e74; 0x2e93; 0x3eb2; 0x0ed1; 0x1ef0
  ].

Definition crc16_step (crc byte : Z) : option Z :=
  t ← znth crc16tab (Z.land (Z.lxor (Z.shiftr crc 8) byte) 0xff);
  Some (u16 (Z.lxor (Z.shiftl crc 8) t)).

(** The loop over the first [len] bytes of the buffer. *)
Fixpoint crc16_loop (crc : Z) (buf : list Z) (len : nat) {struct len} : option Z :=
  match len with
  | O => Some crc
  | S len => match buf with b :: buf => crc ← crc16_step crc b; crc16_loop crc buf len | [] => None end
  end.
Definition crc16 (buf : list Z) (len : Z) : option Z := crc16_loop 0 buf (Z.to_nat len).

Definition crc64_tab : list Z :=
  [
    0x0000000000000000; 0x7ad870c830358979; 0xf5b0e190606b12f2; 0x8f689158505e9b8b;
    0xc038e5739841b68f; 0xbae095bba8743ff6; 0x358804e3f82aa47d; 0x4f50742bc81f2d04;
    0xab28ecb46814fe75; 0xd1f09c7c5821770c; 0x5e980d24087fec87; 0x24407dec384a65fe;
    0x6b1009c7f05548fa; 0x11c8790fc060c183; 0x9ea0e857903e5a08; 0xe478989fa00bd371;
    0x7d08ff3b88be6f81; 0x07d08ff3b88be6f8; 0x88b81eabe8d57d73; 0xf2606e63d8e0f40a;
    0xbd301a4810ffd90e; 0xc7e86a8020ca5077; 0x4880fbd87094cbfc; 0x32588b1040a14285;
    0xd620138fe0aa91f4; 0xacf86347d09f188d; 0x2390f21f80c18306; 0x594882d7b0f40a7f;
    0x1618f6fc78eb277b; 0x6cc0863448deae02; 0xe3a8176c18803589; 0x997067a428b5bcf0;
    0xfa11fe77117cdf02; 0x80c98ebf2149567b; 0x0fa11fe77117cdf0; 0x75796f2f41224489;
    0x3a291b04893d698d; 0x40f16bccb908e0f4; 0xcf99fa94e9567b7f; 0xb5418a5cd963f206;
    0x513912c379682177; 0x2be1620b495da80e; 0xa489f35319033385; 0xde51839b2936bafc;
    0x9101f7b0e12997f8; 0xebd98778d11c1e81; 0x64b116208142850a; 0x1e6966e8b1770c73;
    0x8719014c99c2b083; 0xfdc17184a9f739fa; 0x72a9e0dcf9a9a271; 0x08719014c99c2b08;
    0x4721e43f0183060c; 0x3df994f731b68f75; 0xb29105af61e814fe; 0xc849756751dd9d87;
    0x2c31edf8f1d64ef6; 0x56e99d30c1e3c78f; 0xd9810c6891bd5c04; 0xa3597ca0a188d57d;
    0xec09088b6997f879; 0x96d1784359a27100; 0x19b9e91b09fcea8b; 0x636199d339c963f2;
    0xdf7adabd7a6e2d6f; 0xa5a2aa754a5ba416; 0x2aca3b2d1a053f9d; 0x50124be52a30b6e4;
    0x1f423fcee22f9be0; 0x659a4f06d21a1299; 0xeaf2de5e82448912; 0x902aae96b271006b;
    0x74523609127ad31a; 0x0e8a46c1224f5a63; 0x81e2d7997211c1e8; 0xfb3aa75142244891;
    0xb46ad37a8a3b6595; 0xceb2a3b2ba0eecec; 0x41da32eaea507767; 0x3b024222da65fe1e;
    0xa2722586f2d042ee; 0xd8aa554ec2e5cb97; 0x57c2c41692bb501c; 0x2d1ab4dea28ed965;
    0x624ac0f56a91f461; 0x1892b03d5aa47d18; 0x97fa21650afae693; 0xed2251ad3acf6fea;
    0x095ac9329ac4bc9b; 0x7382b9faaaf135e2; 0xfcea28a2faafae69; 0x8632586aca9a2710;
    0xc9622c4102850a14; 0xb3ba5c8932b0836d; 0x3cd2cdd162ee18e6; 0x460abd1952db919f;
    0x256b24ca6b12f26d; 0x5fb354025b277b14; 0xd0dbc55a0b79e09f; 0xaa03b5923b4c69e6;
    0xe553c1b9f35344e2; 0x9f8bb171c366cd9b; 0x10e3202993385610; 0x6a3b50e1a30ddf69;
    0x8e43c87e03060c18; 0xf49bb8b633338561; 0x7bf329ee636d1eea; 0x012b592653589793;
    0x4e7b2d0d9b47ba97; 0x34a35dc5ab7233ee; 0xbbcbcc9dfb2ca865; 0xc113bc55cb19211c;
    0x5863dbf1e3ac9dec; 0x22bbab39d3991495; 0xadd33a6183c78f1e; 0xd70b4aa9b3f20667;
    0x985b3e827bed2b63; 0xe2834e4a4bd8a21a; 0x6debdf121b863991; 0x1733afda2bb3b0e8;
    0xf34b37458bb86399; 0x8993478dbb8deae0; 0x06fbd6d5ebd3716b; 0x7c23a61ddbe6f812;
    0x3373d23613f9d516; 0x49aba2fe23cc5c6f; 0xc6c333a67392c7e4; 0xbc1b436e43a74e9d;
    0x95ac9329ac4bc9b5; 0xef74e3e19c7e40cc; 0x601c72b9cc20db47; 0x1ac40271fc15523e;
    0x5594765a340a7f3a; 0x2f4c0692043ff643; 0xa02497ca54616dc8; 0xdafce7026454e4b1;
    0x3e847f9dc45f37c0; 0x445c0f55f46abeb9; 0xcb349e0da4342532; 0xb1eceec59401ac4b;
    0xfebc9aee5c1e814f; 0x8464ea266c2b0836; 0x0b0c7b7e3c7593bd; 0x71d40bb60c401ac4;
    0xe8a46c1224f5a634; 0x927c1cda14c02f4d; 0x1d148d82449eb4c6; 0x67ccfd4a74ab3dbf;
    0x289c8961bcb410bb; 0x5244f9a98c8199c2; 0xdd2c68f1dcdf0249; 0xa7f41839ecea8b30;
    0x438c80a64ce15841; 0x3954f06e7cd4d138; 0xb63c61362c8a4ab3; 0xcce411fe1cbfc3ca;
    0x83b465d5d4a0eece; 0xf96c151de49567b7; 0x76048445b4cbfc3c; 0x0cdcf48d84fe7545;
    0x6fbd6d5ebd3716b7; 0x15651d968d029fce; 0x9a0d8ccedd5c0445; 0xe0d5fc06ed698d3c;
    0xaf85882d2576a038; 0xd55df8e515432941; 0x5a3569bd451db2ca; 0x20ed197575283bb3;
    0xc49581ead523e8c2; 0xbe4df122e51661bb; 0x3125607ab548fa30; 0x4bfd10b2857d7349;
    0x04ad64994d625e4d; 0x7e7514517d57d734; 0xf11d85092d094cbf; 0x8bc5f5c11d3cc5c6;
    0x12b5926535897936; 0x686de2ad05bcf04f; 0xe70573f555e26bc4; 0x9ddd033d65d7e2bd;
    0xd28d7716adc8cfb9; 0xa85507de9dfd46c0; 0x273d9686cda3dd4b; 0x5de5e64efd965432;
    0xb99d7ed15d9d8743; 0xc3450e196da80e3a; 0x4c2d9f413df695b1; 0x36f5ef890dc31cc8;
    0x79a59ba2c5dc31cc; 0x037deb6af5e9b8b5; 0x8c157a32a5b7233e; 0xf6cd0afa9582aa47;
    0x4ad64994d625e4da; 0x300e395ce6106da3; 0xbf66a804b64ef628; 0xc5bed8cc867b7f51;
    0x8aeeace74e645255; 0xf036dc2f7e51db2c; 0x7f5e4d772e0f40a7; 0x05863dbf1e3ac9de;
    0xe1fea520be311aaf; 0x9b26d5e88e0493d6; 0x144e44b0de5a085d; 0x6e963478ee6f8124;
    0x21c640532670ac20; 0x5b1e309b16452559; 0xd476a1c3461bbed2; 0xaeaed10b762e37ab;
    0x37deb6af5e9b8b5b; 0x4d06c6676eae0222; 0xc26e573f3ef099a9; 0xb8b627f70ec510d0;
    0xf7e653dcc6da3dd4; 0x8d3e2314f6efb4ad; 0x0256b24ca6b12f26; 0x788ec2849684a65f;
    0x9cf65a1b368f752e; 0xe62e2ad306bafc57; 0x6946bb8b56e467dc; 0x139ecb4366d1eea5;
    0x5ccebf68aecec3a1; 0x2616cfa09efb4ad8; 0xa97e5ef8cea5d153; 0xd3a62e30fe90582a;
    0xb0c7b7e3c7593bd8; 0xca1fc72bf76cb2a1; 0x45775673a732292a; 0x3faf26bb9707a053;
    0x70ff52905f188d57; 0x0a2722586f2d042e; 0x854fb3003f739fa5; 0xff97c3c80f4616dc;
    0x1bef5b57af4dc5ad; 0x61372b9f9f784cd4; 0xee5fbac7cf26d75f; 0x9487ca0fff135e26;
    0xdbd7be24370c7322; 0xa10fceec0739fa5b; 0x2e675fb4576761d0; 0x54bf2f7c6752e8a9;
    0xcdcf48d84fe75459; 0xb71738107fd2dd20; 0x387fa9482f8c46ab; 0x42a7d9801fb9cfd2;
    0x0df7adabd7a6e2d6; 0x772fdd63e7936baf; 0xf8474c3bb7cdf024; 0x829f3cf387f8795d;
    0x66e7a46c27f3aa2c; 0x1c3fd4a417c62355; 0x935745fc4798b8de; 0xe98f353477ad31a7;
    0xa6df411fbfb21ca3; 0xdc0731d78f8795da; 0x536fa08fdfd90e51; 0x29b7d047efec8728
  ].

Definition crc64_step (crc byte : Z) : option Z :=
  t ← znth crc64_tab (Z.lxor (u8 crc) byte);
  Some (Z.lxor t (Z.shiftr crc 8)).
Fixpoint crc64_loop (crc : Z) (s : list Z) (l : nat) {struct l} : option Z :=
  match l with
  | O => Some crc
  | S l => match s with b :: s => crc ← crc64_step crc b; crc64_loop crc s l | [] => None end
  end.
Definition crc64 (crc : Z) (s : list Z) (l : Z) : option Z := crc64_loop crc s (Z.to_nat l).

(** [for (s = from; s < keylen; s++) if (key[s] == c) break;]: the index at the
    end of the loop. *)
Fixpoint scan_for (fuel : nat) (key : list Z) (keylen s c : Z) : option Z :=
  match fuel with
  | O => None
  | S fuel =>
      if s <? keylen then x ← znth key s; if x =? c then Some s else scan_for fuel key keylen (s + 1) c
      else Some s
  end.

Definition keyHashSlot (key : list Z) (keylen : Z) : option Z :=
  let fuel := S (Z.to_nat keylen) in
  s ← scan_for fuel key keylen 0 123;
  if s =? keylen then h ← crc16 key keylen; Some (Z.land h 0x3fff)
  else
    e ← scan_for fuel key keylen (s + 1) 125;
    if (e =? keylen) || (e =? s + 1) then h ← crc16 key keylen; Some (Z.land h 0x3fff)
    else h ← crc16 (drop (Z.to_nat (s + 1)) key) (e - s - 1); Some (Z.land h 0x3fff).

(** ** Polynomials over GF(2) *)

Section Gf2.
Variable p : Z.

(** [q * p], by the bits of [q]. *)
Fixpoint pmul_pos (q : positive) : Z :=
  match q with
  | xH => p
  | xO q => 2 * pmul_pos q
  | xI q => Z.lxor p (2 * pmul_pos q)
  end.
Definition pmul (q : N) : Z := match q with N0 => 0 | Npos q => pmul_pos q end.

Lemma lxor_double a b : Z.lxor (2 * a) (2 * b) = 2 * Z.lxor a b.
Proof. rewrite !(Z.mul_comm 2). change 2 with (2 ^ 1). by rewrite <- !Z.shiftl_mul_pow2, Z.shiftl_lxor. Qed.

Lemma pmul_double q : pmul (N.double q) = 2 * pmul q.
Proof. by destruct q. Qed.
Lemma pmul_succ_double q : pmul (N.succ_double q) = Z.lxor p (2 * pmul q).
Proof. destruct q; [|done]. simpl. by rewrite Z.lxor_0_r. Qed.

Lemma pmul_lxor_pos a b : pmul (Pos.lxor a b) = Z.lxor (pmul_pos a) (pmul_pos b).
Proof.
  revert b. induction a as [a IH|a IH|]; intros [b|b|]; cbn [pmul_pos].
  - change (Pos.lxor (xI a) (xI b)) with (N.double (Pos.lxor a b)).
    rewrite pmul_double, IH, <- lxor_double. generalize (2 * pmul_pos a) (2 * pmul_pos b). intros x y.
    apply Z.bits_inj'. intros n _. rewrite !Z.lxor_spec. by destruct (Z.testbit p n), (Z.testbit x n), (Z.testbit y n).
  - change (Pos.lxor (xI a) (xO b)) with (N.succ_double (Pos.lxor a b)).
    rewrite pmul_succ_double, IH, <- lxor_double. by rewrite Z.lxor_assoc.
  - change (Pos.lxor (xI a) xH) with (N.pos (xO a)). cbn [pmul pmul_pos].
    by rewrite (Z.lxor_comm p), Z.lxor_assoc, Z.lxor_nilpotent, Z.lxor_0_r.
  - change (Pos.lxor (xO a) (xI b)) with (N.succ_double (Pos.lxor a b)).
    rewrite pmul_succ_double, IH, <- lxor_double. rewrite <- !Z.lxor_assoc. by rewrite (Z.lxor_comm p).
  - change (Pos.lxor (xO a) (xO b)) with (N.double (Pos.lxor a b)). by rewrite pmul_double, IH, lxor_double.
  - change (Pos.lxor (xO a) xH) with (N.pos (xI a)). cbn [pmul pmul_pos]. by rewrite Z.lxor_comm.
  - change (Pos.lxor xH (xI b)) with (N.pos (xO b)). cbn [pmul pmul_pos].
    by rewrite <- Z.lxor_assoc, Z.lxor_nilpotent, Z.lxor_0_l.
  - done.
  - by rewrite Z.lxor_nilpotent.
Qed.

Lemma pmul_lxor a b : pmul (N.lxor a b) = Z.lxor (pmul a) (pmul b).
Proof.
  destruct a as [|a], b as [|b]; simpl; try done; [by rewrite Z.lxor_0_r|apply pmul_lxor_pos].
Qed.

Lemma pmul_shiftl q k : 0 <= k -> exists q', pmul q' = Z.shiftl (pmul q) k.
Proof.
  intros Hk. pattern k. apply natlike_ind; [|clear k Hk|done].
  - exists q. by rewrite Z.shiftl_0_r.
  - intros k Hk [q' Hq']. exists (N.double q'). rewrite pmul_double, Hq'.
    rewrite !Z.shiftl_mul_pow2 by lia. rewrite Z.pow_succ_r by done. lia.
Qed.

(** Congruence modulo [p]. *)
Definition cong (a b : Z) : Prop := exists q, Z.lxor a b = pmul q.

Lemma cong_refl a : cong a a.
Proof. exists 0%N. by rewrite Z.lxor_nilpotent. Qed.
Lemma cong_sym a b : cong a b -> cong b a.
Proof. intros [q Hq]. exists q. by rewrite Z.lxor_comm. Qed.
Lemma cong_trans a b c : cong a b -> cong b c -> cong a c.
Proof.
  intros [q Hq] [r Hr]. exists (N.lxor q r). rewrite pmul_lxor, <- Hq, <- Hr.
  by rewrite (Z.lxor_assoc a), <- (Z.lxor_assoc b b), Z.lxor_nilpotent, Z.lxor_0_l.
Qed.
Lemma cong_lxor a b c d : cong a b -> cong c d -> cong (Z.lxor a c) (Z.lxor b d).
Proof.
  intros [q Hq] [r Hr]. exists (N.lxor q r). rewrite pmul_lxor, <- Hq, <- Hr.
  apply Z.bits_inj'. intros n _. rewrite !Z.lxor_spec.
  by destruct (Z.testbit a n), (Z.testbit b n), (Z.testbit c n), (Z.testbit d n).
Qed.
Lemma cong_shiftl a b k : 0 <= k -> cong a b -> cong (Z.shiftl a k) (Z.shiftl b k).
Proof.
  intros Hk [q Hq]. destruct (pmul_shiftl q k Hk) as [q' Hq']. exists q'.
  by rewrite Hq', <- Hq, Z.shiftl_lxor.
Qed.

(** [r] is the remainder of [a] modulo [p], of degree [w]. *)
Definition is_rem (w a r : Z) : Prop := in_u w r /\ cong a r.

Lemma pmul_degree w q : 0 <= w -> 2 ^ w <= p < 2 ^ (w + 1) -> q <> N0 -> 2 ^ w <= pmul q.
Proof.
  intros Hw Hp Hq. destruct q as [|q]; [done|]. simpl. clear Hq.
  assert (Hp0 : 0 < 2 ^ w) by (apply Z.pow_pos_nonneg; lia).
  assert (Hlp : Z.log2 p = w) by (apply Z.log2_unique; lia).
  assert (0 < pmul_pos q /\ w <= Z.log2 (pmul_pos q)) as [H1 H2].
  { induction q as [q [IH1 IH2]|q [IH1 IH2]|]; cbn [pmul_pos]; [| |lia].
    - assert (Hl : Z.log2 (2 * pmul_pos q) = Z.succ (Z.log2 (pmul_pos q))) by (by rewrite Z.log2_double).
      assert (Hl2 : Z.log2 (Z.lxor p (2 * pmul_pos q)) = Z.succ (Z.log2 (pmul_pos q))).
      { apply Z.log2_bits_unique.
        - rewrite Z.lxor_spec, <- Hl, Z.bit_log2 by lia. rewrite Z.bits_above_log2 by lia. done.
        - intros m Hm. rewrite Z.lxor_spec, !Z.bits_above_log2 by lia. done. }
      split; [|lia]. assert (0 <= Z.lxor p (2 * pmul_pos q)) by (apply Z.lxor_nonneg; lia).
      destruct (Z.eq_dec (Z.lxor p (2 * pmul_pos q)) 0) as [E|]; [|lia].
      rewrite E in Hl2. change (Z.log2 0) with 0 in Hl2. lia.
    - split; [lia|]. rewrite Z.log2_double by done. lia. }
  apply Z.log2_le_pow2; lia.
Qed.

(** Remainders are unique: the reference determines the checksum. *)
Lemma is_rem_unique w a r1 r2 :
  0 <= w -> 2 ^ w <= p < 2 ^ (w + 1) -> is_rem w a r1 -> is_rem w a r2 -> r1 = r2.
Proof.
  intros Hw Hp [H1 C1] [H2 C2]. destruct (cong_trans _ _ _ (cong_sym _ _ C1) C2) as [q Hq].
  destruct (N.eq_dec q N0) as [->|Hne]; [by apply Z.lxor_eq|]. exfalso.
  pose proof (pmul_degree w q Hw Hp Hne). unfold in_u in *. rewrite <- Hq in H.
  assert (Z.lxor r1 r2 < 2 ^ w); [|lia].
  destruct (Z.eq_dec (Z.lxor r1 r2) 0) as [->|]; [apply Z.pow_pos_nonneg; lia|].
  assert (0 <= Z.lxor r1 r2) by (apply Z.lxor_nonneg; lia). apply Z.log2_lt_pow2; [lia|].
  pose proof (Z.log2_lxor r1 r2 ltac:(lia) ltac:(lia)).
  assert (Hl : forall r, 0 <= r < 2 ^ w -> Z.log2 r < w \/ (r = 0)).
  { intros r Hr. destruct (Z.eq_dec r 0); [by right|]. left. apply Z.log2_lt_pow2; lia. }
  destruct (Hl r1 H1) as [|Z1], (Hl r2 H2) as [|Z2]; try lia; subst; try (rewrite ?Z.lxor_0_l, ?Z.lxor_0_r in *; lia).
Qed.

(** ** The byte-wise register *)

Variable w : Z.
Hypothesis w_byte : 8 <= w.
(** The table: [tab j] is the remainder of [j * x^w]. *)
Variable tab : Z -> Z.
Hypothesis tab_ok : forall j, 0 <= j < 256 -> is_rem w (Z.shiftl j w) (tab j).

Definition reg_step (r b : Z) : Z :=
  Z.lxor (tab (Z.lxor (Z.shiftr r (w - 8)) b)) (wrap w (Z.shiftl r 8)).

Lemma lxor_range k a b : 0 <= k -> in_u k a -> in_u k b -> in_u k (Z.lxor a b).
Proof.
  unfold in_u. intros Hk Ha Hb. assert (Z.lxor a b = (Z.lxor a b) mod 2 ^ k) as ->.
  { apply Z.bits_inj'. intros n Hn. destruct (Z.ltb_spec n k).
    - by rewrite Z.mod_pow2_bits_low.
    - rewrite Z.mod_pow2_bits_high by lia. rewrite Z.lxor_spec.
      rewrite <- (Z.mod_small a (2 ^ k)), <- (Z.mod_small b (2 ^ k)) by done.
      by rewrite !Z.mod_pow2_bits_high by lia. }
  apply Z.mod_pos_bound, Z.pow_pos_nonneg; lia.
Qed.

Lemma shift_split r :
  in_u w r -> Z.shiftl r 8 = Z.lxor (Z.shiftl (Z.shiftr r (w - 8)) w) (wrap w (Z.shiftl r 8)).
Proof.
  intros Hr. unfold wrap. apply Z.bits_inj'. intros n Hn. rewrite Z.lxor_spec. destruct (Z.ltb_spec n w).
  - rewrite Z.mod_pow2_bits_low by lia. rewrite (Z.shiftl_spec_low _ w) by lia. by rewrite xorb_false_l.
  - rewrite Z.mod_pow2_bits_high by lia. rewrite xorb_false_r.
    rewrite !Z.shiftl_spec, Z.shiftr_spec by lia. f_equal. lia.
Qed.

Lemma reg_step_ok m r b :
  is_rem w (Z.shiftl m w) r -> is_byte b ->
  is_rem w (Z.shiftl (Z.lxor (Z.shiftl m 8) b) w) (reg_step r b).
Proof.
  intros [Hr Hc] Hb. unfold reg_step. set (i := Z.lxor (Z.shiftr r (w - 8)) b).
  assert (Hi : 0 <= i < 256).
  { apply (lxor_range 8); [lia| |exact Hb]. unfold in_u in *. rewrite Z.shiftr_div_pow2 by lia.
    split; [apply Z.div_pos; [lia|apply Z.pow_pos_nonneg; lia]|].
    apply Z.div_lt_upper_bound; [apply Z.pow_pos_nonneg; lia|]. rewrite <- Z.pow_add_r by lia.
    replace (w - 8 + 8) with w by lia. lia. }
  destruct (tab_ok i Hi) as [Ht Hct].
  split; [apply lxor_range; [lia|done|apply wrap_range; lia]|].
  apply cong_trans with (Z.lxor (Z.shiftl r 8) (Z.shiftl b w)).
  - rewrite Z.shiftl_lxor. apply cong_lxor; [|apply cong_refl].
    rewrite Z.shiftl_shiftl by lia. rewrite (Z.add_comm 8 w), <- Z.shiftl_shiftl by lia. apply cong_shiftl; [lia|done].
  - rewrite (shift_split r Hr) at 1. set (low := wrap w (Z.shiftl r 8)).
    replace (Z.lxor (Z.lxor (Z.shiftl (Z.shiftr r (w - 8)) w) low) (Z.shiftl b w)) with (Z.lxor (Z.shiftl i w) low).
    + apply cong_lxor; [done|apply cong_refl].
    + unfold i. by rewrite Z.shiftl_lxor, !Z.lxor_assoc, (Z.lxor_comm low).
Qed.

(** The message polynomial of a byte string, first byte first. *)
Lemma be_dec_snoc l b : be_dec (l ++ [b]) = be_dec l * 256 + b.
Proof. unfold be_dec. rewrite rev_app_distr. cbn [rev app]. change (le_dec (b :: rev l)) with (b + 256 * le_dec (rev l)). lia. Qed.

Lemma be_dec_lxor l b : is_byte b -> be_dec (l ++ [b]) = Z.lxor (Z.shiftl (be_dec l) 8) b.
Proof.
  intros Hb. unfold is_byte in Hb. rewrite be_dec_snoc, Z.shiftl_mul_pow2 by lia. change (2 ^ 8) with 256.
  rewrite Z.add_nocarry_lxor; [done|]. apply Z.bits_inj'. intros n Hn. rewrite Z.land_spec, Z.bits_0.
  change 256 with (2 ^ 8). destruct (Z.ltb_spec n 8).
  - rewrite Z.mul_pow2_bits_low by lia. done.
  - rewrite <- (Z.mod_small b (2 ^ 8)) by (pow2s; lia). rewrite Z.mod_pow2_bits_high by lia. apply andb_false_r.
Qed.

Lemma reg_fold_ok l : bytes l -> is_rem w (Z.shiftl (be_dec l) w) (foldl reg_step 0 l).
Proof.
  induction l as [|b l IH] using rev_ind; intros Hl.
  - simpl. rewrite Z.shiftl_0_l. split; [unfold in_u; split; [lia|apply Z.pow_pos_nonneg; lia]|apply cong_refl].
  - apply Forall_app in Hl as [Hl Hb]. inversion_clear Hb. rewrite foldl_app. simpl. rewrite be_dec_lxor by done.
    apply reg_step_ok; [by apply IH|done].
Qed.
End Gf2.

(** ** Checking the tables *)

(** The quotient of [a * x^w] by long division. *)
Fixpoint pquot (p w : Z) (n : nat) (a : Z) : N :=
  match n with
  | O => 0%N
  | S n => if Z.testbit a (Z.of_nat n + w) then N.lor (2 ^ N.of_nat n)%N (pquot p w n (Z.lxor a (Z.shiftl p (Z.of_nat n))))
           else pquot p w n a
  end.
Definition rem_check (p w a r : Z) : bool :=
  (0 <=? r) && (r <? 2 ^ w) && (Z.lxor a r =? pmul p (pquot p w 8 a)).

Lemma rem_check_ok p w a r : rem_check p w a r = true -> is_rem p w a r.
Proof.
  unfold rem_check. rewrite !andb_true_iff, Z.leb_le, Z.ltb_lt, Z.eqb_eq. intros [Hr Hq]. split; [exact Hr|by eexists].
Qed.

Lemma table_check p w (tab : Z -> Z) :
  forallb (fun j => rem_check p w (Z.shiftl (Z.of_nat j) w) (tab (Z.of_nat j))) (seq 0 256) = true ->
  forall j, 0 <= j < 256 -> is_rem p w (Z.shiftl j w) (tab j).
Proof.
  rewrite forallb_forall. intros H j Hj. apply rem_check_ok.
  specialize (H (Z.to_nat j)). rewrite Z2Nat.id in H by lia. apply H, in_seq. lia.
Qed.

(** x^16 + x^12 + x^5 + 1, and the Jones polynomial. *)
Definition poly16 : Z := 0x11021.
Definition poly64 : Z := 0x1ad93d23594c935a9.

Definition tab16 (j : Z) : Z := default 0 (znth crc16tab j).
Lemma tab16_ok j : 0 <= j < 256 -> is_rem poly16 16 (Z.shiftl j 16) (tab16 j).
Proof. apply table_check. vm_compute. reflexivity. Qed.

(** The low [n] bits of [z], reversed. *)
Fixpoint bitrev (n : nat) (z : Z) : Z :=
  match n with
  | O => 0
  | S n => Z.lor (if Z.testbit z 0 then 2 ^ Z.of_nat n else 0) (bitrev n (Z.shiftr z 1))
  end.

Definition tab64 (j : Z) : Z := bitrev 64 (default 0 (znth crc64_tab (bitrev 8 j))).
Lemma tab64_ok j : 0 <= j < 256 -> is_rem poly64 64 (Z.shiftl j 64) (tab64 j).
Proof. apply table_check. vm_compute. reflexivity. Qed.

(** ** Bit reversal *)

Lemma bitrev_spec n z i :
  0 <= i -> Z.testbit (bitrev n z) i = (i <? Z.of_nat n) && Z.testbit z (Z.of_nat n - 1 - i).
Proof.
  revert z. induction n as [|n IH]; intros z Hi.
  - cbn [bitrev]. rewrite Z.bits_0. by rewrite (proj2 (Z.ltb_ge i _)) by lia.
  - cbn [bitrev]. rewrite Z.lor_spec, IH by done.
    assert (Hb : Z.testbit (if Z.testbit z 0 then 2 ^ Z.of_nat n else 0) i = (i =? Z.of_nat n) && Z.testbit z 0).
    { destruct (Z.testbit z 0); [|by rewrite Z.bits_0, andb_false_r]. rewrite Z.pow2_bits_eqb by lia.
      by rewrite andb_true_r, Z.eqb_sym. }
    rewrite Hb. destruct (Z.eqb_spec i (Z.of_nat n)) as [->|Hne].
    + rewrite Z.ltb_irrefl. cbn [andb]. rewrite orb_false_r, (proj2 (Z.ltb_lt _ _)) by lia. cbn [andb]. f_equal. lia.
    + cbn [andb orb]. destruct (Z.ltb_spec i (Z.of_nat n)).
      * rewrite (proj2 (Z.ltb_lt _ _)) by lia. cbn [andb]. rewrite Z.shiftr_spec by lia. f_equal. lia.
      * by rewrite (proj2 (Z.ltb_ge _ _)) by lia.
Qed.

Lemma bits_above k z i : in_u k z -> k <= i -> 0 <= k -> Z.testbit z i = false.
Proof. intros Hz Hi Hk. rewrite <- (wrap_id k z Hz). unfold wrap. by apply Z.mod_pow2_bits_high. Qed.

Lemma in_u_of_bits k z : 0 <= k -> 0 <= z -> (forall i, k <= i -> Z.testbit z i = false) -> in_u k z.
Proof.
  intros Hk Hz Hb. replace z with (wrap k z); [by apply wrap_range|]. unfold wrap. apply Z.bits_inj'. intros i Hi.
  destruct (Z.ltb_spec i k); [by rewrite Z.mod_pow2_bits_low|]. by rewrite Z.mod_pow2_bits_high, Hb by lia.
Qed.

Lemma bitrev_nonneg n z : 0 <= bitrev n z.
Proof.
  revert z. induction n as [|n IH]; intros z; simpl; [lia|]. apply Z.lor_nonneg. split; [|apply IH].
  destruct (Z.odd z); lia.
Qed.

Lemma bitrev_range n z : in_u (Z.of_nat n) (bitrev n z).
Proof.
  apply in_u_of_bits; [lia|apply bitrev_nonneg|]. intros i Hi. rewrite bitrev_spec by lia.
  by rewrite (proj2 (Z.ltb_ge _ _)) by lia.
Qed.

Lemma bitrev_lxor n a b : bitrev n (Z.lxor a b) = Z.lxor (bitrev n a) (bitrev n b).
Proof.
  apply Z.bits_inj'. intros i Hi. rewrite Z.lxor_spec, !bitrev_spec, Z.lxor_spec by done.
  by destruct (i <? Z.of_nat n).
Qed.

Lemma bitrev_shiftr crc : in_u 64 crc -> bitrev 64 (Z.shiftr crc 8) = wrap 64 (Z.shiftl (bitrev 64 crc) 8).
Proof.
  intros Hc. apply Z.bits_inj'. intros i Hi. rewrite bitrev_spec by done. unfold wrap. change (Z.of_nat 64) with 64.
  destruct (Z.ltb_spec i 64); [|by rewrite Z.mod_pow2_bits_high by lia]. cbn [andb].
  rewrite Z.mod_pow2_bits_low, Z.shiftr_spec by lia. destruct (Z.ltb_spec i 8).
  - rewrite Z.shiftl_spec_low by lia. apply (bits_above 64); [done|lia|lia].
  - rewrite Z.shiftl_spec, bitrev_spec by lia. change (Z.of_nat 64) with 64.
    rewrite (proj2 (Z.ltb_lt _ _)) by lia. cbn [andb]. f_equal. lia.
Qed.

Lemma bitrev_index crc b :
  in_u 64 crc -> is_byte b ->
  bitrev 8 (Z.lxor (Z.shiftr (bitrev 64 crc) 56) (bitrev 8 b)) = Z.lxor (u8 crc) b.
Proof.
  intros Hc Hb. apply Z.bits_inj'. intros i Hi. rewrite bitrev_spec by done. change (Z.of_nat 8) with 8. unfold u8, wrap.
  destruct (Z.ltb_spec i 8).
  - cbn [andb]. rewrite !Z.lxor_spec, Z.shiftr_spec by lia. rewrite (Z.mod_pow2_bits_low crc) by lia. rewrite !bitrev_spec by lia.
    change (Z.of_nat 8) with 8. change (Z.of_nat 64) with 64. rewrite !(proj2 (Z.ltb_lt _ _)) by lia. cbn [andb].
    f_equal; f_equal; lia.
  - cbn [andb]. rewrite Z.lxor_spec, Z.mod_pow2_bits_high by lia. rewrite (bits_above 8 b) by (done || lia). done.
Qed.

(** ** The loops compute the register *)

Lemma crc16_step_ok crc b :
  in_u 16 crc -> is_byte b -> crc16_step crc b = Some (reg_step 16 tab16 crc b).
Proof.
  intros Hc Hb. unfold crc16_step, reg_step. change (16 - 8) with 8. set (i := Z.lxor (Z.shiftr crc 8) b).
  assert (Hi : in_u 8 i).
  { apply lxor_range; [lia| |exact Hb]. unfold in_u in *. rewrite Z.shiftr_div_pow2 by lia.
    split; [apply Z.div_pos; lia|apply Z.div_lt_upper_bound; lia]. }
  assert (Z.land i 0xff = i) as ->. { change 0xff with (Z.ones 8). rewrite Z.land_ones by lia. by apply wrap_id. }
  assert (Hl : zlen crc16tab = 256) by reflexivity. unfold in_u in Hi.
  destruct (znth_is_Some crc16tab i) as [t Ht]; [rewrite Hl; lia|]. rewrite Ht. cbn [mbind option_bind].
  destruct (tab16_ok i ltac:(lia)) as [Hr _]. unfold tab16 in *. rewrite Ht in *. cbn [default from_option] in *.
  f_equal. unfold u16, wrap. apply Z.bits_inj'. intros n Hn. destruct (Z.ltb_spec n 16).
  - rewrite Z.mod_pow2_bits_low by lia. rewrite !Z.lxor_spec, Z.mod_pow2_bits_low by lia. apply xorb_comm.
  - rewrite Z.mod_pow2_bits_high by lia. rewrite Z.lxor_spec, Z.mod_pow2_bits_high by lia.
    by rewrite (bits_above 16 t) by (done || lia).
Qed.

Lemma crc64_step_ok crc b :
  in_u 64 crc -> is_byte b ->
  exists crc', crc64_step crc b = Some crc' /\ in_u 64 crc' /\
    bitrev 64 crc' = reg_step 64 tab64 (bitrev 64 crc) (bitrev 8 b).
Proof.
  intros Hc Hb. unfold crc64_step. set (i := Z.lxor (u8 crc) b).
  assert (Hi : in_u 8 i) by (apply lxor_range; [lia|apply wrap_range; lia|exact Hb]).
  assert (Hl : zlen crc64_tab = 256) by reflexivity. unfold in_u in Hi.
  destruct (znth_is_Some crc64_tab i) as [t Ht]; [rewrite Hl; lia|]. rewrite Ht. cbn [mbind option_bind].
  eexists. split; [done|]. split.
  - apply lxor_range; [lia| |].
    + assert (forallb (fun t => (0 <=? t) && (t <? 2 ^ 64)) crc64_tab = true) as Hall by (vm_compute; reflexivity).
      rewrite forallb_forall in Hall. pose proof Ht as Ht2. rewrite znth_nat in Ht2 by lia. apply list_elem_of_lookup_2, list_elem_of_In in Ht2.
      specialize (Hall t Ht2). rewrite andb_true_iff, Z.leb_le, Z.ltb_lt in Hall. exact Hall.
    + unfold in_u in *. rewrite Z.shiftr_div_pow2 by lia. split; [apply Z.div_pos; lia|apply Z.div_lt_upper_bound; lia].
  - rewrite bitrev_lxor, bitrev_shiftr by done. unfold reg_step. change (64 - 8) with 56. unfold tab64.
    rewrite bitrev_index by done. fold i. by rewrite Ht.
Qed.

Lemma reg16_range crc b : in_u 16 crc -> is_byte b -> in_u 16 (reg_step 16 tab16 crc b).
Proof.
  intros Hc Hb. pose proof (crc16_step_ok crc b Hc Hb) as H. unfold crc16_step in H.
  destruct (znth _ _); [|done]. cbn [mbind option_bind] in H. injection H as <-. apply wrap_range. lia.
Qed.

Lemma crc16_loop_ok l t crc :
  in_u 16 crc -> bytes l -> crc16_loop crc (l ++ t) (length l) = Some (foldl (reg_step 16 tab16) crc l).
Proof.
  intros Hc Hl. revert crc Hc. induction Hl as [|b l Hb Hl IH]; intros crc Hc; [done|].
  cbn [length app crc16_loop foldl]. rewrite crc16_step_ok by done. cbn [mbind option_bind].
  apply IH. by apply reg16_range.
Qed.

Lemma crc16_ok l t :
  bytes l -> exists r, crc16 (l ++ t) (zlen l) = Some r /\ is_rem poly16 16 (Z.shiftl (be_dec l) 16) r.
Proof.
  intros Hl. unfold crc16. rewrite to_nat_zlen, crc16_loop_ok by (done || (unfold in_u; lia)).
  eexists. split; [done|]. apply reg_fold_ok; [lia|apply tab16_ok|done].
Qed.

Lemma crc64_loop_ok l t crc :
  in_u 64 crc -> bytes l ->
  exists r, crc64_loop crc (l ++ t) (length l) = Some r /\ in_u 64 r /\
    bitrev 64 r = foldl (reg_step 64 tab64) (bitrev 64 crc) (map (bitrev 8) l).
Proof.
  intros Hc Hl. revert crc Hc. induction Hl as [|b l Hb Hl IH]; intros crc Hc; [by exists crc|].
  cbn [length app crc64_loop foldl map]. destruct (crc64_step_ok crc b Hc Hb) as (crc' & -> & Hc' & <-).
  cbn [mbind option_bind]. by apply IH.
Qed.

(** C33: [crc64] computes the Jones CRC.  Started from zero and continued over any
    number of pieces, its value, bits reversed, is the remainder of the message
    (bits of every byte reversed) times x^64 modulo the polynomial
    0xad93d23594c935a9, which determines it. *)
Theorem crc64_remainder a b :
  bytes a -> bytes b ->
  exists c r, crc64 0 a (zlen a) = Some c /\ crc64 c b (zlen b) = Some r /\ in_u 64 r /\
    is_rem poly64 64 (Z.shiftl (be_dec (map (bitrev 8) (a ++ b))) 64) (bitrev 64 r) /\
    forall r', is_rem poly64 64 (Z.shiftl (be_dec (map (bitrev 8) (a ++ b))) 64) r' -> r' = bitrev 64 r.
Proof.
  intros Ha Hb. unfold crc64. rewrite !to_nat_zlen.
  destruct (crc64_loop_ok a [] 0) as (c & Hc & Hcr & Hcb); [unfold in_u; lia|done|]. rewrite app_nil_r in Hc.
  destruct (crc64_loop_ok b [] c) as (r & Hr & Hrr & Hrb); [done..|]. rewrite app_nil_r in Hr.
  assert (Hrem : is_rem poly64 64 (Z.shiftl (be_dec (map (bitrev 8) (a ++ b))) 64) (bitrev 64 r)).
  { rewrite Hrb, Hcb. change (bitrev 64 0) with 0. rewrite <- foldl_app, <- map_app.
    apply reg_fold_ok; [lia|apply tab64_ok|]. apply Forall_fmap. apply Forall_true. intros x. apply (bitrev_range 8). }
  exists c, r. split_and!; try done; try apply Hrr. intros r' Hr'. eapply is_rem_unique; [| |exact Hr'|exact Hrem]; [lia|].
  by split; vm_compute.
Qed.

(** ** Key slots *)

(** The text before and after the first [c]. *)
Fixpoint split_first (c : Z) (l : list Z) : option (list Z * list Z) :=
  match l with
  | [] => None
  | x :: l => if x =? c then Some ([], l)
              else match split_first c l with Some (a, b) => Some (x :: a, b) | None => None end
  end.
(** The part of a key that is hashed: what stands between the first brace and the
    first closing brace after it, unless empty. *)
Definition hash_tag (key : list Z) : list Z :=
  match split_first 123 key with
  | Some (_, rest) => match split_first 125 rest with Some ((_ :: _) as t, _) => t | _ => key end
  | None => key
  end.

Lemma split_first_Some c l a b : split_first c l = Some (a, b) -> l = a ++ c :: b.
Proof.
  revert a. induction l as [|x l IH]; intros a; simpl; [done|].
  destruct (Z.eqb_spec x c) as [->|]; [by intros [= <- <-]|].
  destruct (split_first c l) as [[a' b']|]; [|done]. intros [= <- <-]. by rewrite (IH a').
Qed.

Lemma scan_for_ok fuel p l t c :
  (length l < fuel)%nat ->
  scan_for fuel (p ++ l ++ t) (zlen (p ++ l)) (zlen p) c =
    Some (match split_first c l with Some (a, _) => zlen (p ++ a) | None => zlen (p ++ l) end).
Proof.
  revert p l. induction fuel as [|fuel IH]; intros p l Hf; [lia|]. cbn [scan_for]. destruct l as [|x l].
  - rewrite app_nil_r, Z.ltb_irrefl. done.
  - pose proof (zlen_nonneg l). rewrite (proj2 (Z.ltb_lt _ _)) by (zlens; lia). cbn [app]. rewrite znth_middle.
    cbn [mbind option_bind split_first]. destruct (x =? c); [by rewrite app_nil_r|].
    replace (zlen p + 1) with (zlen (p ++ [x])) by (zlens; lia).
    replace (p ++ x :: l) with ((p ++ [x]) ++ l) by (by rewrite <- (assoc_L (++))).
    replace (p ++ x :: l ++ t) with ((p ++ [x]) ++ l ++ t) by (by rewrite <- (assoc_L (++))).
    rewrite IH by (simpl in Hf; lia). destruct (split_first c l) as [[a b]|]; [|done].
    by rewrite <- (assoc_L (++)).
Qed.

(** C31: [keyHashSlot] maps every key to one of the 16384 slots: the CRC-16 (XMODEM)
    remainder, modulo 16384, of the hash tag of the key, so that keys with the
    same tag share a slot. *)
Theorem keyHashSlot_correct key t :
  bytes key -> exists r, is_rem poly16 16 (Z.shiftl (be_dec (hash_tag key)) 16) r /\
    keyHashSlot (key ++ t) (zlen key) = Some (r mod 16384) /\ 0 <= r mod 16384 < 16384.
Proof.
  intros Hk. assert (Hand : forall r, Z.land r 0x3fff = r mod 16384) by (intros r; by apply (Z.land_ones r 14)).
  assert (Hwhole : exists r, is_rem poly16 16 (Z.shiftl (be_dec key) 16) r /\
    (h ← crc16 (key ++ t) (zlen key); Some (Z.land h 0x3fff)) = Some (r mod 16384) /\ 0 <= r mod 16384 < 16384).
  { destruct (crc16_ok key t Hk) as (r & -> & Hr). exists r. cbn [mbind option_bind]. rewrite Hand.
    split_and!; try done; apply Z.mod_pos_bound; lia. }
  unfold keyHashSlot, hash_tag. rewrite to_nat_zlen.
  pose proof (scan_for_ok (S (length key)) [] key t 123 ltac:(lia)) as Hs. cbn [app] in Hs.
  change (zlen []) with 0 in Hs. rewrite Hs. cbn [mbind option_bind].
  destruct (split_first 123 key) as [[a rest]|] eqn:Ea; [|by rewrite Z.eqb_refl].
  apply split_first_Some in Ea. assert (Hal : zlen a <> zlen key) by (rewrite Ea; zlens; pose proof (zlen_nonneg rest); lia).
  rewrite (proj2 (Z.eqb_neq _ _)) by done.
  assert (Hkey : key = (a ++ [123]) ++ rest) by (rewrite Ea; by rewrite <- (assoc_L (++))).
  assert (Hs2 : scan_for (S (length key)) (key ++ t) (zlen key) (zlen a + 1) 125 =
    Some (match split_first 125 rest with Some (x, _) => zlen ((a ++ [123]) ++ x) | None => zlen key end)).
  { pose proof (scan_for_ok (S (length key)) (a ++ [123]) rest t 125) as H.
    rewrite (assoc_L (++) (a ++ [123]) rest t), <- Hkey in H.
    replace (zlen a + 1) with (zlen (a ++ [123])) by (zlens; lia). apply H. rewrite Hkey, length_app. lia. }
  rewrite Hs2. cbn [mbind option_bind]. destruct (split_first 125 rest) as [[x rest2]|] eqn:Ex; [|by rewrite Z.eqb_refl].
  apply split_first_Some in Ex. destruct x as [|x0 x].
  { rewrite app_nil_r. replace (zlen (a ++ [123]) =? zlen a + 1) with true by (symmetry; apply Z.eqb_eq; zlens; lia).
    by rewrite orb_true_r. }
  rewrite (proj2 (Z.eqb_neq _ (zlen key))), (proj2 (Z.eqb_neq _ (zlen a + 1)));
    [|pose proof (zlen_nonneg x); zlens; lia|rewrite Hkey, Ex; zlens; pose proof (zlen_nonneg rest2); lia].
  cbn [orb]. replace (zlen a + 1) with (zlen (a ++ [123])) by (zlens; lia).
  assert (drop (Z.to_nat (zlen (a ++ [123]))) (key ++ t) = rest ++ t) as ->
    by (rewrite Hkey, <- (assoc_L (++) (a ++ [123])), to_nat_zlen; apply drop_app_length).
  replace (zlen ((a ++ [123]) ++ x0 :: x) - zlen a - 1) with (zlen (x0 :: x)) by (zlens; lia).
  rewrite Ex, <- (assoc_L (++)). assert (Hx : bytes (x0 :: x)).
  { unfold bytes in Hk. rewrite Hkey, Ex, !Forall_app in Hk. apply Hk. }
  destruct (crc16_ok (x0 :: x) ((125 :: rest2) ++ t) Hx) as (r & -> & Hr). exists r. cbn [mbind option_bind]. rewrite Hand.
  split_and!; try done; apply Z.mod_pos_bound; lia.
Qed.

(** ** Instances *)

Example crc16_check : crc16 (codes "123456789") 9 = Some 0x31c3.
Proof. reflexivity. Qed.
Example crc64_check : crc64 0 (codes "123456789") 9 = Some 0xe9c6d914c4b8d9ca.
Proof. reflexivity. Qed.

(** The check value of the specification belongs to the initial value 0, not to
    the Xor_In it lists. *)
Lemma crc64_xor_in : crc64 0xffffffffffffffff (codes "123456789") 9 <> Some 0xe9c6d914c4b8d9ca.
Proof. vm_compute. discriminate. Qed.

Lemma crc64_remainder_witness :
  exists c r, crc64 0 (codes "1234") 4 = Some c /\ crc64 c (codes "56789") 5 = Some r /\ in_u 64 r /\
    is_rem poly64 64 (Z.shiftl (be_dec (map (bitrev 8) (codes "1234" ++ codes "56789"))) 64) (bitrev 64 r) /\
    forall r', is_rem poly64 64 (Z.shiftl (be_dec (map (bitrev 8) (codes "1234" ++ codes "56789"))) 64) r' -> r' = bitrev 64 r.
Proof. apply (crc64_remainder (codes "1234") (codes "56789")); repeat constructor; by vm_compute. Defined.

Lemma keyHashSlot_correct_witness :
  exists r, is_rem poly16 16 (Z.shiftl (be_dec (codes "user1000")) 16) r /\
    keyHashSlot (codes "{user1000}.following" ++ [0]) 20 = Some (r mod 16384) /\ 0 <= r mod 16384 < 16384.
Proof. apply (keyHashSlot_correct (codes "{user1000}.following") [0]). repeat constructor; by vm_compute. Defined.
