(* ===== verification/Minheap.v ===== *)
(** * Minheap: the timer heap of libevent ([minheap-internal.h])

    The array of event pointers with its element count and capacity, and the
    events with their timeout and their index in the heap.  Pointers are keys of
    the event store; [None] is an access outside the array or to an event that
    does not exist.  Array slots that were never written hold arbitrary keys. *)
From Stdlib Require Import ZArith Lia Bool.
From stdpp Require Import base option list numbers gmap.
From S2P Require Import Prelude.
Open Scope Z_scope.

(** ** Data *)

Record timeval := mk_tv { tv_sec : Z; tv_usec : Z }.
Record event := mk_event { ev_timeout : timeval; min_heap_idx : Z }.
Record min_heap := mk_heap { p : list Z; n : Z; a : Z }.
Record state := mk_state { hp : min_heap; evs : gmap Z event }.

(** [evutil_timercmp] with [>]. *)
Definition timer_greater (t u : timeval) : bool :=
  if tv_sec t =? tv_sec u then tv_usec u <? tv_usec t else tv_sec u <? tv_sec t.

Section Minheap.
Variable junk : nat -> Z.

Definition slot (st : state) (i : Z) : option Z := znth (p (hp st)) i.
Definition min_heap_elem_greater (st : state) (x y : Z) : option bool :=
  ex ← evs st !! x;
  ey ← evs st !! y;
  Some (timer_greater (ev_timeout ex) (ev_timeout ey)).

Definition set_idx (st : state) (e i : Z) : option state :=
  ev ← evs st !! e;
  Some (mk_state (hp st) (<[e := mk_event (ev_timeout ev) (i32 i)]> (evs st))).
(** [(s->p[hole] = e)->ev_timeout_pos.min_heap_idx = hole]. *)
Definition place (st : state) (hole e : Z) : option state :=
  arr ← zset (p (hp st)) hole e;
  set_idx (mk_state (mk_heap arr (n (hp st)) (a (hp st))) (evs st)) e hole.
Definition set_n (st : state) (k : Z) : state :=
  mk_state (mk_heap (p (hp st)) (u32 k) (a (hp st))) (evs st).

(** ** Operations *)

Definition min_heap_ctor_ : min_heap := mk_heap [] 0 0.
Definition min_heap_elem_init_ (st : state) (e : Z) : option state := set_idx st e (-1).
Definition min_heap_empty_ (st : state) : bool := 0 =? n (hp st).
Definition min_heap_size_ (st : state) : Z := n (hp st).
(** [None] in the result is the NULL pointer. *)
Definition min_heap_top_ (st : state) : option (option Z) :=
  if n (hp st) =? 0 then Some None else x ← slot st 0; Some (Some x).
Definition min_heap_elt_is_top_ (st : state) (e : Z) : option bool :=
  ev ← evs st !! e; Some (min_heap_idx ev =? 0).

Definition parent_of (hole : Z) : Z := u32 (hole - 1) / 2.

Fixpoint min_heap_shift_up_ (fuel : nat) (st : state) (hole e : Z) : option state :=
  match fuel with
  | O => None
  | S fuel =>
      up ← (if hole =? 0 then Some None
            else
              x ← slot st (parent_of hole);
              g ← min_heap_elem_greater st x e;
              Some (if (g : bool) then Some x else None));
      match up with
      | Some x => st ← place st hole x; min_heap_shift_up_ fuel st (parent_of hole) e
      | None => place st hole e
      end
  end.

(** The do-while loop: one step without test, then the loop above. *)
Definition min_heap_shift_up_unconditional_ (fuel : nat) (st : state) (hole e : Z) : option state :=
  x ← slot st (parent_of hole);
  st ← place st hole x;
  min_heap_shift_up_ fuel st (parent_of hole) e.

Fixpoint min_heap_shift_down_ (fuel : nat) (st : state) (hole e : Z) : option state :=
  match fuel with
  | O => None
  | S fuel =>
      let min_child := u32 (2 * (hole + 1)) in
      if min_child <=? n (hp st) then
        dec ← (if min_child =? n (hp st) then Some true
               else
                 x ← slot st min_child;
                 y ← slot st (min_child - 1);
                 min_heap_elem_greater st x y);
        let min_child := if (dec : bool) then min_child - 1 else min_child in
        x ← slot st min_child;
        g ← min_heap_elem_greater st e x;
        if (g : bool) then st ← place st hole x; min_heap_shift_down_ fuel st min_child e
        else place st hole e
      else place st hole e
  end.

(** [ok] tells whether [mm_realloc] succeeds. *)
Definition min_heap_reserve_ (ok : bool) (st : state) (k : Z) : state * Z :=
  let s := hp st in
  if a s <? k then
    let cap := if a s =? 0 then 8 else u32 (a s * 2) in
    let cap := if cap <? k then k else cap in
    if ok then
      let arr := take (Z.to_nat cap) (p s) ++ map junk (seq 0 (Z.to_nat (cap - zlen (p s)))) in
      (mk_state (mk_heap arr (n s) cap) (evs st), 0)
    else (st, -1)
  else (st, 0).

(** Enough for any path in the heap. *)
Definition fuel_of (st : state) : nat := S (Z.to_nat (n (hp st))).

Definition min_heap_push_ (ok : bool) (st : state) (e : Z) : option (state * Z) :=
  let '(st, r) := min_heap_reserve_ ok st (u32 (n (hp st) + 1)) in
  if negb (r =? 0) then Some (st, -1)
  else
    let hole := n (hp st) in
    st ← min_heap_shift_up_ (fuel_of st) (set_n st (n (hp st) + 1)) hole e;
    Some (st, 0).

Definition min_heap_pop_ (st : state) : option (state * option Z) :=
  if negb (n (hp st) =? 0) then
    e ← slot st 0;
    let st := set_n st (n (hp st) - 1) in
    last ← slot st (n (hp st));
    st ← min_heap_shift_down_ (fuel_of st) st 0 last;
    st ← set_idx st e (-1);
    Some (st, Some e)
  else Some (st, None).

(** The index is an [int]: the division truncates. *)
Definition parent_idx (idx : Z) : Z := Z.quot (idx - 1) 2.

Definition min_heap_erase_ (st : state) (e : Z) : option (state * Z) :=
  ev ← evs st !! e;
  let idx := min_heap_idx ev in
  if negb (-1 =? idx) then
    let st := set_n st (n (hp st) - 1) in
    last ← slot st (n (hp st));
    up ← (if 0 <? idx then x ← slot st (parent_idx idx); min_heap_elem_greater st x last else Some false);
    st ← (if (up : bool) then min_heap_shift_up_unconditional_ (fuel_of st) st idx last
          else min_heap_shift_down_ (fuel_of st) st idx last);
    st ← set_idx st e (-1);
    Some (st, 0)
  else Some (st, -1).

Definition min_heap_adjust_ (ok : bool) (st : state) (e : Z) : option (state * Z) :=
  ev ← evs st !! e;
  let idx := min_heap_idx ev in
  if -1 =? idx then min_heap_push_ ok st e
  else
    up ← (if 0 <? idx then x ← slot st (parent_idx idx); min_heap_elem_greater st x e else Some false);
    st ← (if (up : bool) then min_heap_shift_up_unconditional_ (fuel_of st) st idx e
          else min_heap_shift_down_ (fuel_of st) st idx e);
    Some (st, 0).
End Minheap.

(** ** Heap order, on functions from positions to keys *)

Definition par (i : Z) : Z := (i - 1) / 2.
Definition upd (f : Z -> Z) (i v : Z) : Z -> Z := fun j => if j =? i then v else f j.

Lemma upd_eq f i v : upd f i v i = v.
Proof. unfold upd. by rewrite Z.eqb_refl. Qed.
Lemma upd_ne f i v j : j <> i -> upd f i v j = f j.
Proof. intros. unfold upd. by rewrite (proj2 (Z.eqb_neq j i)). Qed.

Lemma par_range i : 0 < i -> 0 <= par i < i.
Proof. intros. unfold par. pose proof (Z.div_mod (i - 1) 2). pose proof (Z.mod_pos_bound (i - 1) 2). lia. Qed.
Lemma par_child c h : 0 <= h -> 0 < c -> par c = h <-> c = 2 * h + 1 \/ c = 2 * h + 2.
Proof. intros. unfold par. pose proof (Z.div_mod (c - 1) 2). pose proof (Z.mod_pos_bound (c - 1) 2). lia. Qed.

Section Order.
(** [le x y]: event [x] is not later than [y]. *)
Variable le : Z -> Z -> Prop.
Hypothesis le_refl : forall x, le x x.
Hypothesis le_trans : forall x y z, le x y -> le y z -> le x z.

Definition heap (k : Z) (f : Z -> Z) : Prop := forall i, 0 < i < k -> le (f (par i)) (f i).

(** The children of [h] are not before the parent of [h]. *)
Definition skip (k h : Z) (f : Z -> Z) : Prop :=
  forall c, 0 < c < k -> par c = h -> 0 < h -> le (f (par h)) (f c).
(** In order except between [h] and its parent. *)
Definition upok (k h : Z) (f : Z -> Z) : Prop :=
  (forall i, 0 < i < k -> i <> h -> le (f (par i)) (f i)) /\ skip k h f.
(** In order except between [h] and its children. *)
Definition downok (k h : Z) (f : Z -> Z) : Prop :=
  (forall i, 0 < i < k -> par i <> h -> le (f (par i)) (f i)) /\ skip k h f.

(** Moving the element at [h] to [h'], and the one at [h'] to [h]. *)
Definition swap (f : Z -> Z) (h h' : Z) : Z -> Z := upd (upd f h (f h')) h' (f h).

Ltac upds := unfold swap, upd in *;
  repeat match goal with
  | |- context [?x =? ?y] => destruct (Z.eqb_spec x y); try lia
  | H : context [?x =? ?y] |- _ => destruct (Z.eqb_spec x y); try lia
  end.

Lemma up_step k h f :
  0 < h < k -> upok k h f -> le (f h) (f (par h)) -> upok k (par h) (swap f h (par h)).
Proof.
  intros Hh [Hi Hs] Hle. pose proof (par_range h ltac:(lia)) as Hp. split.
  - intros i Hik Hne. pose proof (par_range i ltac:(lia)) as Hpi. upds; subst; auto; try (apply Hs; lia); try (apply Hi; lia).
    all: apply le_trans with (f (par h)); [done|]; replace (par h) with (par i) by lia; apply Hi; lia.
  - intros c Hc Hpc Hp0. pose proof (par_range (par h) Hp0). upds; subst; try lia; try (apply Hi; lia).
    apply le_trans with (f (par h)); [apply Hi; lia|]. rewrite <- Hpc. apply Hi; lia.
Qed.

Lemma up_done k h f : upok k h f -> (0 < h -> le (f (par h)) (f h)) -> heap k f.
Proof.
  intros [Hi _] Hh i Hik. destruct (Z.eq_dec i h) as [->|]; [apply Hh; lia|by apply Hi].
Qed.

Lemma down_step k h c f :
  0 <= h -> 0 < c < k -> par c = h -> downok k h f -> le (f c) (f h) ->
  (forall c', 0 < c' < k -> par c' = h -> le (f c) (f c')) -> downok k c (swap f h c).
Proof.
  intros Hh Hc Hpc [Hi Hs] Hle Hmin. pose proof (par_range c ltac:(lia)). split.
  - intros i Hik Hne. pose proof (par_range i ltac:(lia)) as Hpi. upds; subst; auto.
    all: try (apply Hmin; lia).
    all: try (apply Hs; lia).
    all: try (apply Hi; lia).
  - intros c' Hc' Hpc' Hc0. pose proof (par_range c' ltac:(lia)). upds; subst; auto.
    all: try (apply Hi; lia).
Qed.

Lemma down_done k h f :
  downok k h f -> (forall c, 0 < c < k -> par c = h -> le (f h) (f c)) -> heap k f.
Proof.
  intros [Hi _] Hc i Hik. destruct (Z.eq_dec (par i) h) as [E|]; [rewrite E; by apply Hc|by apply Hi].
Qed.

(** In order around [h]. *)
Definition around (k h : Z) (f : Z -> Z) : Prop :=
  (forall i, 0 < i < k -> i <> h -> par i <> h -> le (f (par i)) (f i)) /\ skip k h f.

Lemma heap_around k h f : heap k f -> around k h f.
Proof.
  intros Hf. split; [intros i Hik _ _; by apply Hf|]. intros c Hc Hpc H0. pose proof (par_range c ltac:(lia)).
  apply le_trans with (f h); [apply Hf; lia|]. rewrite <- Hpc. by apply Hf.
Qed.

(** An element put at [h] can need to move in one direction only. *)
Lemma around_up k h f v :
  around k h f -> 0 < h < k -> le v (f (par h)) -> upok k h (upd f h v).
Proof.
  intros [Hi Hs] Hh Hv. pose proof (par_range h ltac:(lia)). split.
  - intros i Hik Hne. pose proof (par_range i ltac:(lia)). upds.
    + apply le_trans with (f (par h)); [done|]. apply Hs; lia.
    + apply Hi; lia.
  - intros c Hc Hpc H0. pose proof (par_range c ltac:(lia)). upds. by apply Hs.
Qed.
Lemma around_down k h f v :
  around k h f -> 0 <= h -> (0 < h -> le (f (par h)) v) -> downok k h (upd f h v).
Proof.
  intros [Hi Hs] Hh Hv. split.
  - intros i Hik Hne. pose proof (par_range i ltac:(lia)). upds; subst; [apply Hv; lia|apply Hi; lia].
  - intros c Hc Hpc H0. pose proof (par_range c ltac:(lia)). pose proof (par_range h H0). upds. by apply Hs.
Qed.
(** The first element of a heap is the smallest. *)
Lemma heap_top k f i : heap k f -> 0 <= i < k -> le (f 0) (f i).
Proof.
  intros Hf [H0 Hi]. revert Hi. pattern i. apply Zlt_0_ind; [|done]. clear i H0. intros i IH H0 Hi.
  destruct (Z.eq_dec i 0) as [->|]; [done|]. pose proof (par_range i ltac:(lia)).
  apply le_trans with (f (par i)); [apply IH; lia|apply Hf; lia].
Qed.

Lemma heap_ext k f g : (forall i, 0 <= i < k -> f i = g i) -> heap k f -> heap k g.
Proof.
  intros He Hf i Hi. pose proof (par_range i ltac:(lia)). rewrite <- !He by lia. by apply Hf.
Qed.
End Order.

(** [around] does not look at the element at [h]. *)
Lemma around_le (le le' : Z -> Z -> Prop) k h f :
  (forall i j, 0 <= i < k -> 0 <= j < k -> i <> h -> j <> h -> le (f i) (f j) -> le' (f i) (f j)) ->
  h < k -> around le k h f -> around le' k h f.
Proof.
  intros Hle Hh [Hi Hs]. split.
  - intros i Hik Hne Hpn. pose proof (par_range i ltac:(lia)). apply Hle; try lia. by apply Hi.
  - intros c Hc Hpc H0. pose proof (par_range c ltac:(lia)). pose proof (par_range h H0). apply Hle; try lia. by apply Hs.
Qed.

(** ** The loops *)

Definition at_ (st : state) (i : Z) : Z := default 0 (slot st i).
(** The timeouts of the events; the loops change only indexes. *)
Definition tm (st : state) : gmap Z timeval := ev_timeout <$> evs st.
Definition live (st : state) (x : Z) : Prop := is_Some (evs st !! x).
Definition gt (M : gmap Z timeval) (x y : Z) : bool :=
  timer_greater (default (mk_tv 0 0) (M !! x)) (default (mk_tv 0 0) (M !! y)).
Definition le (M : gmap Z timeval) (x y : Z) : Prop := gt M x y = false.

Ltac timers := unfold le, gt, timer_greater in *;
  repeat match goal with
  | |- context [?x =? ?y] => destruct (Z.eqb_spec x y)
  | H : context [?x =? ?y] |- _ => destruct (Z.eqb_spec x y)
  end; rewrite ?Z.ltb_lt, ?Z.ltb_ge in *; try lia.

Lemma le_refl M x : le M x x.
Proof. timers. Qed.
Lemma le_trans M x y z : le M x y -> le M y z -> le M x z.
Proof. intros. timers. Qed.
Lemma gt_le M x y : gt M x y = true -> le M y x.
Proof. intros. timers. Qed.

Lemma live_tm st x : live st x <-> is_Some (tm st !! x).
Proof. unfold live, tm. rewrite lookup_fmap. by rewrite fmap_is_Some. Qed.

Lemma greater_ok st x y : live st x -> live st y -> min_heap_elem_greater st x y = Some (gt (tm st) x y).
Proof.
  intros [ex Hx] [ey Hy]. unfold min_heap_elem_greater, gt, tm. rewrite !lookup_fmap, Hx, Hy. done.
Qed.

Lemma slot_at st i : 0 <= i < zlen (p (hp st)) -> slot st i = Some (at_ st i).
Proof. intros Hi. unfold at_, slot. by destruct (znth_is_Some _ _ Hi) as [x ->]. Qed.

Definition idx_ok (st : state) (i : Z) : Prop :=
  exists ev, evs st !! at_ st i = Some ev /\ min_heap_idx ev = i.

(** The heap while a loop runs: the slot [h] is to be overwritten and [e] is to be
    placed. *)
Record hole_inv (k : Z) (st : state) (h e : Z) : Prop := {
  hole_range : 0 <= h < zlen (p (hp st));
  hole_size : 0 <= k <= zlen (p (hp st)) /\ zlen (p (hp st)) < 2 ^ 31;
  hole_live : live st e;
  hole_idx : forall i, 0 <= i < k -> i <> h -> idx_ok st i /\ at_ st i <> e }.

Definition same_shape (s t : state) : Prop :=
  zlen (p (hp s)) = zlen (p (hp t)) /\ n (hp s) = n (hp t) /\ a (hp s) = a (hp t) /\ tm s = tm t.

Lemma idx_live st i : idx_ok st i -> live st (at_ st i).
Proof. intros (ev & Hev & _). by exists ev. Qed.
Lemma idx_inj st i j : idx_ok st i -> idx_ok st j -> at_ st i = at_ st j -> i = j.
Proof. intros (ev & Hi & <-) (ev' & Hj & <-) E. rewrite E in Hi. congruence. Qed.

Lemma i32_small i : 0 <= i < 2 ^ 31 -> i32 i = i.
Proof. intros. unfold i32. apply swrap_id; [lia|]. unfold in_s. change (2 ^ (32 - 1)) with (2 ^ 31). lia. Qed.

(** Storing an event in a slot. *)
Lemma place_ok st h x :
  0 <= h < zlen (p (hp st)) -> zlen (p (hp st)) < 2 ^ 31 -> live st x ->
  exists st', place st h x = Some st' /\ same_shape st' st /\
    (forall i, 0 <= i < zlen (p (hp st)) -> at_ st' i = upd (at_ st) h x i) /\
    (exists ev, evs st' !! x = Some ev /\ min_heap_idx ev = h) /\
    (forall y, y <> x -> evs st' !! y = evs st !! y).
Proof.
  intros Hh Hmax [ev Hev]. unfold place, set_idx. rewrite zset_Some by done. cbn [mbind option_bind evs hp].
  rewrite Hev. cbn [mbind option_bind]. eexists. split; [done|]. split_and!; cbn [hp p n a evs].
  - split_and!; cbn [hp p n a]; [by zlens|done|done|]. unfold tm. cbn [evs]. rewrite fmap_insert. cbn [ev_timeout].
    apply insert_id. rewrite lookup_fmap, Hev. done.
  - intros i Hi. unfold at_, slot, upd. cbn [hp p]. rewrite znth_nat by lia. destruct (Z.eqb_spec i h) as [->|Hne].
    + rewrite list_lookup_insert_eq by (unfold zlen in Hi; lia). done.
    + rewrite list_lookup_insert_ne by lia. by rewrite znth_nat by lia.
  - eexists. rewrite lookup_insert_eq. split; [done|]. cbn [min_heap_idx]. apply i32_small. lia.
  - intros y Hy. by rewrite lookup_insert_ne.
Qed.

(** Moving the element of slot [j] into the hole makes [j] the hole. *)
Lemma move_ok k st h e j :
  hole_inv k st h e -> 0 <= j < k -> j <> h ->
  exists st', place st h (at_ st j) = Some st' /\ same_shape st' st /\ hole_inv k st' j e /\
    (forall i, 0 <= i < zlen (p (hp st)) -> at_ st' i = upd (at_ st) h (at_ st j) i) /\
    (forall y, y <> at_ st j -> evs st' !! y = evs st !! y).
Proof.
  intros [Hr [Hk Hmax] He Hidx] Hj Hne. destruct (Hidx j Hj Hne) as [Hij Hje].
  destruct (place_ok st h (at_ st j) Hr Hmax (idx_live _ _ Hij)) as (st' & Hp & Hsh & Hat & Hx & Hev).
  exists st'. split_and!; try done. destruct Hsh as (Hl & Hn & Ha & Ht). split.
  - lia.
  - lia.
  - apply live_tm. rewrite Ht. by apply live_tm.
  - intros i Hi Hnj. rewrite Hat by lia. unfold upd. destruct (Z.eqb_spec i h) as [->|Hnh].
    + split; [|done]. unfold idx_ok. rewrite Hat, upd_eq by lia. exact Hx.
    + destruct (Hidx i Hi Hnh) as [Hii Hie]. split; [|done]. unfold idx_ok. rewrite Hat by lia. rewrite upd_ne by done.
      rewrite Hev; [exact Hii|]. intros E. apply Hnj. by apply (idx_inj st).
Qed.

Definition members (k : Z) (f : Z -> Z) (x : Z) : Prop := exists i, 0 <= i < k /\ f i = x.

(** What the loops establish: a heap of the same events, each with its index. *)
Record settled (k : Z) (st st' : state) (e : Z) (v : Z -> Z) : Prop := {
  settled_heap : heap (le (tm st)) k (at_ st');
  settled_members : forall x, members k (at_ st') x <-> members k v x;
  settled_idx : forall i, 0 <= i < k -> idx_ok st' i;
  settled_frame : forall x, ~ members k v x -> x <> e -> evs st' !! x = evs st !! x;
  settled_shape : same_shape st' st }.

Lemma members_ext k f g : (forall i, 0 <= i < k -> f i = g i) -> forall x, members k f x <-> members k g x.
Proof. intros He x. split; intros (i & Hi & <-); exists i; by rewrite ?He. Qed.

Lemma members_swap k f h j x : 0 <= h < k -> 0 <= j < k -> members k (swap f h j) x <-> members k f x.
Proof.
  intros Hh Hj. unfold swap. split; intros (i & Hi & <-).
  - unfold upd. destruct (Z.eqb_spec i j); [by exists h|]. destruct (Z.eqb_spec i h); [by exists j|by exists i].
  - destruct (Z.eq_dec i h) as [->|]; [exists j; by rewrite upd_eq|].
    destruct (Z.eq_dec i j) as [->|]; [|exists i; by rewrite !upd_ne].
    exists h. split; [done|]. rewrite upd_ne by done. by rewrite upd_eq.
Qed.

Lemma swap_view st st' h j e k :
  (forall i, 0 <= i < zlen (p (hp st)) -> at_ st' i = upd (at_ st) h (at_ st j) i) -> j <> h -> k <= zlen (p (hp st)) ->
  forall i, 0 <= i < k -> upd (at_ st') j e i = swap (upd (at_ st) h e) h j i.
Proof.
  intros Hat Hne Hk i Hi. unfold swap. rewrite upd_eq, (upd_ne _ h e j) by done. unfold upd at 1 2.
  destruct (Z.eqb_spec i j); [done|]. rewrite Hat by lia. unfold upd. by destruct (i =? h).
Qed.

(** Placing [e] in its final slot. *)
Lemma settle k st h e :
  hole_inv k st h e -> heap (le (tm st)) k (upd (at_ st) h e) ->
  exists st', place st h e = Some st' /\ settled k st st' e (upd (at_ st) h e).
Proof.
  intros [Hr [Hk Hmax] He Hidx] Hheap.
  destruct (place_ok st h e Hr Hmax He) as (st' & Hp & Hsh & Hat & Hx & Hev).
  assert (Heq : forall i, 0 <= i < k -> upd (at_ st) h e i = at_ st' i) by (intros i Hi; by rewrite Hat by lia).
  exists st'. split; [done|]. split.
  - by apply (heap_ext _ _ _ _ Heq).
  - intros x. symmetry. by apply members_ext.
  - intros i Hi. unfold idx_ok. rewrite Hat by lia. unfold upd. destruct (Z.eqb_spec i h) as [->|Hne]; [exact Hx|].
    destruct (Hidx i Hi Hne) as [Hii Hie]. rewrite Hev by done. exact Hii.
  - intros x _ Hxe. by apply Hev.
  - done.
Qed.

(** Composing a move with the rest of the loop. *)
Lemma settled_step k st st1 st' h j e :
  same_shape st1 st -> settled k st1 st' e (upd (at_ st1) j e) -> 0 <= h < k -> 0 <= j < k -> j <> h ->
  k <= zlen (p (hp st)) ->
  (forall i, 0 <= i < zlen (p (hp st)) -> at_ st1 i = upd (at_ st) h (at_ st j) i) ->
  (forall y, y <> at_ st j -> evs st1 !! y = evs st !! y) ->
  settled k st st' e (upd (at_ st) h e).
Proof.
  intros Hsh [Hh Hm Hi Hf Hs] Hhk Hjk Hne Hkl Hat Hev.
  assert (Hmem : forall x, members k (upd (at_ st1) j e) x <-> members k (upd (at_ st) h e) x).
  { intros x. rewrite (members_ext _ _ _ (swap_view st st1 h j e k Hat Hne Hkl)). by apply members_swap. }
  destruct Hsh as (Hl & Hn & Ha & Ht). split.
  - by rewrite <- Ht.
  - intros x. rewrite Hm. apply Hmem.
  - done.
  - intros x Hx Hxe. rewrite Hf; [|by rewrite Hmem|done]. apply Hev. intros ->. apply Hx. exists j.
    split; [done|]. by rewrite upd_ne.
  - destruct Hs as (? & ? & ? & ?). split_and!; congruence.
Qed.

Lemma parent_of_par h : 0 < h < 2 ^ 32 -> parent_of h = par h.
Proof. intros Hh. unfold parent_of, par, u32. by rewrite wrap_id by (unfold in_u; lia). Qed.

Lemma upok_ext M k h f g : 0 <= h -> (forall i, 0 <= i < k -> f i = g i) -> upok (le M) k h f -> upok (le M) k h g.
Proof.
  intros Hh He [Hi Hs]. split.
  - intros i Hik Hne. pose proof (par_range i ltac:(lia)). rewrite <- !He by lia. by apply Hi.
  - intros c Hc Hpc H0. pose proof (par_range c ltac:(lia)). pose proof (par_range h H0). rewrite <- !He by lia. by apply Hs.
Qed.
Lemma downok_ext M k h f g : 0 <= h -> (forall i, 0 <= i < k -> f i = g i) -> downok (le M) k h f -> downok (le M) k h g.
Proof.
  intros Hh He [Hi Hs]. split.
  - intros i Hik Hne. pose proof (par_range i ltac:(lia)). rewrite <- !He by lia. by apply Hi.
  - intros c Hc Hpc H0. pose proof (par_range c ltac:(lia)). pose proof (par_range h H0). rewrite <- !He by lia. by apply Hs.
Qed.

Lemma shift_up_ok fuel k st h e :
  hole_inv k st h e -> 0 <= h < k -> upok (le (tm st)) k h (upd (at_ st) h e) -> (Z.to_nat h < fuel)%nat ->
  exists st', min_heap_shift_up_ fuel st h e = Some st' /\ settled k st st' e (upd (at_ st) h e).
Proof.
  revert st h. induction fuel as [|fuel IH]; intros st h Hinv Hh Hup Hf; [lia|]. cbn [min_heap_shift_up_].
  pose proof Hinv as [Hr [Hk Hmax] He Hidx]. destruct (Z.eqb_spec h 0) as [->|H0].
  - cbn [mbind option_bind]. apply settle; [done|]. apply (up_done _ _ 0 _ Hup). lia.
  - rewrite parent_of_par by lia. pose proof (par_range h ltac:(lia)) as Hp.
    rewrite slot_at by lia. cbn [mbind option_bind]. destruct (Hidx (par h) ltac:(lia) ltac:(lia)) as [Hip Hpe].
    rewrite greater_ok by (done || by apply idx_live). cbn [mbind option_bind].
    destruct (gt (tm st) (at_ st (par h)) e) eqn:Hg.
    + destruct (move_ok k st h e (par h) Hinv) as (st1 & -> & Hsh & Hinv1 & Hat & Hev); [lia..|]. cbn [mbind option_bind].
      destruct (IH st1 (par h) Hinv1) as (st' & Hs & Hset); [lia| |lia|].
      * destruct Hsh as (_ & _ & _ & ->). eapply upok_ext; [lia| |].
        { intros i Hi. symmetry. by apply (swap_view st st1 h (par h) e k Hat); [lia|lia|]. }
        apply (up_step _ (le_refl _) (le_trans _)); [lia|done|]. rewrite upd_eq, upd_ne by lia. by apply gt_le.
      * exists st'. split; [done|]. by apply (settled_step k st st1 st' h (par h) e); try done; lia.
    + apply settle; [done|]. apply (up_done _ _ h _ Hup). intros _. rewrite upd_eq, upd_ne by lia. exact Hg.
Qed.

Lemma shift_up_unconditional_ok fuel k st h e :
  hole_inv k st h e -> 0 < h < k -> upok (le (tm st)) k h (upd (at_ st) h e) -> (Z.to_nat h < fuel)%nat ->
  le (tm st) e (at_ st (par h)) ->
  exists st', min_heap_shift_up_unconditional_ fuel st h e = Some st' /\ settled k st st' e (upd (at_ st) h e).
Proof.
  intros Hinv Hh Hup Hf Hle. pose proof Hinv as [Hr [Hk Hmax] He Hidx]. unfold min_heap_shift_up_unconditional_.
  rewrite parent_of_par by lia. pose proof (par_range h ltac:(lia)) as Hp. rewrite slot_at by lia. cbn [mbind option_bind].
  destruct (move_ok k st h e (par h) Hinv) as (st1 & -> & Hsh & Hinv1 & Hat & Hev); [lia..|]. cbn [mbind option_bind].
  destruct (shift_up_ok fuel k st1 (par h) e Hinv1) as (st' & Hs & Hset); [lia| |lia|].
  - destruct Hsh as (_ & _ & _ & ->). eapply upok_ext; [lia| |].
    { intros i Hi. symmetry. by apply (swap_view st st1 h (par h) e k Hat); [lia|lia|]. }
    apply (up_step _ (le_refl _) (le_trans _)); [lia|done|]. by rewrite upd_eq, upd_ne by lia.
  - exists st'. split; [done|]. by apply (settled_step k st st1 st' h (par h) e); try done; lia.
Qed.

(** The smaller child of [h]. *)
Lemma min_child_ok k st h e :
  hole_inv k st h e -> n (hp st) = k -> 2 * (h + 1) <= k ->
  exists c, (dec ← (if 2 * (h + 1) =? k then Some true
           else x ← slot st (2 * (h + 1)); y ← slot st (2 * (h + 1) - 1); min_heap_elem_greater st x y);
      Some (if (dec : bool) then 2 * (h + 1) - 1 else 2 * (h + 1))) = Some c /\
    0 < c < k /\ par c = h /\
    forall c', 0 < c' < k -> par c' = h -> le (tm st) (at_ st c) (at_ st c').
Proof.
  intros [Hr [Hk Hmax] He Hidx] Hn Hle. assert (Hc1 : par (2 * (h + 1) - 1) = h) by (apply par_child; lia).
  destruct (Z.eqb_spec (2 * (h + 1)) k) as [E|Hne].
  - exists (2 * (h + 1) - 1). split_and!; [done|lia|lia|done|]. intros c' Hc' Hp'. apply par_child in Hp'; [|lia..].
    assert (c' = 2 * (h + 1) - 1) as -> by lia. apply le_refl.
  - assert (Hc2 : par (2 * (h + 1)) = h) by (apply par_child; lia).
    destruct (Hidx (2 * (h + 1)) ltac:(lia) ltac:(lia)) as [Hi2 _].
    destruct (Hidx (2 * (h + 1) - 1) ltac:(lia) ltac:(lia)) as [Hi1 _].
    rewrite !slot_at by lia. cbn [mbind option_bind]. rewrite greater_ok by (by apply idx_live). cbn [mbind option_bind].
    destruct (gt (tm st) (at_ st (2 * (h + 1))) (at_ st (2 * (h + 1) - 1))) eqn:Hg; eexists; (split; [done|]);
      (split_and!; [lia|lia|done|]); intros c' Hc' Hp';
      (assert (c' = 2 * h + 1 \/ c' = 2 * h + 2) as [-> | ->] by (apply par_child; done || lia)).
    + replace (2 * h + 1) with (2 * (h + 1) - 1) by lia. apply le_refl.
    + replace (2 * h + 2) with (2 * (h + 1)) by lia. by apply gt_le.
    + replace (2 * h + 1) with (2 * (h + 1) - 1) by lia. exact Hg.
    + replace (2 * h + 2) with (2 * (h + 1)) by lia. apply le_refl.
Qed.

Lemma shift_down_ok fuel k st h e :
  hole_inv k st h e -> n (hp st) = k -> downok (le (tm st)) k h (upd (at_ st) h e) -> (Z.to_nat (k - h) < fuel)%nat ->
  exists st', min_heap_shift_down_ fuel st h e = Some st' /\ settled k st st' e (upd (at_ st) h e).
Proof.
  revert st h. induction fuel as [|fuel IH]; intros st h Hinv Hn Hdown Hf; [lia|]. cbn [min_heap_shift_down_].
  pose proof Hinv as [Hr [Hk Hmax] He Hidx]. unfold u32. rewrite wrap_id by (unfold in_u; lia). rewrite Hn.
  destruct (Z.leb_spec (2 * (h + 1)) k) as [Hle|Hgt].
  - destruct (min_child_ok k st h e Hinv Hn Hle) as (c & Hsel & Hc & Hpc & Hmin).
    pose proof (par_range c ltac:(lia)) as Hpr.
    match type of Hsel with (?m ≫= _) = _ => destruct m as [dec|]; [|done] end. cbn [mbind option_bind] in Hsel |- *.
    injection Hsel as ->. rewrite slot_at by lia. cbn [mbind option_bind].
    destruct (Hidx c ltac:(lia) ltac:(lia)) as [Hic Hce].
    rewrite greater_ok by (done || by apply idx_live). cbn [mbind option_bind].
    destruct (gt (tm st) e (at_ st c)) eqn:Hg.
    + destruct (move_ok k st h e c Hinv) as (st1 & -> & Hsh & Hinv1 & Hat & Hev); [lia..|]. cbn [mbind option_bind].
      destruct (IH st1 c Hinv1) as (st' & Hs & Hset); [by destruct Hsh as (_ & -> & _)| |lia|].
      * destruct Hsh as (_ & _ & _ & ->). eapply downok_ext; [lia| |].
        { intros i Hi. symmetry. by apply (swap_view st st1 h c e k Hat); [lia|lia|]. }
        apply (down_step _ (le_refl _)); try done; try lia.
        { rewrite upd_eq, upd_ne by lia. by apply gt_le. }
        intros c' Hc' Hp'. pose proof (par_range c' ltac:(lia)). rewrite !upd_ne by lia. by apply Hmin.
      * exists st'. split; [done|]. by apply (settled_step k st st1 st' h c e); try done; lia.
    + apply settle; [done|]. apply (down_done _ _ h _ Hdown). intros c' Hc' Hp'.
      pose proof (par_range c' ltac:(lia)). rewrite upd_eq, upd_ne by lia.
      apply (le_trans _ _ (at_ st c)); [exact Hg|by apply Hmin].
  - apply settle; [done|]. apply (down_done _ _ h _ Hdown). intros c' Hc' Hp'. apply par_child in Hp'; lia.
Qed.

(** ** The operations *)

(** The invariant: the first [n] slots hold events that know their index, in heap
    order; every other event has the index -1. *)
Record wf (st : state) : Prop := {
  wf_size : 0 <= n (hp st) <= zlen (p (hp st));
  wf_cap : a (hp st) = zlen (p (hp st)) /\ zlen (p (hp st)) < 2 ^ 31;
  wf_idx : forall i, 0 <= i < n (hp st) -> idx_ok st i;
  wf_out : forall x ev, evs st !! x = Some ev -> min_heap_idx ev = -1 \/ members (n (hp st)) (at_ st) x;
  wf_heap : heap (le (tm st)) (n (hp st)) (at_ st) }.

(** The pending timers: the events in the heap with their timeouts. *)
Definition pend (st : state) : gmap Z timeval :=
  omap (fun ev => if min_heap_idx ev =? -1 then None else Some (ev_timeout ev)) (evs st).

Lemma pend_member st x :
  wf st -> members (n (hp st)) (at_ st) x -> pend st !! x = tm st !! x.
Proof.
  intros Hwf (i & Hi & <-). destruct (wf_idx _ Hwf i Hi) as (ev & Hev & Hidx). unfold pend, tm.
  rewrite lookup_omap, lookup_fmap, Hev. simpl. by rewrite (proj2 (Z.eqb_neq (min_heap_idx ev) (-1))) by lia.
Qed.
Lemma pend_None st x : wf st -> ~ members (n (hp st)) (at_ st) x -> pend st !! x = None.
Proof.
  intros Hwf Hx. unfold pend. rewrite lookup_omap. destruct (evs st !! x) as [ev|] eqn:Hev; [|done]. simpl.
  destruct (wf_out _ Hwf x ev Hev) as [-> |]; [done|]. by exfalso.
Qed.
Lemma pend_inv st x t : wf st -> pend st !! x = Some t -> members (n (hp st)) (at_ st) x /\ tm st !! x = Some t.
Proof.
  intros Hwf. unfold pend, tm. rewrite lookup_omap, lookup_fmap. destruct (evs st !! x) as [ev|] eqn:Hev; [|done]. simpl.
  destruct (Z.eqb_spec (min_heap_idx ev) (-1)); [done|]. intros [= <-]. split; [|done].
  destruct (wf_out _ Hwf x ev Hev); [lia|done].
Qed.

#[export] Instance members_dec k f x : Decision (members k f x).
Proof.
  destruct (decide (Exists (fun i => f i = x) (seqZ 0 k))) as [Hex|Hnex].
  - left. apply Exists_exists in Hex as (i & Hi & <-). exists i. split; [|done]. apply elem_of_seqZ in Hi. lia.
  - right. intros (i & Hi & <-). apply Hnex, Exists_exists. exists i. split; [|done]. apply elem_of_seqZ. lia.
Defined.

(** A settled heap whose other events have the index -1 is well formed. *)
Lemma settled_wf st st' e v :
  settled (n (hp st)) st st' e v -> members (n (hp st)) v e ->
  (forall x ev, evs st !! x = Some ev -> min_heap_idx ev = -1 \/ members (n (hp st)) v x) ->
  0 <= n (hp st) <= zlen (p (hp st)) -> a (hp st) = zlen (p (hp st)) /\ zlen (p (hp st)) < 2 ^ 31 ->
  wf st' /\ tm st' = tm st /\ forall x, members (n (hp st')) (at_ st') x <-> members (n (hp st)) v x.
Proof.
  intros [Hh Hm Hi Hf (Hl & Hn & Ha & Ht)] He Hout Hsz Hcap. split_and!; [|done|by rewrite Hn].
  split; rewrite ?Hn, ?Hl, ?Ht; try done; [by rewrite Ha|].
  intros x ev Hev. destruct (evs st !! x) as [ev0|] eqn:Hev0.
  - destruct (decide (members (n (hp st)) v x)) as [Hmem|Hnm]; [right; by apply Hm|].
    assert (x <> e) as Hxe by (intros ->; done). destruct (Hout x ev0 Hev0) as [H1|]; [|done].
    rewrite Hf in Hev by done. left. congruence.
  - exfalso. assert (live st' x) as Hlv by (by exists ev). apply live_tm in Hlv. rewrite Ht in Hlv. apply live_tm in Hlv.
    destruct Hlv. congruence.
Qed.

(** Marking a removed event. *)
Lemma set_idx_ok st e i :
  live st e -> exists st', set_idx st e i = Some st' /\ same_shape st' st /\ p (hp st') = p (hp st) /\
    (exists ev, evs st' !! e = Some ev /\ min_heap_idx ev = i32 i) /\ (forall x, x <> e -> evs st' !! x = evs st !! x).
Proof.
  intros [ev Hev]. unfold set_idx. rewrite Hev. cbn [mbind option_bind]. eexists. split; [done|].
  split_and!; cbn [hp evs]; try done.
  - split_and!; try done. unfold tm. cbn [evs]. rewrite fmap_insert. cbn [ev_timeout]. apply insert_id.
    by rewrite lookup_fmap, Hev.
  - eexists. by rewrite lookup_insert_eq.
  - intros x Hx. by rewrite lookup_insert_ne.
Qed.

Section Ops.
Variable junk : nat -> Z.

Lemma wf_ext st st' :
  wf st -> n (hp st') = n (hp st) -> evs st' = evs st -> zlen (p (hp st)) <= zlen (p (hp st')) ->
  a (hp st') = zlen (p (hp st')) /\ zlen (p (hp st')) < 2 ^ 31 ->
  (forall i, 0 <= i < n (hp st) -> at_ st i = at_ st' i) -> wf st'.
Proof.
  intros [Hs Hc Hi Ho Hh] Hn He Hl Hc' Hat. assert (Ht : tm st' = tm st) by (unfold tm; by rewrite He).
  split; rewrite ?Hn, ?He, ?Ht; [lia|done| | |].
  - intros i Hi'. unfold idx_ok. rewrite He, <- Hat by done. by apply Hi.
  - intros x ev Hev. destruct (Ho x ev Hev) as [|Hm]; [by left|]. right. by apply (members_ext _ _ _ Hat).
  - by apply (heap_ext _ _ _ _ Hat).
Qed.

Lemma reserve_ok ok st :
  wf st -> n (hp st) + 1 < 2 ^ 30 ->
  exists st' r, min_heap_reserve_ junk ok st (u32 (n (hp st) + 1)) = (st', r) /\
    ((r = 0 /\ wf st' /\ evs st' = evs st /\ n (hp st') = n (hp st) /\ n (hp st) + 1 <= zlen (p (hp st')) /\
      forall i, 0 <= i < n (hp st) -> at_ st i = at_ st' i) \/
     (ok = false /\ r = -1 /\ st' = st)).
Proof.
  intros Hwf Hn. pose proof (wf_size _ Hwf) as Hs. destruct (wf_cap _ Hwf) as [Ha Hm].
  unfold min_heap_reserve_, u32. rewrite wrap_id by (unfold in_u; lia).
  destruct (Z.ltb_spec (a (hp st)) (n (hp st) + 1)) as [Hlt|Hge].
  2: { do 2 eexists. split; [done|]. left. split_and!; try done; lia. }
  set (cap := if (if a (hp st) =? 0 then 8 else wrap 32 (a (hp st) * 2)) <? n (hp st) + 1 then _ else _).
  assert (Hcap : n (hp st) + 1 <= cap < 2 ^ 31 /\ zlen (p (hp st)) <= cap).
  { unfold cap. destruct (Z.eqb_spec (a (hp st)) 0); [destruct (Z.ltb_spec 8 (n (hp st) + 1)); lia|].
    rewrite wrap_id by (unfold in_u; lia). destruct (Z.ltb_spec (a (hp st) * 2) (n (hp st) + 1)); lia. }
  destruct ok; [|do 2 eexists; split; [done|by right]].
  do 2 eexists. split; [done|]. left. rewrite take_ge by (unfold zlen in Hcap; lia).
  set (arr := p (hp st) ++ _). assert (Hl : zlen arr = cap).
  { unfold arr. zlens. unfold zlen at 2. rewrite length_seq. lia. }
  assert (Hat : forall i, 0 <= i < n (hp st) -> at_ st i = at_ (mk_state (mk_heap arr (n (hp st)) cap) (evs st)) i).
  { intros i Hi. unfold at_, slot. cbn [hp p]. rewrite !znth_nat by lia. unfold arr.
    rewrite lookup_app_l by (unfold zlen in Hs; lia). done. }
  split_and!; cbn [hp p n evs]; try done; try lia.
  eapply wf_ext; [exact Hwf|done|done|cbn [hp p]; lia|cbn [hp p a]; lia|exact Hat].
Qed.

Lemma push_ok ok st e ev :
  wf st -> n (hp st) + 1 < 2 ^ 30 -> evs st !! e = Some ev -> min_heap_idx ev = -1 ->
  exists st' r, min_heap_push_ junk ok st e = Some (st', r) /\
    ((r = 0 /\ wf st' /\ tm st' = tm st /\ n (hp st') = n (hp st) + 1 /\ pend st' = <[e := ev_timeout ev]> (pend st)) \/
     (ok = false /\ r = -1 /\ st' = st)).
Proof.
  intros Hwf Hn Hev Hidx. unfold min_heap_push_.
  destruct (reserve_ok ok st Hwf Hn) as (st1 & r & -> & [(-> & Hwf1 & He1 & Hn1 & Hz1 & Hat1)|(-> & -> & ->)]);
    [|do 2 eexists; split; [done|by right]]. cbn [Z.eqb negb].
  set (k := n (hp st)) in *. pose proof (wf_size _ Hwf) as Hs. destruct (wf_cap _ Hwf1) as [Ha1 Hm1].
  assert (Hst2 : n (hp (set_n st1 (n (hp st1) + 1))) = k + 1).
  { cbn [set_n hp n]. unfold u32. rewrite wrap_id; unfold in_u; lia. }
  set (st2 := set_n st1 (n (hp st1) + 1)) in *. assert (He2 : evs st2 = evs st) by exact He1.
  assert (Hnote : forall i, 0 <= i < k -> idx_ok st2 i /\ at_ st2 i <> e).
  { intros i Hi. assert (idx_ok st1 i) as Hio by (apply (wf_idx _ Hwf1); lia). split; [exact Hio|].
    intros E. destruct Hio as (ev' & Hev' & Hid'). change (at_ st2 i) with (at_ st1 i) in E. rewrite E, He1 in Hev'.
    rewrite Hev in Hev'. injection Hev' as <-. lia. }
  rewrite Hn1. fold k.
  destruct (shift_up_ok (fuel_of st1) (k + 1) st2 k e) as (st3 & -> & Hset).
  - split; change (p (hp st2)) with (p (hp st1)); [lia|lia|exists ev; by rewrite He2|]. intros i Hi Hne. apply Hnote. lia.
  - lia.
  - split.
    + intros i Hi Hne. pose proof (par_range i ltac:(lia)). rewrite !upd_ne by lia.
      pose proof (wf_heap _ Hwf1 i ltac:(lia)) as Hh. exact Hh.
    + intros c Hc Hpc _. pose proof (par_range c ltac:(lia)). lia.
  - unfold fuel_of. rewrite Hn1. fold k. lia.
  - cbn [mbind option_bind]. exists st3, 0. split; [done|]. left. rewrite <- Hst2 in Hset.
    assert (Hmem : forall x, members k (at_ st) x -> members (k + 1) (upd (at_ st2) k e) x).
    { intros x (i & Hi & <-). exists i. split; [lia|]. rewrite upd_ne by lia. change (at_ st2 i) with (at_ st1 i). symmetry. by apply Hat1. }
    assert (Hme : members (k + 1) (upd (at_ st2) k e) e) by (exists k; split; [lia|by rewrite upd_eq]).
    destruct (settled_wf st2 st3 e _ Hset) as (Hwf3 & Ht3 & Hm3).
    + by rewrite Hst2.
    + intros x ev' Hev'. rewrite Hst2. rewrite He2 in Hev'.
      destruct (wf_out _ Hwf x ev' Hev') as [|Hm]; [by left|right; by apply Hmem].
    + rewrite Hst2. change (p (hp st2)) with (p (hp st1)). lia.
    + done.
    + assert (Htt : tm st3 = tm st) by (rewrite Ht3; unfold tm; by rewrite He2).
      destruct (settled_shape _ _ _ _ _ Hset) as (_ & Hn3 & _). rewrite Hst2 in Hn3.
      split_and!; try done. apply map_eq. intros x. destruct (decide (x = e)) as [->|Hxe].
      * rewrite lookup_insert_eq, (pend_member st3 e Hwf3); [|apply Hm3; by rewrite Hst2].
        rewrite Htt. unfold tm. by rewrite lookup_fmap, Hev.
      * rewrite lookup_insert_ne by done. destruct (decide (members k (at_ st) x)) as [Hx|Hx].
        -- rewrite (pend_member st x Hwf Hx), (pend_member st3 x Hwf3); [by rewrite Htt|].
           apply Hm3. rewrite Hst2. by apply Hmem.
        -- rewrite (pend_None st x Hwf Hx). apply pend_None; [done|]. rewrite Hm3, Hst2. intros (i & Hi & E).
           unfold upd in E. destruct (Z.eqb_spec i k) as [->|Hik]; [done|]. apply Hx. exists i. split; [lia|].
           rewrite <- E. change (at_ st2 i) with (at_ st1 i). apply Hat1. lia.
Qed.

(** Removing the event at [h]: the last event [at_ st k] takes its place. *)
Section Remove.
Variables (st : state) (h : Z).
Hypothesis Hwf : wf st.
Hypothesis Hh : 0 <= h < n (hp st).
Abbreviation k := (n (hp st) - 1).
Abbreviation last := (at_ st k).
Abbreviation st1 := (set_n st k).

Lemma remove_n : n (hp st1) = k.
Proof.
  pose proof (wf_size _ Hwf). destruct (wf_cap _ Hwf). cbn [set_n hp n]. unfold u32. apply wrap_id. unfold in_u. lia.
Qed.

Lemma at_inj i j : 0 <= i < n (hp st) -> 0 <= j < n (hp st) -> at_ st i = at_ st j -> i = j.
Proof. intros Hi Hj. apply idx_inj; by apply (wf_idx _ Hwf). Qed.

Lemma remove_members x : members k (upd (at_ st) h last) x <-> members (n (hp st)) (at_ st) x /\ x <> at_ st h.
Proof.
  split.
  - intros (i & Hi & <-). unfold upd. destruct (Z.eqb_spec i h) as [->|Hne].
    + split; [exists k; split; [lia|done]|]. intros E. apply at_inj in E; lia.
    + split; [exists i; split; [lia|done]|]. intros E. apply at_inj in E; lia.
  - intros [(i & Hi & <-) Hne]. assert (i <> h) by (intros ->; done).
    destruct (Z.eq_dec i k) as [->|]; [exists h; rewrite upd_eq; split; [lia|done]|].
    exists i. rewrite upd_ne by done. split; [lia|done].
Qed.

Lemma remove_hole : hole_inv k st1 h last.
Proof.
  pose proof (wf_size _ Hwf). destruct (wf_cap _ Hwf). split; change (p (hp st1)) with (p (hp st)); [lia|lia| |].
  - apply (idx_live st1). change (idx_ok st k). apply (wf_idx _ Hwf). lia.
  - intros i Hi Hne. split; [change (idx_ok st i); apply (wf_idx _ Hwf); lia|]. change (at_ st i <> last).
    intros E. apply at_inj in E; lia.
Qed.

Lemma remove_around : around (le (tm st)) k h (at_ st).
Proof.
  apply heap_around; [apply le_trans|]. intros i Hi. apply (wf_heap _ Hwf). lia.
Qed.

Lemma remove_finish st2 :
  settled k st1 st2 last (upd (at_ st1) h last) ->
  exists st3, set_idx st2 (at_ st h) (-1) = Some st3 /\ wf st3 /\ tm st3 = tm st /\ n (hp st3) = k /\
    pend st3 = delete (at_ st h) (pend st).
Proof.
  intros [Sh Sm Si Sf (Sl & Sn & Sa & St)]. rewrite remove_n in Sn. change (tm st1) with (tm st) in *.
  change (at_ st1) with (at_ st) in *. change (evs st1) with (evs st) in *. change (p (hp st1)) with (p (hp st)) in *.
  change (a (hp st1)) with (a (hp st)) in *.
  assert (Hl2 : live st2 (at_ st h)).
  { apply live_tm. rewrite St. apply live_tm, idx_live. by apply (wf_idx _ Hwf). }
  destruct (set_idx_ok st2 (at_ st h) (-1) Hl2) as (st3 & Hs3 & (Tl & Tn & Ta & Tt) & Tp & (ev0 & Hev0 & Hid0) & Tf).
  assert (Hat3 : forall i, at_ st3 i = at_ st2 i) by (intros i; unfold at_, slot; by rewrite Tp).
  assert (Hmem : forall x, members k (at_ st3) x <-> members (n (hp st)) (at_ st) x /\ x <> at_ st h).
  { intros x. rewrite (members_ext k (at_ st3) (at_ st2)) by (intros; apply Hat3). rewrite Sm. apply remove_members. }
  pose proof (wf_size _ Hwf). destruct (wf_cap _ Hwf).
  assert (Hwf3 : wf st3).
  { split; rewrite ?Tn, ?Sn, ?Tl, ?Sl, ?Ta, ?Sa, ?Tt, ?St; [lia|done| | |].
    - intros i Hi. unfold idx_ok. rewrite Hat3. rewrite Tf; [by apply Si|]. rewrite <- Hat3.
      apply (proj1 (Hmem (at_ st3 i))). by exists i.
    - intros x ev Hev. destruct (decide (x = at_ st h)) as [->|Hne].
      { left. rewrite Hev0 in Hev. injection Hev as <-. by rewrite Hid0. }
      destruct (decide (members k (at_ st3) x)) as [|Hnm]; [by right|]. left. rewrite Tf in Hev by done.
      assert (Hnv : ~ members k (upd (at_ st) h last) x) by (rewrite remove_members, <- Hmem; done).
      assert (Hnl : ~ members (n (hp st)) (at_ st) x) by (intros Hx; by apply Hnm, Hmem).
      rewrite Sf in Hev; [|done|intros ->; apply Hnl; exists k; split; [lia|done]].
      destruct (wf_out _ Hwf x ev Hev); [done|contradiction].
    - apply (heap_ext _ _ (at_ st2)); [intros; symmetry; apply Hat3|done]. }
  exists st3. split_and!; try done; try congruence. apply map_eq. intros x.
  assert (Hn3 : n (hp st3) = k) by congruence. destruct (decide (x = at_ st h)) as [->|Hne].
  - rewrite lookup_delete_eq. apply pend_None; [done|]. rewrite Hn3, Hmem. by intros [_ ?].
  - rewrite lookup_delete_ne by done. destruct (decide (members (n (hp st)) (at_ st) x)) as [Hx|Hx].
    + rewrite (pend_member st x Hwf Hx), (pend_member st3 x Hwf3); [congruence|]. rewrite Hn3. by apply Hmem.
    + rewrite (pend_None st x Hwf Hx). apply pend_None; [done|]. rewrite Hn3, Hmem. by intros [? _].
Qed.
End Remove.

Lemma parent_idx_par i : 0 < i -> parent_idx i = par i.
Proof. intros. unfold parent_idx, par. apply Z.quot_div_nonneg; lia. Qed.

(** The choice of direction when [e] is put at [h]. *)
Lemma reseat_ok st k h e :
  hole_inv k st h e -> n (hp st) = k -> around (le (tm st)) k h (at_ st) -> 0 <= h <= k ->
  (h = k -> 0 < h -> gt (tm st) (at_ st (par h)) e = false) ->
  exists st', (up ← (if 0 <? h then x ← slot st (parent_idx h); min_heap_elem_greater st x e else Some false);
     if (up : bool) then min_heap_shift_up_unconditional_ (fuel_of st) st h e
     else min_heap_shift_down_ (fuel_of st) st h e) = Some st' /\
    settled k st st' e (upd (at_ st) h e).
Proof.
  intros Hinv Hn Har Hh Hlast. pose proof Hinv as [Hr [Hk Hmax] He Hidx].
  assert (Hdown : (0 < h -> le (tm st) (at_ st (par h)) e) ->
    exists st', min_heap_shift_down_ (fuel_of st) st h e = Some st' /\ settled k st st' e (upd (at_ st) h e)).
  { intros Hle. apply shift_down_ok; [done|done| |unfold fuel_of; lia]. apply around_down; [done|lia|done]. }
  destruct (Z.ltb_spec 0 h) as [H0|H0]; [|apply Hdown; lia].
  rewrite parent_idx_par by done. pose proof (par_range h H0). rewrite slot_at by lia. cbn [mbind option_bind].
  destruct (Hidx (par h) ltac:(lia) ltac:(lia)) as [Hip _].
  rewrite greater_ok by (done || by apply idx_live). cbn [mbind option_bind].
  destruct (gt (tm st) (at_ st (par h)) e) eqn:Hg; [|by apply Hdown].
  assert (h < k). { destruct (Z.eq_dec h k) as [E|]; [|lia]. pose proof (Hlast E H0). congruence. }
  apply shift_up_unconditional_ok; [done|lia| |unfold fuel_of; lia|by apply gt_le].
  apply (around_up _ (le_trans _)); [done|lia|by apply gt_le].
Qed.

Lemma pop_ok st :
  wf st -> exists st' r, min_heap_pop_ st = Some (st', r) /\ wf st' /\ tm st' = tm st /\ n (hp st') <= n (hp st) /\
    match r with
    | None => st' = st /\ n (hp st) = 0
    | Some e => members (n (hp st)) (at_ st) e /\ (forall x, members (n (hp st)) (at_ st) x -> le (tm st) e x) /\
                pend st' = delete e (pend st)
    end.
Proof.
  intros Hwf. unfold min_heap_pop_. pose proof (wf_size _ Hwf). destruct (wf_cap _ Hwf).
  destruct (Z.eqb_spec (n (hp st)) 0) as [E|Hne]; cbn [negb].
  { exists st, None. split_and!; done || lia. }
  assert (Hz : 0 <= 0 < n (hp st)) by lia. rewrite (slot_at st 0) by lia. cbn [mbind option_bind].
  rewrite (remove_n st 0 Hwf Hz). rewrite (slot_at (set_n st (n (hp st) - 1)) (n (hp st) - 1)) by (cbn [set_n hp p]; lia). cbn [mbind option_bind].
  destruct (shift_down_ok (fuel_of (set_n st (n (hp st) - 1))) (n (hp st) - 1) (set_n st (n (hp st) - 1)) 0 (at_ st (n (hp st) - 1)))
    as (st2 & Hs2 & Hset); [exact (remove_hole st 0 Hwf Hz)|exact (remove_n st 0 Hwf Hz)| |unfold fuel_of; rewrite (remove_n st 0 Hwf Hz); lia|].
  { apply around_down; [exact (remove_around st 0 Hwf)|lia|lia]. }
  change (at_ (set_n st (n (hp st) - 1)) (n (hp st) - 1)) with (at_ st (n (hp st) - 1)). rewrite Hs2. cbn [mbind option_bind].
  destruct (remove_finish st 0 Hwf Hz st2 Hset) as (st3 & -> & Hwf3 & Ht3 & Hn3 & Hp3). cbn [mbind option_bind].
  exists st3, (Some (at_ st 0)). split_and!; try done; try lia.
  - by exists 0.
  - intros x (i & Hi & <-). apply (heap_top _ (le_refl _) (le_trans _) (n (hp st))); [apply (wf_heap _ Hwf)|done].
Qed.

Lemma erase_ok st e ev :
  wf st -> evs st !! e = Some ev ->
  exists st' r, min_heap_erase_ st e = Some (st', r) /\ wf st' /\ tm st' = tm st /\ n (hp st') <= n (hp st) /\
    (if min_heap_idx ev =? -1 then r = -1 /\ st' = st else r = 0 /\ pend st' = delete e (pend st)).
Proof.
  intros Hwf Hev. unfold min_heap_erase_. rewrite Hev. cbn [mbind option_bind]. rewrite Z.eqb_sym.
  destruct (Z.eqb_spec (min_heap_idx ev) (-1)) as [E|Hne]; cbn [negb].
  { exists st, (-1). split_and!; done || lia. }
  destruct (wf_out _ Hwf e ev Hev) as [|(h & Hh & Hat)]; [lia|].
  assert (Hidx : min_heap_idx ev = h).
  { destruct (wf_idx _ Hwf h Hh) as (ev' & Hev' & <-). rewrite Hat, Hev in Hev'. by injection Hev' as <-. }
  rewrite Hidx. pose proof (wf_size _ Hwf). destruct (wf_cap _ Hwf). rewrite (remove_n st h Hwf Hh).
  rewrite (slot_at (set_n st (n (hp st) - 1)) (n (hp st) - 1)) by (cbn [set_n hp p]; lia). cbn [mbind option_bind].
  change (at_ (set_n st (n (hp st) - 1)) (n (hp st) - 1)) with (at_ st (n (hp st) - 1)).
  destruct (reseat_ok (set_n st (n (hp st) - 1)) (n (hp st) - 1) h (at_ st (n (hp st) - 1))) as (st2 & Hs2 & Hset);
    [exact (remove_hole st h Hwf Hh)|exact (remove_n st h Hwf Hh)|exact (remove_around st h Hwf)|lia| |].
  { intros -> Hpos. apply (wf_heap _ Hwf). lia. }
  match type of Hs2 with (?m ≫= _) = _ => destruct m as [up|]; [|done] end. cbn [mbind option_bind] in Hs2 |- *.
  rewrite Hs2. cbn [mbind option_bind]. rewrite <- Hat.
  destruct (remove_finish st h Hwf Hh st2 Hset) as (st3 & -> & Hwf3 & Ht3 & Hn3 & Hp3). cbn [mbind option_bind].
  exists st3, 0. split_and!; try done. lia.
Qed.

(** The caller changes the timeout of an event and then adjusts its position. *)
Definition set_timeout (st : state) (e : Z) (tv : timeval) : option state :=
  ev ← evs st !! e;
  Some (mk_state (hp st) (<[e := mk_event tv (min_heap_idx ev)]> (evs st))).
Definition schedule (ok : bool) (st : state) (e : Z) (tv : timeval) : option (state * Z) :=
  st ← set_timeout st e tv; min_heap_adjust_ junk ok st e.

Lemma gt_insert M e tv x y : x <> e -> y <> e -> gt (<[e := tv]> M) x y = gt M x y.
Proof. intros Hx Hy. unfold gt. by rewrite !lookup_insert_ne. Qed.

Section Schedule.
Variables (st : state) (e : Z) (ev : event) (tv : timeval).
Hypothesis Hwf : wf st.
Hypothesis Hev : evs st !! e = Some ev.
Abbreviation st1 := (mk_state (hp st) (<[e := mk_event tv (min_heap_idx ev)]> (evs st))).

Lemma sched_tm : tm st1 = <[e := tv]> (tm st).
Proof. unfold tm. cbn [evs]. by rewrite fmap_insert. Qed.

Lemma sched_idx i : 0 <= i < n (hp st) -> idx_ok st1 i.
Proof.
  intros Hi. destruct (wf_idx _ Hwf i Hi) as (ev' & Hev' & Hid). unfold idx_ok. change (at_ st1 i) with (at_ st i). cbn [evs].
  destruct (decide (at_ st i = e)) as [E|Hne]; [|exists ev'; by rewrite lookup_insert_ne].
  rewrite E in *. eexists. rewrite lookup_insert_eq. split; [done|]. cbn [min_heap_idx]. rewrite Hev in Hev'. by injection Hev' as <-.
Qed.

Lemma sched_out x ev' :
  evs st1 !! x = Some ev' -> min_heap_idx ev' = -1 \/ members (n (hp st)) (at_ st) x.
Proof.
  cbn [evs]. destruct (decide (x = e)) as [->|Hne].
  - rewrite lookup_insert_eq. intros [= <-]. cbn [min_heap_idx]. by apply (wf_out _ Hwf).
  - rewrite lookup_insert_ne by done. by apply (wf_out _ Hwf).
Qed.

Lemma sched_new_wf : min_heap_idx ev = -1 -> wf st1 /\ pend st1 = pend st.
Proof.
  intros Hid.
  assert (Hne : forall i, 0 <= i < n (hp st) -> at_ st i <> e).
  { intros i Hi E. destruct (wf_idx _ Hwf i Hi) as (ev' & Hev' & Hid'). rewrite E, Hev in Hev'. injection Hev' as <-. lia. }
  split.
  - split; try apply Hwf; [apply sched_idx|apply sched_out|]. rewrite sched_tm. intros i Hi.
    pose proof (par_range i ltac:(lia)). unfold le. change (at_ st1) with (at_ st).
    rewrite gt_insert by (apply Hne; cbn [hp] in Hi; lia). by apply (wf_heap _ Hwf).
  - unfold pend. cbn [evs]. apply map_eq. intros x. rewrite !lookup_omap. destruct (decide (x = e)) as [->|Hx].
    + rewrite lookup_insert_eq, Hev. simpl. by rewrite Hid.
    + by rewrite lookup_insert_ne.
Qed.

Lemma sched_move h :
  min_heap_idx ev = h -> h <> -1 ->
  exists st2, (up ← (if 0 <? h then x ← slot st1 (parent_idx h); min_heap_elem_greater st1 x e else Some false);
     if (up : bool) then min_heap_shift_up_unconditional_ (fuel_of st1) st1 h e
     else min_heap_shift_down_ (fuel_of st1) st1 h e) = Some st2 /\
    wf st2 /\ n (hp st2) = n (hp st) /\ tm st2 = tm st1 /\ pend st2 = <[e := tv]> (pend st).
Proof.
  intros Hid Hne. destruct (wf_out _ Hwf e ev Hev) as [|(h' & Hh & Hat)]; [lia|].
  assert (h' = h) as ->.
  { destruct (wf_idx _ Hwf h' Hh) as (ev' & Hev' & <-). rewrite Hat, Hev in Hev'. injection Hev' as <-. done. }
  pose proof (wf_size _ Hwf). destruct (wf_cap _ Hwf) as [Hca Hcm].
  assert (Hnote : forall i, 0 <= i < n (hp st) -> i <> h -> at_ st i <> e).
  { intros i Hi Hih E. apply Hih. apply (idx_inj st); [by apply (wf_idx _ Hwf)..|congruence]. }
  destruct (reseat_ok st1 (n (hp st)) h e) as (st2 & Hs2 & Hset).
  - split; cbn [hp]; [lia|lia|eexists; apply lookup_insert_eq|]. intros i Hi Hih. split; [by apply sched_idx|by apply Hnote].
  - done.
  - apply (around_le (le (tm st))); [|lia|apply heap_around; [apply le_trans|apply (wf_heap _ Hwf)]].
    intros i j Hi Hj Hih Hjh Hle. unfold le. change (at_ st1) with (at_ st). rewrite sched_tm, gt_insert; [exact Hle| |]; by apply Hnote.
  - lia.
  - lia.
  - exists st2. split; [done|].
    assert (Hv : forall x, members (n (hp st)) (upd (at_ st1) h e) x <-> members (n (hp st)) (at_ st) x).
    { apply members_ext. intros i Hi. unfold upd. change (at_ st1 i) with (at_ st i). by destruct (Z.eqb_spec i h) as [->|]. }
    destruct (settled_wf st1 st2 e _ Hset) as (Hwf2 & Ht2 & Hm2).
    + cbn [hp]. apply Hv. by exists h.
    + intros x ev' Hx. cbn [hp]. rewrite Hv. by apply sched_out.
    + cbn [hp]. lia.
    + done.
    + cbn [hp] in Hm2. assert (Hn2 : n (hp st2) = n (hp st)) by apply (settled_shape _ _ _ _ _ Hset).
      split_and!; try done. apply map_eq. intros x. destruct (decide (x = e)) as [->|Hx].
      * rewrite lookup_insert_eq, (pend_member st2 e Hwf2); [|apply Hm2, Hv; by exists h].
        by rewrite Ht2, sched_tm, lookup_insert_eq.
      * rewrite lookup_insert_ne by done. destruct (decide (members (n (hp st)) (at_ st) x)) as [Hx'|Hx'].
        -- rewrite (pend_member st x Hwf Hx'), (pend_member st2 x Hwf2); [|by apply Hm2, Hv].
           by rewrite Ht2, sched_tm, lookup_insert_ne.
        -- rewrite (pend_None st x Hwf Hx'). apply pend_None; [done|]. by rewrite Hm2, Hv.
Qed.
End Schedule.

Lemma schedule_ok ok st e tv :
  wf st -> n (hp st) + 1 < 2 ^ 30 -> live st e ->
  exists st' r, schedule ok st e tv = Some (st', r) /\ wf st' /\ (forall x, live st' x <-> live st x) /\
    n (hp st') <= n (hp st) + 1 /\
    ((r = 0 /\ pend st' = <[e := tv]> (pend st)) \/
     (ok = false /\ pend st !! e = None /\ r = -1 /\ pend st' = pend st)).
Proof.
  intros Hwf Hn [ev Hev]. unfold schedule, set_timeout. rewrite Hev. cbn [mbind option_bind].
  unfold min_heap_adjust_. cbn [evs]. rewrite lookup_insert_eq. cbn [mbind option_bind min_heap_idx].
  assert (Hlive : forall s, tm s = tm (mk_state (hp st) (<[e := mk_event tv (min_heap_idx ev)]> (evs st))) ->
    forall x, live s x <-> live st x).
  { intros s Hs x. rewrite !live_tm, Hs, (sched_tm st e ev tv). destruct (decide (x = e)) as [->|Hx].
    - rewrite lookup_insert_eq. unfold tm. rewrite lookup_fmap, Hev. simpl. split; eauto.
    - by rewrite lookup_insert_ne. }
  destruct (Z.eqb_spec (-1) (min_heap_idx ev)) as [E|Hne].
  - destruct (sched_new_wf st e ev tv Hwf Hev) as [Hwf1 Hp1]; [done|].
    destruct (push_ok ok _ e (mk_event tv (min_heap_idx ev)) Hwf1) as (st' & r & -> & Hcase);
      [done|cbn [evs]; apply lookup_insert_eq|done|].
    exists st', r. split; [done|]. destruct Hcase as [(-> & Hwf' & Ht & Hn' & Hp)|(-> & -> & ->)].
    + split_and!; [done|by apply Hlive|cbn [hp] in Hn'; lia|]. left. rewrite Hp, Hp1. done.
    + split_and!; [done|by apply Hlive|cbn [hp]; lia|]. right. split_and!; try done.
      unfold pend. rewrite lookup_omap, Hev. simpl. by rewrite <- E.
  - destruct (sched_move st e ev tv Hwf Hev (min_heap_idx ev)) as (st' & Hs & Hwf' & Hn' & Ht & Hp); [done|lia|].
    match type of Hs with (?m ≫= _) = _ => destruct m as [up|]; [|done] end. cbn [mbind option_bind] in Hs |- *.
    rewrite Hs. cbn [mbind option_bind]. exists st', 0. split_and!; [done|done|by apply Hlive|lia|]. by left.
Qed.

(** ** The contract: a priority queue of timers *)

Inductive heap_op := HSchedule (ok : bool) (e : Z) (tv : timeval) | HErase (e : Z) | HPop | HTop.
Inductive heap_res := RInt (r : Z) | RPtr (e : option Z).

Definition run_heap_op (st : state) (o : heap_op) : option (state * heap_res) :=
  match o with
  | HSchedule ok e tv => '(st, r) ← schedule ok st e tv; Some (st, RInt r)
  | HErase e => '(st, r) ← min_heap_erase_ st e; Some (st, RInt r)
  | HPop => '(st, r) ← min_heap_pop_ st; Some (st, RPtr r)
  | HTop => r ← min_heap_top_ st; Some (st, RPtr r)
  end.
Fixpoint run_heap_ops (st : state) (os : list heap_op) : option (state * list heap_res) :=
  match os with
  | [] => Some (st, [])
  | o :: os => '(st, r) ← run_heap_op st o; '(st, rs) ← run_heap_ops st os; Some (st, r :: rs)
  end.

(** [e] is a pending event with the earliest timeout. *)
Definition earliest (Q : gmap Z timeval) (e : Z) : Prop :=
  exists t, Q !! e = Some t /\ forall x u, Q !! x = Some u -> timer_greater t u = false.

(** The operations on the map of pending timers; a failed allocation can only make
    the insertion of a new timer fail, and then nothing changes. *)
Inductive pq_step : gmap Z timeval -> heap_op -> gmap Z timeval -> heap_res -> Prop :=
  | pq_schedule Q ok e tv : pq_step Q (HSchedule ok e tv) (<[e := tv]> Q) (RInt 0)
  | pq_no_memory Q e tv : Q !! e = None -> pq_step Q (HSchedule false e tv) Q (RInt (-1))
  | pq_erase Q e t : Q !! e = Some t -> pq_step Q (HErase e) (delete e Q) (RInt 0)
  | pq_erase_none Q e : Q !! e = None -> pq_step Q (HErase e) Q (RInt (-1))
  | pq_pop Q e : earliest Q e -> pq_step Q HPop (delete e Q) (RPtr (Some e))
  | pq_pop_none : pq_step ∅ HPop ∅ (RPtr None)
  | pq_top Q e : earliest Q e -> pq_step Q HTop Q (RPtr (Some e))
  | pq_top_none : pq_step ∅ HTop ∅ (RPtr None).
Inductive pq_steps : gmap Z timeval -> list heap_op -> gmap Z timeval -> list heap_res -> Prop :=
  | pq_nil Q : pq_steps Q [] Q []
  | pq_cons Q o Q1 r os Q2 rs : pq_step Q o Q1 r -> pq_steps Q1 os Q2 rs -> pq_steps Q (o :: os) Q2 (r :: rs).

Definition op_live (st : state) (o : heap_op) : Prop :=
  match o with HSchedule _ e _ | HErase e => live st e | _ => True end.

Lemma pend_empty st : wf st -> n (hp st) = 0 -> pend st = ∅.
Proof.
  intros Hwf Hn. apply map_eq. intros x. rewrite lookup_empty. apply pend_None; [done|].
  intros (i & Hi & _). lia.
Qed.

Lemma earliest_ok st e :
  wf st -> members (n (hp st)) (at_ st) e -> (forall x, members (n (hp st)) (at_ st) x -> le (tm st) e x) ->
  earliest (pend st) e.
Proof.
  intros Hwf He Hmin. destruct He as (i & Hi & Hat). pose proof (wf_idx _ Hwf i Hi) as Hio. apply idx_live in Hio.
  rewrite Hat in Hio. apply live_tm in Hio as [t Ht]. exists t. split; [rewrite (pend_member st e Hwf); [done|by exists i]|].
  intros x u Hu. destruct (pend_inv st x u Hwf Hu) as [Hx Htx]. specialize (Hmin x Hx). unfold le, gt in Hmin.
  by rewrite Ht, Htx in Hmin.
Qed.

Lemma run_heap_op_ok st o :
  wf st -> n (hp st) + 1 < 2 ^ 30 -> op_live st o ->
  exists st' r, run_heap_op st o = Some (st', r) /\ pq_step (pend st) o (pend st') r /\ wf st' /\
    (forall x, live st' x <-> live st x) /\ n (hp st') <= n (hp st) + 1.
Proof.
  intros Hwf Hn Hl. destruct o as [ok e tv|e| |]; cbn [run_heap_op op_live] in *.
  - destruct (schedule_ok ok st e tv Hwf Hn Hl) as (st' & r & -> & Hwf' & Hlv & Hn' & Hcase). cbn [mbind option_bind].
    exists st', (RInt r). split_and!; try done. destruct Hcase as [[-> ->]|(-> & HQ & -> & ->)]; by constructor.
  - destruct Hl as [ev Hev]. destruct (erase_ok st e ev Hwf Hev) as (st' & r & -> & Hwf' & Ht & Hn' & Hcase). cbn [mbind option_bind].
    exists st', (RInt r). split_and!; try done; [|intros x; rewrite !live_tm; by rewrite Ht|lia].
    destruct (Z.eqb_spec (min_heap_idx ev) (-1)) as [E|Hne].
    + destruct Hcase as [-> ->]. constructor. unfold pend. rewrite lookup_omap, Hev. simpl. by rewrite E.
    + destruct Hcase as [-> ->]. apply (pq_erase _ _ (ev_timeout ev)). unfold pend. rewrite lookup_omap, Hev. simpl.
      by rewrite (proj2 (Z.eqb_neq _ _)).
  - destruct (pop_ok st Hwf) as (st' & r & -> & Hwf' & Ht & Hn' & Hcase). cbn [mbind option_bind].
    exists st', (RPtr r). split_and!; try done; [|intros x; rewrite !live_tm; by rewrite Ht|lia].
    destruct r as [e|]; [|destruct Hcase as [-> H0]; rewrite (pend_empty st) by done; constructor].
    destruct Hcase as (He & Hmin & ->). constructor. by apply earliest_ok.
  - unfold min_heap_top_. destruct (Z.eqb_spec (n (hp st)) 0) as [E|Hne].
    + exists st, (RPtr None). cbn [mbind option_bind]. rewrite (pend_empty st) by done. split_and!; try done; [constructor|lia].
    + pose proof (wf_size _ Hwf). rewrite slot_at by lia. cbn [mbind option_bind]. exists st, (RPtr (Some (at_ st 0))).
      split_and!; try done; [|lia]. constructor. apply earliest_ok; [done|exists 0; split; [lia|done]|].
      intros x (i & Hi & <-). apply (heap_top _ (le_refl _) (le_trans _) (n (hp st))); [apply (wf_heap _ Hwf)|done].
Qed.

(** C13: the timer heap is a priority queue.  From any well-formed heap, every
    sequence of insertions, timeout changes, removals, pops and look-ups (with
    allocations that may fail) stays inside the array, keeps the heap property
    and the index of every event, and behaves as the operations on the map of
    pending timers: [pop] and [top] give an event with the earliest timeout. *)
Theorem minheap_history_refines (st : state) (os : list heap_op) :
  wf st -> n (hp st) + zlen os < 2 ^ 30 -> Forall (op_live st) os ->
  exists st' rs, run_heap_ops st os = Some (st', rs) /\ pq_steps (pend st) os (pend st') rs /\ wf st'.
Proof.
  revert st. induction os as [|o os IH]; intros st Hwf Hn Hl.
  { exists st, []. split_and!; try done. constructor. }
  apply list.Forall_cons in Hl as [Ho Hl]. zlens. pose proof (zlen_nonneg os).
  destruct (run_heap_op_ok st o Hwf ltac:(lia) Ho) as (st1 & r & Hr & Hst & Hwf1 & Hlv & Hn1).
  destruct (IH st1 Hwf1) as (st2 & rs & Hrs & Hsts & Hwf2); [lia| |].
  { eapply list.Forall_impl; [exact Hl|]. intros [? ? ?|?| |]; simpl; try done; apply Hlv. }
  cbn [run_heap_ops]. rewrite Hr. cbn [mbind option_bind]. rewrite Hrs. cbn [mbind option_bind].
  exists st2, (r :: rs). split_and!; try done. by eapply pq_cons.
Qed.
End Ops.

(** ** Instances *)

(** Three events outside an empty heap. *)
Definition fresh_events : gmap Z event :=
  <[1 := mk_event (mk_tv 0 0) (-1)]> (<[2 := mk_event (mk_tv 0 0) (-1)]> (<[3 := mk_event (mk_tv 0 0) (-1)]> ∅)).
Definition fresh_heap : state := mk_state min_heap_ctor_ fresh_events.

Lemma fresh_heap_wf : wf fresh_heap.
Proof.
  split; cbn [fresh_heap hp min_heap_ctor_ n p a evs].
  - by split; vm_compute.
  - by split.
  - lia.
  - intros x ev Hev. left. unfold fresh_events in Hev.
    repeat (apply lookup_insert_Some in Hev as [[_ <-]|[_ Hev]]; [done|]). by rewrite lookup_empty in Hev.
  - intros i Hi. lia.
Qed.

Definition sample_heap_ops : list heap_op :=
  [HSchedule true 1 (mk_tv 5 0); HSchedule true 2 (mk_tv 3 9); HSchedule true 3 (mk_tv 3 1); HTop; HSchedule true 3 (mk_tv 7 0);
   HErase 1; HPop; HPop; HPop].

Lemma minheap_history_refines_witness :
  exists st' rs, run_heap_ops (fun _ => 0) fresh_heap sample_heap_ops = Some (st', rs) /\
    pq_steps (pend fresh_heap) sample_heap_ops (pend st') rs /\ wf st'.
Proof.
  apply (minheap_history_refines (fun _ => 0) fresh_heap sample_heap_ops); [apply fresh_heap_wf|done|].
  repeat constructor; simpl; by eexists.
Defined.
