(* ===== verification/Coroutine.v ===== *)
(** * Coroutine: the shared-stack scheduler of [coroutine.c]

    A schedule runs every coroutine on one stack of [STACK_SIZE] bytes; yielding
    copies the used part of it away and resuming copies it back.  The bodies of
    the coroutines are arbitrary: between two calls of the library a body may
    replace the used part of the stack, from the stack pointer to the end, by
    anything that fits.  [None] is a failed assertion, undefined arithmetic or an
    access outside an object.  [malloc] succeeds and returns arbitrary bytes. *)
From Stdlib Require Import ZArith Lia Bool.
From stdpp Require Import base option list numbers gmap.
From S2P Require Import Prelude.
Open Scope Z_scope.

(** ** Data *)

Definition STACK_SIZE : Z := 1024 * 1024.
Definition DEFAULT_COROUTINE : Z := 16.
Definition COROUTINE_DEAD : Z := 0.
Definition COROUTINE_READY : Z := 1.
Definition COROUTINE_RUNNING : Z := 2.
Definition COROUTINE_SUSPEND : Z := 3.

(** [ctx_sp] is the stack pointer in the saved context, as an offset in the shared
    stack; [cstack] is the buffer [stack], empty when NULL. *)
Record coroutine := mk_co {
  func : Z; ud : Z; ctx_sp : Z; cap_ : Z; size : Z; status : Z; cstack : list Z }.
(** [sp] is the stack pointer of the machine while a coroutine runs. *)
Record schedule := mk_sch {
  stack : list Z; nco : Z; cap : Z; running : Z; co : list (option coroutine); sp : Z }.

Definition with_co (S : schedule) (c : list (option coroutine)) : schedule :=
  mk_sch (stack S) (nco S) (cap S) (running S) c (sp S).

Section Coroutine.
Variable junk : nat -> Z.

(** ** Operations *)

Definition _co_new (func ud : Z) : coroutine := mk_co func ud 0 0 0 COROUTINE_READY [].

Definition coroutine_open : schedule :=
  mk_sch (garbage junk 0 (Z.to_nat STACK_SIZE)) 0 DEFAULT_COROUTINE (-1)
    (replicate (Z.to_nat DEFAULT_COROUTINE) None) 0.

(** [for (i=0;i<S->cap;i++) { int id = (i+S->nco) % S->cap; ... }]. *)
Fixpoint new_loop (fuel : nat) (S : schedule) (c : coroutine) (i : Z) : option (schedule * Z) :=
  match fuel with
  | O => None
  | Datatypes.S fuel =>
      if i <? cap S then
        let id := (i + nco S) mod cap S in
        slot ← znth (co S) id;
        match slot with
        | None =>
            l ← zset (co S) id (Some c);
            Some (mk_sch (stack S) (nco S + 1) (cap S) (running S) l (sp S), id)
        | Some _ => new_loop fuel S c (i + 1)
        end
      else None
  end.

Definition coroutine_new (S : schedule) (func ud : Z) : option (schedule * Z) :=
  let c := _co_new func ud in
  if cap S <=? nco S then
    if 2 ^ 31 <=? cap S * 2 then None
    else
      let id := cap S in
      let l := co S ++ replicate (Z.to_nat (cap S)) None in
      l ← zset l (cap S) (Some c);
      Some (mk_sch (stack S) (nco S + 1) (cap S * 2) (running S) l (sp S), id)
  else new_loop (Datatypes.S (Z.to_nat (cap S))) S c 0.

(** The end of [mainfunc], when the body has returned; the context then continues
    at [uc_link], the main one. *)
Definition mainfunc_return (S : schedule) : option schedule :=
  let id := running S in
  c ← znth (co S) id;
  _ ← c;
  l ← zset (co S) id None;
  Some (mk_sch (stack S) (nco S - 1) (cap S) (-1) l (sp S)).

(** Up to [swapcontext]: afterwards the coroutine runs. *)
Definition coroutine_resume (S : schedule) (id : Z) : option schedule :=
  if negb (running S =? -1) then None
  else if negb ((0 <=? id) && (id <? cap S)) then None
  else
    slot ← znth (co S) id;
    match slot with
    | None => Some S
    | Some C =>
        if status C =? COROUTINE_READY then
          l ← zset (co S) id (Some (mk_co (func C) (ud C) (ctx_sp C) (cap_ C) (size C) COROUTINE_RUNNING (cstack C)));
          Some (mk_sch (stack S) (nco S) (cap S) id l STACK_SIZE)
        else if status C =? COROUTINE_SUSPEND then
          x ← rd (cstack C) 0 (size C);
          st ← wr (stack S) (STACK_SIZE - size C) x;
          l ← zset (co S) id (Some (mk_co (func C) (ud C) (ctx_sp C) (cap_ C) (size C) COROUTINE_RUNNING (cstack C)));
          Some (mk_sch st (nco S) (cap S) id l (ctx_sp C))
        else None
    end.

(** [&dummy] is the stack pointer. *)
Definition _save_stack (S : schedule) (C : coroutine) : option coroutine :=
  let used := STACK_SIZE - sp S in
  if negb (used <=? STACK_SIZE) then None
  else
    let C := if cap_ C <? used
             then mk_co (func C) (ud C) (ctx_sp C) used (size C) (status C) (garbage junk 0 (Z.to_nat used))
             else C in
    x ← rd (stack S) (sp S) used;
    b ← wr (cstack C) 0 x;
    Some (mk_co (func C) (ud C) (ctx_sp C) (cap_ C) used (status C) b).

(** Up to [swapcontext], which saves the stack pointer in the context. *)
Definition coroutine_yield (S : schedule) : option schedule :=
  let id := running S in
  if negb (0 <=? id) then None
  else
    slot ← znth (co S) id;
    C ← slot;
    if negb (0 <? sp S) then None
    else
      C ← _save_stack S C;
      l ← zset (co S) id (Some (mk_co (func C) (ud C) (sp S) (cap_ C) (size C) COROUTINE_SUSPEND (cstack C)));
      Some (mk_sch (stack S) (nco S) (cap S) (-1) l (sp S)).

Definition coroutine_status (S : schedule) (id : Z) : option Z :=
  if negb ((0 <=? id) && (id <? cap S)) then None
  else slot ← znth (co S) id; Some (match slot with None => COROUTINE_DEAD | Some C => status C end).

Definition coroutine_running (S : schedule) : Z := running S.

(** What the body does to its stack: the used part becomes [frame]. *)
Definition body_stack (S : schedule) (frame : list Z) : option schedule :=
  let sp' := STACK_SIZE - zlen frame in
  if negb (0 <? sp') then None
  else st ← wr (stack S) sp' frame; Some (mk_sch st (nco S) (cap S) (running S) (co S) sp').
Definition used_stack (S : schedule) : list Z := drop (Z.to_nat (sp S)) (stack S).
End Coroutine.

(** ** Counting the live coroutines *)

Fixpoint count (l : list (option coroutine)) : Z :=
  match l with [] => 0 | Some _ :: l => 1 + count l | None :: l => count l end.

Definition b2z_some (o : option coroutine) : Z := match o with Some _ => 1 | None => 0 end.

Lemma count_range l : 0 <= count l <= zlen l.
Proof. induction l as [|[c|] l IH]; simpl; zlens; lia. Qed.
Lemma count_app l k : count (l ++ k) = count l + count k.
Proof. induction l as [|[c|] l IH]; simpl; lia. Qed.
Lemma count_none m : count (replicate m None) = 0.
Proof. by induction m. Qed.
Lemma count_insert l i o x : l !! i = Some o -> count (<[i := x]> l) = count l - b2z_some o + b2z_some x.
Proof.
  revert i. induction l as [|y l IH]; intros [|i] Hi; try done; simpl in Hi |- *.
  - injection Hi as ->. destruct o, x; simpl; lia.
  - rewrite (IH i Hi). destruct y; lia.
Qed.
Lemma count_full l : (forall i o, l !! i = Some o -> o <> None) -> count l = zlen l.
Proof.
  induction l as [|[c|] l IH]; intros Hl; [done| |by destruct (Hl 0%nat None)]. simpl. zlens. rewrite IH; [lia|].
  intros i o Hi. by apply (Hl (S i)).
Qed.

Lemma zset_znth {A} (l : list A) i x y :
  znth l i = Some y -> zset l i x = Some (<[Z.to_nat i := x]> l) /\ l !! Z.to_nat i = Some y /\ 0 <= i < zlen l.
Proof.
  intros Hy. pose proof (znth_range _ _ _ Hy). rewrite zset_Some by done. rewrite znth_nat in Hy by lia. done.
Qed.
(** ** The contract: every coroutine has a stack of its own *)

(** The live coroutines, with whether they were started and the used part of
    their stack, and the one that runs. *)
Record machine := mk_mach { alive : gmap Z (bool * list Z); cur : option Z }.

Inductive co_op :=
  | CNew (func ud : Z)
  | CResume (id : Z)
  | CBody (frame : list Z)
  | CLook
  | CYield
  | CReturn
  | CStatus (id : Z).
Inductive co_obs := OUnit | OInt (z : Z) | OFrame (l : list Z).

Definition a_status (A : machine) (id : Z) : Z :=
  match alive A !! id with
  | None => COROUTINE_DEAD
  | Some (started, _) =>
      if decide (cur A = Some id) then COROUTINE_RUNNING
      else if (started : bool) then COROUTINE_SUSPEND else COROUTINE_READY
  end.

Inductive a_step : machine -> co_op -> machine -> co_obs -> Prop :=
  | a_new L c f u id : 0 <= id -> L !! id = None ->
      a_step (mk_mach L c) (CNew f u) (mk_mach (<[id := (false, [])]> L) c) (OInt id)
  | a_resume L id b s : L !! id = Some (b, s) ->
      a_step (mk_mach L None) (CResume id) (mk_mach (<[id := (true, s)]> L) (Some id)) OUnit
  | a_resume_dead L id : L !! id = None ->
      a_step (mk_mach L None) (CResume id) (mk_mach L None) OUnit
  | a_body L id frame :
      a_step (mk_mach L (Some id)) (CBody frame) (mk_mach (<[id := (true, frame)]> L) (Some id)) OUnit
  | a_look L id b s : L !! id = Some (b, s) ->
      a_step (mk_mach L (Some id)) CLook (mk_mach L (Some id)) (OFrame s)
  | a_yield L id : a_step (mk_mach L (Some id)) CYield (mk_mach L None) OUnit
  | a_return L id : a_step (mk_mach L (Some id)) CReturn (mk_mach (delete id L) None) OUnit
  | a_status_of A id : a_step A (CStatus id) A (OInt (a_status A id)).

Section Sim.
Variable junk : nat -> Z.

(** The operations as a program makes them: a body acts only while it runs. *)
Definition run_co_op (S : schedule) (o : co_op) : option (schedule * co_obs) :=
  match o with
  | CNew f u => '(S1, id) ← coroutine_new S f u; Some (S1, OInt id)
  | CResume id => S ← coroutine_resume S id; Some (S, OUnit)
  | CBody frame => S ← body_stack S frame; Some (S, OUnit)
  | CLook => Some (S, OFrame (used_stack S))
  | CYield => S ← coroutine_yield junk S; Some (S, OUnit)
  | CReturn => S ← mainfunc_return S; Some (S, OUnit)
  | CStatus id => z ← coroutine_status S id; Some (S, OInt z)
  end.

(** The calls the library allows. *)
Definition co_enabled (S : schedule) (o : co_op) : Prop :=
  match o with
  | CNew _ _ => cap S < 2 ^ 30
  | CResume id => running S = -1 /\ 0 <= id < cap S
  | CBody frame => running S <> -1 /\ zlen frame < STACK_SIZE
  | CLook | CReturn => running S <> -1
  | CYield => running S <> -1 /\ 0 < sp S
  | CStatus id => 0 <= id < cap S
  end.

(** How a coroutine record holds its stack. *)
Definition co_holds (S : schedule) (run : bool) (C : coroutine) (b : bool) (s : list Z) : Prop :=
  cap_ C = zlen (cstack C) /\ zlen s <= STACK_SIZE /\
  if run then b = true /\ status C = COROUTINE_RUNNING /\ sp S = STACK_SIZE - zlen s /\ used_stack S = s
  else if b then
    status C = COROUTINE_SUSPEND /\ size C = zlen s /\ ctx_sp C = STACK_SIZE - zlen s /\ exists t, cstack C = s ++ t
  else status C = COROUTINE_READY /\ s = [].

Definition is_cur (A : machine) (id : Z) : bool := bool_decide (cur A = Some id).

Record rel (S : schedule) (A : machine) : Prop := {
  rel_stack : zlen (stack S) = STACK_SIZE;
  rel_cap : zlen (co S) = cap S /\ 0 < cap S;
  rel_nco : nco S = count (co S);
  rel_run : running S = match cur A with None => -1 | Some id => id end;
  rel_cur : forall id, cur A = Some id -> exists C, znth (co S) id = Some (Some C);
  rel_live : forall id C, znth (co S) id = Some (Some C) ->
    exists b s, alive A !! id = Some (b, s) /\ co_holds S (is_cur A id) C b s;
  rel_dead : forall id, znth (co S) id = Some None \/ znth (co S) id = None -> alive A !! id = None }.

(** The state of a coroutine that does not run does not depend on the schedule. *)
Lemma holds_idle S S' C b s : co_holds S false C b s -> co_holds S' false C b s.
Proof. done. Qed.

Lemma is_cur_ne A id j : cur A = Some id -> j <> id -> is_cur A j = false.
Proof. intros H Hne. unfold is_cur. apply bool_decide_false. congruence. Qed.
Lemma is_cur_none A j : cur A = None -> is_cur A j = false.
Proof. intros H. unfold is_cur. apply bool_decide_false. congruence. Qed.
Lemma is_cur_eq L id : is_cur (mk_mach L (Some id)) id = true.
Proof. unfold is_cur. by apply bool_decide_true. Qed.

Lemma co_ge_None S A id : rel S A -> cap S <= id -> znth (co S) id = None.
Proof.
  intros HR Hid. destruct (rel_cap _ _ HR) as [Hl Hc]. rewrite znth_nat by lia. apply lookup_ge_None.
  unfold zlen in Hl. lia.
Qed.

(** ** Creation *)

Lemma rel_new S A S' id c :
  rel S A -> alive A !! id = None -> znth (co S') id = Some (Some c) ->
  (forall j, j <> id -> znth (co S') j = znth (co S) j \/ (znth (co S') j = Some None /\ znth (co S) j = None)) ->
  c = _co_new (func c) (ud c) ->
  stack S' = stack S -> sp S' = sp S -> running S' = running S -> zlen (co S') = cap S' -> 0 < cap S' ->
  nco S' = count (co S') ->
  rel S' (mk_mach (<[id := (false, [])]> (alive A)) (cur A)).
Proof.
  intros HR Hd Hid Hother Hc Hst Hsp Hrun Hlen Hcap Hn.
  assert (Hnc : cur A <> Some id).
  { intros E. destruct (rel_cur _ _ HR id E) as [C HC]. destruct (rel_live _ _ HR id C HC) as (? & ? & ? & _). congruence. }
  assert (Hlift : forall run C b s, co_holds S run C b s -> co_holds S' run C b s).
  { intros run C b s. unfold co_holds, used_stack. by rewrite Hst, Hsp. }
  split; cbn [alive cur]; rewrite ?Hst, ?Hrun; try done; try apply HR.
  - intros j Hj. destruct (rel_cur _ _ HR j Hj) as [C HC]. exists C. destruct (Hother j ltac:(congruence)) as [->|[_ ?]]; congruence.
  - intros j C HC. change (is_cur (mk_mach _ (cur A)) j) with (is_cur A j). destruct (decide (j = id)) as [->|Hne].
    + rewrite Hid in HC. injection HC as <-. exists false, []. rewrite lookup_insert_eq. split; [done|].
      unfold is_cur. rewrite bool_decide_false by done. rewrite Hc. by vm_compute.
    + rewrite lookup_insert_ne by done. destruct (Hother j Hne) as [E|[E _]]; [|congruence]. rewrite E in HC.
      destruct (rel_live _ _ HR j C HC) as (b & s & Ha & Hh). exists b, s. split; [done|]. by apply Hlift.
  - intros j Hj. destruct (decide (j = id)) as [->|Hne]; [rewrite Hid in Hj; by destruct Hj|].
    rewrite lookup_insert_ne by done. apply (rel_dead _ _ HR). destruct (Hother j Hne) as [<-|[_ ->]]; [done|by right].
Qed.

Lemma new_loop_ok fuel S c i j :
  0 <= i <= j -> j < cap S -> znth (co S) ((j + nco S) mod cap S) = Some None ->
  (forall k, i <= k < cap S -> exists o, znth (co S) ((k + nco S) mod cap S) = Some o) ->
  (Z.to_nat (cap S - i) < fuel)%nat ->
  exists id, znth (co S) id = Some None /\
    new_loop fuel S c i = Some (mk_sch (stack S) (nco S + 1) (cap S) (running S) (<[Z.to_nat id := Some c]> (co S)) (sp S), id).
Proof.
  revert i. induction fuel as [|fuel IH]; intros i Hij Hj Hfree Hall Hf; [lia|]. cbn [new_loop].
  rewrite (proj2 (Z.ltb_lt i (cap S))) by lia. destruct (Hall i ltac:(lia)) as [o Ho]. rewrite Ho. cbn [mbind option_bind].
  destruct o as [c'|].
  - destruct (Z.eq_dec i j) as [->|]; [congruence|]. apply IH; try lia; [done|]. intros k Hk. apply Hall. lia.
  - destruct (zset_znth _ _ (Some c) _ Ho) as (-> & _ & _). cbn [mbind option_bind]. by eexists.
Qed.

Lemma new_ok S A f u :
  rel S A -> cap S < 2 ^ 30 ->
  exists S' id, coroutine_new S f u = Some (S', id) /\ 0 <= id /\ alive A !! id = None /\
    rel S' (mk_mach (<[id := (false, [])]> (alive A)) (cur A)).
Proof.
  intros HR Hmax. destruct (rel_cap _ _ HR) as [Hlen Hcap]. pose proof (rel_nco _ _ HR) as Hnco.
  pose proof (count_range (co S)) as Hcr. unfold coroutine_new. destruct (Z.leb_spec (cap S) (nco S)) as [Hfull|Hroom].
  - rewrite (proj2 (Z.leb_gt (2 ^ 31) (cap S * 2))) by lia. set (l := co S ++ replicate (Z.to_nat (cap S)) None).
    assert (Hl : zlen l = cap S * 2) by (unfold l; zlens; lia).
    assert (Hnone : znth l (cap S) = Some None).
    { rewrite znth_nat by lia. unfold l. rewrite lookup_app_r by (unfold zlen in Hlen; lia). apply lookup_replicate. unfold zlen in Hlen. split; [done|lia]. }
    destruct (zset_znth l (cap S) (Some (_co_new f u)) _ Hnone) as (-> & Hlk & _). cbn [mbind option_bind].
    do 2 eexists. split; [done|]. split; [lia|]. assert (Hd : alive A !! cap S = None).
    { apply (rel_dead _ _ HR). right. eapply co_ge_None; [done|lia]. }
    split; [done|]. eapply (rel_new S A _ _ (_co_new f u)); try done; cbn [co stack sp running cap nco].
    + rewrite znth_insert by lia. by rewrite Z.eqb_refl.
    + intros j Hj. rewrite znth_insert by lia. rewrite (proj2 (Z.eqb_neq j _)) by done.
      destruct (Z.ltb_spec j 0); [left; unfold znth; by rewrite (proj2 (Z.leb_gt 0 j)) by lia|].
      rewrite !znth_nat by lia. unfold l. destruct (Z.ltb_spec j (cap S)).
      * left. rewrite lookup_app_l by (unfold zlen in Hlen; lia). done.
      * rewrite lookup_app_r by (unfold zlen in Hlen; lia). rewrite (lookup_ge_None_2 (co S)) by (unfold zlen in Hlen; lia).
        destruct (decide (Z.to_nat j - length (co S) < Z.to_nat (cap S))%nat).
        -- right. by rewrite lookup_replicate_2.
        -- left. apply lookup_ge_None. rewrite length_replicate. lia.
    + zlens; lia.
    + zlens; lia.
    + rewrite (count_insert _ _ _ _ Hlk). unfold l. rewrite count_app, count_none. simpl. lia.
  - assert (Hall : forall k, 0 <= k < cap S -> exists o, znth (co S) ((k + nco S) mod cap S) = Some o).
    { intros k Hk. apply znth_is_Some. rewrite Hlen. by apply Z.mod_pos_bound. }
    assert (Hex : exists j, 0 <= j < cap S /\ znth (co S) ((j + nco S) mod cap S) = Some None).
    { destruct (decide (Exists (fun o => o = None) (co S))) as [He|Hne].
      - apply Exists_exists in He as (o & Hin & ->). apply list_elem_of_lookup_1 in Hin as [k Hk].
        pose proof (lookup_lt_Some _ _ _ Hk). set (x := (Z.of_nat k - nco S) mod cap S).
        exists x. split; [by apply Z.mod_pos_bound|].
        replace ((x + nco S) mod cap S) with (Z.of_nat k); [rewrite znth_nat by lia; by rewrite Nat2Z.id|].
        unfold x. rewrite Zplus_mod_idemp_l. replace (Z.of_nat k - nco S + nco S) with (Z.of_nat k) by lia.
        symmetry. apply Z.mod_small. unfold zlen in Hlen. lia.
      - exfalso. assert (count (co S) = zlen (co S)); [|lia]. apply count_full. intros i o Hi ->. apply Hne, Exists_exists.
        exists None. split; [by eapply list_elem_of_lookup_2|done]. }
    destruct Hex as (j & Hj & Hfree).
    destruct (new_loop_ok (Datatypes.S (Z.to_nat (cap S))) S (_co_new f u) 0 j) as (id & Hid & ->); [lia|lia|done| |lia|].
    { intros k Hk. apply Hall. lia. }
    pose proof (znth_range _ _ _ Hid). do 2 eexists. split; [done|]. split; [lia|].
    split; [apply (rel_dead _ _ HR); by left|]. eapply (rel_new S A _ _ (_co_new f u)); try done; cbn [co stack sp running cap nco].
    + apply (rel_dead _ _ HR). by left.
    + rewrite znth_insert by done. by rewrite Z.eqb_refl.
    + intros k Hk. left. rewrite znth_insert by done. by rewrite (proj2 (Z.eqb_neq k id)).
    + zlens; lia.
    + destruct (zset_znth _ _ (Some (_co_new f u)) _ Hid) as (_ & Hlk & _). rewrite (count_insert _ _ _ _ Hlk). simpl. lia.
Qed.

(** ** Switching *)

(** Replacing the record of a live coroutine, with a new stack and status. *)
Lemma rel_update S A S' id C C' b s c' :
  rel S A -> znth (co S) id = Some (Some C) -> co S' = <[Z.to_nat id := Some C']> (co S) ->
  zlen (stack S') = STACK_SIZE -> cap S' = cap S -> nco S' = nco S ->
  running S' = match c' with None => -1 | Some j => j end -> (forall j, c' = Some j -> j = id) ->
  (forall j, cur A = Some j -> j = id) ->
  co_holds S' (bool_decide (c' = Some id)) C' b s ->
  rel S' (mk_mach (<[id := (b, s)]> (alive A)) c').
Proof.
  intros HR HC Hco Hst Hcap Hn Hrun Hc' Hcur Hh. pose proof (znth_range _ _ _ HC) as Hid.
  destruct (zset_znth _ _ (Some C') _ HC) as (_ & Hlk & _). destruct (rel_cap _ _ HR) as [Hl Hp].
  assert (Hz : forall j, znth (co S') j = if j =? id then Some (Some C') else znth (co S) j).
  { intros j. rewrite Hco. by apply znth_insert. }
  split; cbn [alive cur]; try done.
  - rewrite Hco, Hcap. zlens. done.
  - rewrite Hn, Hco, (count_insert _ _ _ _ Hlk), (rel_nco _ _ HR). simpl. lia.
  - intros j Hj. rewrite (Hc' j Hj), Hz, Z.eqb_refl. by eexists.
  - intros j Cj Hj. rewrite Hz in Hj. destruct (Z.eqb_spec j id) as [->|Hne].
    + injection Hj as <-. exists b, s. rewrite lookup_insert_eq. by split.
    + rewrite lookup_insert_ne by done. destruct (rel_live _ _ HR j Cj Hj) as (bj & sj & Ha & Hhj). exists bj, sj.
      split; [done|]. unfold is_cur in *. rewrite bool_decide_false in Hhj by (intros E; by apply Hne, Hcur).
      cbn [cur]. rewrite bool_decide_false by (intros E; by apply Hne, Hc'). by apply (holds_idle S).
  - intros j Hj. rewrite Hz in Hj. destruct (decide (j = id)) as [E|Hne].
    { rewrite E, Z.eqb_refl in Hj. by destruct Hj. }
    rewrite (proj2 (Z.eqb_neq j id)) in Hj by done. rewrite lookup_insert_ne by done. by apply (rel_dead _ _ HR).
Qed.

Lemma used_write st frame st' :
  zlen st = STACK_SIZE -> wr st (STACK_SIZE - zlen frame) frame = Some st' ->
  zlen st' = STACK_SIZE /\ drop (Z.to_nat (STACK_SIZE - zlen frame)) st' = frame.
Proof.
  intros Hst Hw. rewrite (wr_zlen _ _ _ _ Hw). split; [done|]. pose proof (zlen_nonneg frame).
  destruct (wr_split _ _ _ _ Hw) as (pre & y & t & -> & -> & Hpre & Hy). zlens.
  assert (t = []) as -> by (apply zlen_0_inv; lia). rewrite app_nil_r.
  replace (Z.to_nat (STACK_SIZE - zlen frame)) with (length pre) by (unfold zlen in *; lia). apply drop_app_length.
Qed.

Lemma resume_ok S A id :
  rel S A -> running S = -1 -> 0 <= id < cap S ->
  exists S' A', coroutine_resume S id = Some S' /\ a_step A (CResume id) A' OUnit /\ rel S' A'.
Proof.
  intros HR Hrun Hid. destruct (rel_cap _ _ HR) as [Hl Hp]. unfold coroutine_resume. rewrite Hrun. cbn [Z.eqb Pos.eqb negb].
  rewrite (proj2 (Z.leb_le 0 id)), (proj2 (Z.ltb_lt id (cap S))) by lia. cbn [andb negb].
  assert (Hcur : cur A = None).
  { pose proof (rel_run _ _ HR) as Hr. destruct (cur A) as [j|] eqn:E; [|done]. destruct (rel_cur _ _ HR j E) as [C HC].
    apply znth_range in HC. lia. }
  destruct A as [L c]. cbn [cur] in Hcur. subst c.
  destruct (znth_is_Some (co S) id) as [slot Hslot]; [lia|]. rewrite Hslot. cbn [mbind option_bind].
  destruct slot as [C|].
  2: { exists S, (mk_mach L None). split_and!; [done| |done]. constructor. apply (rel_dead _ _ HR). by left. }
  destruct (rel_live _ _ HR id C Hslot) as (b & s & Ha & Hcap & Hmax & Hh). rewrite is_cur_none in Hh by done. cbn [alive] in Ha.
  destruct b; cbn [negb] in Hh.
  - destruct Hh as (Hst & Hsz & Hsp & t & Hbuf). rewrite Hst. cbn [Z.eqb Pos.eqb COROUTINE_SUSPEND COROUTINE_READY].
    change (COROUTINE_SUSPEND =? COROUTINE_READY) with false. change (COROUTINE_SUSPEND =? COROUTINE_SUSPEND) with true. cbv iota.
    rewrite Hsz, Hbuf, rd_front by done. cbn [mbind option_bind]. pose proof (zlen_nonneg s).
    destruct (wr_is_Some (stack S) (STACK_SIZE - zlen s) s) as [st' Hw]; [lia|rewrite (rel_stack _ _ HR); lia|].
    rewrite Hw. cbn [mbind option_bind]. destruct (used_write _ _ _ (rel_stack _ _ HR) Hw) as [Hl' Hd'].
    destruct (zset_znth _ _ (Some (mk_co (func C) (ud C) (ctx_sp C) (cap_ C) (zlen s) COROUTINE_RUNNING (s ++ t))) _ Hslot) as (-> & _ & _).
    cbn [mbind option_bind]. eexists _, (mk_mach (<[id := (true, s)]> L) (Some id)). split; [done|].
    split; [by eapply a_resume|]. eapply (rel_update S (mk_mach L None) _ id C); try done.
    + by intros j [= ->].
    + rewrite bool_decide_true by done. split_and!; cbn [cap_ cstack status sp]; try done; [congruence|].
      unfold used_stack. cbn [sp stack]. by rewrite Hsp.
  - destruct Hh as [Hst ->]. rewrite Hst. change (COROUTINE_READY =? COROUTINE_READY) with true. cbv iota.
    destruct (zset_znth _ _ (Some (mk_co (func C) (ud C) (ctx_sp C) (cap_ C) (size C) COROUTINE_RUNNING (cstack C))) _ Hslot) as (-> & _ & _).
    cbn [mbind option_bind]. eexists _, (mk_mach (<[id := (true, [])]> L) (Some id)). split; [done|].
    split; [by eapply a_resume|]. eapply (rel_update S (mk_mach L None) _ id C); try done.
    + apply HR.
    + by intros j [= ->].
    + rewrite bool_decide_true by done. split_and!; cbn [cap_ cstack status sp]; try done.
      unfold used_stack. cbn [sp stack]. apply drop_ge. pose proof (rel_stack _ _ HR). unfold zlen in *. lia.
Qed.

(** The coroutine that runs. *)
Lemma running_co S A :
  rel S A -> running S <> -1 ->
  exists id C s, cur A = Some id /\ running S = id /\ 0 <= id /\ znth (co S) id = Some (Some C) /\
    alive A !! id = Some (true, s) /\ co_holds S true C true s.
Proof.
  intros HR Hrun. pose proof (rel_run _ _ HR) as Hr. destruct (cur A) as [id|] eqn:E; [|done].
  destruct (rel_cur _ _ HR id E) as [C HC]. destruct (rel_live _ _ HR id C HC) as (b & s & Ha & Hh).
  pose proof (znth_range _ _ _ HC). unfold is_cur in Hh. rewrite bool_decide_true in Hh by done.
  assert (b = true) as -> by apply Hh. exists id, C, s. split_and!; try done; lia.
Qed.

Lemma body_ok S A frame :
  rel S A -> running S <> -1 -> zlen frame < STACK_SIZE ->
  exists S' A', body_stack S frame = Some S' /\ a_step A (CBody frame) A' OUnit /\ rel S' A'.
Proof.
  intros HR Hrun Hf. destruct (running_co S A HR Hrun) as (id & C & s & Hcur & Hid & Hid0 & HC & Ha & Hcap & Hmax & Hh).
  pose proof (zlen_nonneg frame). unfold body_stack. rewrite (proj2 (Z.ltb_lt _ _)) by lia. cbn [negb].
  destruct (wr_is_Some (stack S) (STACK_SIZE - zlen frame) frame) as [st' Hw]; [lia|rewrite (rel_stack _ _ HR); lia|].
  rewrite Hw. cbn [mbind option_bind]. destruct (used_write _ _ _ (rel_stack _ _ HR) Hw) as [Hl' Hd'].
  destruct A as [L c]. cbn [cur] in Hcur. subst c. eexists _, _. split; [done|]. split; [apply a_body|].
  eapply (rel_update S (mk_mach L (Some id)) _ id C C); try done; cbn [co stack cap nco running].
  - symmetry. apply list_insert_id. by destruct (zset_znth _ _ (Some C) _ HC) as (_ & ? & _).
  - by intros j [= ->].
  - by intros j [= ->].
  - rewrite bool_decide_true by done. destruct Hh as (_ & Hst & _). split_and!; try done. lia.
Qed.

Lemma yield_ok S A :
  rel S A -> running S <> -1 -> 0 < sp S ->
  exists S' A', coroutine_yield junk S = Some S' /\ a_step A CYield A' OUnit /\ rel S' A'.
Proof.
  intros HR Hrun Hsp0. destruct (running_co S A HR Hrun) as (id & C & s & Hcur & Hid & Hid0 & HC & Ha & Hcap & Hmax & Hh).
  destruct Hh as (_ & Hst & Hsp & Hused). unfold coroutine_yield. rewrite Hid, (proj2 (Z.leb_le 0 id)) by done. cbn [negb].
  rewrite HC. cbn [mbind option_bind]. rewrite (proj2 (Z.ltb_lt 0 (sp S))) by done. cbn [negb]. unfold _save_stack.
  pose proof (zlen_nonneg s). replace (STACK_SIZE - sp S) with (zlen s) by lia. rewrite (proj2 (Z.leb_le _ _)) by done. cbn [negb].
  set (C1 := if cap_ C <? zlen s then _ else C).
  assert (HC1 : cap_ C1 = zlen (cstack C1) /\ zlen s <= zlen (cstack C1) /\ status C1 = status C).
  { unfold C1. destruct (Z.ltb_spec (cap_ C) (zlen s)); cbn [cap_ cstack status]; [|split_and!; lia].
    assert (Hg : zlen (garbage junk 0 (Z.to_nat (zlen s))) = zlen s) by (unfold zlen at 1; rewrite length_garbage; lia).
    rewrite Hg. split_and!; done || lia. }
  destruct HC1 as (Hc1 & Hc2 & Hc3).
  assert (Hrd : rd (stack S) (sp S) (zlen s) = Some s).
  { rewrite <- (take_drop (Z.to_nat (sp S)) (stack S)). fold (used_stack S). rewrite Hused, <- (app_nil_r s) at 1.
    apply rd_seg; [|done]. zlens. pose proof (rel_stack _ _ HR). lia. }
  rewrite Hrd. cbn [mbind option_bind].
  destruct (split_seg (cstack C1) 0 (zlen s)) as (pre & y & t & Hb & Hp & Hy); [lia..|]. apply zlen_0_inv in Hp as ->.
  cbn [app] in Hb. rewrite Hb, wr_front by done. cbn [mbind option_bind].
  set (C2 := mk_co _ _ (sp S) _ _ _ _). destruct (zset_znth _ _ (Some C2) _ HC) as (-> & _ & _). cbn [mbind option_bind].
  destruct A as [L c]. cbn [cur alive] in *. subst c. eexists _, _. split; [done|]. split; [apply a_yield|].
  rewrite <- (insert_id L id (true, s)) by done.
  eapply (rel_update S (mk_mach L (Some id)) _ id C C2); try done.
  - apply HR.
  - by intros j [= ->].
  - rewrite bool_decide_false by done. split_and!; cbn [C2 cap_ cstack status size ctx_sp]; try done; try lia.
    + rewrite Hc1, Hb. zlens. lia.
    + by exists t.
Qed.

Lemma return_ok S A :
  rel S A -> running S <> -1 ->
  exists S' A', mainfunc_return S = Some S' /\ a_step A CReturn A' OUnit /\ rel S' A'.
Proof.
  intros HR Hrun. destruct (running_co S A HR Hrun) as (id & C & s & Hcur & Hid & Hid0 & HC & Ha & _).
  unfold mainfunc_return. rewrite Hid, HC. cbn [mbind option_bind].
  destruct (zset_znth _ _ None _ HC) as (-> & Hlk & Hr). cbn [mbind option_bind].
  destruct A as [L c]. cbn [cur alive] in *. subst c. eexists _, _. split; [done|]. split; [apply a_return|].
  assert (Hz : forall j, znth (<[Z.to_nat id := None]> (co S)) j = if j =? id then Some None else znth (co S) j)
    by (intros j; by apply znth_insert).
  destruct (rel_cap _ _ HR). split; cbn [alive cur stack co cap nco running]; try done; try apply HR.
  - zlens. done.
  - rewrite (count_insert _ _ _ _ Hlk), (rel_nco _ _ HR). simpl. lia.
  - intros j Cj Hj. rewrite Hz in Hj. destruct (Z.eqb_spec j id) as [->|Hne]; [done|]. rewrite lookup_delete_ne by done.
    destruct (rel_live _ _ HR j Cj Hj) as (bj & sj & Haj & Hhj). exists bj, sj. split; [done|].
    rewrite is_cur_ne with (id := id) in Hhj by done. by rewrite is_cur_none.
  - intros j Hj. rewrite Hz in Hj. destruct (decide (j = id)) as [->|Hne]; [apply lookup_delete_eq|].
    rewrite (proj2 (Z.eqb_neq j id)) in Hj by done. rewrite lookup_delete_ne by done. by apply (rel_dead _ _ HR).
Qed.

Lemma status_ok S A id :
  rel S A -> 0 <= id < cap S -> coroutine_status S id = Some (a_status A id).
Proof.
  intros HR Hid. destruct (rel_cap _ _ HR). unfold coroutine_status, a_status.
  rewrite (proj2 (Z.leb_le 0 id)), (proj2 (Z.ltb_lt id (cap S))) by lia. cbn [andb negb].
  destruct (znth_is_Some (co S) id) as [slot Hslot]; [lia|]. rewrite Hslot. cbn [mbind option_bind]. destruct slot as [C|].
  - destruct (rel_live _ _ HR id C Hslot) as (b & s & -> & _ & _ & Hh). unfold is_cur in Hh.
    destruct (decide (cur A = Some id)) as [E|E].
    + rewrite bool_decide_true in Hh by done. f_equal. apply Hh.
    + rewrite bool_decide_false in Hh by done. f_equal. destruct b; apply Hh.
  - rewrite (rel_dead _ _ HR id) by (by left). done.
Qed.

(** ** Programs *)

Fixpoint run_co_ops (S : schedule) (os : list co_op) : option (schedule * list co_obs) :=
  match os with
  | [] => Some (S, [])
  | o :: os => '(S1, r) ← run_co_op S o; '(S2, rs) ← run_co_ops S1 os; Some (S2, r :: rs)
  end.
Inductive a_steps : machine -> list co_op -> machine -> list co_obs -> Prop :=
  | a_nil A : a_steps A [] A []
  | a_cons A o A1 r os A2 rs : a_step A o A1 r -> a_steps A1 os A2 rs -> a_steps A (o :: os) A2 (r :: rs).

(** Every call of the program is one the library allows when it is made. *)
Definition co_allowed (S : schedule) (o : co_op) : bool :=
  match o with
  | CNew _ _ => cap S <? 2 ^ 30
  | CResume id => (running S =? -1) && (0 <=? id) && (id <? cap S)
  | CBody frame => negb (running S =? -1) && (zlen frame <? STACK_SIZE)
  | CLook | CReturn => negb (running S =? -1)
  | CYield => negb (running S =? -1) && (0 <? sp S)
  | CStatus id => (0 <=? id) && (id <? cap S)
  end.
Fixpoint co_program (S : schedule) (os : list co_op) : bool :=
  match os with
  | [] => true
  | o :: os => co_allowed S o && match run_co_op S o with Some (S1, _) => co_program S1 os | None => true end
  end.

Lemma co_allowed_ok S o : co_allowed S o = true -> co_enabled S o.
Proof.
  destruct o; simpl; rewrite ?andb_true_iff, ?negb_true_iff, ?Z.ltb_lt, ?Z.leb_le, ?Z.eqb_eq, ?Z.eqb_neq; tauto.
Qed.

Lemma run_co_op_ok S A o :
  rel S A -> co_enabled S o ->
  exists S' A' r, run_co_op S o = Some (S', r) /\ a_step A o A' r /\ rel S' A'.
Proof.
  intros HR He. destruct o as [f u|id|frame| | | |id]; cbn [run_co_op co_enabled] in *.
  - destruct (new_ok S A f u HR He) as (S' & id & -> & Hid & Hd & HR'). cbn [mbind option_bind].
    destruct A as [L c]. eexists _, _, _. split; [done|]. split; [by apply a_new|done].
  - destruct He as [Hr Hid]. destruct (resume_ok S A id HR Hr Hid) as (S' & A' & -> & Ha & HR'). by exists S', A', OUnit.
  - destruct He as [Hr Hf]. destruct (body_ok S A frame HR Hr Hf) as (S' & A' & -> & Ha & HR'). by exists S', A', OUnit.
  - destruct (running_co S A HR He) as (id & C & s & Hcur & _ & _ & _ & Ha & _ & _ & _ & _ & _ & Hu).
    exists S, A, (OFrame (used_stack S)). rewrite Hu. destruct A as [L c]. cbn [cur alive] in *. subst c.
    split_and!; try done. by eapply a_look.
  - destruct He as [Hr Hsp]. destruct (yield_ok S A HR Hr Hsp) as (S' & A' & -> & Ha & HR'). by exists S', A', OUnit.
  - destruct (return_ok S A HR He) as (S' & A' & -> & Ha & HR'). by exists S', A', OUnit.
  - rewrite (status_ok S A id HR He). cbn [mbind option_bind]. exists S, A, (OInt (a_status A id)). split_and!; try done.
    constructor.
Qed.

Lemma run_co_ops_ok os S A :
  rel S A -> co_program S os = true ->
  exists S' A' rs, run_co_ops S os = Some (S', rs) /\ a_steps A os A' rs /\ rel S' A'.
Proof.
  revert S A. induction os as [|o os IH]; intros S A HR Hp; cbn [co_program run_co_ops] in *.
  { exists S, A, []. split_and!; try done. constructor. }
  apply andb_true_iff in Hp as [Ho Hp]. apply co_allowed_ok in Ho.
  destruct (run_co_op_ok S A o HR Ho) as (S1 & A1 & r & Hr & Ha & HR1). rewrite Hr in *. cbn [mbind option_bind].
  destruct (IH S1 A1 HR1 Hp) as (S2 & A2 & rs & -> & Has & HR2). cbn [mbind option_bind].
  exists S2, A2, (r :: rs). split_and!; try done. by eapply a_cons.
Qed.

Lemma open_rel : rel (coroutine_open junk) (mk_mach ∅ None).
Proof.
  assert (Hl : zlen (stack (coroutine_open junk)) = STACK_SIZE).
  { cbn [coroutine_open stack]. unfold zlen. rewrite length_garbage. apply Z2Nat.id. by apply Z.leb_le. }
  split; [exact Hl|..]; cbn [coroutine_open co cap nco running cur alive]; [by split|done|done|done| |done].
  intros id C HC. pose proof (znth_range _ _ _ HC). rewrite znth_nat in HC by lia. by apply lookup_replicate in HC as [? _].
Qed.

(** C14: the shared stack is invisible.  Any program of creations, resumes, yields,
    returns and arbitrary changes of the running stack behaves as on a machine
    where every coroutine has a stack of its own: a resumed coroutine finds
    exactly the stack it yielded with.  The coroutines keep their identifiers,
    statuses follow ready, running, suspended, dead, and no assertion fails. *)
Theorem coroutine_private_stacks (os : list co_op) :
  co_program (coroutine_open junk) os = true ->
  exists S' A' rs, run_co_ops (coroutine_open junk) os = Some (S', rs) /\
    a_steps (mk_mach ∅ None) os A' rs /\ rel S' A'.
Proof. intros Hp. apply run_co_ops_ok; [apply open_rel|done]. Qed.
End Sim.

(** ** Instances *)

(** A coroutine that yields and goes on, and one that is only created. *)
Definition sample_co_ops : list co_op :=
  [CNew 1 0; CResume 0; CBody [1; 2; 3]; CYield; CNew 2 0; CStatus 1; CResume 0; CLook].

Lemma coroutine_private_stacks_witness :
  exists S' A' rs, run_co_ops (fun _ => 0) (coroutine_open (fun _ => 0)) sample_co_ops = Some (S', rs) /\
    a_steps (mk_mach ∅ None) sample_co_ops A' rs /\ rel S' A'.
Proof. apply (coroutine_private_stacks (fun _ => 0) sample_co_ops). vm_compute. reflexivity. Defined.
