(* ===== verification/LdbCoding.v ===== *)
(** * leveldb: util/coding.cc, util/coding.h, slice.h and status.h

    Fixed-width, varint and length-prefixed encodings.  A [std::string] and a
    [Slice] are the list of their bytes; a [const char*] range [p, limit) is a
    buffer with two offsets into it, and a read outside the buffer is [None].
    [varint] and [vdec] are the reference encoding and decoding in base 128. *)

From Stdlib Require Import ZArith Lia Bool String.
From stdpp Require Import base option list numbers.
From S2P Require Import Prelude Endian.
Open Scope Z_scope.

(** What the code depends on of its host: [port::kLittleEndian], and the
    contents of memory that is allocated and not yet written. *)
Class Platform := { kLittleEndian : bool; uninit : nat -> Z }.

(** ** Status *)
Inductive Status := OK | NotFound | Corruption (msg : string) | IOError (msg : string).
Definition ok (s : Status) : bool := match s with OK => true | _ => false end.

(** ** Slice *)
Definition remove_prefix (s : list Z) (n : Z) : option (list Z) :=
  if (0 <=? n) && (n <=? zlen s) then Some (drop (Z.to_nat n) s) else None.

Definition compare (a b : list Z) : Z :=
  let min_len := if zlen a <? zlen b then zlen a else zlen b in
  let r := memcmp (take (Z.to_nat min_len) a) (take (Z.to_nat min_len) b) in
  if r =? 0 then
    if zlen a <? zlen b then -1
    else if zlen b <? zlen a then 1 else r
  else r.

Section Coding.
Context {P : Platform}.

(** A local array [char buf[n]]. *)
Definition char_buf (n : nat) : list Z := garbage uninit 0 n.

(** ** Fixed-width integers *)
Definition EncodeFixed32 (buf : list Z) (o value : Z) : option (list Z) :=
  if kLittleEndian then wr buf o (host_store false 4 value)
  else
    buf ← zset buf (o + 0) (Z.land value 255);
    buf ← zset buf (o + 1) (Z.land (Z.shiftr value 8) 255);
    buf ← zset buf (o + 2) (Z.land (Z.shiftr value 16) 255);
    zset buf (o + 3) (Z.land (Z.shiftr value 24) 255).

Definition EncodeFixed64 (buf : list Z) (o value : Z) : option (list Z) :=
  if kLittleEndian then wr buf o (host_store false 8 value)
  else
    buf ← zset buf (o + 0) (Z.land value 255);
    buf ← zset buf (o + 1) (Z.land (Z.shiftr value 8) 255);
    buf ← zset buf (o + 2) (Z.land (Z.shiftr value 16) 255);
    buf ← zset buf (o + 3) (Z.land (Z.shiftr value 24) 255);
    buf ← zset buf (o + 4) (Z.land (Z.shiftr value 32) 255);
    buf ← zset buf (o + 5) (Z.land (Z.shiftr value 40) 255);
    buf ← zset buf (o + 6) (Z.land (Z.shiftr value 48) 255);
    zset buf (o + 7) (Z.land (Z.shiftr value 56) 255).

Definition PutFixed32 (dst : list Z) (value : Z) : option (list Z) :=
  buf ← EncodeFixed32 (char_buf 4) 0 value; Some (dst ++ buf).
Definition PutFixed64 (dst : list Z) (value : Z) : option (list Z) :=
  buf ← EncodeFixed64 (char_buf 8) 0 value; Some (dst ++ buf).

Definition DecodeFixed32 (buf : list Z) (ptr : Z) : option Z :=
  if kLittleEndian then x ← rd buf ptr 4; Some (host_load false x)
  else
    b0 ← znth buf (ptr + 0);
    b1 ← znth buf (ptr + 1);
    b2 ← znth buf (ptr + 2);
    b3 ← znth buf (ptr + 3);
    Some (Z.lor (Z.lor (Z.lor b0 (u32 (Z.shiftl b1 8))) (u32 (Z.shiftl b2 16))) (u32 (Z.shiftl b3 24))).

Definition DecodeFixed64 (buf : list Z) (ptr : Z) : option Z :=
  if kLittleEndian then x ← rd buf ptr 8; Some (host_load false x)
  else
    lo ← DecodeFixed32 buf ptr;
    hi ← DecodeFixed32 buf (ptr + 4);
    Some (Z.lor (u64 (Z.shiftl hi 32)) lo).

(** ** Varints *)

(** [*(ptr++) = x] through an [unsigned char*]. *)
Definition put (bp : list Z * Z) (x : Z) : option (list Z * Z) :=
  b ← zset bp.1 bp.2 (u8 x); Some (b, bp.2 + 1).

Definition B : Z := 128.

Definition EncodeVarint32 (dst : list Z) (ptr v : Z) : option (list Z * Z) :=
  let bp := (dst, ptr) in
  if v <? Z.shiftl 1 7 then put bp v
  else if v <? Z.shiftl 1 14 then
    bp ← put bp (Z.lor v B);
    put bp (Z.shiftr v 7)
  else if v <? Z.shiftl 1 21 then
    bp ← put bp (Z.lor v B);
    bp ← put bp (Z.lor (Z.shiftr v 7) B);
    put bp (Z.shiftr v 14)
  else if v <? Z.shiftl 1 28 then
    bp ← put bp (Z.lor v B);
    bp ← put bp (Z.lor (Z.shiftr v 7) B);
    bp ← put bp (Z.lor (Z.shiftr v 14) B);
    put bp (Z.shiftr v 21)
  else
    bp ← put bp (Z.lor v B);
    bp ← put bp (Z.lor (Z.shiftr v 7) B);
    bp ← put bp (Z.lor (Z.shiftr v 14) B);
    bp ← put bp (Z.lor (Z.shiftr v 21) B);
    put bp (Z.shiftr v 28).

(** [dst->append(buf, ptr - buf)]. *)
Definition append_buf (dst : list Z) (bp : list Z * Z) : option (list Z) :=
  x ← rd bp.1 0 bp.2; Some (dst ++ x).

Definition PutVarint32 (dst : list Z) (v : Z) : option (list Z) :=
  bp ← EncodeVarint32 (char_buf 5) 0 v; append_buf dst bp.

Fixpoint EncodeVarint64_loop (fuel : nat) (bp : list Z * Z) (v : Z) : option (list Z * Z) :=
  if B <=? v then
    match fuel with
    | O => None
    | S fuel => bp ← put bp (Z.lor (Z.land v (B - 1)) B); EncodeVarint64_loop fuel bp (Z.shiftr v 7)
    end
  else put bp v.
Definition EncodeVarint64 (dst : list Z) (ptr v : Z) : option (list Z * Z) :=
  EncodeVarint64_loop 10 (dst, ptr) v.

Definition PutVarint64 (dst : list Z) (v : Z) : option (list Z) :=
  bp ← EncodeVarint64 (char_buf 10) 0 v; append_buf dst bp.

(** The size is a [size_t] converted to [uint32_t]. *)
Definition PutLengthPrefixedSlice (dst value : list Z) : option (list Z) :=
  dst ← PutVarint32 dst (u32 (zlen value)); Some (dst ++ value).

Fixpoint VarintLength_loop (fuel : nat) (v len : Z) : option Z :=
  if 128 <=? v then
    match fuel with
    | O => None
    | S fuel => VarintLength_loop fuel (Z.shiftr v 7) (len + 1)
    end
  else Some len.
Definition VarintLength (v : Z) : option Z := VarintLength_loop 10 v 1.

(** The pointer returned and the value stored; the inner [None] is [nullptr]. *)
Fixpoint GetVarint32Ptr_loop (fuel : nat) (buf : list Z) (p limit shift result : Z) : option (option (Z * Z)) :=
  if (shift <=? 28) && (p <? limit) then
    match fuel with
    | O => None
    | S fuel =>
        byte ← znth buf p;
        let p := p + 1 in
        if negb (Z.land byte 128 =? 0)
        then GetVarint32Ptr_loop fuel buf p limit (shift + 7)
               (Z.lor result (u32 (Z.shiftl (Z.land byte 127) shift)))
        else Some (Some (p, Z.lor result (u32 (Z.shiftl byte shift))))
    end
  else Some None.
Definition GetVarint32PtrFallback (buf : list Z) (p limit : Z) : option (option (Z * Z)) :=
  GetVarint32Ptr_loop 5 buf p limit 0 0.

Definition GetVarint32Ptr (buf : list Z) (p limit : Z) : option (option (Z * Z)) :=
  if p <? limit then
    result ← znth buf p;
    if Z.land result 128 =? 0 then Some (Some (p + 1, result))
    else GetVarint32PtrFallback buf p limit
  else GetVarint32PtrFallback buf p limit.

(** The slice after the call, and the value when the call returns true. *)
Definition GetVarint32 (input : list Z) : option (list Z * option Z) :=
  q ← GetVarint32Ptr input 0 (zlen input);
  match q with
  | None => Some (input, None)
  | Some (q, v) => rest ← rd input q (zlen input - q); Some (rest, Some v)
  end.

Fixpoint GetVarint64Ptr_loop (fuel : nat) (buf : list Z) (p limit shift result : Z) : option (option (Z * Z)) :=
  if (shift <=? 63) && (p <? limit) then
    match fuel with
    | O => None
    | S fuel =>
        byte ← znth buf p;
        let p := p + 1 in
        if negb (Z.land byte 128 =? 0)
        then GetVarint64Ptr_loop fuel buf p limit (shift + 7)
               (Z.lor result (u64 (Z.shiftl (Z.land byte 127) shift)))
        else Some (Some (p, Z.lor result (u64 (Z.shiftl byte shift))))
    end
  else Some None.
Definition GetVarint64Ptr (buf : list Z) (p limit : Z) : option (option (Z * Z)) :=
  GetVarint64Ptr_loop 10 buf p limit 0 0.

Definition GetVarint64 (input : list Z) : option (list Z * option Z) :=
  q ← GetVarint64Ptr input 0 (zlen input);
  match q with
  | None => Some (input, None)
  | Some (q, v) => rest ← rd input q (zlen input - q); Some (rest, Some v)
  end.

(** The pointer version: the offset after the slice, and the slice. *)
Definition GetLengthPrefixedSlicePtr (buf : list Z) (p limit : Z) : option (option (Z * list Z)) :=
  q ← GetVarint32Ptr buf p limit;
  match q with
  | None => Some None
  | Some (p, len) =>
      if limit <? p + len then Some None
      else x ← rd buf p len; Some (Some (p + len, x))
  end.

(** When the length is read and the slice is too short for it, the length has
    been consumed. *)
Definition GetLengthPrefixedSlice (input : list Z) : option (list Z * option (list Z)) :=
  '(input, r) ← GetVarint32 input;
  match r with
  | None => Some (input, None)
  | Some len =>
      if len <=? zlen input then
        result ← rd input 0 len;
        input ← remove_prefix input len;
        Some (input, Some result)
      else Some (input, None)
  end.
End Coding.

(** ** Reference encoding *)

(** Base 128, least significant digit first, the high bit set on all digits
    but the last; at most [n] digits. *)
Fixpoint vint (n : nat) (v : Z) : list Z :=
  match n with
  | O => []
  | S n => if v <? 128 then [v] else (v mod 128 + 128) :: vint n (v / 128)
  end.
Definition varint (v : Z) : list Z := vint 10 v.

(** The number at the front of [l], of at most [n] digits, and what follows. *)
Fixpoint vdec (n : nat) (l : list Z) {struct n} : option (Z * list Z) :=
  match n, l with
  | S n, b :: l =>
      if b <? 128 then Some (b, l)
      else '(v, rest) ← vdec n l; Some (b mod 128 + 128 * v, rest)
  | _, _ => None
  end.

(** [value] prefixed with its length. *)
Definition lenpref (value : list Z) : list Z := varint (zlen value) ++ value.

Lemma pow128_S n : 128 ^ Z.of_nat (S n) = 128 * 128 ^ Z.of_nat n.
Proof. by rewrite Nat2Z.inj_succ, Z.pow_succ_r by lia. Qed.

Lemma div128_bound v n : 0 <= v < 128 * n -> 0 <= v / 128 < n.
Proof. intros. split; [apply Z.div_pos; lia|]. apply Z.div_lt_upper_bound; lia. Qed.

Lemma vint_fuel n k v : 0 <= v < 128 ^ Z.of_nat (S n) -> vint (S n + k) v = vint (S n) v.
Proof.
  revert v. induction n as [|n IH]; intros v; rewrite pow128_S; intros Hv.
  - change (128 ^ Z.of_nat 0) with 1 in Hv. cbn [Nat.add vint]. by rewrite (proj2 (Z.ltb_lt v 128)) by lia.
  - cbn [Nat.add vint]. destruct (Z.ltb_spec v 128); [done|]. f_equal. apply IH. by apply div128_bound.
Qed.

Lemma vint_length n v : (length (vint n v) <= n)%nat.
Proof. revert v. induction n; intros v; simpl; [lia|]. destruct (v <? 128); simpl; [lia|]. specialize (IHn (v / 128)). lia. Qed.

Lemma vint_bytes n v : 0 <= v -> bytes (vint n v).
Proof.
  revert v. induction n as [|n IH]; intros v Hv; simpl; [constructor|].
  destruct (Z.ltb_spec v 128); constructor; unfold is_byte; try lia; [constructor| |].
  - pose proof (Z.mod_pos_bound v 128). lia.
  - apply IH, Z.div_pos; lia.
Qed.

Lemma vdec_vint n v rest : 0 <= v < 128 ^ Z.of_nat n -> (0 < n)%nat -> vdec n (vint n v ++ rest) = Some (v, rest).
Proof.
  revert v. induction n as [|n IH]; intros v; [lia|]. rewrite pow128_S. intros Hv _.
  cbn [vint]. destruct (Z.ltb_spec v 128) as [Hlt|Hge].
  - cbn [app vdec]. by rewrite (proj2 (Z.ltb_lt v 128)).
  - cbn [app vdec]. pose proof (Z.mod_pos_bound v 128). zb_true.
    rewrite IH by (by apply div128_bound || (destruct n; [simpl in Hv; lia|lia])). cbn [mbind option_bind].
    do 2 f_equal. replace (v mod 128 + 128) with (v mod 128 + 1 * 128) by lia. rewrite Z.mod_add, Z.mod_mod by lia.
    pose proof (Z.div_mod v 128). lia.
Qed.

Lemma vdec_vint_le n k v rest :
  0 <= v < 128 ^ Z.of_nat (S n) -> (S n <= k)%nat -> vdec k (vint (S n) v ++ rest) = Some (v, rest).
Proof.
  intros Hv Hk. replace k with (S n + (k - S n))%nat by lia. rewrite <- (vint_fuel n (k - S n) v Hv).
  apply vdec_vint; [|lia]. split; [lia|]. eapply Z.lt_le_trans; [apply Hv|]. apply Z.pow_le_mono_r; lia.
Qed.

Lemma varint32 v : in_u 32 v -> varint v = vint 5 v.
Proof. unfold in_u. intros. apply (vint_fuel 4 5). pow2s. lia. Qed.

Lemma varint_bytes v : 0 <= v -> bytes (varint v).
Proof. apply vint_bytes. Qed.

Lemma vdec5_varint v rest : in_u 32 v -> vdec 5 (varint v ++ rest) = Some (v, rest).
Proof. intros H. rewrite varint32 by done. apply vdec_vint; [|lia]. unfold in_u in H. pow2s. lia. Qed.
Lemma vdec10_varint v rest : in_u 64 v -> vdec 10 (varint v ++ rest) = Some (v, rest).
Proof. intros H. apply vdec_vint; [|lia]. unfold in_u in H. pow2s. lia. Qed.

Lemma vdec_suffix n l v rest :
  vdec n l = Some (v, rest) -> exists x, l = x ++ rest /\ (0 < length x <= n)%nat.
Proof.
  revert l v rest. induction n as [|n IH]; intros [|b l] v rest; simpl; try done.
  destruct (b <? 128); [intros [= <- <-]; exists [b]; simpl; split; [done|lia]|].
  destruct (vdec n l) as [[v' r']|] eqn:E; [|done]. intros [= <- <-].
  destruct (IH _ _ _ E) as (x & -> & Hx). exists (b :: x). simpl. split; [done|lia].
Qed.

Lemma vdec_nonneg n l v rest : bytes l -> vdec n l = Some (v, rest) -> 0 <= v.
Proof.
  revert l v rest. induction n as [|n IH]; intros [|b l] v rest Hl; simpl; try done.
  inversion_clear Hl as [|? ? Hb Hl']. unfold is_byte in Hb.
  destruct (b <? 128); [intros [= <- <-]; lia|].
  destruct (vdec n l) as [[v' r']|] eqn:E; [|done]. intros [= <- <-].
  pose proof (IH _ _ _ Hl' E). pose proof (Z.mod_pos_bound b 128). lia.
Qed.

(** ** The encoders produce the reference encoding *)

Lemma lor_128 v : Z.lor (v mod 128) 128 = v mod 128 + 128.
Proof. apply (lor_shift (v mod 128) 1 7); [lia|]. apply Z.mod_pos_bound. lia. Qed.

Lemma u8_lor_128 v : 0 <= v -> u8 (Z.lor v 128) = v mod 128 + 128.
Proof.
  intros Hv. rewrite <- lor_128. unfold u8, wrap. apply Z.bits_inj'. intros i Hi.
  change 128 with (2 ^ 7). rewrite Z.lor_spec. destruct (Z.lt_ge_cases i 8).
  - rewrite Z.mod_pow2_bits_low, Z.lor_spec by lia. destruct (decide (i = 7)) as [->|].
    + by rewrite !Z.pow2_bits_true, !orb_true_r by lia.
    + by rewrite Z.mod_pow2_bits_low by lia.
  - rewrite !Z.mod_pow2_bits_high, Z.pow2_bits_false by lia. done.
Qed.

Section EncodeFacts.
Context {P : Platform}.

Lemma zset_step (p : list Z) y t i x : i = zlen p -> zset (p ++ y :: t) i x = Some ((p ++ [x]) ++ t).
Proof. intros ->. rewrite zset_middle. by rewrite <- app_assoc. Qed.

Lemma fixed_split (buf : list Z) o n :
  0 <= o -> 0 <= n -> o + n <= zlen buf ->
  exists p y s, buf = p ++ y ++ s /\ o = zlen p /\ zlen y = n.
Proof. intros. destruct (split_seg buf o n) as (p & y & s & -> & ? & ?); eauto 10. Qed.

Lemma land_255 v : Z.land v 255 = v mod 256.
Proof. exact (land_low v 8 ltac:(lia)). Qed.

Lemma le_enc_4 v : le_enc 4 v = [v mod 256; v / 2 ^ 8 mod 256; v / 2 ^ 16 mod 256; v / 2 ^ 24 mod 256].
Proof. unfold le_enc. by rewrite !Z.div_div by lia. Qed.
Lemma le_enc_8 v :
  le_enc 8 v = [v mod 256; v / 2 ^ 8 mod 256; v / 2 ^ 16 mod 256; v / 2 ^ 24 mod 256;
                v / 2 ^ 32 mod 256; v / 2 ^ 40 mod 256; v / 2 ^ 48 mod 256; v / 2 ^ 56 mod 256].
Proof. unfold le_enc. by rewrite !Z.div_div by lia. Qed.

Lemma EncodeFixed32_ok buf o v :
  0 <= o -> o + 4 <= zlen buf -> EncodeFixed32 buf o v = wr buf o (le_enc 4 v).
Proof.
  intros Ho Hl. unfold EncodeFixed32. destruct kLittleEndian; [done|].
  destruct (fixed_split buf o 4) as (p & y & s & -> & -> & Hy); [lia..|].
  change 4 with (Z.of_nat 4) in Hy. explode y Hy. rewrite (wr_seg p [z; z0; z1; z2] s) by done. cbn [app].
  do 3 (rewrite zset_step by (zlens; lia); cbn [mbind option_bind]).
  rewrite zset_step by (zlens; lia). rewrite <- !app_assoc. cbn [app le_enc].
  rewrite !land_255, !Z.shiftr_div_pow2 by lia. rewrite le_enc_4. cbn [app]. done.
Qed.

Lemma EncodeFixed64_ok buf o v :
  0 <= o -> o + 8 <= zlen buf -> EncodeFixed64 buf o v = wr buf o (le_enc 8 v).
Proof.
  intros Ho Hl. unfold EncodeFixed64. destruct kLittleEndian; [done|].
  destruct (fixed_split buf o 8) as (p & y & s & -> & -> & Hy); [lia..|].
  change 8 with (Z.of_nat 8) in Hy. explode y Hy.
  rewrite (wr_seg p [_; _; _; _; _; _; _; _] s) by done. cbn [app].
  do 7 (rewrite zset_step by (zlens; lia); cbn [mbind option_bind]).
  rewrite zset_step by (zlens; lia). rewrite <- !app_assoc. cbn [app le_enc].
  rewrite !land_255, !Z.shiftr_div_pow2 by lia. rewrite le_enc_8. cbn [app]. done.
Qed.

Lemma zlen_char_buf n : zlen (char_buf n) = Z.of_nat n.
Proof. unfold char_buf, zlen. by rewrite length_garbage. Qed.

Lemma PutFixed32_ok dst v : PutFixed32 dst v = Some (dst ++ le_enc 4 v).
Proof.
  unfold PutFixed32. rewrite EncodeFixed32_ok by (rewrite ?zlen_char_buf; lia).
  rewrite <- (app_nil_r (char_buf 4)), wr_front by (rewrite zlen_char_buf; by zlens).
  cbn [mbind option_bind]. by rewrite app_nil_r.
Qed.
Lemma PutFixed64_ok dst v : PutFixed64 dst v = Some (dst ++ le_enc 8 v).
Proof.
  unfold PutFixed64. rewrite EncodeFixed64_ok by (rewrite ?zlen_char_buf; lia).
  rewrite <- (app_nil_r (char_buf 8)), wr_front by (rewrite zlen_char_buf; by zlens).
  cbn [mbind option_bind]. by rewrite app_nil_r.
Qed.

Lemma put_ok p y t i x :
  i = zlen p -> put (p ++ y :: t, i) x = Some ((p ++ [u8 x]) ++ t, zlen (p ++ [u8 x])).
Proof. intros ->. unfold put. simpl. rewrite zset_step by done. simpl. zlens. done. Qed.

Lemma put_ext bp x y : u8 x = u8 y -> put bp x = put bp y.
Proof. unfold put. by intros ->. Qed.

Lemma digit_mod x : 0 <= x -> u8 (Z.lor x B) = u8 (Z.lor (Z.land x (B - 1)) B).
Proof.
  intros Hx. unfold B. rewrite (land_low x 7 ltac:(lia) : Z.land x (128 - 1) = x mod 128).
  rewrite !u8_lor_128 by (done || apply Z.mod_pos_bound; lia). by rewrite Z.mod_mod by lia.
Qed.

Lemma digit_value x : Z.lor (Z.land x (B - 1)) B = x mod 128 + 128.
Proof. unfold B. rewrite (land_low x 7 ltac:(lia) : Z.land x (128 - 1) = x mod 128). apply lor_128. Qed.

Lemma enc_loop_step n bp v a b :
  0 <= v -> 0 <= a -> b = a + 7 ->
  EncodeVarint64_loop (S n) bp (Z.shiftr v a) =
  if v <? Z.shiftl 1 b then put bp (Z.shiftr v a)
  else bp ← put bp (Z.lor (Z.shiftr v a) B); EncodeVarint64_loop n bp (Z.shiftr v b).
Proof.
  intros Hv Ha ->. cbn [EncodeVarint64_loop]. rewrite Z.shiftr_shiftr by lia.
  assert ((B <=? Z.shiftr v a) = negb (v <? Z.shiftl 1 (a + 7))) as ->.
  { rewrite <- Z.leb_antisym. unfold B.
    rewrite Z.shiftr_div_pow2, Z.shiftl_mul_pow2, Z.pow_add_r, Z.mul_1_l by lia.
    assert (0 < 2 ^ a) by (apply Z.pow_pos_nonneg; lia).
    apply eq_true_iff_eq. rewrite !Z.leb_le. change (2 ^ 7) with 128.
    split; intros H'; [|apply Z.div_le_lower_bound; lia].
    pose proof (Z.mul_div_le v (2 ^ a)). nia. }
  destruct (v <? Z.shiftl 1 (a + 7)); [done|]. simpl negb. cbv iota.
  by rewrite (put_ext _ _ _ (digit_mod (Z.shiftr v a) (proj2 (Z.shiftr_nonneg v a) Hv))).
Qed.

(** The unrolled 32-bit encoder is the loop of the 64-bit one. *)
Lemma EncodeVarint32_loop dst ptr v :
  in_u 32 v -> EncodeVarint32 dst ptr v = EncodeVarint64_loop 5 (dst, ptr) v.
Proof.
  unfold in_u. intros Hv. unfold EncodeVarint32.
  trans (EncodeVarint64_loop 5 (dst, ptr) (Z.shiftr v 0)); [|by rewrite Z.shiftr_0_r].
  rewrite (enc_loop_step _ _ _ 0 7), Z.shiftr_0_r by lia.
  destruct (v <? Z.shiftl 1 7) eqn:E7; [done|].
  destruct (put (dst, ptr) (Z.lor v B)) as [bp|]; [|by repeat case_match].
  cbn [mbind option_bind]. rewrite (enc_loop_step _ _ _ _ 14) by lia.
  destruct (v <? Z.shiftl 1 14); [done|].
  destruct (put bp _) as [bp1|]; [|by repeat case_match].
  cbn [mbind option_bind]. rewrite (enc_loop_step _ _ _ _ 21) by lia.
  destruct (v <? Z.shiftl 1 21); [done|].
  destruct (put bp1 _) as [bp2|]; [|by repeat case_match].
  cbn [mbind option_bind]. rewrite (enc_loop_step _ _ _ _ 28) by lia.
  destruct (v <? Z.shiftl 1 28); [done|].
  destruct (put bp2 _) as [bp3|]; [|done].
  cbn [mbind option_bind]. rewrite (enc_loop_step _ _ _ _ 35) by lia.
  by rewrite (proj2 (Z.ltb_lt v (Z.shiftl 1 35))) by (change (Z.shiftl 1 35) with (2 ^ 35); pow2s; lia).
Qed.

Lemma enc_loop_ok n p t v :
  0 <= v < 128 ^ Z.of_nat (S n) -> zlen (vint (S n) v) <= zlen t ->
  EncodeVarint64_loop n (p ++ t, zlen p) v =
  Some ((p ++ vint (S n) v) ++ drop (length (vint (S n) v)) t, zlen (p ++ vint (S n) v)).
Proof.
  revert p t v. induction n as [|n IH]; intros p t v; rewrite pow128_S; intros Hv Ht.
  - change (128 ^ Z.of_nat 0) with 1 in Hv. cbn [vint EncodeVarint64_loop] in *. unfold B. zb_true.
    rewrite (proj2 (Z.ltb_lt v 128)) in * by lia.
    destruct t as [|y t]; [zlens; lia|]. rewrite put_ok by done. unfold u8. rewrite wrap_id by (unfold in_u; pow2s; lia).
    done.
  - cbn [EncodeVarint64_loop]. unfold B at 1. cbn [vint] in Ht |- *. destruct (Z.ltb_spec v 128) as [Hlt|Hge].
    + zb_true. destruct t as [|y t]; [zlens; lia|]. rewrite put_ok by done.
      unfold u8. rewrite wrap_id by (unfold in_u; pow2s; lia). done.
    + zb_true. pose proof (div128_bound v _ Hv) as Hd. destruct t as [|y t]; [zlens; pose proof (zlen_nonneg (vint (S n) (v / 128))); cbn [vint] in *; lia|].
      rewrite put_ok by done. rewrite digit_value. cbn [mbind option_bind].
      assert (u8 (v mod 128 + 128) = v mod 128 + 128) as ->.
      { apply wrap_id. unfold in_u. pose proof (Z.mod_pos_bound v 128). pow2s. lia. }
      rewrite Z.shiftr_div_pow2 by lia. change (2 ^ 7) with 128.
      rewrite IH by (done || (zlens; cbn [vint] in *; lia)).
      rewrite <- !app_assoc. done.
Qed.

(** What the encoders leave: the encoding at the pointer, the bytes around it
    unchanged. *)
Lemma EncodeVarint32_ok p t v :
  in_u 32 v -> zlen (varint v) <= zlen t ->
  EncodeVarint32 (p ++ t) (zlen p) v =
  Some ((p ++ varint v) ++ drop (length (varint v)) t, zlen (p ++ varint v)).
Proof.
  intros Hv Ht. rewrite EncodeVarint32_loop by done. rewrite varint32 in * by done.
  rewrite <- (vint_fuel 4 1 v) in * by (unfold in_u in Hv; pow2s; lia).
  apply enc_loop_ok; [|done]. unfold in_u in Hv. pow2s. lia.
Qed.
Lemma EncodeVarint64_ok p t v :
  in_u 64 v -> zlen (varint v) <= zlen t ->
  EncodeVarint64 (p ++ t) (zlen p) v =
  Some ((p ++ varint v) ++ drop (length (varint v)) t, zlen (p ++ varint v)).
Proof.
  intros Hv Ht. unfold EncodeVarint64, varint in *.
  rewrite <- (vint_fuel 9 1 v) in * by (unfold in_u in Hv; pow2s; lia).
  apply enc_loop_ok; [|done]. unfold in_u in Hv. pow2s. lia.
Qed.

Lemma append_front dst x t : append_buf dst (x ++ t, zlen x) = Some (dst ++ x).
Proof. unfold append_buf. simpl. by rewrite rd_front by done. Qed.

Lemma PutVarint32_ok dst v : in_u 32 v -> PutVarint32 dst v = Some (dst ++ varint v).
Proof.
  intros Hv. unfold PutVarint32. pose proof (EncodeVarint32_ok [] (char_buf 5) v Hv) as H.
  cbn [app] in H. rewrite zlen_nil in H. rewrite H.
  - cbn [mbind option_bind]. apply append_front.
  - rewrite zlen_char_buf, varint32 by done. pose proof (vint_length 5 v). unfold zlen, varint. lia.
Qed.
Lemma PutVarint64_ok dst v : in_u 64 v -> PutVarint64 dst v = Some (dst ++ varint v).
Proof.
  intros Hv. unfold PutVarint64. pose proof (EncodeVarint64_ok [] (char_buf 10) v Hv) as H.
  cbn [app] in H. rewrite zlen_nil in H. rewrite H.
  - cbn [mbind option_bind]. apply append_front.
  - rewrite zlen_char_buf. pose proof (vint_length 10 v). unfold zlen, varint. lia.
Qed.

Lemma PutLengthPrefixedSlice_ok dst s :
  zlen s < 2 ^ 32 -> PutLengthPrefixedSlice dst s = Some (dst ++ lenpref s).
Proof.
  intros Hs. pose proof (zlen_nonneg s). unfold PutLengthPrefixedSlice, u32.
  rewrite wrap_id, PutVarint32_ok by (unfold in_u; lia). cbn [mbind option_bind].
  unfold lenpref. by rewrite app_assoc.
Qed.

Lemma VarintLength_loop_ok n v len :
  0 <= v < 128 ^ Z.of_nat (S n) -> VarintLength_loop n v len = Some (len + zlen (vint (S n) v) - 1).
Proof.
  revert v len. induction n as [|n IH]; intros v len; rewrite pow128_S; intros Hv.
  - change (128 ^ Z.of_nat 0) with 1 in Hv. cbn [vint VarintLength_loop]. zb_true. zlens. f_equal. lia.
  - cbn [VarintLength_loop]. cbn [vint]. destruct (Z.ltb_spec v 128); zb_true; [zlens; f_equal; lia|].
    rewrite Z.shiftr_div_pow2 by lia. rewrite IH by (by apply div128_bound).
    change (2 ^ 7) with 128. cbn [vint]. zlens. f_equal. lia.
Qed.

Lemma VarintLength_ok v : in_u 64 v -> VarintLength v = Some (zlen (varint v)).
Proof.
  intros Hv. unfold VarintLength. rewrite VarintLength_loop_ok by (unfold in_u in Hv; pow2s; lia).
  change (vint 11 v) with (vint (10 + 1) v). rewrite (vint_fuel 9 1 v) by (unfold in_u in Hv; pow2s; lia). f_equal. unfold varint. lia.
Qed.
End EncodeFacts.

(** ** The decoders *)
Section DecodeFacts.
Context {P : Platform}.

Lemma DecodeFixed32_ok p x s o :
  bytes x -> zlen x = 4 -> o = zlen p -> DecodeFixed32 (p ++ x ++ s) o = Some (le_dec x).
Proof.
  intros Hb Hx ->. unfold DecodeFixed32. destruct kLittleEndian.
  { rewrite rd_seg by done. done. }
  change 4 with (Z.of_nat 4) in Hx. explode x Hx. unfold bytes in Hb. rewrite !list.Forall_cons in Hb.
  destruct Hb as (H0 & H1 & H2 & H3 & _). unfold is_byte in *.
  rewrite (znth_seg p [z; z0; z1; z2] s 0 z) by done. rewrite (znth_seg p [z; z0; z1; z2] s 1 z0) by done.
  rewrite (znth_seg p [z; z0; z1; z2] s 2 z1) by done. rewrite (znth_seg p [z; z0; z1; z2] s 3 z2) by done.
  cbn [mbind option_bind]. unfold u32. f_equal.
  rewrite (lor_shift_wrap 32 z), (wrap_id 32 (z + _)) by (unfold in_u; pow2s; lia).
  rewrite (lor_shift_wrap 32 _ z1), (wrap_id 32 (_ + z1 * _)) by (unfold in_u; pow2s; lia).
  rewrite lor_shift_wrap by (pow2s; lia). rewrite wrap_id by (unfold in_u; pow2s; lia).
  unfold le_dec. pow2s. lia.
Qed.

Lemma le_dec_cons b l : le_dec (b :: l) = b + 256 * le_dec l.
Proof. reflexivity. Qed.

Lemma le_dec_app x y : le_dec (x ++ y) = le_dec x + 2 ^ (8 * zlen x) * le_dec y.
Proof.
  induction x as [|b x IH]; [change (le_dec y = 0 + 1 * le_dec y); lia|].
  cbn [app]. rewrite !le_dec_cons, IH, zlen_cons.
  replace (8 * (1 + zlen x)) with (8 + 8 * zlen x) by lia.
  rewrite Z.pow_add_r by (pose proof (zlen_nonneg x); lia). change (2 ^ 8) with 256. lia.
Qed.

Lemma DecodeFixed64_ok p x s o :
  bytes x -> zlen x = 8 -> o = zlen p -> DecodeFixed64 (p ++ x ++ s) o = Some (le_dec x).
Proof.
  intros Hb Hx ->. unfold DecodeFixed64. destruct kLittleEndian eqn:Ele.
  { rewrite rd_seg by done. done. }
  rewrite <- (take_drop 4 x). set (lo := take 4 x). set (hi := drop 4 x).
  assert (Hlo : zlen lo = 4) by (unfold lo; zlens; lia).
  assert (Hhi : zlen hi = 4) by (unfold hi; zlens; lia).
  assert (bytes lo /\ bytes hi) as [Hbl Hbh] by (split; [by apply Forall_take|by apply Forall_drop]).
  rewrite <- app_assoc. rewrite (DecodeFixed32_ok p lo _ (zlen p)) by done. cbn [mbind option_bind].
  rewrite (app_assoc p lo). rewrite (DecodeFixed32_ok (p ++ lo) hi) by (done || (zlens; lia)). cbn [mbind option_bind].
  f_equal. rewrite Z.lor_comm. unfold u64. pose proof (le_dec_range lo Hbl) as Hr. pose proof (le_dec_range hi Hbh) as Hr'.
  rewrite Hlo in Hr. rewrite Hhi in Hr'. change (8 * 4) with 32 in *. rewrite lor_shift_wrap by lia.
  rewrite wrap_id by (unfold in_u; pow2s; lia). rewrite le_dec_app, Hlo. change (8 * 4) with 32. lia.
Qed.

(** The two decoding loops are instances of one, at their width. *)
Definition vloop (w top : Z) := fix vloop (fuel : nat) (buf : list Z) (p limit shift result : Z) : option (option (Z * Z)) :=
  if (shift <=? top) && (p <? limit) then
    match fuel with
    | O => None
    | S fuel =>
        byte ← znth buf p;
        let p := p + 1 in
        if negb (Z.land byte 128 =? 0)
        then vloop fuel buf p limit (shift + 7)
               (Z.lor result (wrap w (Z.shiftl (Z.land byte 127) shift)))
        else Some (Some (p, Z.lor result (wrap w (Z.shiftl byte shift))))
    end
  else Some None.

Lemma loop32 : GetVarint32Ptr_loop = vloop 32 28.
Proof. reflexivity. Qed.
Lemma loop64 : GetVarint64Ptr_loop = vloop 64 63.
Proof. reflexivity. Qed.

Lemma byte_forall (f : Z -> bool) :
  forallb f (map Z.of_nat (seq 0 256)) = true -> forall b, is_byte b -> f b = true.
Proof.
  intros H b Hb. unfold is_byte in Hb. rewrite forallb_forall in H. apply H, in_map_iff.
  exists (Z.to_nat b). rewrite in_seq. lia.
Qed.

Lemma land_128 b : is_byte b -> (Z.land b 128 =? 0) = (b <? 128).
Proof.
  intros Hb. apply eqb_prop. revert b Hb. apply byte_forall. by vm_compute.
Qed.

Lemma vloop_ok w top p l s fuel k shift r :
  0 <= shift -> shift = top + 7 - 7 * Z.of_nat k -> top < w -> w <= top + 7 -> (k <= fuel)%nat ->
  bytes l -> 0 <= r < 2 ^ shift -> in_u w r ->
  vloop w top fuel (p ++ l ++ s) (zlen p) (zlen p + zlen l) shift r =
  Some (match vdec k l with
        | None => None
        | Some (v, rest) => Some (zlen p + zlen l - zlen rest, wrap w (r + v * 2 ^ shift))
        end).
Proof.
  revert p l fuel shift r. induction k as [|k IH]; intros p l fuel shift r H0 Hs Ht Hw Hk Hl Hr Hrw.
  { destruct fuel; simpl; by rewrite (proj2 (Z.leb_gt shift top)) by lia. }
  destruct fuel as [|fuel]; [lia|]. destruct l as [|b l].
  { simpl. rewrite zlen_nil, Z.add_0_r, Z.ltb_irrefl, andb_false_r. done. }
  inversion_clear Hl as [|? ? Hb Hl']. cbn [vloop vdec]. pose proof (zlen_nonneg l).
  rewrite (proj2 (Z.leb_le shift top)), (proj2 (Z.ltb_lt (zlen p) (zlen p + zlen (b :: l)))) by (zlens; lia).
  simpl andb. cbv iota. cbn [app]. rewrite znth_middle. cbn [mbind option_bind]. cbv zeta.
  rewrite land_128 by done.
  destruct (Z.ltb_spec b 128) as [Hlt|Hge]; simpl negb; cbv iota.
  - rewrite lor_shift_wrap by lia. zlens. do 3 f_equal; lia.
  - rewrite lor_shift_wrap by lia. rewrite (land_low b 7 ltac:(lia) : Z.land b 127 = b mod 128).
    pose proof (IH (p ++ [b]) l fuel (shift + 7) (wrap w (r + b mod 128 * 2 ^ shift))) as IH'.
    rewrite <- app_assoc in IH'. cbn [app] in IH'. zlens.
    replace (zlen p + (1 + zlen l)) with (zlen p + (1 + 0) + zlen l) by lia.
    replace (zlen p + 1) with (zlen p + (1 + 0)) by lia. rewrite IH'; clear IH'; try done; try lia.
    + destruct (vdec k l) as [[v rest]|]; [|done]. cbn [mbind option_bind]. do 3 f_equal.
      unfold wrap. rewrite Z.add_mod_idemp_l by (apply Z.pow_nonzero; lia). f_equal.
      rewrite Z.pow_add_r by lia. change (2 ^ 7) with 128. lia.
    + pose proof (Z.mod_pos_bound b 128 ltac:(lia)). pose proof (Z.pow_pos_nonneg 2 w ltac:(lia) ltac:(lia)).
      pose proof (wrap_range w (r + b mod 128 * 2 ^ shift) ltac:(lia)) as Hi. unfold in_u in Hi.
      split; [lia|]. unfold wrap. eapply Z.le_lt_trans; [apply Z.mod_le; nia|].
      rewrite Z.pow_add_r by lia. change (2 ^ 7) with 128. nia.
    + apply wrap_range. lia.
Qed.

Lemma GetVarint32Ptr_ok p l s :
  bytes l ->
  GetVarint32Ptr (p ++ l ++ s) (zlen p) (zlen p + zlen l) =
  Some (match vdec 5 l with None => None | Some (v, rest) => Some (zlen p + zlen l - zlen rest, u32 v) end).
Proof.
  intros Hl. assert (Hf : GetVarint32PtrFallback (p ++ l ++ s) (zlen p) (zlen p + zlen l) =
    Some (match vdec 5 l with None => None | Some (v, rest) => Some (zlen p + zlen l - zlen rest, u32 v) end)).
  { unfold GetVarint32PtrFallback. rewrite loop32.
    rewrite (vloop_ok 32 28 p l s 5 5 0 0) by (done || lia || (unfold in_u; pow2s; lia)).
    repeat case_match; [|done]. simplify_eq. do 3 f_equal. unfold u32. f_equal. lia. }
  unfold GetVarint32Ptr. rewrite Hf. destruct l as [|b l].
  { by rewrite zlen_nil, Z.add_0_r, Z.ltb_irrefl. }
  inversion_clear Hl as [|? ? Hb Hl']. pose proof (zlen_nonneg l).
  rewrite (proj2 (Z.ltb_lt (zlen p) (zlen p + zlen (b :: l)))) by (zlens; lia).
  cbn [app]. rewrite znth_middle. cbn [mbind option_bind]. rewrite land_128 by done.
  cbn [vdec]. destruct (Z.ltb_spec b 128); [|done]. unfold u32, is_byte in *.
  rewrite wrap_id by (unfold in_u; pow2s; lia). zlens. do 3 f_equal. lia.
Qed.

Lemma GetVarint64Ptr_ok p l s :
  bytes l ->
  GetVarint64Ptr (p ++ l ++ s) (zlen p) (zlen p + zlen l) =
  Some (match vdec 10 l with None => None | Some (v, rest) => Some (zlen p + zlen l - zlen rest, u64 v) end).
Proof.
  intros Hl. unfold GetVarint64Ptr. rewrite loop64.
  rewrite (vloop_ok 64 63 p l s 10 10 0 0) by (done || lia || (unfold in_u; pow2s; lia)).
  repeat case_match; [|done]. simplify_eq. do 3 f_equal. unfold u64. f_equal. lia.
Qed.

Lemma rd_rest n l v rest q :
  vdec n l = Some (v, rest) -> q = zlen l - zlen rest -> rd l q (zlen l - q) = Some rest.
Proof.
  intros (x & -> & _)%vdec_suffix ->. rewrite <- (app_nil_r (x ++ rest)), <- app_assoc.
  apply rd_seg; zlens; rewrite ?zlen_nil; lia.
Qed.

Lemma GetVarint32_ok input :
  bytes input ->
  GetVarint32 input =
  Some (match vdec 5 input with None => (input, None) | Some (v, rest) => (rest, Some (u32 v)) end).
Proof.
  intros Hb. unfold GetVarint32. pose proof (GetVarint32Ptr_ok [] input [] Hb) as H.
  rewrite app_nil_r in H. cbn [app] in H. rewrite zlen_nil, Z.add_0_l in H. rewrite H. cbn [mbind option_bind].
  destruct (vdec 5 input) as [[v rest]|] eqn:E; [|done]. by rewrite (rd_rest _ _ _ _ _ E) by done.
Qed.
Lemma GetVarint64_ok input :
  bytes input ->
  GetVarint64 input =
  Some (match vdec 10 input with None => (input, None) | Some (v, rest) => (rest, Some (u64 v)) end).
Proof.
  intros Hb. unfold GetVarint64. pose proof (GetVarint64Ptr_ok [] input [] Hb) as H.
  rewrite app_nil_r in H. cbn [app] in H. rewrite zlen_nil, Z.add_0_l in H. rewrite H. cbn [mbind option_bind].
  destruct (vdec 10 input) as [[v rest]|] eqn:E; [|done]. by rewrite (rd_rest _ _ _ _ _ E) by done.
Qed.

(** The reference for length-prefixed slices. *)
Definition lenpref_dec (input : list Z) : list Z * option (list Z) :=
  match vdec 5 input with
  | None => (input, None)
  | Some (v, rest) =>
      let len := u32 v in
      if len <=? zlen rest then (drop (Z.to_nat len) rest, Some (take (Z.to_nat len) rest)) else (rest, None)
  end.

Lemma GetLengthPrefixedSlice_ok input :
  bytes input -> GetLengthPrefixedSlice input = Some (lenpref_dec input).
Proof.
  intros Hb. unfold GetLengthPrefixedSlice, lenpref_dec. rewrite GetVarint32_ok by done. cbn [mbind option_bind].
  destruct (vdec 5 input) as [[v rest]|]; [|done]. cbv zeta.
  pose proof (wrap_range 32 v ltac:(lia)) as Hr. fold (u32 v) in Hr. unfold in_u in Hr.
  destruct (Z.leb_spec (u32 v) (zlen rest)); [|done]. rewrite rd_Some by lia. cbn [mbind option_bind].
  unfold remove_prefix. by zb_true.
Qed.

Lemma lenpref_dec_app s rest : zlen s < 2 ^ 32 -> lenpref_dec (lenpref s ++ rest) = (rest, Some s).
Proof.
  intros Hs. pose proof (zlen_nonneg s). pose proof (zlen_nonneg rest). unfold lenpref_dec, lenpref.
  rewrite <- app_assoc, vdec5_varint by (unfold in_u; lia). cbv zeta. unfold u32. rewrite wrap_id by (unfold in_u; lia).
  rewrite zlen_app. zb_true. rewrite to_nat_zlen. by rewrite drop_app_length, take_app_length.
Qed.

Lemma GetLengthPrefixedSlice_app s rest :
  bytes s -> bytes rest -> zlen s < 2 ^ 32 ->
  GetLengthPrefixedSlice (lenpref s ++ rest) = Some (rest, Some s).
Proof.
  intros Hs Hr Hl. rewrite GetLengthPrefixedSlice_ok, lenpref_dec_app; [done|done|].
  apply Forall_app; split; [apply Forall_app; split; [apply varint_bytes, zlen_nonneg|done]|done].
Qed.
Lemma GetVarint32_app v rest :
  in_u 32 v -> bytes rest -> GetVarint32 (varint v ++ rest) = Some (rest, Some v).
Proof.
  intros Hv Hr. rewrite GetVarint32_ok, vdec5_varint by (done || (apply Forall_app; split; [apply varint_bytes, Hv|done])).
  unfold u32. by rewrite wrap_id.
Qed.
Lemma GetVarint64_app v rest :
  in_u 64 v -> bytes rest -> GetVarint64 (varint v ++ rest) = Some (rest, Some v).
Proof.
  intros Hv Hr. rewrite GetVarint64_ok, vdec10_varint by (done || (apply Forall_app; split; [apply varint_bytes, Hv|done])).
  unfold u64. by rewrite wrap_id.
Qed.

Lemma GetLengthPrefixedSlicePtr_app p s rest t :
  bytes s -> bytes rest -> zlen s < 2 ^ 32 ->
  GetLengthPrefixedSlicePtr (p ++ (lenpref s ++ rest) ++ t) (zlen p) (zlen p + zlen (lenpref s ++ rest)) =
  Some (Some (zlen p + zlen (lenpref s), s)).
Proof.
  intros Hs Hr Hl. pose proof (zlen_nonneg s). pose proof (zlen_nonneg rest). unfold GetLengthPrefixedSlicePtr.
  assert (bytes (lenpref s ++ rest)) by (apply Forall_app; split; [apply Forall_app; split; [by apply varint_bytes|done]|done]).
  rewrite GetVarint32Ptr_ok by done. unfold lenpref. rewrite <- (app_assoc (varint (zlen s))), vdec5_varint by (unfold in_u; lia).
  cbn [mbind option_bind]. unfold u32. rewrite wrap_id by (unfold in_u; lia). zlens. zb_true.
  rewrite <- !app_assoc, (app_assoc p). rewrite rd_seg by (zlens; lia). cbn [mbind option_bind]. do 3 f_equal. lia.
Qed.

(** ** Round trips *)

(** A field of a record, and the record as the code writes and reads it: each
    field is put after, and taken before, the others. *)
Inductive field :=
  | FFixed32 (v : Z) | FFixed64 (v : Z) | FVarint32 (v : Z) | FVarint64 (v : Z) | FSlice (s : list Z).

Definition put_field (dst : list Z) (f : field) : option (list Z) :=
  match f with
  | FFixed32 v => PutFixed32 dst v
  | FFixed64 v => PutFixed64 dst v
  | FVarint32 v => PutVarint32 dst v
  | FVarint64 v => PutVarint64 dst v
  | FSlice s => PutLengthPrefixedSlice dst s
  end.
Fixpoint put_fields (dst : list Z) (fs : list field) : option (list Z) :=
  match fs with [] => Some dst | f :: fs => dst ← put_field dst f; put_fields dst fs end.

(** Reads a field of the kind of [f]; [None] inside is a failed read. *)
Definition get_field (input : list Z) (f : field) : option (list Z * option field) :=
  match f with
  | FFixed32 _ => v ← DecodeFixed32 input 0; input ← remove_prefix input 4; Some (input, Some (FFixed32 v))
  | FFixed64 _ => v ← DecodeFixed64 input 0; input ← remove_prefix input 8; Some (input, Some (FFixed64 v))
  | FVarint32 _ => '(input, r) ← GetVarint32 input; Some (input, option_map FVarint32 r)
  | FVarint64 _ => '(input, r) ← GetVarint64 input; Some (input, option_map FVarint64 r)
  | FSlice _ => '(input, r) ← GetLengthPrefixedSlice input; Some (input, option_map FSlice r)
  end.
Fixpoint get_fields (input : list Z) (kinds : list field) : option (list Z * list field) :=
  match kinds with
  | [] => Some (input, [])
  | k :: kinds =>
      '(input, r) ← get_field input k; f ← r;
      '(input, fs) ← get_fields input kinds; Some (input, f :: fs)
  end.

Definition field_ok (f : field) : Prop :=
  match f with
  | FFixed32 v | FVarint32 v => in_u 32 v
  | FFixed64 v | FVarint64 v => in_u 64 v
  | FSlice s => bytes s /\ zlen s < 2 ^ 32
  end.
Definition field_enc (f : field) : list Z :=
  match f with
  | FFixed32 v => le_enc 4 v
  | FFixed64 v => le_enc 8 v
  | FVarint32 v | FVarint64 v => varint v
  | FSlice s => lenpref s
  end.

Lemma put_field_ok dst f : field_ok f -> put_field dst f = Some (dst ++ field_enc f).
Proof.
  destruct f; simpl; intros Hf.
  - apply PutFixed32_ok.
  - apply PutFixed64_ok.
  - by apply PutVarint32_ok.
  - by apply PutVarint64_ok.
  - by apply PutLengthPrefixedSlice_ok, Hf.
Qed.

Lemma field_enc_bytes f : field_ok f -> bytes (field_enc f).
Proof.
  destruct f; simpl; intros Hf; try apply bytes_le_enc; try (apply varint_bytes, Hf).
  apply Forall_app. split; [apply varint_bytes, zlen_nonneg|apply Hf].
Qed.

Lemma remove_prefix_app (x rest : list Z) n : n = zlen x -> remove_prefix (x ++ rest) n = Some rest.
Proof.
  intros ->. unfold remove_prefix. pose proof (zlen_nonneg x). pose proof (zlen_nonneg rest).
  rewrite zlen_app. zb_true. by rewrite to_nat_zlen, drop_app_length.
Qed.

Lemma DecodeFixed32_front x s : bytes x -> zlen x = 4 -> DecodeFixed32 (x ++ s) 0 = Some (le_dec x).
Proof. intros. by apply (DecodeFixed32_ok []). Qed.
Lemma DecodeFixed64_front x s : bytes x -> zlen x = 8 -> DecodeFixed64 (x ++ s) 0 = Some (le_dec x).
Proof. intros. by apply (DecodeFixed64_ok []). Qed.

Lemma get_field_ok f rest :
  field_ok f -> bytes rest -> get_field (field_enc f ++ rest) f = Some (rest, Some f).
Proof.
  destruct f; intros Hf Hr; cbn [get_field field_enc field_ok] in *.
  - rewrite DecodeFixed32_front by (apply bytes_le_enc || done). cbn [mbind option_bind].
    rewrite remove_prefix_app by (by zlens). cbn [mbind option_bind]. by rewrite le_dec_enc, wrap_id.
  - rewrite DecodeFixed64_front by (apply bytes_le_enc || done). cbn [mbind option_bind].
    rewrite remove_prefix_app by (by zlens). cbn [mbind option_bind]. by rewrite le_dec_enc, wrap_id.
  - by rewrite GetVarint32_app.
  - by rewrite GetVarint64_app.
  - destruct Hf. by rewrite GetLengthPrefixedSlice_app.
Qed.

Definition fields_enc (fs : list field) : list Z := concat (map field_enc fs).

Lemma put_fields_ok dst fs : Forall field_ok fs -> put_fields dst fs = Some (dst ++ fields_enc fs).
Proof.
  intros Hfs. revert dst. induction Hfs as [|f fs Hf Hfs IH]; intros dst; [simpl; by rewrite app_nil_r|].
  cbn [put_fields]. rewrite put_field_ok by done. cbn [mbind option_bind]. rewrite IH.
  by rewrite <- app_assoc.
Qed.

Lemma fields_enc_bytes fs : Forall field_ok fs -> bytes (fields_enc fs).
Proof. induction 1; [constructor|]. apply Forall_app. split; [by apply field_enc_bytes|done]. Qed.

Lemma get_fields_ok fs rest :
  Forall field_ok fs -> bytes rest -> get_fields (fields_enc fs ++ rest) fs = Some (rest, fs).
Proof.
  intros Hfs Hr. induction Hfs as [|f fs Hf Hfs IH]; [done|].
  change (fields_enc (f :: fs)) with (field_enc f ++ fields_enc fs). rewrite <- app_assoc.
  cbn [get_fields]. rewrite get_field_ok by (done || (apply Forall_app; split; [by apply fields_enc_bytes|done])).
  cbn [mbind option_bind]. by rewrite IH.
Qed.
End DecodeFacts.

(** C17: what the [Put] functions append, the matching [Get] and [Decode]
    functions read back: for every sequence of 32- and 64-bit fixed and varint
    numbers and length-prefixed strings, whatever string they are appended to
    and whatever follows, on hosts of both byte orders.  No encoder overruns
    its local buffer. *)
Theorem coding_roundtrip {P : Platform} dst fs rest :
  Forall field_ok fs -> bytes rest ->
  exists enc, put_fields dst fs = Some (dst ++ enc) /\ get_fields (enc ++ rest) fs = Some (rest, fs).
Proof.
  intros Hfs Hr. exists (fields_enc fs). split; [by apply put_fields_ok|by apply get_fields_ok].
Qed.

(** C36: on every byte string the varint readers return what the base-128
    reference says: the value of the shortest prefix of at most 5 (10) bytes
    that ends in a byte below 128, modulo 2^32 (2^64), with the slice advanced
    past it; without such a prefix they fail and leave the slice.  A
    length-prefixed read fails when the length is missing or exceeds what
    follows.  The pointer readers look only at the bytes in [p, limit): the
    result does not depend on those around. *)
Theorem coding_readers_correct {P : Platform} (p input s : list Z) :
  bytes input ->
  GetVarint32 input = Some (match vdec 5 input with None => (input, None) | Some (v, rest) => (rest, Some (u32 v)) end) /\
  GetVarint64 input = Some (match vdec 10 input with None => (input, None) | Some (v, rest) => (rest, Some (u64 v)) end) /\
  GetLengthPrefixedSlice input = Some (lenpref_dec input) /\
  GetVarint32Ptr (p ++ input ++ s) (zlen p) (zlen p + zlen input) =
    Some (match vdec 5 input with None => None | Some (v, rest) => Some (zlen p + (zlen input - zlen rest), u32 v) end) /\
  GetVarint64Ptr (p ++ input ++ s) (zlen p) (zlen p + zlen input) =
    Some (match vdec 10 input with None => None | Some (v, rest) => Some (zlen p + (zlen input - zlen rest), u64 v) end).
Proof.
  intros Hb. split_and!; [by apply GetVarint32_ok|by apply GetVarint64_ok|by apply GetLengthPrefixedSlice_ok| |].
  - rewrite GetVarint32Ptr_ok by done. repeat case_match; simplify_eq; [|done]. do 3 f_equal. lia.
  - rewrite GetVarint64Ptr_ok by done. repeat case_match; simplify_eq; [|done]. do 3 f_equal. lia.
Qed.

(** A big-endian host, for the witnesses. *)
Definition be_host : Platform := {| kLittleEndian := false; uninit := fun i => Z.of_nat i + 200 |}.

Lemma coding_roundtrip_witness :
  exists enc, put_fields (P:=be_host) [7] [FVarint32 300; FFixed64 (2 ^ 64 - 1); FSlice [1; 2; 3]; FVarint64 (2 ^ 63)] = Some ([7] ++ enc) /\
    get_fields (P:=be_host) (enc ++ [9]) [FVarint32 300; FFixed64 (2 ^ 64 - 1); FSlice [1; 2; 3]; FVarint64 (2 ^ 63)] =
    Some ([9], [FVarint32 300; FFixed64 (2 ^ 64 - 1); FSlice [1; 2; 3]; FVarint64 (2 ^ 63)]).
Proof.
  apply (coding_roundtrip (P:=be_host) [7] _ [9]).
  - repeat constructor; unfold is_byte; by vm_compute.
  - repeat constructor; by vm_compute.
Defined.
Lemma coding_readers_correct_witness :
  GetVarint32 [172; 2; 9] = Some ([9], Some 300).
Proof.
  destruct (coding_readers_correct (P:=be_host) [] [172; 2; 9] []) as [H _]; [|exact H].
  repeat constructor; by vm_compute.
Defined.
