(* ===== verification/LdbFormat.v ===== *)
(** * leveldb: db/dbformat.h, db/dbformat.cc and util/comparator.cc

    Internal keys: a user key followed by a 64-bit tag that packs a sequence
    number and a value type.  [Comparator] is the interface of
    include/leveldb/comparator.h with its documented laws; the bytewise
    comparator implements it, and the internal key comparator is proved correct
    against the interface.  [None] is a failed [assert]. *)

From Stdlib Require Import ZArith Lia Bool String.
From stdpp Require Import base option list numbers.
From S2P Require Import Prelude LdbCoding.
Open Scope Z_scope.

(** ** Comparators *)
Record Comparator := {
  Compare : list Z -> list Z -> Z;
  FindShortestSeparator : list Z -> list Z -> option (list Z);
  FindShortSuccessor : list Z -> option (list Z)
}.

(** What comparator.h promises of every implementation: a total order, and
    separators and successors on the right side of their arguments. *)
Class ComparatorLaws (c : Comparator) := {
  cmp_opp : forall a b, Z.sgn (Compare c b a) = - Z.sgn (Compare c a b);
  cmp_trans : forall a b d, Compare c a b <= 0 -> Compare c b d <= 0 -> Compare c a d <= 0;
  cmp_separator : forall start limit, bytes start -> bytes limit ->
    exists r, FindShortestSeparator c start limit = Some r /\ bytes r /\
      (if Compare c start limit <? 0
       then Compare c start r <= 0 /\ Compare c r limit < 0 else r = start);
  cmp_successor : forall key, bytes key ->
    exists r, FindShortSuccessor c key = Some r /\ bytes r /\ Compare c key r <= 0
}.

#[global] Arguments cmp_opp c {_}.
#[global] Arguments cmp_trans c {_}.
#[global] Arguments cmp_separator c {_}.
#[global] Arguments cmp_successor c {_}.

(** *** BytewiseComparatorImpl *)
Fixpoint diff_loop (fuel : nat) (start limit : list Z) (diff_index min_length : Z) : option Z :=
  if diff_index <? min_length then
    match fuel with
    | O => None
    | S fuel =>
        x ← znth start diff_index;
        y ← znth limit diff_index;
        if x =? y then diff_loop fuel start limit (diff_index + 1) min_length else Some diff_index
    end
  else Some diff_index.

Definition Bytewise_Compare (a b : list Z) : Z := compare a b.

Definition Bytewise_FindShortestSeparator (start limit : list Z) : option (list Z) :=
  let min_length := Z.min (zlen start) (zlen limit) in
  diff_index ← diff_loop (Z.to_nat min_length) start limit 0 min_length;
  if min_length <=? diff_index then Some start
  else
    x ← znth start diff_index;
    y ← znth limit diff_index;
    let diff_byte := u8 x in
    if (diff_byte <? 255) && (diff_byte + 1 <? u8 y) then
      start ← zset start diff_index (u8 (x + 1));
      let start := take (Z.to_nat (diff_index + 1)) start in
      if Bytewise_Compare start limit <? 0 then Some start else None
    else Some start.

Fixpoint successor_loop (fuel : nat) (key : list Z) (i n : Z) : option (list Z) :=
  if i <? n then
    match fuel with
    | O => None
    | S fuel =>
        byte ← znth key i;
        if negb (byte =? 255) then
          key ← zset key i (u8 (byte + 1));
          Some (take (Z.to_nat (i + 1)) key)
        else successor_loop fuel key (i + 1) n
    end
  else Some key.
Definition Bytewise_FindShortSuccessor (key : list Z) : option (list Z) :=
  successor_loop (length key) key 0 (zlen key).

Definition BytewiseComparator : Comparator := {|
  Compare := Bytewise_Compare;
  FindShortestSeparator := Bytewise_FindShortestSeparator;
  FindShortSuccessor := Bytewise_FindShortSuccessor
|}.

(** ** Internal keys *)
Inductive ValueType := kTypeDeletion | kTypeValue.
Definition value_code (t : ValueType) : Z := match t with kTypeDeletion => 0 | kTypeValue => 1 end.
Definition kValueTypeForSeek : ValueType := kTypeValue.
Definition kMaxSequenceNumber : Z := Z.shiftl 1 56 - 1.

Record ParsedInternalKey := { user_key : list Z; sequence : Z; type : ValueType }.

Section Format.
Context {P : Platform}.

Definition PackSequenceAndType (seq : Z) (t : ValueType) : option Z :=
  if negb (seq <=? kMaxSequenceNumber) then None
  else if negb (value_code t <=? value_code kValueTypeForSeek) then None
  else Some (Z.lor (u64 (Z.shiftl seq 8)) (value_code t)).

Definition AppendInternalKey (result : list Z) (key : ParsedInternalKey) : option (list Z) :=
  tag ← PackSequenceAndType (sequence key) (type key);
  PutFixed64 (result ++ user_key key) tag.

Definition ExtractUserKey (internal_key : list Z) : option (list Z) :=
  if negb (8 <=? zlen internal_key) then None else rd internal_key 0 (zlen internal_key - 8).

(** The inner [None] is the result [false]. *)
Definition ParseInternalKey (internal_key : list Z) : option (option ParsedInternalKey) :=
  let n := zlen internal_key in
  if n <? 8 then Some None
  else
    num ← DecodeFixed64 internal_key (n - 8);
    let c := u8 (Z.land num 255) in
    u ← rd internal_key 0 (n - 8);
    if c =? 0 then Some (Some {| user_key := u; sequence := Z.shiftr num 8; type := kTypeDeletion |})
    else if c =? 1 then Some (Some {| user_key := u; sequence := Z.shiftr num 8; type := kTypeValue |})
    else Some None.

(** *** InternalKeyComparator *)
Definition ICompare (uc : Comparator) (akey bkey : list Z) : option Z :=
  a ← ExtractUserKey akey;
  b ← ExtractUserKey bkey;
  let r := Compare uc a b in
  if r =? 0 then
    anum ← DecodeFixed64 akey (zlen akey - 8);
    bnum ← DecodeFixed64 bkey (zlen bkey - 8);
    if bnum <? anum then Some (-1)
    else if anum <? bnum then Some 1
    else Some r
  else Some r.

Definition IFindShortestSeparator (uc : Comparator) (start limit : list Z) : option (list Z) :=
  user_start ← ExtractUserKey start;
  user_limit ← ExtractUserKey limit;
  tmp ← FindShortestSeparator uc user_start user_limit;
  if (zlen tmp <? zlen user_start) && (Compare uc user_start tmp <? 0) then
    tag ← PackSequenceAndType kMaxSequenceNumber kValueTypeForSeek;
    tmp ← PutFixed64 tmp tag;
    c1 ← ICompare uc start tmp;
    if negb (c1 <? 0) then None
    else
      c2 ← ICompare uc tmp limit;
      if negb (c2 <? 0) then None else Some tmp
  else Some start.

Definition IFindShortSuccessor (uc : Comparator) (key : list Z) : option (list Z) :=
  user_key ← ExtractUserKey key;
  tmp ← FindShortSuccessor uc user_key;
  if (zlen tmp <? zlen user_key) && (Compare uc user_key tmp <? 0) then
    tag ← PackSequenceAndType kMaxSequenceNumber kValueTypeForSeek;
    tmp ← PutFixed64 tmp tag;
    c1 ← ICompare uc key tmp;
    if negb (c1 <? 0) then None else Some tmp
  else Some key.

(** *** LookupKey *)
Record LookupKey := { lk_buf : list Z; kstart_ : Z; end_ : Z }.

(** The constructor: short keys are built in the 200 bytes of [space_]. *)
Definition new_LookupKey (ukey : list Z) (s : Z) : option LookupKey :=
  let usize := zlen ukey in
  let needed := usize + 13 in
  let dst := if needed <=? 200 then char_buf 200 else char_buf (Z.to_nat needed) in
  '(buf, dst) ← EncodeVarint32 dst 0 (u32 (usize + 8));
  let kstart := dst in
  buf ← wr buf dst ukey;
  let dst := dst + usize in
  tag ← PackSequenceAndType s kValueTypeForSeek;
  buf ← EncodeFixed64 buf dst tag;
  Some {| lk_buf := buf; kstart_ := kstart; end_ := dst + 8 |}.

Definition memtable_key (k : LookupKey) : option (list Z) := rd (lk_buf k) 0 (end_ k).
Definition internal_key (k : LookupKey) : option (list Z) := rd (lk_buf k) (kstart_ k) (end_ k - kstart_ k).
Definition lookup_user_key (k : LookupKey) : option (list Z) :=
  rd (lk_buf k) (kstart_ k) (end_ k - kstart_ k - 8).
End Format.

(** ** The bytewise comparator implements the interface *)

Lemma lex_app c a b : lex (c ++ a) (c ++ b) = lex a b.
Proof. induction c as [|x c IH]; [done|]. cbn [app lex]. by rewrite Z.eqb_refl. Qed.

Lemma lex_refl a : lex a a = 0.
Proof. by apply lex_eq. Qed.

Lemma compare_lex a b : compare a b = lex a b.
Proof.
  rewrite lex_memcmp. unfold compare. cbv zeta.
  set (r := memcmp _ _). destruct (Z.eqb_spec r 0) as [->|]; [|done].
  destruct (Z.ltb_spec (zlen a) (zlen b)), (Z.ltb_spec (zlen b) (zlen a)); lia || done.
Qed.

Lemma diff_loop_ok fuel c s l m :
  m = Z.min (zlen (c ++ s)) (zlen (c ++ l)) -> (length s <= fuel \/ length l <= fuel)%nat ->
  exists c' s' l', c ++ s = c' ++ s' /\ c ++ l = c' ++ l' /\
    diff_loop fuel (c ++ s) (c ++ l) (zlen c) m = Some (zlen c') /\
    match s', l' with x :: _, y :: _ => x <> y | _, _ => True end.
Proof.
  revert c s l. induction fuel as [|fuel IH]; intros c s l Hm Hf.
  { assert ((zlen c <? m) = false) as E.
    { apply Z.ltb_ge. subst m. zlens. unfold zlen. lia. }
    exists c, s, l. simpl. rewrite E. split_and!; try done. by destruct Hf, s, l; simpl in *; try lia. }
  destruct s as [|x s]; [|destruct l as [|y l]].
  - exists c, [], l. split_and!; try done. simpl. rewrite (proj2 (Z.ltb_ge (zlen c) m)); [done|].
    subst m. zlens. pose proof (zlen_nonneg l). lia.
  - exists c, (x :: s), []. split_and!; try done. simpl. rewrite (proj2 (Z.ltb_ge (zlen c) m)); [done|].
    subst m. zlens. pose proof (zlen_nonneg s). lia.
  - cbn [diff_loop]. rewrite (proj2 (Z.ltb_lt (zlen c) m)).
    2: { subst m. zlens. pose proof (zlen_nonneg s). pose proof (zlen_nonneg l). lia. }
    rewrite !znth_middle. cbn [mbind option_bind]. destruct (Z.eqb_spec x y) as [->|Hne].
    + destruct (IH (c ++ [y]) s l) as (c' & s' & l' & H1 & H2 & H3 & H4).
      { subst m. by rewrite <- !app_assoc. }
      { simpl in Hf. lia. }
      rewrite <- !app_assoc in *. cbn [app] in *. exists c', s', l'. split_and!; try done.
      rewrite <- H3. f_equal. zlens. lia.
    + exists c, (x :: s), (y :: l). done.
Qed.

Lemma separator_ok start limit :
  bytes start -> bytes limit ->
  exists r, Bytewise_FindShortestSeparator start limit = Some r /\ bytes r /\
    (if lex start limit <? 0 then lex start r <= 0 /\ lex r limit < 0 else r = start).
Proof.
  intros Hs Hl. unfold Bytewise_FindShortestSeparator. cbv zeta.
  set (m := Z.min (zlen start) (zlen limit)).
  destruct (diff_loop_ok (Z.to_nat m) [] start limit m) as (c & s & l & H1 & H2 & H3 & H4); [done| |].
  { unfold m, zlen. lia. }
  cbn [app] in *. rewrite zlen_nil in H3. rewrite H3. cbn [mbind option_bind].
  assert (Hsame : exists r, Some start = Some r /\ bytes r /\
    (if lex start limit <? 0 then lex start r <= 0 /\ lex r limit < 0 else r = start)).
  { exists start. split_and!; try done. destruct (Z.ltb_spec (lex start limit) 0); [|done]. rewrite lex_refl. lia. }
  destruct (Z.leb_spec m (zlen c)) as [Hc|Hc]; [done|].
  destruct s as [|x s]; [exfalso; unfold m in Hc; subst; zlens; lia|].
  destruct l as [|y l]; [exfalso; unfold m in Hc; subst; zlens; lia|]. subst start limit.
  apply Forall_app in Hs as [Hc' Hx%list.Forall_cons]. apply Forall_app in Hl as [_ Hy%list.Forall_cons].
  destruct Hx as [Hx Hs], Hy as [Hy Hl]. unfold is_byte in *.
  rewrite !znth_middle. cbn [mbind option_bind]. unfold u8. rewrite !(wrap_id 8) by (unfold in_u; pow2s; lia).
  destruct ((x <? 255) && (x + 1 <? y)) eqn:E; [|done].
  apply andb_true_iff in E as [E1%Z.ltb_lt E2%Z.ltb_lt]. rewrite (wrap_id 8) by (unfold in_u; pow2s; lia).
  rewrite zset_middle. cbn [mbind option_bind].
  replace (take _ _) with (c ++ [x + 1]).
  2: { change (x + 1 :: s) with ([x + 1] ++ s). rewrite app_assoc. symmetry. apply take_app_length'.
       rewrite length_app. unfold zlen. simpl. lia. }
  change (Bytewise_Compare) with compare. rewrite compare_lex, !lex_app. cbn [lex].
  rewrite (proj2 (Z.eqb_neq (x + 1) y)), (proj2 (Z.ltb_lt (x + 1) y)) by lia. cbn -[lex].
  exists (c ++ [x + 1]). split_and!; [done| |].
  { apply Forall_app. split; [done|]. constructor; [unfold is_byte; lia|constructor]. }
  rewrite !lex_app. cbn [lex]. zb_true. done.
Qed.

Lemma successor_loop_ok fuel c s :
  bytes (c ++ s) -> (length s <= fuel)%nat ->
  exists r, successor_loop fuel (c ++ s) (zlen c) (zlen (c ++ s)) = Some r /\
    bytes r /\ lex (c ++ s) r <= 0.
Proof.
  revert c s. induction fuel as [|fuel IH]; intros c s Hb Hf.
  { destruct s; [|simpl in Hf; lia]. rewrite app_nil_r in *. exists c. simpl.
    rewrite Z.ltb_irrefl, lex_refl. done. }
  destruct s as [|x s].
  { rewrite app_nil_r in *. exists c. simpl. rewrite Z.ltb_irrefl, lex_refl. done. }
  cbn [successor_loop]. rewrite (proj2 (Z.ltb_lt (zlen c) (zlen (c ++ x :: s)))).
  2: { zlens. pose proof (zlen_nonneg s). lia. }
  rewrite znth_middle. cbn [mbind option_bind]. destruct (Z.eqb_spec x 255) as [->|Hne]; simpl negb; cbv iota.
  - destruct (IH (c ++ [255]) s) as (r & H1 & H2 & H3); [by rewrite <- app_assoc|simpl in Hf; lia|].
    rewrite <- app_assoc in *. cbn [app] in *. exists r. split_and!; try done.
    rewrite <- H1. f_equal. zlens. lia.
  - apply Forall_app in Hb as [Hc [Hx Hs]%list.Forall_cons]. unfold is_byte in Hx.
    unfold u8. rewrite wrap_id by (unfold in_u; pow2s; lia). rewrite zset_middle. cbn [mbind option_bind].
    exists (c ++ [x + 1]). split_and!.
    + f_equal. change (x + 1 :: s) with ([x + 1] ++ s). rewrite app_assoc. apply take_app_length'.
      rewrite length_app. unfold zlen. simpl. lia.
    + apply Forall_app. split; [done|]. constructor; [unfold is_byte; lia|constructor].
    + rewrite lex_app. cbn [lex]. zb_true. done.
Qed.

#[export] Instance Bytewise_laws : ComparatorLaws BytewiseComparator.
Proof.
  split; simpl; change Bytewise_Compare with compare.
  - intros a b. rewrite !compare_lex, (lex_opp a b). apply Z.sgn_opp.
  - intros a b d. rewrite !compare_lex. intros H1 H2.
    destruct (lex_range a b) as [Hab|[Hab|Hab]], (lex_range b d) as [Hbd|[Hbd|Hbd]]; try lia.
    + apply Z.lt_le_incl, (lex_trans a b d); lia.
    + apply lex_eq in Hbd as ->. lia.
    + apply lex_eq in Hab as ->. lia.
    + apply lex_eq in Hab as ->. lia.
  - intros start limit Hs Hl. rewrite compare_lex. destruct (separator_ok start limit Hs Hl) as (r & H1 & H2 & H3).
    exists r. by rewrite !compare_lex.
  - intros key Hk. destruct (successor_loop_ok (length key) [] key) as (r & H1 & H2 & H3); [done|lia|].
    exists r. by rewrite compare_lex.
Qed.

(** ** Internal keys *)
Section CompareFacts.
Context (c : Comparator) `{!ComparatorLaws c}.

Lemma cmp_refl a : Compare c a a = 0.
Proof. pose proof (cmp_opp c a a) as H. apply Z.sgn_null_iff. lia. Qed.
Lemma cmp_neg a b : Compare c a b < 0 <-> 0 < Compare c b a.
Proof. pose proof (cmp_opp c a b) as H. lia. Qed.
Lemma cmp_zero a b : Compare c a b = 0 <-> Compare c b a = 0.
Proof. pose proof (cmp_opp c a b) as H. lia. Qed.
Lemma cmp_le_lt a b d : Compare c a b <= 0 -> Compare c b d < 0 -> Compare c a d < 0.
Proof.
  intros H1 H2. pose proof (cmp_trans c a b d H1 ltac:(lia)) as H3.
  destruct (decide (Compare c a d = 0)) as [E|]; [|lia].
  apply cmp_zero in E. pose proof (cmp_trans c d a b ltac:(lia) H1) as H4. apply cmp_neg in H2. lia.
Qed.
Lemma cmp_lt_le a b d : Compare c a b < 0 -> Compare c b d <= 0 -> Compare c a d < 0.
Proof.
  intros H1 H2. pose proof (cmp_trans c a b d ltac:(lia) H2) as H3.
  destruct (decide (Compare c a d = 0)) as [E|]; [|lia].
  apply cmp_zero in E. pose proof (cmp_trans c b d a H2 ltac:(lia)) as H4. apply cmp_neg in H1. lia.
Qed.
Lemma cmp_eq_l a b d : Compare c a b = 0 -> Z.sgn (Compare c a d) = Z.sgn (Compare c b d).
Proof.
  intros H. pose proof (proj1 (cmp_zero a b) H) as H'.
  assert (Compare c a d < 0 <-> Compare c b d < 0) by (split; intros; eapply cmp_le_lt; eauto; lia).
  assert (Compare c d a < 0 <-> Compare c d b < 0) by (split; intros; eapply cmp_lt_le; eauto; lia).
  pose proof (cmp_neg d a). pose proof (cmp_neg d b). pose proof (cmp_neg a d). lia.
Qed.
End CompareFacts.

(** The tag of a sequence number and a type, and the internal keys: a user key
    and a 64-bit tag. *)
Definition tag_of (seq : Z) (t : ValueType) : Z := seq * 256 + value_code t.
Definition raw (u : list Z) (n : Z) : list Z := u ++ le_enc 8 n.
Definition ikey (k : ParsedInternalKey) : list Z := raw (user_key k) (tag_of (sequence k) (type k)).
Definition key_ok (k : ParsedInternalKey) : Prop := bytes (user_key k) /\ 0 <= sequence k <= kMaxSequenceNumber.

(** The order of internal keys: user keys by the user's order, and for equal
    ones the larger tag first. *)
Definition rcmp (c : Comparator) (u : list Z) (n : Z) (v : list Z) (k : Z) : Z :=
  if Compare c u v =? 0 then if k <? n then -1 else if n <? k then 1 else Compare c u v else Compare c u v.

Section FormatFacts.
Context {P : Platform}.

Lemma kMax_eq : kMaxSequenceNumber = 2 ^ 56 - 1.
Proof. reflexivity. Qed.

Lemma value_code_range t : 0 <= value_code t <= 1.
Proof. destruct t; simpl; lia. Qed.

Lemma tag_range seq t : 0 <= seq <= kMaxSequenceNumber -> in_u 64 (tag_of seq t).
Proof. rewrite kMax_eq. unfold in_u, tag_of. pose proof (value_code_range t). pow2s. lia. Qed.

Lemma Pack_ok seq t : 0 <= seq <= kMaxSequenceNumber -> PackSequenceAndType seq t = Some (tag_of seq t).
Proof.
  intros Hs. unfold PackSequenceAndType. rewrite (proj2 (Z.leb_le _ _) (proj2 Hs)). simpl negb. cbv iota.
  pose proof (value_code_range t). unfold kValueTypeForSeek. change (value_code kTypeValue) with 1.
  rewrite (proj2 (Z.leb_le (value_code t) 1)) by lia. simpl negb. cbv iota. f_equal.
  rewrite Z.lor_comm. unfold u64. rewrite lor_shift_wrap by (pow2s; lia).
  rewrite kMax_eq in Hs. rewrite wrap_id by (unfold in_u; pow2s; lia). unfold tag_of. change (2 ^ 8) with 256. lia.
Qed.

Lemma zlen_raw u n : zlen (raw u n) = zlen u + 8.
Proof. unfold raw. by zlens. Qed.

Lemma raw_bytes u n : bytes u -> bytes (raw u n).
Proof. intros. apply Forall_app. split; [done|apply bytes_le_enc]. Qed.

(** Every string of at least 8 bytes is an internal key. *)
Lemma raw_split b : bytes b -> 8 <= zlen b -> exists u n, b = raw u n /\ bytes u /\ in_u 64 n.
Proof.
  intros Hb Hl. set (k := (length b - 8)%nat). exists (take k b), (le_dec (drop k b)).
  assert (Hk : length (drop k b) = 8%nat) by (rewrite length_drop; unfold k, zlen in *; lia).
  assert (Hd : bytes (drop k b)) by (by apply Forall_drop). split_and!.
  - unfold raw. rewrite <- Hk at 1. rewrite le_enc_dec by done. by rewrite take_drop.
  - by apply Forall_take.
  - pose proof (le_dec_range _ Hd) as H. unfold in_u. unfold zlen in H. by rewrite Hk in H.
Qed.

Lemma AppendInternalKey_ok res k : key_ok k -> AppendInternalKey res k = Some (res ++ ikey k).
Proof.
  intros [_ Hs]. unfold AppendInternalKey. rewrite Pack_ok by done. cbn [mbind option_bind].
  rewrite PutFixed64_ok. unfold ikey, raw. by rewrite app_assoc.
Qed.

Lemma ExtractUserKey_raw u n : ExtractUserKey (raw u n) = Some u.
Proof.
  unfold ExtractUserKey. rewrite zlen_raw. pose proof (zlen_nonneg u).
  rewrite (proj2 (Z.leb_le 8 (zlen u + 8))) by lia. simpl negb. cbv iota.
  unfold raw. apply rd_front. lia.
Qed.

Lemma Decode_raw u n o : in_u 64 n -> o = zlen (raw u n) - 8 -> DecodeFixed64 (raw u n) o = Some n.
Proof.
  intros Hn ->. rewrite zlen_raw. unfold raw. rewrite <- (app_nil_r (le_enc 8 n)).
  rewrite DecodeFixed64_ok by (apply bytes_le_enc || (by zlens) || lia).
  by rewrite le_dec_enc, wrap_id.
Qed.

Lemma ParseInternalKey_ok k : key_ok k -> ParseInternalKey (ikey k) = Some (Some k).
Proof.
  intros [Hb Hs]. pose proof (tag_range (sequence k) (type k) Hs) as Ht. pose proof (zlen_nonneg (user_key k)).
  unfold ParseInternalKey, ikey. cbv zeta. rewrite zlen_raw. zb_true.
  rewrite Decode_raw by (done || (rewrite zlen_raw; lia)). cbn [mbind option_bind].
  unfold raw. rewrite rd_front by lia. cbn [mbind option_bind].
  rewrite (land_low _ 8 ltac:(lia) : Z.land _ 255 = _ mod 2 ^ 8), Z.shiftr_div_pow2 by lia.
  unfold u8, wrap. rewrite Z.mod_mod by lia. unfold tag_of. change (2 ^ 8) with 256.
  pose proof (value_code_range (type k)).
  rewrite Z.add_comm, Z.mod_add, Z.div_add, (Z.mod_small (value_code _)), (Z.div_small (value_code _)), Z.add_0_l by lia.
  destruct k as [u s []]; done.
Qed.

Lemma ICompare_raw c u n v k :
  in_u 64 n -> in_u 64 k -> ICompare c (raw u n) (raw v k) = Some (rcmp c u n v k).
Proof.
  intros Hn Hk. unfold ICompare, rcmp. rewrite !ExtractUserKey_raw. cbn [mbind option_bind]. cbv zeta.
  destruct (Compare c u v =? 0); [|done]. rewrite !Decode_raw by done. cbn [mbind option_bind].
  by destruct (k <? n), (n <? k).
Qed.
End FormatFacts.

Section RcmpFacts.
Context (c : Comparator) `{!ComparatorLaws c}.

Lemma rcmp_opp u n v k : Z.sgn (rcmp c v k u n) = - Z.sgn (rcmp c u n v k).
Proof.
  unfold rcmp. pose proof (cmp_zero c u v) as Hz. pose proof (cmp_opp c u v) as Ho.
  destruct (Z.eqb_spec (Compare c u v) 0), (Z.eqb_spec (Compare c v u) 0); try tauto; try lia.
  destruct (Z.ltb_spec n k), (Z.ltb_spec k n); simpl; lia.
Qed.

Lemma rcmp_trans u n v k w j : rcmp c u n v k <= 0 -> rcmp c v k w j <= 0 -> rcmp c u n w j <= 0.
Proof.
  unfold rcmp. intros H1 H2.
  assert (Compare c u v <= 0 /\ Compare c v w <= 0) as [L1 L2].
  { destruct (Z.eqb_spec (Compare c u v) 0), (Z.eqb_spec (Compare c v w) 0); lia. }
  destruct (Z.eqb_spec (Compare c u v) 0) as [E1|E1], (Z.eqb_spec (Compare c v w) 0) as [E2|E2].
  - pose proof (cmp_eq_l c u v w E1) as E. rewrite E2 in E. assert (Compare c u w = 0) as -> by lia. simpl.
    destruct (Z.ltb_spec k n), (Z.ltb_spec j k), (Z.ltb_spec j n), (Z.ltb_spec n k), (Z.ltb_spec k j), (Z.ltb_spec n j); lia.
  - pose proof (cmp_le_lt c u v w L1 ltac:(lia)). rewrite (proj2 (Z.eqb_neq _ _)); lia.
  - pose proof (cmp_lt_le c u v w ltac:(lia) L2). rewrite (proj2 (Z.eqb_neq _ _)); lia.
  - pose proof (cmp_lt_le c u v w ltac:(lia) L2). rewrite (proj2 (Z.eqb_neq _ _)); lia.
Qed.

Lemma rcmp_user_lt u n v k : Compare c u v < 0 -> rcmp c u n v k < 0.
Proof. intros H. unfold rcmp. by rewrite (proj2 (Z.eqb_neq _ _)) by lia. Qed.
End RcmpFacts.

(** ** Separators, successors and lookup keys *)
Section SeparatorFacts.
Context {P : Platform} (c : Comparator) `{!ComparatorLaws c}.

Definition seek_tag : Z := tag_of kMaxSequenceNumber kTypeValue.

Lemma Pack_seek : PackSequenceAndType kMaxSequenceNumber kValueTypeForSeek = Some seek_tag.
Proof. apply Pack_ok. rewrite kMax_eq. lia. Qed.
Lemma seek_tag_range : in_u 64 seek_tag.
Proof. by vm_compute. Qed.

Lemma PutFixed64_raw u n : PutFixed64 u n = Some (raw u n).
Proof. apply PutFixed64_ok. Qed.

Lemma rcmp_refl u n : rcmp c u n u n = 0.
Proof. unfold rcmp. rewrite cmp_refl by done. simpl. by rewrite Z.ltb_irrefl. Qed.

Lemma IFindShortestSeparator_ok start limit x :
  bytes start -> bytes limit -> ICompare c start limit = Some x ->
  exists r, IFindShortestSeparator c start limit = Some r /\ bytes r /\ zlen r <= zlen start /\
    if x <? 0 then exists a b, ICompare c start r = Some a /\ a <= 0 /\ ICompare c r limit = Some b /\ b < 0
    else r = start.
Proof.
  intros Hs Hl Hx.
  assert (8 <= zlen start /\ 8 <= zlen limit) as [Hs8 Hl8].
  { unfold ICompare, ExtractUserKey in Hx.
    destruct (Z.leb_spec 8 (zlen start)), (Z.leb_spec 8 (zlen limit)); try done.
    simpl in Hx. by destruct (rd start _ _). }
  destruct (raw_split start Hs Hs8) as (u & n & -> & Hu & Hn).
  destruct (raw_split limit Hl Hl8) as (v & k & -> & Hv & Hk).
  rewrite ICompare_raw in Hx by done. injection Hx as <-.
  unfold IFindShortestSeparator. rewrite !ExtractUserKey_raw. cbn [mbind option_bind].
  destruct (cmp_separator c u v Hu Hv) as (tmp & -> & Htb & Htmp). cbn [mbind option_bind].
  destruct ((zlen tmp <? zlen u) && (Compare c u tmp <? 0)) eqn:E.
  - apply andb_true_iff in E as [E1%Z.ltb_lt E2%Z.ltb_lt].
    destruct (Z.ltb_spec (Compare c u v) 0) as [Huv|Huv]; [|subst tmp; lia]. destruct Htmp as [_ Htv].
    rewrite Pack_seek. cbn [mbind option_bind]. rewrite PutFixed64_raw. cbn [mbind option_bind].
    pose proof seek_tag_range. rewrite !ICompare_raw by done. cbn [mbind option_bind].
    pose proof (rcmp_user_lt c u n tmp seek_tag E2). pose proof (rcmp_user_lt c tmp seek_tag v k Htv).
    pose proof (rcmp_user_lt c u n v k Huv). zb_true. simpl negb. cbv iota. zb_true. simpl negb. cbv iota.
    exists (raw tmp seek_tag). split_and!; [done|by apply raw_bytes|rewrite !zlen_raw; lia|].
    rewrite !ICompare_raw by done. eexists _, _. split_and!; [done|lia|done|lia].
  - exists (raw u n). split_and!; [done|done|lia|]. destruct (Z.ltb_spec (rcmp c u n v k) 0); [|done].
    rewrite !ICompare_raw by done. eexists _, _. split_and!; [done| |done|done]. rewrite rcmp_refl. lia.
Qed.

Lemma IFindShortSuccessor_ok key :
  bytes key -> 8 <= zlen key ->
  exists r a, IFindShortSuccessor c key = Some r /\ bytes r /\ zlen r <= zlen key /\ ICompare c key r = Some a /\ a <= 0.
Proof.
  intros Hk H8. destruct (raw_split key Hk H8) as (u & n & -> & Hu & Hn).
  unfold IFindShortSuccessor. rewrite ExtractUserKey_raw. cbn [mbind option_bind].
  destruct (cmp_successor c u Hu) as (tmp & -> & Htb & Htmp). cbn [mbind option_bind].
  destruct ((zlen tmp <? zlen u) && (Compare c u tmp <? 0)) eqn:E.
  - apply andb_true_iff in E as [E1%Z.ltb_lt E2%Z.ltb_lt].
    rewrite Pack_seek. cbn [mbind option_bind]. rewrite PutFixed64_raw. cbn [mbind option_bind].
    pose proof seek_tag_range. rewrite !ICompare_raw by done. cbn [mbind option_bind].
    pose proof (rcmp_user_lt c u n tmp seek_tag E2). zb_true. simpl negb. cbv iota.
    exists (raw tmp seek_tag), (rcmp c u n tmp seek_tag). rewrite ICompare_raw by done.
    split_and!; [done|by apply raw_bytes|rewrite !zlen_raw; lia|done|lia].
  - exists (raw u n), 0. rewrite ICompare_raw, rcmp_refl by done. split_and!; done || lia.
Qed.

Lemma zlen_varint_le v : zlen (varint v) <= 10.
Proof. pose proof (vint_length 10 v). unfold varint, zlen. lia. Qed.
Lemma zlen_varint32_le v : in_u 32 v -> zlen (varint v) <= 5.
Proof. intros. rewrite varint32 by done. pose proof (vint_length 5 v). unfold zlen. lia. Qed.

Lemma LookupKey_ok u s :
  zlen u + 8 < 2 ^ 32 -> 0 <= s <= kMaxSequenceNumber ->
  exists lk, new_LookupKey u s = Some lk /\
    memtable_key lk = Some (lenpref (raw u (tag_of s kTypeValue))) /\
    internal_key lk = Some (raw u (tag_of s kTypeValue)) /\ lookup_user_key lk = Some u.
Proof.
  intros Hu Hs. pose proof (zlen_nonneg u). unfold new_LookupKey. cbv zeta.
  set (dst := if zlen u + 13 <=? 200 then char_buf 200 else char_buf (Z.to_nat (zlen u + 13))).
  assert (Hd : zlen u + 13 <= zlen dst).
  { unfold dst. destruct (Z.leb_spec (zlen u + 13) 200); rewrite zlen_char_buf; lia. }
  unfold u32. rewrite wrap_id by (unfold in_u; lia). set (h := varint (zlen u + 8)).
  assert (Hh : 0 < zlen h <= 5).
  { split; [|apply zlen_varint32_le; unfold in_u; lia]. unfold h, varint. cbn [vint].
    destruct (_ <? 128); zlens; [lia|]. match goal with |- context [zlen ?l] => pose proof (zlen_nonneg l) end. lia. }
  pose proof (EncodeVarint32_ok [] dst (zlen u + 8) ltac:(unfold in_u; lia)) as HE. cbn [app] in HE. rewrite zlen_nil in HE.
  fold h in HE. rewrite HE by lia. cbn [mbind option_bind]. rewrite Pack_ok by done.
  set (t := tag_of s kTypeValue).
  destruct (fixed_split (drop (length h) dst) 0 (zlen u + 8)) as (p0 & y & rest & Hdrop & Hp0 & Hy).
  { lia. } { lia. } { rewrite zlen_drop. unfold zlen in *. lia. }
  assert (p0 = []) as -> by (apply zlen_0_inv; lia). cbn [app] in Hdrop. rewrite Hdrop.
  destruct (split_seg y 0 (zlen u)) as (p1 & y1 & y2 & -> & Hp1 & Hy1); [lia..|].
  assert (p1 = []) as -> by (apply zlen_0_inv; lia). cbn [app] in *. zlens.
  rewrite <- app_assoc, (wr_seg h y1 (y2 ++ rest)) by lia. cbn [mbind option_bind].
  rewrite (app_assoc h u). rewrite EncodeFixed64_ok by (zlens; pose proof (zlen_nonneg rest); lia).
  rewrite (wr_seg (h ++ u) y2 rest) by (zlens; lia). cbn [mbind option_bind].
  eexists. split; [done|]. unfold memtable_key, internal_key, lookup_user_key. cbn.
  assert (Hraw : zlen u + 8 = zlen (raw u t)) by (by rewrite zlen_raw). split_and!.
  - unfold lenpref. rewrite <- Hraw. fold h. unfold raw.
    rewrite (app_assoc (h ++ u)). rewrite <- (app_assoc h u). apply rd_front. zlens. lia.
  - rewrite <- app_assoc. rewrite (app_assoc u). apply rd_seg; unfold raw; zlens; lia.
  - rewrite <- app_assoc. apply rd_seg; zlens; lia.
Qed.
End SeparatorFacts.

(** The documented order: increasing user key, then decreasing sequence
    number, then decreasing type. *)
Definition key_order (c : Comparator) (a b : ParsedInternalKey) : Z :=
  let u := Z.sgn (Compare c (user_key a) (user_key b)) in
  let s := Z.sgn (sequence b - sequence a) in
  if u =? 0 then if s =? 0 then Z.sgn (value_code (type b) - value_code (type a)) else s else u.

Lemma rcmp_key_order c a b :
  Z.sgn (rcmp c (user_key a) (tag_of (sequence a) (type a)) (user_key b) (tag_of (sequence b) (type b))) = key_order c a b.
Proof.
  unfold rcmp, key_order, tag_of. cbv zeta. pose proof (value_code_range (type a)). pose proof (value_code_range (type b)).
  destruct (Z.eqb_spec (Compare c (user_key a) (user_key b)) 0) as [->|Hne].
  - simpl (Z.sgn 0 =? 0). cbv iota. destruct (Z.eqb_spec (Z.sgn (sequence b - sequence a)) 0);
      repeat match goal with |- context [?x <? ?y] => destruct (Z.ltb_spec x y) end; lia.
  - rewrite (proj2 (Z.eqb_neq _ _)); [done|]. by rewrite Z.sgn_null_iff.
Qed.

(** C21: with any user comparator that keeps the interface's laws, internal
    keys parse back to what they were built from and compare in the documented
    order: user key increasing, sequence number decreasing, type decreasing.
    [FindShortestSeparator] turns [start] into a string that is no longer,
    not below [start] and below [limit] (or leaves it when [start] is not
    below [limit]), and [FindShortSuccessor] gives one that is not below the
    key; no assertion in them fails. *)
Theorem internal_key_comparator_correct {P : Platform} c `{!ComparatorLaws c} :
  (forall a b, key_ok a -> key_ok b ->
     exists ea eb r, AppendInternalKey [] a = Some ea /\ AppendInternalKey [] b = Some eb /\
       ParseInternalKey ea = Some (Some a) /\ ICompare c ea eb = Some r /\ Z.sgn r = key_order c a b) /\
  (forall start limit x, bytes start -> bytes limit -> ICompare c start limit = Some x ->
     exists r, IFindShortestSeparator c start limit = Some r /\ zlen r <= zlen start /\
       if x <? 0 then exists i j, ICompare c start r = Some i /\ i <= 0 /\ ICompare c r limit = Some j /\ j < 0
       else r = start) /\
  (forall key, bytes key -> 8 <= zlen key ->
     exists r i, IFindShortSuccessor c key = Some r /\ zlen r <= zlen key /\ ICompare c key r = Some i /\ i <= 0).
Proof.
  split_and!.
  - intros a b Ha Hb. exists (ikey a), (ikey b). eexists. split_and!;
      [by apply AppendInternalKey_ok|by apply AppendInternalKey_ok|by apply ParseInternalKey_ok|
       apply ICompare_raw; apply tag_range; [apply Ha|apply Hb]|apply rcmp_key_order].
  - intros start limit x Hs Hl Hx. destruct (IFindShortestSeparator_ok c start limit x Hs Hl Hx) as (r & H1 & _ & H2 & H3).
    by exists r.
  - intros key Hk H8. destruct (IFindShortSuccessor_ok c key Hk H8) as (r & a & H1 & _ & H2 & H3 & H4). by exists r, a.
Qed.

Lemma internal_key_comparator_correct_witness :
  exists r i, IFindShortSuccessor (P:=be_host) BytewiseComparator [255; 3; 9; 1; 0; 0; 0; 0; 0; 0; 0] = Some r /\
    zlen r <= 11 /\ ICompare (P:=be_host) BytewiseComparator [255; 3; 9; 1; 0; 0; 0; 0; 0; 0; 0] r = Some i /\ i <= 0.
Proof.
  apply (internal_key_comparator_correct (P:=be_host) BytewiseComparator).
  - repeat constructor; by vm_compute.
  - by vm_compute.
Defined.
