(* ===== verification/LdbBatch.v ===== *)
(** * leveldb: db/write_batch.cc

    A write batch is the string [rep_]: an 8-byte sequence number, a 4-byte
    count and the records.  The handler that [Iterate] drives is an interface,
    a [Handler] over a state.  [None] is a failed [assert], a signed overflow
    or an access outside the string. *)

From Stdlib Require Import ZArith Lia Bool String.
From stdpp Require Import base option list numbers.
From S2P Require Import Prelude Endian LdbCoding LdbFormat.
Open Scope Z_scope.

Record Handler (A : Type) := {
  h_Put : A -> list Z -> list Z -> option A;
  h_Delete : A -> list Z -> option A
}.
Arguments h_Put {A}.
Arguments h_Delete {A}.

Definition kHeader : Z := 12.

(** Signed [int] addition. *)
Definition int_add (a b : Z) : option Z :=
  if (- 2 ^ 31 <=? a + b) && (a + b <? 2 ^ 31) then Some (a + b) else None.

Section Batch.
Context {P : Platform}.

(** [rep_.clear(); rep_.resize(kHeader)]. *)
Definition Clear : list Z := replicate (Z.to_nat kHeader) 0.

Definition Count (rep : list Z) : option Z := n ← DecodeFixed32 rep 8; Some (i32 n).
Definition SetCount (rep : list Z) (n : Z) : option (list Z) := EncodeFixed32 rep 8 (u32 n).
Definition Sequence (rep : list Z) : option Z := DecodeFixed64 rep 0.
Definition SetSequence (rep : list Z) (seq : Z) : option (list Z) := EncodeFixed64 rep 0 seq.

Definition Put (rep key value : list Z) : option (list Z) :=
  c ← Count rep;
  n ← int_add c 1;
  rep ← SetCount rep n;
  let rep := rep ++ [value_code kTypeValue] in
  rep ← PutLengthPrefixedSlice rep key;
  PutLengthPrefixedSlice rep value.

Definition Delete (rep key : list Z) : option (list Z) :=
  c ← Count rep;
  n ← int_add c 1;
  rep ← SetCount rep n;
  let rep := rep ++ [value_code kTypeDeletion] in
  PutLengthPrefixedSlice rep key.

Definition SetContents (rep contents : list Z) : option (list Z) :=
  if negb (kHeader <=? zlen contents) then None else Some contents.

Definition Append (dst src : list Z) : option (list Z) :=
  a ← Count dst;
  b ← Count src;
  n ← int_add a b;
  dst' ← SetCount dst n;
  if negb (kHeader <=? zlen src) then None
  else x ← rd src kHeader (zlen src - kHeader); Some (dst' ++ x).

(** The loop of [Iterate]: the handler's state, and the error returned or the
    number of records found. *)
Fixpoint Iterate_loop {A} (fuel : nat) (h : Handler A) (st : A) (input : list Z) (found : Z) : option (A * (Status + Z)) :=
  if zlen input =? 0 then Some (st, inr found)
  else
    match fuel with
    | O => None
    | S fuel =>
        found ← int_add found 1;
        tag ← znth input 0;
        input ← remove_prefix input 1;
        if tag =? value_code kTypeValue then
          '(input, key) ← GetLengthPrefixedSlice input;
          match key with
          | None => Some (st, inl (Corruption "bad WriteBatch Put"))
          | Some key =>
              '(input, value) ← GetLengthPrefixedSlice input;
              match value with
              | None => Some (st, inl (Corruption "bad WriteBatch Put"))
              | Some value => st ← h_Put h st key value; Iterate_loop fuel h st input found
              end
          end
        else if tag =? value_code kTypeDeletion then
          '(input, key) ← GetLengthPrefixedSlice input;
          match key with
          | None => Some (st, inl (Corruption "bad WriteBatch Delete"))
          | Some key => st ← h_Delete h st key; Iterate_loop fuel h st input found
          end
        else Some (st, inl (Corruption "unknown WriteBatch tag"))
    end.

Definition Iterate {A} (h : Handler A) (st : A) (rep : list Z) : option (A * Status) :=
  if zlen rep <? kHeader then Some (st, Corruption "malformed WriteBatch (too small)")
  else
    input ← remove_prefix rep kHeader;
    '(st, r) ← Iterate_loop (length rep) h st input 0;
    match r with
    | inl e => Some (st, e)
    | inr found =>
        count ← Count rep;
        if negb (found =? count) then Some (st, Corruption "WriteBatch has wrong count") else Some (st, OK)
    end.
End Batch.

(** ** What a batch means *)

Inductive brecord := RPut (key value : list Z) | RDelete (key : list Z).

Definition renc (r : brecord) : list Z :=
  match r with
  | RPut k v => 1 :: lenpref k ++ lenpref v
  | RDelete k => 0 :: lenpref k
  end.
Definition brecord_ok (r : brecord) : Prop :=
  match r with
  | RPut k v => bytes k /\ zlen k < 2 ^ 32 /\ bytes v /\ zlen v < 2 ^ 32
  | RDelete k => bytes k /\ zlen k < 2 ^ 32
  end.
Definition rencs (rs : list brecord) : list Z := concat (map renc rs).

(** The batch that holds a sequence number and records. *)
Definition batch_of (b : Z * list brecord) : list Z := le_enc 8 b.1 ++ le_enc 4 (zlen b.2) ++ rencs b.2.
Definition batch_ok (b : Z * list brecord) : Prop :=
  in_u 64 b.1 /\ zlen b.2 < 2 ^ 31 /\ Forall brecord_ok b.2.

(** What a handler sees of the records. *)
Definition deliver {A} (h : Handler A) (st : A) (r : brecord) : option A :=
  match r with RPut k v => h_Put h st k v | RDelete k => h_Delete h st k end.
Fixpoint delivers {A} (h : Handler A) (st : A) (rs : list brecord) : option A :=
  match rs with [] => Some st | r :: rs => st ← deliver h st r; delivers h st rs end.

Section BatchFacts.
Context {P : Platform}.

Lemma Clear_ok : Clear = batch_of (0, []).
Proof. reflexivity. Qed.

Lemma Count_ok b : batch_ok b -> Count (batch_of b) = Some (zlen b.2).
Proof.
  intros (_ & Hc & _). unfold Count, batch_of. pose proof (zlen_nonneg b.2).
  rewrite DecodeFixed32_ok by (apply bytes_le_enc || by zlens). cbn [mbind option_bind].
  rewrite le_dec_enc, wrap_id by (unfold in_u; pow2s; lia).
  unfold i32. rewrite swrap_id by (unfold in_s; pow2s; lia). done.
Qed.

Lemma SetCount_ok b n : 0 <= n < 2 ^ 31 ->
  SetCount (batch_of b) n = Some (le_enc 8 b.1 ++ le_enc 4 n ++ rencs b.2).
Proof.
  intros Hn. unfold SetCount, batch_of. unfold u32. rewrite wrap_id by (unfold in_u; pow2s; lia).
  pose proof (zlen_nonneg (rencs b.2)).
  rewrite EncodeFixed32_ok by (lia || (zlens; lia)). apply wr_seg; by zlens.
Qed.

Lemma int_add_ok a b : - 2 ^ 31 <= a + b < 2 ^ 31 -> int_add a b = Some (a + b).
Proof. intros. unfold int_add. by zb_true. Qed.

Lemma rencs_app rs ss : rencs (rs ++ ss) = rencs rs ++ rencs ss.
Proof. unfold rencs. by rewrite map_app, concat_app. Qed.

Lemma batch_add b r : batch_of (b.1, b.2 ++ [r]) = le_enc 8 b.1 ++ le_enc 4 (zlen b.2 + 1) ++ (rencs b.2 ++ renc r).
Proof.
  unfold batch_of. simpl. rewrite rencs_app. unfold rencs at 2. simpl. rewrite app_nil_r. zlens. by rewrite Z.add_0_r.
Qed.

Lemma Put_ok b k v :
  batch_ok b -> zlen k < 2 ^ 32 -> zlen v < 2 ^ 32 -> zlen b.2 + 1 < 2 ^ 31 ->
  Put (batch_of b) k v = Some (batch_of (b.1, b.2 ++ [RPut k v])).
Proof.
  intros Hb Hk Hv Hc. pose proof (zlen_nonneg b.2). unfold Put. rewrite Count_ok by done. cbn [mbind option_bind].
  rewrite int_add_ok by (pow2s; lia). cbn [mbind option_bind]. rewrite SetCount_ok by lia. cbn [mbind option_bind].
  rewrite PutLengthPrefixedSlice_ok by done. cbn [mbind option_bind]. rewrite PutLengthPrefixedSlice_ok by done.
  rewrite batch_add. by rewrite <- !app_assoc.
Qed.
Lemma Delete_ok b k :
  batch_ok b -> zlen k < 2 ^ 32 -> zlen b.2 + 1 < 2 ^ 31 ->
  Delete (batch_of b) k = Some (batch_of (b.1, b.2 ++ [RDelete k])).
Proof.
  intros Hb Hk Hc. pose proof (zlen_nonneg b.2). unfold Delete. rewrite Count_ok by done. cbn [mbind option_bind].
  rewrite int_add_ok by (pow2s; lia). cbn [mbind option_bind]. rewrite SetCount_ok by lia. cbn [mbind option_bind].
  rewrite PutLengthPrefixedSlice_ok by done. rewrite batch_add. by rewrite <- !app_assoc.
Qed.

Lemma Sequence_ok b : batch_ok b -> Sequence (batch_of b) = Some b.1.
Proof.
  intros (Hs & _). unfold Sequence, batch_of. rewrite DecodeFixed64_front by (apply bytes_le_enc || by zlens).
  by rewrite le_dec_enc, wrap_id.
Qed.
Lemma SetSequence_ok b s : SetSequence (batch_of b) s = Some (batch_of (s, b.2)).
Proof.
  unfold SetSequence, batch_of. pose proof (zlen_nonneg (rencs b.2)).
  rewrite EncodeFixed64_ok by (lia || (zlens; lia)). apply wr_front. by zlens.
Qed.

Lemma zlen_batch b : zlen (batch_of b) = 12 + zlen (rencs b.2).
Proof. unfold batch_of. zlens. lia. Qed.

Lemma batch_header b : batch_of b = (le_enc 8 b.1 ++ le_enc 4 (zlen b.2)) ++ rencs b.2.
Proof. unfold batch_of. by rewrite app_assoc. Qed.

Lemma Append_ok b s :
  batch_ok b -> batch_ok s -> zlen b.2 + zlen s.2 < 2 ^ 31 ->
  Append (batch_of b) (batch_of s) = Some (batch_of (b.1, b.2 ++ s.2)).
Proof.
  intros Hb Hs Hc. pose proof (zlen_nonneg b.2). pose proof (zlen_nonneg s.2). pose proof (zlen_nonneg (rencs s.2)).
  unfold Append. rewrite !Count_ok by done. cbn [mbind option_bind].
  rewrite int_add_ok by (pow2s; lia). cbn [mbind option_bind]. rewrite SetCount_ok by lia. cbn [mbind option_bind].
  rewrite zlen_batch. unfold kHeader. rewrite (proj2 (Z.leb_le 12 (12 + zlen (rencs s.2)))) by lia. simpl negb. cbv iota.
  pose proof (rd_seg (le_enc 8 s.1 ++ le_enc 4 (zlen s.2)) (rencs s.2) [] 12 (12 + zlen (rencs s.2) - 12)) as Hr.
  rewrite app_nil_r, <- batch_header in Hr. rewrite Hr by (zlens; lia). cbn [mbind option_bind].
  unfold batch_of. cbn [fst snd]. rewrite rencs_app, zlen_app. by rewrite <- !app_assoc.
Qed.

Lemma rencs_cons r rs : rencs (r :: rs) = renc r ++ rencs rs.
Proof. reflexivity. Qed.

Lemma renc_bytes r : brecord_ok r -> bytes (renc r).
Proof.
  assert (Hlp : forall s, bytes s -> bytes (lenpref s)).
  { intros s Hs. apply Forall_app. split; [apply varint_bytes, zlen_nonneg|done]. }
  destruct r as [k v|k]; simpl; intros Hr; (constructor; [by vm_compute|]).
  - destruct Hr as (? & _ & ? & _). apply Forall_app; split; by apply Hlp.
  - destruct Hr as (? & _). by apply Hlp.
Qed.
Lemma rencs_bytes rs : Forall brecord_ok rs -> bytes (rencs rs).
Proof. induction 1; [constructor|]. rewrite rencs_cons. apply Forall_app. split; [by apply renc_bytes|done]. Qed.

Lemma renc_length r : (1 <= length (renc r))%nat.
Proof. destruct r; simpl; lia. Qed.
Lemma rencs_length rs : (length rs <= length (rencs rs))%nat.
Proof.
  induction rs as [|r rs IH]; [done|]. rewrite rencs_cons, length_app. pose proof (renc_length r). simpl. lia.
Qed.

Lemma remove_prefix_1 x (l : list Z) : remove_prefix (x :: l) 1 = Some l.
Proof. by apply (remove_prefix_app [x]). Qed.

Lemma Iterate_loop_ok {A} (h : Handler A) fuel rs st found :
  Forall brecord_ok rs -> (length rs <= fuel)%nat -> 0 <= found -> found + zlen rs < 2 ^ 31 ->
  Iterate_loop fuel h st (rencs rs) found = (st' ← delivers h st rs; Some (st', inr (found + zlen rs))).
Proof.
  intros Hrs. revert fuel st found. induction Hrs as [|r rs Hr Hrs IH]; intros fuel st found Hf H0 Hc.
  { destruct fuel; simpl; by rewrite Z.add_0_r. }
  destruct fuel as [|fuel]; [simpl in Hf; lia|]. zlens. pose proof (zlen_nonneg rs).
  assert (Hb : bytes (rencs rs)) by (by apply rencs_bytes).
  assert (Hlp : forall s t, bytes s -> bytes t -> bytes (lenpref s ++ t)).
  { intros s t Hs Ht. apply Forall_app. split; [apply Forall_app; split; [apply varint_bytes, zlen_nonneg|done]|done]. }
  rewrite rencs_cons. cbn [Iterate_loop delivers].
  rewrite (proj2 (Z.eqb_neq (zlen (renc r ++ rencs rs)) 0)).
  2: { rewrite zlen_app. pose proof (renc_length r). pose proof (zlen_nonneg (rencs rs)). unfold zlen at 1. lia. }
  rewrite int_add_ok by (pow2s; lia). cbn [mbind option_bind].
  destruct r as [k v|k]; cbn [renc app].
  - destruct Hr as (Hkb & Hk & Hvb & Hv). change (znth (1 :: ?l) 0) with (Some 1). cbn [mbind option_bind].
    rewrite remove_prefix_1. cbn [mbind option_bind]. simpl (1 =? _). cbv iota.
    rewrite <- app_assoc. rewrite GetLengthPrefixedSlice_app by auto. cbn [mbind option_bind].
    rewrite GetLengthPrefixedSlice_app by done. cbn [mbind option_bind deliver].
    destruct (h_Put h st k v) as [st1|]; [|done]. cbn [mbind option_bind]. rewrite IH by (lia || (simpl in Hf; lia)).
    destruct (delivers h st1 rs); [|done]. cbn [mbind option_bind]. do 3 f_equal. lia.
  - destruct Hr as (Hkb & Hk). change (znth (0 :: ?l) 0) with (Some 0). cbn [mbind option_bind].
    rewrite remove_prefix_1. cbn [mbind option_bind]. simpl (0 =? _). cbv iota.
    rewrite GetLengthPrefixedSlice_app by auto. cbn [mbind option_bind deliver].
    destruct (h_Delete h st k) as [st1|]; [|done]. cbn [mbind option_bind]. rewrite IH by (lia || (simpl in Hf; lia)).
    destruct (delivers h st1 rs); [|done]. cbn [mbind option_bind]. do 3 f_equal. lia.
Qed.

Lemma Iterate_ok {A} (h : Handler A) st b :
  batch_ok b -> Iterate h st (batch_of b) = (st' ← delivers h st b.2; Some (st', OK)).
Proof.
  intros Hb. pose proof Hb as (Hs & Hc & Hr). unfold Iterate, kHeader. pose proof (zlen_nonneg (rencs b.2)).
  rewrite zlen_batch. zb_true. rewrite batch_header at 1. rewrite remove_prefix_app by (by zlens). cbn [mbind option_bind].
  rewrite Iterate_loop_ok; [|done| |lia|lia].
  2: { pose proof (rencs_length b.2). rewrite batch_header, length_app. lia. }
  destruct (delivers h st b.2) as [st1|]; [|done]. cbn [mbind option_bind].
  rewrite Count_ok by done. cbn [mbind option_bind]. by rewrite Z.add_0_l, Z.eqb_refl.
Qed.
End BatchFacts.

(** ** Histories over several batches *)

Inductive batch_op :=
  | BClear (i : nat)
  | BPut (i : nat) (key value : list Z)
  | BDelete (i : nat) (key : list Z)
  | BSetSequence (i : nat) (seq : Z)
  | BAppend (i j : nat)
  | BSetContents (i j : nat).

(** The batch an operation changes and what it becomes. *)
Definition run_batch_op {P : Platform} (bs : list (list Z)) (o : batch_op) : option (list (list Z)) :=
  match o with
  | BClear i => b ← bs !! i; Some (<[i := Clear]> bs)
  | BPut i k v => b ← bs !! i; b ← Put b k v; Some (<[i := b]> bs)
  | BDelete i k => b ← bs !! i; b ← Delete b k; Some (<[i := b]> bs)
  | BSetSequence i s => b ← bs !! i; b ← SetSequence b s; Some (<[i := b]> bs)
  | BAppend i j => b ← bs !! i; s ← bs !! j; b ← Append b s; Some (<[i := b]> bs)
  | BSetContents i j => b ← bs !! i; s ← bs !! j; b ← SetContents b s; Some (<[i := b]> bs)
  end.
Fixpoint run_batch_ops {P : Platform} (bs : list (list Z)) (os : list batch_op) : option (list (list Z)) :=
  match os with [] => Some bs | o :: os => bs ← run_batch_op bs o; run_batch_ops bs os end.

(** The abstract batches: a sequence number and the records in order. *)
Abbreviation abatch := (Z * list brecord)%type.
Definition spec_batch_op (bs : list abatch) (o : batch_op) : option (list abatch) :=
  match o with
  | BClear i => _ ← bs !! i; Some (<[i := (0, [])]> bs)
  | BPut i k v => b ← bs !! i; Some (<[i := (b.1, b.2 ++ [RPut k v])]> bs)
  | BDelete i k => b ← bs !! i; Some (<[i := (b.1, b.2 ++ [RDelete k])]> bs)
  | BSetSequence i s => b ← bs !! i; Some (<[i := (s, b.2)]> bs)
  | BAppend i j => b ← bs !! i; s ← bs !! j; Some (<[i := (b.1, b.2 ++ s.2)]> bs)
  | BSetContents i j => b ← bs !! i; s ← bs !! j; Some (<[i := s]> bs)
  end.
(** Every batch stays within the limits of the format. *)
Fixpoint spec_batch_ops (bs : list abatch) (os : list batch_op) : list abatch -> Prop :=
  match os with
  | [] => fun bs' => bs' = bs
  | o :: os => fun bs' => exists bs1, spec_batch_op bs o = Some bs1 /\ Forall batch_ok bs1 /\ spec_batch_ops bs1 os bs'
  end.

Section HistoryFacts.
Context {P : Platform}.

Lemma map_lookup_batch bs i b : bs !! i = Some b -> map batch_of bs !! i = Some (batch_of b).
Proof. intros H. by rewrite list_lookup_fmap, H. Qed.

Lemma map_insert_batch (bs : list abatch) i b : map batch_of (<[i:=b]> bs) = <[i:=batch_of b]> (map batch_of bs).
Proof. apply list_fmap_insert. Qed.

Lemma new_batch_ok (bs : list abatch) i b b' : bs !! i = Some b -> Forall batch_ok (<[i:=b']> bs) -> batch_ok b'.
Proof.
  intros Hi H. apply (Forall_lookup_1 _ _ i b' H). apply list_lookup_insert_eq. by apply lookup_lt_Some in Hi.
Qed.

Lemma run_batch_op_ok bs o bs1 :
  Forall batch_ok bs -> spec_batch_op bs o = Some bs1 -> Forall batch_ok bs1 ->
  run_batch_op (map batch_of bs) o = Some (map batch_of bs1).
Proof.
  intros Hbs Hs H1. destruct o as [i|i k v|i k|i s|i j|i j]; simpl in *;
    destruct (bs !! i) as [b|] eqn:Ei; simpl in Hs; try done; rewrite (map_lookup_batch _ _ _ Ei); cbn [mbind option_bind];
    pose proof (Forall_lookup_1 _ _ _ _ Hbs Ei) as Hb.
  - injection Hs as <-. by rewrite Clear_ok, map_insert_batch.
  - injection Hs as <-. pose proof (new_batch_ok _ _ _ _ Ei H1) as (_ & Hc & Hr). cbn [snd] in *.
    apply Forall_app in Hr as [_ (_ & Hk & _ & Hv)%Forall_singleton]. zlens.
    rewrite Put_ok by (done || lia). cbn [mbind option_bind]. by rewrite map_insert_batch.
  - injection Hs as <-. pose proof (new_batch_ok _ _ _ _ Ei H1) as (_ & Hc & Hr). cbn [snd] in *.
    apply Forall_app in Hr as [_ (_ & Hk)%Forall_singleton]. zlens.
    rewrite Delete_ok by (done || lia). cbn [mbind option_bind]. by rewrite map_insert_batch.
  - injection Hs as <-. rewrite SetSequence_ok. cbn [mbind option_bind]. by rewrite map_insert_batch.
  - destruct (bs !! j) as [s|] eqn:Ej; simpl in Hs; [|done]. injection Hs as <-.
    rewrite (map_lookup_batch _ _ _ Ej). cbn [mbind option_bind]. pose proof (Forall_lookup_1 _ _ _ _ Hbs Ej) as Hsb.
    pose proof (new_batch_ok _ _ _ _ Ei H1) as (_ & Hc & _). cbn [snd] in Hc. zlens.
    rewrite Append_ok by done. cbn [mbind option_bind]. by rewrite map_insert_batch.
  - destruct (bs !! j) as [s|] eqn:Ej; simpl in Hs; [|done]. injection Hs as <-.
    rewrite (map_lookup_batch _ _ _ Ej). cbn [mbind option_bind]. unfold SetContents, kHeader. rewrite zlen_batch.
    pose proof (zlen_nonneg (rencs s.2)). rewrite (proj2 (Z.leb_le 12 _)) by lia. simpl negb. cbv iota. cbn [mbind option_bind].
    by rewrite map_insert_batch.
Qed.

Lemma run_batch_ops_ok os bs bs' :
  Forall batch_ok bs -> spec_batch_ops bs os bs' ->
  run_batch_ops (map batch_of bs) os = Some (map batch_of bs') /\ Forall batch_ok bs'.
Proof.
  revert bs. induction os as [|o os IH]; intros bs Hbs; simpl; [by intros ->|].
  intros (bs1 & Hs & H1 & Hr). rewrite (run_batch_op_ok _ _ _ Hbs Hs H1). cbn [mbind option_bind]. by apply IH.
Qed.
End HistoryFacts.

(** C16: write batches hold what was put in them.  After any history of
    [Clear], [Put], [Delete], [SetSequence], [Append] and [SetContents] over
    several new batches (an append may be of a batch to itself) in which no
    batch outgrows the format, each batch reports its sequence number and
    count, and [Iterate] makes exactly the calls of its records on the handler,
    in order, and returns OK. *)
Theorem write_batch_refines {P : Platform} {A} (h : Handler A) st n os bs :
  spec_batch_ops (replicate n (0, [])) os bs ->
  exists reps, run_batch_ops (replicate n Clear) os = Some reps /\
    forall i b, bs !! i = Some b -> exists rep, reps !! i = Some rep /\
      Sequence rep = Some b.1 /\ Count rep = Some (zlen b.2) /\
      Iterate h st rep = (st' ← delivers h st b.2; Some (st', OK)).
Proof.
  intros Hspec. assert (Hn : Forall batch_ok (replicate n (0, []))).
  { apply Forall_replicate. split_and!; [by vm_compute|by vm_compute|constructor]. }
  destruct (run_batch_ops_ok _ _ _ Hn Hspec) as [Hrun Hok].
  assert (map batch_of (replicate n (0, [])) = replicate n Clear) as E.
  { rewrite Clear_ok. apply (fmap_replicate batch_of). }
  rewrite E in Hrun. eexists. split; [exact Hrun|]. intros i b Hi.
  pose proof (Forall_lookup_1 _ _ _ _ Hok Hi) as Hb. exists (batch_of b).
  split_and!; [by apply map_lookup_batch|by apply Sequence_ok|by apply Count_ok|by apply Iterate_ok].
Qed.

(** The handler that records its calls. *)
Definition log_handler : Handler (list brecord) := {|
  h_Put := fun l k v => Some (l ++ [RPut k v]);
  h_Delete := fun l k => Some (l ++ [RDelete k])
|}.

Lemma write_batch_refines_witness :
  exists reps, run_batch_ops (P:=be_host) (replicate 2 Clear)
      [BPut 0 [1; 2] [3]; BDelete 1 [7]; BAppend 1 0; BAppend 1 1; BSetSequence 1 500] = Some reps /\
    forall i b, [(0, [RPut [1; 2] [3]]); (500, [RDelete [7]; RPut [1; 2] [3]; RDelete [7]; RPut [1; 2] [3]])] !! i = Some b ->
      exists rep, reps !! i = Some rep /\ Sequence (P:=be_host) rep = Some b.1 /\ Count (P:=be_host) rep = Some (zlen b.2) /\
        Iterate (P:=be_host) log_handler [] rep = (st' ← delivers log_handler [] b.2; Some (st', OK)).
Proof.
  apply (write_batch_refines (P:=be_host) log_handler [] 2).
  repeat (eexists; split; [reflexivity|split; [repeat constructor; by vm_compute|]]). reflexivity.
Defined.
