(* ===== verification/LdbVersionEdit.v ===== *)
(** * leveldb: db/version_edit.h and db/version_edit.cc

    The edits of the manifest: what they hold, how they are written and read
    back.  A [std::set] of pairs is the sorted list of its elements.  [None]
    is a failed [assert] or an access outside a string. *)

From Stdlib Require Import ZArith Lia Bool String Sorting.Sorted.
From stdpp Require Import base option list numbers.
From S2P Require Import Prelude Endian LdbCoding LdbFormat LdbBatch.
Open Scope Z_scope.

Definition kNumLevels : Z := 7.

Definition kComparator : Z := 1.
Definition kLogNumber : Z := 2.
Definition kNextFileNumber : Z := 3.
Definition kLastSequence : Z := 4.
Definition kCompactPointer : Z := 5.
Definition kDeletedFile : Z := 6.
Definition kNewFile : Z := 7.
Definition kPrevLogNumber : Z := 9.

Record FileMetaData := mk_file {
  refs : Z; allowed_seeks : Z; number : Z; file_size : Z; smallest : list Z; largest : list Z
}.
(** [FileMetaData f] with its four fields assigned. *)
Definition new_file (num size : Z) (small large : list Z) : FileMetaData :=
  mk_file 0 (Z.shiftl 1 30) num size small large.

Record VersionEdit := mk_edit {
  comparator_ : list Z;
  log_number_ : Z;
  prev_log_number_ : Z;
  next_file_number_ : Z;
  last_sequence_ : Z;
  has_comparator_ : bool;
  has_log_number_ : bool;
  has_prev_log_number_ : bool;
  has_next_file_number_ : bool;
  has_last_sequence_ : bool;
  compact_pointers_ : list (Z * list Z);
  deleted_files_ : list (Z * Z);
  new_files_ : list (Z * FileMetaData)
}.

(** [compact_pointers_] is not reset. *)
Definition Clear (e : VersionEdit) : VersionEdit :=
  mk_edit [] 0 0 0 0 false false false false false (compact_pointers_ e) [] [].

(** The constructor: [Clear] on members that are empty. *)
Definition new_edit : VersionEdit := Clear (mk_edit [] 0 0 0 0 false false false false false [] [] []).

Definition SetComparatorName (e : VersionEdit) (name : list Z) : VersionEdit :=
  mk_edit name (log_number_ e) (prev_log_number_ e) (next_file_number_ e) (last_sequence_ e)
    true (has_log_number_ e) (has_prev_log_number_ e) (has_next_file_number_ e) (has_last_sequence_ e)
    (compact_pointers_ e) (deleted_files_ e) (new_files_ e).
Definition SetLogNumber (e : VersionEdit) (num : Z) : VersionEdit :=
  mk_edit (comparator_ e) num (prev_log_number_ e) (next_file_number_ e) (last_sequence_ e)
    (has_comparator_ e) true (has_prev_log_number_ e) (has_next_file_number_ e) (has_last_sequence_ e)
    (compact_pointers_ e) (deleted_files_ e) (new_files_ e).
Definition SetPrevLogNumber (e : VersionEdit) (num : Z) : VersionEdit :=
  mk_edit (comparator_ e) (log_number_ e) num (next_file_number_ e) (last_sequence_ e)
    (has_comparator_ e) (has_log_number_ e) true (has_next_file_number_ e) (has_last_sequence_ e)
    (compact_pointers_ e) (deleted_files_ e) (new_files_ e).
Definition SetNextFile (e : VersionEdit) (num : Z) : VersionEdit :=
  mk_edit (comparator_ e) (log_number_ e) (prev_log_number_ e) num (last_sequence_ e)
    (has_comparator_ e) (has_log_number_ e) (has_prev_log_number_ e) true (has_last_sequence_ e)
    (compact_pointers_ e) (deleted_files_ e) (new_files_ e).
Definition SetLastSequence (e : VersionEdit) (seq : Z) : VersionEdit :=
  mk_edit (comparator_ e) (log_number_ e) (prev_log_number_ e) (next_file_number_ e) seq
    (has_comparator_ e) (has_log_number_ e) (has_prev_log_number_ e) (has_next_file_number_ e) true
    (compact_pointers_ e) (deleted_files_ e) (new_files_ e).
Definition SetCompactPointer (e : VersionEdit) (level : Z) (key : list Z) : VersionEdit :=
  mk_edit (comparator_ e) (log_number_ e) (prev_log_number_ e) (next_file_number_ e) (last_sequence_ e)
    (has_comparator_ e) (has_log_number_ e) (has_prev_log_number_ e) (has_next_file_number_ e) (has_last_sequence_ e)
    (compact_pointers_ e ++ [(level, key)]) (deleted_files_ e) (new_files_ e).

(** [std::set<std::pair<int, uint64_t>>]. *)
Definition pair_lt (p q : Z * Z) : bool := (p.1 <? q.1) || ((p.1 =? q.1) && (p.2 <? q.2)).
Fixpoint set_insert (p : Z * Z) (l : list (Z * Z)) : list (Z * Z) :=
  match l with
  | [] => [p]
  | q :: l' => if pair_lt p q then p :: l else if pair_lt q p then q :: set_insert p l' else l
  end.

Definition AddFile (e : VersionEdit) (level file size : Z) (small large : list Z) : VersionEdit :=
  mk_edit (comparator_ e) (log_number_ e) (prev_log_number_ e) (next_file_number_ e) (last_sequence_ e)
    (has_comparator_ e) (has_log_number_ e) (has_prev_log_number_ e) (has_next_file_number_ e) (has_last_sequence_ e)
    (compact_pointers_ e) (deleted_files_ e) (new_files_ e ++ [(level, new_file file size small large)]).
Definition DeleteFile (e : VersionEdit) (level file : Z) : VersionEdit :=
  mk_edit (comparator_ e) (log_number_ e) (prev_log_number_ e) (next_file_number_ e) (last_sequence_ e)
    (has_comparator_ e) (has_log_number_ e) (has_prev_log_number_ e) (has_next_file_number_ e) (has_last_sequence_ e)
    (compact_pointers_ e) (set_insert (level, file) (deleted_files_ e)) (new_files_ e).

Section Edit.
Context {P : Platform}.

(** [InternalKey::Encode]. *)
Definition Encode (rep : list Z) : option (list Z) := if zlen rep =? 0 then None else Some rep.

(** A number with its tag, written when it is present. *)
Definition put_number (has : bool) (dst : list Z) (tag v : Z) : option (list Z) :=
  if has then dst ← PutVarint32 dst tag; PutVarint64 dst v else Some dst.

Fixpoint put_pointers (dst : list Z) (l : list (Z * list Z)) : option (list Z) :=
  match l with
  | [] => Some dst
  | (level, key) :: l =>
      dst ← PutVarint32 dst kCompactPointer;
      dst ← PutVarint32 dst (u32 level);
      k ← Encode key;
      dst ← PutLengthPrefixedSlice dst k;
      put_pointers dst l
  end.
Fixpoint put_deleted (dst : list Z) (l : list (Z * Z)) : option (list Z) :=
  match l with
  | [] => Some dst
  | (level, file) :: l =>
      dst ← PutVarint32 dst kDeletedFile;
      dst ← PutVarint32 dst (u32 level);
      dst ← PutVarint64 dst file;
      put_deleted dst l
  end.
Fixpoint put_new (dst : list Z) (l : list (Z * FileMetaData)) : option (list Z) :=
  match l with
  | [] => Some dst
  | (level, f) :: l =>
      dst ← PutVarint32 dst kNewFile;
      dst ← PutVarint32 dst (u32 level);
      dst ← PutVarint64 dst (number f);
      dst ← PutVarint64 dst (file_size f);
      s ← Encode (smallest f);
      dst ← PutLengthPrefixedSlice dst s;
      g ← Encode (largest f);
      dst ← PutLengthPrefixedSlice dst g;
      put_new dst l
  end.

Definition EncodeTo (e : VersionEdit) (dst : list Z) : option (list Z) :=
  dst ← (if has_comparator_ e then dst ← PutVarint32 dst kComparator; PutLengthPrefixedSlice dst (comparator_ e)
         else Some dst);
  dst ← put_number (has_log_number_ e) dst kLogNumber (log_number_ e);
  dst ← put_number (has_prev_log_number_ e) dst kPrevLogNumber (prev_log_number_ e);
  dst ← put_number (has_next_file_number_ e) dst kNextFileNumber (next_file_number_ e);
  dst ← put_number (has_last_sequence_ e) dst kLastSequence (last_sequence_ e);
  dst ← put_pointers dst (compact_pointers_ e);
  dst ← put_deleted dst (deleted_files_ e);
  put_new dst (new_files_ e).

(** A reader takes the input and gives what is left of it and the value read,
    or [None] when it returns false; [g && k] stops at the first false. *)
Definition getter (A : Type) := list Z -> option (list Z * option A).
Definition gret {A} (a : A) : getter A := fun input => Some (input, Some a).
Definition gbind {A B} (g : getter A) (k : A -> getter B) : getter B := fun input =>
  '(input, r) ← g input;
  match r with None => Some (input, None) | Some a => k a input end.

Definition GetInternalKey : getter (list Z) := GetLengthPrefixedSlice.
Definition GetLevel : getter Z :=
  gbind GetVarint32 (fun v input => if v <? kNumLevels then Some (input, Some v) else Some (input, None)).

(** One case of the switch: the reader, what it does to the edit, its message. *)
Definition decode_case {A} (g : getter A) (f : A -> VersionEdit) (msg : string) (e : VersionEdit) (input : list Z)
    : option (VersionEdit * list Z * option string) :=
  '(input, r) ← g input;
  match r with
  | Some a => Some (f a, input, None)
  | None => Some (e, input, Some msg)
  end.

Definition get_pointer : getter (Z * list Z) :=
  gbind GetLevel (fun level => gbind GetInternalKey (fun key => gret (level, key))).
Definition get_deleted : getter (Z * Z) :=
  gbind GetLevel (fun level => gbind GetVarint64 (fun number => gret (level, number))).
Definition get_new : getter (Z * (Z * Z) * (list Z * list Z)) :=
  gbind GetLevel (fun level => gbind GetVarint64 (fun number => gbind GetVarint64 (fun size =>
    gbind GetInternalKey (fun small => gbind GetInternalKey (fun large =>
      gret (level, (number, size), (small, large))))))).

Definition decode_field (tag : Z) (e : VersionEdit) (input : list Z) : option (VersionEdit * list Z * option string) :=
  if tag =? kComparator then decode_case GetLengthPrefixedSlice (SetComparatorName e) "comparator name" e input
  else if tag =? kLogNumber then decode_case GetVarint64 (SetLogNumber e) "log number" e input
  else if tag =? kPrevLogNumber then decode_case GetVarint64 (SetPrevLogNumber e) "previous log number" e input
  else if tag =? kNextFileNumber then decode_case GetVarint64 (SetNextFile e) "next file number" e input
  else if tag =? kLastSequence then decode_case GetVarint64 (SetLastSequence e) "last sequence number" e input
  else if tag =? kCompactPointer then
    decode_case get_pointer (fun '(level, key) => SetCompactPointer e level key) "compaction pointer" e input
  else if tag =? kDeletedFile then
    decode_case get_deleted (fun '(level, number) => DeleteFile e level number) "deleted file" e input
  else if tag =? kNewFile then
    decode_case get_new (fun '(level, (number, size), (small, large)) => AddFile e level number size small large)
      "new-file entry" e input
  else Some (e, input, Some "unknown tag"%string).

Fixpoint decode_loop (fuel : nat) (e : VersionEdit) (input : list Z) : option (VersionEdit * list Z * option string) :=
  '(input, r) ← GetVarint32 input;
  match r with
  | None => Some (e, input, None)
  | Some tag =>
      match fuel with
      | O => None
      | S fuel =>
          '(e, input, msg) ← decode_field tag e input;
          match msg with
          | Some m => Some (e, input, Some m)
          | None => decode_loop fuel e input
          end
      end
  end.

Definition DecodeFrom (e : VersionEdit) (src : list Z) : option (VersionEdit * Status) :=
  let e := Clear e in
  '(e, input, msg) ← decode_loop (length src) e src;
  let msg := match msg with
             | None => if negb (zlen input =? 0) then Some "invalid tag"%string else None
             | Some m => Some m
             end in
  match msg with
  | Some m => Some (e, Corruption (String.append "VersionEdit: " m))
  | None => Some (e, OK)
  end.
End Edit.

(** ** Items: the fields of an edit, and the setters that put them there *)

Inductive item :=
  | IComparator (name : list Z)
  | ILogNumber (v : Z)
  | IPrevLogNumber (v : Z)
  | INextFile (v : Z)
  | ILastSequence (v : Z)
  | IPointer (level : Z) (key : list Z)
  | IDeleted (level file : Z)
  | INewFile (level file size : Z) (small large : list Z).

Definition apply_item (e : VersionEdit) (i : item) : VersionEdit :=
  match i with
  | IComparator n => SetComparatorName e n
  | ILogNumber v => SetLogNumber e v
  | IPrevLogNumber v => SetPrevLogNumber e v
  | INextFile v => SetNextFile e v
  | ILastSequence v => SetLastSequence e v
  | IPointer l k => SetCompactPointer e l k
  | IDeleted l f => DeleteFile e l f
  | INewFile l f s a b => AddFile e l f s a b
  end.

Definition item_tag (i : item) : Z :=
  match i with
  | IComparator _ => 1 | ILogNumber _ => 2 | IPrevLogNumber _ => 9 | INextFile _ => 3 | ILastSequence _ => 4
  | IPointer _ _ => 5 | IDeleted _ _ => 6 | INewFile _ _ _ _ _ => 7
  end.
Definition item_body (i : item) : list Z :=
  match i with
  | IComparator n => lenpref n
  | ILogNumber v | IPrevLogNumber v | INextFile v | ILastSequence v => varint v
  | IPointer l k => varint l ++ lenpref k
  | IDeleted l f => varint l ++ varint f
  | INewFile l f s a b => varint l ++ varint f ++ varint s ++ lenpref a ++ lenpref b
  end.
Definition item_enc (i : item) : list Z := varint (item_tag i) ++ item_body i.
Definition items_enc (l : list item) : list Z := concat (map item_enc l).

Definition str_ok (s : list Z) : Prop := bytes s /\ zlen s < 2 ^ 32.
Definition ikey_ok (s : list Z) : Prop := str_ok s /\ s <> [].
Definition level_ok (l : Z) : Prop := 0 <= l < kNumLevels.
Definition item_ok (i : item) : Prop :=
  match i with
  | IComparator n => str_ok n
  | ILogNumber v | IPrevLogNumber v | INextFile v | ILastSequence v => in_u 64 v
  | IPointer l k => level_ok l /\ ikey_ok k
  | IDeleted l f => level_ok l /\ in_u 64 f
  | INewFile l f s a b => level_ok l /\ in_u 64 f /\ in_u 64 s /\ ikey_ok a /\ ikey_ok b
  end.

Section DecodeFacts.
Context {P : Platform}.

(** [enc] is an encoding of [a] for the reader [g]. *)
Definition reads {A} (g : getter A) (enc : list Z) (a : A) : Prop :=
  bytes enc /\ forall rest, bytes rest -> g (enc ++ rest) = Some (rest, Some a).

Lemma reads_ret {A} (a : A) : reads (gret a) [] a.
Proof. split; [constructor|done]. Qed.

Lemma reads_bind {A B} (g : getter A) (k : A -> getter B) x y a b :
  reads g x a -> reads (k a) y b -> reads (gbind g k) (x ++ y) b.
Proof.
  intros [Hx Hg] [Hy Hk]. split; [by apply Forall_app|]. intros rest Hr. unfold gbind.
  rewrite <- app_assoc, Hg by (by apply Forall_app). cbn [mbind option_bind]. by apply Hk.
Qed.

Lemma reads_bind_ret {A B} (g : getter A) (f : A -> B) x a :
  reads g x a -> reads (gbind g (fun a => gret (f a))) x (f a).
Proof. intros H. rewrite <- (app_nil_r x). by apply (reads_bind g _ x [] a), reads_ret. Qed.

Lemma reads_varint32 v : in_u 32 v -> reads GetVarint32 (varint v) v.
Proof. intros Hv. split; [apply varint_bytes, Hv|]. intros. by apply GetVarint32_app. Qed.
Lemma reads_varint64 v : in_u 64 v -> reads GetVarint64 (varint v) v.
Proof. intros Hv. split; [apply varint_bytes, Hv|]. intros. by apply GetVarint64_app. Qed.
Lemma reads_slice s : str_ok s -> reads GetLengthPrefixedSlice (lenpref s) s.
Proof.
  intros [Hb Hs]. split; [|intros; by apply GetLengthPrefixedSlice_app].
  apply Forall_app. split; [apply varint_bytes, zlen_nonneg|done].
Qed.
Lemma reads_key s : ikey_ok s -> reads GetInternalKey (lenpref s) s.
Proof. intros [H _]. by apply reads_slice. Qed.
Lemma reads_level l : level_ok l -> reads GetLevel (varint l) l.
Proof.
  intros Hl. unfold GetLevel. rewrite <- (app_nil_r (varint l)).
  unfold level_ok, kNumLevels in Hl. eapply reads_bind; [apply reads_varint32; unfold in_u; pow2s; lia|].
  split; [constructor|]. intros rest _. simpl. unfold kNumLevels. by zb_true.
Qed.

Lemma decode_case_ok {A} (g : getter A) f msg e enc a rest :
  reads g enc a -> bytes rest -> decode_case g f msg e (enc ++ rest) = Some (f a, rest, None).
Proof. intros [_ H] Hr. unfold decode_case. by rewrite H. Qed.

Lemma item_body_bytes i : item_ok i -> bytes (item_body i).
Proof.
  assert (Hlp : forall s, str_ok s -> bytes (lenpref s)) by (intros s Hs; apply (reads_slice s Hs)).
  assert (Hv : forall v, in_u 64 v -> bytes (varint v)) by (intros v Hv; apply varint_bytes, Hv).
  assert (Hl : forall l, level_ok l -> bytes (varint l)) by (intros l Hl; apply varint_bytes, Hl).
  destruct i; simpl; intros Hi; [by apply Hlp|by apply Hv|by apply Hv|by apply Hv|by apply Hv| | |].
  - destruct Hi as (? & [? _]). apply Forall_app. split; [by apply Hl|by apply Hlp].
  - destruct Hi as (? & ?). apply Forall_app. split; [by apply Hl|by apply Hv].
  - destruct Hi as (? & ? & ? & [? _] & [? _]). 
    repeat first [by apply Hl | by apply Hv | by apply Hlp | apply Forall_app; split].
Qed.

Lemma decode_field_ok e i rest :
  item_ok i -> bytes rest -> decode_field (item_tag i) e (item_body i ++ rest) = Some (apply_item e i, rest, None).
Proof.
  intros Hi Hr. destruct i; cbn [item_ok item_body item_tag apply_item] in *; unfold decode_field; simpl (_ =? _); cbv iota.
  - apply decode_case_ok; [by apply reads_slice|done].
  - apply decode_case_ok; [by apply reads_varint64|done].
  - apply decode_case_ok; [by apply reads_varint64|done].
  - apply decode_case_ok; [by apply reads_varint64|done].
  - apply decode_case_ok; [by apply reads_varint64|done].
  - destruct Hi as (Hl & Hk). rewrite (decode_case_ok get_pointer _ _ _ _ (level, key)); [done| |done].
    unfold get_pointer. eapply reads_bind; [by apply reads_level|]. by apply reads_bind_ret, reads_key.
  - destruct Hi as (Hl & Hk). rewrite (decode_case_ok get_deleted _ _ _ _ (level, file)); [done| |done].
    unfold get_deleted. eapply reads_bind; [by apply reads_level|]. by apply reads_bind_ret, reads_varint64.
  - destruct Hi as (Hl & Hf & Hs & Ha & Hb). rewrite (decode_case_ok get_new _ _ _ _ (level, (file, size), (small, large))); [done| |done].
    unfold get_new. eapply reads_bind; [by apply reads_level|]. eapply reads_bind; [by apply reads_varint64|].
    eapply reads_bind; [by apply reads_varint64|]. eapply reads_bind; [by apply reads_key|].
    by apply (reads_bind_ret GetInternalKey (fun large => (level, (file, size), (small, large)))), reads_key.
Qed.

Lemma item_tag_range i : in_u 32 (item_tag i).
Proof. by destruct i; vm_compute. Qed.

Lemma items_bytes l : Forall item_ok l -> bytes (items_enc l).
Proof.
  induction 1 as [|i l Hi Hl IH]; [constructor|]. change (items_enc (i :: l)) with (item_enc i ++ items_enc l).
  apply Forall_app. split; [|done]. apply Forall_app. split; [apply varint_bytes, item_tag_range|by apply item_body_bytes].
Qed.

Lemma decode_loop_ok l fuel e :
  Forall item_ok l -> (length l <= fuel)%nat -> decode_loop fuel e (items_enc l) = Some (fold_left apply_item l e, [], None).
Proof.
  intros Hl. revert fuel e. induction Hl as [|i l Hi Hl IH]; intros fuel e Hf; [by destruct fuel|].
  destruct fuel as [|fuel]; [simpl in Hf; lia|]. pose proof (items_bytes l Hl) as Hb.
  change (items_enc (i :: l)) with (item_enc i ++ items_enc l). unfold item_enc. rewrite <- app_assoc.
  cbn [decode_loop fold_left]. rewrite GetVarint32_app.
  2: apply item_tag_range.
  2: { apply Forall_app. split; [by apply item_body_bytes|done]. }
  cbn [mbind option_bind]. rewrite decode_field_ok by done. cbn [mbind option_bind]. apply IH. simpl in Hf. lia.
Qed.
End DecodeFacts.

(** ** The items of an edit, in the order they are written *)

Definition opt_item (has : bool) (i : item) : list item := if has then [i] else [].
Definition pointer_item (p : Z * list Z) : item := IPointer p.1 p.2.
Definition deleted_item (p : Z * Z) : item := IDeleted p.1 p.2.
Definition new_item (p : Z * FileMetaData) : item :=
  INewFile p.1 (number p.2) (file_size p.2) (smallest p.2) (largest p.2).
Definition items (e : VersionEdit) : list item :=
  opt_item (has_comparator_ e) (IComparator (comparator_ e)) ++
  opt_item (has_log_number_ e) (ILogNumber (log_number_ e)) ++
  opt_item (has_prev_log_number_ e) (IPrevLogNumber (prev_log_number_ e)) ++
  opt_item (has_next_file_number_ e) (INextFile (next_file_number_ e)) ++
  opt_item (has_last_sequence_ e) (ILastSequence (last_sequence_ e)) ++
  map pointer_item (compact_pointers_ e) ++ map deleted_item (deleted_files_ e) ++ map new_item (new_files_ e).

Definition pair_ltP (p q : Z * Z) : Prop := pair_lt p q = true.

(** The edits the setters build. *)
Record edit_wf (e : VersionEdit) : Prop := {
  wf_name : str_ok (comparator_ e) /\ (has_comparator_ e = false -> comparator_ e = []);
  wf_log : in_u 64 (log_number_ e) /\ (has_log_number_ e = false -> log_number_ e = 0);
  wf_prev : in_u 64 (prev_log_number_ e) /\ (has_prev_log_number_ e = false -> prev_log_number_ e = 0);
  wf_next : in_u 64 (next_file_number_ e) /\ (has_next_file_number_ e = false -> next_file_number_ e = 0);
  wf_seq : in_u 64 (last_sequence_ e) /\ (has_last_sequence_ e = false -> last_sequence_ e = 0);
  wf_pointers : Forall (fun p => item_ok (pointer_item p)) (compact_pointers_ e);
  wf_deleted : Forall (fun p => item_ok (deleted_item p)) (deleted_files_ e);
  wf_sorted : StronglySorted pair_ltP (deleted_files_ e);
  wf_new : Forall (fun p => item_ok (new_item p)) (new_files_ e);
  wf_meta : Forall (fun p => p.2 = new_file (number p.2) (file_size p.2) (smallest p.2) (largest p.2)) (new_files_ e)
}.

Lemma items_enc_app l k : items_enc (l ++ k) = items_enc l ++ items_enc k.
Proof. unfold items_enc. by rewrite map_app, concat_app. Qed.

Lemma items_enc_cons i l : items_enc (i :: l) = item_enc i ++ items_enc l.
Proof. reflexivity. Qed.

Section EncodeFacts.
Context {P : Platform}.

Lemma PutTag dst i : PutVarint32 dst (item_tag i) = Some (dst ++ varint (item_tag i)).
Proof. apply PutVarint32_ok, item_tag_range. Qed.

Lemma PutLevel dst l : level_ok l -> PutVarint32 dst (u32 l) = Some (dst ++ varint l).
Proof.
  unfold level_ok, kNumLevels. intros Hl. unfold u32. rewrite wrap_id by (unfold in_u; pow2s; lia).
  apply PutVarint32_ok. unfold in_u. pow2s. lia.
Qed.

Lemma Encode_ok k : ikey_ok k -> Encode k = Some k.
Proof.
  intros [_ Hk]. unfold Encode. destruct (Z.eqb_spec (zlen k) 0) as [E|]; [|done]. by apply zlen_0_inv in E.
Qed.
Lemma PutKey dst k : ikey_ok k -> PutLengthPrefixedSlice dst k = Some (dst ++ lenpref k).
Proof. intros [[_ Hk] _]. by apply PutLengthPrefixedSlice_ok. Qed.

Lemma put_number_ok has dst i tag v :
  tag = item_tag i -> in_u 64 v -> item_body i = varint v ->
  put_number has dst tag v = Some (dst ++ items_enc (opt_item has i)).
Proof.
  intros -> Hv Hi. unfold put_number, opt_item, items_enc. destruct has; simpl; [|by rewrite app_nil_r].
  rewrite PutTag. cbn [mbind option_bind]. rewrite PutVarint64_ok by done.
  unfold item_enc. by rewrite Hi, app_nil_r, app_assoc.
Qed.

Lemma put_pointers_ok dst l :
  Forall (fun p => item_ok (pointer_item p)) l -> put_pointers dst l = Some (dst ++ items_enc (map pointer_item l)).
Proof.
  intros Hl. revert dst. induction Hl as [|[lev k] l [Hlev Hk] Hl IH]; intros dst; [simpl; by rewrite app_nil_r|].
  cbn [put_pointers map]. rewrite (PutTag dst (pointer_item (lev, k)) : PutVarint32 dst kCompactPointer = _).
  cbn [mbind option_bind]. rewrite PutLevel by done. cbn [mbind option_bind]. rewrite Encode_ok by done.
  cbn [mbind option_bind]. rewrite PutKey by done. cbn [mbind option_bind]. rewrite IH, items_enc_cons.
  unfold item_enc. simpl. by rewrite <- !app_assoc.
Qed.
Lemma put_deleted_ok dst l :
  Forall (fun p => item_ok (deleted_item p)) l -> put_deleted dst l = Some (dst ++ items_enc (map deleted_item l)).
Proof.
  intros Hl. revert dst. induction Hl as [|[lev k] l [Hlev Hk] Hl IH]; intros dst; [simpl; by rewrite app_nil_r|].
  cbn [put_deleted map]. rewrite (PutTag dst (deleted_item (lev, k)) : PutVarint32 dst kDeletedFile = _).
  cbn [mbind option_bind]. rewrite PutLevel by done. cbn [mbind option_bind].
  rewrite PutVarint64_ok by done. cbn [mbind option_bind]. rewrite IH, items_enc_cons.
  unfold item_enc. simpl. by rewrite <- !app_assoc.
Qed.
Lemma put_new_ok dst l :
  Forall (fun p => item_ok (new_item p)) l -> put_new dst l = Some (dst ++ items_enc (map new_item l)).
Proof.
  intros Hl. revert dst. induction Hl as [|[lev f] l (Hlev & Hn & Hs & Ha & Hb) Hl IH]; intros dst; [simpl; by rewrite app_nil_r|].
  cbn [put_new map]. rewrite (PutTag dst (new_item (lev, f)) : PutVarint32 dst kNewFile = _).
  cbn [mbind option_bind]. rewrite PutLevel by done. cbn [mbind option_bind].
  rewrite PutVarint64_ok by done. cbn [mbind option_bind]. rewrite PutVarint64_ok by done. cbn [mbind option_bind].
  rewrite (Encode_ok (smallest f)) by done. cbn [mbind option_bind]. rewrite PutKey by done. cbn [mbind option_bind].
  rewrite (Encode_ok (largest f)) by done. cbn [mbind option_bind]. rewrite PutKey by done. cbn [mbind option_bind].
  rewrite IH, items_enc_cons. unfold item_enc. cbn [item_body item_tag new_item fst snd]. by rewrite <- !app_assoc.
Qed.

Lemma EncodeTo_ok e dst : edit_wf e -> EncodeTo e dst = Some (dst ++ items_enc (items e)).
Proof.
  intros [[Hname _] [Hlog _] [Hprev _] [Hnext _] [Hseq _] Hp Hd _ Hn _]. unfold EncodeTo, items.
  assert ((if has_comparator_ e then dst ← PutVarint32 dst kComparator; PutLengthPrefixedSlice dst (comparator_ e) else Some dst)
          = Some (dst ++ items_enc (opt_item (has_comparator_ e) (IComparator (comparator_ e))))) as ->.
  { destruct (has_comparator_ e); [|simpl; by rewrite app_nil_r].
    rewrite (PutTag dst (IComparator (comparator_ e)) : PutVarint32 dst kComparator = _). cbn [mbind option_bind].
    rewrite PutLengthPrefixedSlice_ok by apply Hname. unfold items_enc, item_enc.
    cbn [map concat item_tag item_body opt_item]. by rewrite app_nil_r, app_assoc. }
  cbn [mbind option_bind].
  rewrite (put_number_ok _ _ (ILogNumber (log_number_ e))) by done. cbn [mbind option_bind].
  rewrite (put_number_ok _ _ (IPrevLogNumber (prev_log_number_ e))) by done. cbn [mbind option_bind].
  rewrite (put_number_ok _ _ (INextFile (next_file_number_ e))) by done. cbn [mbind option_bind].
  rewrite (put_number_ok _ _ (ILastSequence (last_sequence_ e))) by done. cbn [mbind option_bind].
  rewrite put_pointers_ok by done. cbn [mbind option_bind]. rewrite put_deleted_ok by done. cbn [mbind option_bind].
  rewrite put_new_ok by done. by rewrite !items_enc_app, <- !app_assoc.
Qed.
End EncodeFacts.

(** ** Sets of pairs *)

Lemma pair_lt_spec p q : pair_lt p q = true <-> p.1 < q.1 \/ (p.1 = q.1 /\ p.2 < q.2).
Proof. unfold pair_lt. rewrite orb_true_iff, andb_true_iff, !Z.ltb_lt, Z.eqb_eq. done. Qed.

Lemma pair_lt_trans p q r : pair_ltP p q -> pair_ltP q r -> pair_ltP p r.
Proof. unfold pair_ltP. rewrite !pair_lt_spec. lia. Qed.

Lemma set_insert_elem p q l : q ∈ set_insert p l -> q = p \/ q ∈ l.
Proof.
  induction l as [|r l IH]; simpl; [intros H%list_elem_of_singleton; auto|].
  destruct (pair_lt p r); [rewrite elem_of_cons; tauto|].
  destruct (pair_lt r p); rewrite ?elem_of_cons; [|tauto]. intros [->|H]; [auto|]. destruct (IH H); auto.
Qed.

Lemma set_insert_forall (Q : Z * Z -> Prop) p l : Q p -> Forall Q l -> Forall Q (set_insert p l).
Proof.
  rewrite !list.Forall_forall. intros Hp Hl q [->|H]%set_insert_elem; auto.
Qed.

Lemma set_insert_sorted p l : StronglySorted pair_ltP l -> StronglySorted pair_ltP (set_insert p l).
Proof.
  induction 1 as [|q l Hl IH Hq]; simpl; [repeat constructor|].
  destruct (pair_lt p q) eqn:E1.
  { constructor; [by constructor|]. constructor; [done|]. eapply list.Forall_impl; [exact Hq|].
    intros r. by apply pair_lt_trans. }
  destruct (pair_lt q p) eqn:E2; [|by constructor]. constructor; [done|]. by apply set_insert_forall.
Qed.

Lemma set_insert_last p l : Forall (fun q => pair_ltP q p) l -> set_insert p l = l ++ [p].
Proof.
  induction 1 as [|q l Hq Hl IH]; simpl; [done|]. unfold pair_ltP in Hq. rewrite Hq, IH.
  destruct (pair_lt p q) eqn:E; [|done]. apply pair_lt_spec in E, Hq. lia.
Qed.

(** ** Rebuilding an edit from its items *)

Definition set_pointers (e : VersionEdit) (l : list (Z * list Z)) : VersionEdit :=
  mk_edit (comparator_ e) (log_number_ e) (prev_log_number_ e) (next_file_number_ e) (last_sequence_ e)
    (has_comparator_ e) (has_log_number_ e) (has_prev_log_number_ e) (has_next_file_number_ e) (has_last_sequence_ e)
    l (deleted_files_ e) (new_files_ e).

Lemma fold_pointers l e :
  fold_left apply_item (map pointer_item l) e = set_pointers e (compact_pointers_ e ++ l).
Proof.
  revert e. induction l as [|[lev k] l IH]; intros e; simpl.
  { rewrite app_nil_r. by destruct e. }
  rewrite IH. unfold set_pointers. simpl. by rewrite <- app_assoc.
Qed.

Lemma fold_deleted l e :
  StronglySorted pair_ltP (deleted_files_ e ++ l) ->
  fold_left apply_item (map deleted_item l) e =
  mk_edit (comparator_ e) (log_number_ e) (prev_log_number_ e) (next_file_number_ e) (last_sequence_ e)
    (has_comparator_ e) (has_log_number_ e) (has_prev_log_number_ e) (has_next_file_number_ e) (has_last_sequence_ e)
    (compact_pointers_ e) (deleted_files_ e ++ l) (new_files_ e).
Proof.
  revert e. induction l as [|[lev k] l IH]; intros e Hs; simpl.
  { rewrite app_nil_r. by destruct e. }
  assert (Hlt : Forall (fun q => pair_ltP q (lev, k)) (deleted_files_ e)).
  { clear IH. induction (deleted_files_ e) as [|q d IHd]; [constructor|]. inversion_clear Hs as [|? ? Hs' Hq].
    constructor; [|by apply IHd]. apply Forall_app in Hq as [_ Hq]. by inversion_clear Hq. }
  rewrite IH; simpl; rewrite set_insert_last by done; rewrite <- app_assoc; done.
Qed.

Lemma fold_new l e :
  Forall (fun p => p.2 = new_file (number p.2) (file_size p.2) (smallest p.2) (largest p.2)) l ->
  fold_left apply_item (map new_item l) e =
  mk_edit (comparator_ e) (log_number_ e) (prev_log_number_ e) (next_file_number_ e) (last_sequence_ e)
    (has_comparator_ e) (has_log_number_ e) (has_prev_log_number_ e) (has_next_file_number_ e) (has_last_sequence_ e)
    (compact_pointers_ e) (deleted_files_ e) (new_files_ e ++ l).
Proof.
  intros Hl. revert e. induction Hl as [|[lev f] l Hf Hl IH]; intros e; simpl.
  { rewrite app_nil_r. by destruct e. }
  rewrite IH. cbn -[app new_file]. rewrite <- app_assoc. simpl in Hf. rewrite <- Hf. done.
Qed.

Lemma rebuild e e0 :
  edit_wf e ->
  fold_left apply_item (items e) (Clear e0) = set_pointers e (compact_pointers_ e0 ++ compact_pointers_ e).
Proof.
  intros [[_ H1] [_ H2] [_ H3] [_ H4] [_ H5] _ _ Hs _ Hm]. unfold items. rewrite !fold_left_app.
  rewrite fold_pointers, fold_deleted, fold_new by (done || by destruct (has_comparator_ e), (has_log_number_ e),
    (has_prev_log_number_ e), (has_next_file_number_ e), (has_last_sequence_ e)).
  destruct e as [nm lg pv nx sq h1 h2 h3 h4 h5 cp df nf]; simpl in *.
  destruct h1, h2, h3, h4, h5; simpl; unfold set_pointers; simpl;
    rewrite ?H1, ?H2, ?H3, ?H4, ?H5 by done; reflexivity.
Qed.

Lemma items_ok e : edit_wf e -> Forall item_ok (items e).
Proof.
  assert (Hopt : forall has i, item_ok i -> Forall item_ok (opt_item has i)) by (intros []; simpl; auto).
  intros [[H1 _] [H2 _] [H3 _] [H4 _] [H5 _] Hp Hd _ Hn _]. unfold items.
  repeat (apply Forall_app; split); try (by apply Hopt); by apply Forall_map.
Qed.

Lemma new_edit_wf : edit_wf new_edit.
Proof.
  split; simpl; try constructor; try done; try (by vm_compute); try (split; [constructor|by vm_compute]).
Qed.

Lemma Clear_wf e : edit_wf e -> edit_wf (Clear e).
Proof.
  intros []. split; simpl; try constructor; try done; try (by vm_compute); try (split; [constructor|by vm_compute]).
Qed.

Lemma apply_item_wf e i : edit_wf e -> item_ok i -> edit_wf (apply_item e i).
Proof.
  intros [] Hi. destruct i; simpl in Hi; split; simpl; try done;
    try (split; [done|by intros]);
    try (apply Forall_app; split; [done|apply Forall_singleton; done]);
    try (by apply set_insert_forall); by apply set_insert_sorted.
Qed.

(** ** Decoding arbitrary bytes *)

(** What decoding guarantees of a field: a key may be empty. *)
Definition item_typed (i : item) : Prop :=
  match i with
  | IComparator n => str_ok n
  | ILogNumber v | IPrevLogNumber v | INextFile v | ILastSequence v => in_u 64 v
  | IPointer l k => level_ok l /\ str_ok k
  | IDeleted l f => level_ok l /\ in_u 64 f
  | INewFile l f s a b => level_ok l /\ in_u 64 f /\ in_u 64 s /\ str_ok a /\ str_ok b
  end.

Section SafeFacts.
Context {P : Platform}.

(** The reader returns on every input, never lengthens it, and what it reads satisfies [Q]. *)
Definition safe {A} (g : getter A) (Q : A -> Prop) : Prop :=
  forall input, bytes input -> exists rest r, g input = Some (rest, r) /\ bytes rest /\
    (length rest <= length input)%nat /\ (forall a, r = Some a -> Q a).

Lemma safe_bind {A B} (g : getter A) (k : A -> getter B) Q R :
  safe g Q -> (forall a, Q a -> safe (k a) R) -> safe (gbind g k) R.
Proof.
  intros Hg Hk input Hi. destruct (Hg input Hi) as (rest & r & E & Hr & Hl & HQ). unfold gbind. rewrite E. cbn [mbind option_bind].
  destruct r as [a|]; [|by exists rest, None].
  destruct (Hk a (HQ a eq_refl) rest Hr) as (rest' & r' & -> & Hr' & Hl' & HR). exists rest', r'. split_and!; done || lia.
Qed.
Lemma safe_ret {A} (a : A) (Q : A -> Prop) : Q a -> safe (gret a) Q.
Proof. intros HQ input Hi. exists input, (Some a). split_and!; try done. by intros ? [= <-]. Qed.

Lemma vdec_rest n l v rest : bytes l -> vdec n l = Some (v, rest) -> bytes rest /\ (length rest < length l)%nat.
Proof.
  intros Hb (x & -> & Hx)%vdec_suffix. apply Forall_app in Hb as [_ Hb]. rewrite length_app. split; [done|lia].
Qed.

Lemma safe_varint32 : safe GetVarint32 (in_u 32).
Proof.
  intros input Hi. rewrite GetVarint32_ok by done. destruct (vdec 5 input) as [[v rest]|] eqn:E; eexists _, _; (split; [done|]).
  - destruct (vdec_rest _ _ _ _ Hi E). split_and!; [done|lia|]. intros a [= <-]. apply wrap_range. lia.
  - done.
Qed.
Lemma safe_varint64 : safe GetVarint64 (in_u 64).
Proof.
  intros input Hi. rewrite GetVarint64_ok by done. destruct (vdec 10 input) as [[v rest]|] eqn:E; eexists _, _; (split; [done|]).
  - destruct (vdec_rest _ _ _ _ Hi E). split_and!; [done|lia|]. intros a [= <-]. apply wrap_range. lia.
  - done.
Qed.
Lemma safe_slice : safe GetLengthPrefixedSlice str_ok.
Proof.
  intros input Hi. rewrite GetLengthPrefixedSlice_ok by done. unfold lenpref_dec.
  destruct (vdec 5 input) as [[v rest]|] eqn:E; [|by exists input, None].
  destruct (vdec_rest _ _ _ _ Hi E) as [Hr Hl]. cbv zeta. pose proof (wrap_range 32 v ltac:(lia)) as Hv. fold (u32 v) in Hv.
  unfold in_u in Hv. destruct (Z.leb_spec (u32 v) (zlen rest)); eexists _, _; (split; [done|]).
  - split_and!; [by apply Forall_drop|rewrite length_drop; lia|]. intros a [= <-]. split; [by apply Forall_take|].
    zlens. lia.
  - split_and!; done || lia.
Qed.
Lemma safe_level : safe GetLevel level_ok.
Proof.
  eapply safe_bind; [apply safe_varint32|]. intros v Hv input Hi. unfold in_u in Hv.
  destruct (Z.ltb_spec v kNumLevels); eexists _, _; (split; [done|]); split_and!; try done.
  intros a [= <-]. unfold level_ok. lia.
Qed.

Lemma decode_case_safe {A} (g : getter A) Q (f : A -> item) h msg e input :
  safe g Q -> (forall a, Q a -> item_typed (f a)) -> (forall a, h a = apply_item e (f a)) -> bytes input ->
  exists its rest m, decode_case g h msg e input = Some (fold_left apply_item its e, rest, m) /\
    Forall item_typed its /\ bytes rest /\ (length rest <= length input)%nat.
Proof.
  intros Hg Hf Hh Hi. destruct (Hg input Hi) as (rest & r & E & Hr & Hl & HQ). unfold decode_case. rewrite E. cbn [mbind option_bind].
  destruct r as [a|].
  - exists [f a], rest, None. rewrite Hh. split_and!; try done. constructor; [by apply Hf, HQ|constructor].
  - by exists [], rest, (Some msg).
Qed.

Lemma decode_field_safe tag e input :
  bytes input -> exists its rest m, decode_field tag e input = Some (fold_left apply_item its e, rest, m) /\
    Forall item_typed its /\ bytes rest /\ (length rest <= length input)%nat.
Proof.
  intros Hi. unfold decode_field.
  destruct (tag =? kComparator); [apply (decode_case_safe _ str_ok IComparator); [apply safe_slice|done..]|].
  destruct (tag =? kLogNumber); [apply (decode_case_safe _ (in_u 64) ILogNumber); [apply safe_varint64|done..]|].
  destruct (tag =? kPrevLogNumber); [apply (decode_case_safe _ (in_u 64) IPrevLogNumber); [apply safe_varint64|done..]|].
  destruct (tag =? kNextFileNumber); [apply (decode_case_safe _ (in_u 64) INextFile); [apply safe_varint64|done..]|].
  destruct (tag =? kLastSequence); [apply (decode_case_safe _ (in_u 64) ILastSequence); [apply safe_varint64|done..]|].
  destruct (tag =? kCompactPointer).
  { apply (decode_case_safe _ (fun p => item_typed (pointer_item p)) pointer_item); try done; [|by intros []].
    apply (safe_bind _ _ level_ok); [apply safe_level|]. intros l Hl. apply (safe_bind _ _ str_ok); [apply safe_slice|].
    intros k Hk. by apply safe_ret. }
  destruct (tag =? kDeletedFile).
  { apply (decode_case_safe _ (fun p => item_typed (deleted_item p)) deleted_item); try done; [|by intros []].
    apply (safe_bind _ _ level_ok); [apply safe_level|]. intros l Hl. apply (safe_bind _ _ (in_u 64)); [apply safe_varint64|].
    intros k Hk. by apply safe_ret. }
  destruct (tag =? kNewFile).
  { apply (decode_case_safe _ (fun '(l, (n, s), (a, b)) => item_typed (INewFile l n s a b)) (fun '(l, (n, s), (a, b)) => INewFile l n s a b));
      [|by intros [[? []] []]|by intros [[? []] []]|done].
    apply (safe_bind _ _ level_ok); [apply safe_level|]. intros l Hl. apply (safe_bind _ _ (in_u 64)); [apply safe_varint64|].
    intros n Hn. apply (safe_bind _ _ (in_u 64)); [apply safe_varint64|]. intros s Hs.
    apply (safe_bind _ _ str_ok); [apply safe_slice|]. intros a Ha. apply (safe_bind _ _ str_ok); [apply safe_slice|].
    intros b Hb. by apply safe_ret. }
  by exists [], input, (Some "unknown tag"%string).
Qed.

Lemma decode_loop_safe fuel e input :
  bytes input -> (length input <= fuel)%nat ->
  exists its rest m, decode_loop fuel e input = Some (fold_left apply_item its e, rest, m) /\ Forall item_typed its.
Proof.
  revert e input. induction fuel as [|fuel IH]; intros e input Hi Hf.
  - destruct input; [|simpl in Hf; lia]. exists [], [], None. split; [done|constructor].
  - cbn [decode_loop]. rewrite GetVarint32_ok by done.
    destruct (vdec 5 input) as [[v rest]|] eqn:E; cbn [mbind option_bind].
    2: { exists [], input, None. split; [done|constructor]. }
    destruct (vdec_rest _ _ _ _ Hi E) as [Hr Hl].
    destruct (decode_field_safe (u32 v) e rest Hr) as (its & rest' & m & -> & Hty & Hr' & Hl'). cbn [mbind option_bind].
    destruct m as [m|]; [by exists its, rest', (Some m)|].
    destruct (IH (fold_left apply_item its e) rest' Hr' ltac:(lia)) as (its' & rest2 & m & -> & Hty').
    exists (its ++ its'), rest2, m. rewrite fold_left_app. split; [done|by apply Forall_app].
Qed.
End SafeFacts.

(** ** Theorems *)

(** How an edit is built: the setters, in any order and any number of times,
    and [Clear]. *)
Inductive edit_op := EItem (i : item) | EClear.
Definition run_edit_op (e : VersionEdit) (o : edit_op) : VersionEdit :=
  match o with EItem i => apply_item e i | EClear => Clear e end.
Definition edit_op_ok (o : edit_op) : Prop := match o with EItem i => item_ok i | EClear => True end.

(** C18: a version edit survives its encoding.  Every edit built with the
    setters and [Clear] is encoded without a failed assertion, and decoding
    the result into any edit gives that edit back with status OK: every
    number with its presence flag, the deleted files as a set, the new files
    in order.  The compaction pointers read are appended to those the decoding
    edit had, which its [Clear] keeps. *)
Theorem version_edit_roundtrip {P : Platform} ops e0 dst :
  Forall edit_op_ok ops ->
  let e := fold_left run_edit_op ops new_edit in
  exists enc, EncodeTo e dst = Some (dst ++ enc) /\
    DecodeFrom e0 enc = Some (set_pointers e (compact_pointers_ e0 ++ compact_pointers_ e), OK).
Proof.
  intros Hops e. assert (He : edit_wf e).
  { unfold e. assert (Hn : edit_wf new_edit) by apply new_edit_wf. revert Hn. generalize new_edit.
    induction Hops as [|o ops Ho Hops IH]; intros e1 He1; [done|]. simpl. apply IH.
    destruct o; [by apply apply_item_wf|by apply Clear_wf]. }
  exists (items_enc (items e)). split; [by apply EncodeTo_ok|]. unfold DecodeFrom.
  rewrite decode_loop_ok; [|by apply items_ok|].
  - cbn [mbind option_bind]. simpl negb. cbv iota. by rewrite rebuild.
  - clear. induction (items e) as [|i l IH]; [done|]. rewrite items_enc_cons, length_app. simpl.
    assert (1 <= length (item_enc i))%nat; [|lia].
    unfold item_enc. rewrite length_app. destruct i; simpl; lia.
Qed.

(** C37: decoding is safe on every byte string: it returns, without a failed
    assertion or a read outside the string, a status and an edit that the
    setters would have built from fields of the right types (levels below
    [kNumLevels], 64-bit numbers, strings below 4 GiB). *)
Theorem version_edit_decode_typed e0 src :
  bytes src ->
  exists its s, DecodeFrom e0 src = Some (fold_left apply_item its (Clear e0), s) /\ Forall item_typed its.
Proof.
  intros Hs. unfold DecodeFrom. cbv zeta.
  destruct (decode_loop_safe (length src) (Clear e0) src Hs ltac:(lia)) as (its & rest & m & -> & Hty). cbn [mbind option_bind].
  exists its. destruct m as [m|]; [eauto|]. destruct (negb (zlen rest =? 0)); eauto.
Qed.

Lemma version_edit_roundtrip_witness :
  let e := fold_left run_edit_op [EItem (IPointer 2 [9]); EItem (IDeleted 3 7); EItem (IDeleted 1 8); EClear;
    EItem (IDeleted 4 40); EItem (IDeleted 4 39); EItem (ILogNumber 300); EItem (INewFile 0 5 70000 [1] [2])] new_edit in
  exists enc, EncodeTo (P:=be_host) e [1] = Some ([1] ++ enc) /\
    DecodeFrom (SetCompactPointer new_edit 1 [6]) enc = Some (set_pointers e [(1, [6]); (2, [9])], OK).
Proof.
  refine (version_edit_roundtrip (P:=be_host) [EItem (IPointer 2 [9]); EItem (IDeleted 3 7); EItem (IDeleted 1 8); EClear;
    EItem (IDeleted 4 40); EItem (IDeleted 4 39); EItem (ILogNumber 300); EItem (INewFile 0 5 70000 [1] [2])]
    (SetCompactPointer new_edit 1 [6]) [1] _).
  repeat constructor; by vm_compute.
Defined.
Lemma version_edit_decode_typed_witness :
  exists its s, DecodeFrom new_edit [7; 9; 1] = Some (fold_left apply_item its (Clear new_edit), s) /\ Forall item_typed its.
Proof. apply version_edit_decode_typed. repeat constructor; by vm_compute. Defined.
