(* ===== verification/LdbCrc32c.v ===== *)
(** * leveldb: util/crc32c.cc and util/crc32c.h

    The CRC-32C checksum: the loop that works through four interleaved strides
    with the tables of the source, and the masking of stored checksums.  The
    build is the one without the external crc32c library, whose accelerated
    routine then returns 0 (port/port_stdcxx.h).  The reference is the
    definition bit by bit, without tables. *)

From Stdlib Require Import ZArith Lia Bool String Btauto.
From stdpp Require Import base option list numbers.
From S2P Require Import Prelude Endian UtilNum Crc LdbCoding.
Open Scope Z_scope.

(** ** The code *)

Definition kByteExtensionTable : list Z :=
  [
    0x00000000; 0xf26b8303; 0xe13b70f7; 0x1350f3f4; 0xc79a971f; 0x35f1141c; 0x26a1e7e8; 0xd4ca64eb;
    0x8ad958cf; 0x78b2dbcc; 0x6be22838; 0x9989ab3b; 0x4d43cfd0; 0xbf284cd3; 0xac78bf27; 0x5e133c24;
    0x105ec76f; 0xe235446c; 0xf165b798; 0x030e349b; 0xd7c45070; 0x25afd373; 0x36ff2087; 0xc494a384;
    0x9a879fa0; 0x68ec1ca3; 0x7bbcef57; 0x89d76c54; 0x5d1d08bf; 0xaf768bbc; 0xbc267848; 0x4e4dfb4b;
    0x20bd8ede; 0xd2d60ddd; 0xc186fe29; 0x33ed7d2a; 0xe72719c1; 0x154c9ac2; 0x061c6936; 0xf477ea35;
    0xaa64d611; 0x580f5512; 0x4b5fa6e6; 0xb93425e5; 0x6dfe410e; 0x9f95c20d; 0x8cc531f9; 0x7eaeb2fa;
    0x30e349b1; 0xc288cab2; 0xd1d83946; 0x23b3ba45; 0xf779deae; 0x05125dad; 0x1642ae59; 0xe4292d5a;
    0xba3a117e; 0x4851927d; 0x5b016189; 0xa96ae28a; 0x7da08661; 0x8fcb0562; 0x9c9bf696; 0x6ef07595;
    0x417b1dbc; 0xb3109ebf; 0xa0406d4b; 0x522bee48; 0x86e18aa3; 0x748a09a0; 0x67dafa54; 0x95b17957;
    0xcba24573; 0x39c9c670; 0x2a993584; 0xd8f2b687; 0x0c38d26c; 0xfe53516f; 0xed03a29b; 0x1f682198;
    0x5125dad3; 0xa34e59d0; 0xb01eaa24; 0x42752927; 0x96bf4dcc; 0x64d4cecf; 0x77843d3b; 0x85efbe38;
    0xdbfc821c; 0x2997011f; 0x3ac7f2eb; 0xc8ac71e8; 0x1c661503; 0xee0d9600; 0xfd5d65f4; 0x0f36e6f7;
    0x61c69362; 0x93ad1061; 0x80fde395; 0x72966096; 0xa65c047d; 0x5437877e; 0x4767748a; 0xb50cf789;
    0xeb1fcbad; 0x197448ae; 0x0a24bb5a; 0xf84f3859; 0x2c855cb2; 0xdeeedfb1; 0xcdbe2c45; 0x3fd5af46;
    0x7198540d; 0x83f3d70e; 0x90a324fa; 0x62c8a7f9; 0xb602c312; 0x44694011; 0x5739b3e5; 0xa55230e6;
    0xfb410cc2; 0x092a8fc1; 0x1a7a7c35; 0xe811ff36; 0x3cdb9bdd; 0xceb018de; 0xdde0eb2a; 0x2f8b6829;
    0x82f63b78; 0x709db87b; 0x63cd4b8f; 0x91a6c88c; 0x456cac67; 0xb7072f64; 0xa457dc90; 0x563c5f93;
    0x082f63b7; 0xfa44e0b4; 0xe9141340; 0x1b7f9043; 0xcfb5f4a8; 0x3dde77ab; 0x2e8e845f; 0xdce5075c;
    0x92a8fc17; 0x60c37f14; 0x73938ce0; 0x81f80fe3; 0x55326b08; 0xa759e80b; 0xb4091bff; 0x466298fc;
    0x1871a4d8; 0xea1a27db; 0xf94ad42f; 0x0b21572c; 0xdfeb33c7; 0x2d80b0c4; 0x3ed04330; 0xccbbc033;
    0xa24bb5a6; 0x502036a5; 0x4370c551; 0xb11b4652; 0x65d122b9; 0x97baa1ba; 0x84ea524e; 0x7681d14d;
    0x2892ed69; 0xdaf96e6a; 0xc9a99d9e; 0x3bc21e9d; 0xef087a76; 0x1d63f975; 0x0e330a81; 0xfc588982;
    0xb21572c9; 0x407ef1ca; 0x532e023e; 0xa145813d; 0x758fe5d6; 0x87e466d5; 0x94b49521; 0x66df1622;
    0x38cc2a06; 0xcaa7a905; 0xd9f75af1; 0x2b9cd9f2; 0xff56bd19; 0x0d3d3e1a; 0x1e6dcdee; 0xec064eed;
    0xc38d26c4; 0x31e6a5c7; 0x22b65633; 0xd0ddd530; 0x0417b1db; 0xf67c32d8; 0xe52cc12c; 0x1747422f;
    0x49547e0b; 0xbb3ffd08; 0xa86f0efc; 0x5a048dff; 0x8ecee914; 0x7ca56a17; 0x6ff599e3; 0x9d9e1ae0;
    0xd3d3e1ab; 0x21b862a8; 0x32e8915c; 0xc083125f; 0x144976b4; 0xe622f5b7; 0xf5720643; 0x07198540;
    0x590ab964; 0xab613a67; 0xb831c993; 0x4a5a4a90; 0x9e902e7b; 0x6cfbad78; 0x7fab5e8c; 0x8dc0dd8f;
    0xe330a81a; 0x115b2b19; 0x020bd8ed; 0xf0605bee; 0x24aa3f05; 0xd6c1bc06; 0xc5914ff2; 0x37faccf1;
    0x69e9f0d5; 0x9b8273d6; 0x88d28022; 0x7ab90321; 0xae7367ca; 0x5c18e4c9; 0x4f48173d; 0xbd23943e;
    0xf36e6f75; 0x0105ec76; 0x12551f82; 0xe03e9c81; 0x34f4f86a; 0xc69f7b69; 0xd5cf889d; 0x27a40b9e;
    0x79b737ba; 0x8bdcb4b9; 0x988c474d; 0x6ae7c44e; 0xbe2da0a5; 0x4c4623a6; 0x5f16d052; 0xad7d5351
  ].

Definition kStrideExtensionTable0 : list Z :=
  [
    0x00000000; 0x30d23865; 0x61a470ca; 0x517648af; 0xc348e194; 0xf39ad9f1; 0xa2ec915e; 0x923ea93b;
    0x837db5d9; 0xb3af8dbc; 0xe2d9c513; 0xd20bfd76; 0x4035544d; 0x70e76c28; 0x21912487; 0x11431ce2;
    0x03171d43; 0x33c52526; 0x62b36d89; 0x526155ec; 0xc05ffcd7; 0xf08dc4b2; 0xa1fb8c1d; 0x9129b478;
    0x806aa89a; 0xb0b890ff; 0xe1ced850; 0xd11ce035; 0x4322490e; 0x73f0716b; 0x228639c4; 0x125401a1;
    0x062e3a86; 0x36fc02e3; 0x678a4a4c; 0x57587229; 0xc566db12; 0xf5b4e377; 0xa4c2abd8; 0x941093bd;
    0x85538f5f; 0xb581b73a; 0xe4f7ff95; 0xd425c7f0; 0x461b6ecb; 0x76c956ae; 0x27bf1e01; 0x176d2664;
    0x053927c5; 0x35eb1fa0; 0x649d570f; 0x544f6f6a; 0xc671c651; 0xf6a3fe34; 0xa7d5b69b; 0x97078efe;
    0x8644921c; 0xb696aa79; 0xe7e0e2d6; 0xd732dab3; 0x450c7388; 0x75de4bed; 0x24a80342; 0x147a3b27;
    0x0c5c750c; 0x3c8e4d69; 0x6df805c6; 0x5d2a3da3; 0xcf149498; 0xffc6acfd; 0xaeb0e452; 0x9e62dc37;
    0x8f21c0d5; 0xbff3f8b0; 0xee85b01f; 0xde57887a; 0x4c692141; 0x7cbb1924; 0x2dcd518b; 0x1d1f69ee;
    0x0f4b684f; 0x3f99502a; 0x6eef1885; 0x5e3d20e0; 0xcc0389db; 0xfcd1b1be; 0xada7f911; 0x9d75c174;
    0x8c36dd96; 0xbce4e5f3; 0xed92ad5c; 0xdd409539; 0x4f7e3c02; 0x7fac0467; 0x2eda4cc8; 0x1e0874ad;
    0x0a724f8a; 0x3aa077ef; 0x6bd63f40; 0x5b040725; 0xc93aae1e; 0xf9e8967b; 0xa89eded4; 0x984ce6b1;
    0x890ffa53; 0xb9ddc236; 0xe8ab8a99; 0xd879b2fc; 0x4a471bc7; 0x7a9523a2; 0x2be36b0d; 0x1b315368;
    0x096552c9; 0x39b76aac; 0x68c12203; 0x58131a66; 0xca2db35d; 0xfaff8b38; 0xab89c397; 0x9b5bfbf2;
    0x8a18e710; 0xbacadf75; 0xebbc97da; 0xdb6eafbf; 0x49500684; 0x79823ee1; 0x28f4764e; 0x18264e2b;
    0x18b8ea18; 0x286ad27d; 0x791c9ad2; 0x49cea2b7; 0xdbf00b8c; 0xeb2233e9; 0xba547b46; 0x8a864323;
    0x9bc55fc1; 0xab1767a4; 0xfa612f0b; 0xcab3176e; 0x588dbe55; 0x685f8630; 0x3929ce9f; 0x09fbf6fa;
    0x1baff75b; 0x2b7dcf3e; 0x7a0b8791; 0x4ad9bff4; 0xd8e716cf; 0xe8352eaa; 0xb9436605; 0x89915e60;
    0x98d24282; 0xa8007ae7; 0xf9763248; 0xc9a40a2d; 0x5b9aa316; 0x6b489b73; 0x3a3ed3dc; 0x0aecebb9;
    0x1e96d09e; 0x2e44e8fb; 0x7f32a054; 0x4fe09831; 0xddde310a; 0xed0c096f; 0xbc7a41c0; 0x8ca879a5;
    0x9deb6547; 0xad395d22; 0xfc4f158d; 0xcc9d2de8; 0x5ea384d3; 0x6e71bcb6; 0x3f07f419; 0x0fd5cc7c;
    0x1d81cddd; 0x2d53f5b8; 0x7c25bd17; 0x4cf78572; 0xdec92c49; 0xee1b142c; 0xbf6d5c83; 0x8fbf64e6;
    0x9efc7804; 0xae2e4061; 0xff5808ce; 0xcf8a30ab; 0x5db49990; 0x6d66a1f5; 0x3c10e95a; 0x0cc2d13f;
    0x14e49f14; 0x2436a771; 0x7540efde; 0x4592d7bb; 0xd7ac7e80; 0xe77e46e5; 0xb6080e4a; 0x86da362f;
    0x97992acd; 0xa74b12a8; 0xf63d5a07; 0xc6ef6262; 0x54d1cb59; 0x6403f33c; 0x3575bb93; 0x05a783f6;
    0x17f38257; 0x2721ba32; 0x7657f29d; 0x4685caf8; 0xd4bb63c3; 0xe4695ba6; 0xb51f1309; 0x85cd2b6c;
    0x948e378e; 0xa45c0feb; 0xf52a4744; 0xc5f87f21; 0x57c6d61a; 0x6714ee7f; 0x3662a6d0; 0x06b09eb5;
    0x12caa592; 0x22189df7; 0x736ed558; 0x43bced3d; 0xd1824406; 0xe1507c63; 0xb02634cc; 0x80f40ca9;
    0x91b7104b; 0xa165282e; 0xf0136081; 0xc0c158e4; 0x52fff1df; 0x622dc9ba; 0x335b8115; 0x0389b970;
    0x11ddb8d1; 0x210f80b4; 0x7079c81b; 0x40abf07e; 0xd2955945; 0xe2476120; 0xb331298f; 0x83e311ea;
    0x92a00d08; 0xa272356d; 0xf3047dc2; 0xc3d645a7; 0x51e8ec9c; 0x613ad4f9; 0x304c9c56; 0x009ea433
  ].

Definition kStrideExtensionTable1 : list Z :=
  [
    0x00000000; 0x54075546; 0xa80eaa8c; 0xfc09ffca; 0x55f123e9; 0x01f676af; 0xfdff8965; 0xa9f8dc23;
    0xabe247d2; 0xffe51294; 0x03eced5e; 0x57ebb818; 0xfe13643b; 0xaa14317d; 0x561dceb7; 0x021a9bf1;
    0x5228f955; 0x062fac13; 0xfa2653d9; 0xae21069f; 0x07d9dabc; 0x53de8ffa; 0xafd77030; 0xfbd02576;
    0xf9cabe87; 0xadcdebc1; 0x51c4140b; 0x05c3414d; 0xac3b9d6e; 0xf83cc828; 0x043537e2; 0x503262a4;
    0xa451f2aa; 0xf056a7ec; 0x0c5f5826; 0x58580d60; 0xf1a0d143; 0xa5a78405; 0x59ae7bcf; 0x0da92e89;
    0x0fb3b578; 0x5bb4e03e; 0xa7bd1ff4; 0xf3ba4ab2; 0x5a429691; 0x0e45c3d7; 0xf24c3c1d; 0xa64b695b;
    0xf6790bff; 0xa27e5eb9; 0x5e77a173; 0x0a70f435; 0xa3882816; 0xf78f7d50; 0x0b86829a; 0x5f81d7dc;
    0x5d9b4c2d; 0x099c196b; 0xf595e6a1; 0xa192b3e7; 0x086a6fc4; 0x5c6d3a82; 0xa064c548; 0xf463900e;
    0x4d4f93a5; 0x1948c6e3; 0xe5413929; 0xb1466c6f; 0x18beb04c; 0x4cb9e50a; 0xb0b01ac0; 0xe4b74f86;
    0xe6add477; 0xb2aa8131; 0x4ea37efb; 0x1aa42bbd; 0xb35cf79e; 0xe75ba2d8; 0x1b525d12; 0x4f550854;
    0x1f676af0; 0x4b603fb6; 0xb769c07c; 0xe36e953a; 0x4a964919; 0x1e911c5f; 0xe298e395; 0xb69fb6d3;
    0xb4852d22; 0xe0827864; 0x1c8b87ae; 0x488cd2e8; 0xe1740ecb; 0xb5735b8d; 0x497aa447; 0x1d7df101;
    0xe91e610f; 0xbd193449; 0x4110cb83; 0x15179ec5; 0xbcef42e6; 0xe8e817a0; 0x14e1e86a; 0x40e6bd2c;
    0x42fc26dd; 0x16fb739b; 0xeaf28c51; 0xbef5d917; 0x170d0534; 0x430a5072; 0xbf03afb8; 0xeb04fafe;
    0xbb36985a; 0xef31cd1c; 0x133832d6; 0x473f6790; 0xeec7bbb3; 0xbac0eef5; 0x46c9113f; 0x12ce4479;
    0x10d4df88; 0x44d38ace; 0xb8da7504; 0xecdd2042; 0x4525fc61; 0x1122a927; 0xed2b56ed; 0xb92c03ab;
    0x9a9f274a; 0xce98720c; 0x32918dc6; 0x6696d880; 0xcf6e04a3; 0x9b6951e5; 0x6760ae2f; 0x3367fb69;
    0x317d6098; 0x657a35de; 0x9973ca14; 0xcd749f52; 0x648c4371; 0x308b1637; 0xcc82e9fd; 0x9885bcbb;
    0xc8b7de1f; 0x9cb08b59; 0x60b97493; 0x34be21d5; 0x9d46fdf6; 0xc941a8b0; 0x3548577a; 0x614f023c;
    0x635599cd; 0x3752cc8b; 0xcb5b3341; 0x9f5c6607; 0x36a4ba24; 0x62a3ef62; 0x9eaa10a8; 0xcaad45ee;
    0x3eced5e0; 0x6ac980a6; 0x96c07f6c; 0xc2c72a2a; 0x6b3ff609; 0x3f38a34f; 0xc3315c85; 0x973609c3;
    0x952c9232; 0xc12bc774; 0x3d2238be; 0x69256df8; 0xc0ddb1db; 0x94dae49d; 0x68d31b57; 0x3cd44e11;
    0x6ce62cb5; 0x38e179f3; 0xc4e88639; 0x90efd37f; 0x39170f5c; 0x6d105a1a; 0x9119a5d0; 0xc51ef096;
    0xc7046b67; 0x93033e21; 0x6f0ac1eb; 0x3b0d94ad; 0x92f5488e; 0xc6f21dc8; 0x3afbe202; 0x6efcb744;
    0xd7d0b4ef; 0x83d7e1a9; 0x7fde1e63; 0x2bd94b25; 0x82219706; 0xd626c240; 0x2a2f3d8a; 0x7e2868cc;
    0x7c32f33d; 0x2835a67b; 0xd43c59b1; 0x803b0cf7; 0x29c3d0d4; 0x7dc48592; 0x81cd7a58; 0xd5ca2f1e;
    0x85f84dba; 0xd1ff18fc; 0x2df6e736; 0x79f1b270; 0xd0096e53; 0x840e3b15; 0x7807c4df; 0x2c009199;
    0x2e1a0a68; 0x7a1d5f2e; 0x8614a0e4; 0xd213f5a2; 0x7beb2981; 0x2fec7cc7; 0xd3e5830d; 0x87e2d64b;
    0x73814645; 0x27861303; 0xdb8fecc9; 0x8f88b98f; 0x267065ac; 0x727730ea; 0x8e7ecf20; 0xda799a66;
    0xd8630197; 0x8c6454d1; 0x706dab1b; 0x246afe5d; 0x8d92227e; 0xd9957738; 0x259c88f2; 0x719bddb4;
    0x21a9bf10; 0x75aeea56; 0x89a7159c; 0xdda040da; 0x74589cf9; 0x205fc9bf; 0xdc563675; 0x88516333;
    0x8a4bf8c2; 0xde4cad84; 0x2245524e; 0x76420708; 0xdfbadb2b; 0x8bbd8e6d; 0x77b471a7; 0x23b324e1
  ].

Definition kStrideExtensionTable2 : list Z :=
  [
    0x00000000; 0x678efd01; 0xcf1dfa02; 0xa8930703; 0x9bd782f5; 0xfc597ff4; 0x54ca78f7; 0x334485f6;
    0x3243731b; 0x55cd8e1a; 0xfd5e8919; 0x9ad07418; 0xa994f1ee; 0xce1a0cef; 0x66890bec; 0x0107f6ed;
    0x6486e636; 0x03081b37; 0xab9b1c34; 0xcc15e135; 0xff5164c3; 0x98df99c2; 0x304c9ec1; 0x57c263c0;
    0x56c5952d; 0x314b682c; 0x99d86f2f; 0xfe56922e; 0xcd1217d8; 0xaa9cead9; 0x020fedda; 0x658110db;
    0xc90dcc6c; 0xae83316d; 0x0610366e; 0x619ecb6f; 0x52da4e99; 0x3554b398; 0x9dc7b49b; 0xfa49499a;
    0xfb4ebf77; 0x9cc04276; 0x34534575; 0x53ddb874; 0x60993d82; 0x0717c083; 0xaf84c780; 0xc80a3a81;
    0xad8b2a5a; 0xca05d75b; 0x6296d058; 0x05182d59; 0x365ca8af; 0x51d255ae; 0xf94152ad; 0x9ecfafac;
    0x9fc85941; 0xf846a440; 0x50d5a343; 0x375b5e42; 0x041fdbb4; 0x639126b5; 0xcb0221b6; 0xac8cdcb7;
    0x97f7ee29; 0xf0791328; 0x58ea142b; 0x3f64e92a; 0x0c206cdc; 0x6bae91dd; 0xc33d96de; 0xa4b36bdf;
    0xa5b49d32; 0xc23a6033; 0x6aa96730; 0x0d279a31; 0x3e631fc7; 0x59ede2c6; 0xf17ee5c5; 0x96f018c4;
    0xf371081f; 0x94fff51e; 0x3c6cf21d; 0x5be20f1c; 0x68a68aea; 0x0f2877eb; 0xa7bb70e8; 0xc0358de9;
    0xc1327b04; 0xa6bc8605; 0x0e2f8106; 0x69a17c07; 0x5ae5f9f1; 0x3d6b04f0; 0x95f803f3; 0xf276fef2;
    0x5efa2245; 0x3974df44; 0x91e7d847; 0xf6692546; 0xc52da0b0; 0xa2a35db1; 0x0a305ab2; 0x6dbea7b3;
    0x6cb9515e; 0x0b37ac5f; 0xa3a4ab5c; 0xc42a565d; 0xf76ed3ab; 0x90e02eaa; 0x387329a9; 0x5ffdd4a8;
    0x3a7cc473; 0x5df23972; 0xf5613e71; 0x92efc370; 0xa1ab4686; 0xc625bb87; 0x6eb6bc84; 0x09384185;
    0x083fb768; 0x6fb14a69; 0xc7224d6a; 0xa0acb06b; 0x93e8359d; 0xf466c89c; 0x5cf5cf9f; 0x3b7b329e;
    0x2a03aaa3; 0x4d8d57a2; 0xe51e50a1; 0x8290ada0; 0xb1d42856; 0xd65ad557; 0x7ec9d254; 0x19472f55;
    0x1840d9b8; 0x7fce24b9; 0xd75d23ba; 0xb0d3debb; 0x83975b4d; 0xe419a64c; 0x4c8aa14f; 0x2b045c4e;
    0x4e854c95; 0x290bb194; 0x8198b697; 0xe6164b96; 0xd552ce60; 0xb2dc3361; 0x1a4f3462; 0x7dc1c963;
    0x7cc63f8e; 0x1b48c28f; 0xb3dbc58c; 0xd455388d; 0xe711bd7b; 0x809f407a; 0x280c4779; 0x4f82ba78;
    0xe30e66cf; 0x84809bce; 0x2c139ccd; 0x4b9d61cc; 0x78d9e43a; 0x1f57193b; 0xb7c41e38; 0xd04ae339;
    0xd14d15d4; 0xb6c3e8d5; 0x1e50efd6; 0x79de12d7; 0x4a9a9721; 0x2d146a20; 0x85876d23; 0xe2099022;
    0x878880f9; 0xe0067df8; 0x48957afb; 0x2f1b87fa; 0x1c5f020c; 0x7bd1ff0d; 0xd342f80e; 0xb4cc050f;
    0xb5cbf3e2; 0xd2450ee3; 0x7ad609e0; 0x1d58f4e1; 0x2e1c7117; 0x49928c16; 0xe1018b15; 0x868f7614;
    0xbdf4448a; 0xda7ab98b; 0x72e9be88; 0x15674389; 0x2623c67f; 0x41ad3b7e; 0xe93e3c7d; 0x8eb0c17c;
    0x8fb73791; 0xe839ca90; 0x40aacd93; 0x27243092; 0x1460b564; 0x73ee4865; 0xdb7d4f66; 0xbcf3b267;
    0xd972a2bc; 0xbefc5fbd; 0x166f58be; 0x71e1a5bf; 0x42a52049; 0x252bdd48; 0x8db8da4b; 0xea36274a;
    0xeb31d1a7; 0x8cbf2ca6; 0x242c2ba5; 0x43a2d6a4; 0x70e65352; 0x1768ae53; 0xbffba950; 0xd8755451;
    0x74f988e6; 0x137775e7; 0xbbe472e4; 0xdc6a8fe5; 0xef2e0a13; 0x88a0f712; 0x2033f011; 0x47bd0d10;
    0x46bafbfd; 0x213406fc; 0x89a701ff; 0xee29fcfe; 0xdd6d7908; 0xbae38409; 0x1270830a; 0x75fe7e0b;
    0x107f6ed0; 0x77f193d1; 0xdf6294d2; 0xb8ec69d3; 0x8ba8ec25; 0xec261124; 0x44b51627; 0x233beb26;
    0x223c1dcb; 0x45b2e0ca; 0xed21e7c9; 0x8aaf1ac8; 0xb9eb9f3e; 0xde65623f; 0x76f6653c; 0x1178983d
  ].

Definition kStrideExtensionTable3 : list Z :=
  [
    0x00000000; 0xf20c0dfe; 0xe1f46d0d; 0x13f860f3; 0xc604aceb; 0x3408a115; 0x27f0c1e6; 0xd5fccc18;
    0x89e52f27; 0x7be922d9; 0x6811422a; 0x9a1d4fd4; 0x4fe183cc; 0xbded8e32; 0xae15eec1; 0x5c19e33f;
    0x162628bf; 0xe42a2541; 0xf7d245b2; 0x05de484c; 0xd0228454; 0x222e89aa; 0x31d6e959; 0xc3dae4a7;
    0x9fc30798; 0x6dcf0a66; 0x7e376a95; 0x8c3b676b; 0x59c7ab73; 0xabcba68d; 0xb833c67e; 0x4a3fcb80;
    0x2c4c517e; 0xde405c80; 0xcdb83c73; 0x3fb4318d; 0xea48fd95; 0x1844f06b; 0x0bbc9098; 0xf9b09d66;
    0xa5a97e59; 0x57a573a7; 0x445d1354; 0xb6511eaa; 0x63add2b2; 0x91a1df4c; 0x8259bfbf; 0x7055b241;
    0x3a6a79c1; 0xc866743f; 0xdb9e14cc; 0x29921932; 0xfc6ed52a; 0x0e62d8d4; 0x1d9ab827; 0xef96b5d9;
    0xb38f56e6; 0x41835b18; 0x527b3beb; 0xa0773615; 0x758bfa0d; 0x8787f7f3; 0x947f9700; 0x66739afe;
    0x5898a2fc; 0xaa94af02; 0xb96ccff1; 0x4b60c20f; 0x9e9c0e17; 0x6c9003e9; 0x7f68631a; 0x8d646ee4;
    0xd17d8ddb; 0x23718025; 0x3089e0d6; 0xc285ed28; 0x17792130; 0xe5752cce; 0xf68d4c3d; 0x048141c3;
    0x4ebe8a43; 0xbcb287bd; 0xaf4ae74e; 0x5d46eab0; 0x88ba26a8; 0x7ab62b56; 0x694e4ba5; 0x9b42465b;
    0xc75ba564; 0x3557a89a; 0x26afc869; 0xd4a3c597; 0x015f098f; 0xf3530471; 0xe0ab6482; 0x12a7697c;
    0x74d4f382; 0x86d8fe7c; 0x95209e8f; 0x672c9371; 0xb2d05f69; 0x40dc5297; 0x53243264; 0xa1283f9a;
    0xfd31dca5; 0x0f3dd15b; 0x1cc5b1a8; 0xeec9bc56; 0x3b35704e; 0xc9397db0; 0xdac11d43; 0x28cd10bd;
    0x62f2db3d; 0x90fed6c3; 0x8306b630; 0x710abbce; 0xa4f677d6; 0x56fa7a28; 0x45021adb; 0xb70e1725;
    0xeb17f41a; 0x191bf9e4; 0x0ae39917; 0xf8ef94e9; 0x2d1358f1; 0xdf1f550f; 0xcce735fc; 0x3eeb3802;
    0xb13145f8; 0x433d4806; 0x50c528f5; 0xa2c9250b; 0x7735e913; 0x8539e4ed; 0x96c1841e; 0x64cd89e0;
    0x38d46adf; 0xcad86721; 0xd92007d2; 0x2b2c0a2c; 0xfed0c634; 0x0cdccbca; 0x1f24ab39; 0xed28a6c7;
    0xa7176d47; 0x551b60b9; 0x46e3004a; 0xb4ef0db4; 0x6113c1ac; 0x931fcc52; 0x80e7aca1; 0x72eba15f;
    0x2ef24260; 0xdcfe4f9e; 0xcf062f6d; 0x3d0a2293; 0xe8f6ee8b; 0x1afae375; 0x09028386; 0xfb0e8e78;
    0x9d7d1486; 0x6f711978; 0x7c89798b; 0x8e857475; 0x5b79b86d; 0xa975b593; 0xba8dd560; 0x4881d89e;
    0x14983ba1; 0xe694365f; 0xf56c56ac; 0x07605b52; 0xd29c974a; 0x20909ab4; 0x3368fa47; 0xc164f7b9;
    0x8b5b3c39; 0x795731c7; 0x6aaf5134; 0x98a35cca; 0x4d5f90d2; 0xbf539d2c; 0xacabfddf; 0x5ea7f021;
    0x02be131e; 0xf0b21ee0; 0xe34a7e13; 0x114673ed; 0xc4babff5; 0x36b6b20b; 0x254ed2f8; 0xd742df06;
    0xe9a9e704; 0x1ba5eafa; 0x085d8a09; 0xfa5187f7; 0x2fad4bef; 0xdda14611; 0xce5926e2; 0x3c552b1c;
    0x604cc823; 0x9240c5dd; 0x81b8a52e; 0x73b4a8d0; 0xa64864c8; 0x54446936; 0x47bc09c5; 0xb5b0043b;
    0xff8fcfbb; 0x0d83c245; 0x1e7ba2b6; 0xec77af48; 0x398b6350; 0xcb876eae; 0xd87f0e5d; 0x2a7303a3;
    0x766ae09c; 0x8466ed62; 0x979e8d91; 0x6592806f; 0xb06e4c77; 0x42624189; 0x519a217a; 0xa3962c84;
    0xc5e5b67a; 0x37e9bb84; 0x2411db77; 0xd61dd689; 0x03e11a91; 0xf1ed176f; 0xe215779c; 0x10197a62;
    0x4c00995d; 0xbe0c94a3; 0xadf4f450; 0x5ff8f9ae; 0x8a0435b6; 0x78083848; 0x6bf058bb; 0x99fc5545;
    0xd3c39ec5; 0x21cf933b; 0x3237f3c8; 0xc03bfe36; 0x15c7322e; 0xe7cb3fd0; 0xf4335f23; 0x063f52dd;
    0x5a26b1e2; 0xa82abc1c; 0xbbd2dcef; 0x49ded111; 0x9c221d09; 0x6e2e10f7; 0x7dd67004; 0x8fda7dfa
  ].

(** CRCs are pre- and post-conditioned by xoring with all ones. *)
Definition kCRC32Xor : Z := 0xffffffff.

Section Crc32c.
Context {P : Platform}.

(** The port without the crc32c library. *)
Definition AcceleratedCRC32C (crc : Z) (buf : list Z) : Z := 0.

Definition CanAccelerateCRC32C : bool :=
  AcceleratedCRC32C 0 (codes "TestCRCBuffer") =? 0xdcbc59fa.

Definition ReadUint32LE (buf : list Z) (p : Z) : option Z := DecodeFixed32 buf p.

(** The smallest address not below [pointer] that is a multiple of 4. *)
Definition RoundUp (pointer : Z) : Z := Z.land (u64 (pointer + 3)) (u64 (Z.lnot 3)).

Definition STEP1 (l byte : Z) : option Z :=
  let c := Z.lxor (Z.land l 0xff) byte in
  t ← znth kByteExtensionTable c;
  Some (Z.lxor t (Z.shiftr l 8)).

Definition STEP4 (buf : list Z) (p crc : Z) : option Z :=
  w ← ReadUint32LE buf p;
  t3 ← znth kStrideExtensionTable3 (Z.land crc 0xff);
  t2 ← znth kStrideExtensionTable2 (Z.land (Z.shiftr crc 8) 0xff);
  t1 ← znth kStrideExtensionTable1 (Z.land (Z.shiftr crc 16) 0xff);
  t0 ← znth kStrideExtensionTable0 (Z.shiftr crc 24);
  Some (Z.lxor (Z.lxor (Z.lxor (Z.lxor w t3) t2) t1) t0).

Fixpoint STEP4W_loop (n : nat) (w : Z) : option Z :=
  match n with
  | O => Some w
  | S n => t ← znth kByteExtensionTable (Z.land w 0xff); STEP4W_loop n (Z.lxor (Z.shiftr w 8) t)
  end.
Definition STEP4W (l w : Z) : option Z := STEP4W_loop 4 (Z.lxor w l).

(** The four partial results. *)
Record strides := mk_strides { crc0 : Z; crc1 : Z; crc2 : Z; crc3 : Z }.

Definition STEP16 (buf : list Z) (p : Z) (c : strides) : option strides :=
  a ← STEP4 buf (p + 0 * 4) (crc0 c);
  b ← STEP4 buf (p + 1 * 4) (crc1 c);
  d ← STEP4 buf (p + 2 * 4) (crc2 c);
  e ← STEP4 buf (p + 3 * 4) (crc3 c);
  Some (mk_strides a b d e).

(** [while (p != x) STEP1]. *)
Fixpoint byte_loop (fuel : nat) (buf : list Z) (l p x : Z) : option (Z * Z) :=
  if p =? x then Some (l, p)
  else
    match fuel with
    | O => None
    | S fuel => b ← znth buf p; l ← STEP1 l b; byte_loop fuel buf l (p + 1) x
    end.

Fixpoint swath_loop (fuel : nat) (buf : list Z) (c : strides) (p e : Z) : option (strides * Z) :=
  if 16 <=? e - p then
    match fuel with
    | O => None
    | S fuel => c ← STEP16 buf p c; swath_loop fuel buf c (p + 16) e
    end
  else Some (c, p).

Fixpoint word_loop (fuel : nat) (buf : list Z) (c : strides) (p e : Z) : option (strides * Z) :=
  if 4 <=? e - p then
    match fuel with
    | O => None
    | S fuel =>
        tmp ← STEP4 buf p (crc0 c);
        word_loop fuel buf (mk_strides (crc1 c) (crc2 c) (crc3 c) tmp) (p + 4) e
    end
  else Some (c, p).

(** [addr] is the address of the buffer, which decides where the aligned part
    starts. *)
Definition Extend (addr crc : Z) (buf : list Z) : option Z :=
  if CanAccelerateCRC32C then Some (AcceleratedCRC32C crc buf)
  else
    let e := zlen buf in
    let l := Z.lxor crc kCRC32Xor in
    let x := RoundUp addr - addr in
    '(l, p) ← (if x <=? e then byte_loop (length buf) buf l 0 x else Some (l, 0));
    '(l, p) ←
      (if 16 <=? e - p then
         w0 ← ReadUint32LE buf (p + 0 * 4);
         w1 ← ReadUint32LE buf (p + 1 * 4);
         w2 ← ReadUint32LE buf (p + 2 * 4);
         w3 ← ReadUint32LE buf (p + 3 * 4);
         '(c, p) ← swath_loop (length buf) buf (mk_strides (Z.lxor w0 l) w1 w2 w3) (p + 16) e;
         '(c, p) ← word_loop (length buf) buf c p e;
         l ← STEP4W 0 (crc0 c);
         l ← STEP4W l (crc1 c);
         l ← STEP4W l (crc2 c);
         l ← STEP4W l (crc3 c);
         Some (l, p)
       else Some (l, p));
    '(l, p) ← byte_loop (length buf) buf l p e;
    Some (Z.lxor l kCRC32Xor).

Definition Value (addr : Z) (buf : list Z) : option Z := Extend addr 0 buf.

Definition kMaskDelta : Z := 0xa282ead8.
Definition Mask (crc : Z) : Z := u32 (Z.lor (Z.shiftr crc 15) (u32 (Z.shiftl crc 17)) + kMaskDelta).
Definition Unmask (masked_crc : Z) : Z :=
  let rot := u32 (masked_crc - kMaskDelta) in
  Z.lor (Z.shiftr rot 17) (u32 (Z.shiftl rot 15)).
End Crc32c.

(** ** The reference: one bit at a time *)

Definition poly32c : Z := 0x82f63b78.
Definition bstep (x : Z) : Z := Z.lxor (Z.shiftr x 1) (if Z.testbit x 0 then poly32c else 0).
Fixpoint it (n : nat) (x : Z) : Z := match n with O => x | S n => it n (bstep x) end.
(** A byte enters at the low end and is followed by eight steps. *)
Definition rstep (l b : Z) : Z := it 8 (Z.lxor l b).
Definition crc_ref (crc : Z) (buf : list Z) : Z := Z.lxor (foldl rstep (Z.lxor crc kCRC32Xor) buf) kCRC32Xor.

Ltac xor_bits := apply Z.bits_inj'; intros ? ?; rewrite ?Z.lxor_spec; btauto.

Lemma bstep_lxor a b : bstep (Z.lxor a b) = Z.lxor (bstep a) (bstep b).
Proof.
  unfold bstep. rewrite Z.shiftr_lxor, Z.lxor_spec.
  destruct (Z.testbit a 0), (Z.testbit b 0); simpl xorb; cbv iota; rewrite ?Z.lxor_0_r; xor_bits.
Qed.
Lemma it_lxor n a b : it n (Z.lxor a b) = Z.lxor (it n a) (it n b).
Proof. revert a b. induction n as [|n IH]; intros a b; [done|]. cbn [it]. by rewrite bstep_lxor, IH. Qed.
Lemma it_it n m x : it n (it m x) = it (m + n) x.
Proof. revert x. induction m as [|m IH]; intros x; [done|]. cbn [it Nat.add]. apply IH. Qed.
Lemma it_0 n : it n 0 = 0.
Proof. induction n as [|n IH]; [done|]. cbn [it]. exact IH. Qed.

Lemma bstep_range x : in_u 32 x -> in_u 32 (bstep x).
Proof.
  intros Hx. unfold bstep. apply lxor_range; [lia| |].
  - unfold in_u in *. rewrite Z.shiftr_div_pow2 by lia. change (2 ^ 1) with 2. pow2s.
    split; [apply Z.div_pos; lia|]. apply Z.div_lt_upper_bound; lia.
  - destruct (Z.testbit x 0); by vm_compute.
Qed.
Lemma it_range n x : in_u 32 x -> in_u 32 (it n x).
Proof. revert x. induction n as [|n IH]; intros x Hx; [done|]. cbn [it]. by apply IH, bstep_range. Qed.

Lemma bstep_shiftl x k : 0 <= k -> bstep (Z.shiftl x (k + 1)) = Z.shiftl x k.
Proof.
  intros Hk. unfold bstep. rewrite Z.shiftl_spec_low by lia. rewrite Z.lxor_0_r.
  rewrite <- Z.shiftl_shiftl by lia. rewrite Z.shiftr_shiftl_l by lia. by rewrite Z.shiftl_0_r.
Qed.
(** Shifting out zero bits only moves the rest. *)
Lemma it_shiftl n x k : 0 <= k -> it n (Z.shiftl x (k + Z.of_nat n)) = Z.shiftl x k.
Proof.
  revert k. induction n as [|n IH]; intros k Hk; [by rewrite Z.add_0_r|]. cbn [it].
  replace (k + Z.of_nat (S n)) with (k + Z.of_nat n + 1) by lia. rewrite bstep_shiftl by lia. by apply IH.
Qed.
Lemma it_shiftl_0 n x : it n (Z.shiftl x (Z.of_nat n)) = x.
Proof. pose proof (it_shiftl n x 0 ltac:(lia)) as H. by rewrite Z.add_0_l, Z.shiftl_0_r in H. Qed.

(** ** The tables are the reference on bytes *)

(** The sum of [f k] over the bits [k] of a byte. *)
Definition xsum (f : list Z) (j : Z) : Z :=
  Z.lxor (Z.lxor (Z.lxor (if Z.testbit j 0 then nth 0 f 0 else 0) (if Z.testbit j 1 then nth 1 f 0 else 0))
                 (Z.lxor (if Z.testbit j 2 then nth 2 f 0 else 0) (if Z.testbit j 3 then nth 3 f 0 else 0)))
         (Z.lxor (Z.lxor (if Z.testbit j 4 then nth 4 f 0 else 0) (if Z.testbit j 5 then nth 5 f 0 else 0))
                 (Z.lxor (if Z.testbit j 6 then nth 6 f 0 else 0) (if Z.testbit j 7 then nth 7 f 0 else 0))).
Definition basis (g : Z -> Z) : list Z := map g [1; 2; 4; 8; 16; 32; 64; 128].

Lemma byte_xsum j : is_byte j -> xsum (basis id) j = j.
Proof. intros Hj. apply Z.eqb_eq. revert j Hj. apply byte_forall. by vm_compute. Qed.

Lemma linear_xsum (g : Z -> Z) j :
  (forall a b, g (Z.lxor a b) = Z.lxor (g a) (g b)) -> g 0 = 0 -> is_byte j -> g j = xsum (basis g) j.
Proof.
  intros Hg H0 Hj. rewrite <- (byte_xsum j Hj) at 1. unfold xsum. rewrite !Hg.
  assert (Hif : forall (b : bool) x, g (if b then x else 0) = if b then g x else 0) by (intros [] x; done).
  rewrite !Hif. done.
Qed.

(** A table holds the values of [g] on bytes when it does on the powers of two
    and is linear. *)
Definition table_is (tab : list Z) (f : list Z) : bool :=
  forallb (fun j => match znth tab j with Some t => t =? xsum f j | None => false end) (map Z.of_nat (seq 0 256)).

Lemma table_is_ok tab f j : table_is tab f = true -> is_byte j -> znth tab j = Some (xsum f j).
Proof.
  intros H Hj. pose proof (byte_forall _ H j Hj) as E. simpl in E. destruct (znth tab j); [|done].
  apply Z.eqb_eq in E. by subst.
Qed.

Definition at_shift (n : nat) (s : Z) (j : Z) : Z := it n (Z.shiftl j s).

Lemma at_shift_xsum n s j : is_byte j -> xsum (basis (at_shift n s)) j = at_shift n s j.
Proof.
  intros Hj. symmetry. apply linear_xsum; [|unfold at_shift; by rewrite Z.shiftl_0_l, it_0|done].
  intros a b. unfold at_shift. by rewrite Z.shiftl_lxor, it_lxor.
Qed.

Lemma byte_table j : is_byte j -> znth kByteExtensionTable j = Some (it 8 j).
Proof.
  intros Hj. rewrite (table_is_ok _ (basis (at_shift 8 0)) j); [|by vm_compute|done].
  rewrite at_shift_xsum by done. unfold at_shift. by rewrite Z.shiftl_0_r.
Qed.
Lemma stride_table3 j : is_byte j -> znth kStrideExtensionTable3 j = Some (it 128 j).
Proof.
  intros Hj. rewrite (table_is_ok _ (basis (at_shift 128 0)) j); [|by vm_compute|done].
  rewrite at_shift_xsum by done. unfold at_shift. by rewrite Z.shiftl_0_r.
Qed.
Lemma stride_table2 j : is_byte j -> znth kStrideExtensionTable2 j = Some (it 128 (Z.shiftl j 8)).
Proof.
  intros Hj. rewrite (table_is_ok _ (basis (at_shift 128 8)) j); [|by vm_compute|done]. by rewrite at_shift_xsum.
Qed.
Lemma stride_table1 j : is_byte j -> znth kStrideExtensionTable1 j = Some (it 128 (Z.shiftl j 16)).
Proof.
  intros Hj. rewrite (table_is_ok _ (basis (at_shift 128 16)) j); [|by vm_compute|done]. by rewrite at_shift_xsum.
Qed.
Lemma stride_table0 j : is_byte j -> znth kStrideExtensionTable0 j = Some (it 128 (Z.shiftl j 24)).
Proof.
  intros Hj. rewrite (table_is_ok _ (basis (at_shift 128 24)) j); [|by vm_compute|done]. by rewrite at_shift_xsum.
Qed.

(** ** The steps *)

Lemma land_255_byte x : is_byte (Z.land x 255).
Proof.
  rewrite (land_low x 8 ltac:(lia) : Z.land x 255 = x mod 2 ^ 8). unfold is_byte. apply Z.mod_pos_bound. lia.
Qed.
Lemma byte_land_255 b : is_byte b -> Z.land b 255 = b.
Proof.
  intros Hb. rewrite (land_low b 8 ltac:(lia) : Z.land b 255 = b mod 2 ^ 8). apply Z.mod_small. exact Hb.
Qed.
Lemma byte_shiftr b : is_byte b -> Z.shiftr b 8 = 0.
Proof. intros Hb. rewrite Z.shiftr_div_pow2 by lia. apply Z.div_small. exact Hb. Qed.

Lemma split_byte x : x = Z.lxor (Z.land x 255) (Z.shiftl (Z.shiftr x 8) 8).
Proof.
  apply Z.bits_inj'. intros i Hi. rewrite Z.lxor_spec, Z.land_spec.
  change 255 with (Z.ones 8). destruct (Z.lt_ge_cases i 8).
  - rewrite Z.ones_spec_low, Z.shiftl_spec_low by lia. by rewrite andb_true_r, xorb_false_r.
  - rewrite Z.ones_spec_high, Z.shiftl_spec_high, Z.shiftr_spec by lia.
    rewrite andb_false_r, xorb_false_l. f_equal. lia.
Qed.

Lemma it_8 x : it 8 x = Z.lxor (it 8 (Z.land x 255)) (Z.shiftr x 8).
Proof. rewrite (split_byte x) at 1. by rewrite it_lxor, (it_shiftl_0 8). Qed.

Lemma STEP1_ok l b : is_byte b -> STEP1 l b = Some (rstep l b).
Proof.
  intros Hb. unfold STEP1, rstep. cbv zeta.
  assert (Z.lxor (Z.land l 255) b = Z.land (Z.lxor l b) 255) as ->.
  { rewrite <- (byte_land_255 b Hb) at 1. apply Z.bits_inj'. intros i Hi. rewrite ?Z.lxor_spec, ?Z.land_spec, ?Z.lxor_spec. btauto. }
  rewrite byte_table by apply land_255_byte. cbn [mbind option_bind]. rewrite (it_8 (Z.lxor l b)), Z.shiftr_lxor.
  by rewrite (byte_shiftr b Hb), Z.lxor_0_r.
Qed.

Lemma STEP4W_loop_ok n w : STEP4W_loop n w = Some (it (n * 8) w).
Proof.
  revert w. induction n as [|n IH]; intros w; [done|]. cbn [STEP4W_loop].
  rewrite byte_table by apply land_255_byte. cbn [mbind option_bind]. rewrite IH.
  rewrite Z.lxor_comm, <- it_8, it_it. done.
Qed.
Lemma STEP4W_ok l w : STEP4W l w = Some (it 32 (Z.lxor w l)).
Proof. apply STEP4W_loop_ok. Qed.

(** A word is its four bytes. *)
Lemma split_word x :
  x = Z.lxor (Z.land x 255) (Z.lxor (Z.shiftl (Z.land (Z.shiftr x 8) 255) 8)
     (Z.lxor (Z.shiftl (Z.land (Z.shiftr x 16) 255) 16) (Z.shiftl (Z.shiftr x 24) 24))).
Proof.
  rewrite (split_byte x) at 1. f_equal. rewrite (split_byte (Z.shiftr x 8)) at 1.
  rewrite Z.shiftl_lxor. f_equal. rewrite Z.shiftr_shiftr, Z.shiftl_shiftl by lia. simpl (8 + 8).
  rewrite (split_byte (Z.shiftr x (8 + 8))) at 1. by rewrite Z.shiftl_lxor.
Qed.

Section StepFacts.
Context {P : Platform}.

Lemma STEP4_ok p w s o crc :
  bytes w -> zlen w = 4 -> o = zlen p -> in_u 32 crc ->
  STEP4 (p ++ w ++ s) o crc = Some (Z.lxor (le_dec w) (it 128 crc)).
Proof.
  intros Hb Hw Ho Hc. unfold STEP4, ReadUint32LE. rewrite DecodeFixed32_ok by done. cbn [mbind option_bind].
  assert (is_byte (Z.shiftr crc 24)).
  { unfold in_u, is_byte in *. rewrite Z.shiftr_div_pow2 by lia. pow2s. split; [apply Z.div_pos; lia|].
    apply Z.div_lt_upper_bound; lia. }
  rewrite stride_table3, stride_table2, stride_table1, stride_table0 by (done || apply land_255_byte).
  cbn [mbind option_bind]. f_equal. rewrite (split_word crc) at 5. rewrite !it_lxor. by rewrite !Z.lxor_assoc.
Qed.
End StepFacts.

Lemma add_lxor r c s : 0 <= s -> 0 <= r < 2 ^ s -> r + c * 2 ^ s = Z.lxor r (Z.shiftl c s).
Proof.
  intros Hs Hr. rewrite <- lor_shift by done. symmetry. apply Z.lxor_lor.
  apply Z.bits_inj'. intros i Hi. rewrite Z.land_spec, Z.bits_0. destruct (Z.lt_ge_cases i s).
  - by rewrite (Z.shiftl_spec_low c s i), andb_false_r by lia.
  - rewrite <- (Z.mod_small r (2 ^ s)), Z.mod_pow2_bits_high by lia. done.
Qed.

Lemma le_dec_byte a l : is_byte a -> le_dec (a :: l) = Z.lxor a (Z.shiftl (le_dec l) 8).
Proof. intros Ha. rewrite <- add_lxor by (done || lia). rewrite le_dec_cons. change (2 ^ 8) with 256. lia. Qed.

(** Bytes enter one at a time or as one word. *)
Lemma foldl_le l w rest :
  bytes w -> foldl rstep l (w ++ rest) = foldl rstep (it (8 * length w) (Z.lxor l (le_dec w))) rest.
Proof.
  intros Hw. revert l. induction Hw as [|b w Hb Hw IH]; intros l.
  { cbn [app length]. change (le_dec []) with 0. by rewrite Z.lxor_0_r. }
  cbn [app foldl length]. rewrite IH. f_equal. unfold rstep. rewrite le_dec_byte by done.
  replace (8 * S (length w))%nat with (8 + 8 * length w)%nat by lia. rewrite <- it_it. f_equal.
  rewrite <- (it_shiftl_0 8 (le_dec w)) at 1. change (Z.of_nat 8) with 8.
  rewrite <- it_lxor. f_equal. xor_bits.
Qed.

(** What the four strides stand for, when they are combined. *)
Definition combined (c : strides) : Z :=
  it 32 (Z.lxor (crc3 c) (it 32 (Z.lxor (crc2 c) (it 32 (Z.lxor (crc1 c) (it 32 (crc0 c))))))).

Lemma combined_sum c :
  combined c = Z.lxor (it 32 (crc3 c)) (Z.lxor (it 64 (crc2 c)) (Z.lxor (it 96 (crc1 c)) (it 128 (crc0 c)))).
Proof. unfold combined. rewrite !it_lxor, !it_it. done. Qed.

Definition strides_ok (c : strides) : Prop :=
  in_u 32 (crc0 c) /\ in_u 32 (crc1 c) /\ in_u 32 (crc2 c) /\ in_u 32 (crc3 c).

Lemma combined_swath c w0 w1 w2 w3 l rest :
  bytes w0 -> bytes w1 -> bytes w2 -> bytes w3 -> length w0 = 4%nat -> length w1 = 4%nat -> length w2 = 4%nat -> length w3 = 4%nat ->
  combined c = l ->
  foldl rstep l (w0 ++ w1 ++ w2 ++ w3 ++ rest) =
  foldl rstep (combined (mk_strides (Z.lxor (le_dec w0) (it 128 (crc0 c))) (Z.lxor (le_dec w1) (it 128 (crc1 c)))
                                    (Z.lxor (le_dec w2) (it 128 (crc2 c))) (Z.lxor (le_dec w3) (it 128 (crc3 c))))) rest.
Proof.
  intros B0 B1 B2 B3 L0 L1 L2 L3 <-. rewrite !foldl_le, L0, L1, L2, L3 by done. f_equal.
  rewrite !combined_sum. simpl Nat.mul. cbn [crc0 crc1 crc2 crc3]. rewrite !it_lxor, !it_it. simpl Nat.add. xor_bits.
Qed.

Lemma combined_word c w l rest :
  bytes w -> length w = 4%nat -> combined c = l ->
  foldl rstep l (w ++ rest) =
  foldl rstep (combined (mk_strides (crc1 c) (crc2 c) (crc3 c) (Z.lxor (le_dec w) (it 128 (crc0 c))))) rest.
Proof.
  intros Hb Hw <-. rewrite foldl_le, Hw by done. f_equal.
  rewrite !combined_sum. simpl Nat.mul. cbn [crc0 crc1 crc2 crc3]. rewrite !it_lxor, !it_it. simpl Nat.add. xor_bits.
Qed.

Lemma combined_start l w0 w1 w2 w3 rest :
  bytes w0 -> bytes w1 -> bytes w2 -> bytes w3 -> length w0 = 4%nat -> length w1 = 4%nat -> length w2 = 4%nat -> length w3 = 4%nat ->
  foldl rstep l (w0 ++ w1 ++ w2 ++ w3 ++ rest) =
  foldl rstep (combined (mk_strides (Z.lxor (le_dec w0) l) (le_dec w1) (le_dec w2) (le_dec w3))) rest.
Proof.
  intros B0 B1 B2 B3 L0 L1 L2 L3. rewrite !foldl_le, L0, L1, L2, L3 by done. f_equal.
  rewrite !combined_sum. simpl Nat.mul. cbn [crc0 crc1 crc2 crc3]. rewrite !it_lxor, !it_it. simpl Nat.add. xor_bits.
Qed.

(** ** The loops *)
Section LoopFacts.
Context {P : Platform}.

Lemma byte_loop_ok fuel p x s l q :
  bytes x -> (length x <= fuel)%nat -> q = zlen p + zlen x ->
  byte_loop fuel (p ++ x ++ s) l (zlen p) q = Some (foldl rstep l x, q).
Proof.
  intros Hx. revert fuel p l. induction Hx as [|b x Hb Hx IH]; intros fuel p l Hf Hq.
  { rewrite zlen_nil, Z.add_0_r in Hq. subst q. destruct fuel; cbn [byte_loop]; by rewrite Z.eqb_refl. }
  destruct fuel as [|fuel]; [simpl in Hf; lia|]. cbn [byte_loop]. pose proof (zlen_nonneg x).
  rewrite (proj2 (Z.eqb_neq _ _)) by (zlens; lia). cbn [app]. rewrite znth_middle. cbn [mbind option_bind].
  rewrite STEP1_ok by done. cbn [mbind option_bind foldl].
  pose proof (IH fuel (p ++ [b]) (rstep l b) ltac:(simpl in Hf; lia) ltac:(zlens; lia)) as E.
  rewrite <- app_assoc in E. cbn [app] in E. rewrite <- E. f_equal. zlens. lia.
Qed.

Lemma word_range w : bytes w -> length w = 4%nat -> in_u 32 (le_dec w).
Proof. intros Hb Hw. pose proof (le_dec_range w Hb) as H. unfold zlen in H. by rewrite Hw in H. Qed.

Lemma take_word (d : list Z) : bytes d -> 4 <= zlen d -> exists w d', d = w ++ d' /\ bytes w /\ bytes d' /\ length w = 4%nat.
Proof.
  intros Hb Hd. exists (take 4 d), (drop 4 d). rewrite take_drop. split_and!; [done|by apply Forall_take|by apply Forall_drop|].
  rewrite length_take. unfold zlen in Hd. lia.
Qed.

Lemma STEP4_at p w s o crc :
  bytes w -> length w = 4%nat -> o = zlen p -> in_u 32 crc ->
  STEP4 (p ++ w ++ s) o crc = Some (Z.lxor (le_dec w) (it 128 crc)) /\ in_u 32 (Z.lxor (le_dec w) (it 128 crc)).
Proof.
  intros Hb Hw Ho Hc. split; [apply STEP4_ok; try done; unfold zlen; lia|].
  apply lxor_range; [lia|by apply word_range|by apply it_range].
Qed.

Lemma STEP16_ok p w0 w1 w2 w3 s c :
  bytes w0 -> bytes w1 -> bytes w2 -> bytes w3 -> length w0 = 4%nat -> length w1 = 4%nat -> length w2 = 4%nat -> length w3 = 4%nat ->
  strides_ok c ->
  let c' := mk_strides (Z.lxor (le_dec w0) (it 128 (crc0 c))) (Z.lxor (le_dec w1) (it 128 (crc1 c)))
                       (Z.lxor (le_dec w2) (it 128 (crc2 c))) (Z.lxor (le_dec w3) (it 128 (crc3 c))) in
  STEP16 (p ++ w0 ++ w1 ++ w2 ++ w3 ++ s) (zlen p) c = Some c' /\ strides_ok c'.
Proof.
  intros B0 B1 B2 B3 L0 L1 L2 L3 (C0 & C1 & C2 & C3) c'. unfold STEP16.
  destruct (STEP4_at p w0 (w1 ++ w2 ++ w3 ++ s) (zlen p + 0 * 4) (crc0 c)) as [-> R0]; [done|done|lia|done|].
  cbn [mbind option_bind].
  destruct (STEP4_at (p ++ w0) w1 (w2 ++ w3 ++ s) (zlen p + 1 * 4) (crc1 c)) as [E1 R1];
    [done|done|zlens; unfold zlen at 3; rewrite L0; lia|done|].
  rewrite <- !app_assoc in E1. rewrite E1. cbn [mbind option_bind].
  destruct (STEP4_at (p ++ w0 ++ w1) w2 (w3 ++ s) (zlen p + 2 * 4) (crc2 c)) as [E2 R2];
    [done|done|zlens; unfold zlen at 3 4; rewrite L0, L1; lia|done|].
  rewrite <- !app_assoc in E2. rewrite E2. cbn [mbind option_bind].
  destruct (STEP4_at (p ++ w0 ++ w1 ++ w2) w3 s (zlen p + 3 * 4) (crc3 c)) as [E3 R3];
    [done|done|zlens; unfold zlen at 3 4 5; rewrite L0, L1, L2; lia|done|].
  rewrite <- !app_assoc in E3. rewrite E3. cbn [mbind option_bind]. done.
Qed.

Lemma take_swath (d : list Z) : bytes d -> 16 <= zlen d ->
  exists w0 w1 w2 w3 d', d = w0 ++ w1 ++ w2 ++ w3 ++ d' /\ bytes w0 /\ bytes w1 /\ bytes w2 /\ bytes w3 /\ bytes d' /\
    length w0 = 4%nat /\ length w1 = 4%nat /\ length w2 = 4%nat /\ length w3 = 4%nat.
Proof.
  intros Hb Hd. destruct (take_word d Hb ltac:(lia)) as (w0 & d0 & -> & B0 & Hb0 & L0).
  assert (12 <= zlen d0) by (rewrite zlen_app in Hd; unfold zlen in *; lia).
  destruct (take_word d0 Hb0 ltac:(lia)) as (w1 & d1 & -> & B1 & Hb1 & L1).
  assert (8 <= zlen d1) by (rewrite zlen_app in *; unfold zlen in *; lia).
  destruct (take_word d1 Hb1 ltac:(lia)) as (w2 & d2 & -> & B2 & Hb2 & L2).
  assert (4 <= zlen d2) by (rewrite zlen_app in *; unfold zlen in *; lia).
  destruct (take_word d2 Hb2 ltac:(lia)) as (w3 & d3 & -> & B3 & Hb3 & L3). by exists w0, w1, w2, w3, d3.
Qed.

Lemma swath_loop_ok fuel p d c :
  bytes d -> (length d <= fuel)%nat -> strides_ok c ->
  exists p' d' c', p ++ d = p' ++ d' /\ bytes d' /\ swath_loop fuel (p ++ d) c (zlen p) (zlen (p ++ d)) = Some (c', zlen p') /\
    strides_ok c' /\ foldl rstep (combined c) d = foldl rstep (combined c') d'.
Proof.
  revert p d c. induction fuel as [|fuel IH]; intros p d c Hb Hf Hc.
  { destruct d; [|simpl in Hf; lia]. exists p, [], c. split_and!; try done. cbn [swath_loop]. zlens. zb_true. done. }
  cbn [swath_loop]. destruct (Z.leb_spec 16 (zlen (p ++ d) - zlen p)) as [Hle|Hgt]; [|by exists p, d, c].
  destruct (take_swath d Hb) as (w0 & w1 & w2 & w3 & d' & -> & B0 & B1 & B2 & B3 & Hb' & L0 & L1 & L2 & L3); [zlens; lia|].
  destruct (STEP16_ok p w0 w1 w2 w3 d' c) as [E Hc']; try done. rewrite E. cbn [mbind option_bind].
  destruct (IH (p ++ w0 ++ w1 ++ w2 ++ w3) d' _ Hb' ltac:(rewrite !length_app in Hf; lia) Hc') as (p' & d2 & c' & H1 & H2 & H3 & H4 & H5).
  rewrite <- !app_assoc in *. exists p', d2, c'. split_and!; try done.
  - rewrite <- H3. f_equal. zlens. unfold zlen. lia.
  - erewrite combined_swath by done. exact H5.
Qed.

Lemma word_loop_ok fuel p d c :
  bytes d -> (length d <= fuel)%nat -> strides_ok c ->
  exists p' d' c', p ++ d = p' ++ d' /\ bytes d' /\ word_loop fuel (p ++ d) c (zlen p) (zlen (p ++ d)) = Some (c', zlen p') /\
    strides_ok c' /\ foldl rstep (combined c) d = foldl rstep (combined c') d'.
Proof.
  revert p d c. induction fuel as [|fuel IH]; intros p d c Hb Hf Hc.
  { destruct d; [|simpl in Hf; lia]. exists p, [], c. split_and!; try done. cbn [word_loop]. zlens. zb_true. done. }
  cbn [word_loop]. destruct (Z.leb_spec 4 (zlen (p ++ d) - zlen p)) as [Hle|Hgt]; [|by exists p, d, c].
  destruct (take_word d Hb) as (w & d' & -> & Bw & Hb' & Lw); [zlens; lia|]. destruct Hc as (C0 & C1 & C2 & C3).
  destruct (STEP4_at p w d' (zlen p) (crc0 c)) as [E R]; try done. rewrite E. cbn [mbind option_bind].
  destruct (IH (p ++ w) d' (mk_strides (crc1 c) (crc2 c) (crc3 c) (Z.lxor (le_dec w) (it 128 (crc0 c)))) Hb'
    ltac:(rewrite length_app in Hf; lia) ltac:(done)) as (p' & d2 & c' & H1 & H2 & H3 & H4 & H5).
  rewrite <- !app_assoc in *. exists p', d2, c'. split_and!; try done.
  - rewrite <- H3. f_equal. zlens. unfold zlen. lia.
  - erewrite combined_word by done. exact H5.
Qed.
End LoopFacts.

(** ** Theorems *)

Lemma RoundUp_ok addr : 0 <= addr -> addr + 3 < 2 ^ 64 -> 0 <= RoundUp addr - addr <= 3.
Proof.
  intros Ha Hb. unfold RoundUp.
  assert (u64 (addr + 3) = addr + 3) as -> by (apply wrap_id; unfold in_u; lia).
  change (u64 (Z.lnot 3)) with (2 ^ 64 - 4).
  assert (Z.land (addr + 3) (2 ^ 64 - 4) = (addr + 3) / 4 * 4) as ->.
  { change (2 ^ 64 - 4) with (Z.shiftl (Z.ones 62) 2). change 4 with (2 ^ 2) at 1 2.
    rewrite <- Z.shiftr_div_pow2, <- Z.shiftl_mul_pow2 by lia. apply Z.bits_inj'. intros i Hi. rewrite Z.land_spec.
    destruct (Z.lt_ge_cases i 2).
    { by rewrite !(Z.shiftl_spec_low _ 2 i), andb_false_r by lia. }
    rewrite !Z.shiftl_spec_high, Z.shiftr_spec by lia. replace (i - 2 + 2) with i by lia.
    destruct (Z.lt_ge_cases i 64); [by rewrite Z.ones_spec_low, andb_true_r by lia|].
    by rewrite (bits_above 64 (addr + 3) i) by (lia || (unfold in_u; lia)). }
  pose proof (Z.div_mod (addr + 3) 4 ltac:(lia)). pose proof (Z.mod_pos_bound (addr + 3) 4 ltac:(lia)). lia.
Qed.

Section ExtendFacts.
Context {P : Platform}.

Lemma rstep_range l buf : in_u 32 l -> bytes buf -> in_u 32 (foldl rstep l buf).
Proof.
  intros Hl Hb. revert l Hl. induction Hb as [|b buf Hb Hbuf IH]; intros l Hl; [done|]. simpl. apply IH.
  apply it_range, lxor_range; [lia|done|]. unfold in_u, is_byte in *. pow2s. lia.
Qed.

(** The strided part, from a position inside the buffer. *)
Lemma strided_ok p d l :
  bytes d -> in_u 32 l ->
  exists p' d' l', p ++ d = p' ++ d' /\ bytes d' /\ foldl rstep l d = foldl rstep l' d' /\
   (let buf := p ++ d in let e := zlen buf in
    if 16 <=? e - zlen p then
       w0 ← ReadUint32LE buf (zlen p + 0 * 4);
       w1 ← ReadUint32LE buf (zlen p + 1 * 4);
       w2 ← ReadUint32LE buf (zlen p + 2 * 4);
       w3 ← ReadUint32LE buf (zlen p + 3 * 4);
       '(c, p) ← swath_loop (length buf) buf (mk_strides (Z.lxor w0 l) w1 w2 w3) (zlen p + 16) e;
       '(c, p) ← word_loop (length buf) buf c p e;
       l ← STEP4W 0 (crc0 c);
       l ← STEP4W l (crc1 c);
       l ← STEP4W l (crc2 c);
       l ← STEP4W l (crc3 c);
       Some (l, p)
     else Some (l, zlen p)) = Some (l', zlen p').
Proof.
  intros Hb Hl. cbv zeta. destruct (Z.leb_spec 16 (zlen (p ++ d) - zlen p)) as [Hle|Hgt]; [|by exists p, d, l].
  destruct (take_swath d Hb) as (w0 & w1 & w2 & w3 & d1 & -> & B0 & B1 & B2 & B3 & Hb1 & L0 & L1 & L2 & L3); [zlens; lia|].
  assert (Z4 : forall w : list Z, length w = 4%nat -> zlen w = 4) by (intros w Hw; unfold zlen; lia).
  pose proof (Z4 _ L0) as Z0. pose proof (Z4 _ L1) as Z1. pose proof (Z4 _ L2) as Z2. pose proof (Z4 _ L3) as Z3.
  unfold ReadUint32LE. rewrite (DecodeFixed32_ok p w0 _ (zlen p + 0 * 4) B0 (Z4 _ L0) ltac:(lia)). cbn [mbind option_bind].
  pose proof (DecodeFixed32_ok (p ++ w0) w1 (w2 ++ w3 ++ d1) (zlen p + 1 * 4) B1 (Z4 _ L1)
    ltac:(zlens; rewrite (Z4 w0) by done; lia)) as E1.
  pose proof (DecodeFixed32_ok (p ++ w0 ++ w1) w2 (w3 ++ d1) (zlen p + 2 * 4) B2 (Z4 _ L2)
    ltac:(zlens; rewrite (Z4 w0), (Z4 w1) by done; lia)) as E2.
  pose proof (DecodeFixed32_ok (p ++ w0 ++ w1 ++ w2) w3 d1 (zlen p + 3 * 4) B3 (Z4 _ L3)
    ltac:(zlens; rewrite (Z4 w0), (Z4 w1), (Z4 w2) by done; lia)) as E3.
  rewrite <- !app_assoc in E1. rewrite <- !app_assoc in E2. rewrite <- !app_assoc in E3. rewrite E1. cbn [mbind option_bind]. rewrite E2. cbn [mbind option_bind].
  rewrite E3. cbn [mbind option_bind].
  set (c0 := mk_strides (Z.lxor (le_dec w0) l) (le_dec w1) (le_dec w2) (le_dec w3)).
  assert (Hc0 : strides_ok c0).
  { split_and!; simpl; try (by apply word_range). apply lxor_range; [lia|by apply word_range|done]. }
  destruct (swath_loop_ok (length (p ++ w0 ++ w1 ++ w2 ++ w3 ++ d1)) (p ++ w0 ++ w1 ++ w2 ++ w3) d1 c0 Hb1
    ltac:(rewrite !length_app; lia) Hc0) as (p2 & d2 & c2 & H1 & Hb2 & H2 & Hc2 & H3).
  rewrite <- !app_assoc in H1. rewrite <- !app_assoc in H2. rewrite !zlen_app in H2. rewrite Z0, Z1, Z2, Z3 in H2.
  replace (zlen p + (4 + (4 + (4 + 4)))) with (zlen p + 16) in H2 by lia. rewrite !zlen_app, Z0, Z1, Z2, Z3.
  rewrite H2. cbn [mbind option_bind].
  destruct (word_loop_ok (length (p ++ w0 ++ w1 ++ w2 ++ w3 ++ d1)) p2 d2 c2 Hb2
    ltac:(rewrite H1, length_app; lia) Hc2) as (p3 & d3 & c3 & H4 & Hb3 & H5 & Hc3 & H6).
  rewrite <- H1 in H5 at 1. rewrite <- H1 in H5. rewrite !zlen_app, Z0, Z1, Z2, Z3 in H5. rewrite H5. cbn [mbind option_bind].
  do 4 (rewrite STEP4W_ok; cbn [mbind option_bind]). rewrite Z.lxor_0_r.
  exists p3, d3, (combined c3). split_and!; [by rewrite H1, H4|exact Hb3| |unfold combined; reflexivity].
  rewrite combined_start by done. fold c0. by rewrite H3, H6.
Qed.

Lemma Extend_ok addr crc buf :
  bytes buf -> in_u 32 crc -> 0 <= addr -> addr + 3 < 2 ^ 64 -> Extend addr crc buf = Some (crc_ref crc buf).
Proof.
  intros Hb Hc Ha Ha'. unfold Extend. change CanAccelerateCRC32C with false. cbv iota zeta. unfold crc_ref.
  assert (Hl : in_u 32 (Z.lxor crc kCRC32Xor)) by (apply lxor_range; [lia|done|by vm_compute]).
  set (l := Z.lxor crc kCRC32Xor) in *. pose proof (RoundUp_ok addr Ha Ha') as Hx. set (x := RoundUp addr - addr) in *.
  assert (Hpre : exists p d, buf = p ++ d /\ bytes p /\ bytes d /\
    (if x <=? zlen buf then byte_loop (length buf) buf l 0 x else Some (l, 0)) = Some (foldl rstep l p, zlen p)).
  { destruct (Z.leb_spec x (zlen buf)) as [Hle|Hgt]; [|exists [], buf; split_and!; [done|constructor|done|done]].
    exists (take (Z.to_nat x) buf), (drop (Z.to_nat x) buf). rewrite take_drop.
    assert (zlen (take (Z.to_nat x) buf) = x) as Hz by (zlens; lia).
    split_and!; [done|by apply Forall_take|by apply Forall_drop|]. rewrite Hz.
    pose proof (byte_loop_ok (length buf) [] (take (Z.to_nat x) buf) (drop (Z.to_nat x) buf) l x) as E.
    cbn [app] in E. rewrite take_drop in E. apply E; [by apply Forall_take|rewrite length_take; lia|rewrite Hz, zlen_nil; lia]. }
  destruct Hpre as (p & d & Hbuf & Hbp & Hbd & ->). cbn [mbind option_bind]. subst buf.
  destruct (strided_ok p d (foldl rstep l p) Hbd (rstep_range _ _ Hl Hbp)) as (p' & d' & l' & H1 & Hb' & H2 & H3).
  cbv zeta in H3. rewrite H3. cbn [mbind option_bind].
  pose proof (byte_loop_ok (length (p ++ d)) p' d' [] l' (zlen (p ++ d)) Hb' ltac:(rewrite H1, length_app; lia)
    ltac:(by rewrite H1, zlen_app)) as E.
  rewrite app_nil_r, <- H1 in E. rewrite E. cbn [mbind option_bind]. by rewrite foldl_app, H2.
Qed.

Lemma crc_ref_range crc buf : in_u 32 crc -> bytes buf -> in_u 32 (crc_ref crc buf).
Proof.
  intros Hc Hb. apply lxor_range; [lia| |by vm_compute]. apply rstep_range; [|done].
  apply lxor_range; [lia|done|by vm_compute].
Qed.

Lemma crc_ref_app crc a b : crc_ref (crc_ref crc a) b = crc_ref crc (a ++ b).
Proof.
  unfold crc_ref. rewrite foldl_app. do 2 f_equal. rewrite Z.lxor_assoc, Z.lxor_nilpotent. apply Z.lxor_0_r.
Qed.
End ExtendFacts.

Lemma Unmask_Mask crc : in_u 32 crc -> Unmask (Mask crc) = crc.
Proof.
  intros Hc. unfold Unmask, Mask, in_u in *.
  assert (Hr : forall r c s, 0 <= s <= 32 -> 0 <= r < 2 ^ s -> Z.lor r (u32 (Z.shiftl c s)) = u32 (r + c * 2 ^ s)).
  { intros r c s Hs Hr. by apply lor_shift_wrap. }
  assert (Hd : 0 <= crc / 2 ^ 15 < 2 ^ 17) by (split; [apply Z.div_pos; lia|apply Z.div_lt_upper_bound; lia]).
  rewrite !Z.shiftr_div_pow2 by lia. rewrite (Hr (crc / 2 ^ 15)) by (lia || done).
  pose proof (Z.div_mod crc (2 ^ 15) ltac:(lia)) as Hdm. pose proof (Z.mod_pos_bound crc (2 ^ 15) ltac:(lia)).
  assert (u32 (crc / 2 ^ 15 + crc * 2 ^ 17) = crc / 2 ^ 15 + crc mod 2 ^ 15 * 2 ^ 17) as ->.
  { unfold u32, wrap. rewrite Hdm at 2. pow2s. symmetry. apply (Z.mod_unique _ _ (crc / 32768)); lia. }
  set (R := crc / 2 ^ 15 + crc mod 2 ^ 15 * 2 ^ 17) in *.
  assert (0 <= R < 2 ^ 32) as HR by (unfold R; pow2s; lia).
  assert (u32 (u32 (R + kMaskDelta) - kMaskDelta) = R) as ->.
  { unfold u32, wrap. rewrite Zminus_mod_idemp_l. replace (R + kMaskDelta - kMaskDelta) with R by lia. by apply Z.mod_small. }
  assert (R / 2 ^ 17 = crc mod 2 ^ 15 /\ R mod 2 ^ 17 = crc / 2 ^ 15) as [E1 E2].
  { unfold R. split; [rewrite Z.div_add, Z.div_small by lia; lia|rewrite Z.mod_add, Z.mod_small by lia; done]. }
  rewrite E1. rewrite Hr by (lia || done). unfold u32, wrap. pow2s.
  pose proof (Z.div_mod R 131072 ltac:(lia)). symmetry. apply (Z.mod_unique _ _ (R / 131072)); lia.
Qed.

(** C25: [Extend] computes the CRC-32C of the bytes, as defined bit by bit
    over the reflected polynomial 0x82f63b78: the byte loop up to the first
    aligned address, the four interleaved strides with their tables, the word
    loop and the byte tail together agree with one step per bit, wherever the
    buffer lies.  Extending by two pieces is extending by their concatenation,
    and unmasking a masked checksum gives it back. *)
Theorem crc32c_correct {P : Platform} addr addr' crc a b :
  bytes a -> bytes b -> in_u 32 crc -> 0 <= addr < 2 ^ 64 - 3 -> 0 <= addr' < 2 ^ 64 - 3 ->
  exists ca cab, Extend addr crc a = Some ca /\ ca = crc_ref crc a /\
    Extend addr' ca b = Some cab /\ cab = crc_ref crc (a ++ b) /\
    in_u 32 (Mask cab) /\ Unmask (Mask cab) = cab.
Proof.
  intros Ha Hb Hc Hd Hd'. pose proof (crc_ref_range crc a Hc Ha) as R.
  exists (crc_ref crc a), (crc_ref crc (a ++ b)). split_and!; try done.
  - apply Extend_ok; done || lia.
  - rewrite <- crc_ref_app. apply Extend_ok; done || lia.
  - by apply (wrap_range 32).
  - apply Unmask_Mask, crc_ref_range; [done|by apply Forall_app].
Qed.

Lemma crc32c_correct_witness :
  exists ca cab, Extend (P:=be_host) 4097 0 (codes "123456789 a longer prefix") = Some ca /\
    ca = crc_ref 0 (codes "123456789 a longer prefix") /\
    Extend (P:=be_host) 16 ca (codes "123456789") = Some cab /\
    cab = crc_ref 0 (codes "123456789 a longer prefix" ++ codes "123456789") /\
    in_u 32 (Mask cab) /\ Unmask (Mask cab) = cab.
Proof.
  apply (crc32c_correct (P:=be_host) 4097 16 0 (codes "123456789 a longer prefix") (codes "123456789"));
    repeat constructor; by vm_compute.
Defined.
