(* ===== verification/LdbLog.v ===== *)
(** * leveldb: db/log_writer.cc, db/log_reader.cc and db/log_format.h

    The write-ahead log: records cut into fragments that never cross a block
    of 32768 bytes, each with a checksum, a length and a type.  Files are
    interfaces ([WritableFile], [SequentialFile] of include/leveldb/env.h);
    [mem_file] is the file kept in memory.  [None] is a failed [assert] or an
    access outside a buffer. *)

From Stdlib Require Import ZArith Lia Bool String.
From stdpp Require Import base option list numbers pretty.
From S2P Require Import Prelude Endian LdbCoding LdbCrc32c.
Open Scope Z_scope.

(** ** log_format.h *)
Inductive RecordType := kZeroType | kFullType | kFirstType | kMiddleType | kLastType.
Definition type_code (t : RecordType) : Z :=
  match t with kZeroType => 0 | kFullType => 1 | kFirstType => 2 | kMiddleType => 3 | kLastType => 4 end.
Definition kMaxRecordType : Z := type_code kLastType.
Definition kBlockSize : Z := 32768.
Definition kHeaderSize : Z := 4 + 2 + 1.

(** ** Files *)
Class WritableFile (F : Type) := {
  wf_Append : F -> list Z -> F * Status;
  wf_Flush : F -> F * Status
}.
Class SequentialFile (F : Type) := {
  sf_Read : F -> Z -> F * list Z * Status;
  sf_Skip : F -> Z -> F * Status
}.

(** A file in memory: its bytes, all of them or those that remain. *)
Definition mem_file := list Z.
#[export] Instance mem_writable : WritableFile mem_file := {|
  wf_Append := fun f x => (f ++ x, OK);
  wf_Flush := fun f => (f, OK)
|}.
#[export] Instance mem_sequential : SequentialFile mem_file := {|
  sf_Read := fun f n => (drop (Z.to_nat n) f, take (Z.to_nat n) f, OK);
  sf_Skip := fun f n => if n <=? zlen f then (drop (Z.to_nat n) f, OK) else (f, IOError "seek")
|}.

Section Log.
Context {P : Platform} {F : Type}.

(** ** Writer *)
Record Writer := mk_writer { dest_ : F; block_offset_ : Z; type_crc_ : list Z }.

(** [t_addr] is the address of the local [t]. *)
Fixpoint InitTypeCrc_loop (t_addr : Z) (n : nat) (i : Z) : option (list Z) :=
  match n with
  | O => Some []
  | S n => c ← Value t_addr [u8 i]; l ← InitTypeCrc_loop t_addr n (i + 1); Some (c :: l)
  end.
Definition InitTypeCrc (t_addr : Z) : option (list Z) :=
  InitTypeCrc_loop t_addr (Z.to_nat (kMaxRecordType + 1)) 0.

Definition new_Writer (t_addr : Z) (dest : F) : option Writer :=
  t ← InitTypeCrc t_addr; Some (mk_writer dest 0 t).
Definition new_Writer_at (t_addr : Z) (dest : F) (dest_length : Z) : option Writer :=
  t ← InitTypeCrc t_addr; Some (mk_writer dest (dest_length mod kBlockSize) t).

(** [ptr] is an address: the payload is the [n] bytes [data] there. *)
Definition EmitPhysicalRecord `{WritableFile F} (w : Writer) (t : RecordType) (ptr : Z) (data : list Z) : option (Writer * Status) :=
  let n := zlen data in
  if negb (n <=? 65535) then None
  else if negb (block_offset_ w + kHeaderSize + n <=? kBlockSize) then None
  else
    let buf := char_buf (Z.to_nat kHeaderSize) in
    buf ← zset buf 4 (Z.land n 255);
    buf ← zset buf 5 (u8 (Z.shiftr n 8));
    buf ← zset buf 6 (type_code t);
    tc ← znth (type_crc_ w) (type_code t);
    crc ← Extend ptr tc data;
    buf ← EncodeFixed32 buf 0 (Mask crc);
    let '(f, s) := wf_Append (dest_ w) buf in
    let '(f, s) :=
      if ok s then
        let '(f, s) := wf_Append f data in
        if ok s then wf_Flush f else (f, s)
      else (f, s) in
    Some (mk_writer f (block_offset_ w + (kHeaderSize + n)) (type_crc_ w), s).

(** The switch to a new block when fewer than 7 bytes are left. *)
Definition fill_trailer `{WritableFile F} (w : Writer) : option Writer :=
  let leftover := kBlockSize - block_offset_ w in
  if negb (0 <=? leftover) then None
  else if leftover <? kHeaderSize then
    let f := if 0 <? leftover then (wf_Append (dest_ w) (replicate (Z.to_nat leftover) 0)).1 else dest_ w in
    Some (mk_writer f 0 (type_crc_ w))
  else Some w.

Definition fragment_type (begin end_ : bool) : RecordType :=
  if begin && end_ then kFullType
  else if begin then kFirstType
  else if end_ then kLastType
  else kMiddleType.

(** The do-while loop; [left] is what remains of the slice, at [ptr]. *)
Fixpoint AddRecord_loop `{WritableFile F} (fuel : nat) (w : Writer) (ptr : Z) (left : list Z) (begin : bool)
    : option (Writer * Status) :=
  match fuel with
  | O => None
  | S fuel =>
      w ← fill_trailer w;
      if negb (0 <=? kBlockSize - block_offset_ w - kHeaderSize) then None
      else
        let avail := kBlockSize - block_offset_ w - kHeaderSize in
        let fragment_length := if zlen left <? avail then zlen left else avail in
        let end_ := zlen left =? fragment_length in
        let type := fragment_type begin end_ in
        '(w, s) ← EmitPhysicalRecord w type ptr (take (Z.to_nat fragment_length) left);
        let left := drop (Z.to_nat fragment_length) left in
        if ok s && (0 <? zlen left) then AddRecord_loop fuel w (ptr + fragment_length) left false
        else Some (w, s)
  end.
Definition AddRecord `{WritableFile F} (w : Writer) (ptr : Z) (slice : list Z) : option (Writer * Status) :=
  AddRecord_loop (length slice + 2) w ptr slice true.

(** ** Reader *)

(** [buffer_] is the bytes of the slice and their address; [reports_] is what
    the reporter has been told, in order, when there is one. *)
Record Reader := mk_reader {
  file_ : F;
  has_reporter_ : bool;
  checksum_ : bool;
  backing_store_ : Z;
  buffer_ : list Z;
  buffer_addr_ : Z;
  eof_ : bool;
  last_record_offset_ : Z;
  end_of_buffer_offset_ : Z;
  initial_offset_ : Z;
  resyncing_ : bool;
  reports_ : list (Z * Status)
}.

Definition new_Reader (file : F) (reporter checksum : bool) (backing initial_offset : Z) : Reader :=
  mk_reader file reporter checksum backing [] 0 false 0 0 initial_offset (0 <? initial_offset) [].

Definition set_buffer (r : Reader) (buf : list Z) (addr : Z) : Reader :=
  mk_reader (file_ r) (has_reporter_ r) (checksum_ r) (backing_store_ r) buf addr (eof_ r)
    (last_record_offset_ r) (end_of_buffer_offset_ r) (initial_offset_ r) (resyncing_ r) (reports_ r).
Definition clear_buffer (r : Reader) : Reader := set_buffer r [] 0.
Definition set_file (r : Reader) (f : F) (eob : Z) : Reader :=
  mk_reader f (has_reporter_ r) (checksum_ r) (backing_store_ r) (buffer_ r) (buffer_addr_ r) (eof_ r)
    (last_record_offset_ r) eob (initial_offset_ r) (resyncing_ r) (reports_ r).
Definition set_eof (r : Reader) : Reader :=
  mk_reader (file_ r) (has_reporter_ r) (checksum_ r) (backing_store_ r) (buffer_ r) (buffer_addr_ r) true
    (last_record_offset_ r) (end_of_buffer_offset_ r) (initial_offset_ r) (resyncing_ r) (reports_ r).
Definition set_last (r : Reader) (o : Z) : Reader :=
  mk_reader (file_ r) (has_reporter_ r) (checksum_ r) (backing_store_ r) (buffer_ r) (buffer_addr_ r) (eof_ r)
    o (end_of_buffer_offset_ r) (initial_offset_ r) (resyncing_ r) (reports_ r).
Definition set_resyncing (r : Reader) (b : bool) : Reader :=
  mk_reader (file_ r) (has_reporter_ r) (checksum_ r) (backing_store_ r) (buffer_ r) (buffer_addr_ r) (eof_ r)
    (last_record_offset_ r) (end_of_buffer_offset_ r) (initial_offset_ r) b (reports_ r).

Definition ReportDrop (r : Reader) (bytes : Z) (reason : Status) : Reader :=
  if has_reporter_ r && (initial_offset_ r <=? u64 (end_of_buffer_offset_ r - zlen (buffer_ r) - bytes)) then
    mk_reader (file_ r) (has_reporter_ r) (checksum_ r) (backing_store_ r) (buffer_ r) (buffer_addr_ r) (eof_ r)
      (last_record_offset_ r) (end_of_buffer_offset_ r) (initial_offset_ r) (resyncing_ r) (reports_ r ++ [(bytes, reason)])
  else r.
Definition ReportCorruption (r : Reader) (bytes : Z) (reason : string) : Reader :=
  ReportDrop r bytes (Corruption reason).

(** What [ReadPhysicalRecord] returns: a type as stored, or a special value. *)
Definition kEof : Z := kMaxRecordType + 1.
Definition kBadRecord : Z := kMaxRecordType + 2.

Definition SkipToInitialBlock `{SequentialFile F} (r : Reader) : Reader * bool :=
  let offset_in_block := initial_offset_ r mod kBlockSize in
  let block_start_location := u64 (initial_offset_ r - offset_in_block) in
  let block_start_location :=
    if kBlockSize - 6 <? offset_in_block then u64 (block_start_location + kBlockSize) else block_start_location in
  let r := set_file r (file_ r) block_start_location in
  if 0 <? block_start_location then
    let '(f, s) := sf_Skip (file_ r) block_start_location in
    let r := set_file r f (end_of_buffer_offset_ r) in
    if negb (ok s) then (ReportDrop r block_start_location s, false) else (r, true)
  else (r, true).

(** The parse of the record at the front of the buffer: the reader, the type
    and the fragment, which is [None] when [*result] is left as it was. *)
Definition parse_record (r : Reader) : option (Reader * Z * option (list Z)) :=
  let header := buffer_ r in
  a ← znth header 4;
  b ← znth header 5;
  ty ← znth header 6;
  let type := u32 (i8 ty) in
  let length := Z.lor a (Z.shiftl b 8) in
  if zlen (buffer_ r) <? kHeaderSize + length then
    let drop_size := zlen (buffer_ r) in
    let r := clear_buffer r in
    if negb (eof_ r) then Some (ReportCorruption r drop_size "bad record length", kBadRecord, None)
    else Some (r, kEof, None)
  else if (type =? type_code kZeroType) && (length =? 0) then Some (clear_buffer r, kBadRecord, None)
  else
    mismatch ← (if checksum_ r then
                  m ← DecodeFixed32 header 0;
                  let expected_crc := Unmask m in
                  payload ← rd header 6 (1 + length);
                  actual_crc ← Value (buffer_addr_ r + 6) payload;
                  Some (negb (actual_crc =? expected_crc))
                else Some false);
    if (mismatch : bool) then
      let drop_size := zlen (buffer_ r) in
      Some (ReportCorruption (clear_buffer r) drop_size "checksum mismatch", kBadRecord, None)
    else
      rest ← remove_prefix (buffer_ r) (kHeaderSize + length);
      let r := set_buffer r rest (buffer_addr_ r + (kHeaderSize + length)) in
      if u64 (end_of_buffer_offset_ r - zlen (buffer_ r) - kHeaderSize - length) <? initial_offset_ r
      then Some (r, kBadRecord, Some [])
      else result ← rd header kHeaderSize length; Some (r, type, Some result).

Fixpoint ReadPhysicalRecord `{SequentialFile F} (fuel : nat) (r : Reader) : option (Reader * Z * option (list Z)) :=
  match fuel with
  | O => None
  | S fuel =>
      if zlen (buffer_ r) <? kHeaderSize then
        if negb (eof_ r) then
          let '(f, data, status) := sf_Read (file_ r) kBlockSize in
          let r := set_buffer r data (backing_store_ r) in
          let r := set_file r f (u64 (end_of_buffer_offset_ r + zlen data)) in
          if negb (ok status) then
            let r := clear_buffer r in
            let r := ReportDrop r kBlockSize status in
            Some (set_eof r, kEof, None)
          else
            let r := if zlen (buffer_ r) <? kBlockSize then set_eof r else r in
            ReadPhysicalRecord fuel r
        else Some (clear_buffer r, kEof, None)
      else parse_record r
  end.

(** The loop of [ReadRecord]; the result is the reader, the scratch string and
    the record when the call returns true.  [fragment] is the local that a
    failed read leaves unchanged. *)
Fixpoint ReadRecord_loop `{SequentialFile F} (fuel : nat) (r : Reader) (scratch : list Z) (in_fragmented_record : bool)
    (prospective : Z) (fragment : list Z) : option (Reader * list Z * option (list Z)) :=
  match fuel with
  | O => None
  | S fuel =>
      '(r, record_type, res) ← ReadPhysicalRecord 3 r;
      let fragment := match res with Some x => x | None => fragment end in
      let physical_record_offset :=
        u64 (end_of_buffer_offset_ r - zlen (buffer_ r) - kHeaderSize - zlen fragment) in
      if resyncing_ r && (record_type =? type_code kMiddleType) then
        ReadRecord_loop fuel r scratch in_fragmented_record prospective fragment
      else if resyncing_ r && (record_type =? type_code kLastType) then
        ReadRecord_loop fuel (set_resyncing r false) scratch in_fragmented_record prospective fragment
      else
        let r := if resyncing_ r then set_resyncing r false else r in
        if record_type =? type_code kFullType then
          let r := if in_fragmented_record && negb (zlen scratch =? 0)
                   then ReportCorruption r (zlen scratch) "partial record without end(1)" else r in
          Some (set_last r physical_record_offset, [], Some fragment)
        else if record_type =? type_code kFirstType then
          let r := if in_fragmented_record && negb (zlen scratch =? 0)
                   then ReportCorruption r (zlen scratch) "partial record without end(2)" else r in
          ReadRecord_loop fuel r fragment true physical_record_offset fragment
        else if record_type =? type_code kMiddleType then
          if negb in_fragmented_record then
            ReadRecord_loop fuel (ReportCorruption r (zlen fragment) "missing start of fragmented record(1)")
              scratch in_fragmented_record prospective fragment
          else ReadRecord_loop fuel r (scratch ++ fragment) in_fragmented_record prospective fragment
        else if record_type =? type_code kLastType then
          if negb in_fragmented_record then
            ReadRecord_loop fuel (ReportCorruption r (zlen fragment) "missing start of fragmented record(2)")
              scratch in_fragmented_record prospective fragment
          else
            let scratch := scratch ++ fragment in
            Some (set_last r prospective, scratch, Some scratch)
        else if record_type =? kEof then
          Some (r, if in_fragmented_record then [] else scratch, None)
        else if record_type =? kBadRecord then
          if in_fragmented_record then
            ReadRecord_loop fuel (ReportCorruption r (zlen scratch) "error in middle of record") [] false prospective fragment
          else ReadRecord_loop fuel r scratch in_fragmented_record prospective fragment
        else
          ReadRecord_loop fuel
            (ReportCorruption r (zlen fragment + (if in_fragmented_record then zlen scratch else 0))
               (String.append "unknown record type " (pretty (Z.to_N record_type))))
            [] false prospective fragment
  end.

Definition ReadRecord `{SequentialFile F} (fuel : nat) (r : Reader) : option (Reader * option (list Z)) :=
  let '(r, go) := if last_record_offset_ r <? initial_offset_ r then SkipToInitialBlock r else (r, true) in
  if negb go then Some (r, None)
  else '(r, _, res) ← ReadRecord_loop fuel r [] false 0 []; Some (r, res).
Definition LastRecordOffset (r : Reader) : Z := last_record_offset_ r.
End Log.
Arguments Writer : clear implicits.
Arguments Reader : clear implicits.

(** ** The stream of physical records *)

Definition frag := (RecordType * list Z)%type.

Definition phys (t : RecordType) (d : list Z) : list Z :=
  le_enc 4 (Mask (crc_ref 0 (type_code t :: d))) ++ [zlen d mod 256; zlen d / 256; type_code t] ++ d.

(** Where a record goes when the block is filled up to [o], and the zeros
    before it. *)
Definition start (o : Z) : Z := if kBlockSize - o <? kHeaderSize then 0 else o.
Definition pad (o : Z) : list Z := if kBlockSize - o <? kHeaderSize then replicate (Z.to_nat (kBlockSize - o)) 0 else [].

Fixpoint stream (o : Z) (fs : list frag) : list Z :=
  match fs with
  | [] => []
  | (t, d) :: fs => pad o ++ phys t d ++ stream (start o + (kHeaderSize + zlen d)) fs
  end.
Fixpoint stream_end (o : Z) (fs : list frag) : Z :=
  match fs with [] => o | (t, d) :: fs => stream_end (start o + (kHeaderSize + zlen d)) fs end.
(** Every fragment is in one block. *)
Fixpoint fits (o : Z) (fs : list frag) : Prop :=
  match fs with
  | [] => True
  | (t, d) :: fs => start o + (kHeaderSize + zlen d) <= kBlockSize /\ bytes d /\ t <> kZeroType /\ fits (start o + (kHeaderSize + zlen d)) fs
  end.

(** The fragments of a record. *)
Inductive tail_frags : list frag -> list Z -> Prop :=
  | tf_last d : tail_frags [(kLastType, d)] d
  | tf_middle d fs r : tail_frags fs r -> tail_frags ((kMiddleType, d) :: fs) (d ++ r).
Inductive rec_frags : list frag -> list Z -> Prop :=
  | rf_full r : rec_frags [(kFullType, r)] r
  | rf_first d fs r : tail_frags fs r -> rec_frags ((kFirstType, d) :: fs) (d ++ r).

Lemma stream_app o fs gs : stream o (fs ++ gs) = stream o fs ++ stream (stream_end o fs) gs.
Proof.
  revert o. induction fs as [|[t d] fs IH]; intros o; [done|]. cbn [app stream stream_end]. by rewrite IH, <- !app_assoc.
Qed.
Lemma stream_end_app o fs gs : stream_end o (fs ++ gs) = stream_end (stream_end o fs) gs.
Proof. revert o. induction fs as [|[t d] fs IH]; intros o; [done|]. apply IH. Qed.
Lemma fits_app o fs gs : fits o (fs ++ gs) <-> fits o fs /\ fits (stream_end o fs) gs.
Proof.
  revert o. induction fs as [|[t d] fs IH]; intros o; [by simpl; tauto|]. cbn [app fits stream_end]. rewrite IH. tauto.
Qed.

Definition off_ok (o : Z) : Prop := 0 <= o <= kBlockSize.

Lemma start_range o : off_ok o -> 0 <= start o <= kBlockSize - kHeaderSize.
Proof. unfold off_ok, start, kBlockSize, kHeaderSize. intros. destruct (Z.ltb_spec (32768 - o) (4 + 2 + 1)); lia. Qed.

Lemma stream_end_range o fs : off_ok o -> fits o fs -> off_ok (stream_end o fs).
Proof.
  revert o. induction fs as [|[t d] fs IH]; intros o Ho; [done|]. cbn [fits stream_end]. intros (Hf & _ & _ & Hfs).
  apply IH; [|done]. pose proof (start_range o Ho). pose proof (zlen_nonneg d). unfold off_ok, kHeaderSize in *. lia.
Qed.

Section WriterFacts.
Context {P : Platform}.

Definition type_crcs : list Z := map (fun i => crc_ref 0 [i]) [0; 1; 2; 3; 4].

(** Buffers lie where the code can round their address up. *)
Definition addr_ok (a n : Z) : Prop := 0 <= a /\ a + n < 2 ^ 64 - 3.

Lemma InitTypeCrc_ok a : addr_ok a 0 -> InitTypeCrc a = Some type_crcs.
Proof.
  intros [Ha Ha']. unfold InitTypeCrc, Value. change (Z.to_nat (kMaxRecordType + 1)) with 5%nat. cbn [InitTypeCrc_loop].
  unfold Value. rewrite !Extend_ok by (lia || (by vm_compute) || (repeat constructor; by vm_compute)). reflexivity.
Qed.

Lemma type_crc_ok t : znth type_crcs (type_code t) = Some (crc_ref 0 [type_code t]).
Proof. by destruct t. Qed.

Lemma type_code_byte t : is_byte (type_code t).
Proof. by destruct t; vm_compute. Qed.

Lemma zlen_phys t d : zlen (phys t d) = kHeaderSize + zlen d.
Proof. unfold phys, kHeaderSize. zlens. lia. Qed.

Lemma EmitPhysicalRecord_ok (f : mem_file) o t ptr d :
  off_ok o -> o + (kHeaderSize + zlen d) <= kBlockSize -> bytes d -> addr_ok ptr (zlen d) ->
  EmitPhysicalRecord (mk_writer f o type_crcs) t ptr d =
  Some (mk_writer (f ++ phys t d) (o + (kHeaderSize + zlen d)) type_crcs, OK).
Proof.
  intros Ho Hfit Hb [Ha Ha']. pose proof (zlen_nonneg d) as Hd. unfold EmitPhysicalRecord. cbn [block_offset_ dest_ type_crc_].
  unfold off_ok, kBlockSize, kHeaderSize in *. rewrite (proj2 (Z.leb_le (zlen d) 65535)) by lia.
  rewrite (proj2 (Z.leb_le (o + (4 + 2 + 1) + zlen d) 32768)) by lia. simpl negb. cbv iota zeta.
  change (Z.to_nat (4 + 2 + 1)) with 7%nat.
  pose proof (zlen_char_buf 7) as Hbuf. change (Z.of_nat 7) with 7 in Hbuf. set (buf := char_buf 7) in *. clearbody buf.
  change 7 with (Z.of_nat 7) in Hbuf. explode buf Hbuf.
  change (zset [_; _; _; _; _; _; _] 4 (Z.land (zlen d) 255)) with (Some [z; z0; z1; z2; Z.land (zlen d) 255; z4; z5]).
  cbn [mbind option_bind].
  change (zset [_; _; _; _; _; _; _] 5 (u8 (Z.shiftr (zlen d) 8))) with (Some [z; z0; z1; z2; Z.land (zlen d) 255; u8 (Z.shiftr (zlen d) 8); z5]).
  cbn [mbind option_bind].
  change (zset [_; _; _; _; _; _; _] 6 (type_code t)) with (Some [z; z0; z1; z2; Z.land (zlen d) 255; u8 (Z.shiftr (zlen d) 8); type_code t]).
  cbn [mbind option_bind]. rewrite type_crc_ok. cbn [mbind option_bind].
  assert (bytes [type_code t]) by (constructor; [apply type_code_byte|constructor]).
  rewrite Extend_ok by (done || lia || (apply crc_ref_range; [by vm_compute|done])). cbn [mbind option_bind].
  rewrite crc_ref_app. cbn [app].
  rewrite EncodeFixed32_ok by (by vm_compute).
  pose proof (wr_front (le_enc 4 (Mask (crc_ref 0 (type_code t :: d)))) [z; z0; z1; z2]
    [Z.land (zlen d) 255; u8 (Z.shiftr (zlen d) 8); type_code t] ltac:(by zlens)) as Hw.
  cbn [app] in Hw. rewrite Hw. cbn [mbind option_bind]. cbn. do 3 f_equal.
  rewrite <- !app_assoc. unfold phys. f_equal. f_equal. cbn [app].
  rewrite land_255, Z.shiftr_div_pow2 by lia. unfold u8. rewrite wrap_id; [done|].
  unfold in_u. pow2s. split; [apply Z.div_pos; lia|apply Z.div_lt_upper_bound; lia].
Qed.

Lemma fill_trailer_ok (f : mem_file) o :
  off_ok o -> fill_trailer (mk_writer f o type_crcs) = Some (mk_writer (f ++ pad o) (start o) type_crcs).
Proof.
  intros Ho. unfold fill_trailer, pad, start. cbn [block_offset_ dest_ type_crc_]. unfold off_ok in Ho.
  rewrite (proj2 (Z.leb_le 0 (kBlockSize - o))) by lia. simpl negb. cbv iota zeta.
  destruct (kBlockSize - o <? kHeaderSize); [|by rewrite app_nil_r].
  destruct (Z.ltb_spec 0 (kBlockSize - o)); [done|]. replace (kBlockSize - o) with 0 by lia. by rewrite app_nil_r.
Qed.

(** The shape of what is emitted for the rest of a record. *)
Definition shape (begin : bool) (fs : list frag) (r : list Z) : Prop :=
  if begin then rec_frags fs r else tail_frags fs r.

Lemma shape_end begin r : shape begin [(fragment_type begin true, r)] r.
Proof. destruct begin; constructor. Qed.
Lemma shape_more begin d fs r : tail_frags fs r -> shape begin ((fragment_type begin false, d) :: fs) (d ++ r).
Proof. destruct begin; by constructor. Qed.

Lemma AddRecord_loop_ok fuel (f : mem_file) o ptr r begin :
  off_ok o -> bytes r -> addr_ok ptr (zlen r) ->
  (length r + (if (start o =? kBlockSize - kHeaderSize)%Z then 2 else 1) <= fuel)%nat ->
  exists fs, AddRecord_loop fuel (mk_writer f o type_crcs) ptr r begin =
      Some (mk_writer (f ++ stream o fs) (stream_end o fs) type_crcs, OK) /\
    fits o fs /\ shape begin fs r.
Proof.
  revert f o ptr r begin. induction fuel as [|fuel IH]; intros f o ptr r begin Ho Hb Ha Hf; [destruct (_ =? _); lia|].
  cbn [AddRecord_loop]. rewrite fill_trailer_ok by done. cbn [mbind option_bind block_offset_].
  pose proof (start_range o Ho) as Hs. rewrite (proj2 (Z.leb_le 0 _)) by lia. simpl negb. cbv iota zeta.
  set (avail := kBlockSize - start o - kHeaderSize). set (n := if zlen r <? avail then zlen r else avail).
  pose proof (zlen_nonneg r). assert (Hn : 0 <= n <= zlen r /\ n <= avail).
  { unfold n. destruct (Z.ltb_spec (zlen r) avail); unfold avail in *; lia. }
  assert (Hzt : zlen (take (Z.to_nat n) r) = n) by (zlens; lia).
  destruct Ha as [Ha Ha'].
  rewrite EmitPhysicalRecord_ok; [|unfold off_ok, kHeaderSize in *; lia|rewrite Hzt; unfold avail in *; lia|by apply Forall_take|split; lia].
  cbn [mbind option_bind ok]. rewrite Hzt, <- app_assoc.
  destruct (Z.eqb_spec (zlen r) n) as [E|E].
  - assert (drop (Z.to_nat n) r = []) as -> by (apply drop_ge; unfold zlen in *; lia).
    assert (take (Z.to_nat n) r = r) as -> by (apply take_ge; unfold zlen in *; lia).
    change (0 <? zlen (@nil Z)) with false. simpl andb. cbv iota. exists [(fragment_type begin true, r)].
    cbn [stream stream_end fits]. rewrite app_nil_r, E. split_and!; try done; [|by destruct begin|apply shape_end].
    unfold avail in Hn. lia.
  - assert (n = avail) as Hna by (unfold n in *; destruct (Z.ltb_spec (zlen r) avail); lia).
    rewrite (proj2 (Z.ltb_lt 0 (zlen (drop (Z.to_nat n) r)))) by (zlens; lia). simpl andb. cbv iota.
    replace (start o + (kHeaderSize + n)) with kBlockSize by (unfold avail in Hna; lia).
    destruct (IH (f ++ pad o ++ phys (fragment_type begin false) (take (Z.to_nat n) r)) kBlockSize (ptr + n) (drop (Z.to_nat n) r) false)
      as (fs & E1 & E2 & E3).
    { by vm_compute. } { by apply Forall_drop. } { split; [lia|zlens; lia]. }
    { change (start kBlockSize =? kBlockSize - kHeaderSize) with false. cbv iota. rewrite length_drop.
      destruct (Z.eqb_spec (start o) (kBlockSize - kHeaderSize)); unfold avail, zlen in *; lia. }
    exists ((fragment_type begin false, take (Z.to_nat n) r) :: fs). cbn [stream stream_end fits]. rewrite Hzt.
    replace (start o + (kHeaderSize + n)) with kBlockSize by (unfold avail in Hna; lia).
    split; [etrans; [exact E1|by rewrite <- !app_assoc]|].
    split_and!; try done; [by apply Forall_take|by destruct begin|].
    rewrite <- (take_drop (Z.to_nat n) r) at 2. by apply shape_more.
Qed.

Lemma AddRecord_ok (f : mem_file) o ptr r :
  off_ok o -> bytes r -> addr_ok ptr (zlen r) ->
  exists fs, AddRecord (mk_writer f o type_crcs) ptr r =
      Some (mk_writer (f ++ stream o fs) (stream_end o fs) type_crcs, OK) /\ fits o fs /\ rec_frags fs r.
Proof.
  intros Ho Hb Ha. apply (AddRecord_loop_ok (length r + 2) f o ptr r true); try done. destruct (_ =? _); lia.
Qed.
End WriterFacts.

(** ** Reading the stream back *)
Section ReaderFacts.
Context {P : Platform}.

(** The reader stands at block offset [o], with [rem] left to read: the rest
    of the block is in its buffer, as far as the file goes. *)
Record at_pos (r : Reader mem_file) (o : Z) (rem : list Z) : Prop := {
  ap_rem : buffer_ r ++ file_ r = rem;
  ap_len : zlen (buffer_ r) = Z.min (kBlockSize - o) (zlen rem);
  ap_eof : eof_ r = (zlen rem <? kBlockSize - o);
  ap_init : initial_offset_ r = 0;
  ap_last : 0 <= last_record_offset_ r;
  ap_sync : resyncing_ r = false;
  ap_reports : reports_ r = [];
  ap_store : addr_ok (backing_store_ r) kBlockSize;
  ap_addr : addr_ok (buffer_addr_ r) (zlen (buffer_ r))
}.
(** The reader has come to the end without a report. *)
Definition quiet (r : Reader mem_file) : Prop := reports_ r = [] /\ resyncing_ r = false.

Lemma at_pos_quiet r o rem : at_pos r o rem -> quiet r.
Proof. by intros []. Qed.

Lemma frag_length n : 0 <= n < 65536 -> Z.lor (n mod 256) (Z.shiftl (n / 256) 8) = n.
Proof.
  intros Hn. rewrite lor_shift by (lia || (apply Z.mod_pos_bound; lia)). change (2 ^ 8) with 256.
  pose proof (Z.div_mod n 256). lia.
Qed.

Lemma type_roundtrip t : u32 (i8 (type_code t)) = type_code t.
Proof. by destruct t. Qed.

(** The header of a physical record, whatever part of the payload follows. *)
Lemma header_fields t d y :
  let b := le_enc 4 (Mask (crc_ref 0 (type_code t :: d))) ++ [zlen d mod 256; zlen d / 256; type_code t] ++ y in
  znth b 4 = Some (zlen d mod 256) /\ znth b 5 = Some (zlen d / 256) /\ znth b 6 = Some (type_code t).
Proof.
  cbv zeta. set (h := le_enc 4 _). assert (Hh : zlen h = 4) by (unfold h; by zlens).
  change 4 with (Z.of_nat 4) in Hh. explode h Hh. done.
Qed.

Lemma phys_fields t d y :
  bytes d ->
  DecodeFixed32 (phys t d ++ y) 0 = Some (Mask (crc_ref 0 (type_code t :: d))) /\
  rd (phys t d ++ y) 6 (1 + zlen d) = Some (type_code t :: d) /\
  rd (phys t d ++ y) kHeaderSize (zlen d) = Some d /\
  remove_prefix (phys t d ++ y) (kHeaderSize + zlen d) = Some y.
Proof.
  intros Hb. set (c := Mask (crc_ref 0 (type_code t :: d))).
  assert (phys t d = (le_enc 4 c ++ [zlen d mod 256; zlen d / 256]) ++ type_code t :: d) as E1.
  { unfold phys. fold c. by rewrite <- app_assoc. }
  split_and!.
  - unfold phys. fold c. rewrite <- app_assoc. rewrite DecodeFixed32_front by (apply bytes_le_enc || by zlens).
    rewrite le_dec_enc, wrap_id by (by apply (wrap_range 32)). done.
  - rewrite E1, <- app_assoc. apply rd_seg; zlens; lia.
  - assert (phys t d = (le_enc 4 c ++ [zlen d mod 256; zlen d / 256; type_code t]) ++ d) as ->.
    { unfold phys. fold c. by rewrite <- app_assoc. }
    rewrite <- app_assoc. apply rd_seg; zlens; unfold kHeaderSize; lia.
  - apply remove_prefix_app. by rewrite zlen_phys.
Qed.

Lemma Value_ok a b : addr_ok a 0 -> bytes b -> Value a b = Some (crc_ref 0 b).
Proof. intros [Ha Ha'] Hb. apply Extend_ok; try done; lia. Qed.

(** A prefix of the buffer and the file is a prefix of the buffer. *)
Lemma buffer_prefix (b f x rest : list Z) :
  b ++ f = x ++ rest -> zlen x <= zlen b -> exists y, b = x ++ y /\ rest = y ++ f.
Proof.
  intros Hrem Hl. exists (drop (length x) b). assert (length x <= length b)%nat by (unfold zlen in *; lia).
  pose proof (take_app_length x rest) as Htk. rewrite <- Hrem, take_app_le in Htk by done.
  split; [rewrite <- Htk at 1; by rewrite take_drop|].
  apply (f_equal (drop (length x))) in Hrem. by rewrite drop_app_length, drop_app_le in Hrem by done.
Qed.

Lemma parse_whole r o t d rest :
  at_pos r o (phys t d ++ rest) -> 0 <= o -> o + (kHeaderSize + zlen d) <= kBlockSize -> bytes d -> t <> kZeroType ->
  exists r', parse_record r = Some (r', type_code t, Some d) /\ at_pos r' (o + (kHeaderSize + zlen d)) rest.
Proof.
  intros [Hrem Hlen Heof Hinit Hlast Hsync Hrep Hst Had] Ho Hfit Hb Ht. pose proof (zlen_nonneg d) as Hd. pose proof (zlen_nonneg rest) as Hrest.
  pose proof (zlen_phys t d) as Hp. rewrite zlen_app, Hp in Hlen, Heof.
  destruct (buffer_prefix _ _ _ _ Hrem) as (y & Hbuf & Hy); [rewrite Hp; lia|].
  destruct (phys_fields t d y Hb) as (F1 & F2 & F3 & F4). pose proof (zlen_nonneg y).
  assert (bytes (type_code t :: d)) as Hbt by (constructor; [apply type_code_byte|done]).
  rewrite Hbuf, zlen_app, Hp in Had, Hlen. unfold parse_record. rewrite Hbuf.
  pose proof (header_fields t d (d ++ y)) as (G1 & G2 & G3). unfold phys in G1, G2, G3 |- *.
  rewrite <- !app_assoc. rewrite G1, G2, G3. cbn [mbind option_bind]. cbv zeta.
  rewrite type_roundtrip, frag_length by (unfold kBlockSize, kHeaderSize in *; lia).
  replace (le_enc 4 (Mask (crc_ref 0 (type_code t :: d))) ++ [zlen d mod 256; zlen d / 256; type_code t] ++ d ++ y)
    with (phys t d ++ y) by (unfold phys; by rewrite <- !app_assoc).
  rewrite zlen_app, Hp, (proj2 (Z.ltb_ge _ _)) by lia.
  assert ((type_code t =? type_code kZeroType) = false) as -> by (by destruct t). simpl andb. cbv iota.
  rewrite F1, F2. cbn [mbind option_bind]. rewrite Value_ok by (done || (destruct Had; split; unfold kHeaderSize in *; lia)).
  cbn [mbind option_bind]. rewrite Unmask_Mask, Z.eqb_refl by (apply crc_ref_range; [by vm_compute|done]). simpl negb.
  assert ((if checksum_ r then Some false else Some false) = Some false) as -> by (by destruct (checksum_ r)).
  cbn [mbind option_bind]. cbv iota. rewrite F4. cbn [mbind option_bind].
  cbn [initial_offset_ set_buffer]. rewrite Hinit.
  rewrite (proj2 (Z.ltb_ge _ 0)) by (apply (wrap_range 64); lia). rewrite F3. cbn [mbind option_bind].
  eexists. split; [done|]. split; cbn; try done.
  - lia.
  - rewrite Heof. apply eq_true_iff_eq. rewrite !Z.ltb_lt. lia.
  - destruct Had as [A1 A2]. split; unfold kHeaderSize in *; lia.
Qed.

Lemma parse_cut r o t d n :
  at_pos r o (take n (phys t d)) -> 0 <= o -> o + (kHeaderSize + zlen d) <= kBlockSize -> kHeaderSize <= zlen (buffer_ r) ->
  zlen (take n (phys t d)) < kHeaderSize + zlen d ->
  exists r', parse_record r = Some (r', kEof, None) /\ quiet r'.
Proof.
  intros [Hrem Hlen Heof Hinit Hlast Hsync Hrep Hst Had] Ho Hfit Hbuf Hcut. pose proof (zlen_nonneg d) as Hd.
  set (c := Mask (crc_ref 0 (type_code t :: d))).
  set (h := le_enc 4 c ++ [zlen d mod 256; zlen d / 256; type_code t]).
  assert (Hh : zlen h = kHeaderSize) by (unfold h, kHeaderSize; zlens; lia).
  assert (phys t d = h ++ d) as E by (unfold phys, h; fold c; by rewrite <- app_assoc).
  assert (exists y, take n (phys t d) = h ++ y) as (y0 & Hy0).
  { rewrite E, take_app. exists (take (n - length h) d). f_equal. apply take_ge.
    rewrite Hlen in Hbuf. rewrite E in Hbuf. zlens. unfold zlen in *. lia. }
  rewrite Hy0 in *. destruct (buffer_prefix _ _ _ _ Hrem) as (y & Hb & Hy); [lia|].
  unfold parse_record. rewrite Hb. pose proof (header_fields t d y) as (G1 & G2 & G3). fold c in G1, G2, G3.
  unfold h. rewrite <- app_assoc. rewrite G1, G2, G3. cbn [mbind option_bind]. cbv zeta.
  rewrite frag_length by (unfold kBlockSize, kHeaderSize in *; lia).
  rewrite app_assoc. fold h. rewrite (proj2 (Z.ltb_lt _ _)) by (rewrite <- Hb; lia).
  cbn [eof_ clear_buffer set_buffer]. rewrite Heof, (proj2 (Z.ltb_lt _ _)) by lia. simpl negb. cbv iota.
  eexists. by split.
Qed.

Lemma length_phys t d : length (phys t d) = (7 + length d)%nat.
Proof. pose proof (zlen_phys t d) as H. unfold zlen, kHeaderSize in H. lia. Qed.

Lemma read_here k r o t d n rest :
  at_pos r o (take n (phys t d ++ rest)) -> 0 <= o -> o + (kHeaderSize + zlen d) <= kBlockSize -> bytes d -> t <> kZeroType ->
  if (7 + length d <=? n)%nat
  then exists r', ReadPhysicalRecord (S k) r = Some (r', type_code t, Some d) /\
         at_pos r' (o + (kHeaderSize + zlen d)) (take (n - (7 + length d)) rest)
  else exists r', ReadPhysicalRecord (S k) r = Some (r', kEof, None) /\ quiet r'.
Proof.
  intros Hat Ho Hfit Hb Ht. pose proof Hat as [_ Hlen Heof _ _ _ _ _ _]. cbn [ReadPhysicalRecord].
  pose proof (zlen_nonneg d). rewrite zlen_take, zlen_app, zlen_phys in Hlen, Heof. pose proof (zlen_nonneg rest).
  destruct (Z.ltb_spec (zlen (buffer_ r)) kHeaderSize) as [Hsm|Hbig].
  - rewrite Heof. rewrite (proj2 (Z.ltb_lt _ _)) by lia. simpl negb. cbv iota.
    destruct (Nat.leb_spec (7 + length d) n) as [Hn|Hn]; [exfalso; unfold zlen, kHeaderSize, kBlockSize in *; lia|].
    eexists. split; [done|]. by apply at_pos_quiet in Hat.
  - destruct (Nat.leb_spec (7 + length d) n) as [Hn|Hn].
    + rewrite take_app, (take_ge (phys t d)), length_phys in Hat by (rewrite length_phys; lia). by apply parse_whole.
    + rewrite take_app, length_phys in Hat. replace (n - (7 + length d))%nat with 0%nat in Hat by lia.
      rewrite take_0, app_nil_r in Hat. apply (parse_cut r o t d n); try done.
      zlens. rewrite zlen_phys. unfold zlen, kHeaderSize in *. lia.
Qed.

Lemma pad_length o : off_ok o -> zlen (pad o) = if kBlockSize - o <? kHeaderSize then kBlockSize - o else 0.
Proof. unfold off_ok, pad. intros. destruct (_ <? _); zlens; lia. Qed.

(** Reading the next block. *)
Definition next_block (r : Reader mem_file) : Reader mem_file :=
  let data := take (Z.to_nat kBlockSize) (file_ r) in
  let r1 := set_file (set_buffer r data (backing_store_ r)) (drop (Z.to_nat kBlockSize) (file_ r))
              (u64 (end_of_buffer_offset_ r + zlen data)) in
  if zlen data <? kBlockSize then set_eof r1 else r1.

Lemma next_block_ok r o rem : at_pos r o rem -> eof_ r = false -> at_pos (next_block r) 0 (file_ r).
Proof.
  intros [Hrem Hlen Heof Hinit Hlast Hsync Hrep Hst Had] Ee. unfold next_block. cbv zeta.
  pose proof (zlen_nonneg (file_ r)).
  assert (Hz : zlen (take (Z.to_nat kBlockSize) (file_ r)) = Z.min kBlockSize (zlen (file_ r))) by (zlens; unfold kBlockSize in *; lia).
  destruct Hst as [S1 S2]. destruct (Z.ltb_spec (zlen (take (Z.to_nat kBlockSize) (file_ r))) kBlockSize) as [Hs|Hs];
    split; cbn; rewrite ?Z.sub_0_r; try done; try (apply take_drop); try (split; unfold kBlockSize in *; lia).
  - symmetry. apply Z.ltb_lt. lia.
  - rewrite Ee. symmetry. apply Z.ltb_ge. lia.
Qed.

Lemma read_refill k (r : Reader mem_file) :
  zlen (buffer_ r) < kHeaderSize -> eof_ r = false -> ReadPhysicalRecord (S k) r = ReadPhysicalRecord k (next_block r).
Proof.
  intros Hb He. cbn [ReadPhysicalRecord]. rewrite (proj2 (Z.ltb_lt _ _) Hb), He. unfold next_block.
  generalize kBlockSize. intros n. reflexivity.
Qed.
Lemma read_eof k (r : Reader mem_file) :
  zlen (buffer_ r) < kHeaderSize -> eof_ r = true -> ReadPhysicalRecord (S k) r = Some (clear_buffer r, kEof, None).
Proof.
  intros Hb He. cbn [ReadPhysicalRecord]. rewrite (proj2 (Z.ltb_lt _ _) Hb), He. reflexivity.
Qed.

Lemma read_end k r o : at_pos r o [] -> kBlockSize - o <> 0 -> off_ok o ->
  exists r', ReadPhysicalRecord (S k) r = Some (r', kEof, None) /\ quiet r'.
Proof.
  intros Hat Hne Ho. pose proof Hat as [_ Hlen Heof _ _ _ _ _ _]. unfold off_ok in Ho. cbn [ReadPhysicalRecord].
  change (zlen (@nil Z)) with 0 in *. rewrite (proj2 (Z.ltb_lt _ _)) by (unfold kHeaderSize; lia).
  rewrite Heof, (proj2 (Z.ltb_lt _ _)) by lia. simpl negb. cbv iota. eexists. split; [done|]. by apply at_pos_quiet in Hat.
Qed.

(** The next physical record, when it is wholly in the first [n] bytes;
    otherwise the end of the file.  Anything may follow it. *)
Lemma read_next r o t d rest n :
  at_pos r o (take n (pad o ++ phys t d ++ rest)) -> off_ok o ->
  start o + (kHeaderSize + zlen d) <= kBlockSize -> bytes d -> t <> kZeroType ->
  let m := (length (pad o) + (7 + length d))%nat in
  if (m <=? n)%nat
  then exists r', ReadPhysicalRecord 3 r = Some (r', type_code t, Some d) /\
         at_pos r' (start o + (kHeaderSize + zlen d)) (take (n - m) rest)
  else exists r', ReadPhysicalRecord 3 r = Some (r', kEof, None) /\ quiet r'.
Proof.
  intros Hat Ho Hfit Hb Ht. pose proof Hat as [Hrem Hlen Heof Hinit Hlast Hsync Hrep Hst Had].
  pose proof (zlen_nonneg d). pose proof (zlen_nonneg rest).
  destruct (Z.ltb_spec (kBlockSize - o) kHeaderSize) as [Hpad|Hpad].
  - (* the rest of the block is a trailer *)
    pose proof (pad_length o Ho) as Hpl. rewrite (proj2 (Z.ltb_lt _ _) Hpad) in Hpl.
    assert (Hstart : start o = 0) by (unfold start; by rewrite (proj2 (Z.ltb_lt _ _) Hpad)).
    destruct (eof_ r) eqn:Ee.
    + rewrite read_eof by (done || lia). (* the file ends in the trailer *)
      symmetry in Heof. apply Z.ltb_lt in Heof. cbv zeta.
      rewrite (proj2 (Nat.leb_gt _ _)); [by exists (clear_buffer r)|].
      rewrite zlen_take, !zlen_app, zlen_phys, Hpl in Heof. unfold zlen, kHeaderSize in *. lia.
    + rewrite read_refill by (done || lia).
      pose proof (next_block_ok _ _ _ Hat Ee) as Hnb. symmetry in Heof. apply Z.ltb_ge in Heof.
      rewrite Hstart in *. cbv zeta. set (X := phys t d ++ rest) in *.
      assert (Hn : (length (pad o) <= n)%nat) by (rewrite zlen_take in Heof; unfold zlen in *; lia).
      assert (Hbl : zlen (buffer_ r) = zlen (pad o)) by lia. rewrite take_app, (take_ge (pad o)) in Hrem by done.
      apply app_inj_1 in Hrem as [_ Hfile]; [|clear -Hbl; unfold zlen in Hbl; lia].
      rewrite Hfile in Hnb. unfold off_ok in Ho.
      pose proof (read_here 1 (next_block r) 0 t d (n - length (pad o)) rest Hnb ltac:(lia) Hfit Hb Ht) as Hr.
      replace (7 + length d <=? n - length (pad o))%nat with (length (pad o) + (7 + length d) <=? n)%nat in Hr
        by (apply eq_true_iff_eq; rewrite !Nat.leb_le; lia).
      rewrite Nat.sub_add_distr. destruct (_ <=? n)%nat; exact Hr.
  - assert (pad o = [] /\ start o = o) as [Hp Hs].
    { unfold pad, start. by rewrite (proj2 (Z.ltb_ge _ _)). }
    rewrite Hp, Hs in *. unfold off_ok in Ho. cbv zeta. simpl length. simpl app in Hat.
    apply (read_here 2); done || lia.
Qed.

(** The end of the file between two records. *)
Lemma read_none r o : at_pos r o [] -> off_ok o -> exists r', ReadPhysicalRecord 3 r = Some (r', kEof, None) /\ quiet r'.
Proof.
  intros Hat Ho. destruct (Z.eq_dec (kBlockSize - o) 0) as [E|Hne]; [|by apply (read_end 2 _ o)].
  pose proof Hat as [Hrem Hlen Heof _ _ _ _ _ _]. change (zlen (@nil Z)) with 0 in Hlen, Heof. rewrite E in Hlen, Heof.
  rewrite read_refill by (rewrite ?Hlen; done). pose proof (next_block_ok _ _ _ Hat Heof) as Hnb.
  apply app_nil in Hrem as [_ Hfile]. rewrite Hfile in Hnb. by apply (read_end 1 _ 0).
Qed.

(** One turn of the loop of [ReadRecord], by what the physical read gave. *)
Lemma loop_eof fuel r r' sc inf pr fr :
  ReadPhysicalRecord 3 r = Some (r', kEof, None) -> resyncing_ r' = false ->
  ReadRecord_loop (S fuel) r sc inf pr fr = Some (r', if inf then [] else sc, None).
Proof. intros E Hs. cbn [ReadRecord_loop]. rewrite E. cbn [mbind option_bind]. by rewrite Hs. Qed.

Lemma loop_full fuel r r' d sc pr fr :
  ReadPhysicalRecord 3 r = Some (r', type_code kFullType, Some d) -> resyncing_ r' = false ->
  exists o, 0 <= o /\ ReadRecord_loop (S fuel) r sc false pr fr = Some (set_last r' o, [], Some d).
Proof. intros E Hs. eexists. split; cycle 1; [cbn [ReadRecord_loop]; rewrite E; cbn [mbind option_bind]; rewrite Hs; reflexivity|by apply (wrap_range 64)]. Qed.

Lemma loop_first fuel r r' d sc pr fr :
  ReadPhysicalRecord 3 r = Some (r', type_code kFirstType, Some d) -> resyncing_ r' = false ->
  exists o, 0 <= o /\ ReadRecord_loop (S fuel) r sc false pr fr = ReadRecord_loop fuel r' d true o d.
Proof. intros E Hs. eexists. split; cycle 1; [cbn [ReadRecord_loop]; rewrite E; cbn [mbind option_bind]; rewrite Hs; reflexivity|by apply (wrap_range 64)]. Qed.

Lemma loop_middle fuel r r' d sc pr fr :
  ReadPhysicalRecord 3 r = Some (r', type_code kMiddleType, Some d) -> resyncing_ r' = false ->
  ReadRecord_loop (S fuel) r sc true pr fr = ReadRecord_loop fuel r' (sc ++ d) true pr d.
Proof. intros E Hs. cbn [ReadRecord_loop]. rewrite E. cbn [mbind option_bind]. rewrite Hs. reflexivity. Qed.

Lemma loop_last fuel r r' d sc pr fr :
  ReadPhysicalRecord 3 r = Some (r', type_code kLastType, Some d) -> resyncing_ r' = false ->
  ReadRecord_loop (S fuel) r sc true pr fr = Some (set_last r' pr, sc ++ d, Some (sc ++ d)).
Proof. intros E Hs. cbn [ReadRecord_loop]. rewrite E. cbn [mbind option_bind]. rewrite Hs. reflexivity. Qed.

Lemma set_last_at r o rem x : 0 <= x -> at_pos r o rem -> at_pos (set_last r x) o rem.
Proof. intros Hx []. by split. Qed.

Lemma length_stream_cons o t d fs :
  length (stream o ((t, d) :: fs)) =
  (length (pad o) + (7 + length d) + length (stream (start o + (kHeaderSize + zlen d)) fs))%nat.
Proof. cbn [stream]. rewrite !length_app, length_phys. lia. Qed.

Lemma next_off_ok o t d fs : off_ok o -> fits o ((t, d) :: fs) -> off_ok (start o + (kHeaderSize + zlen d)).
Proof.
  intros Ho (Hf & _). pose proof (start_range o Ho). pose proof (zlen_nonneg d). unfold off_ok, kHeaderSize in *. lia.
Qed.

(** The rest of a fragmented record, from the second fragment on: read whole
    when it is in the first [n] bytes, and otherwise the end of the file. *)
Lemma read_tail fs r' X :
  tail_frags fs r' -> forall fuel r o n sc pr fr,
  at_pos r o (take n (stream o fs ++ X)) -> off_ok o -> fits o fs -> (length fs <= fuel)%nat -> 0 <= pr ->
  if (length (stream o fs) <=? n)%nat
  then exists r1 s, ReadRecord_loop fuel r sc true pr fr = Some (r1, s, Some (sc ++ r')) /\
         at_pos r1 (stream_end o fs) (take (n - length (stream o fs)) X)
  else exists r1 s, ReadRecord_loop fuel r sc true pr fr = Some (r1, s, None) /\ quiet r1.
Proof.
  induction 1 as [d|d fs rr Htl IH]; intros fuel r o n sc pr fr Hat Ho Hfits Hfuel Hpr;
    (destruct fuel as [|fuel]; [simpl in Hfuel; lia|]); pose proof (next_off_ok _ _ _ _ Ho Hfits) as Ho'; destruct Hfits as (Hfit & Hb & Ht & Hfits);
    rewrite length_stream_cons; cbn [stream] in Hat; rewrite <- !app_assoc in Hat;
    pose proof (read_next r o _ _ _ n Hat Ho Hfit Hb Ht) as Hn; cbv beta iota zeta in Hn; cbn [stream_end].
  - cbn [stream length]. rewrite Nat.add_0_r.
    destruct (_ <=? n)%nat.
    + destruct Hn as (r1 & E & H1). pose proof (at_pos_quiet _ _ _ H1) as [_ Hs].
      rewrite (loop_last _ _ _ _ _ _ _ E Hs). eexists _, _. split; [done|]. by apply set_last_at.
    + destruct Hn as (r1 & E & Hq). rewrite (loop_eof _ _ _ _ _ _ _ E (proj2 Hq)). by eexists _, _.
  - destruct (Nat.leb_spec (length (pad o) + (7 + length d)) n) as [Hle|Hgt].
    + destruct Hn as (r1 & E & H1). pose proof (at_pos_quiet _ _ _ H1) as [_ Hs].
      rewrite (loop_middle _ _ _ _ _ _ _ E Hs).
      pose proof (IH fuel r1 _ _ (sc ++ d) pr d H1 Ho' Hfits ltac:(simpl in Hfuel; lia) Hpr) as IH'.
      set (m := (length (pad o) + (7 + length d))%nat) in *. set (k := length (stream _ fs)) in *.
      replace (k <=? n - m)%nat with (m + k <=? n)%nat in IH' by (apply eq_true_iff_eq; rewrite !Nat.leb_le; lia).
      rewrite <- app_assoc, <- Nat.sub_add_distr in IH'. exact IH'.
    + destruct Hn as (r1 & E & Hq). rewrite (loop_eof _ _ _ _ _ _ _ E (proj2 Hq)).
      rewrite (proj2 (Nat.leb_gt _ _)) by lia. by eexists _, _.
Qed.

Lemma read_record fs rr X fuel r o n :
  rec_frags fs rr ->
  at_pos r o (take n (stream o fs ++ X)) -> off_ok o -> fits o fs -> (length fs <= fuel)%nat ->
  if (length (stream o fs) <=? n)%nat
  then exists r1, ReadRecord fuel r = Some (r1, Some rr) /\
         at_pos r1 (stream_end o fs) (take (n - length (stream o fs)) X)
  else exists r1, ReadRecord fuel r = Some (r1, None) /\ quiet r1.
Proof.
  intros Hfs Hat Ho Hfits Hfuel. pose proof (ap_init _ _ _ Hat) as Hi.
  pose proof (ap_last _ _ _ Hat) as Hl. unfold ReadRecord. rewrite Hi, (proj2 (Z.ltb_ge _ 0)) by done. simpl negb. cbv iota.
  destruct fuel as [|fuel]; [by destruct Hfs; simpl in Hfuel; lia|].
  destruct Hfs as [rr|d fs rr Htl]; pose proof (next_off_ok _ _ _ _ Ho Hfits) as Ho'; destruct Hfits as (Hfit & Hb & Ht & Hfits);
    rewrite length_stream_cons; cbn [stream] in Hat; rewrite <- !app_assoc in Hat;
    pose proof (read_next r o _ _ _ n Hat Ho Hfit Hb Ht) as Hn; cbv beta iota zeta in Hn; cbn [stream_end].
  - cbn [stream length]. rewrite Nat.add_0_r. destruct (_ <=? n)%nat.
    + destruct Hn as (r1 & E & H1). pose proof (at_pos_quiet _ _ _ H1) as [_ Hs].
      destruct (loop_full fuel _ _ _ [] 0 [] E Hs) as (x & Hx & ->). cbn [mbind option_bind].
      eexists. split; [done|]. by apply set_last_at.
    + destruct Hn as (r1 & E & Hq). rewrite (loop_eof _ _ _ _ _ _ _ E (proj2 Hq)). cbn [mbind option_bind]. by eexists.
  - destruct (Nat.leb_spec (length (pad o) + (7 + length d)) n) as [Hle|Hgt].
    + destruct Hn as (r1 & E & H1). pose proof (at_pos_quiet _ _ _ H1) as [_ Hs].
      destruct (loop_first fuel _ _ _ [] 0 [] E Hs) as (x & Hx & ->).
      pose proof (read_tail _ _ X Htl fuel r1 _ _ d x d H1 Ho' Hfits ltac:(simpl in Hfuel; lia) Hx) as Htail.
      set (m := (length (pad o) + (7 + length d))%nat) in *. set (k := length (stream _ fs)) in *.
      replace (k <=? n - m)%nat with (m + k <=? n)%nat in Htail by (apply eq_true_iff_eq; rewrite !Nat.leb_le; lia).
      rewrite <- Nat.sub_add_distr in Htail. destruct (m + k <=? n)%nat.
      * destruct Htail as (r2 & s & -> & H2). cbn [mbind option_bind]. by eexists.
      * destruct Htail as (r2 & s & -> & H2). cbn [mbind option_bind]. by eexists.
    + destruct Hn as (r1 & E & Hq). rewrite (loop_eof _ _ _ _ _ _ _ E (proj2 Hq)). cbn [mbind option_bind].
      rewrite (proj2 (Nat.leb_gt _ _)) by lia. by eexists.
Qed.

Lemma read_no_record fuel r o :
  at_pos r o [] -> off_ok o -> (1 <= fuel)%nat ->
  exists r1, ReadRecord fuel r = Some (r1, None) /\ quiet r1.
Proof.
  intros Hat Ho Hf. pose proof (ap_init _ _ _ Hat) as Hi. pose proof (ap_last _ _ _ Hat) as Hl.
  unfold ReadRecord. rewrite Hi, (proj2 (Z.ltb_ge _ 0)) by done. simpl negb. cbv iota.
  destruct fuel as [|fuel]; [lia|]. destruct (read_none r o Hat Ho) as (r1 & E & Hq).
  rewrite (loop_eof _ _ _ _ _ _ _ E (proj2 Hq)). cbn [mbind option_bind]. by eexists.
Qed.
End ReaderFacts.

(** ** Whole logs *)

(** Records, each with the address of its bytes, appended one after the other. *)
Fixpoint write_all {P : Platform} (w : Writer mem_file) (recs : list (Z * list Z)) : option (Writer mem_file) :=
  match recs with
  | [] => Some w
  | (ptr, r) :: recs => '(w, s) ← AddRecord w ptr r; if ok s then write_all w recs else None
  end.
(** The file that a new writer leaves. *)
Definition log_of {P : Platform} (t_addr : Z) (recs : list (Z * list Z)) : option (list Z) :=
  w ← new_Writer t_addr []; w ← write_all w recs; Some (dest_ w).
(** The records until [ReadRecord] returns false. *)
Fixpoint read_all {P : Platform} (calls fuel : nat) (r : Reader mem_file) : option (list (list Z) * Reader mem_file) :=
  match calls with
  | O => None
  | S calls =>
      '(r, res) ← ReadRecord fuel r;
      match res with
      | None => Some ([], r)
      | Some x => '(l, r) ← read_all calls fuel r; Some (x :: l, r)
      end
  end.

(** What successive calls of [ReadRecord] return, with nothing reported before
    the last. *)
Inductive reads {P : Platform} (fuel : nat) : Reader mem_file -> list (list Z) -> Reader mem_file -> Prop :=
  | reads_end r r' : ReadRecord fuel r = Some (r', None) -> reads fuel r [] r'
  | reads_more r r1 x l r2 : ReadRecord fuel r = Some (r1, Some x) -> reports_ r1 = [] -> reads fuel r1 l r2 -> reads fuel r (x :: l) r2.

Definition rec_ok (ar : Z * list Z) : Prop := bytes ar.2 /\ addr_ok ar.1 (zlen ar.2).

Section WholeFacts.
Context {P : Platform}.

Lemma write_all_ok recs (f : mem_file) o :
  off_ok o -> Forall rec_ok recs ->
  exists fss, Forall2 rec_frags fss (map snd recs) /\ fits o (concat fss) /\
    forall j, write_all (mk_writer f o type_crcs) (take j recs) =
      Some (mk_writer (f ++ stream o (concat (take j fss))) (stream_end o (concat (take j fss))) type_crcs).
Proof.
  intros Ho Hr. revert f o Ho. induction Hr as [|[a r] recs [Hb Ha] Hr IH]; intros f o Ho.
  { exists []. split_and!; [constructor|done|]. intros j. rewrite !take_nil. simpl. by rewrite app_nil_r. }
  destruct (AddRecord_ok f o a r Ho Hb Ha) as (fs & E & Hfit & Hfs).
  destruct (IH (f ++ stream o fs) (stream_end o fs) (stream_end_range o fs Ho Hfit)) as (fss & H1 & H2 & H3).
  exists (fs :: fss). split_and!; [by constructor|cbn [concat]; by apply fits_app|].
  intros [|j]; cbn [take write_all concat]; [simpl; by rewrite app_nil_r|].
  rewrite E. cbn [mbind option_bind ok]. cbv iota.
  etrans; [apply (H3 j)|]. by rewrite stream_app, stream_end_app, app_assoc.
Qed.

Lemma rec_frags_length fs r : rec_frags fs r -> (1 <= length fs)%nat.
Proof. destruct 1; simpl; lia. Qed.

Lemma stream_length o fs : (7 * length fs <= length (stream o fs))%nat.
Proof. revert o. induction fs as [|[t d] fs IH]; intros o; [done|]. rewrite length_stream_cons. cbn [length]. specialize (IH (start o + (kHeaderSize + zlen d))). lia. Qed.

Lemma reads_ok fss rs : Forall2 rec_frags fss rs -> forall fuel r o n,
  at_pos r o (take n (stream o (concat fss))) -> off_ok o -> fits o (concat fss) -> (length (concat fss) < fuel)%nat ->
  exists k r1, reads fuel r (take k rs) r1 /\ reports_ r1 = [] /\
    forall j, (j <= length fss)%nat -> (length (stream o (concat (take j fss))) <= n <-> j <= k)%nat.
Proof.
  induction 1 as [|fs rr fss rs Hfs Hrest IH]; intros fuel r o n Hat Ho Hfits Hf.
  { cbn [concat stream] in Hat. rewrite take_nil in Hat.
    destruct (read_no_record fuel r o Hat Ho ltac:(simpl in Hf; lia)) as (r1 & E & [Hq _]).
    exists 0%nat, r1. split_and!; [by apply reads_end|done|]. intros j Hj. simpl in Hj. rewrite take_nil. simpl. lia. }
  cbn [concat] in *. rewrite length_app in Hf.
  rewrite stream_app in Hat. apply fits_app in Hfits as [Hfit1 Hfit2].
  pose proof (read_record fs rr _ fuel r o n Hfs Hat Ho Hfit1 ltac:(lia)) as Hr. destruct (Nat.leb_spec (length (stream o fs)) n) as [Hle|Hgt].
  - destruct Hr as (r1 & E & H1).
    destruct (IH fuel r1 _ _ H1 (stream_end_range _ _ Ho Hfit1) Hfit2 ltac:(lia)) as (k & r2 & Hr2 & Hq2 & Hk).
    exists (S k), r2. split_and!; [eapply reads_more; [done|by apply H1|done]|done|]. intros [|j] Hj; cbn [take concat]; [simpl; lia|].
    rewrite stream_app, length_app. pose proof (Hk j ltac:(simpl in Hj; lia)). lia.
  - destruct Hr as (r1 & E & [Hq _]). exists 0%nat, r1. split_and!; [by apply reads_end|done|].
    intros [|j] Hj; cbn [take concat]; [simpl; lia|]. rewrite stream_app, length_app. lia.
Qed.
Lemma reads_all fuel r l r1 : reads fuel r l r1 -> forall calls, (length l < calls)%nat ->
  read_all calls fuel r = Some (l, r1).
Proof.
  induction 1 as [r r' E|r r1 x l r2 E Hq Hl IH]; intros [|calls] Hc; cbn [read_all]; try (simpl in Hc; lia); rewrite E; cbn [mbind option_bind].
  - done.
  - by rewrite (IH calls ltac:(simpl in Hc; lia)).
Qed.

(** The log of [recs], and what the reader gets of its first [n] bytes. *)
Lemma log_reads t_addr recs reporter checksum backing :
  addr_ok t_addr 0 -> Forall rec_ok recs -> addr_ok backing kBlockSize ->
  exists c, log_of t_addr recs = Some c /\ (length recs <= length c)%nat /\
    forall n fuel, (length c + 2 <= fuel)%nat ->
      exists k r, reads fuel (new_Reader (take n c) reporter checksum backing 0) (map snd (take k recs)) r /\ reports_ r = [] /\
        forall j cj, (j <= length recs)%nat -> log_of t_addr (take j recs) = Some cj -> (length cj <= n <-> j <= k)%nat.
Proof.
  intros Ht Hr Hback. destruct (write_all_ok recs [] 0) as (fss & Hfss & Hfits & Hw); [by vm_compute|done|].
  assert (Hlog : forall j, log_of t_addr (take j recs) = Some (stream 0 (concat (take j fss)))).
  { intros j. unfold log_of, new_Writer. rewrite InitTypeCrc_ok by done. cbn [mbind option_bind]. by rewrite Hw. }
  pose proof (Forall2_length _ _ _ Hfss) as Hlen. rewrite length_map in Hlen.
  pose proof (stream_length 0 (concat fss)) as Hsl.
  assert (Hcl : (length fss <= length (concat fss))%nat).
  { clear -Hfss. induction Hfss as [|fs r fss rs H _ IH]; [done|]. cbn [concat length]. rewrite length_app.
    pose proof (rec_frags_length _ _ H). lia. }
  assert (H0 : forall fs, stream kBlockSize fs = stream 0 fs) by (intros [|[t d] l]; done).
  exists (stream 0 (concat fss)). split_and!; [|lia|].
  { rewrite <- (take_ge recs (length recs)) by done. rewrite Hlog. by rewrite <- Hlen, take_ge. }
  intros n fuel Hfuel.
  assert (Hat : at_pos (new_Reader (take n (stream 0 (concat fss))) reporter checksum backing 0) kBlockSize
                 (take n (stream kBlockSize (concat fss)))).
  { rewrite H0. pose proof (zlen_nonneg (take n (stream 0 (concat fss)))).
    split; cbn; try done; [by rewrite Z.min_l|]. symmetry. by apply Z.ltb_ge. }
  assert (Hfits' : fits kBlockSize (concat fss)) by (destruct (concat fss) as [|[t d] l]; done).
  destruct (reads_ok _ _ Hfss fuel _ _ _ Hat ltac:(by vm_compute) Hfits' ltac:(lia)) as (k & r & E & Hq & Hk).
  exists k, r. split_and!; [by rewrite <- firstn_map|done|].
  intros j cj Hj Hcj. rewrite Hlog in Hcj. injection Hcj as <-. rewrite <- Hk by lia. by rewrite H0.
Qed.
End WholeFacts.

(** ** A log reused behind a torn record *)
Section TornFacts.
Context {P : Platform}.

(** A record that fits in the block is one fragment. *)
Lemma AddRecord_one (f : mem_file) o ptr r :
  off_ok o -> start o + (kHeaderSize + zlen r) <= kBlockSize -> bytes r -> addr_ok ptr (zlen r) ->
  AddRecord (mk_writer f o type_crcs) ptr r =
    Some (mk_writer (f ++ pad o ++ phys kFullType r) (start o + (kHeaderSize + zlen r)) type_crcs, OK).
Proof.
  intros Ho Hfit Hb Ha. unfold AddRecord. rewrite Nat.add_comm. cbn [Nat.add AddRecord_loop].
  rewrite fill_trailer_ok by done. cbn [mbind option_bind block_offset_]. pose proof (start_range o Ho).
  rewrite (proj2 (Z.leb_le 0 _)) by lia. simpl negb. cbv iota zeta.
  assert ((if zlen r <? kBlockSize - start o - kHeaderSize then zlen r else kBlockSize - start o - kHeaderSize) = zlen r) as ->
    by (destruct (Z.ltb_spec (zlen r) (kBlockSize - start o - kHeaderSize)); lia).
  rewrite Z.eqb_refl, to_nat_zlen, take_ge, drop_ge by done. cbn [fragment_type andb].
  rewrite EmitPhysicalRecord_ok by (done || (unfold off_ok, kHeaderSize in *; lia)). cbn [mbind option_bind].
  change (0 <? zlen (@nil Z)) with false. by rewrite andb_false_r, <- app_assoc.
Qed.

Lemma stream_mod o fs : off_ok o -> fits o fs -> (o + zlen (stream o fs)) mod kBlockSize = stream_end o fs mod kBlockSize.
Proof.
  revert o. induction fs as [|[t d] fs IH]; intros o Ho Hf.
  { cbn [stream stream_end]. change (zlen (@nil Z)) with 0. by rewrite Z.add_0_r. }
  pose proof (next_off_ok _ _ _ _ Ho Hf) as Ho'. destruct Hf as (_ & _ & _ & Hf). cbn [stream stream_end].
  rewrite <- (IH _ Ho' Hf), !zlen_app, zlen_phys, pad_length by done. unfold start.
  destruct (kBlockSize - o <? kHeaderSize); [|f_equal; lia].
  symmetry. rewrite <- (Z_mod_plus_full _ 1 kBlockSize). f_equal. lia.
Qed.

Lemma block_place o x : off_ok o -> 7 <= x -> o mod kBlockSize + x <= kBlockSize -> pad o = [] /\ start o = o mod kBlockSize.
Proof.
  unfold off_ok, pad, start, kHeaderSize, kBlockSize. intros Ho Hx Hm. destruct (Z.eq_dec o 32768) as [->|Hne]; [done|].
  rewrite Z.mod_small in * by lia. by rewrite (proj2 (Z.ltb_ge _ _)) by lia.
Qed.

(** Reading does not change whether checksums are compared. *)
Lemma ReportCorruption_checksum (r : Reader mem_file) n m : checksum_ (ReportCorruption r n m) = checksum_ r.
Proof. unfold ReportCorruption, ReportDrop. by destruct (_ && _). Qed.
Lemma parse_checksum (r r' : Reader mem_file) t x : parse_record r = Some (r', t, x) -> checksum_ r' = checksum_ r.
Proof.
  unfold parse_record. intros H. repeat (case_match || simplify_option_eq); rewrite ?ReportCorruption_checksum; done.
Qed.
Lemma physical_checksum n (r r' : Reader mem_file) t x : ReadPhysicalRecord n r = Some (r', t, x) -> checksum_ r' = checksum_ r.
Proof.
  revert r. induction n as [|n IH]; intros r H; [done|]. cbn [ReadPhysicalRecord] in H.
  destruct (_ <? _); [|by apply parse_checksum in H]. destruct (negb (eof_ r)); [|by injection H as <- <- <-].
  cbn [sf_Read mem_sequential ok negb] in H. rewrite (IH _ H). by destruct (_ <? _).
Qed.
Lemma loop_checksum n (r r' : Reader mem_file) sc inf pr fr sc' x :
  ReadRecord_loop n r sc inf pr fr = Some (r', sc', x) -> checksum_ r' = checksum_ r.
Proof.
  revert r sc inf pr fr. induction n as [|n IH]; intros r sc inf pr fr H; [done|]. cbn [ReadRecord_loop] in H.
  destruct (ReadPhysicalRecord 3 r) as [[[r1 t] res]|] eqn:E; [|done]. cbn [mbind option_bind] in H.
  apply physical_checksum in E. rewrite <- E. clear E.
  assert (Hs : forall b, checksum_ (set_resyncing r1 b) = checksum_ r1) by done.
  repeat (case_match || simplify_eq); try (apply IH in H); cbn [checksum_ set_last] in *; rewrite ?ReportCorruption_checksum in *; done.
Qed.

Lemma loop_bad fuel (r r' : Reader mem_file) sc pr fr :
  ReadPhysicalRecord 3 r = Some (r', kBadRecord, None) -> resyncing_ r' = false ->
  ReadRecord_loop (S fuel) r sc false pr fr = ReadRecord_loop fuel r' sc false pr fr.
Proof. intros E Hs. cbn [ReadRecord_loop]. rewrite E. cbn [mbind option_bind]. rewrite Hs. reflexivity. Qed.

(** The header of a record whose payload is not what it was: the end of the file
    when there is too little of it, else a bad checksum that empties the buffer. *)
Lemma parse_torn (r : Reader mem_file) o d y :
  let h := take 7 (phys kFullType d) in
  let x := take (length d) y in
  at_pos r o (h ++ y) -> 0 <= o -> o + zlen (h ++ y) < kBlockSize -> o + (kHeaderSize + zlen d) <= kBlockSize -> bytes y -> checksum_ r = true ->
  (zlen x = zlen d -> crc_ref 0 (1 :: x) <> crc_ref 0 (1 :: d)) -> bytes d ->
  exists r', resyncing_ r' = false /\
    (parse_record r = Some (r', kEof, None) \/ parse_record r = Some (r', kBadRecord, None) /\ buffer_ r' = [] /\ eof_ r' = true).
Proof.
  intros h x [Hrem Hlen Heof Hinit Hlast Hsync Hrep Hst Had] Ho Hin Hfit Hy Hck Hcrc Hbd. pose proof (zlen_nonneg d).
  set (c := Mask (crc_ref 0 (1 :: d))).
  assert (h = le_enc 4 c ++ [zlen d mod 256; zlen d / 256; 1]) as Eh.
  { unfold h, phys. rewrite app_assoc. apply take_app_length'. by rewrite length_app, length_le_enc. }
  assert (Hh : zlen h = 7) by (rewrite Eh; zlens; lia).
  assert (Hb : buffer_ r = h ++ y).
  { pose proof (f_equal zlen Hrem) as Hz. rewrite zlen_app in Hz.
    rewrite <- Hrem. assert (zlen (file_ r) = 0) as ->%zlen_0_inv by lia. by rewrite app_nil_r. }
  assert (He : eof_ r = true) by (rewrite Heof; apply Z.ltb_lt; lia).
  unfold parse_record. rewrite Hb. pose proof (header_fields kFullType d y) as (G1 & G2 & G3).
  change (type_code kFullType) with 1 in *. fold c in G1, G2, G3. rewrite app_assoc, <- Eh in G1, G2, G3.
  rewrite G1, G2, G3. cbn [mbind option_bind]. cbv zeta. rewrite frag_length by (unfold kBlockSize, kHeaderSize in *; lia).
  change (u32 (i8 1)) with 1. destruct (Z.ltb_spec (zlen (h ++ y)) (kHeaderSize + zlen d)) as [Hs|Hs].
  { cbn [eof_ clear_buffer set_buffer]. rewrite He. eexists. split; [|left; done]. done. }
  change (1 =? type_code kZeroType) with false. cbn [andb]. cbv iota. rewrite Hck.
  rewrite zlen_app, Hh in Hs. unfold kHeaderSize in Hs.
  assert (Hx : zlen x = zlen d) by (unfold x; rewrite zlen_take; unfold zlen in *; lia). specialize (Hcrc Hx).
  assert (Hbx : bytes (1 :: x)) by (constructor; [done|by apply Forall_take]).
  assert (DecodeFixed32 (h ++ y) 0 = Some c) as ->.
  { rewrite Eh, <- app_assoc, DecodeFixed32_front by (apply bytes_le_enc || by zlens).
    rewrite le_dec_enc, wrap_id by (by apply (wrap_range 32)). done. }
  cbn [mbind option_bind].
  assert (rd (h ++ y) 6 (1 + zlen d) = Some (1 :: x)) as ->.
  { rewrite Eh. rewrite <- (take_drop (length d) y). fold x.
    replace ((le_enc 4 c ++ [zlen d mod 256; zlen d / 256; 1]) ++ x ++ drop (length d) y)
      with ((le_enc 4 c ++ [zlen d mod 256; zlen d / 256]) ++ (1 :: x) ++ drop (length d) y) by (rewrite <- !app_assoc; done).
    apply rd_seg; zlens; lia. }
  cbn [mbind option_bind]. rewrite Value_ok; [|destruct Had as [A1 A2]; rewrite Hb, zlen_app, Hh in A2; split; lia|done].
  cbn [mbind option_bind]. unfold c. rewrite Unmask_Mask by (apply crc_ref_range; [by vm_compute|constructor; [done|done]]).
  rewrite (proj2 (Z.eqb_neq _ _) Hcrc). cbn [negb]. cbv iota.
  eexists. split; [|right; split; [reflexivity|]]; unfold ReportCorruption, ReportDrop; by destruct (_ && _).
Qed.

(** A reader that comes to such a header finds no more records. *)
Lemma read_torn fuel (r : Reader mem_file) o d y :
  let h := take 7 (phys kFullType d) in
  let x := take (length d) y in
  at_pos r o (h ++ y) -> off_ok o -> o mod kBlockSize + zlen (h ++ y) < kBlockSize -> o mod kBlockSize + (kHeaderSize + zlen d) <= kBlockSize ->
  bytes y -> bytes d -> checksum_ r = true -> (zlen x = zlen d -> crc_ref 0 (1 :: x) <> crc_ref 0 (1 :: d)) -> (2 <= fuel)%nat ->
  exists r', ReadRecord fuel r = Some (r', None).
Proof.
  intros h x Hat Ho Hin Hfit Hy Hd Hck Hcrc Hf.
  assert (Hh : zlen h = 7) by (unfold h; rewrite zlen_take, zlen_phys; unfold kHeaderSize; pose proof (zlen_nonneg d); lia).
  pose proof (zlen_nonneg y). pose proof (zlen_nonneg d). rewrite zlen_app in Hin.
  assert (exists r0 k, ReadPhysicalRecord 3 r = ReadPhysicalRecord (S k) r0 /\ at_pos r0 (o mod kBlockSize) (h ++ y) /\ checksum_ r0 = true) as (r0 & k & E0 & Hat0 & Hck0).
  { destruct (Z.eq_dec o kBlockSize) as [->|Hne].
    - pose proof Hat as [Hrem Hlen Heof _ _ _ _ _ _]. rewrite Z.sub_diag in Hlen, Heof. rewrite zlen_app in Hlen, Heof.
      rewrite (proj2 (Z.ltb_ge _ 0)) in Heof by lia. rewrite Z.min_l in Hlen by lia.
      exists (next_block r), 1%nat. split; [apply read_refill; [rewrite Hlen; done|done]|].
      pose proof (next_block_ok _ _ _ Hat Heof) as Hnb. apply zlen_0_inv in Hlen. rewrite Hlen in Hrem. cbn [app] in Hrem. rewrite Hrem in Hnb.
      split; [done|]. unfold next_block. by destruct (_ <? _).
    - exists r, 2%nat. unfold off_ok in Ho. rewrite Z.mod_small by lia. done. }
  pose proof (Z.mod_pos_bound o kBlockSize ltac:(done)) as Hm.
  assert (E1 : ReadPhysicalRecord (S k) r0 = parse_record r0).
  { cbn [ReadPhysicalRecord]. destruct Hat0 as [_ Hlen _ _ _ _ _ _ _]. rewrite zlen_app in Hlen. rewrite (proj2 (Z.ltb_ge _ _)) by (unfold kHeaderSize in *; lia). done. }
  destruct (parse_torn r0 (o mod kBlockSize) d y Hat0) as (r1 & Hs1 & Hr1); try done; [lia|fold h; rewrite zlen_app; lia|].
  unfold ReadRecord. rewrite (ap_init _ _ _ Hat), (proj2 (Z.ltb_ge _ 0)) by (by apply (ap_last _ _ _ Hat)). simpl negb. cbv iota.
  destruct fuel as [|[|fuel]]; [lia..|]. destruct Hr1 as [Hr1|(Hr1 & Hb1 & He1)]; rewrite <- E1, <- E0 in Hr1.
  - rewrite (loop_eof _ _ _ _ _ _ _ Hr1 Hs1). by eexists.
  - rewrite (loop_bad _ _ _ _ _ _ Hr1 Hs1). rewrite (loop_eof _ _ (clear_buffer r1)); [by eexists| |done].
    apply read_eof; [rewrite Hb1; done|done].
Qed.

(** Whole records in front of anything. *)
Lemma reads_before fss rs : Forall2 rec_frags fss rs -> forall fuel (r : Reader mem_file) o X,
  at_pos r o (stream o (concat fss) ++ X) -> off_ok o -> fits o (concat fss) -> (length (concat fss) < fuel)%nat ->
  exists r1, at_pos r1 (stream_end o (concat fss)) X /\ checksum_ r1 = checksum_ r /\
    forall l r2, reads fuel r1 l r2 -> reads fuel r (rs ++ l) r2.
Proof.
  induction 1 as [|fs rr fss rs Hfs Hrest IH]; intros fuel r o X Hat Ho Hfits Hf; [by exists r|].
  cbn [concat] in *. rewrite length_app in Hf. rewrite stream_app, <- app_assoc in Hat. apply fits_app in Hfits as [Hfit1 Hfit2].
  rewrite <- (take_ge (stream o fs ++ _) _ (Nat.le_refl _)) in Hat.
  pose proof (read_record fs rr _ fuel r o _ Hfs Hat Ho Hfit1 ltac:(lia)) as Hr.
  rewrite (proj2 (Nat.leb_le _ _)) in Hr by (rewrite length_app; lia). destruct Hr as (r1 & E & H1).
  rewrite take_ge in H1 by (rewrite !length_app; lia).
  destruct (IH fuel r1 _ X H1 (stream_end_range _ _ Ho Hfit1) Hfit2 ltac:(lia)) as (r2 & H2 & Hc2 & Hr2).
  exists r2. rewrite stream_end_app. split_and!; [done| |].
  - rewrite Hc2. unfold ReadRecord in E. destruct (last_record_offset_ r <? initial_offset_ r) eqn:El.
    { pose proof (ap_init _ _ _ Hat) as Hi. pose proof (ap_last _ _ _ Hat). apply Z.ltb_lt in El. lia. }
    simpl negb in E. cbv iota in E. destruct (ReadRecord_loop fuel r [] false 0 []) as [[[r' sc] res]|] eqn:EL; [|done].
    apply loop_checksum in EL. cbn [mbind option_bind] in E. congruence.
  - intros l r3 H3. cbn [app]. eapply reads_more; [done|by apply H1|by apply Hr2].
Qed.

Lemma bytes_phys t d : bytes d -> zlen d < 65536 -> bytes (phys t d).
Proof.
  intros Hd Hl. pose proof (zlen_nonneg d). unfold phys, bytes. rewrite !Forall_app. split_and!; [apply bytes_le_enc| |done].
  repeat constructor; try apply type_code_byte; try (apply Z.mod_pos_bound; lia); [apply Z.div_pos; lia|apply Z.div_lt_upper_bound; lia].
Qed.

Lemma write_all_app (w : Writer mem_file) l1 l2 : write_all w (l1 ++ l2) = (w ← write_all w l1; write_all w l2).
Proof.
  revert w. induction l1 as [|[a r] l1 IH]; intros w; [done|]. cbn [app write_all].
  destruct (AddRecord w a r) as [[w1 s]|]; [|done]. cbn [mbind option_bind]. destruct (ok s); [apply IH|done].
Qed.

Lemma log_of_eq t_addr recs : addr_ok t_addr 0 ->
  log_of t_addr recs = (w ← write_all (mk_writer ([] : mem_file) 0 type_crcs) recs; Some (dest_ w)).
Proof. intros Ht. unfold log_of, new_Writer. by rewrite InitTypeCrc_ok. Qed.

Lemma phys_take n t d : (7 <= n)%nat -> take n (phys t d) = take 7 (phys t d) ++ take (n - 7) d.
Proof.
  intros Hn. unfold phys. set (g := le_enc 4 _). assert (Hg : length (g ++ [zlen d mod 256; zlen d / 256; type_code t]) = 7%nat) by (unfold g; by rewrite length_app, length_le_enc).
  rewrite !(app_assoc g). rewrite take_app, (take_app_le _ _ 7), take_ge, (take_ge _ 7) by lia. by rewrite Hg.
Qed.

(** Whole records, and then the header of [d] with other bytes behind it. *)
Lemma torn_reads fss rs d y backing fuel :
  let c := stream 0 (concat fss) in
  let h := take 7 (phys kFullType d) in
  let x := take (length d) y in
  Forall2 rec_frags fss rs -> fits 0 (concat fss) -> addr_ok backing kBlockSize -> bytes y -> bytes d ->
  zlen c mod kBlockSize + zlen (h ++ y) < kBlockSize -> zlen c mod kBlockSize + (kHeaderSize + zlen d) <= kBlockSize ->
  (zlen x = zlen d -> crc_ref 0 (1 :: x) <> crc_ref 0 (1 :: d)) -> (length c + 2 <= fuel)%nat ->
  exists r, reads fuel (new_Reader (c ++ h ++ y) true true backing 0) rs r.
Proof.
  intros c h x Hfss Hfits Hback Hy Hd Hin Hfit Hcrc Hfuel.
  assert (Hmod : zlen c mod kBlockSize = stream_end 0 (concat fss) mod kBlockSize) by (apply (stream_mod 0); [by vm_compute|done]).
  assert (HB : forall fs, stream kBlockSize fs = stream 0 fs) by (intros [|[t0 d0] l]; done).
  assert (Hat : at_pos (new_Reader (c ++ h ++ y) true true backing 0) kBlockSize (stream kBlockSize (concat fss) ++ h ++ y)).
  { rewrite HB. fold c. pose proof (zlen_nonneg (c ++ h ++ y)). split; cbn; try done; [by rewrite Z.min_l|symmetry; by apply Z.ltb_ge]. }
  pose proof (stream_length 0 (concat fss)) as Hsl. fold c in Hsl.
  destruct (reads_before fss _ Hfss fuel _ kBlockSize (h ++ y) Hat) as (r1 & Hat1 & Hck & Hrd); [by vm_compute|by destruct (concat fss) as [|[t0 d0] l]|lia|].
  assert (Hend : stream_end kBlockSize (concat fss) mod kBlockSize = zlen c mod kBlockSize) by (rewrite Hmod; by destruct (concat fss) as [|[t0 d0] l]).
  destruct (read_torn fuel r1 _ d y Hat1) as (r2 & E2); try done; [|by rewrite Hend|by rewrite Hend|lia|].
  { apply stream_end_range; [by vm_compute|]. by destruct (concat fss) as [|[t0 d0] l]. }
  exists r2. rewrite <- (app_nil_r rs). apply Hrd. by apply reads_end.
Qed.

(** A writer on a file of [f] bytes goes on in the same block. *)
Lemma reuse_writer t_addr (f : mem_file) b e :
  addr_ok t_addr 0 -> rec_ok (b, e) -> zlen f mod kBlockSize + (kHeaderSize + zlen e) < kBlockSize ->
  exists w w', new_Writer_at t_addr f (zlen f) = Some w /\ AddRecord w b e = Some (w', OK) /\ dest_ w' = f ++ phys kFullType e.
Proof.
  intros Ht [Hbe Hae] Hfit. cbn [fst snd] in *. pose proof (zlen_nonneg e). pose proof (Z.mod_pos_bound (zlen f) kBlockSize ltac:(done)).
  set (o := zlen f mod kBlockSize) in *. assert (Ho : off_ok o) by (unfold off_ok; lia).
  destruct (block_place o (kHeaderSize + zlen e) Ho ltac:(unfold kHeaderSize; lia)) as [Hpad Hstart]; [rewrite Z.mod_small by lia; lia|].
  rewrite Z.mod_small in Hstart by lia.
  eexists _, _. split; [unfold new_Writer_at; rewrite InitTypeCrc_ok by done; reflexivity|].
  split; [rewrite AddRecord_one by (done || (fold o; rewrite Hstart; lia)); reflexivity|]. cbn [dest_]. fold o. by rewrite Hpad.
Qed.

(** The log as a stream, and with one more record in the same block. *)
Lemma log_stream t_addr recs c :
  addr_ok t_addr 0 -> Forall rec_ok recs -> log_of t_addr recs = Some c ->
  exists fss, Forall2 rec_frags fss (map snd recs) /\ fits 0 (concat fss) /\ c = stream 0 (concat fss) /\
    write_all (mk_writer ([] : mem_file) 0 type_crcs) recs = Some (mk_writer c (stream_end 0 (concat fss)) type_crcs).
Proof.
  intros Ht Hr Hc. destruct (write_all_ok recs [] 0) as (fss & Hfss & Hfits & Hw); [by vm_compute|done|].
  pose proof (Hw (length recs)) as Hw1. pose proof (Forall2_length _ _ _ Hfss) as Hlen. rewrite length_map in Hlen.
  rewrite take_ge, <- Hlen, take_ge in Hw1 by done. cbn [app] in Hw1.
  rewrite log_of_eq in Hc by done. rewrite Hw1 in Hc. injection Hc as <-. by exists fss.
Qed.

Lemma log_snoc t_addr recs a d c :
  addr_ok t_addr 0 -> Forall rec_ok recs -> rec_ok (a, d) -> log_of t_addr recs = Some c ->
  zlen c mod kBlockSize + (kHeaderSize + zlen d) <= kBlockSize ->
  log_of t_addr (recs ++ [(a, d)]) = Some (c ++ phys kFullType d).
Proof.
  intros Ht Hr [Hbd Had] Hc Hfit. cbn [fst snd] in *. pose proof (zlen_nonneg d).
  destruct (log_stream t_addr recs c Ht Hr Hc) as (fss & _ & Hfits & -> & Hw). set (o := stream_end 0 (concat fss)) in *.
  assert (Ho : off_ok o) by (apply stream_end_range; [by vm_compute|done]).
  assert (Hmod : zlen (stream 0 (concat fss)) mod kBlockSize = o mod kBlockSize) by (apply (stream_mod 0); [by vm_compute|done]).
  destruct (block_place o (kHeaderSize + zlen d) Ho ltac:(unfold kHeaderSize; lia)) as [Hpad Hstart]; [by rewrite <- Hmod|].
  rewrite log_of_eq by done. rewrite write_all_app, Hw. cbn [mbind option_bind write_all].
  rewrite AddRecord_one by (done || by rewrite Hstart, <- Hmod). cbn [mbind option_bind ok dest_]. by rewrite Hpad.
Qed.

(** The record [d] is cut off behind its header, with [n] bytes left of it, and [e]
    is appended there by a writer that goes on at the end of the file.  The new
    file still has the header of [d] there; unless the bytes where its payload
    was happen to have the checksum of [d], a reader finds only the records before
    it. *)
Lemma torn_reuse t_addr recs d b e n backing c :
  addr_ok t_addr 0 -> addr_ok backing kBlockSize -> Forall rec_ok recs -> bytes d -> rec_ok (b, e) ->
  log_of t_addr recs = Some c -> (7 <= n < 7 + length d)%nat ->
  zlen c mod kBlockSize + (kHeaderSize + zlen d) <= kBlockSize ->
  zlen c mod kBlockSize + Z.of_nat n + (kHeaderSize + zlen e) < kBlockSize ->
  let f := c ++ take n (phys kFullType d) in
  let f' := f ++ phys kFullType e in
  let x := take (length d) (drop (length c + 7) f') in
  exists w w', new_Writer_at t_addr f (zlen f) = Some w /\ AddRecord w b e = Some (w', OK) /\ dest_ w' = f' /\
    ((zlen x = zlen d -> crc_ref 0 (1 :: x) <> crc_ref 0 (1 :: d)) ->
     forall fuel, (length f' + 2 <= fuel)%nat -> exists r, reads fuel (new_Reader f' true true backing 0) (map snd recs) r).
Proof.
  intros Ht Hback Hr Hbd He Hc Hn Hfit Hfit2. pose proof (zlen_nonneg d). pose proof (zlen_nonneg e).
  destruct (log_stream t_addr recs c Ht Hr Hc) as (fss & Hfss & Hfits & -> & _). set (c := stream 0 (concat fss)) in *.
  assert (Hzn : zlen (take n (phys kFullType d)) = Z.of_nat n) by (rewrite zlen_take, zlen_phys; unfold kHeaderSize, zlen in *; lia).
  set (f := c ++ take n (phys kFullType d)). cbv zeta. pose proof (Z.mod_pos_bound (zlen c) kBlockSize ltac:(done)).
  assert (Hfo : zlen f mod kBlockSize = zlen c mod kBlockSize + Z.of_nat n).
  { unfold f. rewrite zlen_app, Hzn, <- Zplus_mod_idemp_l. apply Z.mod_small. unfold kHeaderSize in *. lia. }
  destruct (reuse_writer t_addr f b e Ht He ltac:(lia)) as (w & w' & E1 & E2 & E3). exists w, w'. split_and!; try done.
  intros Hcrc fuel Hfuel. set (y := take (n - 7) d ++ phys kFullType e). set (h := take 7 (phys kFullType d)).
  assert (Hf' : f ++ phys kFullType e = c ++ h ++ y) by (unfold f, y; rewrite phys_take, <- !app_assoc by lia; done).
  assert (Hh7 : length h = 7%nat) by (unfold h; rewrite length_take, length_phys; lia).
  rewrite Hf' in *. rewrite app_assoc, drop_app_length' in Hcrc by (rewrite length_app; lia).
  apply (torn_reads fss _ d y); try done.
  - unfold y, bytes. rewrite Forall_app. split; [by apply Forall_take|apply bytes_phys; [apply He|unfold kBlockSize, kHeaderSize in *; lia]].
  - fold h c. pose proof (f_equal zlen Hf') as Hz. unfold f in Hz. rewrite !zlen_app, Hzn, zlen_phys in Hz. rewrite zlen_app. lia.
  - fold c. rewrite length_app in Hfuel. lia.
Qed.
End TornFacts.

(** C6: the log gives back what was written to it, as far as it was written.
    Records of any size appended by a new [Writer] and then cut off at any
    byte [n] are read by [Reader], with checksums on or off, as exactly the
    records that lie completely in the first [n] bytes, in order, and then the
    end of the file; nothing is reported as corrupt.  In particular the whole
    log gives all the records. *)
Theorem log_recovers {P : Platform} t_addr recs reporter checksum backing :
  addr_ok t_addr 0 -> Forall rec_ok recs -> addr_ok backing kBlockSize ->
  exists c, log_of t_addr recs = Some c /\
    forall n fuel, (length c + 2 <= fuel)%nat ->
      exists k r, read_all fuel fuel (new_Reader (take n c) reporter checksum backing 0) = Some (map snd (take k recs), r) /\
        reports_ r = [] /\
        forall j cj, (j <= length recs)%nat -> log_of t_addr (take j recs) = Some cj -> (length cj <= n <-> j <= k)%nat.
Proof.
  intros Ht Hr Hback. destruct (log_reads t_addr recs reporter checksum backing Ht Hr Hback) as (c & Hc & Hlen & Hrd).
  exists c. split; [done|]. intros n fuel Hfuel. destruct (Hrd n fuel Hfuel) as (k & r & Hreads & Hq & Hk).
  exists k, r. rewrite (reads_all _ _ _ _ Hreads fuel); [by split_and!|].
  rewrite length_map, length_take. lia.
Qed.

Lemma log_recovers_witness :
  exists c, log_of (P:=be_host) 64 [(1001, [1; 2; 3]); (2000, []); (3003, [9])] = Some c /\
    forall n fuel, (length c + 2 <= fuel)%nat ->
      exists k r, read_all (P:=be_host) fuel fuel (new_Reader (take n c) true true 4096 0) =
          Some (map snd (take k [(1001, [1; 2; 3]); (2000, []); (3003, [9])]), r) /\ reports_ r = [] /\
        forall j cj, (j <= 3)%nat -> log_of (P:=be_host) 64 (take j [(1001, [1; 2; 3]); (2000, []); (3003, [9])]) = Some cj ->
          (length cj <= n <-> j <= k)%nat.
Proof.
  apply (log_recovers (P:=be_host) 64 [(1001, [1; 2; 3]); (2000, []); (3003, [9])] true true 4096);
    repeat constructor; by vm_compute.
Defined.
