(* ===== verification/LdbRandom.v ===== *)
(** * leveldb: util/random.h

    The multiplicative congruential generator that picks the heights of skip
    list nodes. *)

From Stdlib Require Import ZArith Lia Bool Zpow_facts.
From stdpp Require Import base option list numbers.
From S2P Require Import Prelude.
Open Scope Z_scope.

(** ** The code *)

(** The state is [seed_]. *)
Definition new_Random (s : Z) : Z :=
  let seed := Z.land s 2147483647 in
  if (seed =? 0) || (seed =? 2147483647) then 1 else seed.

Definition Random_M : Z := 2147483647.
Definition Random_A : Z := 16807.
(** The new seed, which is also the result. *)
Definition Random_Next (seed : Z) : Z :=
  let product := u64 (seed * Random_A) in
  let seed := u32 (Z.shiftr product 31 + Z.land product Random_M) in
  if Random_M <? seed then u32 (seed - Random_M) else seed.

(** The int [n] is converted to uint32_t; [None] is a division by zero. *)
Definition Uniform (seed n : Z) : option (Z * Z) :=
  let seed := Random_Next seed in
  if u32 n =? 0 then None else Some (seed, seed mod u32 n).
Definition OneIn (seed n : Z) : option (Z * bool) :=
  let seed := Random_Next seed in
  if u32 n =? 0 then None else Some (seed, seed mod u32 n =? 0).
(** [None] too for a shift by 32 or more. *)
Definition Skewed (seed max_log : Z) : option (Z * Z) :=
  '(seed, k) ← Uniform seed (max_log + 1);
  if k <? 32 then Uniform seed (i32 (Z.shiftl 1 k)) else None.

(** ** Powers modulo m *)

Section PrimitiveRoot.
Context (m a : Z) (Hm : 2 < m) (Hone : a ^ (m - 1) mod m = 1)
  (Hmin : forall n, 0 < n < m - 1 -> a ^ n mod m <> 1).

Lemma pow_mul_1 i j : 0 <= i -> 0 <= j -> a ^ j mod m = 1 -> a ^ (i + j) mod m = a ^ i mod m.
Proof. intros Hi Hj H. rewrite Z.pow_add_r, Z.mul_mod, H, Z.mul_1_r, Z.mod_mod by lia. done. Qed.

Lemma pow_nonzero i : 0 <= i < m - 1 -> 1 <= a ^ i mod m < m.
Proof.
  intros Hi. pose proof (Z.mod_pos_bound (a ^ i) m ltac:(lia)). enough (a ^ i mod m <> 0) by lia.
  intros E. assert (a ^ (i + (m - 1 - i)) mod m = 0).
  { rewrite Z.pow_add_r, Z.mul_mod, E, Z.mul_0_l, Z.mod_0_l by lia. done. }
  replace (i + (m - 1 - i)) with (m - 1) in * by lia. lia.
Qed.

(** Multiply by what takes [a ^ i] to 1. *)
Lemma pow_inj_lt i j : 0 <= i -> i < j < m - 1 -> a ^ i mod m <> a ^ j mod m.
Proof.
  intros Hi Hj E. apply (Hmin (j - i)); [lia|].
  rewrite <- (pow_mul_1 (j - i) (m - 1)) by (done || lia).
  replace (j - i + (m - 1)) with (j + (m - 1 - i)) by lia.
  rewrite Z.pow_add_r, Z.mul_mod, <- E, <- Z.mul_mod, <- Z.pow_add_r by lia.
  by replace (i + (m - 1 - i)) with (m - 1) by lia.
Qed.

Lemma pow_onto t : 1 <= t < m -> exists i, 0 <= i < m - 1 /\ a ^ i mod m = t.
Proof.
  intros Ht. set (L := map (fun i => a ^ i mod m) (seqZ 0 (m - 1))).
  assert (HL : NoDup L).
  { apply NoDup_fmap_2_strong; [|apply NoDup_seqZ].
    intros x y Hx%elem_of_seqZ Hy%elem_of_seqZ E.
    destruct (Z.lt_trichotomy x y) as [?|[?|?]]; [|done|]; exfalso.
    - by apply (pow_inj_lt x y); [lia..|].
    - by apply (pow_inj_lt y x); [lia..|]. }
  assert (HP : L ≡ₚ seqZ 1 (m - 1)).
  { apply submseteq_length_Permutation.
    - apply NoDup_submseteq; [done|]. intros x. unfold L. rewrite list_elem_of_fmap.
      intros (i & -> & Hi%elem_of_seqZ). apply elem_of_seqZ. pose proof (pow_nonzero i). lia.
    - unfold L. by rewrite length_map, !length_seqZ. }
  assert (Hin : t ∈ L) by (rewrite HP; apply elem_of_seqZ; lia).
  apply list_elem_of_fmap in Hin as (i & -> & Hi%elem_of_seqZ). exists i. split; [lia|done].
Qed.

Lemma orbit_onto s t : 1 <= s < m -> 1 <= t < m -> exists k, 0 <= k < m - 1 /\ (s * a ^ k) mod m = t.
Proof.
  intros (i & Hi & <-)%pow_onto (j & Hj & <-)%pow_onto.
  exists ((j - i) mod (m - 1)). split; [apply Z.mod_pos_bound; lia|].
  rewrite Z.mul_mod_idemp_l, <- Z.pow_add_r by (lia || apply Z.mod_pos_bound; lia).
  destruct (Z.le_gt_cases i j).
  - rewrite (Z.mod_small (j - i)) by lia. by replace (i + (j - i)) with j by lia.
  - rewrite <- (Z.mod_add (j - i) 1 (m - 1)), (Z.mod_small (j - i + 1 * (m - 1))) by lia.
    replace (i + (j - i + 1 * (m - 1))) with (j + (m - 1)) by lia. by apply pow_mul_1; lia.
Qed.
End PrimitiveRoot.

(** The exponents that give 1 are closed under gcd. *)
Lemma pow_gcd m a (Hm : 2 < m) n : forall k, 0 <= k -> a ^ Z.of_nat n mod m = 1 -> a ^ k mod m = 1 -> a ^ Z.gcd (Z.of_nat n) k mod m = 1.
Proof.
  induction (lt_wf n) as [n _ IH]. intros k Hk Hn H.
  destruct (decide (n = 0%nat)) as [->|Hn0]; [by rewrite Z.gcd_0_l, Z.abs_eq by lia|].
  pose proof (Z.mod_pos_bound k (Z.of_nat n) ltac:(lia)) as Hb.
  rewrite <- (Z.gcd_mod k (Z.of_nat n)) by lia.
  rewrite <- (Z2Nat.id (k mod Z.of_nat n)) by lia. apply IH; [lia|lia| |done].
  rewrite Z2Nat.id by lia.
  assert (Hq : forall q, (0 <= q)%Z -> a ^ (Z.of_nat n * q) mod m = 1).
  { intros q Hq. rewrite Z.pow_mul_r by lia. rewrite Zpower_mod by lia. rewrite Hn.
    rewrite Z.pow_1_l by lia. apply Z.mod_small. lia. }
  rewrite <- (pow_mul_1 m a Hm (k mod Z.of_nat n) (Z.of_nat n * (k / Z.of_nat n))); [|lia| |apply Hq, Z.div_pos; lia].
  - by rewrite Z.add_comm, <- Z.div_mod by lia.
  - apply Z.mul_nonneg_nonneg; [lia|]. apply Z.div_pos; lia.
Qed.

(** ** The generator *)

(** A divisor of [q * n] that the prime [q] does not divide divides [n]. *)
Lemma peel q e n : 1 < q -> forallb (fun n => Z.gcd n q =? 1) (seqZ 1 (q - 1)) = true ->
  ~ (q | e) -> (e | q * n) -> (e | n).
Proof.
  intros Hq Hp Hn H. apply Z.gauss with q; [done|]. rewrite Z.gcd_comm, <- Z.gcd_mod by lia.
  rewrite forallb_forall in Hp. apply Z.eqb_eq, Hp, list_elem_of_In, elem_of_seqZ.
  pose proof (Z.mod_pos_bound e q ltac:(lia)). enough (e mod q <> 0) by lia.
  intros E. apply Hn, Z.mod_divide; lia.
Qed.

(** Exponentiation by squaring, modulo m. *)
Fixpoint powmod (m a : Z) (p : positive) : Z :=
  match p with
  | xH => a mod m
  | xO p => let r := powmod m a p in (r * r) mod m
  | xI p => let r := powmod m a p in ((r * r) mod m * a) mod m
  end.
Lemma powmod_ok m a p : 0 < m -> powmod m a p = a ^ Zpos p mod m.
Proof.
  intros Hm. induction p as [p IH|p IH|]; cbn [powmod]; rewrite ?IH.
  - rewrite Pos2Z.inj_xI, Z.pow_add_r, Z.pow_1_r, (Z.mul_comm 2), Z.pow_mul_r, Z.pow_2_r by lia.
    rewrite <- (Z.mul_mod (a ^ Zpos p) (a ^ Zpos p)) by lia. by rewrite Z.mul_mod_idemp_l by lia.
  - rewrite Pos2Z.inj_xO, (Z.mul_comm 2), Z.pow_mul_r, Z.pow_2_r by lia. by rewrite <- (Z.mul_mod (a ^ Zpos p) (a ^ Zpos p)) by lia.
  - by rewrite Z.pow_1_r.
Qed.

Lemma Random_fermat : Random_A ^ (Random_M - 1) mod Random_M = 1.
Proof. change (Random_M - 1) with (Zpos 2147483646). rewrite <- (powmod_ok Random_M Random_A 2147483646) by done. by vm_compute. Qed.

(** No smaller power of 16807 is 1: the exponent would divide 2^31-2 over one
    of its prime factors 2, 3, 7, 11, 31, 151, 331. *)
Lemma Random_order n : 0 < n < Random_M - 1 -> Random_A ^ n mod Random_M <> 1.
Proof.
  intros Hn E. set (g := Z.gcd n (Random_M - 1)).
  assert (Hg : Random_A ^ g mod Random_M = 1).
  { unfold g. rewrite <- (Z2Nat.id n) by lia. apply pow_gcd; [done|done|by rewrite Z2Nat.id by lia|exact Random_fermat]. }
  destruct (Z.gcd_divide_r n (Random_M - 1)) as [e He]. fold g in He.
  pose proof (Z.gcd_nonneg n (Random_M - 1)) as Hg0. fold g in Hg0.
  assert (Hgn : g <= n) by (apply Z.divide_pos_le; [lia|apply Z.gcd_divide_l]).
  assert (Hno : forall q, 0 < q -> (q * ((Random_M - 1) / q) = Random_M - 1) ->
     powmod Random_M Random_A (Z.to_pos ((Random_M - 1) / q)) <> 1 -> 0 < (Random_M - 1) / q -> ~ (q | e)).
  { intros q Hq Hd Hp Hpos [c ->]. apply Hp. rewrite powmod_ok, Z2Pos.id by done.
    assert ((Random_M - 1) / q = g * c) as ->.
    { rewrite He. replace (c * q * g) with (g * c * q) by lia. by rewrite Z.div_mul by lia. }
    rewrite Z.pow_mul_r by nia. rewrite Zpower_mod, Hg, Z.pow_1_l by (done || nia). done. }
  assert (Hdiv : (e | 2 * (3 * (3 * (7 * (11 * (31 * (151 * (331 * 1))))))))) by (exists g; unfold Random_M in He; lia).
  repeat (apply peel in Hdiv; [|done|by vm_compute|by apply Hno; vm_compute]).
  apply Z.divide_1_r in Hdiv. unfold Random_M in *. nia.
Qed.

Lemma Random_nonzero s : 1 <= s < Random_M -> (s * Random_A) mod Random_M <> 0.
Proof.
  intros Hs [c Hc]%Z.mod_divide; [|done].
  assert (Hd : (Random_M | s)).
  { apply Z.gauss with Random_A; [exists c; lia|by vm_compute]. }
  apply Z.divide_pos_le in Hd; lia.
Qed.

Lemma Random_Next_mod s : 1 <= s < Random_M -> Random_Next s = (s * Random_A) mod Random_M.
Proof.
  intros Hs. unfold Random_Next, u64, u32. set (p := s * Random_A).
  assert (Hp : 0 < p < 2 ^ 31 * 16807) by (unfold p, Random_A, Random_M in *; lia).
  rewrite (wrap_id 64) by (unfold in_u; lia). change Random_M with (2 ^ 31 - 1).
  rewrite land_low, Z.shiftr_div_pow2 by lia.
  pose proof (Z.div_mod p (2 ^ 31) ltac:(lia)) as Hdm. pose proof (Z.mod_pos_bound p (2 ^ 31) ltac:(lia)).
  assert (0 <= p / 2 ^ 31 < 16807) by (split; [apply Z.div_pos|apply Z.div_lt_upper_bound]; lia).
  set (h := p / 2 ^ 31) in *. set (l := p mod 2 ^ 31) in *.
  rewrite (wrap_id 32) by (unfold in_u; lia).
  pose proof (Random_nonzero s Hs) as Hnz. fold p in Hnz. change Random_M with (2 ^ 31 - 1) in Hnz.
  assert (Hpm : p mod (2 ^ 31 - 1) = (h + l) mod (2 ^ 31 - 1)).
  { rewrite Hdm. replace (2 ^ 31 * h + l) with (h + l + h * (2 ^ 31 - 1)) by lia. by rewrite Z.mod_add by lia. }
  rewrite Hpm in *. destruct (Z.ltb_spec (2 ^ 31 - 1) (h + l)).
  - rewrite (wrap_id 32) by (unfold in_u; lia). rewrite <- (Z.mod_add (h + l) (-1) (2 ^ 31 - 1)) by lia.
    rewrite Z.mod_small; lia.
  - rewrite Z.mod_small; [done|]. split; [lia|]. destruct (decide (h + l = 2 ^ 31 - 1)) as [E|]; [|lia].
    rewrite E, Z.mod_same in Hnz by lia. lia.
Qed.

(** What a seed must be, and stays. *)
Definition seed_ok (s : Z) : Prop := 1 <= s < Random_M.
Lemma new_Random_ok s : seed_ok (new_Random s).
Proof.
  unfold new_Random, seed_ok, Random_M. change 2147483647 with (2 ^ 31 - 1). rewrite land_low by lia.
  pose proof (Z.mod_pos_bound s (2 ^ 31) ltac:(lia)). zb; lia.
Qed.
Lemma Random_Next_ok s : seed_ok s -> seed_ok (Random_Next s).
Proof.
  intros Hs. rewrite Random_Next_mod by done. pose proof (Random_nonzero s Hs).
  pose proof (Z.mod_pos_bound (s * Random_A) Random_M ltac:(done)). unfold seed_ok. lia.
Qed.
Lemma Random_iter k s : seed_ok s ->
  Nat.iter k Random_Next s = (s * Random_A ^ Z.of_nat k) mod Random_M /\ seed_ok (Nat.iter k Random_Next s).
Proof.
  intros Hs. induction k as [|k [IH Hk]]; cbn [Nat.iter nat_rect].
  { rewrite Z.pow_0_r, Z.mul_1_r, Z.mod_small; [done|]. unfold seed_ok in *. lia. }
  split; [|by apply Random_Next_ok]. rewrite Random_Next_mod by done. fold (Nat.iter k Random_Next s). rewrite IH.
  rewrite Z.mul_mod_idemp_l, Nat2Z.inj_succ, Z.pow_succ_r by (done || lia). f_equal. lia.
Qed.

(** The generator is the one its comments describe.  From any seed the
    constructor leaves a state between 1 and 2^31-2; [Next] computes
    seed * 16807 modulo 2^31-1 with shifts and stays in that range; and from any
    such state the sequence reaches every value of the range, within 2^31-2
    steps. *)
Lemma Random_cycles :
  (forall s, seed_ok (new_Random s)) /\
  (forall s, seed_ok s -> Random_Next s = (s * 16807) mod (2 ^ 31 - 1) /\ seed_ok (Random_Next s)) /\
  (forall s t, seed_ok s -> seed_ok t -> exists k, Z.of_nat k < 2 ^ 31 - 2 /\ Nat.iter k Random_Next s = t).
Proof.
  split_and!; [exact new_Random_ok|intros s Hs; split; [by apply Random_Next_mod|by apply Random_Next_ok]|].
  intros s t Hs Ht. destruct (orbit_onto Random_M Random_A) with (s := s) (t := t) as (k & Hk & E);
    [done|exact Random_fermat|exact Random_order|exact Hs|exact Ht|].
  exists (Z.to_nat k). rewrite Z2Nat.id by lia. split; [unfold Random_M in Hk; lia|].
  destruct (Random_iter (Z.to_nat k) s Hs) as [-> _]. by rewrite Z2Nat.id by lia.
Qed.
