(* ===== verification/LdbArena.v ===== *)
(** * leveldb: util/arena.h and util/arena.cc

    The bump allocator of the memtable.  The memory it hands out is only an
    address here; [new char[]] is the interface [Malloc]. *)

From Stdlib Require Import ZArith Lia Bool.
From stdpp Require Import base option list numbers.
From S2P Require Import Prelude.
Open Scope Z_scope.

(** ** The memory below the arena *)

(** The address of a new array, which may depend on the arrays that the arena
    already has (address and size).  The laws are those of [operator new]: the
    array is aligned and overlaps no live one.  Running out of memory is not
    modelled. *)
Class Malloc := { new_char : list (Z * Z) -> Z -> Z }.

Definition disjoint_range (x y : Z * Z) : Prop := x.1 + x.2 <= y.1 \/ y.1 + y.2 <= x.1.
Class MallocLaws {M : Malloc} := {
  new_char_fresh : forall bs n, 0 < n -> Forall (disjoint_range (new_char bs n, n)) bs;
  new_char_aligned : forall bs n, 0 < n -> new_char bs n mod 8 = 0 /\ 0 < new_char bs n
}.

(** ** The code *)

Definition kBlockSize : Z := 4096.

(** [blocks_] has the size of each block beside its address. *)
Record Arena := mk_arena {
  alloc_ptr_ : Z;
  alloc_bytes_remaining_ : Z;
  blocks_ : list (Z * Z);
  memory_usage_ : Z
}.

Definition new_Arena : Arena := mk_arena 0 0 [] 0.
Definition MemoryUsage (a : Arena) : Z := memory_usage_ a.

Definition AllocateNewBlock {M : Malloc} (a : Arena) (block_bytes : Z) : Arena * Z :=
  let result := new_char (blocks_ a) block_bytes in
  (mk_arena (alloc_ptr_ a) (alloc_bytes_remaining_ a) (blocks_ a ++ [(result, block_bytes)])
     (u64 (MemoryUsage a + block_bytes + 8)), result).

Definition AllocateFallback {M : Malloc} (a : Arena) (bytes : Z) : Arena * Z :=
  if kBlockSize / 4 <? bytes then AllocateNewBlock a bytes
  else
    let '(a, p) := AllocateNewBlock a kBlockSize in
    let a := mk_arena p kBlockSize (blocks_ a) (memory_usage_ a) in
    let result := alloc_ptr_ a in
    (mk_arena (alloc_ptr_ a + bytes) (alloc_bytes_remaining_ a - bytes) (blocks_ a) (memory_usage_ a), result).

Definition Allocate {M : Malloc} (a : Arena) (bytes : Z) : option (Arena * Z) :=
  if negb (0 <? bytes) then None
  else if bytes <=? alloc_bytes_remaining_ a then
    Some (mk_arena (alloc_ptr_ a + bytes) (alloc_bytes_remaining_ a - bytes) (blocks_ a) (memory_usage_ a), alloc_ptr_ a)
  else Some (AllocateFallback a bytes).

Definition AllocateAligned {M : Malloc} (a : Arena) (bytes : Z) : option (Arena * Z) :=
  let align := 8 in
  if negb (Z.land align (align - 1) =? 0) then None
  else
    let current_mod := Z.land (alloc_ptr_ a) (align - 1) in
    let slop := if current_mod =? 0 then 0 else align - current_mod in
    let needed := u64 (bytes + slop) in
    let '(a, result) :=
      if needed <=? alloc_bytes_remaining_ a then
        (mk_arena (alloc_ptr_ a + needed) (alloc_bytes_remaining_ a - needed) (blocks_ a) (memory_usage_ a), alloc_ptr_ a + slop)
      else AllocateFallback a bytes in
    if negb (Z.land result (align - 1) =? 0) then None else Some (a, result).

(** ** What the arena keeps true *)

Definition within (x y : Z * Z) : Prop := y.1 <= x.1 /\ x.1 + x.2 <= y.1 + y.2.
Definition free_part (a : Arena) : Z * Z := (alloc_ptr_ a, alloc_bytes_remaining_ a).

(** [used] is what has been handed out. *)
Record arena_inv (a : Arena) (used : list (Z * Z)) : Prop := {
  ai_rem : 0 <= alloc_bytes_remaining_ a;
  ai_free : alloc_bytes_remaining_ a = 0 \/ exists b, b ∈ blocks_ a /\ within (free_part a) b;
  ai_blocks : Forall (fun b => 0 < b.1) (blocks_ a);
  ai_sep : ForallOrdPairs disjoint_range (blocks_ a);
  ai_within : Forall (fun x => 0 < x.2 /\ exists b, b ∈ blocks_ a /\ within x b) used;
  ai_used_free : Forall (fun x => alloc_bytes_remaining_ a = 0 \/ disjoint_range x (free_part a)) used;
  ai_used : ForallOrdPairs disjoint_range used;
  ai_usage : memory_usage_ a = u64 (foldr (fun b n => b.2 + 8 + n) 0 (blocks_ a))
}.

(** What an allocator of aligned memory promises its clients. *)
Class AlignedAlloc (A : Type) := { aa_allocate : A -> Z -> option (A * Z) }.
Class AlignedAllocLaws (A : Type) {H : AlignedAlloc A} := {
  aa_inv : A -> list (Z * Z) -> Prop;
  aa_ok a used n : aa_inv a used -> 0 < n < 2 ^ 32 ->
    exists a' p, aa_allocate a n = Some (a', p) /\ aa_inv a' ((p, n) :: used) /\ 0 < p /\ p mod 8 = 0 /\
      Forall (disjoint_range (p, n)) used;
  aa_pos a used : aa_inv a used -> Forall (fun x => 0 < x.2) used
}.
Section ArenaFacts.
Context {M : Malloc} {ML : MallocLaws}.

Lemma disjoint_sym x y : disjoint_range x y -> disjoint_range y x.
Proof. unfold disjoint_range. lia. Qed.
Lemma disjoint_within x y b : within x b -> disjoint_range b y -> disjoint_range x y.
Proof. unfold within, disjoint_range. lia. Qed.

(** A range of the free part becomes used: it starts [slop] bytes into it. *)
Lemma inv_bump a used slop n :
  arena_inv a used -> 0 < n -> 0 <= slop -> slop + n <= alloc_bytes_remaining_ a ->
  arena_inv (mk_arena (alloc_ptr_ a + (slop + n)) (alloc_bytes_remaining_ a - (slop + n)) (blocks_ a) (memory_usage_ a))
    ((alloc_ptr_ a + slop, n) :: used) /\ 0 < alloc_ptr_ a + slop /\ Forall (disjoint_range (alloc_ptr_ a + slop, n)) used.
Proof.
  intros [] Hn Hs Hle. destruct ai_free0 as [?|(b & Hb & Hw)]; [lia|].
  assert (Hd : Forall (disjoint_range (alloc_ptr_ a + slop, n)) used).
  { eapply list.Forall_impl; [exact ai_used_free0|]. intros x [?|Hx]; [lia|]. unfold disjoint_range, free_part in *. simpl in *. lia. }
  assert (0 < b.1) by (by eapply list.Forall_forall in ai_blocks0).
  unfold within, free_part in Hw. simpl in Hw. split_and!; [|lia|done].
  split; cbn [alloc_ptr_ alloc_bytes_remaining_ blocks_ memory_usage_]; try done; [lia| | | |by constructor].
  - right. exists b. split; [done|]. unfold within, free_part. simpl. lia.
  - constructor; [|done]. split; [done|]. exists b. split; [done|]. unfold within. simpl. lia.
  - constructor.
    + right. unfold disjoint_range, free_part. simpl. lia.
    + eapply list.Forall_impl; [exact ai_used_free0|]. intros x [?|Hx]; [lia|]. right. unfold disjoint_range, free_part in *. simpl in *. lia.
Qed.

Lemma pairs_snoc (l : list (Z * Z)) y : ForallOrdPairs disjoint_range l -> Forall (disjoint_range y) l -> ForallOrdPairs disjoint_range (l ++ [y]).
Proof.
  induction 1 as [|x l Hx Hl IH]; simpl; intros Hy; [by repeat constructor|]. apply list.Forall_cons in Hy as [Hy1 Hy2].
  constructor; [|by apply IH]. apply Forall_app. split; [done|]. constructor; [|done]. by apply disjoint_sym.
Qed.
Lemma usage_snoc (l : list (Z * Z)) p n : foldr (fun b n => b.2 + 8 + n) 0 (l ++ [(p, n)]) = foldr (fun b n => b.2 + 8 + n) 0 l + n + 8.
Proof. induction l as [|x l IH]; simpl; lia. Qed.

(** The blocks grow by one, which is disjoint from all that is used. *)
Lemma new_block a used n :
  arena_inv a used -> 0 < n ->
  exists p, AllocateNewBlock a n = (mk_arena (alloc_ptr_ a) (alloc_bytes_remaining_ a) (blocks_ a ++ [(p, n)]) (u64 (memory_usage_ a + n + 8)), p) /\
    arena_inv (mk_arena (alloc_ptr_ a) (alloc_bytes_remaining_ a) (blocks_ a ++ [(p, n)]) (u64 (memory_usage_ a + n + 8))) used /\
    0 < p /\ p mod 8 = 0 /\ Forall (disjoint_range (p, n)) used /\
    (alloc_bytes_remaining_ a = 0 \/ disjoint_range (p, n) (free_part a)).
Proof.
  intros [] Hn. pose proof (new_char_fresh (blocks_ a) n Hn) as Hf. destruct (new_char_aligned (blocks_ a) n Hn) as [Hal Hp].
  exists (new_char (blocks_ a) n). rewrite list.Forall_forall in Hf.
  split_and!; try done.
  - split; cbn [alloc_ptr_ alloc_bytes_remaining_ blocks_ memory_usage_]; try done.
    + destruct ai_free0 as [?|(b & Hb & ?)]; [by left|]. right. exists b. split; [|done]. apply elem_of_app. by left.
    + apply Forall_app. split; [done|]. by constructor.
    + apply pairs_snoc; [done|]. by apply list.Forall_forall.
    + eapply list.Forall_impl; [exact ai_within0|]. intros x (? & b & Hb & Hw). split; [done|]. exists b.
      split; [apply elem_of_app; by left|done].
    + rewrite usage_snoc, ai_usage0. unfold u64, wrap. by rewrite <- Z.add_assoc, Z.add_mod_idemp_l, Z.add_assoc by lia.
  - eapply list.Forall_impl; [exact ai_within0|]. intros x (? & b & Hb & Hw). apply disjoint_sym. eapply disjoint_within; [done|].
    apply disjoint_sym. by apply Hf.
  - destruct ai_free0 as [?|(b & Hb & Hw)]; [by left|]. right. apply disjoint_sym. eapply disjoint_within; [done|].
    apply disjoint_sym. by apply Hf.
Qed.

Lemma fallback_ok a used n :
  arena_inv a used -> 0 < n ->
  exists a' p, AllocateFallback a n = (a', p) /\ arena_inv a' ((p, n) :: used) /\ 0 < p /\ p mod 8 = 0 /\
    Forall (disjoint_range (p, n)) used.
Proof.
  intros Hi Hn. unfold AllocateFallback, kBlockSize. change (4096 / 4) with 1024. destruct (Z.ltb_spec 1024 n) as [Hbig|Hsmall].
  - destruct (new_block a used n Hi Hn) as (p & -> & [] & Hp & Hal & Hd & Hfree). eexists _, _. split_and!; try done.
    cbn [alloc_ptr_ alloc_bytes_remaining_ blocks_ memory_usage_] in *.
    split; cbn [alloc_ptr_ alloc_bytes_remaining_ blocks_ memory_usage_]; try done; [|by constructor..].
    constructor; [|done]. split; [done|]. exists (p, n). split; [apply elem_of_app; right; by constructor|].
    unfold within. simpl. lia.
  - destruct (new_block a used 4096 Hi ltac:(lia)) as (p & -> & Hi2 & Hp & Hal & Hd & Hfree).
    cbn [alloc_ptr_ alloc_bytes_remaining_ blocks_ memory_usage_].
    set (a1 := mk_arena p 4096 (blocks_ a ++ [(p, 4096)]) (u64 (memory_usage_ a + 4096 + 8))).
    assert (H1 : arena_inv a1 used).
    { destruct Hi2. split; try done.
      - right. exists (p, 4096). split; [apply elem_of_app; right; by constructor|]. unfold within, free_part. simpl. lia.
      - eapply list.Forall_impl; [exact Hd|]. intros x Hx. right. apply disjoint_sym. exact Hx. }
    destruct (inv_bump a1 used 0 n H1 Hn ltac:(lia)) as (Hb & _ & Hdd); [simpl; lia|].
    cbn [a1 alloc_ptr_ alloc_bytes_remaining_ blocks_ memory_usage_] in Hb, Hdd. rewrite !Z.add_0_l, Z.add_0_r in *.
    eexists _, _. split_and!; try done.
Qed.

Lemma Allocate_ok a used n : arena_inv a used -> 0 < n ->
  exists a' p, Allocate a n = Some (a', p) /\ arena_inv a' ((p, n) :: used) /\ 0 < p /\ Forall (disjoint_range (p, n)) used.
Proof.
  intros Hi Hn. unfold Allocate. rewrite (proj2 (Z.ltb_lt 0 n)) by done. simpl negb. cbv iota.
  destruct (Z.leb_spec n (alloc_bytes_remaining_ a)).
  - destruct (inv_bump a used 0 n Hi Hn ltac:(lia) ltac:(lia)) as (Hb & Hp & Hd). rewrite !Z.add_0_l, !Z.add_0_r in *.
    eexists _, _. split_and!; try done.
  - destruct (fallback_ok a used n Hi Hn) as (a' & p & -> & ? & ? & ? & ?). eexists _, _. split_and!; try done.
Qed.

Lemma land_7 x : Z.land x (8 - 1) = x mod 8.
Proof. change (8 - 1) with (2 ^ 3 - 1). by rewrite land_low. Qed.

Lemma AllocateAligned_ok a used n : arena_inv a used -> 0 < n < 2 ^ 32 ->
  exists a' p, AllocateAligned a n = Some (a', p) /\ arena_inv a' ((p, n) :: used) /\ 0 < p /\ p mod 8 = 0 /\
    Forall (disjoint_range (p, n)) used.
Proof.
  intros Hi Hn. unfold AllocateAligned. change (Z.land 8 (8 - 1)) with 0. simpl negb. cbv iota.
  rewrite land_7.
  pose proof (Z.mod_pos_bound (alloc_ptr_ a) 8 ltac:(lia)) as Hm.
  set (slop := if alloc_ptr_ a mod 8 =? 0 then 0 else 8 - alloc_ptr_ a mod 8).
  assert (Hs : 0 <= slop < 8 /\ (alloc_ptr_ a + slop) mod 8 = 0).
  { unfold slop. pose proof (Z.div_mod (alloc_ptr_ a) 8 ltac:(lia)) as E. zb; split; try lia; [by rewrite Z.add_0_r|].
    replace (alloc_ptr_ a + (8 - alloc_ptr_ a mod 8)) with ((alloc_ptr_ a / 8 + 1) * 8) by lia. apply Z.mod_mul. lia. }
  unfold u64. rewrite wrap_id by (unfold in_u; lia). rewrite (Z.add_comm n slop).
  destruct (Z.leb_spec (slop + n) (alloc_bytes_remaining_ a)).
  - destruct (inv_bump a used slop n Hi ltac:(lia) ltac:(lia) ltac:(lia)) as (Hb & Hp & Hd).
    cbv beta iota. rewrite land_7. destruct Hs as [_ Hal]. rewrite Hal.
    eexists _, _. split_and!; try done.
  - destruct (fallback_ok a used n Hi ltac:(lia)) as (a' & p & -> & ? & ? & Hal & ?).
    cbv beta iota. rewrite land_7. rewrite Hal. eexists _, _. split_and!; try done.
Qed.

Lemma new_Arena_inv : arena_inv new_Arena [].
Proof. split; simpl; try constructor; try done; by left. Qed.
End ArenaFacts.

#[export] Instance arena_alloc {M : Malloc} : AlignedAlloc Arena := {| aa_allocate := AllocateAligned |}.
#[export] Program Instance arena_alloc_laws {M : Malloc} {ML : MallocLaws} : AlignedAllocLaws Arena := {|
  aa_inv := arena_inv;
  aa_ok := AllocateAligned_ok
|}.
Next Obligation. intros M ML a used []. eapply list.Forall_impl; [exact ai_within0|]. by intros x [? _]. Qed.

(** ** Sequences of allocations *)

Inductive request := Plain (n : Z) | Aligned (n : Z).
Definition request_size (r : request) : Z := match r with Plain n | Aligned n => n end.

(** What is handed out, in order. *)
Fixpoint allocate_all {M : Malloc} (a : Arena) (rs : list request) : option (Arena * list (Z * Z)) :=
  match rs with
  | [] => Some (a, [])
  | r :: rs =>
      '(a, p) ← (match r with Plain n => Allocate a n | Aligned n => AllocateAligned a n end);
      '(a, l) ← allocate_all a rs;
      Some (a, (p, request_size r) :: l)
  end.

Lemma allocate_all_ok {M : Malloc} {ML : MallocLaws} rs : Forall (fun r => 0 < request_size r < 2 ^ 32) rs ->
  forall a used, arena_inv a used ->
  exists a' l, allocate_all a rs = Some (a', l) /\ arena_inv a' (rev l ++ used) /\
    Forall2 (fun r x => x.2 = request_size r /\ match r with Aligned _ => x.1 mod 8 = 0 | _ => True end) rs l.
Proof.
  induction 1 as [|r rs Hr Hrs IH]; intros a used Hi; cbn [allocate_all]; [eexists _, _; split_and!; try done; constructor|].
  assert (exists a1 p, match r with Plain n => Allocate a n | Aligned n => AllocateAligned a n end = Some (a1, p) /\
    arena_inv a1 ((p, request_size r) :: used) /\ match r with Aligned _ => p mod 8 = 0 | _ => True end) as (a1 & p & -> & H1 & Hal).
  { destruct r as [n|n]; cbn [request_size] in *.
    - destruct (Allocate_ok a used n Hi ltac:(lia)) as (a1 & p & ? & ? & _). by exists a1, p.
    - destruct (AllocateAligned_ok a used n Hi ltac:(lia)) as (a1 & p & ? & ? & _ & ? & _). by exists a1, p. }
  cbn [mbind option_bind]. destruct (IH _ _ H1) as (a' & l & -> & Hi' & Hl). cbn [mbind option_bind].
  eexists _, _. split_and!; [done| |by constructor]. simpl. by rewrite <- app_assoc.
Qed.

Lemma pairs_app_l (l k : list (Z * Z)) : ForallOrdPairs disjoint_range (rev l ++ k) -> ForallOrdPairs disjoint_range l.
Proof.
  revert k. induction l as [|x l IH]; intros k; simpl; [constructor|]. rewrite <- app_assoc. intros H. constructor; [|by eapply IH].
  clear IH. rewrite <- (rev_involutive l). apply Forall_rev. induction (rev l) as [|y m IH]; [done|]. simpl in H. inversion H as [|? ? H1 H2]; subst.
  constructor; [|by apply IH]. apply Forall_app in H1 as [_ H1]. apply list.Forall_cons in H1 as [H1 _]. by apply disjoint_sym.
Qed.

(** C27: the arena hands out memory that is the client's own.  A new arena asked
    for any sequence of blocks, with or without alignment, returns every time;
    the ranges it returns have the sizes asked for, no two of them overlap,
    each lies inside one array obtained from [new], those asked for with
    alignment are aligned, and [MemoryUsage] is the size of the arrays and of a
    pointer to each. *)
Theorem arena_separates {M : Malloc} {ML : MallocLaws} rs :
  Forall (fun r => 0 < request_size r < 2 ^ 32) rs ->
  exists a l, allocate_all new_Arena rs = Some (a, l) /\ ForallOrdPairs disjoint_range l /\
    Forall2 (fun r x => x.2 = request_size r /\ (exists b, b ∈ blocks_ a /\ within x b) /\
               match r with Aligned _ => x.1 mod 8 = 0 | _ => True end) rs l /\
    MemoryUsage a = u64 (foldr (fun b n => b.2 + 8 + n) 0 (blocks_ a)).
Proof.
  intros Hr. destruct (allocate_all_ok rs Hr _ _ new_Arena_inv) as (a & l & -> & [] & Hl). rewrite app_nil_r in *.
  exists a, l. split_and!; [done| | |exact ai_usage0].
  - apply (pairs_app_l l []). by rewrite app_nil_r.
  - apply Forall_rev in ai_within0. rewrite rev_involutive in ai_within0. clear -Hl ai_within0. induction Hl as [|r x rs l [Hs Ha] Hl IH]; [constructor|].
    apply list.Forall_cons in ai_within0 as [[_ Hw] Hws]. constructor; [done|by apply IH].
Qed.

(** Arrays one after the other. *)
Definition bump_malloc : Malloc := {| new_char := fun bs _ => 8 * (foldr (fun b m => Z.max (b.1 + b.2) m) 0 bs + 1) |}.
Lemma bump_laws : MallocLaws (M := bump_malloc).
Proof.
  assert (Hnn : forall bs, 0 <= foldr (fun (b : Z * Z) m => Z.max (b.1 + b.2) m) 0 bs) by (induction bs; simpl; lia).
  split; intros bs n Hn; cbn [new_char bump_malloc].
  - assert (H : Forall (fun b : Z * Z => b.1 + b.2 <= foldr (fun b m => Z.max (b.1 + b.2) m) 0 bs) bs).
    { induction bs as [|b bs IH]; constructor; cbn [foldr]; [lia|]. eapply list.Forall_impl; [exact IH|]. intros c Hc. simpl in *. lia. }
    eapply list.Forall_impl; [exact H|]. intros b Hb. right. simpl. pose proof (Hnn bs) as Hq. simpl in Hb |- *. lia.
  - rewrite Z.mul_comm, Z.mod_mul by lia. pose proof (Hnn bs). lia.
Qed.

Lemma arena_separates_witness : exists a l, allocate_all (M := bump_malloc) new_Arena [Plain 5; Aligned 24; Plain 2000; Plain 4090] = Some (a, l) /\
  ForallOrdPairs disjoint_range l /\
  Forall2 (fun r x => x.2 = request_size r /\ (exists b, b ∈ blocks_ a /\ within x b) /\
             match r with Aligned _ => x.1 mod 8 = 0 | _ => True end) [Plain 5; Aligned 24; Plain 2000; Plain 4090] l /\
  MemoryUsage a = u64 (foldr (fun b n => b.2 + 8 + n) 0 (blocks_ a)).
Proof.
  apply (arena_separates (M := bump_malloc) (ML := bump_laws) [Plain 5; Aligned 24; Plain 2000; Plain 4090]).
  repeat constructor; simpl; lia.
Defined.
