(* ===== verification/LdbSkiplist.v ===== *)
(** * leveldb: db/skiplist.h

    The skip list under the memtable.  Nodes are in a store keyed by the
    address that the arena gave them; the null pointer is 0.  [None] is a
    failed [assert], the dereference of an address without a node, an index
    outside an array or the read of a cell that was never written.

    The second half is about readers that run while a writer inserts: the
    memory is taken to be sequentially consistent, and every load and store of a
    link or of [max_height_] is a step of its own. *)

From Stdlib Require Import ZArith Lia Bool.
From stdpp Require Import base option list numbers gmap sorting.
From S2P Require Import Prelude LdbRandom LdbArena.
Open Scope Z_scope.

(** ** The code *)

(** The template arguments: the comparison object, which may fail, and the key
    of the head, which is never looked at. *)
Class SkipListKey (Key : Type) := {
  compare_ : Key -> Key -> option Z;
  any_key : Key;
  sizeof_Node : Z
}.

Definition kMaxHeight : Z := 12.
Definition kBranching : Z := 4.

Section Code.
Context {A : Type} {AA : AlignedAlloc A} {Key : Type} {SK : SkipListKey Key}.

(** A cell of [next_] is [None] until it is written. *)
Record Node := mk_node { key : Key; next_ : list (option Z) }.
Record SkipList := mk_skiplist {
  arena_ : A;
  head_ : Z;
  max_height_ : Z;
  rnd_ : Z;
  nodes : gmap Z Node
}.
Definition set_nodes (sl : SkipList) (m : gmap Z Node) : SkipList :=
  mk_skiplist (arena_ sl) (head_ sl) (max_height_ sl) (rnd_ sl) m.
Definition set_max_height (sl : SkipList) (h : Z) : SkipList :=
  mk_skiplist (arena_ sl) (head_ sl) h (rnd_ sl) (nodes sl).

Definition GetMaxHeight (sl : SkipList) : Z := max_height_ sl.

Definition Next (sl : SkipList) (x n : Z) : option Z :=
  if negb (0 <=? n) then None else nd ← nodes sl !! x; c ← znth (next_ nd) n; c.
Definition SetNext (sl : SkipList) (x n v : Z) : option SkipList :=
  if negb (0 <=? n) then None
  else
    nd ← nodes sl !! x;
    l ← zset (next_ nd) n (Some v);
    Some (set_nodes sl (<[x := mk_node (key nd) l]> (nodes sl))).
(** Without a barrier: the same here. *)
Definition NoBarrier_Next (sl : SkipList) (x n : Z) : option Z := Next sl x n.
Definition NoBarrier_SetNext (sl : SkipList) (x n v : Z) : option SkipList := SetNext sl x n v.

Definition NewNode (sl : SkipList) (k : Key) (height : Z) : option (SkipList * Z) :=
  '(a, mem) ← aa_allocate (arena_ sl) (sizeof_Node + 8 * (height - 1));
  Some (mk_skiplist a (head_ sl) (max_height_ sl) (rnd_ sl)
          (<[mem := mk_node k (replicate (Z.to_nat height) None)]> (nodes sl)), mem).

Definition Equal (a b : Key) : option bool := c ← compare_ a b; Some (c =? 0).

Fixpoint RandomHeight_loop (fuel : nat) (rnd height : Z) : option (Z * Z) :=
  match fuel with
  | O => None
  | S fuel =>
      if height <? kMaxHeight then
        let rnd := Random_Next rnd in
        if rnd mod kBranching =? 0 then RandomHeight_loop fuel rnd (height + 1) else Some (rnd, height)
      else Some (rnd, height)
  end.
Definition RandomHeight (sl : SkipList) : option (SkipList * Z) :=
  '(rnd, height) ← RandomHeight_loop (Z.to_nat kMaxHeight) (rnd_ sl) 1;
  if negb (0 <? height) then None
  else if negb (height <=? kMaxHeight) then None
  else Some (mk_skiplist (arena_ sl) (head_ sl) (max_height_ sl) rnd (nodes sl), height).

Definition KeyIsAfterNode (sl : SkipList) (k : Key) (n : Z) : option bool :=
  if n =? 0 then Some false
  else nd ← nodes sl !! n; c ← compare_ (key nd) k; Some (c <? 0).

(** An upper bound on the steps of a search. *)
Definition search_fuel (sl : SkipList) : nat := (size (nodes sl) + Z.to_nat (max_height_ sl))%nat.

(** The array [prev] is [None] when the pointer is null. *)
Fixpoint FindGreaterOrEqual_loop (fuel : nat) (sl : SkipList) (k : Key) (x level : Z) (prev : option (list (option Z)))
    : option (Z * option (list (option Z))) :=
  match fuel with
  | O => None
  | S fuel =>
      next ← Next sl x level;
      after ← KeyIsAfterNode sl k next;
      if (after : bool) then FindGreaterOrEqual_loop fuel sl k next level prev
      else
        prev ← (match prev with
                | None => Some None
                | Some p => p ← zset p level (Some x); Some (Some p)
                end);
        if level =? 0 then Some (next, prev)
        else FindGreaterOrEqual_loop fuel sl k x (level - 1) prev
  end.
Definition FindGreaterOrEqual (sl : SkipList) (k : Key) (prev : option (list (option Z)))
    : option (Z * option (list (option Z))) :=
  FindGreaterOrEqual_loop (search_fuel sl) sl k (head_ sl) (GetMaxHeight sl - 1) prev.

Fixpoint FindLessThan_loop (fuel : nat) (sl : SkipList) (k : Key) (x level : Z) : option Z :=
  match fuel with
  | O => None
  | S fuel =>
      before ← (if x =? head_ sl then Some true
                else nd ← nodes sl !! x; c ← compare_ (key nd) k; Some (c <? 0));
      if negb before then None
      else
        next ← Next sl x level;
        stop ← (if next =? 0 then Some true
                else nd ← nodes sl !! next; c ← compare_ (key nd) k; Some (0 <=? c));
        if (stop : bool) then
          if level =? 0 then Some x else FindLessThan_loop fuel sl k x (level - 1)
        else FindLessThan_loop fuel sl k next level
  end.
Definition FindLessThan (sl : SkipList) (k : Key) : option Z :=
  FindLessThan_loop (search_fuel sl) sl k (head_ sl) (GetMaxHeight sl - 1).

Fixpoint FindLast_loop (fuel : nat) (sl : SkipList) (x level : Z) : option Z :=
  match fuel with
  | O => None
  | S fuel =>
      next ← Next sl x level;
      if next =? 0 then
        if level =? 0 then Some x else FindLast_loop fuel sl x (level - 1)
      else FindLast_loop fuel sl next level
  end.
Definition FindLast (sl : SkipList) : option Z :=
  FindLast_loop (search_fuel sl) sl (head_ sl) (GetMaxHeight sl - 1).

(** The loop of the constructor. *)
Fixpoint clear_head (n : nat) (i : Z) (sl : SkipList) : option SkipList :=
  match n with
  | O => Some sl
  | S n => sl ← SetNext sl (head_ sl) i 0; clear_head n (i + 1) sl
  end.
Definition new_SkipList (arena : A) : option SkipList :=
  '(sl, head) ← NewNode (mk_skiplist arena 0 0 0 ∅) any_key kMaxHeight;
  clear_head (Z.to_nat kMaxHeight) 0 (mk_skiplist (arena_ sl) head 1 (new_Random 3735928559) (nodes sl)).

(** [Insert] up to the first store to shared memory: the search, the assertion,
    the height and the rest of [prev]. *)
Fixpoint fill_prev (n : nat) (i : Z) (head : Z) (prev : list (option Z)) : option (list (option Z)) :=
  match n with
  | O => Some prev
  | S n => prev ← zset prev i (Some head); fill_prev n (i + 1) head prev
  end.
Definition Insert_prepare (sl : SkipList) (k : Key) : option (SkipList * list (option Z) * Z) :=
  '(x, prev) ← FindGreaterOrEqual sl k (Some (replicate (Z.to_nat kMaxHeight) None));
  prev ← prev;
  same ← (if x =? 0 then Some false else nd ← nodes sl !! x; Equal k (key nd));
  if (same : bool) then None
  else
    '(sl, height) ← RandomHeight sl;
    prev ← (if GetMaxHeight sl <? height
            then fill_prev (Z.to_nat (height - GetMaxHeight sl)) (GetMaxHeight sl) (head_ sl) prev
            else Some prev);
    Some (sl, prev, height).
(** The store to [max_height_]. *)
Definition Insert_raise (sl : SkipList) (height : Z) : SkipList :=
  if GetMaxHeight sl <? height then set_max_height sl height else sl.
(** The two stores for one level: the link of the new node, which nobody can
    see yet, and the one that publishes it. *)
Definition link_new (sl : SkipList) (x : Z) (prev : list (option Z)) (i : Z) : option SkipList :=
  p ← znth prev i; p ← p; nx ← NoBarrier_Next sl p i; NoBarrier_SetNext sl x i nx.
Definition link_prev (sl : SkipList) (x : Z) (prev : list (option Z)) (i : Z) : option SkipList :=
  p ← znth prev i; p ← p; SetNext sl p i x.
Fixpoint link_loop (n : nat) (i : Z) (sl : SkipList) (x : Z) (prev : list (option Z)) : option SkipList :=
  match n with
  | O => Some sl
  | S n => sl ← link_new sl x prev i; sl ← link_prev sl x prev i; link_loop n (i + 1) sl x prev
  end.
Definition Insert (sl : SkipList) (k : Key) : option SkipList :=
  '(sl, prev, height) ← Insert_prepare sl k;
  let sl := Insert_raise sl height in
  '(sl, x) ← NewNode sl k height;
  link_loop (Z.to_nat height) 0 sl x prev.

Definition Contains (sl : SkipList) (k : Key) : option bool :=
  '(x, _) ← FindGreaterOrEqual sl k None;
  if x =? 0 then Some false else nd ← nodes sl !! x; Equal k (key nd).

(** The iterator: its state is [node_]. *)
Definition new_Iterator : Z := 0.
Definition Iter_Valid (node : Z) : bool := negb (node =? 0).
Definition Iter_key (sl : SkipList) (node : Z) : option Key :=
  if negb (Iter_Valid node) then None else nd ← nodes sl !! node; Some (key nd).
Definition Iter_Next (sl : SkipList) (node : Z) : option Z :=
  if negb (Iter_Valid node) then None else Next sl node 0.
Definition Iter_Prev (sl : SkipList) (node : Z) : option Z :=
  if negb (Iter_Valid node) then None
  else
    nd ← nodes sl !! node;
    node ← FindLessThan sl (key nd);
    Some (if node =? head_ sl then 0 else node).
Definition Iter_Seek (sl : SkipList) (target : Key) : option Z :=
  '(x, _) ← FindGreaterOrEqual sl target None; Some x.
Definition Iter_SeekToFirst (sl : SkipList) : option Z := Next sl (head_ sl) 0.
Definition Iter_SeekToLast (sl : SkipList) : option Z :=
  node ← FindLast sl; Some (if node =? head_ sl then 0 else node).
End Code.
Arguments Node : clear implicits.
Arguments SkipList : clear implicits.

(** ** The list that the nodes make *)

(** What the comparison object must be: a strict order on the keys in use.
    Keys neither of which is below the other are equal to it. *)
Class SkipListKeyLaws (Key : Type) {SK : SkipListKey Key} := {
  good : Key -> Prop;
  klt : Key -> Key -> Prop;
  klt_trans a b c : good a -> good b -> good c -> klt a b -> klt b c -> klt a c;
  compare_ok a b : good a -> good b -> exists c, compare_ a b = Some c /\ (c < 0 <-> klt a b) /\ (0 < c <-> klt b a);
  sizeof_Node_ok : 0 < sizeof_Node < 2 ^ 31
}.

Section Facts.
Context {A : Type} {AA : AlignedAlloc A} {AL : AlignedAllocLaws A}.
Context {Key : Type} {SK : SkipListKey Key} {SKL : SkipListKeyLaws Key}.

(** A node of the list: its address, its key and the number of levels at which
    it is linked, which is less than its height while [Insert] is at work. *)
Record entry := mk_entry { e_addr : Z; e_key : Key; e_height : Z }.

(** The first node of [l] that level [i] reaches. *)
Fixpoint succ_at (i : Z) (l : list entry) : Z :=
  match l with [] => 0 | e :: l => if i <? e_height e then e_addr e else succ_at i l end.
(** The last one. *)
Fixpoint pred_at (d i : Z) (l : list entry) : Z :=
  match l with [] => d | e :: l => pred_at (if i <? e_height e then e_addr e else d) i l end.

Definition links (nx : list (option Z)) (h : Z) (post : list entry) : Prop :=
  h <= zlen nx /\ forall i, 0 <= i < h -> znth nx i = Some (Some (succ_at i post)).
Definition node_ok (m : gmap Z (Node Key)) (e : entry) (post : list entry) : Prop :=
  exists nx, m !! e_addr e = Some (mk_node (e_key e) nx) /\ links nx (e_height e) post.
(** The nodes [l], when [s] comes after them. *)
Fixpoint seg (m : gmap Z (Node Key)) (l s : list entry) : Prop :=
  match l with [] => True | e :: l => node_ok m e (l ++ s) /\ seg m l s end.

Definition head_entry (sl : SkipList A Key) : entry := mk_entry (head_ sl) any_key kMaxHeight.

(** [sl] is the sorted list [l]. *)
Record rep (sl : SkipList A Key) (l : list entry) : Prop := {
  rp_seg : seg (nodes sl) (head_entry sl :: l) [];
  rp_heights : Forall (fun e => 1 <= e_height e <= max_height_ sl) l;
  rp_max : 1 <= max_height_ sl <= kMaxHeight;
  rp_dup : NoDup (map e_addr (head_entry sl :: l));
  rp_null : 0 ∉ map e_addr (head_entry sl :: l);
  rp_good : Forall (fun e => good (e_key e)) l;
  rp_sorted : StronglySorted (fun a b => klt (e_key a) (e_key b)) l;
  rp_alloc : exists used, aa_inv (arena_ sl) used /\ forall x nd, nodes sl !! x = Some nd -> exists n, (x, n) ∈ used
}.

Lemma seg_app m a b s : seg m (a ++ b) s <-> seg m a (b ++ s) /\ seg m b s.
Proof. induction a as [|e a IH]; simpl; [tauto|]. rewrite IH, <- app_assoc. tauto. Qed.

Lemma seg_ext m m' l s s' :
  (forall e, e ∈ l -> m' !! e_addr e = m !! e_addr e) ->
  (forall a e b, l = a ++ e :: b -> forall j, 0 <= j < e_height e -> succ_at j (b ++ s') = succ_at j (b ++ s)) ->
  seg m l s -> seg m' l s'.
Proof.
  induction l as [|e l IH]; [done|]. intros Hm Hs [(nx & Hn & Hz & Hc) Hl]. split.
  - exists nx. split; [by rewrite Hm by constructor|]. split; [done|]. intros j Hj.
    rewrite Hc by done. by rewrite (Hs [] e l eq_refl j Hj).
  - apply IH; [intros; apply Hm; by constructor| |done]. intros a e' b -> j Hj. by apply (Hs (e :: a) e' b).
Qed.

(** Level [i] skips what is not linked at it. *)
Lemma succ_at_low i a b : Forall (fun e => e_height e <= i) a -> succ_at i (a ++ b) = succ_at i b.
Proof. induction 1 as [|e a He Ha IH]; [done|]. simpl. by rewrite (proj2 (Z.ltb_ge i _)). Qed.
Lemma succ_at_here i a e b : Forall (fun e => e_height e <= i) a -> i < e_height e -> succ_at i (a ++ e :: b) = e_addr e.
Proof. intros Ha He. rewrite succ_at_low by done. simpl. by rewrite (proj2 (Z.ltb_lt i _)). Qed.
Lemma pred_at_app d i a b : pred_at d i (a ++ b) = pred_at (pred_at d i a) i b.
Proof. revert d. induction a as [|e a IH]; intros d; [done|]. apply IH. Qed.
Lemma pred_at_low d i a : Forall (fun e => e_height e <= i) a -> pred_at d i a = d.
Proof. induction 1 as [|e a He Ha IH]; [done|]. simpl. by rewrite (proj2 (Z.ltb_ge i _)). Qed.
Lemma pred_at_here d i a e b : i < e_height e -> Forall (fun e => e_height e <= i) b -> pred_at d i (a ++ e :: b) = e_addr e.
Proof. intros He Hb. rewrite pred_at_app. simpl. by rewrite pred_at_low, (proj2 (Z.ltb_lt i _)). Qed.

(** The next stop of level [i] is in [mid] or comes after it. *)
Lemma next_stop i (mid : list entry) :
  Forall (fun e => e_height e <= i) mid \/
  exists m1 e m2, mid = m1 ++ e :: m2 /\ Forall (fun e => e_height e <= i) m1 /\ i < e_height e.
Proof.
  induction mid as [|e mid [IH|(m1 & e' & m2 & -> & H1 & H2)]]; [by left|..]; destruct (Z.le_gt_cases (e_height e) i).
  - left. by constructor.
  - right. by exists [], e, mid.
  - right. exists (e :: m1), e', m2. split_and!; [done|by constructor|done].
  - right. exists [], e, (m1 ++ e' :: m2). by split_and!.
Qed.
(** And the last one. *)
Lemma last_stop i (mid : list entry) :
  Forall (fun e => e_height e <= i) mid \/
  exists m1 e m2, mid = m1 ++ e :: m2 /\ i < e_height e /\ Forall (fun e => e_height e <= i) m2.
Proof.
  induction mid as [|e mid [IH|(m1 & e' & m2 & -> & H1 & H2)]]; [by left|..].
  - destruct (Z.le_gt_cases (e_height e) i); [left; by constructor|]. right. by exists [], e, mid.
  - right. by exists (e :: m1), e', m2.
Qed.

(** Reading a link, a key. *)
Lemma rep_Next sl l pre e post i :
  rep sl l -> head_entry sl :: l = pre ++ e :: post -> 0 <= i < e_height e -> Next sl (e_addr e) i = Some (succ_at i post).
Proof.
  intros [] E Hi. rewrite E in rp_seg0. apply seg_app in rp_seg0 as [_ [(nx & Hn & Hz & Hc) _]].
  unfold Next. rewrite (proj2 (Z.leb_le 0 i)) by lia. simpl negb. cbv iota. rewrite Hn. cbn [mbind option_bind next_].
  rewrite Hc by done. cbn [mbind option_bind]. by rewrite app_nil_r.
Qed.
Lemma rep_node sl l e : rep sl l -> e ∈ l -> exists nx, nodes sl !! e_addr e = Some (mk_node (e_key e) nx).
Proof.
  intros [] (a & b & ->)%list_elem_of_split. destruct rp_seg0 as [_ Hs]. apply seg_app in Hs as [_ [(nx & Hn & _) _]]. eauto.
Qed.
Lemma rep_nonnull sl l e : rep sl l -> e ∈ head_entry sl :: l -> (e_addr e =? 0) = false.
Proof. intros [] He. apply Z.eqb_neq. intros E. apply rp_null0. rewrite <- E. by apply list_elem_of_fmap_2. Qed.

(** Where [k] cuts the list. *)
Definition cut (l : list entry) (k : Key) (lo hi : list entry) : Prop :=
  l = lo ++ hi /\ Forall (fun e => klt (e_key e) k) lo /\ Forall (fun e => ~ klt (e_key e) k) hi.

Lemma klt_dec a b : good a -> good b -> klt a b \/ ~ klt a b.
Proof. intros Ha Hb. destruct (compare_ok a b Ha Hb) as (c & _ & H & _). rewrite <- H. lia. Qed.
Lemma klt_irrefl a : good a -> ~ klt a a.
Proof. intros Ha. destruct (compare_ok a a Ha Ha) as (c & _ & H1 & H2). intros H. apply H1 in H as ?. apply H2 in H. lia. Qed.

Lemma cut_exists sl l k : rep sl l -> good k -> exists lo hi, cut l k lo hi.
Proof.
  intros [_ _ _ _ _ Hg Hs _] Hk. clear sl. induction l as [|e l IH]; [by exists [], []|].
  apply list.Forall_cons in Hg as [Hge Hg]. inversion Hs as [|? ? Hs' Hel]; subst.
  destruct (klt_dec (e_key e) k Hge Hk) as [Hlt|Hge'].
  - destruct (IH Hg Hs') as (lo & hi & -> & Hlo & Hhi). exists (e :: lo), hi. split_and!; [done|by constructor|done].
  - exists [], (e :: l). split_and!; [done|constructor|]. constructor; [done|].
    apply list.Forall_forall. intros x Hx Hlt. rewrite list.Forall_forall in Hg, Hel.
    apply Hge'. eapply klt_trans; [done|exact (Hg x Hx)|done|by apply Hel|done].
Qed.

Lemma rep_size sl l : rep sl l -> (length l < size (nodes sl))%nat.
Proof.
  intros Hrep. pose proof (rp_dup _ _ Hrep) as Hd.
  assert (Hsub : list_to_set (map e_addr (head_entry sl :: l)) ⊆ dom (nodes sl)).
  { intros x Hx. apply elem_of_list_to_set, list_elem_of_fmap in Hx as (e & -> & He). apply elem_of_dom.
    apply elem_of_cons in He as [->|He]; [|destruct (rep_node sl l e Hrep He) as [nx ->]; by eexists].
    destruct (rp_seg _ _ Hrep) as [(nx & Hn & _) _]. by rewrite Hn. }
  apply subseteq_size in Hsub. rewrite size_list_to_set, size_dom, length_map in Hsub by done. simpl in Hsub. lia.
Qed.

(** One load of a search that stands at [e], after [pre] and before the rest
    [mid] of the keys below [k]: either another key below [k], or all that level
    [level] can do is done. *)
Lemma search_step sl l lo hi pre e mid level : rep sl l -> l = lo ++ hi -> head_entry sl :: lo = pre ++ e :: mid -> 0 <= level < e_height e ->
  (exists m1 e' m2, mid = m1 ++ e' :: m2 /\ level < e_height e' /\ e' ∈ lo /\ Next sl (e_addr e) level = Some (e_addr e')) \/
  (Next sl (e_addr e) level = Some (succ_at level hi) /\ pred_at 0 level (head_entry sl :: lo) = e_addr e).
Proof.
  intros Hrep El E Hlv.
  assert (Efull : head_entry sl :: l = pre ++ e :: (mid ++ hi)).
  { rewrite El. change (head_entry sl :: lo ++ hi) with ((head_entry sl :: lo) ++ hi). by rewrite E, <- app_assoc. }
  rewrite (rep_Next sl l pre e _ level Hrep Efull Hlv).
  destruct (next_stop level mid) as [Hlow|(m1 & e' & m2 & -> & H1 & H2)].
  - right. rewrite succ_at_low by done. split; [done|]. rewrite E. apply pred_at_here; [lia|done].
  - left. exists m1, e', m2. split_and!; [done|done| |].
    + assert (He : lo = tail (pre ++ [e]) ++ m1 ++ e' :: m2).
      { transitivity (tail (head_entry sl :: lo)); [done|]. rewrite E. destruct pre; [done|]. simpl. by rewrite <- app_assoc. }
      rewrite He, !elem_of_app, elem_of_cons. tauto.
    + rewrite <- app_assoc. cbn [app]. by rewrite succ_at_here.
Qed.

Section Search.
Context (sl : SkipList A Key) (l : list entry) (Hrep : rep sl l) (k : Key) (Hk : good k) (lo hi : list entry) (Hcut : cut l k lo hi).

Lemma after_lo e : e ∈ lo -> KeyIsAfterNode sl k (e_addr e) = Some true.
Proof.
  intros He. destruct Hcut as (-> & Hlo & _). unfold KeyIsAfterNode.
  rewrite (rep_nonnull sl (lo ++ hi) e) by (done || right; apply elem_of_app; by left).
  destruct (rep_node sl _ e Hrep) as (nx & ->); [apply elem_of_app; by left|]. cbn [mbind option_bind key].
  destruct Hrep. apply Forall_app in rp_good0 as [Hg _]. rewrite list.Forall_forall in Hg, Hlo.
  destruct (compare_ok (e_key e) k (Hg e He) Hk) as (c & -> & H & _). cbn [mbind option_bind].
  by rewrite (proj2 (Z.ltb_lt c 0)) by (apply H, Hlo, He).
Qed.
Lemma not_after_hi i : KeyIsAfterNode sl k (succ_at i hi) = Some false.
Proof.
  unfold KeyIsAfterNode. destruct (next_stop i hi) as [Hlow|(m1 & e & m2 & Ehi & H1 & H2)].
  { rewrite <- (app_nil_r hi), succ_at_low by done. done. }
  rewrite Ehi, succ_at_here by done. destruct Hcut as (E & _ & Hhi).
  assert (He : e ∈ l) by (rewrite E, Ehi; apply elem_of_app; right; apply elem_of_app; right; by constructor).
  rewrite (rep_nonnull sl l e) by (done || by right). destruct (rep_node sl l e Hrep He) as (nx & ->). cbn [mbind option_bind key].
  destruct Hrep. rewrite list.Forall_forall in rp_good0, Hhi.
  destruct (compare_ok (e_key e) k (rp_good0 e He) Hk) as (c & -> & H & _). cbn [mbind option_bind].
  rewrite (proj2 (Z.ltb_ge c 0)); [done|]. apply Z.nlt_ge. rewrite H. apply Hhi. rewrite Ehi. apply elem_of_app. right. by constructor.
Qed.

Definition prev_ok (level : Z) (prev prev' : option (list (option Z))) : Prop :=
  match prev, prev' with
  | None, None => True
  | Some p, Some p' => zlen p' = zlen p /\
      forall i, (0 <= i <= level -> znth p' i = Some (Some (pred_at 0 i (head_entry sl :: lo)))) /\ (level < i -> znth p' i = znth p i)
  | _, _ => False
  end.

Lemma fge_loop_ok fuel : forall mid pre e level prev,
  head_entry sl :: lo = pre ++ e :: mid -> 0 <= level < e_height e -> (length mid + Z.to_nat level < fuel)%nat ->
  (match prev with Some p => level < zlen p | None => True end) ->
  exists prev', FindGreaterOrEqual_loop fuel sl k (e_addr e) level prev = Some (succ_at 0 hi, prev') /\ prev_ok level prev prev'.
Proof.
  induction fuel as [|fuel IH]; intros mid pre e level prev E Hlv Hf Hp; [lia|]. cbn [FindGreaterOrEqual_loop].
  destruct (search_step sl l lo hi pre e mid level Hrep (proj1 Hcut) E Hlv) as [(m1 & e' & m2 & -> & Hh & He' & ->)|[-> Hpred]]; cbn [mbind option_bind].
  { rewrite after_lo by done. cbn [mbind option_bind]. cbv iota. rewrite length_app in Hf. cbn [length] in Hf.
    apply (IH m2 (pre ++ e :: m1) e' level prev); [by rewrite E, <- app_assoc|lia|lia|done]. }
  rewrite not_after_hi. cbn [mbind option_bind]. cbv iota.
  set (prev1 := match prev with Some p => Some (<[Z.to_nat level := Some (e_addr e)]> p) | None => None end).
  assert (match prev with None => Some None | Some p => p ← zset p level (Some (e_addr e)); Some (Some p) end = Some prev1) as ->.
  { destruct prev as [p|]; [|done]. rewrite zset_Some by lia. done. }
  cbn [mbind option_bind].
  assert (Hzp : match prev1 with Some p => level - 1 < zlen p | None => True end).
  { unfold prev1. destruct prev as [p|]; [|done]. rewrite zlen_insert. lia. }
  assert (Hone : forall prev', prev_ok (level - 1) prev1 prev' -> prev_ok level prev prev').
  { intros prev' H. unfold prev1, prev_ok in *. destruct prev as [p|], prev' as [p'|]; try done. rewrite zlen_insert in H.
    destruct H as [Hz H]. split; [done|]. intros i. destruct (H i) as [Hlt Hgt]. split.
    - intros Hi. destruct (decide (i = level)) as [->|]; [|apply Hlt; lia]. rewrite Hgt by lia.
      rewrite znth_nat, list_lookup_insert_eq by (unfold zlen in *; lia). by rewrite Hpred.
    - intros Hi. rewrite Hgt by lia. rewrite !znth_nat by lia. by rewrite list_lookup_insert_ne by lia. }
  destruct (Z.eqb_spec level 0) as [->|].
  - exists prev1. split; [done|]. apply Hone. unfold prev_ok. destruct prev1; [|done]. split; [done|]. intros i. split; [lia|done].
  - destruct (IH mid pre e (level - 1) prev1 E ltac:(lia) ltac:(lia) Hzp) as (prev' & Er & Hp'). exists prev'. split; [done|by apply Hone].
Qed.

Lemma FindGreaterOrEqual_ok prev : (match prev with Some p => zlen p = kMaxHeight | None => True end) ->
  exists prev', FindGreaterOrEqual sl k prev = Some (succ_at 0 hi, prev') /\ prev_ok (max_height_ sl - 1) prev prev'.
Proof.
  intros Hp. pose proof (rep_size sl l Hrep) as Hs. pose proof (rp_max _ _ Hrep) as Hm. destruct Hcut as (El & _ & _).
  unfold FindGreaterOrEqual, GetMaxHeight. change (head_ sl) with (e_addr (head_entry sl)).
  apply (fge_loop_ok _ lo []); [done|cbn; lia| |destruct prev; lia].
  unfold search_fuel. rewrite El, length_app in Hs. lia.
Qed.

Lemma lt_loop_ok fuel : forall mid pre e level,
  head_entry sl :: lo = pre ++ e :: mid -> 0 <= level < e_height e -> (length mid + Z.to_nat level < fuel)%nat ->
  FindLessThan_loop fuel sl k (e_addr e) level = Some (pred_at 0 0 (head_entry sl :: lo)).
Proof.
  induction fuel as [|fuel IH]; intros mid pre e level E Hlv Hf; [lia|]. cbn [FindLessThan_loop].
  assert ((if e_addr e =? head_ sl then Some true else nd ← nodes sl !! e_addr e; c ← compare_ (key nd) k; Some (c <? 0)) = Some true) as ->.
  { assert (He : e ∈ head_entry sl :: lo) by (rewrite E; apply elem_of_app; right; by constructor).
    apply elem_of_cons in He as [->|He]; [by rewrite Z.eqb_refl|]. destruct (e_addr e =? head_ sl); [done|].
    pose proof (after_lo e He) as Ha. unfold KeyIsAfterNode in Ha.
    rewrite (rep_nonnull sl l e) in Ha; [done|done|]. right. rewrite (proj1 Hcut). apply elem_of_app. by left. }
  assert (Hstop : forall x b, KeyIsAfterNode sl k x = Some b ->
    (if x =? 0 then Some true else nd ← nodes sl !! x; c ← compare_ (key nd) k; Some (0 <=? c)) = Some (negb b)).
  { intros x b. unfold KeyIsAfterNode. destruct (x =? 0); [by intros [= <-]|].
    destruct (nodes sl !! x) as [nd|]; [|done]. cbn [mbind option_bind]. destruct (compare_ (key nd) k) as [c|]; [|done].
    cbn [mbind option_bind]. intros [= <-]. by rewrite Z.ltb_antisym, negb_involutive. }
  cbn [mbind option_bind]. simpl negb. cbv iota.
  destruct (search_step sl l lo hi pre e mid level Hrep (proj1 Hcut) E Hlv) as [(m1 & e' & m2 & -> & Hh & He' & ->)|[-> Hpred]]; cbn [mbind option_bind].
  { rewrite (Hstop _ true) by (by apply after_lo). cbn [mbind option_bind]. simpl negb. cbv iota.
    rewrite length_app in Hf. cbn [length] in Hf.
    apply (IH m2 (pre ++ e :: m1) e' level); [by rewrite E, <- app_assoc|lia|lia]. }
  rewrite (Hstop _ false) by apply not_after_hi. cbn [mbind option_bind]. simpl negb. cbv iota.
  destruct (Z.eqb_spec level 0) as [->|]; [by rewrite <- Hpred|]. by apply (IH mid pre e (level - 1)); [|lia|lia].
Qed.
Lemma FindLessThan_ok : FindLessThan sl k = Some (pred_at 0 0 (head_entry sl :: lo)).
Proof.
  pose proof (rep_size sl l Hrep) as Hs. pose proof (rp_max _ _ Hrep) as Hm. destruct Hcut as (El & _ & _).
  unfold FindLessThan, GetMaxHeight. change (head_ sl) with (e_addr (head_entry sl)).
  apply (lt_loop_ok _ lo []); [done|cbn; lia|]. unfold search_fuel. rewrite El, length_app in Hs. lia.
Qed.
End Search.

Lemma last_loop_ok sl l fuel : rep sl l -> forall mid pre e level,
  head_entry sl :: l = pre ++ e :: mid -> 0 <= level < e_height e -> (length mid + Z.to_nat level < fuel)%nat ->
  FindLast_loop fuel sl (e_addr e) level = Some (pred_at 0 0 (head_entry sl :: l)).
Proof.
  intros Hrep. induction fuel as [|fuel IH]; intros mid pre e level E Hlv Hf; [lia|]. cbn [FindLast_loop].
  destruct (search_step sl l l [] pre e mid level Hrep ltac:(by rewrite app_nil_r) E Hlv) as [(m1 & e' & m2 & -> & Hh & He' & ->)|[-> Hpred]];
    cbn [mbind option_bind].
  - rewrite (rep_nonnull sl l e') by (done || by right). rewrite length_app in Hf. cbn [length] in Hf.
    apply (IH m2 (pre ++ e :: m1) e' level); [by rewrite E, <- app_assoc|lia|lia].
  - cbn [succ_at]. simpl Z.eqb at 1. cbv iota.
    destruct (Z.eqb_spec level 0) as [->|]; [by rewrite <- Hpred|]. by apply (IH mid pre e (level - 1)); [|lia|lia].
Qed.
Lemma FindLast_ok sl l : rep sl l -> FindLast sl = Some (pred_at 0 0 (head_entry sl :: l)).
Proof.
  intros Hrep. pose proof (rep_size sl l Hrep) as Hs. pose proof (rp_max _ _ Hrep) as Hm.
  unfold FindLast, GetMaxHeight. change (head_ sl) with (e_addr (head_entry sl)).
  apply (last_loop_ok sl l _ Hrep l []); [done|cbn; lia|]. unfold search_fuel. lia.
Qed.

(** ** Insert *)

(** The new node as far as it is linked: at the levels below [i]. *)
Definition ent (x : Z) (k : Key) (i : Z) : list entry := if i =? 0 then [] else [mk_entry x k i].

(** [Insert] at work: the new node [x] is linked at the levels below [i]. *)
Record linking (sl : SkipList A Key) (lo hi : list entry) (x : Z) (k : Key) (height : Z) (prev : list (option Z)) (i : Z) : Prop := {
  lk_rep : rep sl (lo ++ ent x k i ++ hi);
  lk_node : exists nx, nodes sl !! x = Some (mk_node k nx) /\ zlen nx = height;
  lk_i : 0 <= i <= height;
  lk_height : height <= max_height_ sl;
  lk_fresh : (x ∉ map e_addr (head_entry sl :: lo ++ hi)) /\ x <> 0;
  lk_prev : forall j, 0 <= j < height -> znth prev j = Some (Some (pred_at 0 j (head_entry sl :: lo)));
  lk_key : good k /\ Forall (fun e => klt (e_key e) k) lo /\ Forall (fun e => klt k (e_key e)) hi
}.

Lemma succ_ent j x k i hi : 0 <= j -> succ_at j (ent x k i ++ hi) = if j <? i then x else succ_at j hi.
Proof. intros Hj. unfold ent. destruct (Z.eqb_spec i 0) as [->|]; simpl; [|done]. by rewrite (proj2 (Z.ltb_ge j 0)). Qed.

(** The node that [prev] names at level [i], and what follows it. *)
Lemma linking_pred sl lo hi x k height prev i : linking sl lo hi x k height prev i -> i < height ->
  exists m1 e m2, head_entry sl :: lo = m1 ++ e :: m2 /\ i < e_height e /\ Forall (fun e => e_height e <= i) m2 /\
    znth prev i = Some (Some (e_addr e)) /\ Next sl (e_addr e) i = Some (succ_at i hi) /\ e_addr e <> x.
Proof.
  intros [] Hi. pose proof (rp_max _ _ lk_rep0). destruct (last_stop i (head_entry sl :: lo)) as [Hlow|(m1 & e & m2 & E & He & Hm2)].
  { apply list.Forall_cons in Hlow as [Hlow _]. simpl in Hlow. lia. }
  exists m1, e, m2. rewrite lk_prev0 by lia. rewrite E, pred_at_here by done.
  rewrite (rep_Next sl (lo ++ ent x k i ++ hi) m1 e (m2 ++ ent x k i ++ hi)); [| done | | lia].
  2:{ change (head_entry sl :: lo ++ ent x k i ++ hi) with ((head_entry sl :: lo) ++ ent x k i ++ hi). by rewrite E, <- app_assoc. }
  rewrite succ_at_low, succ_ent, Z.ltb_irrefl by (done || lia). split_and!; try done.
  intros Ee. apply (proj1 lk_fresh0). change (head_entry sl :: lo ++ hi) with ((head_entry sl :: lo) ++ hi).
  rewrite E, !map_app. apply elem_of_app. left. apply elem_of_app. right. simpl. rewrite Ee. by constructor.
Qed.

(** Replacing the node table. *)
Lemma rep_set_nodes sl l m : rep sl l -> seg m (head_entry sl :: l) [] -> dom m = dom (nodes sl) -> rep (set_nodes sl m) l.
Proof.
  intros [] Hs Hd. split; try done. destruct rp_alloc0 as (used & Hu & Hx). exists used. split; [done|].
  intros x nd Hn. cbn [set_nodes nodes] in Hn. assert (Hin : x ∈ dom (nodes sl)) by (rewrite <- Hd; by apply elem_of_dom_2 in Hn).
  apply elem_of_dom in Hin as [nd' Hn']. by eapply Hx.
Qed.

Lemma SetNext_Some (sl : SkipList A Key) x i v nd : nodes sl !! x = Some nd -> 0 <= i < zlen (next_ nd) ->
  SetNext sl x i v = Some (set_nodes sl (<[x := mk_node (key nd) (<[Z.to_nat i := Some v]> (next_ nd))]> (nodes sl))).
Proof.
  intros Hn Hi. unfold SetNext. rewrite (proj2 (Z.leb_le 0 i)) by lia. simpl negb. cbv iota. rewrite Hn. cbn [mbind option_bind].
  by rewrite zset_Some by lia.
Qed.

Lemma dom_insert_same (m : gmap Z (Node Key)) x nd nd' : m !! x = Some nd -> dom (<[x := nd']> m) = dom m.
Proof. intros H. apply dom_insert_lookup_L. by eexists. Qed.

Lemma link_new_ok sl lo hi x k height prev i : linking sl lo hi x k height prev i -> i < height ->
  exists sl', link_new sl x prev i = Some sl' /\ linking sl' lo hi x k height prev i /\ Next sl' x i = Some (succ_at i hi) /\
    head_ sl' = head_ sl.
Proof.
  intros Hlk Hi. destruct (linking_pred _ _ _ _ _ _ _ _ Hlk Hi) as (m1 & e & m2 & E & He & Hm2 & Hp & Hnext & Hne).
  destruct Hlk. destruct lk_node0 as (nx & Hnx & Hz).
  unfold link_new, NoBarrier_Next, NoBarrier_SetNext. rewrite Hp. cbn [mbind option_bind]. rewrite Hnext. cbn [mbind option_bind].
  rewrite (SetNext_Some sl x i _ _ Hnx) by (cbn; lia). cbn [key next_]. eexists. split; [done|].
  set (sl' := set_nodes sl _).
  assert (Hx : nodes sl' !! x = Some (mk_node k (<[Z.to_nat i := Some (succ_at i hi)]> nx))) by apply lookup_insert_eq.
  assert (Hoth : forall e, e ∈ head_entry sl :: lo ++ hi -> nodes sl' !! e_addr e = nodes sl !! e_addr e).
  { intros e' He'. apply lookup_insert_ne. intros Ex. apply (proj1 lk_fresh0). rewrite Ex. by apply list_elem_of_fmap_2. }
  split_and!; [|unfold Next; rewrite (proj2 (Z.leb_le 0 i)) by lia; simpl negb; cbv iota; rewrite Hx; cbn [mbind option_bind next_];
    by rewrite znth_insert, Z.eqb_refl by lia|done].
  split; try done; [|exists (<[Z.to_nat i := Some (succ_at i hi)]> nx); by rewrite zlen_insert].
  apply rep_set_nodes; [done| |by eapply dom_insert_same].
  change (head_entry sl :: lo ++ ent x k i ++ hi) with ((head_entry sl :: lo) ++ ent x k i ++ hi).
  destruct lk_rep0. change (head_entry sl :: lo ++ ent x k i ++ hi) with ((head_entry sl :: lo) ++ ent x k i ++ hi) in rp_seg0.
  rewrite !seg_app in rp_seg0 |- *. destruct rp_seg0 as (H1 & H2 & H3). split_and!.
  - eapply seg_ext; [|done|exact H1]. intros e' He'. apply Hoth. change (head_entry sl :: lo ++ hi) with ((head_entry sl :: lo) ++ hi).
    apply elem_of_app. by left.
  - unfold ent in *. destruct (Z.eqb_spec i 0) as [|]; [done|]. destruct H2 as [(nx' & Hn' & Hz' & Hc) _]. split; [|done].
    cbn [e_addr e_height e_key] in *. rewrite Hnx in Hn'. injection Hn' as <-. eexists. split; [exact Hx|].
    split; cbn [e_height]; [rewrite zlen_insert; lia|]. intros j Hj. rewrite znth_insert by lia.
    rewrite (proj2 (Z.eqb_neq j i)) by lia. by apply Hc.
  - eapply seg_ext; [|done|exact H3]. intros e' He'. apply Hoth. right. apply elem_of_app. by right.
Qed.

(** Publishing: the last node of [l] that level [i] reaches is pointed at the
    first node of what now follows. *)
Lemma seg_publish m m1 e m2 s s' i nx v :
  seg m (m1 ++ e :: m2) s -> NoDup (map e_addr (m1 ++ e :: m2)) -> 0 <= i < e_height e -> Forall (fun e => e_height e <= i) m2 ->
  m !! e_addr e = Some (mk_node (e_key e) nx) ->
  (forall j, 0 <= j -> j <> i -> succ_at j s' = succ_at j s) -> succ_at i s' = v ->
  seg (<[e_addr e := mk_node (e_key e) (<[Z.to_nat i := Some v]> nx)]> m) (m1 ++ e :: m2) s'.
Proof.
  intros Hs Hd Hi Hm2 He Hsame Hv. set (m' := <[e_addr e := _]> m).
  rewrite map_app in Hd. apply NoDup_app in Hd as (_ & Hd12 & Hd2). simpl in Hd12, Hd2. apply NoDup_cons in Hd2 as [Hd2 _].
  assert (Hoth : forall e', e' ∈ m1 \/ e' ∈ m2 -> m' !! e_addr e' = m !! e_addr e').
  { intros e' [H|H]; apply lookup_insert_ne; intros Ex.
    - apply (Hd12 (e_addr e')); [by apply list_elem_of_fmap_2|rewrite Ex; by constructor].
    - apply Hd2. rewrite Ex. by apply list_elem_of_fmap_2. }
  assert (Hsucc : forall l j, 0 <= j -> j <> i -> succ_at j (l ++ s') = succ_at j (l ++ s)).
  { intros l j Hj Hji. induction l as [|e' l IH]; simpl; [by apply Hsame|]. by rewrite IH. }
  apply seg_app in Hs as [H1 [(nx' & Hn' & Hz & Hc) H2]]. rewrite He in Hn'. injection Hn' as <-.
  apply seg_app. split; [|split].
  - eapply seg_ext; [intros e' He'; apply Hoth; by left| |exact H1].
    intros a e' b _ j Hj. destruct (decide (j = i)) as [->|]; [|rewrite !(app_assoc b); by apply Hsucc; lia].
    cbn [app]. clear -Hi. induction b as [|e' b IH]; cbn [app succ_at]; [|by rewrite IH]. by rewrite (proj2 (Z.ltb_lt i _)) by lia.
  - eexists. split; [apply lookup_insert_eq|]. split; [rewrite zlen_insert; lia|]. intros j Hj. rewrite znth_insert by lia.
    destruct (Z.eqb_spec j i) as [->|]; [by rewrite succ_at_low, Hv|]. rewrite Hc by lia. by rewrite Hsucc by lia.
  - eapply seg_ext; [intros e' He'; apply Hoth; by right| |exact H2].
    intros a e' b -> j Hj. apply Hsucc; [lia|]. apply Forall_app in Hm2 as [_ Hm2]. apply list.Forall_cons in Hm2 as [? _]. lia.
Qed.

Lemma ent_elem x k i e : e ∈ ent x k i -> e = mk_entry x k i.
Proof. unfold ent. destruct (i =? 0); [by intros ?%elem_of_nil|]. by intros ?%list_elem_of_singleton. Qed.

Lemma mid_perm {X} (m a b : list X) : a ++ m ++ b ≡ₚ m ++ a ++ b.
Proof. by rewrite !app_assoc, (Permutation_app_comm a m). Qed.
Lemma rep_heads sl lo hi x k i : rep sl (lo ++ ent x k i ++ hi) ->
  NoDup (map e_addr (head_entry sl :: lo ++ hi)) /\ (0 ∉ map e_addr (head_entry sl :: lo ++ hi)).
Proof.
  intros [].
  assert (Hp : map e_addr (head_entry sl :: lo ++ ent x k i ++ hi) ≡ₚ map e_addr (ent x k i) ++ map e_addr (head_entry sl :: lo ++ hi)).
  { rewrite <- map_app. apply fmap_Permutation. apply (mid_perm (ent x k i) (head_entry sl :: lo) hi). }
  rewrite Hp in rp_dup0, rp_null0. apply NoDup_app in rp_dup0 as (_ & _ & Hd). split; [done|].
  intros H. apply rp_null0. apply elem_of_app. by right.
Qed.

(** The new node has one more level. *)
Lemma rep_grow sl m lo hi x k i j :
  rep sl (lo ++ ent x k i ++ hi) -> (x ∉ map e_addr (head_entry sl :: lo ++ hi)) -> x <> 0 ->
  good k -> Forall (fun e => klt (e_key e) k) lo -> Forall (fun e => klt k (e_key e)) hi -> 0 <= j <= max_height_ sl ->
  seg m (head_entry sl :: lo ++ ent x k j ++ hi) [] -> dom m = dom (nodes sl) -> rep (set_nodes sl m) (lo ++ ent x k j ++ hi).
Proof.
  intros Hrep Hx Hx0 Hk Hlo Hhi Hj Hseg Hdom. pose proof (rep_heads sl lo hi x k i Hrep) as (Hdup & Hnull).
  assert (Hp : forall m, map e_addr (head_entry sl :: lo ++ m ++ hi) ≡ₚ map e_addr m ++ map e_addr (head_entry sl :: lo ++ hi)).
  { intros l. rewrite <- map_app. apply fmap_Permutation. apply (mid_perm l (head_entry sl :: lo) hi). }
  destruct Hrep. apply Forall_app in rp_heights0 as [Hh1 [_ Hh2]%Forall_app], rp_good0 as [Hg1 [_ Hg2]%Forall_app].
  rewrite !StronglySorted_app in rp_sorted0. destruct rp_sorted0 as (Hs12 & Hs1 & _ & _ & Hs2).
  rewrite list.Forall_forall in Hlo, Hhi.
  split; cbn [set_nodes nodes max_height_ arena_]; try done.
  - rewrite !Forall_app. split_and!; try done. unfold ent. destruct (Z.eqb_spec j 0); repeat constructor; cbn; lia.
  - change (head_entry (set_nodes sl m)) with (head_entry sl). rewrite Hp. unfold ent. destruct (j =? 0); simpl; [done|]. by constructor.
  - change (head_entry (set_nodes sl m)) with (head_entry sl). rewrite Hp, elem_of_app. intros [H0|H0]; [|done].
    apply list_elem_of_fmap in H0 as (e & He & ->%ent_elem). cbn in He. lia.
  - rewrite !Forall_app. split_and!; try done. apply list.Forall_forall. by intros e ->%ent_elem.
  - rewrite !StronglySorted_app. split_and!; try done.
    + intros a b Ha [->%ent_elem|Hb]%elem_of_app; [by apply Hlo|]. apply Hs12; [done|]. apply elem_of_app. by right.
    + intros a b ->%ent_elem Hb. by apply Hhi.
    + unfold ent. destruct (j =? 0); repeat constructor.
  - destruct rp_alloc0 as (used & Hu & Hxs). exists used. split; [done|]. intros y nd Hn.
    assert (Hin : y ∈ dom (nodes sl)) by (rewrite <- Hdom; by apply elem_of_dom_2 in Hn).
    apply elem_of_dom in Hin as [nd' Hn']. by eapply Hxs.
Qed.

Lemma link_prev_ok sl lo hi x k height prev i : linking sl lo hi x k height prev i -> i < height ->
  Next sl x i = Some (succ_at i hi) ->
  exists sl', link_prev sl x prev i = Some sl' /\ linking sl' lo hi x k height prev (i + 1) /\ head_ sl' = head_ sl.
Proof.
  intros Hlk Hi Hready. destruct (linking_pred _ _ _ _ _ _ _ _ Hlk Hi) as (m1 & e & m2 & E & He & Hm2 & Hp & Hnext & Hne).
  destruct Hlk. destruct lk_node0 as (nxx & Hnx & Hz). destruct lk_key0 as (Hgk & Hlo & Hhi).
  unfold link_prev. rewrite Hp. cbn [mbind option_bind]. pose proof lk_rep0 as Hrep. destruct lk_rep0.
  change (head_entry sl :: lo ++ ent x k i ++ hi) with ((head_entry sl :: lo) ++ ent x k i ++ hi) in rp_seg0, rp_dup0.
  rewrite !seg_app, !app_nil_r in rp_seg0. destruct rp_seg0 as (H1 & H2 & H3). rewrite E in H1.
  pose proof H1 as He1. apply seg_app in He1 as [_ [(nx & Hn & Hzn & _) _]].
  rewrite (SetNext_Some sl _ i _ _ Hn) by (cbn; lia). cbn [key next_]. eexists. split; [done|]. split; [|done].
  set (sl' := set_nodes sl _).
  assert (Hx : nodes sl' !! x = Some (mk_node k nxx)) by (etrans; [by apply lookup_insert_ne|done]).
  rewrite map_app, E in rp_dup0. apply NoDup_app in rp_dup0 as (Hd1 & Hd12 & Hd2).
  assert (Hseg : seg (nodes sl') (head_entry sl :: lo ++ ent x k (i + 1) ++ hi) []).
  { change (head_entry sl :: lo ++ ent x k (i + 1) ++ hi) with ((head_entry sl :: lo) ++ ent x k (i + 1) ++ hi).
    rewrite !seg_app, !app_nil_r. split_and!.
    - rewrite E. apply (seg_publish (nodes sl) m1 e m2 (ent x k i ++ hi)); try done; [lia| |].
      + intros j Hj Hji. rewrite !succ_ent by lia. destruct (Z.ltb_spec j (i + 1)), (Z.ltb_spec j i); done || lia.
      + rewrite succ_ent by lia. by rewrite (proj2 (Z.ltb_lt i (i + 1))) by lia.
    - unfold ent. rewrite (proj2 (Z.eqb_neq (i + 1) 0)) by lia. split; [|done]. exists nxx. split; [done|].
      split; cbn [e_height]; [lia|]. intros j Hj. destruct (decide (j = i)) as [->|].
      + unfold Next in Hready. rewrite (proj2 (Z.leb_le 0 i)) in Hready by lia. simpl negb in Hready. cbv iota in Hready.
        rewrite Hnx in Hready. cbn [mbind option_bind next_] in Hready. destruct (znth nxx i) as [c|]; [|done].
        cbn [mbind option_bind] in Hready. rewrite Hready. done.
      + unfold ent in H2. rewrite (proj2 (Z.eqb_neq i 0)) in H2 by lia. destruct H2 as [(nx' & Hn' & _ & Hc) _].
        cbn [e_addr e_key e_height] in *. rewrite Hnx in Hn'. injection Hn' as <-. rewrite Hc by lia. done.
    - eapply seg_ext; [|done|exact H3]. intros e' He'. apply lookup_insert_ne. intros Ex.
      apply (Hd12 (e_addr e)); [rewrite map_app; apply elem_of_app; right; by constructor|].
      rewrite Ex, map_app. apply elem_of_app. right. by apply list_elem_of_fmap_2. }

  split; try done; [|by exists nxx|lia].
  apply (rep_grow sl _ lo hi x k i (i + 1)); try done; [by destruct lk_fresh0..|lia|by eapply dom_insert_same].
Qed.

Lemma RandomHeight_loop_ok fuel : forall rnd h, 1 <= h <= kMaxHeight -> kMaxHeight - h < Z.of_nat fuel ->
  exists rnd' h', RandomHeight_loop fuel rnd h = Some (rnd', h') /\ h <= h' <= kMaxHeight.
Proof.
  induction fuel as [|fuel IH]; intros rnd h Hh Hf; [lia|]. cbn [RandomHeight_loop].
  destruct (Z.ltb_spec h kMaxHeight); [|exists rnd, h; split; [done|lia]].
  destruct (Random_Next rnd mod kBranching =? 0); [|exists (Random_Next rnd), h; split; [done|lia]].
  destruct (IH (Random_Next rnd) (h + 1) ltac:(lia) ltac:(lia)) as (r & h' & -> & ?). exists r, h'. split; [done|lia].
Qed.

Definition with_rnd (sl : SkipList A Key) (r : Z) : SkipList A Key :=
  mk_skiplist (arena_ sl) (head_ sl) (max_height_ sl) r (nodes sl).
Lemma RandomHeight_ok sl : exists r h, RandomHeight sl = Some (with_rnd sl r, h) /\ 1 <= h <= kMaxHeight.
Proof.
  unfold RandomHeight. destruct (RandomHeight_loop_ok (Z.to_nat kMaxHeight) (rnd_ sl) 1) as (r & h & -> & Hh); [done|done|].
  cbn [mbind option_bind]. rewrite (proj2 (Z.ltb_lt 0 h)), (proj2 (Z.leb_le h kMaxHeight)) by lia. by exists r, h.
Qed.
Lemma rep_rnd sl r l : rep (with_rnd sl r) l <-> rep sl l.
Proof. split; intros []; by split. Qed.

Lemma fill_prev_ok head n : forall i prev, 0 <= i -> i + Z.of_nat n <= zlen prev ->
  exists prev', fill_prev n i head prev = Some prev' /\
    forall j, 0 <= j -> znth prev' j = if (i <=? j) && (j <? i + Z.of_nat n) then Some (Some head) else znth prev j.
Proof.
  induction n as [|n IH]; intros i prev Hi Hn; cbn [fill_prev].
  { exists prev. split; [done|]. intros j Hj. destruct (Z.leb_spec i j), (Z.ltb_spec j (i + Z.of_nat 0)); done || lia. }
  rewrite zset_Some by lia. cbn [mbind option_bind].
  destruct (IH (i + 1) (<[Z.to_nat i := Some head]> prev)) as (prev' & -> & H); [lia|rewrite zlen_insert; lia|].
  exists prev'. split; [done|]. intros j Hj. rewrite H, znth_insert by lia.
  destruct (Z.eqb_spec j i), (Z.leb_spec (i + 1) j), (Z.leb_spec i j), (Z.ltb_spec j (i + 1 + Z.of_nat n)), (Z.ltb_spec j (i + Z.of_nat (S n)));
    cbn [andb]; done || lia.
Qed.

(** Nothing that compares equal to [k] is in the list. *)
Definition absent (l : list entry) (k : Key) : Prop := Forall (fun e => klt (e_key e) k \/ klt k (e_key e)) l.

Lemma absent_hi l k lo hi : cut l k lo hi -> absent l k -> Forall (fun e => klt k (e_key e)) hi.
Proof.
  intros (-> & _ & Hhi) [_ Ha]%Forall_app. rewrite list.Forall_forall in *. intros e He. destruct (Ha e He); [|done]. by destruct (Hhi e He).
Qed.

Lemma Insert_prepare_ok sl l k lo hi : rep sl l -> good k -> cut l k lo hi -> absent l k ->
  exists r prev h, Insert_prepare sl k = Some (with_rnd sl r, prev, h) /\ 1 <= h <= kMaxHeight /\
    forall j, 0 <= j < h -> znth prev j = Some (Some (pred_at 0 j (head_entry sl :: lo))).
Proof.
  intros Hrep Hk Hcut Habs. unfold Insert_prepare.
  destruct (FindGreaterOrEqual_ok sl l Hrep k Hk lo hi Hcut (Some (replicate (Z.to_nat kMaxHeight) None)) eq_refl) as ([prev|] & -> & Hp); [|done].
  cbn [mbind option_bind]. destruct Hp as [Hz Hp].
  assert ((if succ_at 0 hi =? 0 then Some false else nd ← nodes sl !! succ_at 0 hi; Equal k (key nd)) = Some false) as ->.
  { pose proof (absent_hi l k lo hi Hcut Habs) as Hhi. destruct Hcut as (El & _ & _).
    pose proof (rp_heights _ _ Hrep) as Hh. rewrite El in Hh. apply Forall_app in Hh as [_ Hh].
    destruct hi as [|e hi]; [done|]. apply list.Forall_cons in Hh as [He _]. cbn [succ_at]. rewrite (proj2 (Z.ltb_lt 0 _)) by lia.
    assert (Hin : e ∈ l) by (rewrite El; apply elem_of_app; right; by constructor).
    rewrite (rep_nonnull sl l e) by (done || by right). destruct (rep_node sl l e Hrep Hin) as (nx & ->). cbn [mbind option_bind key].
    unfold Equal. pose proof (rp_good _ _ Hrep) as Hg. rewrite list.Forall_forall in Hg.
    destruct (compare_ok k (e_key e) Hk (Hg e Hin)) as (c & -> & Hc & _). cbn [mbind option_bind].
    apply list.Forall_cons in Hhi as [Hlt _]. apply Hc in Hlt. by rewrite (proj2 (Z.eqb_neq c 0)) by lia. }
  cbn [mbind option_bind]. cbv iota. destruct (RandomHeight_ok sl) as (r & h & -> & Hh). cbn [mbind option_bind].
  change (GetMaxHeight (with_rnd sl r)) with (max_height_ sl). change (head_ (with_rnd sl r)) with (head_ sl).
  pose proof (rp_max _ _ Hrep) as Hm. change (zlen (replicate (Z.to_nat kMaxHeight) None)) with kMaxHeight in Hz.
  destruct (Z.ltb_spec (max_height_ sl) h) as [Hlt|Hge].
  - destruct (fill_prev_ok (head_ sl) (Z.to_nat (h - max_height_ sl)) (max_height_ sl) prev) as (prev' & -> & H'); [lia|lia|].
    cbn [mbind option_bind]. exists r, prev', h. split_and!; [done|lia|lia|]. intros j Hj. rewrite H', Z2Nat.id by lia.
    destruct (Z.leb_spec (max_height_ sl) j), (Z.ltb_spec j (max_height_ sl + (h - max_height_ sl))); cbn [andb];
      try (apply (proj1 (Hp j)); lia).
    change (head_entry sl :: lo) with ([] ++ head_entry sl :: lo). rewrite pred_at_here; [done|cbn; lia|].
    pose proof (rp_heights _ _ Hrep) as Hhs. destruct Hcut as (-> & _ & _). apply Forall_app in Hhs as [Hhs _].
    eapply list.Forall_impl; [exact Hhs|]. cbn. lia.
  - cbn [mbind option_bind]. exists r, prev, h. split_and!; [done|lia|lia|]. intros j Hj. apply (proj1 (Hp j)). lia.
Qed.

Lemma raise_ok sl l h : rep sl l -> 1 <= h <= kMaxHeight ->
  rep (Insert_raise sl h) l /\ h <= max_height_ (Insert_raise sl h) /\ head_ (Insert_raise sl h) = head_ sl.
Proof.
  intros Hrep Hh. unfold Insert_raise, GetMaxHeight. destruct (Z.ltb_spec (max_height_ sl) h); [|done].
  split_and!; [|cbn; lia|done]. destruct Hrep. split; try done. cbn. eapply list.Forall_impl; [exact rp_heights0|]. cbn. lia.
Qed.

Lemma NewNode_ok sl l k h : rep sl l -> 1 <= h <= kMaxHeight ->
  exists sl' x, NewNode sl k h = Some (sl', x) /\ rep sl' l /\ (x ∉ map e_addr (head_entry sl :: l)) /\ x <> 0 /\
    nodes sl' !! x = Some (mk_node k (replicate (Z.to_nat h) None)) /\ head_ sl' = head_ sl /\ max_height_ sl' = max_height_ sl.
Proof.
  intros Hrep Hh. pose proof Hrep as []. destruct rp_alloc0 as (used & Hu & Hx). pose proof sizeof_Node_ok as Hsz.
  assert (Hsize : 0 < sizeof_Node + 8 * (h - 1) < 2 ^ 32) by (unfold kMaxHeight in Hh; lia).
  destruct (aa_ok _ _ _ Hu Hsize) as (a & p & Hp & Hu' & Hp0 & _ & Hd). unfold NewNode. rewrite Hp. cbn [mbind option_bind].
  assert (Hfresh : nodes sl !! p = None).
  { destruct (nodes sl !! p) as [nd|] eqn:Hn; [|done]. destruct (Hx _ _ Hn) as (n & Hin).
    pose proof (aa_pos _ _ Hu) as Hpos. rewrite list.Forall_forall in Hd, Hpos.
    pose proof (Hd _ Hin) as Hdj. pose proof (Hpos _ Hin) as Hn0. unfold disjoint_range in Hdj. simpl in Hdj, Hn0. lia. }
  assert (Hnin : p ∉ map e_addr (head_entry sl :: l)).
  { intros (e & -> & He)%list_elem_of_fmap. apply list_elem_of_split in He as (l1 & l2 & E). rewrite E in rp_seg0.
    apply seg_app in rp_seg0 as [_ [(nx & Hn & _) _]]. by rewrite Hn in Hfresh. }
  eexists _, _. split_and!; [done| |done|lia|apply lookup_insert_eq|done|done].
  split; try done; cbn [nodes arena_].
  - eapply seg_ext; [|done|exact rp_seg0]. intros e He. apply lookup_insert_ne. intros ->. apply Hnin. by apply list_elem_of_fmap_2.
  - eexists. split; [exact Hu'|]. intros y nd Hn. apply lookup_insert_Some in Hn as [[<- _]|[_ Hn]]; [eexists; by constructor|].
    destruct (Hx _ _ Hn) as (n & Hin). exists n. by right.
Qed.

Lemma link_loop_ok lo hi x k height prev n : forall sl i, linking sl lo hi x k height prev i -> Z.of_nat n = height - i ->
  exists sl', link_loop n i sl x prev = Some sl' /\ linking sl' lo hi x k height prev height /\ head_ sl' = head_ sl.
Proof.
  induction n as [|n IH]; intros sl i Hlk Hn; cbn [link_loop].
  { exists sl. split_and!; [done| |done]. assert (i = height) as <- by lia. done. }
  destruct (link_new_ok _ _ _ _ _ _ _ _ Hlk ltac:(lia)) as (sl1 & -> & Hlk1 & Hr & E1). cbn [mbind option_bind].
  destruct (link_prev_ok _ _ _ _ _ _ _ _ Hlk1 ltac:(lia) Hr) as (sl2 & -> & Hlk2 & E2). cbn [mbind option_bind].
  destruct (IH sl2 (i + 1) Hlk2 ltac:(lia)) as (sl3 & -> & H3 & E3). exists sl3. split_and!; [done|done|congruence].
Qed.

(** Where the new node starts. *)
Lemma linking_start sl l k lo hi h prev : rep sl l -> good k -> cut l k lo hi -> absent l k -> 1 <= h <= kMaxHeight -> h <= max_height_ sl ->
  (forall j, 0 <= j < h -> znth prev j = Some (Some (pred_at 0 j (head_entry sl :: lo)))) ->
  exists sl' x, NewNode sl k h = Some (sl', x) /\ linking sl' lo hi x k h prev 0 /\ head_ sl' = head_ sl.
Proof.
  intros Hrep Hk Hcut Habs Hh Hm Hp. destruct (NewNode_ok sl l k h Hrep Hh) as (sl' & x & -> & Hrep' & Hx & Hx0 & Hn & Hhd & Hmx).
  pose proof (absent_hi l k lo hi Hcut Habs) as Hhi. destruct Hcut as (-> & Hlo & _).
  assert (He : head_entry sl' = head_entry sl) by (unfold head_entry; by rewrite Hhd).
  exists sl', x. split_and!; [done| |done]. split; rewrite ?He; try done; [|lia|by rewrite Hmx].
  eexists. split; [exact Hn|]. rewrite zlen_replicate. lia.
Qed.

Lemma Insert_ok sl l k lo hi : rep sl l -> good k -> cut l k lo hi -> absent l k ->
  exists sl' x h, Insert sl k = Some sl' /\ rep sl' (lo ++ mk_entry x k h :: hi).
Proof.
  intros Hrep Hk Hcut Habs. unfold Insert.
  destruct (Insert_prepare_ok sl l k lo hi Hrep Hk Hcut Habs) as (r & prev & h & -> & Hh & Hp). cbn [mbind option_bind].
  apply (rep_rnd sl r) in Hrep. destruct (raise_ok _ _ h Hrep Hh) as (Hrep1 & Hm & Hhd).
  destruct (linking_start (Insert_raise (with_rnd sl r) h) l k lo hi h prev Hrep1 Hk Hcut Habs Hh Hm) as (sl1 & x & -> & Hlk & _).
  { intros j Hj. unfold head_entry. rewrite Hhd. by apply Hp. }
  cbn [mbind option_bind].
  destruct (link_loop_ok lo hi x k h prev (Z.to_nat h) sl1 0 Hlk ltac:(lia)) as (sl2 & -> & [Hr _ _ _ _ _ _] & _).
  exists sl2, x, h. split; [done|]. unfold ent in Hr. by rewrite (proj2 (Z.eqb_neq h 0)) in Hr by lia.
Qed.

(** ** The constructor *)

Lemma clear_head_ok n : forall i (sl : SkipList A Key) nx, nodes sl !! head_ sl = Some (mk_node any_key nx) -> zlen nx = kMaxHeight ->
  0 <= i -> i + Z.of_nat n = kMaxHeight -> (forall j, 0 <= j < i -> znth nx j = Some (Some 0)) ->
  exists nx', clear_head n i sl = Some (set_nodes sl (<[head_ sl := mk_node any_key nx']> (nodes sl))) /\
    zlen nx' = kMaxHeight /\ forall j, 0 <= j < kMaxHeight -> znth nx' j = Some (Some 0).
Proof.
  induction n as [|n IH]; intros i sl nx Hn Hz Hi Hin Hc; cbn [clear_head].
  { exists nx. split_and!; [|done|intros j Hj; apply Hc; lia]. rewrite insert_id by done. by destruct sl. }
  rewrite (SetNext_Some sl _ i 0 _ Hn) by (cbn; lia). cbn [mbind option_bind key next_]. set (sl1 := set_nodes sl _).
  destruct (IH (i + 1) sl1 (<[Z.to_nat i := Some 0]> nx)) as (nx' & E & Hz' & Hc'); [apply lookup_insert_eq|by rewrite zlen_insert|lia|lia| |].
  - intros j Hj. rewrite znth_insert by lia. destruct (Z.eqb_spec j i); [done|]. apply Hc. lia.
  - exists nx'. rewrite E. split_and!; [|done|done]. unfold sl1, set_nodes. cbn [head_ nodes arena_ max_height_ rnd_]. by rewrite insert_insert_eq.
Qed.

Lemma new_SkipList_ok (a : A) used : aa_inv a used -> exists sl, new_SkipList a = Some sl /\ rep sl [].
Proof.
  intros Hu. unfold new_SkipList, NewNode. cbn [arena_]. pose proof sizeof_Node_ok as Hsz.
  assert (Hsize : 0 < sizeof_Node + 8 * (kMaxHeight - 1) < 2 ^ 32) by (unfold kMaxHeight; lia).
  destruct (aa_ok _ _ _ Hu Hsize) as (a' & p & -> & Hu' & Hp & _). cbn [mbind option_bind arena_ nodes].
  set (sl := mk_skiplist a' p 1 _ _).
  destruct (clear_head_ok (Z.to_nat kMaxHeight) 0 sl (replicate (Z.to_nat kMaxHeight) None)) as (nx & -> & Hz & Hc);
    [apply lookup_insert_eq|done|done|done|lia|].
  eexists. split; [done|]. split; cbn [set_nodes nodes arena_ max_height_ head_entry head_ sl]; try done.
  - split; [|done]. exists nx. split; [apply lookup_insert_eq|]. split; [cbn; lia|]. exact Hc.
  - apply NoDup_singleton.
  - cbn. rewrite list_elem_of_singleton. lia.
  - constructor.
  - eexists. split; [exact Hu'|]. intros x nd Hn. cbn [sl nodes] in Hn. rewrite insert_insert_eq in Hn.
    apply lookup_insert_Some in Hn as [[<- _]|[_ Hn]]; [eexists; by constructor|]. by rewrite lookup_empty in Hn.
Qed.

(** ** Lookups and iterators *)

Lemma succ_first sl l hi lo : rep sl l -> l = lo ++ hi -> succ_at 0 hi = match hi with [] => 0 | e :: _ => e_addr e end.
Proof.
  intros Hrep ->. pose proof (rp_heights _ _ Hrep) as Hh. apply Forall_app in Hh as [_ Hh]. destruct hi as [|e hi]; [done|].
  apply list.Forall_cons in Hh as [He _]. cbn. by rewrite (proj2 (Z.ltb_lt 0 _)) by lia.
Qed.
Lemma pred_last sl l lo hi : rep sl l -> l = lo ++ hi ->
  pred_at 0 0 (head_entry sl :: lo) = match last lo with None => head_ sl | Some e => e_addr e end.
Proof.
  intros Hrep ->. pose proof (rp_heights _ _ Hrep) as Hh. apply Forall_app in Hh as [Hh _]. cbn [pred_at]. simpl (0 <? _).
  destruct lo as [|e lo] using rev_ind; [done|]. apply Forall_app in Hh as [_ Hh]. apply list.Forall_cons in Hh as [He _].
  rewrite pred_at_app, last_snoc. cbn. by rewrite (proj2 (Z.ltb_lt 0 _)) by lia.
Qed.

Lemma rep_key sl l e : rep sl l -> e ∈ l -> Iter_Valid (e_addr e) = true /\ Iter_key sl (e_addr e) = Some (e_key e).
Proof.
  intros Hrep He. unfold Iter_key, Iter_Valid. rewrite (rep_nonnull sl l e) by (done || by right). split; [done|]. simpl negb. cbv iota.
  by destruct (rep_node sl l e Hrep He) as (nx & ->).
Qed.
Lemma rep_not_head sl l e : rep sl l -> e ∈ l -> (e_addr e =? head_ sl) = false.
Proof.
  intros Hrep He. apply Z.eqb_neq. intros E. pose proof (rp_dup _ _ Hrep) as Hd. cbn in Hd. apply NoDup_cons in Hd as [Hd _].
  apply Hd. cbn. rewrite <- E. by apply list_elem_of_fmap_2.
Qed.

(** An element cuts its own list. *)
Lemma cut_self sl pre e post : rep sl (pre ++ e :: post) -> good (e_key e) /\ cut (pre ++ e :: post) (e_key e) pre (e :: post).
Proof.
  intros []. apply Forall_app in rp_good0 as [Hg1 Hg2]. apply list.Forall_cons in Hg2 as [Hge Hg2].
  rewrite StronglySorted_app in rp_sorted0. destruct rp_sorted0 as (H12 & _ & H2). inversion H2 as [|? ? _ He]; subst.
  split; [done|]. split_and!; [done|apply list.Forall_forall; intros x Hx; apply H12; [done|by constructor]|].
  constructor; [by apply klt_irrefl|]. rewrite list.Forall_forall in He, Hg2 |- *. intros x Hx Hlt.
  apply (klt_irrefl (e_key e) Hge). eapply klt_trans; [done|exact (Hg2 x Hx)|done|by apply He|done].
Qed.

Lemma Iter_Prev_ok sl pre e post : rep sl (pre ++ e :: post) ->
  Iter_Prev sl (e_addr e) = Some (match last pre with None => 0 | Some e' => e_addr e' end).
Proof.
  intros Hrep. assert (He : e ∈ pre ++ e :: post) by (apply elem_of_app; right; by constructor).
  unfold Iter_Prev. destruct (rep_key _ _ _ Hrep He) as [-> _]. simpl negb. cbv iota.
  destruct (rep_node _ _ e Hrep He) as (nx & ->). cbn [mbind option_bind key].
  destruct (cut_self sl pre e post Hrep) as [Hg Hcut]. rewrite (FindLessThan_ok sl _ Hrep _ Hg _ _ Hcut). cbn [mbind option_bind].
  rewrite (pred_last sl _ pre (e :: post) Hrep eq_refl).
  destruct (last pre) as [e'|] eqn:El; [|by rewrite Z.eqb_refl].
  rewrite (rep_not_head sl _ e' Hrep); [done|]. apply last_Some in El as [p ->]. rewrite !elem_of_app, list_elem_of_singleton. tauto.
Qed.
Lemma Iter_Next_ok sl pre e post : rep sl (pre ++ e :: post) ->
  Iter_Next sl (e_addr e) = Some (match post with [] => 0 | e' :: _ => e_addr e' end).
Proof.
  intros Hrep. assert (He : e ∈ pre ++ e :: post) by (apply elem_of_app; right; by constructor).
  unfold Iter_Next. destruct (rep_key _ _ _ Hrep He) as [-> _]. simpl negb. cbv iota.
  pose proof (rp_heights _ _ Hrep) as Hh. rewrite list.Forall_forall in Hh. specialize (Hh e He).
  rewrite (rep_Next sl _ (head_entry sl :: pre) e post 0 Hrep eq_refl) by lia.
  by rewrite (succ_first sl _ post (pre ++ [e]) Hrep) by (by rewrite <- app_assoc).
Qed.
Lemma Iter_SeekToFirst_ok sl l : rep sl l -> Iter_SeekToFirst sl = Some (match l with [] => 0 | e :: _ => e_addr e end).
Proof.
  intros Hrep. unfold Iter_SeekToFirst. change (head_ sl) with (e_addr (head_entry sl)).
  rewrite (rep_Next sl l [] (head_entry sl) l 0 Hrep eq_refl) by (cbn; unfold kMaxHeight; lia). by rewrite (succ_first sl l l [] Hrep).
Qed.
Lemma Iter_SeekToLast_ok sl l : rep sl l -> Iter_SeekToLast sl = Some (match last l with None => 0 | Some e => e_addr e end).
Proof.
  intros Hrep. unfold Iter_SeekToLast. rewrite (FindLast_ok sl l Hrep). cbn [mbind option_bind].
  rewrite (pred_last sl l l [] Hrep) by (by rewrite app_nil_r). destruct (last l) as [e|] eqn:El; [|by rewrite Z.eqb_refl].
  rewrite (rep_not_head sl l e Hrep); [done|]. apply last_Some in El as [p ->]. apply elem_of_app. right. by constructor.
Qed.
Lemma Iter_Seek_ok sl l k lo hi : rep sl l -> good k -> cut l k lo hi ->
  Iter_Seek sl k = Some (match hi with [] => 0 | e :: _ => e_addr e end).
Proof.
  intros Hrep Hk Hcut. unfold Iter_Seek. destruct (FindGreaterOrEqual_ok sl l Hrep k Hk lo hi Hcut None I) as (p & -> & _).
  cbn [mbind option_bind]. by rewrite (succ_first sl l hi lo Hrep (proj1 Hcut)).
Qed.

(** [k] and [k'] compare equal. *)
Definition same_key (k k' : Key) : Prop := ~ klt k k' /\ ~ klt k' k.

Lemma Contains_ok sl l k : rep sl l -> good k ->
  exists b, Contains sl k = Some b /\ (b = true <-> exists e, e ∈ l /\ same_key k (e_key e)).
Proof.
  intros Hrep Hk. destruct (cut_exists sl l k Hrep Hk) as (lo & hi & Hcut). unfold Contains.
  destruct (FindGreaterOrEqual_ok sl l Hrep k Hk lo hi Hcut None I) as (p & -> & _). cbn [mbind option_bind].
  rewrite (succ_first sl l hi lo Hrep (proj1 Hcut)). pose proof (rp_good _ _ Hrep) as Hg. rewrite list.Forall_forall in Hg.
  pose proof (rp_sorted _ _ Hrep) as Hs. destruct Hcut as (-> & Hlo & Hhi). rewrite list.Forall_forall in Hlo.
  assert (Hnlo : forall e, e ∈ lo -> ~ same_key k (e_key e)) by (intros e He [_ H]; by apply H, Hlo).
  destruct hi as [|e hi].
  { exists false. split; [done|]. split; [done|]. intros (e & He & Hsame). rewrite app_nil_r in He. by destruct (Hnlo e He). }
  assert (He : e ∈ lo ++ e :: hi) by (apply elem_of_app; right; by constructor).
  rewrite (rep_nonnull sl _ e Hrep) by (by right). destruct (rep_node sl _ e Hrep He) as (nx & ->). cbn [mbind option_bind key]. unfold Equal.
  destruct (compare_ok k (e_key e) Hk (Hg e He)) as (c & -> & Hc1 & Hc2). cbn [mbind option_bind]. eexists. split; [done|].
  rewrite Z.eqb_eq. apply list.Forall_cons in Hhi as [Hne _].
  apply StronglySorted_app in Hs as (_ & _ & Hs). inversion Hs as [|? ? _ Hel]; subst. rewrite list.Forall_forall in Hel. split.
  - intros ->. exists e. split; [done|]. split; [rewrite <- Hc1|rewrite <- Hc2]; lia.
  - intros (e' & [He'|[->|He']%elem_of_cons]%elem_of_app & Hsame); [by destruct (Hnlo e' He')|..].
    + destruct Hsame as [H1 H2]. rewrite <- Hc1 in H1. rewrite <- Hc2 in H2. lia.
    + destruct Hsame as [H1 H2]. rewrite <- Hc2 in Hne. destruct (Z.lt_trichotomy c 0) as [Hlt|[?|?]]; [|done|lia].
      destruct H1. apply klt_trans with (e_key e); try done; [by apply Hg|apply Hg; rewrite !elem_of_app, elem_of_cons; tauto| |by apply Hel].
      by apply Hc1.
Qed.

(** Keys one after the other. *)
Fixpoint insert_all (sl : SkipList A Key) (ks : list Key) : option (SkipList A Key) :=
  match ks with [] => Some sl | k :: ks => sl ← Insert sl k; insert_all sl ks end.
(** What an iterator sees on its way to the end, or to the start. *)
Fixpoint walk (step : Z -> option Z) (n : nat) (sl : SkipList A Key) (node : Z) : option (list Key) :=
  match n with
  | O => None
  | S n =>
      if Iter_Valid node then
        k ← Iter_key sl node; node ← step node; ks ← walk step n sl node; Some (k :: ks)
      else Some []
  end.

Lemma walk_forward sl l : rep sl l -> forall n post pre, l = pre ++ post -> (length post < n)%nat ->
  walk (Iter_Next sl) n sl (match post with [] => 0 | e :: _ => e_addr e end) = Some (map e_key post).
Proof.
  intros Hrep n. induction n as [|n IH]; intros post pre E Hn; [lia|]. cbn [walk]. destruct post as [|e post]; [done|].
  destruct (rep_key sl l e Hrep) as [-> ->]; [rewrite E; apply elem_of_app; right; by constructor|]. cbn [mbind option_bind].
  rewrite (Iter_Next_ok sl pre e post) by (by rewrite <- E). cbn [mbind option_bind].
  rewrite (IH post (pre ++ [e])); [done|by rewrite <- app_assoc|simpl in Hn; lia].
Qed.
Lemma walk_backward sl l : rep sl l -> forall n pre post, l = pre ++ post -> (length pre < n)%nat ->
  walk (Iter_Prev sl) n sl (match last pre with None => 0 | Some e => e_addr e end) = Some (map e_key (rev pre)).
Proof.
  intros Hrep n. induction n as [|n IH]; intros pre post E Hn; [lia|]. cbn [walk].
  destruct pre as [|e pre _] using rev_ind; [done|]. rewrite last_snoc, rev_unit. rewrite <- app_assoc in E. cbn [app] in E.
  destruct (rep_key sl l e Hrep) as [-> ->]; [rewrite E; apply elem_of_app; right; by constructor|]. cbn [mbind option_bind].
  rewrite (Iter_Prev_ok sl pre e post) by (by rewrite <- E). cbn [mbind option_bind].
  rewrite (IH pre (e :: post)); [done|done|rewrite length_app in Hn; simpl in Hn; lia].
Qed.

(** No two keys of the list compare equal. *)
Definition distinct (ks : list Key) : Prop := ForallOrdPairs (fun a b => klt a b \/ klt b a) ks.

Lemma insert_all_ok ks : forall sl l, rep sl l -> Forall good ks -> distinct ks ->
  Forall (absent l) ks -> exists sl' l', insert_all sl ks = Some sl' /\ rep sl' l' /\ map e_key l' ≡ₚ ks ++ map e_key l.
Proof.
  induction ks as [|k ks IH]; intros sl l Hrep Hg Hd Ha; cbn [insert_all]; [by exists sl, l|].
  apply list.Forall_cons in Hg as [Hk Hg], Ha as [Hak Ha]. inversion Hd as [|? ? Hdk Hd']; subst.
  destruct (cut_exists sl l k Hrep Hk) as (lo & hi & Hcut).
  destruct (Insert_ok sl l k lo hi Hrep Hk Hcut Hak) as (sl1 & x & h & -> & Hrep1). cbn [mbind option_bind]. destruct Hcut as (-> & _ & _).
  destruct (IH sl1 _ Hrep1 Hg Hd') as (sl' & l' & -> & Hrep' & Hperm).
  - rewrite list.Forall_forall in Hdk, Ha |- *. intros k' Hk'. pose proof (Ha k' Hk') as [H1 H2]%Forall_app.
    apply Forall_app. split; [done|]. constructor; [by apply Hdk|done].
  - exists sl', l'. split_and!; [done|done|]. rewrite Hperm, !map_app. cbn [map e_key]. by rewrite <- Permutation_middle, <- Permutation_middle.
Qed.
End Facts.

(** ** One writer and a reader at the same time *)

(** The writer is idle or somewhere in [Insert]: before the store to
    [max_height_], before the allocation, before the store to the new node's
    link at level [i] and before the store that publishes it there. *)
Inductive writer (Key : Type) :=
  | WIdle
  | WRaise (k : Key) (prev : list (option Z)) (height : Z)
  | WAlloc (k : Key) (prev : list (option Z)) (height : Z)
  | WLinkNew (x : Z) (prev : list (option Z)) (height i : Z)
  | WLinkPrev (x : Z) (prev : list (option Z)) (height i : Z).
Arguments WIdle {Key}.
Arguments WRaise {Key}.
Arguments WAlloc {Key}.
Arguments WLinkNew {Key}.
Arguments WLinkPrev {Key}.

(** The reader in [FindGreaterOrEqual(k, nullptr)]: before the load of
    [max_height_], before the load of [x->Next(level)], and finished. *)
Inductive reader (Key : Type) :=
  | RStart (k : Key)
  | RAt (k : Key) (x level : Z)
  | RDone (k : Key) (res : Z).
Arguments RStart {Key}.
Arguments RAt {Key}.
Arguments RDone {Key}.

Section Steps.
Context {A : Type} {AA : AlignedAlloc A} {Key : Type} {SK : SkipListKey Key}.

(** A step of the writer; an idle one starts to insert [k]. *)
Definition wstep (sl : SkipList A Key) (w : writer Key) (k : Key) : option (SkipList A Key * writer Key) :=
  match w with
  | WIdle => '(sl, prev, h) ← Insert_prepare sl k; Some (sl, WRaise k prev h)
  | WRaise k prev h => Some (Insert_raise sl h, WAlloc k prev h)
  | WAlloc k prev h => '(sl, x) ← NewNode sl k h; Some (sl, WLinkNew x prev h 0)
  | WLinkNew x prev h i =>
      if i <? h then sl ← link_new sl x prev i; Some (sl, WLinkPrev x prev h i) else Some (sl, WIdle)
  | WLinkPrev x prev h i => sl ← link_prev sl x prev i; Some (sl, WLinkNew x prev h (i + 1))
  end.
Definition rstep (sl : SkipList A Key) (r : reader Key) : option (reader Key) :=
  match r with
  | RStart k => Some (RAt k (head_ sl) (GetMaxHeight sl - 1))
  | RAt k x level =>
      next ← Next sl x level;
      after ← KeyIsAfterNode sl k next;
      if (after : bool) then Some (RAt k next level)
      else if level =? 0 then Some (RDone k next)
      else Some (RAt k x (level - 1))
  | RDone k res => Some (RDone k res)
  end.
Definition reader_key (r : reader Key) : Key := match r with RStart k | RAt k _ _ | RDone k _ => k end.

Record sys := mk_sys { s_list : SkipList A Key; s_writer : writer Key; s_reader : reader Key }.

(** [REQUIRES] of [Insert]: nothing that compares equal is in the list. *)
Inductive step (ok_key : Key -> Prop) : sys -> sys -> Prop :=
  | step_write sl w r k sl' w' :
      ok_key k -> (w = WIdle -> Contains sl k = Some false) -> wstep sl w k = Some (sl', w') ->
      step ok_key (mk_sys sl w r) (mk_sys sl' w' r)
  | step_read sl w r r' : rstep sl r = Some r' -> step ok_key (mk_sys sl w r) (mk_sys sl w r').
Definition reach (ok_key : Key -> Prop) : sys -> sys -> Prop := rtc (step ok_key).
End Steps.
Arguments sys : clear implicits.

Section StepFacts.
Context {A : Type} {AA : AlignedAlloc A} {AL : AlignedAllocLaws A}.
Context {Key : Type} {SK : SkipListKey Key} {SKL : SkipListKeyLaws Key}.
Implicit Types (sl : SkipList A Key) (l : list (entry (Key := Key))).

Definition prev_right sl lo (prev : list (option Z)) (h : Z) : Prop :=
  forall j, 0 <= j < h -> znth prev j = Some (Some (pred_at 0 j (head_entry sl :: lo))).
Definition writer_ok sl (w : writer Key) l : Prop :=
  rep sl l /\
  match w with
  | WIdle => True
  | WRaise k prev h => exists lo hi, good k /\ cut l k lo hi /\ absent l k /\ 1 <= h <= kMaxHeight /\ prev_right sl lo prev h
  | WAlloc k prev h =>
      exists lo hi, good k /\ cut l k lo hi /\ absent l k /\ 1 <= h <= kMaxHeight /\ prev_right sl lo prev h /\ h <= max_height_ sl
  | WLinkNew x prev h i => exists lo hi k, l = lo ++ ent x k i ++ hi /\ linking sl lo hi x k h prev i
  | WLinkPrev x prev h i => exists lo hi k, l = lo ++ ent x k i ++ hi /\ linking sl lo hi x k h prev i /\ i < h /\
      Next sl x i = Some (succ_at i hi)
  end.
(** The reader stands at a node before [k] that is linked at its level. *)
Definition reader_ok sl l (r : reader Key) : Prop :=
  good (reader_key r) /\
  match r with
  | RAt k x level => exists e, e ∈ head_entry sl :: l /\ e_addr e = x /\ 0 <= level < e_height e /\ (e = head_entry sl \/ klt (e_key e) k)
  | _ => True
  end.

(** Nodes stay, with at least the levels they had. *)
Definition grows l l' : Prop :=
  forall e, e ∈ l -> exists e', e' ∈ l' /\ e_addr e' = e_addr e /\ e_key e' = e_key e /\ e_height e <= e_height e'.
Lemma grows_refl l : grows l l.
Proof. intros e He. exists e. split_and!; done || lia. Qed.
Lemma grows_ent lo hi x k i j : i <= j -> 0 <= i -> grows (lo ++ ent x k i ++ hi) (lo ++ ent x k j ++ hi).
Proof.
  intros Hij Hi e. rewrite !elem_of_app. intros [He|[He|He]].
  - exists e. rewrite !elem_of_app. split_and!; [tauto|done|done|lia].
  - unfold ent in *. destruct (Z.eqb_spec i 0) as [|]; [by apply elem_of_nil in He|]. apply list_elem_of_singleton in He as ->.
    exists (mk_entry x k j). rewrite (proj2 (Z.eqb_neq j 0)) by lia. rewrite !elem_of_app, list_elem_of_singleton. split_and!; tauto || done.
  - exists e. rewrite !elem_of_app. split_and!; [tauto|done|done|lia].
Qed.

Lemma reader_grows sl sl' l l' r : head_ sl' = head_ sl -> grows l l' -> reader_ok sl l r -> reader_ok sl' l' r.
Proof.
  intros Hh Hg [Hgood Hr]. split; [done|]. destruct r as [k|k x level|k res]; [done| |done].
  assert (E : head_entry sl' = head_entry sl) by (unfold head_entry; by rewrite Hh). rewrite E.
  destruct Hr as (e & He & Hx & Hl & Hk). apply elem_of_cons in He as [->|He].
  - exists (head_entry sl). split_and!; [by constructor|done|lia|lia|by left].
  - destruct (Hg e He) as (e' & He' & Ha & Hke & Hhe). destruct Hk as [->|Hk].
    + exists (head_entry sl). split_and!; [by constructor|done|lia|lia|by left].
    + exists e'. split_and!; [by right|by rewrite Ha|lia|lia|right; by rewrite Hke].
Qed.

Lemma not_contained sl l k : rep sl l -> good k -> Contains sl k = Some false -> absent l k.
Proof.
  intros Hrep Hk Hc. destruct (Contains_ok sl l k Hrep Hk) as (b & E & Hb). rewrite Hc in E. injection E as <-.
  pose proof (rp_good _ _ Hrep) as Hg. unfold absent. rewrite list.Forall_forall in Hg |- *. intros e He.
  destruct (klt_dec (e_key e) k (Hg e He) Hk); [by left|]. destruct (klt_dec k (e_key e) Hk (Hg e He)); [by right|].
  assert (false = true) by (apply Hb; exists e; done). done.
Qed.

(** A step of the writer: it can be taken, and what the nodes make is again a
    sorted list, in which nothing is lost. *)
Lemma wstep_ok sl w l k : writer_ok sl w l -> good k -> (w = WIdle -> Contains sl k = Some false) ->
  exists sl' w' l', wstep sl w k = Some (sl', w') /\ writer_ok sl' w' l' /\ grows l l' /\ head_ sl' = head_ sl.
Proof.
  intros [Hrep Hw] Hk Hreq. destruct w as [|k' prev h|k' prev h|x prev h i|x prev h i]; cbn [wstep].
  - destruct (cut_exists sl l k Hrep Hk) as (lo & hi & Hcut).
    pose proof (not_contained sl l k Hrep Hk (Hreq eq_refl)) as Habs.
    destruct (Insert_prepare_ok sl l k lo hi Hrep Hk Hcut Habs) as (r & prev & h & -> & Hh & Hp). cbn [mbind option_bind].
    eexists _, _, l. split_and!; [done|split; [by apply rep_rnd|by exists lo, hi]|apply grows_refl|done].
  - destruct Hw as (lo & hi & Hg & Hcut & Habs & Hh & Hp). destruct (raise_ok sl l h Hrep Hh) as (Hrep' & Hm & Hhd).
    eexists _, _, l. split_and!; [done|split; [done|]|apply grows_refl|done]. exists lo, hi. split_and!; try done; try lia.
    unfold prev_right, head_entry. by rewrite Hhd.
  - destruct Hw as (lo & hi & Hg & Hcut & Habs & Hh & Hp & Hm).
    destruct (linking_start sl l k' lo hi h prev Hrep Hg Hcut Habs Hh Hm Hp) as (sl' & x & -> & Hlk & Hhd). cbn [mbind option_bind].
    destruct Hcut as (El & _ & _). eexists _, _, l. split_and!; [done|split; [rewrite El; apply Hlk|by exists lo, hi, k']|apply grows_refl|done].
  - destruct Hw as (lo & hi & k' & -> & Hlk). destruct (Z.ltb_spec i h) as [Hlt|Hge].
    + destruct (link_new_ok _ _ _ _ _ _ _ _ Hlk Hlt) as (sl' & -> & Hlk' & Hn & Hhd). cbn [mbind option_bind].
      eexists _, _, _. split_and!; [done|split; [apply Hlk'|by exists lo, hi, k']|apply grows_refl|done].
    + eexists _, _, _. split_and!; [done|done|apply grows_refl|done].
  - destruct Hw as (lo & hi & k' & -> & Hlk & Hi & Hn). pose proof (lk_i _ _ _ _ _ _ _ _ Hlk) as Hi0.
    destruct (link_prev_ok _ _ _ _ _ _ _ _ Hlk Hi Hn) as (sl' & -> & Hlk' & Hhd). cbn [mbind option_bind].
    eexists _, _, _. split_and!; [done|split; [apply Hlk'|by exists lo, hi, k']|apply grows_ent; lia|done].
Qed.

(** Where a reader stands. *)
Lemma reader_at sl l k lo hi e : rep sl l -> cut l k lo hi -> e ∈ head_entry sl :: l -> e = head_entry sl \/ klt (e_key e) k ->
  exists pre mid, head_entry sl :: lo = pre ++ e :: mid.
Proof.
  intros Hrep (-> & Hlo & Hhi) He Hk. apply list_elem_of_split. apply elem_of_cons in He as [->|He]; [by constructor|].
  destruct Hk as [->|Hk]; [by constructor|]. right. apply elem_of_app in He as [He|He]; [done|].
  rewrite list.Forall_forall in Hhi. by destruct (Hhi e He).
Qed.

Fixpoint rrun (n : nat) (sl : SkipList A Key) (r : reader Key) : option (reader Key) :=
  match n with O => Some r | S n => r ← rstep sl r; rrun n sl r end.

Lemma rrun_done n sl k res : rrun n sl (RDone k res) = Some (RDone k res).
Proof. induction n as [|n IH]; [done|]. exact IH. Qed.

Section OneReader.
Context (sl : SkipList A Key) (l : list (entry (Key := Key))) (Hrep : rep sl l) (k : Key) (Hk : good k) (lo hi : list (entry (Key := Key)))
  (Hcut : cut l k lo hi).

(** One step: on to a later node, down a level, or the end. *)
Lemma rstep_cases pre e mid level : head_entry sl :: lo = pre ++ e :: mid -> 0 <= level < e_height e ->
  (exists m1 e' m2, mid = m1 ++ e' :: m2 /\ level < e_height e' /\ e' ∈ lo /\ rstep sl (RAt k (e_addr e) level) = Some (RAt k (e_addr e') level)) \/
  (level <> 0 /\ rstep sl (RAt k (e_addr e) level) = Some (RAt k (e_addr e) (level - 1))) \/
  (level = 0 /\ rstep sl (RAt k (e_addr e) level) = Some (RDone k (succ_at 0 hi))).
Proof.
  intros E Hl. cbn [rstep].
  destruct (search_step sl l lo hi pre e mid level Hrep (proj1 Hcut) E Hl) as [(m1 & e' & m2 & -> & Hh & He' & ->)|[-> _]]; cbn [mbind option_bind].
  - left. exists m1, e', m2. rewrite (after_lo sl l Hrep k Hk lo hi Hcut e' He'). by split_and!.
  - right. rewrite (not_after_hi sl l Hrep k Hk lo hi Hcut). cbn [mbind option_bind]. cbv iota.
    destruct (Z.eqb_spec level 0) as [->|]; [by right|by left].
Qed.

Lemma rrun_finishes n : forall pre e mid level, head_entry sl :: lo = pre ++ e :: mid -> 0 <= level < e_height e ->
  (length mid + Z.to_nat level < n)%nat -> rrun n sl (RAt k (e_addr e) level) = Some (RDone k (succ_at 0 hi)).
Proof.
  induction n as [|n IH]; intros pre e mid level E Hl Hn; [lia|]. cbn [rrun].
  destruct (rstep_cases pre e mid level E Hl) as [(m1 & e' & m2 & -> & Hh & He' & ->)|[[Hl0 ->]|[-> ->]]]; cbn [mbind option_bind].
  - apply (IH (pre ++ e :: m1) e' m2); [by rewrite E, <- app_assoc|lia|rewrite length_app in Hn; simpl in Hn; lia].
  - by apply (IH pre e mid); [|lia|lia].
  - apply rrun_done.
Qed.
End OneReader.

Lemma rstep_ok sl l r : rep sl l -> reader_ok sl l r -> exists r', rstep sl r = Some r' /\ reader_ok sl l r' /\ reader_key r' = reader_key r /\
  (forall res, r' = RDone (reader_key r) res -> r <> r' -> FindGreaterOrEqual sl (reader_key r) None = Some (res, None)).
Proof.
  intros Hrep [Hk Hr]. pose proof (rp_max _ _ Hrep) as Hm. destruct r as [k|k x level|k res]; cbn [reader_key] in *.
  - eexists. split; [done|]. split_and!; [|done|done]. split; [done|]. exists (head_entry sl).
    split_and!; [by constructor|done|unfold GetMaxHeight; lia|unfold GetMaxHeight; cbn; lia|by left].
  - destruct Hr as (e & He & <- & Hl & Hek). destruct (cut_exists sl l k Hrep Hk) as (lo & hi & Hcut).
    destruct (reader_at sl l k lo hi e Hrep Hcut He Hek) as (pre & mid & E).
    destruct (rstep_cases sl l Hrep k Hk lo hi Hcut pre e mid level E Hl) as [(m1 & e' & m2 & -> & Hh & He' & ->)|[[Hl0 ->]|[-> ->]]].
    + eexists. split_and!; [done| |done|done]. split; [done|]. exists e'. destruct Hcut as (-> & Hlo & _). rewrite list.Forall_forall in Hlo.
      split_and!; [right; apply elem_of_app; by left|done|lia|lia|right; by apply Hlo].
    + eexists. split_and!; [done| |done|done]. split; [done|]. exists e. split_and!; [done|done|lia|lia|done].
    + eexists. split_and!; [done|by split|done|]. intros res [= <-] _.
      by destruct (FindGreaterOrEqual_ok sl l Hrep k Hk lo hi Hcut None I) as ([p|] & -> & Hp).
  - eexists. split_and!; [done|by split|done|]. intros res' [= <-] Hne. done.
Qed.

Definition sys_ok (s : sys A Key) l : Prop := writer_ok (s_list s) (s_writer s) l /\ reader_ok (s_list s) l (s_reader s).

Lemma step_ok s s' l : sys_ok s l -> step good s s' -> exists l', sys_ok s' l' /\ grows l l' /\ reader_key (s_reader s') = reader_key (s_reader s).
Proof.
  intros [Hw Hr]. destruct 1 as [sl w r k sl' w' Hk Hreq E|sl w r r' E]; cbn [s_list s_writer s_reader] in *.
  - destruct (wstep_ok sl w l k Hw Hk Hreq) as (sl1 & w1 & l' & E1 & Hw' & Hg & Hh). rewrite E in E1. injection E1 as <- <-.
    exists l'. split_and!; [|done|done]. split; [done|]. by apply (reader_grows sl sl' l l').
  - destruct (rstep_ok sl l r (proj1 Hw) Hr) as (r1 & E1 & Hr' & Hkey & _). rewrite E in E1. injection E1 as <-.
    exists l. split_and!; [by split|apply grows_refl|done].
Qed.
Lemma grows_trans l1 l2 l3 : grows l1 l2 -> grows l2 l3 -> grows l1 l3.
Proof.
  intros H1 H2 e He. destruct (H1 e He) as (e1 & He1 & Ha1 & Hk1 & Hh1). destruct (H2 e1 He1) as (e2 & He2 & Ha2 & Hk2 & Hh2).
  exists e2. split_and!; [done|congruence|congruence|lia].
Qed.
Lemma reach_ok s s' : reach good s s' -> forall l, sys_ok s l ->
  exists l', sys_ok s' l' /\ grows l l' /\ reader_key (s_reader s') = reader_key (s_reader s).
Proof.
  induction 1 as [s|s s1 s2 Hs _ IH]; intros l Hok; [exists l; split_and!; [done|apply grows_refl|done]|].
  destruct (step_ok s s1 l Hok Hs) as (l1 & Hok1 & Hg1 & Hk1). destruct (IH l1 Hok1) as (l2 & Hok2 & Hg2 & Hk2).
  exists l2. split_and!; [done|by eapply grows_trans|congruence].
Qed.

Lemma contains_grows sl sl' l l' k : rep sl l -> rep sl' l' -> grows l l' -> good k ->
  Contains sl k = Some true -> Contains sl' k = Some true.
Proof.
  intros Hrep Hrep' Hg Hk Hc. destruct (Contains_ok sl l k Hrep Hk) as (b & E & Hb), (Contains_ok sl' l' k Hrep' Hk) as (b' & E' & Hb').
  rewrite Hc in E. injection E as <-. destruct (proj1 Hb eq_refl) as (e & He & Hs). destruct (Hg e He) as (e' & He' & _ & Hke & _).
  rewrite E'. f_equal. apply Hb'. exists e'. by rewrite Hke.
Qed.
Lemma start_ok (a : A) used sl k : aa_inv a used -> new_SkipList a = Some sl -> good k -> sys_ok (mk_sys sl WIdle (RStart k)) [].
Proof. intros Hu E Hk. destruct (new_SkipList_ok a used Hu) as (sl' & E' & Hrep). rewrite E in E'. injection E' as <-.
  split; by split. Qed.
End StepFacts.

Section Theorems.
Context {A : Type} {AA : AlignedAlloc A} {AL : AlignedAllocLaws A}.
Context {Key : Type} {SK : SkipListKey Key} {SKL : SkipListKeyLaws Key}.

(** C12: a skip list is the sorted list of the keys inserted into it.  Distinct
    keys inserted in any order into a new list all go in; an iterator walks
    through them in order from the first, and backwards from the last;
    [Contains] tells whether a key equal to the one asked for was inserted; and
    [Seek] stops at the first key that is not below its target. *)
Theorem skiplist_refines (a : A) used ks :
  aa_inv a used -> Forall good ks -> distinct ks ->
  exists sl0 sl sorted, new_SkipList a = Some sl0 /\ insert_all sl0 ks = Some sl /\
    sorted ≡ₚ ks /\ StronglySorted klt sorted /\
    (x ← Iter_SeekToFirst sl; walk (Iter_Next sl) (S (length ks)) sl x) = Some sorted /\
    (x ← Iter_SeekToLast sl; walk (Iter_Prev sl) (S (length ks)) sl x) = Some (rev sorted) /\
    forall k, good k ->
      (exists b, Contains sl k = Some b /\ (b = true <-> exists k', k' ∈ ks /\ same_key k k')) /\
      (exists below rest, sorted = below ++ rest /\ Forall (fun k' => klt k' k) below /\ Forall (fun k' => ~ klt k' k) rest /\
         (x ← Iter_Seek sl k; walk (Iter_Next sl) (S (length ks)) sl x) = Some rest).
Proof.
  intros Hu Hg Hd. destruct (new_SkipList_ok a used Hu) as (sl0 & E0 & Hrep0).
  destruct (insert_all_ok ks sl0 [] Hrep0 Hg Hd) as (sl & l & E & Hrep & Hperm); [apply list.Forall_forall; intros; constructor|].
  rewrite app_nil_r in Hperm. assert (Hlen : length l = length ks) by (by rewrite <- Hperm, length_map).
  exists sl0, sl, (map e_key l). split_and!; [done|done|done| | | |].
  - pose proof (rp_sorted _ _ Hrep) as Hs. clear -Hs. induction Hs as [|e l Hs IH He]; [constructor|]. constructor; [done|]. by apply Forall_map.
  - rewrite (Iter_SeekToFirst_ok sl l Hrep). cbn [mbind option_bind]. apply (walk_forward sl l Hrep _ l []); [done|lia].
  - rewrite (Iter_SeekToLast_ok sl l Hrep). cbn [mbind option_bind]. rewrite <- map_rev.
    apply (walk_backward sl l Hrep _ l []); [by rewrite app_nil_r|lia].
  - intros k Hk. split.
    + destruct (Contains_ok sl l k Hrep Hk) as (b & Eb & Hb). exists b. split; [done|]. rewrite Hb. split.
      * intros (e & He & Hs). exists (e_key e). split; [|done]. rewrite <- Hperm. by apply list_elem_of_fmap_2.
      * intros (k' & Hk' & Hs). rewrite <- Hperm in Hk'. apply list_elem_of_fmap in Hk' as (e & -> & He). by exists e.
    + destruct (cut_exists sl l k Hrep Hk) as (lo & hi & Hcut). rewrite (Iter_Seek_ok sl l k lo hi Hrep Hk Hcut). cbn [mbind option_bind].
      destruct Hcut as (El & Hlo & Hhi). exists (map e_key lo), (map e_key hi).
      split_and!; [by rewrite El, map_app|by apply Forall_map|by apply Forall_map|].
      apply (walk_forward sl l Hrep _ hi lo); [done|]. rewrite El, length_app in Hlen. lia.
Qed.

(** C11: readers need no lock.  A reader searches for the first key not below
    [k] while a writer inserts keys, every load and store being interleaved in
    any way: at every moment both can take their next step without an access
    to memory that is not there or not yet written; no key that [Contains]
    finds is ever missed again; and what the reader's last load gives it is
    what the search would return if it ran alone at that moment. *)
Theorem skiplist_readers_safe (a : A) used sl0 k s :
  aa_inv a used -> new_SkipList a = Some sl0 -> good k -> reach good (mk_sys sl0 WIdle (RStart k)) s ->
  (forall k', good k' -> (s_writer s = WIdle -> Contains (s_list s) k' = Some false) -> is_Some (wstep (s_list s) (s_writer s) k')) /\
  (exists r, rstep (s_list s) (s_reader s) = Some r /\
     forall res, r = RDone k res -> s_reader s <> r -> FindGreaterOrEqual (s_list s) k None = Some (res, None)) /\
  (forall k' s', good k' -> reach good s s' -> Contains (s_list s) k' = Some true -> Contains (s_list s') k' = Some true).
Proof.
  intros Hu E0 Hk Hreach. destruct (reach_ok _ _ Hreach [] (start_ok a used sl0 k Hu E0 Hk)) as (l & Hok & _ & Hkey). cbn in Hkey.
  split_and!.
  - intros k' Hk' Hreq. destruct (wstep_ok _ _ l k' (proj1 Hok) Hk' Hreq) as (sl' & w' & l' & -> & _). done.
  - destruct (rstep_ok _ l _ (proj1 (proj1 Hok)) (proj2 Hok)) as (r & -> & _ & _ & Hr). exists r. split; [done|].
    intros res -> Hne. rewrite Hkey in Hr. by apply Hr.
  - intros k' s' Hk' Hs' Hc. destruct (reach_ok _ _ Hs' l Hok) as (l' & Hok' & Hg & _).
    by apply (contains_grows (s_list s) (s_list s') l l' k' (proj1 (proj1 Hok)) (proj1 (proj1 Hok')) Hg Hk').
Qed.

(** C26: a reader is never held up.  Wherever the writer has got to in an
    insertion, and even if it never takes another step, a reader that goes on
    alone finishes within as many steps as there are nodes and levels, with
    the answer that the list has at that moment. *)
Theorem skiplist_reader_finishes (a : A) used sl0 k s :
  aa_inv a used -> new_SkipList a = Some sl0 -> good k -> reach good (mk_sys sl0 WIdle (RStart k)) s ->
  (forall res, s_reader s <> RDone k res) ->
  exists res, rrun (size (nodes (s_list s)) + Z.to_nat kMaxHeight + 1) (s_list s) (s_reader s) = Some (RDone k res) /\
    FindGreaterOrEqual (s_list s) k None = Some (res, None).
Proof.
  intros Hu E0 Hk Hreach Hnd. destruct (reach_ok _ _ Hreach [] (start_ok a used sl0 k Hu E0 Hk)) as (l & [[Hrep _] [_ Hr]] & _ & Hkey).
  cbn in Hkey. destruct s as [sl w r]; cbn [s_list s_writer s_reader] in *. destruct (cut_exists sl l k Hrep Hk) as (lo & hi & Hcut).
  pose proof (rep_size sl l Hrep) as Hsz. pose proof (rp_max _ _ Hrep) as Hm. unfold kMaxHeight in *.
  exists (succ_at 0 hi). split; [|by destruct (FindGreaterOrEqual_ok sl l Hrep k Hk lo hi Hcut None I) as ([p|] & -> & Hp)].
  assert (Hlo : (length lo <= length l)%nat) by (destruct Hcut as (-> & _); rewrite length_app; lia).
  destruct r as [k0|k0 x level|k0 res]; cbn [reader_key] in Hkey; subst k0; [| |by destruct (Hnd res)].
  - rewrite Nat.add_1_r. cbn [rrun rstep mbind option_bind]. change (head_ sl) with (e_addr (head_entry sl)).
    apply (rrun_finishes sl l Hrep k Hk lo hi Hcut _ [] (head_entry sl) lo); [done|unfold GetMaxHeight; cbn; unfold kMaxHeight; lia|].
    unfold GetMaxHeight. lia.
  - destruct Hr as (e & He & <- & Hl & Hek). destruct (reader_at sl l k lo hi e Hrep Hcut He Hek) as (pre & mid & E).
    apply (rrun_finishes sl l Hrep k Hk lo hi Hcut _ pre e mid); [done|done|].
    assert (Hlen : (length mid <= length lo)%nat) by (apply (f_equal length) in E; rewrite length_app in E; simpl in E; lia).
    assert (level < 12); [|lia]. apply elem_of_cons in He as [->|He]; [cbn in Hl; unfold kMaxHeight in Hl; lia|].
    pose proof (rp_heights _ _ Hrep) as Hh. rewrite list.Forall_forall in Hh. specialize (Hh e He). lia.
Qed.
End Theorems.

(** Integers in an arena. *)
Definition Z_keys : SkipListKey Z := {| compare_ := fun a b => Some (a - b); any_key := 0; sizeof_Node := 16 |}.
Program Definition Z_keys_laws : SkipListKeyLaws Z (SK := Z_keys) := {| good := fun _ => True; klt := Z.lt |}.
Next Obligation. cbn. lia. Qed.
Next Obligation. intros a b _ _. eexists. split; [done|]. lia. Qed.
Next Obligation. cbn. lia. Qed.

Section Witnesses.
#[local] Existing Instances bump_malloc bump_laws Z_keys Z_keys_laws.

Lemma skiplist_refines_witness :
  exists sl0 sl sorted, new_SkipList new_Arena = Some sl0 /\ insert_all sl0 [5; 3; 9] = Some sl /\
    sorted ≡ₚ [5; 3; 9] /\ StronglySorted klt sorted /\
    (x ← Iter_SeekToFirst sl; walk (Iter_Next sl) 4 sl x) = Some sorted /\
    (x ← Iter_SeekToLast sl; walk (Iter_Prev sl) 4 sl x) = Some (rev sorted) /\
    forall k, good k ->
      (exists b, Contains sl k = Some b /\ (b = true <-> exists k', k' ∈ [5; 3; 9] /\ same_key k k')) /\
      (exists below rest, sorted = below ++ rest /\ Forall (fun k' => klt k' k) below /\ Forall (fun k' => ~ klt k' k) rest /\
         (x ← Iter_Seek sl k; walk (Iter_Next sl) 4 sl x) = Some rest).
Proof. apply (skiplist_refines new_Arena [] [5; 3; 9]); [exact new_Arena_inv|by repeat constructor|repeat constructor; simpl; lia]. Defined.

Definition demo_list : SkipList Arena Z := default (mk_skiplist new_Arena 0 0 0 ∅) (new_SkipList new_Arena).
(** The insertion of 3 after [n] steps. *)
Fixpoint demo_insert (n : nat) : SkipList Arena Z * writer Z :=
  match n with O => (demo_list, WIdle) | S n => default (demo_list, WIdle) (wstep (demo_insert n).1 (demo_insert n).2 3) end.

Lemma demo_reach : reach good (mk_sys demo_list WIdle (RStart 4)) (mk_sys (demo_insert 4).1 (demo_insert 4).2 (RStart 4)).
Proof.
  assert (H : forall n, Contains (demo_insert n).1 3 = Some false -> is_Some (wstep (demo_insert n).1 (demo_insert n).2 3) ->
    step good (mk_sys (demo_insert n).1 (demo_insert n).2 (RStart 4)) (mk_sys (demo_insert (S n)).1 (demo_insert (S n)).2 (RStart 4))).
  { intros n Hc [[sl w] E]. apply (step_write _ _ _ _ 3); [exact I|done|]. cbn [demo_insert]. by rewrite E. }
  apply (rtc_l _ _ _ _ (H 0%nat eq_refl ltac:(vm_compute; eauto))).
  apply (rtc_l _ _ _ _ (H 1%nat eq_refl ltac:(vm_compute; eauto))).
  apply (rtc_l _ _ _ _ (H 2%nat eq_refl ltac:(vm_compute; eauto))).
  apply (rtc_once _ _ (H 3%nat eq_refl ltac:(vm_compute; eauto))).
Qed.

Lemma skiplist_readers_safe_witness :
  (forall k', good k' -> ((demo_insert 4).2 = WIdle -> Contains (demo_insert 4).1 k' = Some false) -> is_Some (wstep (demo_insert 4).1 (demo_insert 4).2 k')) /\
  (exists r, rstep (demo_insert 4).1 (RStart 4) = Some r /\
     forall res, r = RDone 4 res -> RStart 4 <> r -> FindGreaterOrEqual (demo_insert 4).1 4 None = Some (res, None)) /\
  (forall k' s', good k' -> reach good (mk_sys (demo_insert 4).1 (demo_insert 4).2 (RStart 4)) s' ->
     Contains (demo_insert 4).1 k' = Some true -> Contains (s_list s') k' = Some true).
Proof.
  apply (skiplist_readers_safe new_Arena [] demo_list 4 (mk_sys (demo_insert 4).1 (demo_insert 4).2 (RStart 4)));
    [exact new_Arena_inv|by vm_compute|exact I|exact demo_reach].
Defined.

Lemma skiplist_reader_finishes_witness :
  exists res, rrun (size (nodes (demo_insert 4).1) + Z.to_nat kMaxHeight + 1) (demo_insert 4).1 (RStart 4) = Some (RDone 4 res) /\
    FindGreaterOrEqual (demo_insert 4).1 4 None = Some (res, None).
Proof.
  apply (skiplist_reader_finishes new_Arena [] demo_list 4 (mk_sys (demo_insert 4).1 (demo_insert 4).2 (RStart 4)));
    [exact new_Arena_inv|by vm_compute|exact I|exact demo_reach|done].
Defined.
End Witnesses.
