(* ===== verification/LdbMemtable.v ===== *)
(** * leveldb: db/memtable.h, db/memtable.cc and MemTableInserter of db/write_batch.cc

    A memtable is a skip list of entries, each an internal key and a value with
    their lengths in front.  A [const char*] into an entry is the bytes from
    there to the end of the entry; they never change once the entry is in the
    list.  [None] is a failed [assert], a null pointer or an access outside the
    entry. *)

From Stdlib Require Import ZArith Lia Bool String.
From stdpp Require Import base option list numbers gmap sorting.
From S2P Require Import Prelude LdbCoding LdbFormat LdbBatch LdbRandom LdbArena LdbSkiplist.
Open Scope Z_scope.

(** ** The code *)

Section Code.
Context {P : Platform} {M : Malloc}.

(** The slice with a length in front at [p], and where it starts. *)
Definition GetLengthPrefixedSliceAt (data : list Z) (p : Z) : option (Z * list Z) :=
  q ← GetVarint32Ptr data p (p + 5);
  '(p, len) ← q;
  s ← rd data p len;
  Some (p, s).

(** [MemTable::KeyComparator], for the user comparator [uc]. *)
Definition KeyComparator (uc : Comparator) (aptr bptr : list Z) : option Z :=
  '(_, a) ← GetLengthPrefixedSliceAt aptr 0;
  '(_, b) ← GetLengthPrefixedSliceAt bptr 0;
  ICompare uc a b.
Definition Table_key (uc : Comparator) : SkipListKey (list Z) :=
  {| compare_ := KeyComparator uc; any_key := []; sizeof_Node := 16 |}.

Definition EncodeKey (target : list Z) : option (list Z) :=
  scratch ← PutVarint32 [] (u32 (zlen target)); Some (scratch ++ target).

(** [arena_] is the one that [table_] uses. *)
Record MemTable := mk_memtable { refs_ : Z; table_ : SkipList Arena (list Z) }.

Definition set_arena (t : SkipList Arena (list Z)) (a : Arena) : SkipList Arena (list Z) :=
  mk_skiplist a (head_ t) (max_height_ t) (rnd_ t) (nodes t).

Definition new_MemTable (uc : Comparator) : option MemTable :=
  t ← new_SkipList (SK := Table_key uc) new_Arena; Some (mk_memtable 0 t).
Definition Ref (m : MemTable) : MemTable := mk_memtable (refs_ m + 1) (table_ m).
(** The inner [None]: the table has deleted itself. *)
Definition Unref (m : MemTable) : option (option MemTable) :=
  let refs := refs_ m - 1 in
  if negb (0 <=? refs) then None
  else if refs <=? 0 then (if negb (refs =? 0) then None else Some None)
  else Some (Some (mk_memtable refs (table_ m))).
Definition ApproximateMemoryUsage (m : MemTable) : Z := MemoryUsage (arena_ (table_ m)).

Definition Add (uc : Comparator) (m : MemTable) (s : Z) (t : ValueType) (key value : list Z) : option MemTable :=
  let key_size := zlen key in
  let val_size := zlen value in
  let internal_key_size := key_size + 8 in
  kl ← VarintLength internal_key_size;
  vl ← VarintLength val_size;
  let encoded_len := kl + internal_key_size + vl + val_size in
  '(a, _) ← Allocate (arena_ (table_ m)) encoded_len;
  let buf := char_buf (Z.to_nat encoded_len) in
  '(buf, p) ← EncodeVarint32 buf 0 (u32 internal_key_size);
  buf ← wr buf p key;
  let p := p + key_size in
  buf ← EncodeFixed64 buf p (Z.lor (u64 (Z.shiftl s 8)) (value_code t));
  let p := p + 8 in
  '(buf, p) ← EncodeVarint32 buf p (u32 val_size);
  buf ← wr buf p value;
  if negb (p + val_size =? encoded_len) then None
  else
    t ← Insert (SK := Table_key uc) (set_arena (table_ m) a) buf;
    Some (mk_memtable (refs_ m) t).

(** The result, what [*value] becomes and what [*s] becomes. *)
Definition Get (uc : Comparator) (m : MemTable) (key : LookupKey) : option (bool * option (list Z) * option Status) :=
  memkey ← memtable_key key;
  node ← Iter_Seek (SK := Table_key uc) (table_ m) memkey;
  if Iter_Valid node then
    entry ← Iter_key (table_ m) node;
    q ← GetVarint32Ptr entry 0 5;
    '(key_ptr, key_length) ← q;
    uk ← rd entry key_ptr (u32 (key_length - 8));
    lk ← lookup_user_key key;
    if Compare uc uk lk =? 0 then
      tag ← DecodeFixed64 entry (key_ptr + key_length - 8);
      let ty := Z.land tag 255 in
      if ty =? value_code kTypeValue then
        '(_, v) ← GetLengthPrefixedSliceAt entry (key_ptr + key_length);
        Some (true, Some v, None)
      else if ty =? value_code kTypeDeletion then Some (true, None, Some NotFound)
      else Some (false, None, None)
    else Some (false, None, None)
  else Some (false, None, None).

(** [MemTableIterator]: the state is the skip list iterator's. *)
Definition MI_Valid (node : Z) : bool := Iter_Valid node.
Definition MI_SeekToFirst (m : MemTable) : option Z := Iter_SeekToFirst (table_ m).
Definition MI_SeekToLast (m : MemTable) : option Z := Iter_SeekToLast (table_ m).
Definition MI_Next (m : MemTable) (node : Z) : option Z := Iter_Next (table_ m) node.
Definition MI_Prev (uc : Comparator) (m : MemTable) (node : Z) : option Z := Iter_Prev (SK := Table_key uc) (table_ m) node.
Definition MI_Seek (uc : Comparator) (m : MemTable) (k : list Z) : option Z :=
  e ← EncodeKey k; Iter_Seek (SK := Table_key uc) (table_ m) e.
Definition MI_key (m : MemTable) (node : Z) : option (list Z) :=
  e ← Iter_key (table_ m) node; '(_, k) ← GetLengthPrefixedSliceAt e 0; Some k.
Definition MI_value (m : MemTable) (node : Z) : option (list Z) :=
  e ← Iter_key (table_ m) node;
  '(p, k) ← GetLengthPrefixedSliceAt e 0;
  '(_, v) ← GetLengthPrefixedSliceAt e (p + zlen k);
  Some v.

(** [MemTableInserter]: the state is [sequence_] and the table. *)
Definition MemTableInserter (uc : Comparator) : Handler (Z * MemTable) := {|
  h_Put := fun '(seq, m) key value => m ← Add uc m seq kTypeValue key value; Some (u64 (seq + 1), m);
  h_Delete := fun '(seq, m) key => m ← Add uc m seq kTypeDeletion key []; Some (u64 (seq + 1), m)
|}.
Definition InsertInto (uc : Comparator) (b : list Z) (m : MemTable) : option (MemTable * Status) :=
  seq ← Sequence b;
  '(st, s) ← Iterate (MemTableInserter uc) (seq, m) b;
  Some (st.2, s).
End Code.

(** ** Entries *)

Lemma varint32_limit buf p limit limit' fuel : forall shift result q r, limit <= limit' ->
  GetVarint32Ptr_loop fuel buf p limit shift result = Some (Some (q, r)) ->
  GetVarint32Ptr_loop fuel buf p limit' shift result = Some (Some (q, r)).
Proof.
  revert p. induction fuel as [|fuel IH]; intros p shift result q r Hl; cbn [GetVarint32Ptr_loop].
  { by destruct ((shift <=? 28) && (p <? limit)). }
  destruct (shift <=? 28); cbn [andb]; [|done]. destruct (Z.ltb_spec p limit); [|done].
  rewrite (proj2 (Z.ltb_lt p limit')) by lia. destruct (znth buf p) as [b|]; [|done]. cbn [mbind option_bind].
  destruct (negb _); [|done]. by apply IH.
Qed.
Lemma GetVarint32Ptr_limit buf p limit limit' q r : limit <= limit' ->
  GetVarint32Ptr buf p limit = Some (Some (q, r)) -> GetVarint32Ptr buf p limit' = Some (Some (q, r)).
Proof.
  intros Hl. unfold GetVarint32Ptr, GetVarint32PtrFallback. destruct (Z.ltb_spec p limit) as [Hp|Hp].
  - rewrite (proj2 (Z.ltb_lt p limit')) by lia. destruct (znth buf p) as [b|]; [|done]. cbn [mbind option_bind].
    destruct (_ =? 0); [done|]. by apply varint32_limit.
  - intros H. assert (Hn : GetVarint32Ptr_loop 5 buf p limit 0 0 = Some None).
    { cbn [GetVarint32Ptr_loop]. by rewrite (proj2 (Z.ltb_ge p limit)), andb_false_r by lia. }
    by rewrite Hn in H.
Qed.

(** A length and what follows it, read with a limit that may lie past the end. *)
Lemma varint_at pre v rest n : in_u 32 v -> n = zlen pre ->
  GetVarint32Ptr (pre ++ varint v ++ rest) n (n + 5) = Some (Some (n + zlen (varint v), v)).
Proof.
  intros Hv ->. pose proof (zlen_varint32_le v Hv). apply (GetVarint32Ptr_limit _ _ (zlen pre + zlen (varint v))); [lia|].
  rewrite GetVarint32Ptr_ok by (apply varint_bytes, Hv). pose proof (vdec5_varint v [] Hv) as E. rewrite app_nil_r in E.
  rewrite E. unfold u32. rewrite wrap_id by done. by rewrite zlen_nil, Z.sub_0_r.
Qed.
Lemma lenpref_at pre s rest n : zlen s < 2 ^ 32 -> n = zlen pre ->
  GetLengthPrefixedSliceAt (pre ++ lenpref s ++ rest) n = Some (n + zlen (varint (zlen s)), s).
Proof.
  intros Hs ->. pose proof (zlen_nonneg s). unfold GetLengthPrefixedSliceAt, lenpref. rewrite <- app_assoc.
  rewrite varint_at by (done || (unfold in_u; lia)). cbn [mbind option_bind].
  rewrite (app_assoc pre). rewrite rd_seg by (zlens; lia). done.
Qed.

(** An entry: sequence number, type, user key and value. *)
Record mentry := mk_mentry { m_seq : Z; m_type : ValueType; m_key : list Z; m_val : list Z }.
Definition m_tag (e : mentry) : Z := tag_of (m_seq e) (m_type e).
Definition mentry_ok (e : mentry) : Prop :=
  0 <= m_seq e <= kMaxSequenceNumber /\ bytes (m_key e) /\ zlen (m_key e) + 8 < 2 ^ 32 /\ zlen (m_val e) < 2 ^ 32.
Definition entry_of (e : mentry) : list Z := lenpref (raw (m_key e) (m_tag e)) ++ lenpref (m_val e).

(** What the comparator sees of a pointer: the user key and the tag. *)
Definition points_to (ptr : list Z) (u : list Z) (n : Z) : Prop :=
  exists rest, ptr = lenpref (raw u n) ++ rest /\ in_u 64 n /\ zlen u + 8 < 2 ^ 32.

Section KeyFacts.
Context {P : Platform} (uc : Comparator) {CL : ComparatorLaws uc}.

Lemma KeyComparator_ok a b u n v k : points_to a u n -> points_to b v k -> KeyComparator uc a b = Some (rcmp uc u n v k).
Proof.
  intros (r1 & -> & Hn & Hu) (r2 & -> & Hk & Hv). unfold KeyComparator.
  pose proof (lenpref_at [] (raw u n) r1 0) as E1. pose proof (lenpref_at [] (raw v k) r2 0) as E2. cbn [app] in E1, E2.
  rewrite E1, E2 by (done || by rewrite zlen_raw). cbn [mbind option_bind]. by apply ICompare_raw.
Qed.
Lemma points_to_inj a u n v k : points_to a u n -> points_to a v k -> u = v /\ n = k.
Proof.
  intros (r1 & E1 & Hn & Hu) (r2 & E2 & Hk & Hv).
  pose proof (lenpref_at [] (raw u n) r1 0) as H1. pose proof (lenpref_at [] (raw v k) r2 0) as H2. cbn [app] in H1, H2.
  rewrite <- E1 in H1. rewrite <- E2 in H2. rewrite H1 in H2 by (done || by rewrite zlen_raw).
  specialize (H2 ltac:(by rewrite zlen_raw) eq_refl). injection H2 as _ Hraw. unfold raw in Hraw.
  apply app_inj_2 in Hraw as [-> Hle]; [|by rewrite !length_le_enc]. split; [done|].
  apply (f_equal le_dec) in Hle. rewrite !le_dec_enc in Hle. change (8 * Z.of_nat 8) with 64 in Hle. by rewrite !wrap_id in Hle.
Qed.

Lemma rcmp_lt_trans u n v k w j : rcmp uc u n v k < 0 -> rcmp uc v k w j < 0 -> rcmp uc u n w j < 0.
Proof.
  intros H1 H2. pose proof (rcmp_trans uc u n v k w j ltac:(lia) ltac:(lia)) as H.
  destruct (Z.eq_dec (rcmp uc u n w j) 0) as [E|]; [|lia]. exfalso.
  pose proof (rcmp_opp uc u n w j) as O1. rewrite E in O1. pose proof (rcmp_opp uc u n v k) as O2.
  pose proof (rcmp_trans uc v k w j u n ltac:(lia) ltac:(lia)). lia.
Qed.

Program Definition Table_key_laws : SkipListKeyLaws (list Z) (SK := Table_key uc) := {|
  good := fun a => exists u n, points_to a u n;
  klt := fun a b => exists u n v k, points_to a u n /\ points_to b v k /\ rcmp uc u n v k < 0
|}.
Next Obligation.
  cbn. intros a b c _ _ _ (u & n & v & k & Ha & Hb & H1) (v' & k' & w & j & Hb' & Hc & H2).
  destruct (points_to_inj _ _ _ _ _ Hb Hb') as [<- <-]. exists u, n, w, j. split_and!; [done|done|]. by eapply rcmp_lt_trans.
Qed.
Next Obligation.
  cbn. intros a b (u & n & Ha) (v & k & Hb). exists (rcmp uc u n v k). rewrite (KeyComparator_ok a b u n v k Ha Hb).
  split_and!; [done|split|split].
  - intros H. by exists u, n, v, k.
  - intros (u' & n' & v' & k' & Ha' & Hb' & H). destruct (points_to_inj _ _ _ _ _ Ha Ha') as [<- <-], (points_to_inj _ _ _ _ _ Hb Hb') as [<- <-]. done.
  - intros H. exists v, k, u, n. split_and!; [done|done|]. pose proof (rcmp_opp uc u n v k). lia.
  - intros (v' & k' & u' & n' & Hb' & Ha' & H). destruct (points_to_inj _ _ _ _ _ Ha Ha') as [<- <-], (points_to_inj _ _ _ _ _ Hb Hb') as [<- <-].
    pose proof (rcmp_opp uc u n v k). lia.
Qed.
Next Obligation. cbn. lia. Qed.
End KeyFacts.

(** ** The table *)

(** A store at the end of what has been written. *)
Lemma wr_at p t x n : n = zlen p -> zlen x <= zlen t -> wr (p ++ t) n x = Some ((p ++ x) ++ drop (length x) t).
Proof.
  intros -> Hx. rewrite <- (take_drop (length x) t) at 1. rewrite wr_seg; [by rewrite <- app_assoc|done|].
  rewrite zlen_take. unfold zlen in *. lia.
Qed.
Lemma zlen_varint_pos v : 0 < zlen (varint v).
Proof.
  unfold varint. cbn [vint]. destruct (_ <? 128); zlens; [lia|]. match goal with |- context [zlen ?l] => pose proof (zlen_nonneg l) end. lia.
Qed.

Section MemFacts.
Context {P : Platform} {M : Malloc} {ML : MallocLaws} (uc : Comparator) {CL : ComparatorLaws uc}.
#[local] Hint Extern 0 (SkipListKey (list Z)) => exact (Table_key uc) : typeclass_instances.
#[local] Hint Extern 0 (SkipListKeyLaws (list Z)) => exact (Table_key_laws uc) : typeclass_instances.

Lemma tag_lor s t : 0 <= s <= kMaxSequenceNumber -> Z.lor (u64 (Z.shiftl s 8)) (value_code t) = tag_of s t.
Proof.
  intros Hs. pose proof (Pack_ok s t Hs) as H. unfold PackSequenceAndType in H.
  destruct (negb _); [done|]. destruct (negb _); [done|]. by injection H.
Qed.

(** The entry that [Add] builds in the memory it allocates. *)
Lemma entry_built e (n := zlen (entry_of e)) : mentry_ok e ->
  ('(buf, p) ← EncodeVarint32 (char_buf (Z.to_nat n)) 0 (u32 (zlen (m_key e) + 8));
   buf ← wr buf p (m_key e);
   buf ← EncodeFixed64 buf (p + zlen (m_key e)) (Z.lor (u64 (Z.shiftl (m_seq e) 8)) (value_code (m_type e)));
   '(buf, p) ← EncodeVarint32 buf (p + zlen (m_key e) + 8) (u32 (zlen (m_val e)));
   buf ← wr buf p (m_val e); Some (buf, p)) = Some (entry_of e, n - zlen (m_val e)).
Proof.
  intros (Hs & Hkb & Hk & Hv). pose proof (zlen_nonneg (m_key e)). pose proof (zlen_nonneg (m_val e)).
  assert (Hn : n = zlen (varint (zlen (m_key e) + 8)) + zlen (m_key e) + 8 + zlen (varint (zlen (m_val e))) + zlen (m_val e)).
  { unfold n, entry_of, lenpref. rewrite zlen_raw. unfold raw. zlens. lia. }
  pose proof (zlen_varint_pos (zlen (m_key e) + 8)). pose proof (zlen_varint_pos (zlen (m_val e))).
  unfold u32. rewrite !wrap_id by (unfold in_u; lia). rewrite tag_lor by done. set (t0 := char_buf (Z.to_nat n)).
  assert (Ht0 : zlen t0 = n) by (unfold t0; rewrite zlen_char_buf; lia). clearbody t0.
  pose proof (EncodeVarint32_ok [] t0 (zlen (m_key e) + 8) ltac:(unfold in_u; lia)) as E. cbn [app] in E. rewrite zlen_nil in E.
  rewrite E by lia. clear E. cbn [mbind option_bind]. set (t1 := drop _ t0).
  assert (Ht1 : zlen t1 = n - zlen (varint (zlen (m_key e) + 8))) by (unfold t1; zlens; unfold zlen in *; lia). clearbody t1.
  rewrite wr_at by (done || lia). cbn [mbind option_bind]. set (t2 := drop _ t1).
  assert (Ht2 : zlen t2 = zlen t1 - zlen (m_key e)) by (unfold t2; zlens; unfold zlen in *; lia). clearbody t2.
  rewrite EncodeFixed64_ok by (zlens; lia). rewrite wr_at by (zlens; lia). cbn [mbind option_bind]. set (t3 := drop _ t2).
  assert (Ht3 : zlen t3 = zlen t2 - 8) by (unfold t3; zlens; rewrite length_le_enc; unfold zlen in *; lia). clearbody t3.
  rewrite <- (app_assoc (varint _)). fold (raw (m_key e) (tag_of (m_seq e) (m_type e))). fold (m_tag e).
  assert (Hlp : varint (zlen (m_key e) + 8) ++ raw (m_key e) (m_tag e) = lenpref (raw (m_key e) (m_tag e))).
  { unfold lenpref. by rewrite zlen_raw. }
  rewrite Hlp. replace (zlen (varint (zlen (m_key e) + 8)) + zlen (m_key e) + 8) with (zlen (lenpref (raw (m_key e) (m_tag e)))).
  2:{ rewrite <- Hlp, zlen_app, zlen_raw. lia. }
  rewrite EncodeVarint32_ok by (lia || (unfold in_u; lia)). cbn [mbind option_bind]. set (t4 := drop _ t3).
  assert (Ht4 : zlen t4 = zlen (m_val e)) by (unfold t4; zlens; unfold zlen in *; lia). clearbody t4.
  rewrite wr_at by (done || lia). cbn [mbind option_bind].
  rewrite (drop_ge t4) by (unfold zlen in *; lia). rewrite app_nil_r, <- app_assoc. fold (lenpref (m_val e)). fold (entry_of e).
  f_equal. f_equal. unfold n, entry_of. unfold lenpref at 3. zlens. lia.
Qed.

Lemma points_entry e : mentry_ok e -> points_to (entry_of e) (m_key e) (m_tag e).
Proof. intros (Hs & Hb & Hk & _). eexists. split_and!; [done|by apply tag_range|done]. Qed.

(** The order of the entries. *)
Definition mcmp (a b : mentry) : Z := rcmp uc (m_key a) (m_tag a) (m_key b) (m_tag b).

(** The table holds the entries [es], in order. *)
Definition mem_rep (m : MemTable) (es : list mentry) : Prop :=
  exists l, rep (table_ m) l /\ map e_key l = map entry_of es /\ Forall mentry_ok es.

Lemma klt_entry a b : mentry_ok a -> mentry_ok b -> klt (entry_of a) (entry_of b) <-> mcmp a b < 0.
Proof.
  intros Ha%points_entry Hb%points_entry. split.
  - intros (u & n & v & k & Ha' & Hb' & H). destruct (points_to_inj _ _ _ _ _ Ha Ha') as [<- <-], (points_to_inj _ _ _ _ _ Hb Hb') as [<- <-]. done.
  - intros H. by eexists _, _, _, _.
Qed.

Lemma mem_rep_sorted m es : mem_rep m es -> StronglySorted (fun a b => mcmp a b < 0) es.
Proof.
  intros (l & Hrep & Hmap & Hok). pose proof (rp_sorted _ _ Hrep) as Hs. clear Hrep. revert es Hmap Hok.
  induction Hs as [|e l Hs IH He]; intros [|x es] Hmap Hok; try done; [constructor|]. injection Hmap as Hx Hmap.
  apply list.Forall_cons in Hok as [Hxo Hok]. constructor; [by apply IH|]. apply list.Forall_forall. intros y Hy.
  rewrite list.Forall_forall in Hok. rewrite list.Forall_forall in He.
  apply (klt_entry x y Hxo (Hok y Hy)). rewrite <- Hx.
  assert (Hin : entry_of y ∈ map entry_of es) by (by apply list_elem_of_fmap_2). rewrite <- Hmap in Hin.
  apply list_elem_of_fmap in Hin as (e' & -> & He'). by apply He.
Qed.

Lemma new_MemTable_ok : exists m, new_MemTable uc = Some m /\ mem_rep m [].
Proof.
  unfold new_MemTable. destruct (new_SkipList_ok (AL := arena_alloc_laws) (SKL := Table_key_laws uc) new_Arena [] new_Arena_inv) as (t & -> & Hrep). eexists. split; [done|].
  exists []. by split_and!.
Qed.

Lemma rep_set_arena t l a used n p : rep t l -> aa_inv a ((p, n) :: used) ->
  (forall x nd, nodes t !! x = Some nd -> exists k, (x, k) ∈ used) -> rep (set_arena t a) l.
Proof.
  intros [] Ha Hx. split; try done. eexists. split; [exact Ha|]. intros x nd Hn. destruct (Hx x nd Hn) as (k & Hk). exists k. by right.
Qed.

(** Cutting the list and the entries at the same place. *)
Lemma map_cut {X Y W} (f : X -> W) (g : Y -> W) lo hi es : map f (lo ++ hi) = map g es ->
  exists es1 es2, es = es1 ++ es2 /\ map f lo = map g es1 /\ map f hi = map g es2.
Proof.
  rewrite map_app. intros H. exists (take (length lo) es), (drop (length lo) es). rewrite take_drop. split; [done|].
  rewrite <- firstn_map, <- skipn_map, <- H. rewrite take_app_length', drop_app_length'; by rewrite ?length_map.
Qed.

Lemma Add_ok m es e : mem_rep m es -> mentry_ok e -> Forall (fun x => mcmp x e <> 0) es ->
  exists m' es1 es2, Add uc m (m_seq e) (m_type e) (m_key e) (m_val e) = Some m' /\ refs_ m' = refs_ m /\
    es = es1 ++ es2 /\ mem_rep m' (es1 ++ e :: es2).
Proof.
  intros (l & Hrep & Hmap & Hok) He Hne. pose proof He as (Hs & Hb & Hk & Hv).
  pose proof (zlen_nonneg (m_key e)). pose proof (zlen_nonneg (m_val e)).
  unfold Add. rewrite !VarintLength_ok by (unfold in_u; lia). cbn [mbind option_bind].
  assert (Hlen : zlen (varint (zlen (m_key e) + 8)) + (zlen (m_key e) + 8) + zlen (varint (zlen (m_val e))) + zlen (m_val e) = zlen (entry_of e)).
  { unfold entry_of, lenpref. rewrite zlen_raw. unfold raw. zlens. lia. }
  rewrite Hlen. destruct (rp_alloc _ _ Hrep) as (used & Hu & Hx).
  pose proof (zlen_varint_pos (zlen (m_key e) + 8)). pose proof (zlen_varint_pos (zlen (m_val e))).
  destruct (Allocate_ok _ _ (zlen (entry_of e)) Hu ltac:(lia)) as (a & p & -> & Hu' & _). cbn [mbind option_bind].
  pose proof (entry_built e He) as Hbuild. cbv zeta in Hbuild.
  destruct (EncodeVarint32 _ 0 _) as [[b0 p0]|]; [|done]. cbn [mbind option_bind] in Hbuild |- *.
  destruct (wr b0 _ _) as [b1|]; [|done]. cbn [mbind option_bind] in Hbuild |- *.
  destruct (EncodeFixed64 b1 _ _) as [b2|]; [|done]. cbn [mbind option_bind] in Hbuild |- *.
  destruct (EncodeVarint32 b2 _ _) as [[b3 p3]|]; [|done]. cbn [mbind option_bind] in Hbuild |- *.
  destruct (wr b3 _ _) as [b4|]; [|done]. cbn [mbind option_bind] in Hbuild |- *. injection Hbuild as -> ->.
  replace (zlen (entry_of e) - zlen (m_val e) + zlen (m_val e)) with (zlen (entry_of e)) by lia. rewrite Z.eqb_refl. simpl negb. cbv iota.
  pose proof (rep_set_arena _ _ _ _ _ _ Hrep Hu' Hx) as Hrep'.
  assert (Hg : good (entry_of e)) by (eexists _, _; by apply points_entry).
  destruct (cut_exists _ _ _ Hrep' Hg) as (lo & hi & Hcut).
  assert (Habs : absent l (entry_of e)).
  { apply list.Forall_forall. intros x Hin. assert (Hin' : e_key x ∈ map entry_of es) by (rewrite <- Hmap; by apply list_elem_of_fmap_2).
    apply list_elem_of_fmap in Hin' as (y & -> & Hy). rewrite list.Forall_forall in Hok, Hne. rewrite !klt_entry by auto.
    specialize (Hne y Hy). pose proof (rcmp_opp uc (m_key y) (m_tag y) (m_key e) (m_tag e)) as Ho. unfold mcmp in *. lia. }
  destruct (Insert_ok _ _ _ lo hi Hrep' Hg Hcut Habs) as (t' & x & h & -> & Hrep''). cbn [mbind option_bind].
  destruct Hcut as (-> & _ & _). destruct (map_cut _ _ _ _ _ Hmap) as (es1 & es2 & -> & Hm1 & Hm2).
  eexists _, es1, es2. split_and!; [done|done|done|]. eexists. split_and!; [exact Hrep''| |].
  - rewrite !map_app. cbn [map e_key]. by rewrite Hm1, Hm2.
  - apply Forall_app in Hok as [Ho1 Ho2]. apply Forall_app. split; [done|by constructor].
Qed.

(** What [Get] returns for the entry it finds. *)
Definition result_of (e : mentry) : bool * option (list Z) * option Status :=
  match m_type e with kTypeValue => (true, Some (m_val e), None) | kTypeDeletion => (true, None, Some NotFound) end.
Definition seek_of (u : list Z) (s : Z) : mentry := mk_mentry s kTypeValue u [].

Lemma Get_entry e u lk : mentry_ok e -> lookup_user_key lk = Some u ->
  (q ← GetVarint32Ptr (entry_of e) 0 5;
   '(key_ptr, key_length) ← q;
   uk ← rd (entry_of e) key_ptr (u32 (key_length - 8));
   lk ← lookup_user_key lk;
   if Compare uc uk lk =? 0 then
     tag ← DecodeFixed64 (entry_of e) (key_ptr + key_length - 8);
     let ty := Z.land tag 255 in
     if ty =? value_code kTypeValue then
       '(_, v) ← GetLengthPrefixedSliceAt (entry_of e) (key_ptr + key_length);
       Some (true, Some v, None)
     else if ty =? value_code kTypeDeletion then Some (true, None, Some NotFound)
     else Some (false, None, None)
   else Some (false, None, None)) = Some (if Compare uc (m_key e) u =? 0 then result_of e else (false, None, None)).
Proof.
  intros (Hs & Hb & Hk & Hv) Hlk. pose proof (zlen_nonneg (m_key e)). set (h := varint (zlen (m_key e) + 8)).
  assert (He : entry_of e = h ++ m_key e ++ le_enc 8 (m_tag e) ++ lenpref (m_val e)).
  { unfold entry_of, lenpref at 1, h. rewrite zlen_raw. unfold raw. by rewrite <- !app_assoc. }
  rewrite He. pose proof (varint_at [] (zlen (m_key e) + 8) (m_key e ++ le_enc 8 (m_tag e) ++ lenpref (m_val e)) 0) as Hva.
  cbn [app] in Hva. fold h in Hva. change (0 + 5) with 5 in Hva. rewrite Hva by (done || (unfold in_u; lia)). clear Hva. cbn [mbind option_bind].
  rewrite Z.add_0_l. unfold u32. rewrite wrap_id by (unfold in_u; lia).
  rewrite (rd_seg h (m_key e)) by lia. cbn [mbind option_bind]. rewrite Hlk. cbn [mbind option_bind].
  destruct (Compare uc (m_key e) u =? 0); [|done].
  rewrite (app_assoc h). rewrite (DecodeFixed64_ok (h ++ m_key e)) by (apply bytes_le_enc || zlens; lia). cbn [mbind option_bind].
  rewrite le_dec_enc. change (8 * Z.of_nat 8) with 64. rewrite wrap_id by (by apply tag_range). cbv zeta. rewrite land_255.
  assert (Hty : m_tag e mod 256 = value_code (m_type e)).
  { unfold m_tag, tag_of. rewrite Z.add_comm, Z.mod_add by lia. apply Z.mod_small. pose proof (value_code_range (m_type e)). lia. }
  rewrite Hty. unfold result_of. destruct (m_type e); [done|]. simpl (_ =? _). cbv iota.
  rewrite (app_assoc (h ++ m_key e)). pose proof (lenpref_at ((h ++ m_key e) ++ le_enc 8 (m_tag e)) (m_val e) []) as Hlp.
  rewrite app_nil_r in Hlp. rewrite Hlp by (done || (zlens; lia)). done.
Qed.

Lemma Get_ok m es u s lk : mem_rep m es -> bytes u -> zlen u + 8 < 2 ^ 32 -> 0 <= s <= kMaxSequenceNumber -> new_LookupKey u s = Some lk ->
  exists es1 es2, es = es1 ++ es2 /\ Forall (fun e => mcmp e (seek_of u s) < 0) es1 /\ Forall (fun e => ~ mcmp e (seek_of u s) < 0) es2 /\
    Get uc m lk = Some (match es2 with
                        | [] => (false, None, None)
                        | e :: _ => if Compare uc (m_key e) u =? 0 then result_of e else (false, None, None)
                        end).
Proof.
  intros (l & Hrep & Hmap & Hok) Hb Hu Hs Hlk. destruct (LookupKey_ok u s Hu Hs) as (lk' & E & Hmk & _ & Huk).
  rewrite Hlk in E. injection E as <-. unfold Get. rewrite Hmk. cbn [mbind option_bind].
  set (mk := lenpref (raw u (tag_of s kTypeValue))).
  assert (Hpt : points_to mk u (tag_of s kTypeValue)) by (exists []; split_and!; [by rewrite app_nil_r|by apply tag_range|done]).
  assert (Hg : good mk) by (by eexists _, _).
  destruct (cut_exists _ _ mk Hrep Hg) as (lo & hi & Hcut). rewrite (Iter_Seek_ok _ _ _ _ _ Hrep Hg Hcut). cbn [mbind option_bind].
  destruct Hcut as (El & Hlo & Hhi). rewrite El in Hmap. destruct (map_cut _ _ _ _ _ Hmap) as (es1 & es2 & -> & Hm1 & Hm2).
  assert (Hklt : forall e, mentry_ok e -> klt (entry_of e) mk <-> mcmp e (seek_of u s) < 0).
  { intros e He%points_entry. split.
    - intros (u' & n' & v' & k' & Ha & Hb' & H). destruct (points_to_inj _ _ _ _ _ He Ha) as [<- <-], (points_to_inj _ _ _ _ _ Hpt Hb') as [<- <-]. done.
    - intros H. by eexists _, _, _, _. }
  apply Forall_app in Hok as [Hok1 Hok2].
  assert (Hconv : forall (Q : list Z -> Prop) (R : mentry -> Prop) ll ee, map e_key ll = map entry_of ee -> Forall mentry_ok ee ->
    (forall e, mentry_ok e -> Q (entry_of e) -> R e) -> Forall (fun x => Q (e_key x)) ll -> Forall R ee).
  { intros Q R ll ee Hm Ho HQ HF. rewrite list.Forall_forall in Ho. apply list.Forall_forall. intros e He. apply HQ; [by apply Ho|].
    assert (Hin : entry_of e ∈ map e_key ll) by (rewrite Hm; by apply list_elem_of_fmap_2).
    apply list_elem_of_fmap in Hin as (x & -> & Hx). rewrite list.Forall_forall in HF. by apply HF. }
  exists es1, es2. split_and!; [done|apply (Hconv (fun k => klt k mk) _ lo es1); [done|done|intros; by apply Hklt|done]|
    apply (Hconv (fun k => ~ klt k mk) _ hi es2); [done|done|intros e He Hn Hlt; by apply Hn, Hklt|done]|].
  destruct hi as [|x hi], es2 as [|e es2]; try done. injection Hm2 as Hx _. apply list.Forall_cons in Hok2 as [He _].
  destruct (rep_key _ _ x Hrep) as [-> ->]; [rewrite El; apply elem_of_app; right; by constructor|]. cbn [mbind option_bind]. rewrite Hx.
  by apply Get_entry.
Qed.

(** ** Operations with their sequence numbers *)

Definition rkey (r : brecord) : list Z := match r with RPut k _ | RDelete k => k end.
Definition op_entry (o : Z * brecord) : mentry :=
  match o.2 with RPut k v => mk_mentry o.1 kTypeValue k v | RDelete k => mk_mentry o.1 kTypeDeletion k [] end.
Fixpoint number (seq : Z) (rs : list brecord) : list (Z * brecord) :=
  match rs with [] => [] | r :: rs => (seq, r) :: number (seq + 1) rs end.

(** The last operation on a key equal to [u] that the snapshot [s] sees, and
    what [Get] says of it. *)
Definition visible (u : list Z) (s : Z) (o : Z * brecord) : bool := (o.1 <=? s) && (Compare uc (rkey o.2) u =? 0).
Definition spec_get (ops : list (Z * brecord)) (u : list Z) (s : Z) : option brecord :=
  snd <$> last (List.filter (visible u s) ops).
Definition get_result (r : option brecord) : bool * option (list Z) * option Status :=
  match r with
  | None => (false, None, None)
  | Some (RPut _ v) => (true, Some v, None)
  | Some (RDelete _) => (true, None, Some NotFound)
  end.

Definition op_ok (o : Z * brecord) : Prop := mentry_ok (op_entry o).
Definition increasing (ops : list (Z * brecord)) : Prop := StronglySorted (fun a b => a.1 < b.1) ops.
(** The table holds exactly these operations. *)
Definition holds (m : MemTable) (ops : list (Z * brecord)) : Prop :=
  exists es, mem_rep m es /\ es ≡ₚ map op_entry ops /\ increasing ops.

Lemma op_seq o : m_seq (op_entry o) = o.1.
Proof. by destruct o as [q [k v|k]]. Qed.
Lemma op_key o : m_key (op_entry o) = rkey o.2.
Proof. by destruct o as [q [k v|k]]. Qed.
Lemma op_result o : result_of (op_entry o) = get_result (Some o.2).
Proof. by destruct o as [q [k v|k]]. Qed.

Lemma rcmp_key_le u n v k : rcmp uc u n v k <= 0 -> Compare uc u v <= 0.
Proof. unfold rcmp. destruct (Z.eqb_spec (Compare uc u v) 0); lia. Qed.
Lemma mcmp_same_key a b : Compare uc (m_key a) (m_key b) = 0 -> (mcmp a b < 0 <-> m_tag b < m_tag a) /\ (mcmp a b = 0 <-> m_tag a = m_tag b).
Proof.
  intros E. unfold mcmp, rcmp. rewrite E. simpl (0 =? 0). cbv iota.
  destruct (Z.ltb_spec (m_tag b) (m_tag a)), (Z.ltb_spec (m_tag a) (m_tag b)); split; split; intros; lia.
Qed.
Lemma mcmp_seq_ne a b : m_seq a <> m_seq b -> mcmp a b <> 0.
Proof.
  intros Hne E. unfold mcmp, rcmp in E. pose proof (value_code_range (m_type a)). pose proof (value_code_range (m_type b)).
  unfold m_tag, tag_of in E. destruct (Z.eqb_spec (Compare uc (m_key a) (m_key b)) 0); [|done].
  repeat match type of E with context [?x <? ?y] => destruct (Z.ltb_spec x y) end; lia.
Qed.
Lemma seek_visible e u s : Compare uc (m_key e) u = 0 -> (~ mcmp e (seek_of u s) < 0 <-> m_seq e <= s).
Proof.
  intros E. destruct (mcmp_same_key e (seek_of u s) E) as [-> _]. unfold m_tag, tag_of. cbn.
  pose proof (value_code_range (m_type e)). lia.
Qed.

Lemma last_max (l : list (Z * brecord)) x : StronglySorted (fun a b => a.1 < b.1) l -> x ∈ l -> (forall y, y ∈ l -> y.1 <= x.1) -> last l = Some x.
Proof.
  intros Hs Hx Hmax. destruct l as [|y l _] using rev_ind; [by apply elem_of_nil in Hx|]. rewrite last_snoc.
  apply elem_of_app in Hx as [Hx|Hx%list_elem_of_singleton]; [|by subst]. exfalso.
  assert (Hy : y ∈ l ++ [y]) by (apply elem_of_app; right; by constructor).
  pose proof (StronglySorted_app_1_elem_of _ _ _ x y Hs Hx ltac:(by constructor)) as Hlt. specialize (Hmax y Hy). cbv beta in Hlt. lia.
Qed.
Lemma filter_sorted (f : Z * brecord -> bool) l : increasing l -> increasing (List.filter f l).
Proof.
  induction 1 as [|x l Hl IH Hx]; [constructor|]. simpl. destruct (f x); [|done]. constructor; [done|].
  rewrite list.Forall_forall in Hx |- *. intros y Hy. apply Hx. apply list_elem_of_In in Hy. apply filter_In in Hy as [Hy _].
  by apply list_elem_of_In.
Qed.
Lemma elem_filter (f : Z * brecord -> bool) l x : x ∈ List.filter f l <-> x ∈ l /\ f x = true.
Proof. rewrite !list_elem_of_In. apply filter_In. Qed.

(** Looking up in the sorted entries is looking for the last operation. *)
Lemma Get_holds m ops u s lk : holds m ops -> bytes u -> zlen u + 8 < 2 ^ 32 -> 0 <= s <= kMaxSequenceNumber -> new_LookupKey u s = Some lk ->
  Get uc m lk = Some (get_result (spec_get ops u s)).
Proof.
  intros (es & Hrep & Hperm & Hinc) Hb Hu Hs Hlk. destruct (Get_ok m es u s lk Hrep Hb Hu Hs Hlk) as (es1 & es2 & -> & H1 & H2 & ->). f_equal.
  pose proof (mem_rep_sorted _ _ Hrep) as Hsort. rewrite list.Forall_forall in H1.
  assert (Hvis : forall o, o ∈ ops -> visible u s o = true -> op_entry o ∈ es2).
  { intros o Ho Hv. apply andb_true_iff in Hv as [Hq%Z.leb_le Hc%Z.eqb_eq].
    assert (Hin : op_entry o ∈ es1 ++ es2) by (rewrite Hperm; by apply list_elem_of_fmap_2).
    apply elem_of_app in Hin as [Hin|Hin]; [|done]. specialize (H1 _ Hin). rewrite <- op_key in Hc.
    exfalso. by apply (proj2 (seek_visible (op_entry o) u s Hc)); [rewrite op_seq|]. }
  apply StronglySorted_app in Hsort as (_ & _ & Hsort).
  assert (Hnone : (forall o, o ∈ ops -> visible u s o = true -> False) -> spec_get ops u s = None).
  { intros Hno. unfold spec_get. destruct (List.filter _ ops) as [|o l] eqn:E; [done|]. exfalso.
    assert (Ho : o ∈ List.filter (visible u s) ops) by (rewrite E; by constructor). apply elem_filter in Ho as [Ho Hv]. by apply (Hno o). }
  destruct es2 as [|e es2]; [rewrite Hnone; [done|]; intros o Ho Hv; by apply Hvis in Hv; [apply elem_of_nil in Hv|]|].
  inversion Hsort as [|? ? _ Hafter]; subst. rewrite list.Forall_forall in Hafter. apply list.Forall_cons in H2 as [H2 _].
  destruct (Z.eqb_spec (Compare uc (m_key e) u) 0) as [Hc|Hc].
  - assert (Hin : e ∈ map op_entry ops) by (rewrite <- Hperm; apply elem_of_app; right; by constructor).
    apply list_elem_of_fmap in Hin as (o & -> & Ho). pose proof Hc as Hco. rewrite op_key in Hco.
    apply (seek_visible _ u s Hc) in H2. rewrite op_seq in H2.
    rewrite op_result. unfold spec_get. rewrite (last_max _ o); [done|by apply filter_sorted| |].
    + apply elem_filter. split; [done|]. unfold visible. rewrite Hco. by rewrite (proj2 (Z.leb_le _ _)).
    + intros y [Hy Hv]%elem_filter. pose proof (Hvis y Hy Hv) as [Heq|Hin]%elem_of_cons; [by rewrite <- !op_seq, Heq|].
      apply andb_true_iff in Hv as [_ Hcy%Z.eqb_eq]. rewrite <- op_key in Hcy. specialize (Hafter _ Hin).
      assert (Hkk : Compare uc (m_key (op_entry o)) (m_key (op_entry y)) = 0).
      { pose proof (cmp_eq_l uc _ _ (m_key (op_entry y)) Hc) as Hs1. apply (cmp_zero uc) in Hcy. rewrite Hcy in Hs1. lia. }
      apply (proj1 (mcmp_same_key _ _ Hkk)) in Hafter. unfold m_tag, tag_of in Hafter. rewrite !op_seq in Hafter.
      pose proof (value_code_range (m_type (op_entry o))). pose proof (value_code_range (m_type (op_entry y))). lia.
  - rewrite Hnone; [done|]. intros o Ho Hv. pose proof (Hvis o Ho Hv) as Hin. apply andb_true_iff in Hv as [_ Hco%Z.eqb_eq].
    rewrite <- op_key in Hco. apply elem_of_cons in Hin as [Heq|Hin]; [by rewrite Heq in Hco|]. specialize (Hafter _ Hin).
    assert (Hle : Compare uc u (m_key e) <= 0).
    { pose proof (rcmp_opp uc (m_key e) (m_tag e) u (tag_of s kTypeValue)) as Hop. apply (rcmp_key_le _ (tag_of s kTypeValue) _ (m_tag e)).
      unfold mcmp in H2. cbn in H2. change (m_tag (seek_of u s)) with (tag_of s kTypeValue) in H2. lia. }
    assert (Hlt : Compare uc u (m_key e) < 0).
    { pose proof (cmp_zero uc u (m_key e)). lia. }
    pose proof (rcmp_key_le _ _ _ _ (Z.lt_le_incl _ _ Hafter)) as Hee.
    pose proof (cmp_lt_le uc _ _ _ Hlt Hee). apply (cmp_zero uc) in Hco. lia.
Qed.

(** ** Batches *)

Definition dbrec_ok (r : brecord) : Prop := brecord_ok r /\ zlen (rkey r) + 8 < 2 ^ 32.
Definition db_batch_ok (b : Z * list brecord) : Prop :=
  batch_ok b /\ Forall dbrec_ok b.2 /\ b.1 + zlen b.2 - 1 <= kMaxSequenceNumber.

Lemma op_ok_rec q r : 0 <= q <= kMaxSequenceNumber -> dbrec_ok r -> op_ok (q, r).
Proof. intros Hq [Hr Hk]. destruct r as [k v|k]; destruct Hr; split_and!; cbn in *; try done; try lia; by destruct_and?. Qed.

Lemma increasing_snoc ops q r : increasing ops -> Forall (fun o => o.1 < q) ops -> increasing (ops ++ [(q, r)]).
Proof.
  intros Hi Hq. apply StronglySorted_app. split_and!; [|done|by repeat constructor]. rewrite list.Forall_forall in Hq.
  intros a b Ha ->%list_elem_of_singleton. by apply Hq.
Qed.

Lemma deliver_ok m ops q r : holds m ops -> 0 <= q <= kMaxSequenceNumber -> dbrec_ok r -> Forall (fun o => o.1 < q) ops ->
  exists m', deliver (MemTableInserter uc) (q, m) r = Some (q + 1, m') /\ refs_ m' = refs_ m /\ holds m' (ops ++ [(q, r)]).
Proof.
  intros (es & Hrep & Hperm & Hinc) Hq Hr Hlt. pose proof (op_ok_rec q r Hq Hr) as Hok.
  assert (Hne : Forall (fun x => mcmp x (op_entry (q, r)) <> 0) es).
  { apply list.Forall_forall. intros x Hx. rewrite Hperm in Hx. apply list_elem_of_fmap in Hx as (o & -> & Ho).
    apply mcmp_seq_ne. rewrite !op_seq. rewrite list.Forall_forall in Hlt. specialize (Hlt o Ho). cbn. lia. }
  destruct (Add_ok m es (op_entry (q, r)) Hrep Hok Hne) as (m' & es1 & es2 & E & Href & -> & Hrep').
  assert (Hu : u64 (q + 1) = q + 1) by (unfold u64; rewrite wrap_id; [done|]; unfold in_u; rewrite kMax_eq in Hq; pow2s; lia).
  exists m'. split_and!; [|done|].
  - destruct r as [k v|k]; cbn in E |- *; rewrite E; cbn [mbind option_bind]; by rewrite Hu.
  - exists (es1 ++ op_entry (q, r) :: es2). split_and!; [done| |by apply increasing_snoc].
    rewrite map_app. cbn [map]. by rewrite <- Hperm, <- Permutation_middle, <- Permutation_cons_append.
Qed.

Lemma number_app q rs ss : number q (rs ++ ss) = number q rs ++ number (q + zlen rs) ss.
Proof.
  revert q. induction rs as [|r rs IH]; intros q; cbn [app number]; [by rewrite zlen_nil, Z.add_0_r|].
  rewrite IH, zlen_cons. by replace (q + 1 + zlen rs) with (q + (1 + zlen rs)) by lia.
Qed.

Lemma delivers_ok rs : forall m ops q, holds m ops -> 0 <= q -> q + zlen rs - 1 <= kMaxSequenceNumber -> Forall dbrec_ok rs -> Forall (fun o => o.1 < q) ops ->
  exists m', delivers (MemTableInserter uc) (q, m) rs = Some (q + zlen rs, m') /\ refs_ m' = refs_ m /\ holds m' (ops ++ number q rs).
Proof.
  induction rs as [|r rs IH]; intros m ops q Hh Hq Hmax Hrs Hlt; cbn [delivers number].
  { exists m. rewrite zlen_nil, Z.add_0_r, app_nil_r. by split_and!. }
  apply list.Forall_cons in Hrs as [Hr Hrs]. rewrite zlen_cons in *. pose proof (zlen_nonneg rs).
  destruct (deliver_ok m ops q r Hh ltac:(lia) Hr Hlt) as (m1 & -> & Href1 & Hh1). cbn [mbind option_bind].
  destruct (IH m1 _ (q + 1) Hh1 ltac:(lia) ltac:(lia) Hrs) as (m2 & -> & Href2 & Hh2).
  - apply Forall_app. split; [|repeat constructor; cbn; lia]. eapply list.Forall_impl; [exact Hlt|]. cbn. lia.
  - exists m2. split_and!; [do 2 f_equal; lia|congruence|]. by rewrite <- app_assoc in Hh2.
Qed.

Lemma InsertInto_ok m ops b : holds m ops -> db_batch_ok b -> Forall (fun o => o.1 < b.1) ops ->
  exists m', InsertInto uc (batch_of b) m = Some (m', OK) /\ refs_ m' = refs_ m /\ holds m' (ops ++ number b.1 b.2).
Proof.
  intros Hh (Hb & Hrs & Hmax) Hlt. unfold InsertInto. rewrite Sequence_ok by done. cbn [mbind option_bind].
  rewrite Iterate_ok by done. destruct (delivers_ok b.2 m ops b.1 Hh) as (m' & -> & Href & Hh'); [apply Hb|done|done|done|].
  cbn [mbind option_bind]. by exists m'.
Qed.

(** All the operations of some batches. *)
Definition ops_of (bs : list (Z * list brecord)) : list (Z * brecord) := concat (map (fun b => number b.1 b.2) bs).
Fixpoint insert_batches (m : MemTable) (reps : list (list Z)) : option MemTable :=
  match reps with
  | [] => Some m
  | rep :: reps => '(m, s) ← InsertInto uc rep m; if ok s then insert_batches m reps else None
  end.

Lemma ops_of_app bs cs : ops_of (bs ++ cs) = ops_of bs ++ ops_of cs.
Proof. unfold ops_of. by rewrite map_app, concat_app. Qed.

(** A batch that comes after others starts above them, unless it is empty. *)
Lemma increasing_before ops b : increasing (ops ++ number b.1 b.2) -> b.2 <> [] -> Forall (fun o => o.1 < b.1) ops.
Proof.
  intros [H12 _]%StronglySorted_app Hne. apply list.Forall_forall. intros o Ho. destruct b as [q [|r rs]]; [done|].
  specialize (H12 o (q, r) Ho). apply H12. by constructor.
Qed.

Lemma InsertInto_after m ops b : holds m ops -> db_batch_ok b -> increasing (ops ++ number b.1 b.2) ->
  exists m', InsertInto uc (batch_of b) m = Some (m', OK) /\ refs_ m' = refs_ m /\ holds m' (ops ++ number b.1 b.2).
Proof.
  intros Hh Hb Hi. destruct (decide (b.2 = [])) as [He|Hne]; [|by apply InsertInto_ok, increasing_before].
  pose proof Hb as (Hbo & _ & _). unfold InsertInto. rewrite Sequence_ok by done. cbn [mbind option_bind]. rewrite Iterate_ok by done. rewrite He. cbn.
  exists m. by rewrite app_nil_r.
Qed.
Lemma insert_batches_ok bs : forall m ops, holds m ops -> Forall db_batch_ok bs -> increasing (ops ++ ops_of bs) ->
  exists m', insert_batches m (map batch_of bs) = Some m' /\ refs_ m' = refs_ m /\ holds m' (ops ++ ops_of bs).
Proof.
  induction bs as [|b bs IH]; intros m ops Hh Hbs Hi; cbn [map insert_batches].
  { exists m. unfold ops_of. simpl. by rewrite app_nil_r. }
  apply list.Forall_cons in Hbs as [Hb Hbs]. change (ops_of (b :: bs)) with (number b.1 b.2 ++ ops_of bs) in *. rewrite app_assoc in *.
  destruct (InsertInto_after m ops b Hh Hb (StronglySorted_app_1_l _ _ _ Hi)) as (m1 & -> & Href & Hh1). cbn [mbind option_bind ok]. cbv iota.
  destruct (IH m1 _ Hh1 Hbs Hi) as (m2 & -> & Href2 & Hh2). exists m2. split_and!; [done|congruence|done].
Qed.
Lemma new_holds : exists m, new_MemTable uc = Some m /\ holds m [].
Proof. destruct new_MemTable_ok as (m & -> & Hm). exists m. split; [done|]. exists []. split_and!; [done|done|constructor]. Qed.

(** What the iterator sees: internal keys and values. *)
Fixpoint mem_walk (n : nat) (m : MemTable) (node : Z) : option (list (list Z * list Z)) :=
  match n with
  | O => None
  | S n =>
      if MI_Valid node then
        k ← MI_key m node; v ← MI_value m node; node ← MI_Next m node; l ← mem_walk n m node; Some ((k, v) :: l)
      else Some []
  end.
Lemma mem_walk_ok m l : rep (table_ m) l -> forall n post pre ees, l = pre ++ post -> map e_key post = map entry_of ees -> Forall mentry_ok ees -> (length post < n)%nat ->
  mem_walk n m (match post with [] => 0 | e :: _ => e_addr e end) = Some (map (fun e => (raw (m_key e) (m_tag e), m_val e)) ees).
Proof.
  intros Hrep n. induction n as [|n IH]; intros post pre ees El Hm Hok Hn; [lia|]. cbn [mem_walk].
  destruct post as [|x post], ees as [|e ees]; try done. injection Hm as Hx Hm. apply list.Forall_cons in Hok as [He Hok].
  unfold MI_Valid, MI_key, MI_value, MI_Next. destruct (rep_key _ _ x Hrep) as [-> ->]; [rewrite El; apply elem_of_app; right; by constructor|].
  cbn [mbind option_bind]. rewrite Hx. destruct He as (Hs & Hb & Hk & Hv).
  pose proof (lenpref_at [] (raw (m_key e) (m_tag e)) (lenpref (m_val e)) 0) as E1. cbn [app] in E1. fold (entry_of e) in E1.
  rewrite E1 by (done || by rewrite zlen_raw). cbn [mbind option_bind].
  pose proof (lenpref_at (lenpref (raw (m_key e) (m_tag e))) (m_val e) []) as E2. rewrite app_nil_r in E2. fold (entry_of e) in E2.
  rewrite E2 by (done || (unfold lenpref; zlens; lia)). cbn [mbind option_bind].
  rewrite (Iter_Next_ok _ pre x post) by (by rewrite <- El). cbn [mbind option_bind].
  rewrite (IH post (pre ++ [x]) ees); [done|by rewrite <- app_assoc|done|done|simpl in Hn; lia].
Qed.
End MemFacts.

(** C7: a memtable keeps every version and shows each snapshot its own.  When
    batches with increasing sequence numbers are inserted into a new memtable,
    every insertion returns OK; looking up any key at any snapshot returns what
    the last operation on that key up to the snapshot did: its value, a
    deletion, or nothing; and the iterator gives all the entries in the order of
    internal keys. *)
Theorem memtable_snapshots {P : Platform} {M : Malloc} {ML : MallocLaws} (uc : Comparator) {CL : ComparatorLaws uc} bs :
  Forall db_batch_ok bs -> increasing (ops_of bs) ->
  exists m0 m, new_MemTable uc = Some m0 /\ insert_batches uc m0 (map batch_of bs) = Some m /\
    (forall u s, bytes u -> zlen u + 8 < 2 ^ 32 -> 0 <= s <= kMaxSequenceNumber ->
       exists lk, new_LookupKey u s = Some lk /\ Get uc m lk = Some (get_result (spec_get uc (ops_of bs) u s))) /\
    (exists es, es ≡ₚ map op_entry (ops_of bs) /\ StronglySorted (fun a b => mcmp uc a b < 0) es /\
       (x ← MI_SeekToFirst m; mem_walk (S (length (ops_of bs))) m x) = Some (map (fun e => (raw (m_key e) (m_tag e), m_val e)) es)).
Proof.
  intros Hbs Hi. destruct (new_holds uc) as (m0 & E0 & H0). destruct (insert_batches_ok uc bs m0 [] H0 Hbs Hi) as (m & E & _ & Hm).
  exists m0, m. split_and!; [done|done| |].
  - intros u s Hb Hu Hs. destruct (LookupKey_ok u s Hu Hs) as (lk & Hlk & _). exists lk. split; [done|]. by apply (Get_holds uc).
  - destruct Hm as (es & Hrep & Hperm & _). exists es. split_and!; [done|exact (mem_rep_sorted uc _ _ Hrep)|].
    destruct Hrep as (l & Hrep & Hmap & Hok). unfold MI_SeekToFirst. rewrite (Iter_SeekToFirst_ok _ _ Hrep). cbn [mbind option_bind].
    apply (mem_walk_ok uc m l Hrep _ l []); try done.
    assert (Hl : length l = length es) by (rewrite <- (length_map e_key l), Hmap; by rewrite length_map).
    rewrite Hl, Hperm, length_map. cbn. lia.
Qed.

Lemma memtable_snapshots_witness :
  exists m0 m, new_MemTable (P:=be_host) (M:=bump_malloc) BytewiseComparator = Some m0 /\
    insert_batches (P:=be_host) (M:=bump_malloc) BytewiseComparator m0 (map batch_of [(1, [RPut [7] [1; 2]; RPut [8] []]); (3, [RDelete [7]])]) = Some m /\
    (forall u s, bytes u -> zlen u + 8 < 2 ^ 32 -> 0 <= s <= kMaxSequenceNumber ->
       exists lk, new_LookupKey (P:=be_host) u s = Some lk /\ Get (P:=be_host) BytewiseComparator m lk =
         Some (get_result (spec_get BytewiseComparator (ops_of [(1, [RPut [7] [1; 2]; RPut [8] []]); (3, [RDelete [7]])]) u s))) /\
    (exists es, es ≡ₚ map op_entry (ops_of [(1, [RPut [7] [1; 2]; RPut [8] []]); (3, [RDelete [7]])]) /\
       StronglySorted (fun a b => mcmp BytewiseComparator a b < 0) es /\
       (x ← MI_SeekToFirst m; mem_walk 4 m x) = Some (map (fun e => (raw (m_key e) (m_tag e), m_val e)) es)).
Proof.
  apply (memtable_snapshots (P:=be_host) (ML:=bump_laws) BytewiseComparator [(1, [RPut [7] [1; 2]; RPut [8] []]); (3, [RDelete [7]])]).
  - repeat constructor; by vm_compute.
  - repeat constructor; simpl; lia.
Defined.
