(* ===== verification/LdbDb.v ===== *)
(** * leveldb: the write path and log recovery of db/db_impl.cc

    [Write] for the thread at the front of the queue of writers, with the
    grouping of the batches behind it; [Get]; and [RecoverLogFile].  The parts of
    the database that these call and that are not modelled are arguments: the
    result of [MakeRoomForWrite] (which here leaves the memtable and the log in
    place), the lookup in the current version's files, and the outcome of
    [WriteLevel0Table].  [None] is a failed [assert] or an access outside a
    buffer. *)

From Stdlib Require Import ZArith Lia Bool String.
From stdpp Require Import base option list numbers gmap sorting.
From S2P Require Import Prelude LdbCoding LdbFormat LdbBatch LdbCrc32c LdbLog LdbRandom LdbArena LdbSkiplist LdbMemtable.
Open Scope Z_scope.

(** ** The code *)

Class SyncFile (F : Type) := { wf_Sync : F -> F * Status }.
#[export] Instance mem_sync : SyncFile mem_file := {| wf_Sync := fun f => (f, OK) |}.

(** A waiting writer; its batch may be null. *)
Record DBWriter := mk_dbwriter { w_status : Status; w_batch : option (list Z); w_sync : bool; w_done : bool }.

Record DBOptions := mk_options { paranoid_checks : bool; reuse_logs : bool; write_buffer_size : Z }.

Section Code.
Context {P : Platform} {M : Malloc} {F : Type} {WF : WritableFile F} {SF : SequentialFile F} {YF : SyncFile F}.

Record DB := mk_db {
  log_ : Writer F;
  mem_ : MemTable;
  imm_ : option MemTable;
  last_sequence_ : Z;
  tmp_batch_ : list Z;
  bg_error_ : Status;
  writers_ : list DBWriter
}.

Definition ByteSize (batch : list Z) : Z := zlen batch.

(** The loop over the writers behind the first.  [result] is [None] while it is
    the first writer's batch and the contents of [tmp_batch_] after that; [last]
    is the index of [*last_writer], [i] that of the writer looked at. *)
Fixpoint BuildBatchGroup_loop (first_sync : bool) (first tmp : list Z) (ws : list DBWriter) (i last : nat)
    (size max_size : Z) (result : option (list Z)) : option (option (list Z) * nat) :=
  match ws with
  | [] => Some (result, last)
  | w :: ws =>
      if w_sync w && negb first_sync then Some (result, last)
      else
        match w_batch w with
        | None => BuildBatchGroup_loop first_sync first tmp ws (S i) i size max_size result
        | Some b =>
            let size := u64 (size + ByteSize b) in
            if max_size <? size then Some (result, last)
            else
              r ← (match result with
                   | Some r => Some r
                   | None => c ← Count tmp; if negb (c =? 0) then None else Append tmp first
                   end);
              r ← Append r b;
              BuildBatchGroup_loop first_sync first tmp ws (S i) i size max_size (Some r)
        end
  end.
Definition BuildBatchGroup (ws : list DBWriter) (tmp : list Z) : option (option (list Z) * nat) :=
  match ws with
  | [] => None
  | first :: ws =>
      b ← w_batch first;
      let size := ByteSize b in
      let max_size := if size <=? Z.shiftl 128 10 then u64 (size + Z.shiftl 128 10) else Z.shiftl 1 20 in
      BuildBatchGroup_loop (w_sync first) b tmp ws 1 0 size max_size None
  end.

Definition RecordBackgroundError (bg s : Status) : Status := if ok bg then s else bg.

(** The section of [Write] for a batch: the group is numbered, logged, synced
    when asked and inserted.  Returns the status and the index of the last
    writer; [addr] is the address of the bytes that are logged. *)
Definition Write_group (uc : Comparator) (db : DB) (addr : Z) : option (DB * Status * nat) :=
  '(result, last) ← BuildBatchGroup (writers_ db) (tmp_batch_ db);
  first ← head (writers_ db);
  fb ← w_batch first;
  updates ← SetSequence (match result with None => fb | Some r => r end) (u64 (last_sequence_ db + 1));
  c ← Count updates;
  let last_sequence := u64 (last_sequence_ db + c) in
  '(log, s) ← AddRecord (log_ db) addr updates;
  let '(log, s, sync_error) :=
    if ok s && w_sync first then
      let '(f, s) := wf_Sync (dest_ log) in
      (mk_writer f (block_offset_ log) (type_crc_ log), s, negb (ok s))
    else (log, s, false) in
  '(mem, s) ← (if ok s then InsertInto uc updates (mem_ db) else Some (mem_ db, s));
  let bg := if (sync_error : bool) then RecordBackgroundError (bg_error_ db) s else bg_error_ db in
  let tmp := match result with None => tmp_batch_ db | Some _ => Clear end in
  let writers := match result with
                 | None => mk_dbwriter (w_status first) (Some updates) (w_sync first) (w_done first) :: tail (writers_ db)
                 | Some _ => writers_ db
                 end in
  if negb (last_sequence_ db <=? last_sequence) then None
  else Some (mk_db log mem (imm_ db) last_sequence tmp bg writers, s, last).

(** [Write] by the first of the queue, once [MakeRoomForWrite] has returned
    [room]: the writers up to the last of the group leave the queue with the
    status of the group. *)
Definition Write (uc : Comparator) (db : DB) (room : Status) (addr : Z) : option (DB * list DBWriter) :=
  first ← head (writers_ db);
  '(db, status, last) ←
    (match w_batch first with
     | Some _ => if ok room then Write_group uc db addr else Some (db, room, O)
     | None => Some (db, room, O)
     end);
  let leave := map (fun w => mk_dbwriter status (w_batch w) (w_sync w) true) (take (S last) (writers_ db)) in
  Some (mk_db (log_ db) (mem_ db) (imm_ db) (last_sequence_ db) (tmp_batch_ db) (bg_error_ db) (drop (S last) (writers_ db)), leave).
Definition Arrive (db : DB) (batch : list Z) (sync : bool) : DB :=
  mk_db (log_ db) (mem_ db) (imm_ db) (last_sequence_ db) (tmp_batch_ db) (bg_error_ db)
    (writers_ db ++ [mk_dbwriter OK (Some batch) sync false]).

(** [Get]: the database after it, the status and what [*value] becomes.
    [current] is the lookup in the files of the current version, whose own
    reference count and seek statistics are not part of the model.  The tables
    are referenced while they are read; a table that [Unref] deletes here would
    leave a dangling pointer in the database. *)
Definition DB_Get (uc : Comparator) (db : DB) (snapshot : option Z) (key : list Z)
    (current : LookupKey -> Status * option (list Z)) : option (DB * (Status * option (list Z))) :=
  let s := match snapshot with Some s => s | None => last_sequence_ db end in
  let mem := Ref (mem_ db) in
  let imm := Ref <$> imm_ db in
  lkey ← new_LookupKey key s;
  '(found, v, st) ← LdbMemtable.Get uc mem lkey;
  r ← (if (found : bool) then Some (default OK st, v)
       else
         '(found, v, st) ← (match imm with Some imm => LdbMemtable.Get uc imm lkey | None => Some (false, None, None) end);
         if (found : bool) then Some (default OK st, v) else Some (current lkey));
  m ← Unref mem;
  mem ← m;
  imm ← (match imm with Some i => m ← Unref i; i ← m; Some (Some i) | None => Some None end);
  Some (mk_db (log_ db) mem imm (last_sequence_ db) (tmp_batch_ db) (bg_error_ db) (writers_ db), r).

(** *** RecoverLogFile *)
Record Recovery := mk_recovery {
  rs_status : Status;
  rs_mem : option MemTable;
  rs_max_sequence : Z;
  rs_compactions : Z;
  rs_save_manifest : bool;
  rs_tables : list MemTable
}.
Definition MaybeIgnoreError (o : DBOptions) (s : Status) : Status := if ok s || paranoid_checks o then s else OK.
(** [LogReporter::Corruption]. *)
Definition report (o : DBOptions) (status s : Status) : Status := if paranoid_checks o && ok status then s else status.

Definition set_status (st : Recovery) (s : Status) : Recovery :=
  mk_recovery s (rs_mem st) (rs_max_sequence st) (rs_compactions st) (rs_save_manifest st) (rs_tables st).

(** The memtable is written as a table when the status is OK, and is gone. *)
Definition flush (level0 : MemTable -> Status) (st : Recovery) (mem : MemTable) (compactions : Z) : option Recovery :=
  let s := level0 mem in
  let tables := if ok s then rs_tables st ++ [mem] else rs_tables st in
  _ ← Unref mem;
  Some (mk_recovery s None (rs_max_sequence st) compactions true tables).

(** One turn of the loop with the record read; [true] goes on. *)
Definition recover_record (uc : Comparator) (o : DBOptions) (level0 : MemTable -> Status) (st : Recovery) (record : list Z)
    : option (Recovery * bool) :=
  if zlen record <? 12 then
    Some (set_status st (report o (rs_status st) (Corruption "log record too small")), true)
  else
    batch ← SetContents [] record;
    mem ← (match rs_mem st with Some m => Some m | None => m ← new_MemTable uc; Some (Ref m) end);
    '(mem, s) ← InsertInto uc batch mem;
    let s := MaybeIgnoreError o s in
    let st := mk_recovery s (Some mem) (rs_max_sequence st) (rs_compactions st) (rs_save_manifest st) (rs_tables st) in
    if negb (ok s) then Some (st, false)
    else
      q ← Sequence batch;
      c ← Count batch;
      let last_seq := u64 (q + c - 1) in
      let mx := if rs_max_sequence st <? last_seq then last_seq else rs_max_sequence st in
      let st := mk_recovery s (Some mem) mx (rs_compactions st) (rs_save_manifest st) (rs_tables st) in
      if write_buffer_size o <? ApproximateMemoryUsage mem then
        st ← flush level0 st mem (rs_compactions st + 1);
        Some (st, ok (rs_status st))
      else Some (st, true).

(** The loop.  What the reader reports while it reads goes to the status. *)
Fixpoint recover_loop (calls fuel : nat) (uc : Comparator) (o : DBOptions) (level0 : MemTable -> Status) (r : Reader F) (st : Recovery) : option Recovery :=
  match calls with
  | O => None
  | S calls =>
      '(r', rec) ← ReadRecord fuel r;
      let st := set_status st (foldl (fun s x => report o s x.2) (rs_status st) (drop (length (reports_ r)) (reports_ r'))) in
      match rec with
      | None => Some st
      | Some record =>
          if ok (rs_status st) then
            '(st, go) ← recover_record uc o level0 st record;
            if (go : bool) then recover_loop calls fuel uc o level0 r' st else Some st
          else Some st
      end
  end.

(** What is left: the status and the other results, and when the log is reused
    its new writer, with [mem_] in [rs_mem].  [file] is what opening the log
    gives; [again] is the log opened for appending and its size; [backing] and
    [t_addr] are addresses of buffers. *)
Definition RecoverLogFile (uc : Comparator) (o : DBOptions) (level0 : MemTable -> Status) (fuel : nat)
    (file : F + Status) (last_log : bool) (again : option (F * Z)) (backing t_addr max_sequence : Z)
    : option (Recovery * option (Writer F)) :=
  match file with
  | inr s => Some (mk_recovery (MaybeIgnoreError o s) None max_sequence 0 false [], None)
  | inl f =>
      st ← recover_loop fuel fuel uc o level0 (new_Reader f true true backing 0) (mk_recovery OK None max_sequence 0 false []);
      let reuse := if ok (rs_status st) && reuse_logs o && last_log && (rs_compactions st =? 0) then again else None in
      match reuse with
      | Some (f, size) =>
          log ← new_Writer_at t_addr f size;
          mem ← (match rs_mem st with Some m => Some m | None => m ← new_MemTable uc; Some (Ref m) end);
          Some (mk_recovery (rs_status st) (Some mem) (rs_max_sequence st) (rs_compactions st) (rs_save_manifest st) (rs_tables st), Some log)
      | None =>
          match rs_mem st with
          | Some mem =>
              if ok (rs_status st) then st ← flush level0 st mem (rs_compactions st); Some (st, None)
              else _ ← Unref mem; Some (mk_recovery (rs_status st) None (rs_max_sequence st) (rs_compactions st) (rs_save_manifest st) (rs_tables st), None)
          | None => Some (st, None)
          end
      end
  end.
End Code.
Arguments DB : clear implicits.

(** ** Groups of batches *)

(** A write that waits: the sequence number its batch happens to hold, its
    records and whether it asks for a sync. *)
Definition pending := (Z * list brecord * bool)%type.
Definition p_batch (p : pending) : Z * list brecord := (p.1.1, p.1.2).
Definition p_recs (p : pending) : list brecord := p.1.2.
Definition waiting (p : pending) : DBWriter := mk_dbwriter OK (Some (batch_of (p_batch p))) p.2 false.
Definition all_recs (ps : list pending) : list brecord := concat (map p_recs ps).

Lemma all_recs_app ps qs : all_recs (ps ++ qs) = all_recs ps ++ all_recs qs.
Proof. unfold all_recs. by rewrite map_app, concat_app. Qed.

(** The waiting batches are well formed and small enough to be merged. *)
Definition queue_ok (ps : list pending) : Prop :=
  Forall (fun p => in_u 64 p.1.1) ps /\ Forall dbrec_ok (all_recs ps) /\ zlen (all_recs ps) < 2 ^ 31.

Lemma dbrec_rec rs : Forall dbrec_ok rs -> Forall brecord_ok rs.
Proof. intros H. eapply list.Forall_impl; [exact H|]. by intros r [? _]. Qed.
Lemma queue_ok_app ps qs : queue_ok (ps ++ qs) -> queue_ok ps /\ queue_ok qs.
Proof.
  intros (H1 & H2 & H3). rewrite all_recs_app in H2, H3. rewrite zlen_app in H3. apply Forall_app in H1 as [? ?], H2 as [? ?].
  pose proof (zlen_nonneg (all_recs ps)). pose proof (zlen_nonneg (all_recs qs)). split; split_and!; done || lia.
Qed.
Lemma queue_batch p : queue_ok [p] -> batch_ok (p_batch p).
Proof.
  intros (H1 & H2 & H3). unfold all_recs in H2, H3. cbn in H2, H3. rewrite app_nil_r in H2, H3.
  apply list.Forall_cons in H1 as [H1 _]. split_and!; [done|done|by apply dbrec_rec].
Qed.
Lemma group_ok ps q : queue_ok ps -> in_u 64 q -> batch_ok (q, all_recs ps).
Proof. intros (_ & H2 & H3) Hq. split_and!; [done|done|by apply dbrec_rec]. Qed.

Section Facts.
Context {P : Platform} {M : Malloc} {ML : MallocLaws} (uc : Comparator) {CL : ComparatorLaws uc}.

Lemma group_loop_ok first ws : forall done last size mx s result,
  queue_ok (first :: done ++ ws) -> last = length done ->
  result = (match done with [] => None | _ => Some (batch_of (0, all_recs (first :: done))) end) ->
  exists n res, BuildBatchGroup_loop s (batch_of (p_batch first)) Clear (map waiting ws) (S last) last size mx result = Some (res, (length done + n)%nat) /\
    (n <= length ws)%nat /\
    res = (match done ++ take n ws with [] => None | _ => Some (batch_of (0, all_recs (first :: done ++ take n ws))) end).
Proof.
  induction ws as [|w ws IH]; intros done last size mx s result Hq -> ->; cbn [map BuildBatchGroup_loop].
  { exists 0%nat, (match done with [] => None | _ => Some (batch_of (0, all_recs (first :: done))) end).
    rewrite Nat.add_0_r, take_nil, app_nil_r. done. }
  assert (Hstop : exists n res, Some (match done with [] => None | _ => Some (batch_of (0, all_recs (first :: done))) end, length done) =
    Some (res, (length done + n)%nat) /\ (n <= length (w :: ws))%nat /\
    res = (match done ++ take n (w :: ws) with [] => None | _ => Some (batch_of (0, all_recs (first :: done ++ take n (w :: ws)))) end)).
  { eexists 0%nat, _. rewrite Nat.add_0_r. cbn [take]. rewrite app_nil_r. split_and!; [done|lia|done]. }
  destruct (w_sync (waiting w) && negb s); [exact Hstop|]. cbn [waiting w_batch].
  set (size' := u64 _). clearbody size'. destruct (mx <? size'); [exact Hstop|]. clear Hstop.
  assert (Hq' : queue_ok (first :: (done ++ [w]) ++ ws)) by (by rewrite <- app_assoc).
  assert (Hpre : queue_ok (first :: done ++ [w])).
  { change (queue_ok ((first :: done ++ [w]) ++ ws)) in Hq'. by apply queue_ok_app in Hq' as [? _]. }
  assert (Hpre0 : queue_ok (first :: done)).
  { change (queue_ok ((first :: done) ++ [w])) in Hpre. by apply queue_ok_app in Hpre as [? _]. }
  assert (Hw : queue_ok [w]).
  { change (queue_ok ((first :: done) ++ [w])) in Hpre. by apply queue_ok_app in Hpre as [_ ?]. }
  assert (Hzero : in_u 64 0) by (unfold in_u; lia).
  assert (Hall : all_recs (first :: done ++ [w]) = all_recs (first :: done) ++ p_recs w).
  { change (first :: done ++ [w]) with ((first :: done) ++ [w]). rewrite all_recs_app. unfold all_recs at 2. cbn. by rewrite app_nil_r. }
  assert ((match match done with [] => None | _ => Some (batch_of (0, all_recs (first :: done))) end with
           | Some r => Some r
           | None => c ← Count Clear; if negb (c =? 0) then None else Append Clear (batch_of (p_batch first))
           end) = Some (batch_of (0, all_recs (first :: done)))) as ->.
  { destruct done as [|d done]; [|done]. rewrite Clear_ok, Count_ok by (split_and!; [done|done|constructor]). cbn [mbind option_bind].
    simpl negb. cbv iota. rewrite Append_ok; [|split_and!; [done|done|constructor]|by apply queue_batch|].
    - unfold all_recs. cbn. by rewrite app_nil_r.
    - destruct Hpre0 as (_ & _ & Hc). unfold all_recs in Hc. cbn in Hc |- *. rewrite app_nil_r in Hc. unfold p_recs in Hc. rewrite zlen_nil. lia. }
  cbn [mbind option_bind]. rewrite Append_ok; [|by apply group_ok|by apply queue_batch|].
  2:{ destruct Hpre as (_ & _ & Hc). rewrite Hall, zlen_app in Hc. exact Hc. }
  cbn [mbind option_bind fst snd]. change ((p_batch w).2) with (p_recs w).
  destruct (IH (done ++ [w]) (S (length done)) size' mx s (Some (batch_of (0, all_recs (first :: done) ++ p_recs w)))) as (n & res & E & Hn & Hres).
  - done.
  - rewrite length_app. simpl. lia.
  - rewrite Hall. by destruct done.
  - exists (S n), res. rewrite E. split_and!.
    + do 2 f_equal. rewrite length_app. simpl. lia.
    + simpl. lia.
    + cbn [take]. rewrite <- app_assoc in Hres. exact Hres.
Qed.

Lemma BuildBatchGroup_ok first ws : queue_ok (first :: ws) ->
  exists n res, BuildBatchGroup (map waiting (first :: ws)) Clear = Some (res, n) /\ (n <= length ws)%nat /\ (res = None -> take n ws = []) /\
    exists q, match res with None => batch_of (p_batch first) | Some r => r end = batch_of (q, all_recs (first :: take n ws)).
Proof.
  intros Hq. cbn [map BuildBatchGroup]. cbn [waiting w_batch mbind option_bind].
  match goal with |- context [BuildBatchGroup_loop _ _ _ _ _ _ _ ?m None] => generalize m end. intros mx.
  destruct (group_loop_ok first ws [] 0%nat (ByteSize (batch_of (p_batch first))) mx (w_sync (waiting first)) None) as (n & res & E & Hn & ->); [done|done|done|].
  exists n, (match take n ws with [] => None | _ => Some (batch_of (0, all_recs (first :: take n ws))) end). split_and!; [exact E|done|by destruct (take n ws)|].
  destruct (take n ws) eqn:Et; [exists (p_batch first).1|by exists 0]. unfold all_recs. cbn. by rewrite app_nil_r.
Qed.

(** ** Histories *)

(** A writer joins the queue; the first of the queue has its turn ([addr] is
    where the bytes that it logs are). *)
Inductive db_op := DArrive (p : pending) | DTurn (addr : Z).
Definition run_db_op (db : DB mem_file) (o : db_op) : option (DB mem_file * list DBWriter) :=
  match o with
  | DArrive p => Some (Arrive db (batch_of (p_batch p)) p.2, [])
  | DTurn addr => match writers_ db with [] => Some (db, []) | _ => Write uc db OK addr end
  end.
(** The writers that have returned, in order. *)
Fixpoint run_db (db : DB mem_file) (os : list db_op) : option (DB mem_file * list DBWriter) :=
  match os with
  | [] => Some (db, [])
  | o :: os => '(db, a) ← run_db_op db o; '(db, b) ← run_db db os; Some (db, a ++ b)
  end.
Definition new_db (t_addr last : Z) : option (DB mem_file) :=
  log ← new_Writer t_addr []; mem ← new_MemTable uc; Some (mk_db log (Ref mem) None last Clear OK []).

Definition arrivals (os : list db_op) : list pending := concat (map (fun o => match o with DArrive p => [p] | DTurn _ => [] end) os).
Definition turns_ok (os : list db_op) : Prop := Forall (fun o => match o with DTurn a => 0 <= a < 2 ^ 63 | _ => True end) os.
(** Batches within the limits of the format, and room for them all. *)
Definition room_for (last : Z) (ps : list pending) : Prop :=
  queue_ok ps /\ zlen (rencs (all_recs ps)) < 2 ^ 60 /\ 0 <= last /\ last + zlen (all_recs ps) <= kMaxSequenceNumber.
(** The write was acknowledged. *)
Definition acked (w : DBWriter) (p : pending) : Prop :=
  w_status w = OK /\ w_done w = true /\ w_sync w = p.2 /\ exists q, w_batch w = Some (batch_of (q, p_recs p)).

(** The batches that are logged for the groups [parts]. *)
Fixpoint numbered (q : Z) (parts : list (list pending)) : list (Z * list brecord) :=
  match parts with [] => [] | p :: ps => (q, all_recs p) :: numbered (q + zlen (all_recs p)) ps end.

Lemma ops_numbered parts : forall q, ops_of (numbered q parts) = number q (all_recs (concat parts)).
Proof.
  induction parts as [|p ps IH]; intros q; [done|]. cbn [numbered concat]. unfold ops_of. cbn [map concat fst snd]. fold (ops_of (numbered (q + zlen (all_recs p)) ps)).
  by rewrite IH, all_recs_app, number_app.
Qed.
Lemma numbered_snoc parts p : forall q, numbered q (parts ++ [p]) = numbered q parts ++ [(q + zlen (all_recs (concat parts)), all_recs p)].
Proof.
  induction parts as [|x parts IH]; intros q; cbn [numbered app concat]; [by rewrite Z.add_0_r|].
  rewrite IH, all_recs_app, zlen_app. by rewrite Z.add_assoc.
Qed.
Lemma number_elem rs : forall q o, o ∈ number q rs -> q <= o.1.
Proof. induction rs as [|r rs IH]; intros q o H; [by apply elem_of_nil in H|]. apply elem_of_cons in H as [->|H]; [cbn; lia|]. specialize (IH _ _ H). lia. Qed.
Lemma number_increasing rs : forall q, increasing (number q rs).
Proof.
  induction rs as [|r rs IH]; intros q; [constructor|]. cbn [number]. constructor; [apply IH|]. apply list.Forall_forall.
  intros o Ho. pose proof (number_elem _ _ _ Ho). cbn. lia.
Qed.

(** The database after the groups [parts] were written and while [queue] waits. *)
Record db_inv (t_addr last0 : Z) (db : DB mem_file) (recs : list (Z * list Z)) (parts : list (list pending)) (queue : list pending) : Prop := {
  di_log : write_all (mk_writer [] 0 type_crcs) recs = Some (log_ db);
  di_writer : exists f o, log_ db = mk_writer f o type_crcs /\ off_ok o;
  di_recs : map snd recs = map batch_of (numbered (last0 + 1) parts) /\ Forall rec_ok recs;
  di_mem : holds uc (mem_ db) (number (last0 + 1) (all_recs (concat parts)));
  di_refs : refs_ (mem_ db) = 1;
  di_rest : imm_ db = None /\ tmp_batch_ db = Clear /\ bg_error_ db = OK;
  di_last : last_sequence_ db = last0 + zlen (all_recs (concat parts));
  di_queue : writers_ db = map waiting queue
}.

Lemma write_all_snoc recs : forall (w : Writer mem_file) a r, write_all w (recs ++ [(a, r)]) =
  (w ← write_all w recs; '(w, s) ← AddRecord w a r; if ok s then Some w else None).
Proof.
  induction recs as [|[b x] recs IH]; intros w a r; cbn [app write_all]; [done|].
  destruct (AddRecord w b x) as [[w1 s]|]; [|done]. cbn [mbind option_bind]. destruct (ok s); [|done]. apply IH.
Qed.

Lemma batch_bytes b : Forall brecord_ok b.2 -> bytes (batch_of b).
Proof. intros H. unfold batch_of. apply Forall_app. split; [apply bytes_le_enc|]. apply Forall_app. split; [apply bytes_le_enc|by apply rencs_bytes]. Qed.
Lemma rencs_sub ps qs : zlen (rencs (all_recs ps)) <= zlen (rencs (all_recs (ps ++ qs))) /\ zlen (rencs (all_recs qs)) <= zlen (rencs (all_recs (ps ++ qs))).
Proof. rewrite all_recs_app, rencs_app, zlen_app. pose proof (zlen_nonneg (rencs (all_recs ps))). pose proof (zlen_nonneg (rencs (all_recs qs))). lia. Qed.

(** The group [g] is logged and inserted. *)
Lemma group_written t_addr last0 db recs parts queue g rest addr :
  db_inv t_addr last0 db recs parts queue -> queue = g ++ rest -> room_for last0 (concat parts ++ queue) -> 0 <= addr < 2 ^ 63 ->
  let b := (last_sequence_ db + 1, all_recs g) in
  exists log mem, AddRecord (log_ db) addr (batch_of b) = Some (log, OK) /\ InsertInto uc (batch_of b) (mem_ db) = Some (mem, OK) /\
    u64 (last_sequence_ db + 1) = last_sequence_ db + 1 /\ batch_ok b /\
    last_sequence_ db + zlen (all_recs g) = u64 (last_sequence_ db + zlen (all_recs g)) /\
    forall writers, writers = map waiting rest ->
      db_inv t_addr last0 (mk_db log mem None (last_sequence_ db + zlen (all_recs g)) Clear OK writers) (recs ++ [(addr, batch_of b)]) (parts ++ [g]) rest.
Proof.
  intros [] -> (Hq & Hb & Hl0 & Hl) Ha b. rewrite !all_recs_app, !zlen_app in Hl.
  pose proof (zlen_nonneg (all_recs g)). pose proof (zlen_nonneg (all_recs rest)). pose proof (zlen_nonneg (all_recs (concat parts))).
  pose proof kMax_eq as HK. rewrite HK in *.
  apply queue_ok_app in Hq as [_ Hq]. apply queue_ok_app in Hq as [Hqg _]. pose proof Hqg as (_ & Hdb & Hcnt).
  assert (Hbok : batch_ok b) by (apply group_ok; [done|unfold in_u; pow2s; lia]).
  assert (Hdbok : db_batch_ok b) by (split_and!; [done|done|cbn; rewrite HK; lia]).
  assert (Hsz : zlen (batch_of b) < 12 + 2 ^ 60).
  { rewrite zlen_batch. pose proof (proj2 (rencs_sub (concat parts) (g ++ rest))). pose proof (proj1 (rencs_sub g rest)). cbn [snd b] in *. lia. }
  destruct di_writer0 as (f & o & Ew & Ho). destruct di_recs0 as [Hrs Hrok].
  assert (Hrec : rec_ok (addr, batch_of b)).
  { split; [apply batch_bytes; apply Hbok|]. unfold addr_ok. cbn [fst snd]. pow2s. lia. }
  destruct (AddRecord_ok f o addr (batch_of b) Ho (proj1 Hrec) (proj2 Hrec)) as (fs & EA & Hfit & _).
  assert (Enum : number (last0 + 1) (all_recs (concat parts)) ++ number b.1 b.2 = number (last0 + 1) (all_recs (concat (parts ++ [g])))).
  { rewrite concat_app. cbn [concat]. rewrite app_nil_r, all_recs_app, number_app. cbn [b fst snd]. do 2 f_equal. lia. }
  destruct (InsertInto_after uc (mem_ db) _ b di_mem0 Hdbok) as (mem & EI & Hrefs & Hm); [rewrite Enum; apply number_increasing|].
  eexists _, mem. rewrite Ew. split_and!; [exact EA|exact EI|unfold u64; rewrite wrap_id; [done|unfold in_u; pow2s; lia]|
    exact Hbok|unfold u64; rewrite wrap_id; [done|unfold in_u; pow2s; lia]|].
  intros writers ->. split; cbn [log_ mem_ imm_ tmp_batch_ bg_error_ last_sequence_ writers_]; try done.
  - rewrite write_all_snoc, di_log0. cbn [mbind option_bind]. by rewrite Ew, EA.
  - eexists _, _. split; [done|]. by apply stream_end_range.
  - split; [|apply Forall_app; split; [done|by constructor]]. rewrite numbered_snoc, !map_app, Hrs. cbn [map snd]. do 3 f_equal. unfold b. f_equal. lia.
  - by rewrite <- Enum.
  - by rewrite Hrefs.
  - rewrite concat_app. cbn [concat]. rewrite app_nil_r, all_recs_app, zlen_app. lia.
Qed.

Lemma map_head {X Y} (f : X -> Y) x l : head (map f (x :: l)) = Some (f x).
Proof. done. Qed.

Lemma turn_ok t_addr last0 db recs parts first ws addr :
  db_inv t_addr last0 db recs parts (first :: ws) -> room_for last0 (concat parts ++ first :: ws) -> 0 <= addr < 2 ^ 63 ->
  exists db' acks n rec, Write uc db OK addr = Some (db', acks) /\
    db_inv t_addr last0 db' (recs ++ [rec]) (parts ++ [first :: take n ws]) (drop n ws) /\ Forall2 acked acks (first :: take n ws).
Proof.
  intros Hinv Hroom Ha. pose proof Hinv as [_ _ _ _ _ (Himm & Htmp & Hbg) _ Hw].
  assert (Hq : queue_ok (first :: ws)) by (destruct Hroom as (Hq & _); by apply queue_ok_app in Hq as [_ ?]).
  destruct (BuildBatchGroup_ok first ws Hq) as (n & res & EB & Hn & Hnone & q & Eq).
  destruct (group_written t_addr last0 db recs parts (first :: ws) (first :: take n ws) (drop n ws) addr Hinv) as (log & mem & EA & EI & Eu & Hbok & El & Hdb');
    [cbn [app]; by rewrite take_drop|done|done|].
  unfold Write. rewrite Hw. cbn [map head mbind option_bind]. cbn [waiting w_batch]. cbn [ok]. cbv iota.
  unfold Write_group. rewrite Hw, Htmp, EB. cbn [mbind option_bind]. cbn [map head mbind option_bind]. cbn [waiting w_batch mbind option_bind].
  rewrite Eq, SetSequence_ok. cbn [snd mbind option_bind]. rewrite Eu. rewrite Count_ok by done. cbn [snd mbind option_bind].
  rewrite <- El. rewrite EA. cbn [mbind option_bind ok andb].
  assert (Hlog : (if w_sync (waiting first) then let '(f, s) := wf_Sync (dest_ log) in (mk_writer f (block_offset_ log) (type_crc_ log), s, negb (ok s))
    else (log, OK, false)) = (log, OK, false)) by (destruct (w_sync (waiting first)), log; done).
  change (mk_dbwriter OK (Some (batch_of (p_batch first))) first.2 false) with (waiting first). rewrite Hlog. cbn [ok]. cbv iota. rewrite EI.
  cbn [mbind option_bind]. pose proof (zlen_nonneg (all_recs (first :: take n ws))). rewrite (proj2 (Z.leb_le _ _)) by lia. simpl negb. cbv iota.
  cbn [mbind option_bind log_ mem_ imm_ last_sequence_ tmp_batch_ bg_error_ writers_]. rewrite Himm, Hbg.
  assert (Etmp : match res with None => Clear | Some _ => Clear end = Clear) by (by destruct res). rewrite Etmp.
  set (W := match res with None => _ | Some _ => _ end).
  assert (HW : exists f', W = f' :: map waiting ws /\ w_sync f' = first.2 /\ exists q', w_batch f' = Some (batch_of (q', p_recs first))).
  { unfold W. destruct res as [r|]; [exists (waiting first); split_and!; [done|done|]; by exists first.1.1|].
    eexists. split_and!; [done|done|]. cbn [w_batch]. exists (last_sequence_ db + 1). do 2 f_equal. f_equal.
    rewrite (Hnone eq_refl). unfold all_recs. cbn. by rewrite app_nil_r. }
  destruct HW as (f' & -> & Hs & Hb). cbn [take drop].
  eexists _, _, n, _. split_and!; [done| |].
  - apply Hdb'. by rewrite skipn_map.
  - cbn [map]. constructor; [by split_and!|]. rewrite firstn_map, map_map. clear. induction (take n ws) as [|p ps IH]; constructor; [|done].
    split_and!; [done|done|done|]. by exists p.1.1.
Qed.

Lemma room_for_app last ps qs : room_for last (ps ++ qs) -> room_for last ps.
Proof.
  intros (Hq & Hb & H0 & Hl). pose proof (proj1 (rencs_sub ps qs)). rewrite all_recs_app, zlen_app in Hl.
  pose proof (zlen_nonneg (all_recs qs)). split_and!; [by apply queue_ok_app in Hq as [? _]|lia|done|lia].
Qed.

Lemma run_db_ok t_addr last0 os : forall db recs parts queue,
  db_inv t_addr last0 db recs parts queue -> room_for last0 (concat parts ++ queue ++ arrivals os) -> turns_ok os ->
  exists db' acks recs' parts' queue', run_db db os = Some (db', acks) /\ db_inv t_addr last0 db' (recs ++ recs') (parts ++ parts') queue' /\
    Forall2 acked acks (concat parts') /\ queue ++ arrivals os = concat parts' ++ queue'.
Proof.
  induction os as [|o os IH]; intros db recs parts queue Hinv Hroom Ht; cbn [run_db].
  { exists db, [], [], [], queue. unfold arrivals. rewrite !app_nil_r. split_and!; done || constructor. }
  apply list.Forall_cons in Ht as [Hto Ht]. destruct o as [p|addr]; cbn [run_db_op].
  - cbn [mbind option_bind]. change (arrivals (DArrive p :: os)) with ([p] ++ arrivals os) in *. rewrite (app_assoc queue) in *.
    destruct (IH (Arrive db (batch_of (p_batch p)) p.2) recs parts (queue ++ [p])) as (db' & acks & recs' & parts' & queue' & -> & Hinv' & Hack & Hq);
      [|done|done|].
    + destruct Hinv. split; try done. unfold Arrive. cbn [writers_]. by rewrite di_queue0, map_app.
    + cbn [mbind option_bind app]. by exists db', acks, recs', parts', queue'.
  - change (arrivals (DTurn addr :: os)) with (arrivals os) in *. pose proof (di_queue _ _ _ _ _ _ Hinv) as Hw.
    destruct queue as [|first ws].
    + rewrite Hw. cbn [map mbind option_bind]. destruct (IH db recs parts [] Hinv Hroom Ht) as (db' & acks & recs' & parts' & queue' & -> & H).
      cbn [mbind option_bind app]. by exists db', acks, recs', parts', queue'.
    + rewrite Hw. cbn [map]. rewrite app_assoc in Hroom. pose proof (room_for_app _ _ _ Hroom) as Hroom1.
      destruct (turn_ok t_addr last0 db recs parts first ws addr Hinv Hroom1 Hto) as (db1 & acks1 & n & rec & -> & Hinv1 & Hack1).
      cbn [mbind option_bind].
      destruct (IH db1 _ _ _ Hinv1) as (db2 & acks2 & recs2 & parts2 & queue2 & -> & Hinv2 & Hack2 & Hq2); [|done|].
      { rewrite concat_app. cbn [concat]. rewrite app_nil_r, <- app_assoc, (app_assoc (first :: take n ws)). cbn [app]. rewrite take_drop. by rewrite <- app_assoc in Hroom. }
      cbn [mbind option_bind]. exists db2, (acks1 ++ acks2), ([rec] ++ recs2), ([first :: take n ws] ++ parts2), queue2.
      rewrite !app_assoc. split_and!; [done|done| |].
      * exact (Forall2_app Hack1 Hack2).
      * change (concat ([first :: take n ws] ++ parts2)) with ((first :: take n ws) ++ concat parts2).
        rewrite <- app_assoc, <- Hq2, app_assoc. cbn [app]. by rewrite take_drop.
Qed.

(** A new memtable, referenced once. *)
Lemma new_ref_holds : exists m, new_MemTable uc = Some m /\ holds uc (Ref m) [] /\ refs_ (Ref m) = 1.
Proof.
  destruct (new_holds uc) as (m & E & Hh). exists m. split_and!; [done|done|].
  unfold new_MemTable in E. destruct (new_SkipList new_Arena); [|done]. by injection E as <-.
Qed.

Lemma new_db_ok t_addr last0 : addr_ok t_addr 0 -> exists db, new_db t_addr last0 = Some db /\ db_inv t_addr last0 db [] [] [].
Proof.
  intros Ht. unfold new_db, new_Writer. rewrite InitTypeCrc_ok by done. cbn [mbind option_bind].
  destruct new_ref_holds as (m & -> & Hm & Hr). cbn [mbind option_bind]. eexists. split; [done|]. split; cbn [log_ mem_ last_sequence_ writers_ concat]; try done.
  - eexists _, _. split; [done|by vm_compute].
  - by rewrite Z.add_0_r.
Qed.

(** ** Recovery *)

(** The batches [gs] are in the tables written and in the memtable, in order. *)
Definition recovered (st : Recovery) (ms : Z) (gs : list (Z * list brecord)) : Prop :=
  rs_status st = OK /\
  (ms <= rs_max_sequence st /\ Forall (fun o => o.1 <= rs_max_sequence st) (ops_of gs) /\
   forall b, ms <= b -> Forall (fun g => g.1 + zlen g.2 - 1 <= b) gs -> rs_max_sequence st <= b) /\
  exists pieces cur, gs = concat pieces ++ cur /\ Forall2 (fun m g => holds uc m (ops_of g)) (rs_tables st) pieces /\
    match rs_mem st with None => cur = [] | Some m => holds uc m (ops_of cur) /\ refs_ m = 1 end.

Lemma Unref_one m : refs_ m = 1 -> Unref m = Some None.
Proof. intros E. unfold Unref. by rewrite E. Qed.

Lemma flush_ok level0 st ms gs m n : (forall m, level0 m = OK) -> recovered st ms gs -> rs_mem st = Some m ->
  exists st', flush level0 st m n = Some st' /\ recovered st' ms gs /\ rs_mem st' = None.
Proof.
  intros Hl (Hs & Hmax & pieces & cur & -> & Ht & Hm) Em. rewrite Em in Hm. destruct Hm as [Hm Href]. unfold flush.
  rewrite Hl, Unref_one by done. cbn [mbind option_bind ok]. eexists. split; [done|]. split; [|done]. split; [done|]. split; [done|].
  exists (pieces ++ [cur]), []. rewrite concat_app. cbn [concat]. rewrite !app_nil_r. split_and!; [done| |done].
  apply Forall2_app; [done|]. by constructor.
Qed.

Lemma number_last rs : forall q o, o ∈ number q rs -> o.1 <= q + zlen rs - 1.
Proof.
  induction rs as [|r rs IH]; intros q o H; [by apply elem_of_nil in H|]. rewrite zlen_cons. pose proof (zlen_nonneg rs).
  apply elem_of_cons in H as [->|H]; [cbn; lia|]. specialize (IH _ _ H). lia.
Qed.
Lemma ops_of_snoc gs g : ops_of (gs ++ [g]) = ops_of gs ++ number g.1 g.2.
Proof. rewrite ops_of_app. unfold ops_of at 2. cbn. by rewrite app_nil_r. Qed.

Lemma recover_record_ok o level0 st ms gs g : (forall m, level0 m = OK) -> recovered st ms gs -> db_batch_ok g -> 1 <= g.1 ->
  increasing (ops_of (gs ++ [g])) ->
  exists st', recover_record uc o level0 st (batch_of g) = Some (st', true) /\ recovered st' ms (gs ++ [g]).
Proof.
  intros Hl (Hs & (Hmax1 & Hmax2 & Hmax3) & pieces & cur & Egs & Ht & Hm) Hg Hg1 Hinc. pose proof Hg as (Hbok & _ & Hlast).
  pose proof (zlen_nonneg (rencs g.2)). unfold recover_record. rewrite zlen_batch. rewrite (proj2 (Z.ltb_ge _ _)) by lia.
  unfold SetContents, kHeader. rewrite zlen_batch, (proj2 (Z.leb_le 12 _)) by lia. simpl negb. cbv iota. cbn [mbind option_bind].
  assert (exists m0, match rs_mem st with Some m => Some m | None => m ← new_MemTable uc; Some (Ref m) end = Some m0 /\
    holds uc m0 (ops_of cur) /\ refs_ m0 = 1) as (m0 & -> & Hm0 & Href0).
  { destruct (rs_mem st) as [m|]; [by exists m|]. destruct new_ref_holds as (m & -> & Hh & Hr).
    cbn [mbind option_bind]. eexists. split_and!; [done|by rewrite Hm|done]. }
  cbn [mbind option_bind].
  assert (Hinc' : increasing (ops_of cur ++ number g.1 g.2)).
  { rewrite <- ops_of_snoc. rewrite Egs, <- app_assoc, ops_of_app in Hinc. by apply StronglySorted_app_1_r in Hinc. }
  destruct (InsertInto_after uc m0 _ g Hm0 Hg Hinc') as (m1 & -> & Href1 & Hm1). cbn [mbind option_bind].
  unfold MaybeIgnoreError. cbn [ok orb negb rs_max_sequence rs_mem rs_compactions rs_save_manifest rs_tables]. cbv iota.
  rewrite Sequence_ok, Count_ok by done. cbn [mbind option_bind].
  pose proof (zlen_nonneg g.2). rewrite kMax_eq in Hlast. unfold u64. rewrite wrap_id by (unfold in_u; pow2s; lia).
  set (mx := if rs_max_sequence st <? g.1 + zlen g.2 - 1 then g.1 + zlen g.2 - 1 else rs_max_sequence st).
  set (st1 := mk_recovery OK (Some m1) mx _ _ _).
  assert (Hmx : rs_max_sequence st <= mx /\ g.1 + zlen g.2 - 1 <= mx /\ (mx = rs_max_sequence st \/ mx = g.1 + zlen g.2 - 1)).
  { unfold mx. destruct (Z.ltb_spec (rs_max_sequence st) (g.1 + zlen g.2 - 1)); lia. }
  assert (H1 : recovered st1 ms (gs ++ [g])).
  { split; [done|]. split; cbn [st1 rs_max_sequence rs_mem rs_tables].
    - split_and!; [lia| |].
      + rewrite ops_of_snoc. apply Forall_app. split; [eapply list.Forall_impl; [exact Hmax2|]; cbn; lia|].
        apply list.Forall_forall. intros x Hx%number_last. lia.
      + intros b Hb Hall. apply Forall_app in Hall as [Ha1 Ha2]. apply list.Forall_cons in Ha2 as [Ha2 _].
        specialize (Hmax3 b Hb Ha1). lia.
    - exists pieces, (cur ++ [g]). split_and!; [by rewrite Egs, <- app_assoc|done|by rewrite ops_of_snoc|congruence]. }
  destruct (write_buffer_size o <? _); [|by exists st1].
  destruct (flush_ok level0 st1 ms _ m1 (rs_compactions st + 1) Hl H1 eq_refl) as (st2 & -> & H2 & _).
  cbn [mbind option_bind]. exists st2. by rewrite (proj1 H2).
Qed.

(** Without [paranoid_checks] a report leaves the status alone. *)
Lemma reports_ignored o s (l : list (Z * Status)) : l = [] \/ paranoid_checks o = false -> foldl (fun s x => report o s x.2) s l = s.
Proof. intros [-> | Hp]; [done|]. induction l as [|x l IH]; [done|]. cbn [foldl]. unfold report at 2. rewrite Hp. exact IH. Qed.

Lemma recover_loop_ok o level0 fuel : (forall m, level0 m = OK) -> forall (r : Reader mem_file) l r1, reads fuel r l r1 -> reports_ r1 = [] \/ paranoid_checks o = false ->
  forall calls st ms gs rest, l = map batch_of rest -> reports_ r = [] -> recovered st ms gs -> Forall db_batch_ok rest -> Forall (fun g => 1 <= g.1) rest ->
  increasing (ops_of (gs ++ rest)) -> (length l < calls)%nat ->
  exists st', recover_loop calls fuel uc o level0 r st = Some st' /\ recovered st' ms (gs ++ rest).
Proof.
  intros Hl r l r1 Hreads Hend. induction Hreads as [r r' E|r r1 x l r2 E Hq Hreads IH]; intros calls st ms gs rest Hrest Hr Hst Hok H1 Hinc Hc;
    (destruct calls as [|calls]; [simpl in Hc; lia|]); cbn [recover_loop]; rewrite E; cbn [mbind option_bind]; rewrite Hr; cbn [length drop].
  - rewrite reports_ignored by done. destruct rest; [|done]. rewrite app_nil_r. exists (set_status st (rs_status st)). split; [done|]. by destruct st.
  - rewrite Hq. cbn [drop foldl]. destruct rest as [|g rest]; [done|]. injection Hrest as -> ->. apply list.Forall_cons in Hok as [Hg Hok], H1 as [Hg1 H1].
    assert (Hst' : recovered (set_status st (rs_status st)) ms gs) by (by destruct st).
    rewrite (proj1 Hst'). cbn [ok]. cbv iota.
    assert (Hinc1 : increasing (ops_of (gs ++ [g]))).
    { change (g :: rest) with ([g] ++ rest) in Hinc. rewrite app_assoc, ops_of_app in Hinc. by apply StronglySorted_app_1_l in Hinc. }
    destruct (recover_record_ok o level0 _ ms gs g Hl Hst' Hg Hg1 Hinc1) as (st1 & -> & H2). cbn [mbind option_bind]. cbv iota.
    destruct (IH Hend calls st1 ms (gs ++ [g]) rest eq_refl Hq H2 Hok H1) as (st' & -> & H3); [by rewrite <- app_assoc|simpl in Hc; lia|].
    exists st'. by rewrite <- app_assoc in H3.
Qed.

(** A memtable answers every lookup as these operations say. *)
Definition answers (m : MemTable) (ops : list (Z * brecord)) : Prop :=
  forall u s, bytes u -> zlen u + 8 < 2 ^ 32 -> 0 <= s <= kMaxSequenceNumber ->
    exists lk, new_LookupKey u s = Some lk /\ LdbMemtable.Get uc m lk = Some (get_result (spec_get uc ops u s)).
Lemma holds_answers m ops : holds uc m ops -> answers m ops.
Proof. intros Hm u s Hb Hu Hs. destruct (LookupKey_ok u s Hu Hs) as (lk & Hlk & _). exists lk. split; [done|]. by apply (Get_holds uc). Qed.

(** A database answers every [Get] as these operations say, and asks the files
    when they say nothing; without a snapshot, all of them count. *)
Definition db_answers (db : DB mem_file) (ops : list (Z * brecord)) : Prop :=
  Forall (fun o => o.1 <= last_sequence_ db) ops /\
  forall u snapshot current, let s := default (last_sequence_ db) snapshot in
    bytes u -> zlen u + 8 < 2 ^ 32 -> 0 <= s <= kMaxSequenceNumber ->
    exists lk, new_LookupKey u s = Some lk /\
      DB_Get uc db snapshot u current = Some (db,
        match spec_get uc ops u s with Some (RPut _ v) => (OK, Some v) | Some (RDelete _) => (NotFound, None) | None => current lk end).
Lemma Unref_Ref m : 0 < refs_ m -> Unref (Ref m) = Some (Some m).
Proof.
  intros H. destruct m as [r t]. cbn in H. unfold Unref, Ref. cbn [refs_ table_]. replace (r + 1 - 1) with r by lia.
  by rewrite (proj2 (Z.leb_le 0 r)), (proj2 (Z.leb_gt r 0)) by lia.
Qed.
Lemma inv_answers t_addr last0 db recs parts queue : db_inv t_addr last0 db recs parts queue ->
  db_answers db (number (last0 + 1) (all_recs (concat parts))).
Proof.
  intros Hinv. destruct Hinv. split.
  { apply list.Forall_forall. intros o Ho. pose proof (number_last _ _ _ Ho). lia. }
  intros u snap current s Hb Hu Hs. destruct (holds_answers _ _ di_mem0 u s Hb Hu Hs) as (lk & Hlk & HG). exists lk. split; [done|].
  unfold DB_Get. destruct di_rest0 as (Himm & _). rewrite Himm.
  change (match snap with Some s => s | None => last_sequence_ db end) with s. rewrite Hlk. cbn [mbind option_bind fmap option_fmap option_map].
  change (LdbMemtable.Get uc (Ref (mem_ db)) lk) with (LdbMemtable.Get uc (mem_ db) lk). rewrite HG.
  rewrite Unref_Ref by lia. destruct db. cbn in Himm. subst.
  by destruct (spec_get _ _ _ _) as [[]|].
Qed.

(** The memtables that recovery leaves: those written as tables and [mem_]. *)
Definition recovered_tables (st : Recovery) : list MemTable := rs_tables st ++ (match rs_mem st with Some m => [m] | None => [] end).

Lemma RecoverLogFile_ok o level0 fuel f last_log again backing t_addr ms rest r1 :
  addr_ok t_addr 0 -> (forall m, level0 m = OK) -> reads fuel (new_Reader (f : mem_file) true true backing 0) (map batch_of rest) r1 ->
  reports_ r1 = [] \/ paranoid_checks o = false -> Forall db_batch_ok rest -> Forall (fun g => 1 <= g.1) rest -> increasing (ops_of rest) -> (length rest < fuel)%nat ->
  exists st log, RecoverLogFile uc o level0 fuel (inl f) last_log again backing t_addr ms = Some (st, log) /\ rs_status st = OK /\
    Forall (fun o => o.1 <= rs_max_sequence st) (ops_of rest) /\
    (forall b, ms <= b -> Forall (fun g => g.1 + zlen g.2 - 1 <= b) rest -> rs_max_sequence st <= b) /\
    exists pieces, concat pieces = ops_of rest /\ Forall2 answers (recovered_tables st) pieces.
Proof.
  intros Ht Hl Hreads Hend Hok H1 Hinc Hf. unfold RecoverLogFile.
  destruct (recover_loop_ok o level0 fuel Hl _ _ _ Hreads Hend fuel (mk_recovery OK None ms 0 false []) ms [] rest) as (st & -> & Hst); try done.
  { split; [done|]. cbn. split_and!; [lia|constructor|intros; lia|]. exists [], []. split_and!; [done|constructor|done]. }
  { by rewrite length_map. }
  cbn [app] in Hst. cbn [mbind option_bind].
  assert (Hfin : forall st', recovered st' ms rest ->
    rs_status st' = OK /\ Forall (fun o => o.1 <= rs_max_sequence st') (ops_of rest) /\
    (forall b, ms <= b -> Forall (fun g => g.1 + zlen g.2 - 1 <= b) rest -> rs_max_sequence st' <= b) /\
    exists pieces, concat pieces = ops_of rest /\ Forall2 answers (recovered_tables st') pieces).
  { intros st' (Hs & (_ & Hm2 & Hm3) & pieces & cur & -> & HT & HM). split_and!; [done|done|done|].
    assert (HTa : Forall2 answers (rs_tables st') (map ops_of pieces)).
    { clear -HT CL ML. induction HT as [|m g ms' gs' Hh _ IH]; constructor; [by apply holds_answers|done]. }
    assert (Hc : concat (map ops_of pieces) = ops_of (concat pieces)).
    { clear. induction pieces as [|p ps IH]; [done|]. cbn [map concat]. by rewrite ops_of_app, IH. }
    unfold recovered_tables. destruct (rs_mem st') as [m|].
    - exists (map ops_of pieces ++ [ops_of cur]). rewrite concat_app, ops_of_app, Hc. cbn [concat]. rewrite app_nil_r. split; [done|].
      apply Forall2_app; [done|]. constructor; [apply holds_answers, HM|constructor].
    - exists (map ops_of pieces). rewrite HM, !app_nil_r. done. }
  rewrite (proj1 Hst). cbn [ok andb].
  destruct (if reuse_logs o && last_log && (rs_compactions st =? 0) then again else None) as [[f' size]|].
  - unfold new_Writer_at. rewrite InitTypeCrc_ok by done. cbn [mbind option_bind].
    destruct (rs_mem st) as [m|] eqn:Em; cbn [mbind option_bind].
    + eexists _, _. split; [done|]. apply (Hfin (mk_recovery OK (Some m) (rs_max_sequence st) (rs_compactions st) (rs_save_manifest st) (rs_tables st))).
      destruct Hst as (Hs & Hm & HT). rewrite Em in HT. done.
    + destruct (new_holds uc) as (m & E & Hm). pose proof E as E'. unfold new_MemTable in E'. destruct (new_SkipList new_Arena); [|done].
      injection E' as <-. rewrite E. cbn [mbind option_bind]. eexists _, _. split; [done|].
      apply (Hfin (mk_recovery OK (Some (Ref _)) (rs_max_sequence st) (rs_compactions st) (rs_save_manifest st) (rs_tables st))).
      destruct Hst as (Hs & Hmx & pieces & cur & E1 & HT & HM). rewrite Em in HM. split; [done|]. split; [done|].
      exists pieces, cur. cbn [rs_tables rs_mem]. split_and!; [done|done|by rewrite HM|done].
  - destruct (rs_mem st) as [m|] eqn:Em; [|by eexists _, _; split; [done|apply Hfin]].
    destruct (flush_ok level0 st ms rest m (rs_compactions st) Hl Hst Em) as (st2 & -> & H2 & _). cbn [mbind option_bind].
    eexists _, _. split; [done|by apply Hfin].
Qed.

Lemma numbered_take parts : forall k q, take k (numbered q parts) = numbered q (take k parts).
Proof. induction parts as [|p ps IH]; intros [|k] q; cbn; try done. by rewrite IH. Qed.
Lemma numbered_ok last0 parts : forall q, last0 < q -> q + zlen (all_recs (concat parts)) - 1 <= kMaxSequenceNumber -> 0 <= last0 -> queue_ok (concat parts) ->
  Forall db_batch_ok (numbered q parts) /\ Forall (fun g => 1 <= g.1) (numbered q parts) /\
  Forall (fun g => g.1 + zlen g.2 - 1 <= q + zlen (all_recs (concat parts)) - 1) (numbered q parts).
Proof.
  induction parts as [|p ps IH]; intros q Hq Hmax H0 Hok; [repeat constructor|]. cbn [numbered concat] in *.
  rewrite all_recs_app, zlen_app in *. pose proof (zlen_nonneg (all_recs p)). pose proof (zlen_nonneg (all_recs (concat ps))).
  apply queue_ok_app in Hok as [Hp Hps]. destruct (IH (q + zlen (all_recs p)) ltac:(lia) ltac:(lia) H0 Hps) as (I1 & I2 & I3).
  rewrite kMax_eq in *. split_and!; constructor; try done; cbn [fst snd]; [|lia|lia|].
  - split_and!; [|apply Hp|cbn; rewrite kMax_eq; lia]. apply group_ok; [done|unfold in_u; pow2s; lia].
  - eapply list.Forall_impl; [exact I3|]. cbn. lia.
Qed.
End Facts.

(** C1: an acknowledged write survives a crash, and no write survives in part.
    Writers queue up and the first of the queue writes for a group of them,
    in any interleaving of arrivals and turns; every writer that returns has
    status OK, in the order of arrival, and [Get] then answers for the batches
    of those that have returned, at every snapshot.  When the log is cut off at any byte
    and recovered, with any options, the memtables that come out hold exactly the
    batches of the first [j] writers, each of them whole and with the sequence
    numbers it had; [j] counts at least all the writers that had returned when
    the log was no longer than what is left of it; and the sequence number to go
    on from is not below any that is in use. *)
Theorem db_durable {P : Platform} {M : Malloc} {ML : MallocLaws} (uc : Comparator) {CL : ComparatorLaws uc}
    (t_addr backing last0 : Z) (os1 os2 : list db_op) :
  addr_ok t_addr 0 -> addr_ok backing LdbLog.kBlockSize -> room_for last0 (arrivals (os1 ++ os2)) -> turns_ok (os1 ++ os2) ->
  exists db0 db1 acks1 db2 acks2 returned rest,
    new_db uc t_addr last0 = Some db0 /\ run_db uc db0 os1 = Some (db1, acks1) /\ run_db uc db1 os2 = Some (db2, acks2) /\
    arrivals (os1 ++ os2) = returned ++ rest /\ Forall2 acked (acks1 ++ acks2) returned /\
    db_answers uc db2 (number (last0 + 1) (all_recs returned)) /\
    forall o level0 n fuel last_log again ms, (forall m, level0 m = OK) ->
      (length (dest_ (log_ db1)) <= n)%nat -> (length (dest_ (log_ db2)) + 2 <= fuel)%nat ->
      exists j st log, (length acks1 <= j)%nat /\
        RecoverLogFile uc o level0 fuel (inl (take n (dest_ (log_ db2)))) last_log again backing t_addr ms = Some (st, log) /\
        rs_status st = OK /\
        Forall (fun x => x.1 <= rs_max_sequence st) (number (last0 + 1) (all_recs (take j returned))) /\
        rs_max_sequence st <= Z.max ms (last0 + zlen (all_recs (take j returned))) /\
        exists pieces, concat pieces = number (last0 + 1) (all_recs (take j returned)) /\ Forall2 (answers uc) (recovered_tables st) pieces.
Proof.
  intros Ht Hback Hroom Hturns. apply Forall_app in Hturns as [Ht1 Ht2].
  assert (Harr : arrivals (os1 ++ os2) = arrivals os1 ++ arrivals os2) by (unfold arrivals; by rewrite map_app, concat_app).
  rewrite Harr in *. destruct (new_db_ok uc t_addr last0 Ht) as (db0 & E0 & Hinv0).
  destruct (run_db_ok uc t_addr last0 os1 db0 [] [] [] Hinv0) as (db1 & acks1 & recs1 & parts1 & q1 & E1 & Hinv1 & Ha1 & Hq1);
    [by apply room_for_app in Hroom|done|]. cbn [app] in Hinv1, Hq1.
  assert (Hall : arrivals os1 ++ arrivals os2 = concat parts1 ++ q1 ++ arrivals os2) by (by rewrite Hq1, <- app_assoc).
  destruct (run_db_ok uc t_addr last0 os2 db1 recs1 parts1 q1 Hinv1) as (db2 & acks2 & recs2 & parts2 & q2 & E2 & Hinv2 & Ha2 & Hq2);
    [by rewrite <- Hall|done|]. rewrite Hq2, app_assoc, <- concat_app in Hall.
  exists db0, db1, acks1, db2, acks2, (concat (parts1 ++ parts2)), q2. split_and!; try done.
  { rewrite concat_app. exact (Forall2_app Ha1 Ha2). }
  { exact (inv_answers uc _ _ _ _ _ _ Hinv2). }
  intros o level0 n fuel last_log again ms Hl Hn Hfuel. destruct (di_recs _ _ _ _ _ _ _ Hinv2) as [Hr2 Hrok].
  destruct (log_reads t_addr (recs1 ++ recs2) true true backing Ht Hrok Hback) as (c & Hc & Hlc & Hreads).
  assert (Hlog : forall recs (db : DB mem_file), write_all (mk_writer [] 0 type_crcs) recs = Some (log_ db) -> log_of t_addr recs = Some (dest_ (log_ db))).
  { intros recs db E. unfold log_of, new_Writer. rewrite InitTypeCrc_ok by done. cbn [mbind option_bind]. by rewrite E. }
  rewrite (Hlog _ db2 (di_log _ _ _ _ _ _ _ Hinv2)) in Hc. injection Hc as <-.
  destruct (Hreads n fuel Hfuel) as (k & r & Hrd & Hq & Hk). rewrite <- firstn_map, Hr2, firstn_map, numbered_take in Hrd.
  set (ps := take k (parts1 ++ parts2)) in *. set (j := length (concat ps)).
  assert (Hj : take j (concat (parts1 ++ parts2)) = concat ps).
  { rewrite <- (take_drop k (parts1 ++ parts2)), concat_app. by apply take_app_length'. }
  assert (Hroom2 : room_for last0 (concat ps)).
  { rewrite Hall in Hroom. apply room_for_app in Hroom. rewrite <- (take_drop j (concat _)) in Hroom. apply room_for_app in Hroom. by rewrite Hj in Hroom. }
  destruct Hroom2 as (Hqok & _ & H0 & Hmax).
  destruct (numbered_ok last0 ps (last0 + 1) ltac:(lia) ltac:(lia) H0 Hqok) as (I1 & I2 & I3).
  destruct (RecoverLogFile_ok uc o level0 fuel _ last_log again backing t_addr ms _ _ Ht Hl Hrd (or_introl Hq) I1 I2) as (st & log & ER & Hs & Hm1 & Hm2 & pieces & Hp & Hpa).
  { rewrite ops_numbered. apply number_increasing. }
  { apply (f_equal length) in Hr2. rewrite !length_map in Hr2. unfold ps. rewrite <- numbered_take, length_take. lia. }
  rewrite ops_numbered in *. exists j, st, log. rewrite Hj. split_and!; try done.
  - apply Forall2_length in Ha1. rewrite Ha1. unfold j, ps.
    assert (Hk1 : (length recs1 <= k)%nat).
    { apply (Hk (length recs1) (dest_ (log_ db1))); [rewrite length_app; lia| |done]. rewrite take_app_length. apply Hlog, Hinv1. }
    destruct (di_recs _ _ _ _ _ _ _ Hinv1) as [Hr1 _]. apply (f_equal length) in Hr1. rewrite !length_map in Hr1.
    assert (Hlen : forall q p, length (numbered q p) = length p) by (intros q p; revert q; induction p; intros; cbn; auto).
    rewrite Hlen in Hr1. rewrite take_app_ge by lia. rewrite concat_app, length_app. lia.
  - apply Hm2; [lia|]. eapply list.Forall_impl; [exact I3|]. cbn. lia.
  - by exists pieces.
Qed.

Lemma db_durable_witness :
  exists db0 db1 acks1 db2 acks2 returned rest,
    new_db (P:=be_host) (M:=bump_malloc) BytewiseComparator 64 0 = Some db0 /\
    run_db (P:=be_host) (M:=bump_malloc) BytewiseComparator db0 [DArrive (0, [RPut [7] [1]], false); DArrive (5, [RDelete [7]; RPut [8] []], true); DTurn 4096] = Some (db1, acks1) /\
    run_db (P:=be_host) (M:=bump_malloc) BytewiseComparator db1 [DTurn 4096] = Some (db2, acks2) /\
    [(0, [RPut [7] [1]], false); (5, [RDelete [7]; RPut [8] []], true)] = returned ++ rest /\ Forall2 acked (acks1 ++ acks2) returned /\
    db_answers (P:=be_host) BytewiseComparator db2 (number 1 (all_recs returned)) /\
    forall o level0 n fuel last_log again ms, (forall m, level0 m = OK) ->
      (length (dest_ (log_ db1)) <= n)%nat -> (length (dest_ (log_ db2)) + 2 <= fuel)%nat ->
      exists j st log, (length acks1 <= j)%nat /\
        RecoverLogFile (P:=be_host) (M:=bump_malloc) BytewiseComparator o level0 fuel (inl (take n (dest_ (log_ db2)))) last_log again 8192 64 ms = Some (st, log) /\
        rs_status st = OK /\
        Forall (fun x => x.1 <= rs_max_sequence st) (number 1 (all_recs (take j returned))) /\
        rs_max_sequence st <= Z.max ms (0 + zlen (all_recs (take j returned))) /\
        exists pieces, concat pieces = number 1 (all_recs (take j returned)) /\ Forall2 (answers (P:=be_host) BytewiseComparator) (recovered_tables st) pieces.
Proof.
  apply (db_durable (P:=be_host) (ML:=bump_laws) BytewiseComparator 64 8192 0
    [DArrive (0, [RPut [7] [1]], false); DArrive (5, [RDelete [7]; RPut [8] []], true); DTurn 4096] [DTurn 4096]).
  - by vm_compute.
  - by vm_compute.
  - split_and!; [|by vm_compute..]. split_and!; [repeat constructor; by vm_compute|repeat constructor; by vm_compute|by vm_compute].
  - repeat constructor; by vm_compute.
Defined.

(** ** Reusing a log that ends in a torn record *)

(** When the log is reused, its writer goes on at the end of the file. *)
Lemma reused_writer {P : Platform} {M : Malloc} uc o level0 fuel (f : mem_file) backing t_addr ms st log :
  RecoverLogFile uc o level0 fuel (inl f) true (Some (f, zlen f)) backing t_addr ms = Some (st, log) ->
  rs_status st = OK -> reuse_logs o = true -> rs_compactions st = 0 -> log = new_Writer_at t_addr f (zlen f).
Proof.
  unfold RecoverLogFile. intros H Hs Hr Hc. destruct (recover_loop _ _ _ _ _ _ _) as [st0|]; [|done]. cbn [mbind option_bind] in H.
  rewrite Hr in H. destruct (ok (rs_status st0)) eqn:Eok; cbn [andb] in H.
  - destruct (Z.eqb_spec (rs_compactions st0) 0) as [E0|E0].
    + destruct (new_Writer_at t_addr f (zlen f)); [|done]. cbn [mbind option_bind] in H.
      destruct (match rs_mem st0 with Some m => Some m | None => _ end); [|done]. cbn [mbind option_bind] in H. by simplify_eq.
    + destruct (rs_mem st0) as [m|]; [|by simplify_eq]. unfold flush in H. destruct (Unref m); [|done]. cbn [mbind option_bind] in H. by simplify_eq.
  - destruct (rs_mem st0) as [m|]; [destruct (Unref m); [|done]; cbn [mbind option_bind] in H|]; simplify_eq; cbn [rs_status] in Hs; by rewrite Hs in Eok.
Qed.

(** C39: with [reuse_logs] an acknowledged write can be lost.  A crash cuts off the
    log of the batches [gs] and [g] behind the header of [g], in one block.
    Opening it has status OK and recovers [gs]; when the log is reused, the next
    write [h] is logged with status OK, behind what is left of [g].  Unless the
    bytes that now stand where [g] was have the checksum of [g], recovering the log
    without [paranoid_checks] has status OK again and finds [gs] and nothing else:
    [h] is lost. *)
Theorem reuse_logs_loses_write {P : Platform} {M : Malloc} {ML : MallocLaws} (uc : Comparator) {CL : ComparatorLaws uc}
    (t_addr backing ms a b : Z) (o1 o2 : DBOptions) (level0 : MemTable -> Status)
    (recs : list (Z * list Z)) (gs : list (Z * list brecord)) (g h : Z * list brecord) (c c' : list Z) (n fuel : nat) :
  addr_ok t_addr 0 -> addr_ok backing LdbLog.kBlockSize -> (forall m, level0 m = OK) ->
  map snd recs = map batch_of gs -> Forall rec_ok recs -> rec_ok (a, batch_of g) -> rec_ok (b, batch_of h) ->
  Forall db_batch_ok gs -> Forall (fun g => 1 <= g.1) gs -> increasing (ops_of gs) ->
  log_of t_addr recs = Some c -> log_of t_addr (recs ++ [(a, batch_of g)]) = Some c' ->
  zlen c mod LdbLog.kBlockSize + (kHeaderSize + zlen (batch_of g)) <= LdbLog.kBlockSize ->
  (length c + 7 <= n < length c')%nat ->
  zlen c mod LdbLog.kBlockSize + (Z.of_nat n - zlen c) + (kHeaderSize + zlen (batch_of h)) < LdbLog.kBlockSize ->
  (length c' + 2 <= fuel)%nat ->
  let f := take n c' in
  let recovers o file st log := RecoverLogFile uc o level0 fuel (inl file) true (Some (file, zlen file)) backing t_addr ms = Some (st, log) /\
    rs_status st = OK /\ exists pieces, concat pieces = ops_of gs /\ Forall2 (answers uc) (recovered_tables st) pieces in
  exists st lg, recovers o1 f st lg /\
    (reuse_logs o1 = true -> rs_compactions st = 0 -> exists log log', lg = Some log /\ AddRecord log b (batch_of h) = Some (log', OK) /\
      let x := take (length (batch_of g)) (drop (length c + 7) (dest_ log')) in
      ((zlen x = zlen (batch_of g) -> crc_ref 0 (1 :: x) <> crc_ref 0 (1 :: batch_of g)) ->
       paranoid_checks o2 = false -> (length (dest_ log') + 2 <= fuel)%nat ->
       exists st2 lg2, recovers o2 (dest_ log') st2 lg2)).
Proof.
  intros Ht Hback Hl Hsnd Hrok Hg Hh Hgs H1 Hinc Hc Hc' Hfit Hn Hfit2 Hfuel f recovers.
  assert (Hfin : forall o file r, reads fuel (new_Reader (file : mem_file) true true backing 0) (map snd recs) r ->
    reports_ r = [] \/ paranoid_checks o = false -> exists st lg, recovers o file st lg).
  { intros o file r Hrd Hend. rewrite Hsnd in Hrd.
    destruct (RecoverLogFile_ok uc o level0 fuel file true (Some (file, zlen file)) backing t_addr ms gs r Ht Hl Hrd Hend Hgs H1 Hinc) as (st & lg & E & Hs & _ & _ & Hp);
      [|by exists st, lg]. destruct (log_reads t_addr recs true true backing Ht Hrok Hback) as (c0 & Hc0 & Hlen & _).
    rewrite Hc in Hc0. injection Hc0 as <-. apply (f_equal length) in Hsnd. rewrite !length_map in Hsnd. lia. }
  rewrite (log_snoc t_addr recs a (batch_of g) c) in Hc' by done. injection Hc' as <-.
  rewrite length_app, length_phys in Hn. set (k := (n - length c)%nat).
  assert (Hf : f = c ++ take k (phys kFullType (batch_of g))) by (unfold f; rewrite take_app, take_ge by lia; done).
  destruct (torn_reuse t_addr recs (batch_of g) b (batch_of h) k backing c) as (w & w' & Ew & Ea & Ed & Hrd); try done;
    [apply Hg|unfold k; lia|unfold k, zlen in *; lia|]. rewrite <- Hf in *.
  destruct (log_reads t_addr (recs ++ [(a, batch_of g)]) true true backing Ht) as (c0 & Hc0 & _ & Hreads); [by apply Forall_app_2; [|constructor]|done|].
  rewrite (log_snoc t_addr recs a (batch_of g) c) in Hc0 by done. injection Hc0 as <-.
  destruct (Hreads n fuel Hfuel) as (j & r & Hr & Hq & Hj). fold f in Hr.
  pose proof (Hj (length recs) c ltac:(rewrite length_app; lia) ltac:(by rewrite take_app_length)) as J1.
  pose proof (Hj (S (length recs)) (c ++ phys kFullType (batch_of g)) ltac:(rewrite length_app; simpl; lia)
    ltac:(rewrite take_ge by (rewrite length_app; simpl; lia); by apply log_snoc)) as J2. rewrite length_app, length_phys in J2.
  assert (j = length recs) as -> by lia. rewrite take_app_length in Hr.
  destruct (Hfin o1 f r Hr (or_introl Hq)) as (st & lg & Hst). exists st, lg. split; [done|]. intros Hre Hco.
  destruct Hst as (E & Hs & _). pose proof (reused_writer _ _ _ _ _ _ _ _ _ _ E Hs Hre Hco) as ->.
  exists w, w'. split_and!; [done|done|]. intros x Hcrc Hpar Hfuel2. unfold x in Hcrc. rewrite Ed in *.
  destruct (Hrd Hcrc fuel Hfuel2) as (r2 & Hr2). destruct (Hfin o2 _ r2 Hr2 (or_intror Hpar)) as (st2 & lg2 & H2). by exists st2, lg2.
Qed.

(** A log of one batch, cut off after 10 bytes. *)
Lemma reuse_logs_loses_write_witness :
  exists st log log', RecoverLogFile (P := be_host) (M := bump_malloc) BytewiseComparator (mk_options false true (4 * 2 ^ 20)) (fun _ => OK) 60
      (inl [206; 38; 165; 160; 17; 0; 1; 1; 0; 0]) true (Some ([206; 38; 165; 160; 17; 0; 1; 1; 0; 0], 10)) 8192 64 0 = Some (st, Some log) /\
    AddRecord (P := be_host) log 4096 (batch_of (1, [RPut [8] [2]])) = Some (log', OK) /\
    exists st2 lg2, RecoverLogFile (P := be_host) (M := bump_malloc) BytewiseComparator (mk_options false false (4 * 2 ^ 20)) (fun _ => OK) 60
      (inl (dest_ log')) true (Some (dest_ log', zlen (dest_ log'))) 8192 64 0 = Some (st2, lg2) /\
    rs_status st2 = OK /\ exists pieces, concat pieces = [] /\ Forall2 (answers (P := be_host) BytewiseComparator) (recovered_tables st2) pieces.
Proof.
  destruct (reuse_logs_loses_write (P := be_host) (ML := bump_laws) BytewiseComparator 64 8192 0 4096 4096
    (mk_options false true (4 * 2 ^ 20)) (mk_options false false (4 * 2 ^ 20)) (fun _ => OK) [] [] (1, [RPut [7] [1]]) (1, [RPut [8] [2]])
    [] [206; 38; 165; 160; 17; 0; 1; 1; 0; 0; 0; 0; 0; 0; 0; 1; 0; 0; 0; 1; 1; 7; 1; 1] 10 60) as (st & lg & (E & _) & H).
  1-2: by vm_compute.
  1-3: by repeat constructor.
  1-2: split; [repeat constructor; by vm_compute|by vm_compute].
  1-3: by constructor.
  1-3: by vm_compute.
  1: cbn [length]; lia.
  1: by vm_compute.
  1: cbn [length]; lia.
  change (zlen (take 10 _)) with 10 in E. change (take 10 _) with [206; 38; 165; 160; 17; 0; 1; 1; 0; 0] in E.
  match type of E with ?e = _ => assert ((r ← e; Some (rs_compactions r.1, r.2)) =
    Some (0, Some (mk_writer [206; 38; 165; 160; 17; 0; 1; 1; 0; 0] 10 type_crcs))) as Ew by (vm_compute; reflexivity) end.
  rewrite E in Ew. cbn [mbind option_bind fst snd] in Ew. injection Ew as Hc ->.
  destruct H as (log & log' & [= <-] & Ea & H); [done|done|].
  exists st, (mk_writer [206; 38; 165; 160; 17; 0; 1; 1; 0; 0] 10 type_crcs), log'. split; [exact E|]. split; [exact Ea|].
  vm_compute in Ea. injection Ea as <-.
  destruct H as (st2 & lg2 & H2); [intros _; by vm_compute|done|cbn [length dest_]; lia|]. exists st2, lg2. exact H2.
Defined.
