(* ===== verification/LdbBlock.v ===== *)
(** * leveldb: table/block_builder.cc and table/block.cc

    The blocks of a table file: entries in key order, each key without the prefix
    it shares with the one before, and at the end the offsets of the restart
    points, the entries whose keys are whole.  A [const char*] into a block is
    its offset.  [None] is a failed [assert], an access outside the block or a
    pointer that does not point into it. *)

From Stdlib Require Import ZArith Lia Bool String.
From stdpp Require Import base option list numbers sorting.
From S2P Require Import Prelude LdbCoding LdbFormat.
Open Scope Z_scope.

(** ** The code *)

Record BlockBuilder := mk_builder {
  bb_buffer_ : list Z;
  bb_restarts_ : list Z;
  bb_counter_ : Z;
  bb_finished_ : bool;
  bb_last_key_ : list Z
}.

(** [options->block_restart_interval]. *)
Definition new_BlockBuilder (block_restart_interval : Z) : option BlockBuilder :=
  if negb (1 <=? block_restart_interval) then None else Some (mk_builder [] [0] 0 false []).
Definition BlockBuilder_Reset (b : BlockBuilder) : BlockBuilder := mk_builder [] [0] 0 false [].
Definition CurrentSizeEstimate (b : BlockBuilder) : Z := zlen (bb_buffer_ b) + zlen (bb_restarts_ b) * 4 + 4.
Definition BlockBuilder_empty (b : BlockBuilder) : bool := zlen (bb_buffer_ b) =? 0.

Section Code.
Context {P : Platform}.

Fixpoint Finish_loop (buffer restarts : list Z) : option (list Z) :=
  match restarts with
  | [] => Some buffer
  | x :: restarts => buffer ← PutFixed32 buffer x; Finish_loop buffer restarts
  end.
Definition BlockBuilder_Finish (b : BlockBuilder) : option (BlockBuilder * list Z) :=
  buffer ← Finish_loop (bb_buffer_ b) (bb_restarts_ b);
  buffer ← PutFixed32 buffer (u32 (zlen (bb_restarts_ b)));
  Some (mk_builder buffer (bb_restarts_ b) (bb_counter_ b) true (bb_last_key_ b), buffer).

(** How many bytes two keys share. *)
Fixpoint shared_loop (fuel : nat) (last_key key : list Z) (shared min_length : Z) : option Z :=
  if shared <? min_length then
    match fuel with
    | O => None
    | S fuel =>
        x ← znth last_key shared;
        y ← znth key shared;
        if x =? y then shared_loop fuel last_key key (shared + 1) min_length else Some shared
    end
  else Some shared.

Definition BlockBuilder_Add (uc : Comparator) (block_restart_interval : Z) (b : BlockBuilder) (key value : list Z) : option BlockBuilder :=
  let last_key_piece := bb_last_key_ b in
  if bb_finished_ b then None
  else if negb (bb_counter_ b <=? block_restart_interval) then None
  else if negb (BlockBuilder_empty b || (0 <? Compare uc key last_key_piece)) then None
  else
    '(shared, restarts, counter) ←
      (if bb_counter_ b <? block_restart_interval then
         let min_length := Z.min (zlen last_key_piece) (zlen key) in
         shared ← shared_loop (Z.to_nat min_length) last_key_piece key 0 min_length;
         Some (shared, bb_restarts_ b, bb_counter_ b)
       else Some (0, bb_restarts_ b ++ [u32 (zlen (bb_buffer_ b))], 0));
    let non_shared := zlen key - shared in
    buffer ← PutVarint32 (bb_buffer_ b) (u32 shared);
    buffer ← PutVarint32 buffer (u32 non_shared);
    buffer ← PutVarint32 buffer (u32 (zlen value));
    delta ← rd key shared non_shared;
    let buffer := buffer ++ delta ++ value in
    let last_key := take (Z.to_nat shared) last_key_piece ++ delta in
    if negb (bool_decide (last_key = key)) then None
    else Some (mk_builder buffer restarts (counter + 1) false last_key).

(** *** Block *)

(** [restart_offset_] is not set when [size_] is the error marker. *)
Record Block := mk_block { data_ : list Z; size_ : Z; restart_offset_ : option Z }.

Definition NumRestarts (data : list Z) (size : Z) : option Z :=
  if negb (4 <=? size) then None else DecodeFixed32 data (size - 4).

Definition new_Block (contents : list Z) : option Block :=
  let size := zlen contents in
  if size <? 4 then Some (mk_block contents 0 None)
  else
    let max_restarts_allowed := (size - 4) / 4 in
    n ← NumRestarts contents size;
    if max_restarts_allowed <? n then Some (mk_block contents 0 None)
    else Some (mk_block contents size (Some (u32 (size - u32 (1 + n) * 4)))).

(** The inner [None] is [nullptr]; else where the key delta starts, [*shared],
    [*non_shared] and [*value_length]. *)
Definition DecodeEntry (data : list Z) (p limit : Z) : option (option (Z * Z * Z * Z)) :=
  if limit - p <? 3 then Some None
  else
    shared ← znth data p;
    non_shared ← znth data (p + 1);
    value_length ← znth data (p + 2);
    r ← (if Z.lor (Z.lor shared non_shared) value_length <? 128 then Some (Some (p + 3, shared, non_shared, value_length))
         else
           q ← GetVarint32Ptr data p limit;
           match q with
           | None => Some None
           | Some (p, shared) =>
               q ← GetVarint32Ptr data p limit;
               match q with
               | None => Some None
               | Some (p, non_shared) =>
                   q ← GetVarint32Ptr data p limit;
                   match q with
                   | None => Some None
                   | Some (p, value_length) => Some (Some (p, shared, non_shared, value_length))
                   end
               end
           end);
    match r with
    | None => Some None
    | Some (p, shared, non_shared, value_length) =>
        if u32 (limit - p) <? u32 (non_shared + value_length) then Some None
        else Some (Some (p, shared, non_shared, value_length))
    end.

(** *** Block::Iter

    The constant members are in [BlockIter]; [value_] is the offset and the size
    of the slice, or [None] when it does not point into the block. *)
Record BlockIter := mk_bi {
  bi_comparator_ : Comparator;
  bi_data_ : list Z;
  bi_restarts_ : Z;
  bi_num_restarts_ : Z
}.
Record IterState := mk_is {
  current_ : Z;
  restart_index_ : Z;
  key_ : list Z;
  value_ : option (Z * Z);
  status_ : Status
}.

Definition new_BlockIter (uc : Comparator) (data : list Z) (restarts num_restarts : Z) : option (BlockIter * IterState) :=
  if negb (0 <? num_restarts) then None
  else Some (mk_bi uc data restarts num_restarts, mk_is restarts num_restarts [] None OK).

Definition NextEntryOffset (st : IterState) : option Z := '(o, n) ← value_ st; Some (u32 (o + n)).

Definition GetRestartPoint (it : BlockIter) (index : Z) : option Z :=
  if negb (index <? bi_num_restarts_ it) then None
  else DecodeFixed32 (bi_data_ it) (bi_restarts_ it + index * 4).

Definition SeekToRestartPoint (it : BlockIter) (st : IterState) (index : Z) : option IterState :=
  offset ← GetRestartPoint it index;
  Some (mk_is (current_ st) index [] (Some (offset, 0)) (status_ st)).

Definition BI_Valid (it : BlockIter) (st : IterState) : bool := current_ st <? bi_restarts_ it.
Definition BI_status (st : IterState) : Status := status_ st.
Definition BI_key (it : BlockIter) (st : IterState) : option (list Z) :=
  if negb (BI_Valid it st) then None else Some (key_ st).
Definition BI_value (it : BlockIter) (st : IterState) : option (list Z) :=
  if negb (BI_Valid it st) then None else '(o, n) ← value_ st; rd (bi_data_ it) o n.

Definition CorruptionError (it : BlockIter) : IterState :=
  mk_is (bi_restarts_ it) (bi_num_restarts_ it) [] None (Corruption "bad entry in block").

Fixpoint restart_loop (fuel : nat) (it : BlockIter) (current index : Z) : option Z :=
  if u32 (index + 1) <? bi_num_restarts_ it then
    o ← GetRestartPoint it (u32 (index + 1));
    if o <? current then
      match fuel with
      | O => None
      | S fuel => restart_loop fuel it current (u32 (index + 1))
      end
    else Some index
  else Some index.

Definition ParseNextKey (it : BlockIter) (st : IterState) : option (IterState * bool) :=
  p ← NextEntryOffset st;
  let limit := bi_restarts_ it in
  if limit <=? p then Some (mk_is (bi_restarts_ it) (bi_num_restarts_ it) (key_ st) (value_ st) (status_ st), false)
  else
    d ← DecodeEntry (bi_data_ it) p limit;
    match d with
    | None => Some (CorruptionError it, false)
    | Some (q, shared, non_shared, value_length) =>
        if zlen (key_ st) <? shared then Some (CorruptionError it, false)
        else
          delta ← rd (bi_data_ it) q non_shared;
          index ← restart_loop (Z.to_nat (bi_num_restarts_ it)) it p (restart_index_ st);
          Some (mk_is p index (take (Z.to_nat shared) (key_ st) ++ delta) (Some (q + non_shared, value_length)) (status_ st), true)
    end.

Definition BI_Next (it : BlockIter) (st : IterState) : option IterState :=
  if negb (BI_Valid it st) then None else '(st, _) ← ParseNextKey it st; Some st.

(** Back to a restart point before [original]; [inr] when there is none. *)
Fixpoint back_loop (fuel : nat) (it : BlockIter) (st : IterState) (original index : Z) : option (Z + IterState) :=
  o ← GetRestartPoint it index;
  if original <=? o then
    if index =? 0 then Some (inr (mk_is (bi_restarts_ it) (bi_num_restarts_ it) (key_ st) (value_ st) (status_ st)))
    else
      match fuel with
      | O => None
      | S fuel => back_loop fuel it st original (index - 1)
      end
  else Some (inl index).

(** [while (ParseNextKey() && NextEntryOffset() < stop)]. *)
Fixpoint parse_until (fuel : nat) (it : BlockIter) (st : IterState) (stop : Z) : option IterState :=
  match fuel with
  | O => None
  | S fuel =>
      '(st, more) ← ParseNextKey it st;
      if (more : bool) then
        o ← NextEntryOffset st;
        if o <? stop then parse_until fuel it st stop else Some st
      else Some st
  end.

(** As many turns as there are bytes, each of which goes on by an entry. *)
Definition scan_fuel (it : BlockIter) : nat := S (Z.to_nat (bi_restarts_ it)).

Definition BI_Prev (it : BlockIter) (st : IterState) : option IterState :=
  if negb (BI_Valid it st) then None
  else
    let original := current_ st in
    r ← back_loop (Z.to_nat (bi_num_restarts_ it)) it st original (restart_index_ st);
    match r with
    | inr st => Some st
    | inl index =>
        st ← SeekToRestartPoint it st index;
        parse_until (scan_fuel it) it st original
    end.

(** The binary search; the inner [None] is a bad entry. *)
Fixpoint bsearch_loop (fuel : nat) (it : BlockIter) (target : list Z) (l r : Z) : option (option Z) :=
  if l <? r then
    match fuel with
    | O => None
    | S fuel =>
        let mid := u32 (l + r + 1) / 2 in
        region_offset ← GetRestartPoint it mid;
        d ← DecodeEntry (bi_data_ it) region_offset (bi_restarts_ it);
        match d with
        | None => Some None
        | Some (key_ptr, shared, non_shared, _) =>
            if negb (shared =? 0) then Some None
            else
              mid_key ← rd (bi_data_ it) key_ptr non_shared;
              if Compare (bi_comparator_ it) mid_key target <? 0 then bsearch_loop fuel it target mid r
              else bsearch_loop fuel it target l (u32 (mid - 1))
        end
    end
  else Some (Some l).

Fixpoint seek_loop (fuel : nat) (it : BlockIter) (st : IterState) (target : list Z) : option IterState :=
  match fuel with
  | O => None
  | S fuel =>
      '(st, more) ← ParseNextKey it st;
      if negb more then Some st
      else if 0 <=? Compare (bi_comparator_ it) (key_ st) target then Some st
      else seek_loop fuel it st target
  end.

Definition BI_Seek (it : BlockIter) (st : IterState) (target : list Z) : option IterState :=
  r ← bsearch_loop (Z.to_nat (bi_num_restarts_ it)) it target 0 (u32 (bi_num_restarts_ it - 1));
  match r with
  | None => Some (CorruptionError it)
  | Some l => st ← SeekToRestartPoint it st l; seek_loop (scan_fuel it) it st target
  end.

Definition BI_SeekToFirst (it : BlockIter) (st : IterState) : option IterState :=
  st ← SeekToRestartPoint it st 0; '(st, _) ← ParseNextKey it st; Some st.

Definition BI_SeekToLast (it : BlockIter) (st : IterState) : option IterState :=
  st ← SeekToRestartPoint it st (u32 (bi_num_restarts_ it - 1));
  parse_until (scan_fuel it) it st (bi_restarts_ it).

(** [NewIterator]: an empty iterator with a status, or one over the block. *)
Definition NewIterator (uc : Comparator) (b : Block) : option (Status + BlockIter * IterState) :=
  if size_ b <? 4 then Some (inl (Corruption "bad block contents"))
  else
    num_restarts ← NumRestarts (data_ b) (size_ b);
    if num_restarts =? 0 then Some (inl OK)
    else
      restart_offset ← restart_offset_ b;
      it ← new_BlockIter uc (data_ b) restart_offset num_restarts;
      Some (inr it).
End Code.

(** ** The layout of a block *)

Notation bentry := (prod (list Z) (list Z)).

(** How many bytes two keys have in common at the front. *)
Fixpoint lcp (a b : list Z) : nat :=
  match a, b with x :: a, y :: b => if x =? y then S (lcp a b) else O | _, _ => O end.

Lemma lcp_app (c s t : list Z) : match s, t with x :: _, y :: _ => x <> y | _, _ => True end -> lcp (c ++ s) (c ++ t) = length c.
Proof.
  intros H. induction c as [|x c IH]; cbn [app lcp length]; [|by rewrite Z.eqb_refl, IH].
  destruct s as [|x s], t as [|y t]; try done. cbn. by rewrite (proj2 (Z.eqb_neq x y)).
Qed.
Lemma lcp_le_r a b : (lcp a b <= length b)%nat.
Proof. revert b. induction a as [|x a IH]; intros [|y b]; cbn; try lia. destruct (x =? y); [|lia]. specialize (IH b). lia. Qed.
Lemma lcp_le_l a b : (lcp a b <= length a)%nat.
Proof. revert b. induction a as [|x a IH]; intros [|y b]; cbn; try lia. destruct (x =? y); [|lia]. specialize (IH b). lia. Qed.
Lemma lcp_take a b : take (lcp a b) a = take (lcp a b) b.
Proof. revert b. induction a as [|x a IH]; intros [|y b]; cbn; try done. destruct (Z.eqb_spec x y); [|done]. subst. cbn. by rewrite IH. Qed.

Lemma shared_loop_ok a b : shared_loop (Z.to_nat (Z.min (zlen a) (zlen b))) a b 0 (Z.min (zlen a) (zlen b)) = Some (Z.of_nat (lcp a b)).
Proof.
  destruct (diff_loop_ok (Z.to_nat (Z.min (zlen a) (zlen b))) [] a b _ eq_refl) as (c & s & t & Ha & Hb & E & Hd); [unfold zlen; cbn; lia|].
  cbn [app] in *. etransitivity; [exact E|]. rewrite Ha, Hb, (lcp_app c s t Hd). done.
Qed.

(** An entry whose key shares [sh] bytes with the one before. *)
Definition enc_entry (sh : nat) (e : bentry) : list Z :=
  varint (Z.of_nat sh) ++ varint (zlen e.1 - Z.of_nat sh) ++ varint (zlen e.2) ++ drop sh e.1 ++ e.2.

Definition key_at (es : list bentry) (i : nat) : list Z := match es !! i with Some e => e.1 | None => [] end.

Section Layout.
Context (R : nat).

(** The bytes that entry [i] shares: none at a restart point. *)
Definition shared_at (es : list bentry) (i : nat) : nat :=
  if (i mod R =? 0)%nat then O else lcp (key_at es (i - 1)) (key_at es i).
Definition item (es : list bentry) (i : nat) : list Z := enc_entry (shared_at es i) (default ([], []) (es !! i)).
Definition items (es : list bentry) : list (list Z) := map (item es) (seq 0 (length es)).
Definition offset (es : list bentry) (i : nat) : Z := zlen (concat (take i (items es))).
Definition restart_count (n : nat) : nat := match n with O => 1%nat | S m => S (m / R) end.
Definition restart_points (es : list bentry) : list Z := map (fun k => offset es (k * R)) (seq 0 (restart_count (length es))).
Definition block_of (es : list bentry) : list Z :=
  concat (items es) ++ encs 4 (restart_points es) ++ le_enc 4 (zlen (restart_points es)).

(** An upper bound of the size of a block. *)
Fixpoint raw_size (es : list bentry) : Z := match es with [] => 8 | e :: es => zlen e.1 + zlen e.2 + 19 + raw_size es end.

Lemma items_length es : length (items es) = length es.
Proof. unfold items. by rewrite length_map, length_seq. Qed.
Lemma items_lookup es i e : es !! i = Some e -> items es !! i = Some (enc_entry (shared_at es i) e).
Proof.
  intros H. unfold items. change (map (item es) ?l) with (item es <$> l). rewrite list_lookup_fmap, lookup_seq_lt by (by eapply lookup_lt_Some). cbn [fmap option_fmap option_map].
  rewrite Nat.add_0_l. unfold item. by rewrite H.
Qed.
Lemma key_at_app es e i : (i < length es)%nat -> key_at (es ++ [e]) i = key_at es i.
Proof. intros H. unfold key_at. by rewrite lookup_app_l. Qed.
Lemma key_at_last es e : key_at (es ++ [e]) (length es) = e.1.
Proof. unfold key_at. by rewrite lookup_app_r, Nat.sub_diag. Qed.
Lemma items_snoc es e : items (es ++ [e]) = items es ++ [enc_entry (shared_at (es ++ [e]) (length es)) e].
Proof.
  unfold items. rewrite length_app. cbn [length]. rewrite seq_app, map_app. cbn [seq map Nat.add]. f_equal.
  - apply map_ext_in. intros i [_ Hi]%in_seq. unfold item. rewrite lookup_app_l by lia. f_equal. unfold shared_at.
    by rewrite !key_at_app by lia.
  - unfold item. by rewrite lookup_app_r, Nat.sub_diag by lia.
Qed.
Lemma offset_snoc es e i : (i <= length es)%nat -> offset (es ++ [e]) i = offset es i.
Proof. intros H. unfold offset. rewrite items_snoc, take_app_le by (by rewrite items_length). done. Qed.
Lemma offset_full es : offset es (length es) = zlen (concat (items es)).
Proof. unfold offset. by rewrite <- (items_length es), firstn_all. Qed.

(** One more entry: the quotient and the remainder by the interval. *)
Lemma succ_divmod m : (0 < R)%nat ->
  (S (m mod R) < R /\ S m mod R = S (m mod R) /\ S m / R = m / R \/ S (m mod R) = R /\ S m mod R = 0 /\ S m / R = S (m / R))%nat.
Proof.
  intros HR. pose proof (Nat.mod_upper_bound m R ltac:(lia)). pose proof (Nat.div_mod_eq m R).
  destruct (Nat.lt_ge_cases (S (m mod R)) R); [left|right]; (split; [lia|]).
  - split; symmetry; [apply (Nat.mod_unique _ _ (m / R))|apply (Nat.div_unique _ _ _ (S (m mod R)))]; lia.
  - split; symmetry; [apply (Nat.mod_unique _ _ (S (m / R)))|apply (Nat.div_unique _ _ _ 0)]; nia.
Qed.

Lemma restart_points_snoc es e : (0 < R)%nat ->
  restart_points (es ++ [e]) = restart_points es ++ (if (length es =? 0)%nat then [] else if (length es mod R =? 0)%nat then [offset es (length es)] else []).
Proof.
  intros HR. unfold restart_points. rewrite length_app. cbn [length]. rewrite Nat.add_1_r.
  assert (Hle : forall n k, (k < restart_count n -> k * R <= n)%nat).
  { intros [|n] k Hk; cbn in Hk; [lia|]. pose proof (Nat.div_mod_eq n R). nia. }
  assert (Hm : map (fun k => offset (es ++ [e]) (k * R)) (seq 0 (restart_count (length es))) = map (fun k => offset es (k * R)) (seq 0 (restart_count (length es)))).
  { apply map_ext_in. intros k [_ Hk]%in_seq. apply offset_snoc, Hle. lia. }
  rewrite <- Hm. destruct (length es) as [|m] eqn:En; [cbn [restart_count Nat.eqb]; by rewrite Nat.div_small, app_nil_r by lia|]. cbn [Nat.eqb restart_count].
  destruct (succ_divmod m HR) as [(_ & -> & ->)|(_ & -> & Ed)]; cbn [Nat.eqb]; [by rewrite app_nil_r|].
  rewrite Ed, (seq_S (S (m / R))), map_app. cbn [map Nat.add]. f_equal.
  assert (Hk : (S (m / R) * R = S m)%nat) by (pose proof (Nat.div_mod_eq m R); pose proof (succ_divmod m HR); nia).
  rewrite Hk, offset_snoc by lia. done.
Qed.

Lemma raw_size_app es fs : raw_size (es ++ fs) = raw_size es + raw_size fs - 8.
Proof. induction es as [|e es IH]; cbn [app raw_size]; lia. Qed.
Lemma raw_size_ge es : 8 + 19 * zlen es <= raw_size es.
Proof. induction es as [|e es IH]; cbn [raw_size]; [unfold zlen; cbn; lia|]. rewrite zlen_cons. pose proof (zlen_nonneg e.1). pose proof (zlen_nonneg e.2). lia. Qed.
Lemma raw_size_elem es i e : es !! i = Some e -> raw_size es < 2 ^ 32 -> zlen e.1 + zlen e.2 < 2 ^ 32 - 27.
Proof.
  intros H Hs. apply list_elem_of_split_length in H as (es1 & es2 & -> & _). rewrite raw_size_app in Hs. cbn [raw_size] in Hs.
  pose proof (raw_size_ge es1). pose proof (raw_size_ge es2). pose proof (zlen_nonneg es1). pose proof (zlen_nonneg es2). lia.
Qed.

Lemma shared_le es i : (shared_at es i <= length (key_at es i))%nat.
Proof. unfold shared_at. destruct (_ =? _)%nat; [lia|apply lcp_le_r]. Qed.
Lemma varint_pos v : 1 <= zlen (varint v).
Proof. unfold varint. cbn [vint]. destruct (v <? 128); zlens; [lia|]. match goal with |- context [zlen ?l] => pose proof (zlen_nonneg l) end. lia. Qed.
Lemma enc_entry_len sh e : (sh <= length e.1)%nat -> zlen e.1 < 2 ^ 32 -> zlen e.2 < 2 ^ 32 ->
  3 + zlen e.2 <= zlen (enc_entry sh e) <= 15 + zlen e.1 + zlen e.2.
Proof.
  intros Hs H1 H2. pose proof (zlen_nonneg e.2). assert (Z.of_nat sh <= zlen e.1) by (unfold zlen; lia).
  unfold enc_entry. rewrite !zlen_app, zlen_drop.
  pose proof (zlen_varint32_le (Z.of_nat sh) ltac:(unfold in_u; lia)). pose proof (zlen_varint32_le (zlen e.1 - Z.of_nat sh) ltac:(unfold in_u; lia)).
  pose proof (zlen_varint32_le (zlen e.2) ltac:(unfold in_u; lia)).
  pose proof (varint_pos (Z.of_nat sh)). pose proof (varint_pos (zlen e.1 - Z.of_nat sh)). pose proof (varint_pos (zlen e.2)). lia.
Qed.
Lemma enc_entry_bytes sh e : (sh <= length e.1)%nat -> bytes e.1 -> bytes e.2 -> bytes (enc_entry sh e).
Proof.
  intros Hs H1 H2. pose proof (zlen_nonneg e.2). assert (Z.of_nat sh <= zlen e.1) by (unfold zlen; lia).
  unfold enc_entry, bytes. rewrite !Forall_app. split_and!; [apply varint_bytes; lia..|by apply Forall_drop|done].
Qed.

Lemma restart_points_length es : (0 < R)%nat -> zlen (restart_points es) = Z.of_nat (restart_count (length es)).
Proof. intros. unfold restart_points. rewrite zlen_map. unfold zlen. by rewrite length_seq. Qed.
Lemma restart_count_le n : (0 < R)%nat -> (restart_count n <= S n)%nat.
Proof. intros HR. destruct n as [|m]; cbn [restart_count]; [lia|]. assert (m / R <= m)%nat by (apply Nat.Div0.div_le_upper_bound; nia). lia. Qed.

(** The data and the restart points fit. *)
Lemma block_fits es : (0 < R)%nat -> raw_size es < 2 ^ 32 ->
  zlen (concat (items es)) + 4 * zlen (restart_points es) + 4 <= raw_size es.
Proof.
  intros HR Hs. rewrite restart_points_length by done. pose proof (restart_count_le (length es) HR).
  enough (zlen (concat (items es)) + 4 * zlen es + 8 <= raw_size es) by (unfold zlen at 2 in H0; lia).
  revert Hs. clear H. induction es as [|e es IH] using rev_ind; intros Hs; [by cbn|].
  rewrite raw_size_app in Hs |- *. pose proof (raw_size_ge [e]) as Hge. change (zlen [e]) with 1 in Hge. specialize (IH ltac:(lia)).
  rewrite items_snoc, concat_app, !zlen_app. cbn [concat]. rewrite app_nil_r. change (zlen [e]) with 1.
  assert (Hr : raw_size [e] = zlen e.1 + zlen e.2 + 27) by (cbn [raw_size]; lia).
  pose proof (raw_size_ge es). pose proof (zlen_nonneg es). pose proof (zlen_nonneg e.1). pose proof (zlen_nonneg e.2).
  pose proof (enc_entry_len (shared_at (es ++ [e]) (length es)) e) as Hl. pose proof (shared_le (es ++ [e]) (length es)) as Hsh.
  rewrite key_at_last in Hsh. specialize (Hl Hsh ltac:(lia) ltac:(lia)). lia.
Qed.

(** ** The builder *)
Context {P : Platform} (uc : Comparator).

Definition counter_at (n : nat) : Z := match n with O => 0 | S m => Z.of_nat (S (m mod R)) end.
Definition built (es : list bentry) : BlockBuilder :=
  mk_builder (concat (items es)) (restart_points es) (counter_at (length es)) false (key_at es (length es - 1)).

(** Shares as the code computes it, when the counter says so. *)
Lemma shared_ok es e : (0 < R)%nat -> counter_at (length es) < Z.of_nat R ->
  shared_at (es ++ [e]) (length es) = lcp (key_at es (length es - 1)) e.1 /\
  restart_points (es ++ [e]) = restart_points es /\ counter_at (S (length es)) = counter_at (length es) + 1.
Proof.
  intros HR Hc. rewrite restart_points_snoc by done. unfold shared_at. rewrite key_at_last. destruct (length es) as [|m] eqn:En.
  - apply nil_length_inv in En. subst. rewrite Nat.Div0.mod_0_l. cbn [Nat.eqb]. rewrite app_nil_r. split_and!; [by destruct e.1|done|].
    cbn [counter_at]. by rewrite Nat.Div0.mod_0_l.
  - rewrite key_at_app by lia. cbn [counter_at] in Hc. cbn [Nat.eqb].
    destruct (succ_divmod m HR) as [(H1 & H2 & _)|(H1 & _)]; [|lia]. unfold counter_at. rewrite H2. cbn [Nat.eqb].
    split_and!; [done|by rewrite app_nil_r|lia].
Qed.
Lemma restart_ok es e : (0 < R)%nat -> ~ counter_at (length es) < Z.of_nat R ->
  shared_at (es ++ [e]) (length es) = O /\
  restart_points (es ++ [e]) = restart_points es ++ [zlen (concat (items es))] /\ counter_at (S (length es)) = 1 /\ counter_at (length es) = Z.of_nat R.
Proof.
  intros HR Hc. rewrite restart_points_snoc by done. rewrite <- offset_full. unfold shared_at. destruct (length es) as [|m] eqn:En; [cbn in Hc; lia|].
  cbn [counter_at] in Hc. cbn [Nat.eqb]. destruct (succ_divmod m HR) as [(H1 & _)|(H1 & H2 & _)]; [lia|]. unfold counter_at. rewrite H2. cbn [Nat.eqb].
  split_and!; [done|done|done|lia].
Qed.

Lemma rd_tail (k : list Z) sh : (sh <= length k)%nat -> rd k (Z.of_nat sh) (zlen k - Z.of_nat sh) = Some (drop sh k).
Proof.
  intros H. rewrite rd_Some by (unfold zlen; lia). rewrite Nat2Z.id. f_equal. apply take_ge. rewrite length_drop. unfold zlen. lia.
Qed.

Lemma BlockAdd_ok es e : (0 < R)%nat -> raw_size (es ++ [e]) < 2 ^ 32 -> (es = [] \/ 0 < Compare uc e.1 (key_at es (length es - 1))) ->
  BlockBuilder_Add uc (Z.of_nat R) (built es) e.1 e.2 = Some (built (es ++ [e])).
Proof.
  intros HR Hs Hcmp. pose proof (raw_size_elem (es ++ [e]) (length es) e ltac:(by rewrite lookup_app_r, Nat.sub_diag) Hs) as He.
  pose proof (block_fits _ HR Hs) as Hfit. rewrite items_snoc, concat_app, zlen_app in Hfit. pose proof (zlen_nonneg (restart_points (es ++ [e]))).
  match type of Hfit with context [?a + zlen (concat [?x])] => pose proof (zlen_nonneg (concat [x])) end. pose proof (zlen_nonneg (concat (items es))).
  pose proof (zlen_nonneg e.1). pose proof (zlen_nonneg e.2). pose proof (shared_le (es ++ [e]) (length es)) as Hsh. rewrite key_at_last in Hsh.
  assert (Hemp : BlockBuilder_empty (built es) || (0 <? Compare uc e.1 (key_at es (length es - 1))) = true).
  { destruct Hcmp as [->|Hc]; [done|]. by rewrite (proj2 (Z.ltb_lt 0 _)), orb_true_r. }
  assert (Hle : counter_at (length es) <= Z.of_nat R).
  { unfold counter_at. destruct (length es) as [|m]; [lia|]. pose proof (Nat.mod_upper_bound m R). lia. }
  unfold BlockBuilder_Add, built. cbn [bb_last_key_ bb_finished_ bb_counter_ bb_buffer_ bb_restarts_]. unfold built in Hemp. rewrite Hemp.
  rewrite (proj2 (Z.leb_le _ _) Hle). simpl negb. cbv iota.
  rewrite length_app. cbn [length]. rewrite Nat.add_1_r. replace (S (length es) - 1)%nat with (length es) by lia. rewrite key_at_last.
  rewrite items_snoc, concat_app. cbn [concat]. rewrite app_nil_r.
  assert (Hput : forall (last : list Z) sh, sh = shared_at (es ++ [e]) (length es) -> (take sh last ++ drop sh e.1 = e.1) -> forall rs c,
    (buffer ← PutVarint32 (concat (items es)) (u32 (Z.of_nat sh));
     buffer ← PutVarint32 buffer (u32 (zlen e.1 - Z.of_nat sh));
     buffer ← PutVarint32 buffer (u32 (zlen e.2));
     delta ← rd e.1 (Z.of_nat sh) (zlen e.1 - Z.of_nat sh);
     if negb (bool_decide (take (Z.to_nat (Z.of_nat sh)) last ++ delta = e.1)) then None
     else Some (mk_builder (buffer ++ delta ++ e.2) rs c false (take (Z.to_nat (Z.of_nat sh)) last ++ delta))) =
    Some (mk_builder (concat (items es) ++ enc_entry sh e) rs c false e.1)).
  { intros last sh -> Hk rs c. assert (Z.of_nat (shared_at (es ++ [e]) (length es)) <= zlen e.1) by (unfold zlen; lia).
    unfold u32. rewrite !wrap_id by (unfold in_u; lia). rewrite PutVarint32_ok by (unfold in_u; lia). cbn [mbind option_bind].
    rewrite PutVarint32_ok by (unfold in_u; lia). cbn [mbind option_bind]. rewrite PutVarint32_ok by (unfold in_u; lia). cbn [mbind option_bind].
    rewrite rd_tail by done. cbn [mbind option_bind]. rewrite Nat2Z.id, Hk, bool_decide_eq_true_2 by done. cbn [negb]. unfold enc_entry. by rewrite <- !app_assoc. }
  destruct (Z.ltb_spec (counter_at (length es)) (Z.of_nat R)) as [Hc|Hc].
  - destruct (shared_ok es e HR Hc) as (E1 & -> & ->). rewrite shared_loop_ok. cbn [mbind option_bind]. rewrite E1.
    apply Hput; [done|]. rewrite lcp_take. apply take_drop.
  - destruct (restart_ok es e HR ltac:(lia)) as (E1 & -> & -> & _). cbn [mbind option_bind]. rewrite E1.
    unfold u32 at 1. rewrite wrap_id by (unfold in_u; lia). apply (Hput _ 0%nat); [done|done].
Qed.

Fixpoint add_entries (b : BlockBuilder) (es : list bentry) : option BlockBuilder :=
  match es with [] => Some b | e :: es => b ← BlockBuilder_Add uc (Z.of_nat R) b e.1 e.2; add_entries b es end.
Definition sorted_keys (es : list bentry) : Prop := StronglySorted (fun a b => Compare uc b.1 a.1 > 0) es.

Lemma add_entries_ok fs : forall es, (0 < R)%nat -> sorted_keys (es ++ fs) -> raw_size (es ++ fs) < 2 ^ 32 ->
  add_entries (built es) fs = Some (built (es ++ fs)).
Proof.
  induction fs as [|e fs IH]; intros es HR Hk Hs; cbn [add_entries]; [by rewrite app_nil_r|].
  assert (Happ : es ++ e :: fs = (es ++ [e]) ++ fs) by (by rewrite <- app_assoc). rewrite Happ in *.
  rewrite BlockAdd_ok; [|done|rewrite raw_size_app in Hs; pose proof (raw_size_ge fs); pose proof (zlen_nonneg fs); lia|].
  { cbn [mbind option_bind]. by apply IH. }
  destruct es as [|x es _] using rev_ind; [by left|right]. rewrite length_app, Nat.add_sub, key_at_last.
  unfold sorted_keys in Hk. apply StronglySorted_app_1_l in Hk. rewrite <- app_assoc in Hk. apply StronglySorted_app_1_r in Hk. inversion Hk as [|? ? _ Hf]; subst.
  inversion Hf; subst. lia.
Qed.

Lemma Finish_loop_ok l : forall buf, Finish_loop buf l = Some (buf ++ encs 4 l).
Proof.
  induction l as [|x l IH]; intros buf; cbn [Finish_loop]; [by rewrite encs_nil, app_nil_r|].
  rewrite PutFixed32_ok. cbn [mbind option_bind]. rewrite IH, encs_cons. by rewrite <- app_assoc.
Qed.
Lemma Finish_ok es : (0 < R)%nat -> raw_size es < 2 ^ 32 ->
  exists b, BlockBuilder_Finish (built es) = Some (b, block_of es) /\ CurrentSizeEstimate (built es) = zlen (block_of es).
Proof.
  intros HR Hs. pose proof (block_fits es HR Hs). pose proof (zlen_nonneg (concat (items es))). pose proof (zlen_nonneg (restart_points es)).
  unfold BlockBuilder_Finish, built, CurrentSizeEstimate. cbn [bb_buffer_ bb_restarts_]. rewrite Finish_loop_ok. cbn [mbind option_bind].
  rewrite PutFixed32_ok. cbn [mbind option_bind]. eexists. split.
  - do 2 f_equal. unfold block_of. rewrite <- app_assoc. unfold u32. by rewrite wrap_id by (unfold in_u; lia).
  - unfold block_of. rewrite !zlen_app, zlen_encs, zlen_le_enc. lia.
Qed.

(** ** Reading entries *)

Lemma varint_head v : 0 <= v -> exists b t, varint v = b :: t /\ is_byte b /\ (b < 128 -> varint v = [v] /\ b = v).
Proof.
  intros Hv. pose proof (varint_bytes v Hv) as Hb. unfold varint in *. cbn [vint] in *. destruct (Z.ltb_spec v 128).
  - exists v, []. split_and!; [done| |done]. unfold is_byte. lia.
  - pose proof (Z.mod_pos_bound v 128 ltac:(lia)). eexists _, _. split_and!; [done|unfold is_byte; lia|lia].
Qed.

Lemma lor_lt_128 a b : 0 <= a -> 0 <= b -> Z.lor a b < 128 -> a < 128 /\ b < 128.
Proof.
  intros Ha Hb H. pose proof (Z.log2_lor a b Ha Hb) as HL.
  assert (Hlog : Z.log2 (Z.lor a b) < 7).
  { destruct (Z.eq_dec (Z.lor a b) 0) as [E|E]; [rewrite E; cbn; lia|]. pose proof (proj2 (Z.lor_nonneg a b) (conj Ha Hb)). apply Z.log2_lt_pow2; lia. }
  assert (Hone : forall c, 0 <= c -> Z.log2 c < 7 -> c < 128).
  { intros c Hc Hl. destruct (Z.eq_dec c 0); [lia|]. apply Z.log2_lt_pow2 in Hl; lia. }
  split; apply Hone; lia.
Qed.

(** Where three numbers start [pre], what [DecodeEntry] reads on its fast path. *)
Lemma three_bytes a b c l : 0 <= a -> 0 <= b -> 0 <= c -> exists x y z t,
  varint a ++ varint b ++ varint c ++ l = x :: y :: z :: t /\ is_byte x /\
  (0 <= y -> 0 <= z -> Z.lor (Z.lor x y) z < 128 -> varint a = [a] /\ varint b = [b] /\ varint c = [c] /\ x = a /\ y = b /\ z = c).
Proof.
  intros Ha Hb Hc. destruct (varint_head a Ha) as (x & ta & Ea & Hx & Hxa), (varint_head b Hb) as (xb & tb & Eb & Hxb & Hb'), (varint_head c Hc) as (xc & tc & Ec & Hxc & Hc').
  assert (exists y z t, varint a ++ varint b ++ varint c ++ l = x :: y :: z :: t /\ (x < 128 -> y = xb /\ (xb < 128 -> z = xc))) as (y & z & t & E & Hyz).
  { rewrite Ea, Eb, Ec. destruct ta as [|a1 [|a2 ta]]; cbn [app].
    - destruct tb as [|b1 tb]; cbn [app]; do 3 eexists; (split; [done|]); intros _; (split; [done|]); [done|].
      intros H. destruct (Hb' H) as [E' _]. rewrite Eb in E'. discriminate.
    - do 3 eexists. split; [done|]. intros H. destruct (Hxa H) as [E' _]. rewrite Ea in E'. discriminate.
    - do 3 eexists. split; [done|]. intros H. destruct (Hxa H) as [E' _]. rewrite Ea in E'. discriminate. }
  exists x, y, z, t. split_and!; [done|done|]. intros Hy Hz H. unfold is_byte in *.
  apply lor_lt_128 in H as [H Hz']; [|apply Z.lor_nonneg; lia|done]. apply lor_lt_128 in H as [H1 H2]; [|lia|done].
  destruct (Hyz H1) as [-> Hzc]. rewrite (Hzc H2) in *. destruct (Hxa H1), (Hb' H2), (Hc' Hz'). done.
Qed.

Lemma GetVarint32Ptr_app p v rest s lim : in_u 32 v -> bytes rest -> lim = zlen p + zlen (varint v ++ rest) ->
  GetVarint32Ptr (p ++ (varint v ++ rest) ++ s) (zlen p) lim = Some (Some (zlen (p ++ varint v), v)).
Proof.
  intros Hv Hr ->. rewrite GetVarint32Ptr_ok by (apply Forall_app; split; [apply varint_bytes, Hv|done]).
  rewrite vdec5_varint by done. do 3 f_equal; [rewrite !zlen_app; lia|]. unfold u32. by rewrite wrap_id.
Qed.

(** Three numbers at the end of [p], and [k] up to the limit: all that is checked
    of the two lengths is their 32-bit sum. *)
Lemma DecodeEntry_three p a b c k s lim :
  in_u 32 a -> in_u 32 b -> in_u 32 c -> bytes k -> lim = zlen p + zlen (varint a ++ varint b ++ varint c ++ k) ->
  DecodeEntry (p ++ (varint a ++ varint b ++ varint c ++ k) ++ s) (zlen p) lim =
    Some (if u32 (zlen k) <? u32 (b + c) then None else Some (lim - zlen k, a, b, c)).
Proof.
  intros Hua Hub Huc Hkb ->. pose proof Hua as [Ha0 _]. pose proof Hub as [Hb0 _]. pose proof Huc as [Hc0 _].
  set (l := varint a ++ varint b ++ varint c ++ k).
  assert (Hl : zlen l = zlen (varint a) + zlen (varint b) + zlen (varint c) + zlen k) by (unfold l; rewrite !zlen_app; lia).
  pose proof (varint_pos a). pose proof (varint_pos b). pose proof (varint_pos c). pose proof (zlen_nonneg k).
  unfold DecodeEntry. rewrite (proj2 (Z.ltb_ge _ 3)) by lia.
  destruct (three_bytes a b c k Ha0 Hb0 Hc0) as (x & y & z & t & E3 & Hx & Hfast). fold l in E3.
  assert (Hlb : bytes l) by (unfold l, bytes; rewrite !Forall_app; split_and!; [by apply varint_bytes..|done]).
  pose proof Hlb as Hbs. rewrite E3 in Hbs.
  inversion Hbs as [|? ? _ Hbs1]; subst. inversion Hbs1 as [|? ? Hby Hbs2]; subst. inversion Hbs2 as [|? ? Hbz _]; subst. unfold is_byte in Hby, Hbz.
  set (D := p ++ l ++ s). assert (HD : D = p ++ (x :: y :: z :: t) ++ s) by (unfold D; by rewrite E3).
  assert (znth D (zlen p) = Some x) as -> by (rewrite HD; apply znth_middle). cbn [mbind option_bind].
  assert (znth D (zlen p + 1) = Some y) as -> by (rewrite HD; apply (znth_seg p (x :: y :: z :: t) s 1); done). cbn [mbind option_bind].
  assert (znth D (zlen p + 2) = Some z) as -> by (rewrite HD; apply (znth_seg p (x :: y :: z :: t) s 2); done). cbn [mbind option_bind].
  set (q := zlen p + zlen l - zlen k).
  assert (Hq : q = zlen (((p ++ varint a) ++ varint b) ++ varint c)) by (unfold q; rewrite !zlen_app; lia).
  match goal with |- (r ← ?e; _) = _ => assert (e = Some (Some (q, a, b, c))) as -> end.
  - destruct (Z.ltb_spec (Z.lor (Z.lor x y) z) 128) as [Hf|_].
    + destruct (Hfast ltac:(lia) ltac:(lia) Hf) as (Va & Vb & Vc & -> & -> & ->). rewrite Hq, Va, Vb, Vc, !zlen_app. change (zlen [a]) with 1.
      change (zlen [b]) with 1. change (zlen [c]) with 1. do 5 f_equal. lia.
    + unfold D, l. rewrite GetVarint32Ptr_app; [|done|unfold bytes; rewrite !Forall_app; split_and!; [by apply varint_bytes..|done]|rewrite !zlen_app; lia].
      cbn [mbind option_bind]. replace (p ++ (varint a ++ varint b ++ varint c ++ k) ++ s) with ((p ++ varint a) ++ (varint b ++ varint c ++ k) ++ s) by (by rewrite <- !app_assoc).
      rewrite GetVarint32Ptr_app; [|done|unfold bytes; rewrite !Forall_app; split_and!; [by apply varint_bytes..|done]|rewrite !zlen_app; lia].
      cbn [mbind option_bind]. replace ((p ++ varint a) ++ (varint b ++ varint c ++ k) ++ s) with (((p ++ varint a) ++ varint b) ++ (varint c ++ k) ++ s) by (by rewrite <- !app_assoc).
      rewrite GetVarint32Ptr_app by (done || rewrite !zlen_app; lia). cbn [mbind option_bind]. by rewrite <- Hq.
  - cbn [mbind option_bind]. replace (zlen p + zlen l - q) with (zlen k) by (unfold q; lia). by destruct (u32 (zlen k) <? u32 (b + c)).
Qed.

(** An entry [enc_entry sh e] at the end of [p], before [rest] and the limit. *)
Lemma DecodeEntry_ok p sh e rest s lim :
  (sh <= length e.1)%nat -> zlen e.1 < 2 ^ 32 -> bytes e.1 -> bytes e.2 -> bytes rest -> lim = zlen p + zlen (enc_entry sh e) + zlen rest -> lim < 2 ^ 32 ->
  DecodeEntry (p ++ (enc_entry sh e ++ rest) ++ s) (zlen p) lim =
    Some (Some (zlen p + zlen (enc_entry sh e) - zlen e.2 - (zlen e.1 - Z.of_nat sh), Z.of_nat sh, zlen e.1 - Z.of_nat sh, zlen e.2)).
Proof.
  intros Hsh H0 H1 H2 Hr Hlim Hlt. set (k := drop sh e.1 ++ e.2 ++ rest).
  set (a := Z.of_nat sh). set (b := zlen e.1 - Z.of_nat sh). set (c := zlen e.2).
  assert (Henc : enc_entry sh e ++ rest = varint a ++ varint b ++ varint c ++ k) by (unfold enc_entry, k; by rewrite <- !app_assoc).
  pose proof (f_equal zlen Henc) as Hl. rewrite !zlen_app in Hl. pose proof (zlen_nonneg p). pose proof (zlen_nonneg rest). pose proof (zlen_nonneg e.2).
  assert (Hab : 0 <= b /\ zlen k = b + c + zlen rest).
  { unfold k, b, c. rewrite !zlen_app, zlen_drop. unfold zlen at 1. unfold zlen in *. lia. }
  destruct Hab as [Hb0 Hk]. assert (Ha1 : 0 <= a <= zlen e.1) by (unfold a, zlen; lia). assert (Hc0 : 0 <= c) by done.
  pose proof (varint_pos a). pose proof (varint_pos b). pose proof (varint_pos c).
  assert (Hkb : bytes k) by (unfold k, bytes; rewrite !Forall_app; split_and!; [by apply Forall_drop|done|done]).
  rewrite Henc, (DecodeEntry_three p a b c k s lim); [|unfold in_u; lia..|done|rewrite !zlen_app; lia].
  unfold u32. rewrite !wrap_id by (unfold in_u; lia). rewrite (proj2 (Z.ltb_ge (zlen k) (b + c))) by lia. do 5 f_equal. lia.
Qed.

(** ** The iterator *)
Section Iterator.
Context (es : list bentry) (HR : (0 < R)%nat) (Hsize : raw_size es < 2 ^ 32)
  (Hbytes : Forall (fun e : bentry => bytes e.1 /\ bytes e.2) es) (Hsorted : sorted_keys es).

Definition the_iter : BlockIter := mk_bi uc (block_of es) (zlen (concat (items es))) (zlen (restart_points es)).

Lemma es_ok i e : es !! i = Some e -> (shared_at es i <= length e.1)%nat /\ bytes e.1 /\ bytes e.2 /\ zlen e.1 < 2 ^ 32 /\ zlen e.2 < 2 ^ 32.
Proof.
  intros H. pose proof (shared_le es i) as Hs. unfold key_at in Hs. rewrite H in Hs. pose proof (raw_size_elem es i e H Hsize).
  pose proof (zlen_nonneg e.1). pose proof (zlen_nonneg e.2). rewrite list.Forall_forall in Hbytes. destruct (Hbytes e) as [? ?]; [by eapply list_elem_of_lookup_2|]. split_and!; done || lia.
Qed.
Lemma offset_S i e : es !! i = Some e -> offset es (S i) = offset es i + zlen (enc_entry (shared_at es i) e).
Proof.
  intros H. unfold offset. rewrite (take_S_r _ _ _ (items_lookup es i e H)), concat_app, zlen_app. cbn [concat]. by rewrite app_nil_r.
Qed.
Lemma offset_step i e : es !! i = Some e -> offset es i + 3 + zlen e.2 <= offset es (S i).
Proof. intros H. destruct (es_ok i e H) as (? & _ & _ & ? & ?). pose proof (enc_entry_len (shared_at es i) e). rewrite (offset_S i e H). lia. Qed.
Lemma offset_lt j : forall i, (i < j)%nat -> (j <= length es)%nat -> offset es i < offset es j.
Proof.
  induction j as [|j IH]; intros i Hi Hj; [lia|]. destruct (lookup_lt_is_Some_2 es j ltac:(lia)) as [e He]. pose proof (offset_step j e He). pose proof (zlen_nonneg e.2).
  destruct (decide (i = j)) as [->|]; [lia|]. specialize (IH i ltac:(lia) ltac:(lia)). lia.
Qed.
Lemma offset_0 : offset es 0 = 0.
Proof. done. Qed.
Lemma offset_nonneg i : 0 <= offset es i.
Proof. apply zlen_nonneg. Qed.
Lemma offset_le i j : (i <= j)%nat -> (j <= length es)%nat -> offset es i <= offset es j.
Proof. intros Hi Hj. destruct (decide (i = j)) as [->|]; [lia|]. pose proof (offset_lt j i). lia. Qed.
Lemma offset_ltb i j : (i <= length es)%nat -> (j <= length es)%nat -> (offset es i <? offset es j) = (i <? j)%nat.
Proof.
  intros Hi Hj. destruct (Nat.ltb_spec i j).
  - apply Z.ltb_lt. by apply offset_lt.
  - apply Z.ltb_ge. by apply offset_le.
Qed.
Lemma limit_offset : zlen (concat (items es)) = offset es (length es).
Proof. by rewrite offset_full. Qed.
Lemma limit_small : zlen (concat (items es)) < 2 ^ 32 /\ 4 * zlen (restart_points es) < 2 ^ 32.
Proof. pose proof (block_fits es HR Hsize). pose proof (zlen_nonneg (restart_points es)). pose proof (zlen_nonneg (concat (items es))). lia. Qed.
Lemma count_le_limit : Z.of_nat (length es) <= zlen (concat (items es)).
Proof.
  rewrite limit_offset. enough (H : forall n, (n <= length es)%nat -> Z.of_nat n <= offset es n) by (apply H; lia).
  induction n as [|n IH]; intros Hn; [done|]. pose proof (offset_lt (S n) n). lia.
Qed.

Lemma block_split i e : es !! i = Some e -> exists p rest s, block_of es = p ++ (enc_entry (shared_at es i) e ++ rest) ++ s /\
  zlen p = offset es i /\ zlen (concat (items es)) = zlen p + zlen (enc_entry (shared_at es i) e) + zlen rest /\ bytes rest.
Proof.
  intros H. pose proof (items_lookup es i e H) as Hi. pose proof (take_drop_middle _ _ _ Hi) as Hm.
  exists (concat (take i (items es))), (concat (drop (S i) (items es))), (encs 4 (restart_points es) ++ le_enc 4 (zlen (restart_points es))).
  split_and!; [|done| |].
  - unfold block_of. rewrite <- Hm at 1. rewrite concat_app. cbn [concat]. by rewrite <- !app_assoc.
  - rewrite <- Hm at 1. rewrite concat_app. cbn [concat]. rewrite !zlen_app. lia.
  - apply list.Forall_forall. intros b (j & x & Hj & Hb)%elem_of_concat. rewrite lookup_drop in Hj.
    pose proof (lookup_lt_Some _ _ _ Hj) as Hlt. rewrite items_length in Hlt. destruct (lookup_lt_is_Some_2 es _ Hlt) as [e' He'].
    rewrite (items_lookup _ _ _ He') in Hj. injection Hj as <-. destruct (es_ok _ _ He') as (? & ? & ? & _).
    pose proof (enc_entry_bytes (shared_at es (S i + j)) e' ltac:(done) ltac:(done) ltac:(done)) as Hbs.
    exact (proj1 (list.Forall_forall _ _) Hbs b Hb).
Qed.

Definition delta_at (i : nat) (e : bentry) : Z := offset es (S i) - zlen e.2 - (zlen e.1 - Z.of_nat (shared_at es i)).
Lemma decode_at i e : es !! i = Some e -> DecodeEntry (block_of es) (offset es i) (zlen (concat (items es))) =
  Some (Some (delta_at i e, Z.of_nat (shared_at es i), zlen e.1 - Z.of_nat (shared_at es i), zlen e.2)).
Proof.
  intros H. destruct (es_ok i e H) as (H1 & H2 & H3 & H4 & H5). destruct (block_split i e H) as (p & rest & s & -> & Hp & Hl & Hr).
  rewrite <- Hp, DecodeEntry_ok; try done; [|apply limit_small]. unfold delta_at. rewrite (offset_S i e H), Hp. done.
Qed.
Lemma read_at i e : es !! i = Some e ->
  rd (block_of es) (delta_at i e) (zlen e.1 - Z.of_nat (shared_at es i)) = Some (drop (shared_at es i) e.1) /\
  rd (block_of es) (offset es (S i) - zlen e.2) (zlen e.2) = Some e.2.
Proof.
  intros H. destruct (es_ok i e H) as (H1 & _). destruct (block_split i e H) as (p & rest & s & -> & Hp & _). unfold delta_at. rewrite (offset_S i e H), <- Hp.
  unfold enc_entry. set (v := varint _ ++ _). assert (Hd : zlen (drop (shared_at es i) e.1) = zlen e.1 - Z.of_nat (shared_at es i)) by (rewrite zlen_drop; unfold zlen; lia).
  set (h := varint (Z.of_nat (shared_at es i)) ++ varint (zlen e.1 - Z.of_nat (shared_at es i)) ++ varint (zlen e.2)).
  assert (Hv : v = h ++ drop (shared_at es i) e.1 ++ e.2) by (unfold v, h; by rewrite <- !app_assoc). rewrite Hv, !zlen_app. split.
  - replace (p ++ ((h ++ drop (shared_at es i) e.1 ++ e.2) ++ rest) ++ s) with ((p ++ h) ++ drop (shared_at es i) e.1 ++ (e.2 ++ rest ++ s)) by (by rewrite <- !app_assoc).
    apply rd_seg; [|done]. rewrite zlen_app, Hd. lia.
  - replace (p ++ ((h ++ drop (shared_at es i) e.1 ++ e.2) ++ rest) ++ s) with ((p ++ h ++ drop (shared_at es i) e.1) ++ e.2 ++ (rest ++ s)) by (by rewrite <- !app_assoc).
    apply rd_seg; [|done]. rewrite !zlen_app. lia.
Qed.

Definition nrestarts : nat := restart_count (length es).
Lemma num_restarts_eq : bi_num_restarts_ the_iter = Z.of_nat nrestarts.
Proof. apply restart_points_length, HR. Qed.
Lemma restart_index_le k : (k < nrestarts)%nat -> (k * R <= length es)%nat /\ (k * R < length es \/ es = [])%nat.
Proof.
  unfold nrestarts. intros Hk. destruct (length es) as [|m] eqn:En; cbn in Hk.
  - apply nil_length_inv in En. split; [lia|by right].
  - pose proof (Nat.div_mod_eq m R). split; [nia|left; nia].
Qed.
Lemma restart_at k : (k < nrestarts)%nat -> GetRestartPoint the_iter (Z.of_nat k) = Some (offset es (k * R)).
Proof.
  intros Hk. unfold GetRestartPoint. rewrite num_restarts_eq, (proj2 (Z.ltb_lt _ _)) by lia. cbn [negb the_iter bi_data_ bi_restarts_].
  assert (Hx : restart_points es !! k = Some (offset es (k * R))).
  { unfold restart_points. change (map ?f ?l) with (f <$> l). rewrite list_lookup_fmap, lookup_seq_lt by done. done. }
  unfold block_of. rewrite (encs_lookup 4 _ k _ Hx).
  replace (concat (items es) ++ (encs 4 (take k (restart_points es)) ++ le_enc 4 (offset es (k * R)) ++ encs 4 (drop (S k) (restart_points es))) ++ le_enc 4 (zlen (restart_points es)))
    with ((concat (items es) ++ encs 4 (take k (restart_points es))) ++ le_enc 4 (offset es (k * R)) ++ (encs 4 (drop (S k) (restart_points es)) ++ le_enc 4 (zlen (restart_points es)))) by (by rewrite <- !app_assoc).
  rewrite DecodeFixed32_ok; [|apply bytes_le_enc|apply zlen_le_enc|].
  - rewrite le_dec_enc, wrap_id; [done|]. pose proof limit_small as [Hl _]. rewrite limit_offset in Hl.
    pose proof (offset_le (k * R) (length es) ltac:(by apply restart_index_le) ltac:(lia)). pose proof (offset_nonneg (k * R)). unfold in_u. change (8 * Z.of_nat 4) with 32. lia.
  - rewrite zlen_app, zlen_encs, zlen_take. pose proof (lookup_lt_Some _ _ _ Hx). unfold zlen at 3. lia.
Qed.

(** *** Positions *)

Definition index_ok (st : IterState) : Prop := 0 <= restart_index_ st < bi_num_restarts_ the_iter.
(** About to parse entry [i]. *)
Definition before (st : IterState) (i : nat) : Prop :=
  (exists o n, value_ st = Some (o, n) /\ o + n = offset es i) /\ (i mod R = 0 \/ key_ st = key_at es (i - 1))%nat /\ index_ok st /\ status_ st = OK.
(** At entry [i]. *)
Definition at_entry (st : IterState) (i : nat) : Prop :=
  exists e, es !! i = Some e /\ current_ st = offset es i /\ key_ st = e.1 /\ value_ st = Some (offset es (S i) - zlen e.2, zlen e.2) /\ index_ok st /\ status_ st = OK.
Definition at_end (st : IterState) : Prop := current_ st = bi_restarts_ the_iter /\ status_ st = OK.

Lemma at_before st i : at_entry st i -> before st (S i).
Proof.
  intros (e & He & _ & Hk & Hv & Hi & Hs). split_and!; try done; [|right; unfold key_at; cbn; by rewrite Nat.sub_0_r, He].
  eexists _, _. split; [exact Hv|lia].
Qed.
Lemma u32_offset i : (i <= length es)%nat -> u32 (offset es i) = offset es i.
Proof.
  intros Hi. pose proof (offset_le i (length es) Hi ltac:(lia)). pose proof limit_small as [Hl _]. rewrite limit_offset in Hl. pose proof (offset_nonneg i).
  unfold u32. apply wrap_id. unfold in_u. lia.
Qed.
Lemma before_next st i : before st i -> (i <= length es)%nat -> NextEntryOffset st = Some (offset es i).
Proof. intros ((o & n & Hv & Ho) & _) Hi. unfold NextEntryOffset. rewrite Hv. cbn [mbind option_bind]. rewrite Ho. by rewrite u32_offset. Qed.

Lemma u32_index k : (k <= nrestarts)%nat -> u32 (Z.of_nat k) = Z.of_nat k.
Proof.
  intros Hk. pose proof limit_small as [_ Hl]. pose proof num_restarts_eq as Hn. cbn in Hn. rewrite Hn in Hl. unfold u32. apply wrap_id. unfold in_u. lia.
Qed.
Lemma restart_loop_ok fuel : forall cur k, (k < nrestarts)%nat -> (nrestarts <= k + S fuel)%nat ->
  exists k', restart_loop fuel the_iter cur (Z.of_nat k) = Some (Z.of_nat k') /\ (k' < nrestarts)%nat.
Proof.
  induction fuel as [|fuel IH]; intros cur k Hk Hf; cbn [restart_loop]; replace (Z.of_nat k + 1) with (Z.of_nat (S k)) by lia;
    rewrite u32_index, num_restarts_eq by lia; (destruct (Z.ltb_spec (Z.of_nat (S k)) (Z.of_nat nrestarts)); [|by exists k]); [lia|].
  rewrite restart_at by lia. cbn [mbind option_bind]. destruct (_ <? cur); [|by exists k]. apply IH; lia.
Qed.

Lemma shared_key st i e : before st i -> es !! i = Some e ->
  Z.of_nat (shared_at es i) <= zlen (key_ st) /\ take (shared_at es i) (key_ st) ++ drop (shared_at es i) e.1 = e.1.
Proof.
  intros (_ & Hk & _) He. unfold shared_at. destruct (Nat.eqb_spec (i mod R) 0) as [|Hi]; [cbn [take drop app]; split; [apply zlen_nonneg|done]|].
  destruct Hk as [Hk|Hk]; [done|]; rewrite Hk. pose proof (lcp_le_l (key_at es (i - 1)) (key_at es i)). split; [unfold zlen; lia|].
  rewrite lcp_take. assert (key_at es i = e.1) as -> by (unfold key_at; by rewrite He). apply take_drop.
Qed.

Lemma parse_entry st i : before st i -> (i < length es)%nat -> exists st', ParseNextKey the_iter st = Some (st', true) /\ at_entry st' i.
Proof.
  intros Hb Hi. destruct (lookup_lt_is_Some_2 es i Hi) as [e He]. destruct (shared_key st i e Hb He) as [Hs Hk].
  unfold ParseNextKey. rewrite (before_next st i Hb) by lia. cbn [mbind option_bind the_iter bi_restarts_ bi_data_].
  pose proof (offset_lt (length es) i Hi ltac:(lia)) as Hlt. rewrite limit_offset, (proj2 (Z.leb_gt _ _)), <- limit_offset by lia.
  rewrite (decode_at i e He). cbn [mbind option_bind]. rewrite (proj2 (Z.ltb_ge _ _)) by lia.
  destruct (read_at i e He) as [Hd _]. rewrite Hd. cbn [mbind option_bind]. destruct Hb as (_ & _ & Hix & Hst). unfold index_ok in Hix. rewrite num_restarts_eq in Hix.
  destruct (restart_loop_ok (Z.to_nat (bi_num_restarts_ the_iter)) (offset es i) (Z.to_nat (restart_index_ st))) as (k' & Hk' & Hlt'); [lia|rewrite num_restarts_eq; lia|].
  rewrite Z2Nat.id in Hk' by lia. fold the_iter. rewrite Hk'. cbn [mbind option_bind]. rewrite Nat2Z.id, Hk. eexists. split; [done|].
  exists e. unfold index_ok. cbn [current_ key_ value_ restart_index_ status_]. rewrite num_restarts_eq. split_and!; try done; [|lia..].
  unfold delta_at. do 2 f_equal. lia.
Qed.
Lemma parse_end st : before st (length es) -> exists st', ParseNextKey the_iter st = Some (st', false) /\ at_end st'.
Proof.
  intros Hb. unfold ParseNextKey. rewrite (before_next st _ Hb) by lia. cbn [mbind option_bind]. cbn [the_iter bi_restarts_].
  rewrite limit_offset, (proj2 (Z.leb_le _ _)) by lia. eexists. split; [done|]. split; [cbn; by rewrite limit_offset|apply Hb].
Qed.

Lemma seek_restart st k : (k < nrestarts)%nat -> status_ st = OK -> exists st', SeekToRestartPoint the_iter st (Z.of_nat k) = Some st' /\ before st' (k * R).
Proof.
  intros Hk Hs. unfold SeekToRestartPoint. rewrite restart_at by done. cbn [mbind option_bind]. eexists. split; [done|].
  split_and!; cbn [value_ key_ status_]; [eexists _, _; split; [done|lia]|left; apply Nat.Div0.mod_mul| |done].
  unfold index_ok. cbn [restart_index_]. rewrite num_restarts_eq. lia.
Qed.

Lemma scan_ok fuel : forall st i j, before st i -> (i < j <= length es)%nat -> (j <= i + fuel)%nat ->
  exists st', parse_until fuel the_iter st (offset es j) = Some st' /\ at_entry st' (j - 1).
Proof.
  induction fuel as [|fuel IH]; intros st i j Hb Hij Hf; [lia|]. cbn [parse_until].
  destruct (parse_entry st i Hb ltac:(lia)) as (st' & -> & Hat). cbn [mbind option_bind]. rewrite (before_next st' (S i) (at_before _ _ Hat)) by lia.
  cbn [mbind option_bind]. rewrite offset_ltb by lia. destruct (Nat.ltb_spec (S i) j); [apply (IH _ (S i)); [by apply at_before|lia..]|].
  exists st'. split; [done|]. by replace (j - 1)%nat with i by lia.
Qed.
Lemma scan_fuel_ge : (length es < scan_fuel the_iter)%nat.
Proof. unfold scan_fuel. cbn. pose proof count_le_limit. lia. Qed.
Lemma valid_at st i : at_entry st i -> BI_Valid the_iter st = true.
Proof.
  intros (e & He & Hc & _). unfold BI_Valid. rewrite Hc. cbn. rewrite limit_offset. apply Z.ltb_lt, offset_lt; [by eapply lookup_lt_Some|lia].
Qed.
Lemma valid_end st : at_end st -> BI_Valid the_iter st = false.
Proof. intros [Hc _]. unfold BI_Valid. rewrite Hc. apply Z.ltb_irrefl. Qed.

(** The position in the list of entries: [None] past either end. *)
Definition cursor (st : IterState) (pos : option nat) : Prop := match pos with Some i => at_entry st i | None => at_end st end.
Lemma cursor_status st pos : cursor st pos -> status_ st = OK.
Proof. destruct pos; cbn; [intros (e & H); apply H|intros H; apply H]. Qed.
Definition next_pos (i : nat) : option nat := if (S i <? length es)%nat then Some (S i) else None.

Lemma parse_cursor st i : before st i -> (i <= length es)%nat -> exists st' more, ParseNextKey the_iter st = Some (st', more) /\
  cursor st' (if (i <? length es)%nat then Some i else None) /\ more = (i <? length es)%nat.
Proof.
  intros Hb Hi. destruct (Nat.ltb_spec i (length es)).
  - destruct (parse_entry st i Hb) as (st' & ? & ?); [lia|]. by exists st', true.
  - replace i with (length es) in Hb by lia. destruct (parse_end st Hb) as (st' & ? & ?). by exists st', false.
Qed.
Lemma Next_ok st i : at_entry st i -> exists st', BI_Next the_iter st = Some st' /\ cursor st' (next_pos i).
Proof.
  intros H. unfold BI_Next. rewrite (valid_at st i H). cbn [negb]. assert (Hi : (S i <= length es)%nat) by (destruct H as (e & H%lookup_lt_Some & _); lia).
  destruct (parse_cursor st (S i) (at_before _ _ H) Hi) as (st' & more & -> & Hc & _). cbn [mbind option_bind]. by exists st'.
Qed.
Lemma nrestarts_pos : (0 < nrestarts)%nat.
Proof. unfold nrestarts, restart_count. destruct (length es); lia. Qed.
Lemma SeekToFirst_ok st : status_ st = OK -> exists st', BI_SeekToFirst the_iter st = Some st' /\ cursor st' (if (0 <? length es)%nat then Some 0%nat else None).
Proof.
  intros Hs. unfold BI_SeekToFirst. destruct (seek_restart st 0 nrestarts_pos Hs) as (st1 & E & Hb). change (Z.of_nat 0) with 0 in E. rewrite E. cbn [mbind option_bind].
  destruct (parse_cursor st1 0 Hb ltac:(lia)) as (st' & more & -> & Hc & _). cbn [mbind option_bind]. by exists st'.
Qed.
Lemma SeekToLast_ok st : status_ st = OK -> exists st', BI_SeekToLast the_iter st = Some st' /\ cursor st' (if (0 <? length es)%nat then Some (length es - 1)%nat else None).
Proof.
  intros Hs. unfold BI_SeekToLast. pose proof nrestarts_pos. rewrite num_restarts_eq. replace (Z.of_nat nrestarts - 1) with (Z.of_nat (nrestarts - 1)) by lia. rewrite u32_index by lia.
  destruct (seek_restart st (nrestarts - 1) ltac:(lia) Hs) as (st1 & -> & Hb). cbn [mbind option_bind]. cbn [the_iter bi_restarts_]. fold the_iter.
  destruct (restart_index_le (nrestarts - 1) ltac:(lia)) as [_ [Hlt|He]].
  - rewrite (proj2 (Nat.ltb_lt 0 (length es))) by nia. rewrite limit_offset. pose proof scan_fuel_ge.
    destruct (scan_ok (scan_fuel the_iter) st1 _ (length es) Hb) as (st' & -> & Hat); [lia|nia|]. by exists st'.
  - assert (length es = 0%nat) as El by (by rewrite He). rewrite El. assert ((nrestarts - 1) * R = 0)%nat as E0 by (unfold nrestarts; by rewrite El). rewrite E0 in Hb.
    unfold scan_fuel. cbn [parse_until]. rewrite <- El in Hb. destruct (parse_end st1 Hb) as (st' & -> & Hend). cbn [mbind option_bind]. by exists st'.
Qed.

Lemma back_ok st i fuel : (i <= length es)%nat -> forall k, (k < nrestarts)%nat -> (k <= fuel)%nat ->
  exists r, back_loop fuel the_iter st (offset es i) (Z.of_nat k) = Some r /\
    match r with inr st' => i = 0%nat /\ current_ st' = bi_restarts_ the_iter /\ status_ st' = status_ st
               | inl k' => exists k0, k' = Z.of_nat k0 /\ (k0 < nrestarts)%nat /\ (k0 * R < i)%nat end.
Proof.
  intros Hi. induction fuel as [|fuel IH]; intros k Hk Hf; cbn [back_loop]; rewrite restart_at by done; cbn [mbind option_bind];
    destruct (restart_index_le k Hk) as [Hle _]; rewrite Z.leb_antisym, offset_ltb by lia; destruct (Nat.ltb_spec (k * R) i); cbn [negb];
    try (eexists; split; [done|]; by exists k).
  - assert (k = 0%nat) as -> by lia. cbn [Z.of_nat Z.eqb]. eexists. split; [done|]. split_and!; [lia|done|done].
  - destruct (Z.eqb_spec (Z.of_nat k) 0); [eexists; split; [done|]; split_and!; [|done|done]; assert (k = 0%nat) as E by lia; rewrite E in *; lia|].
    replace (Z.of_nat k - 1) with (Z.of_nat (k - 1)) by lia. apply IH; lia.
Qed.

Lemma Prev_ok st i : at_entry st i -> exists st', BI_Prev the_iter st = Some st' /\ cursor st' (match i with O => None | S j => Some j end).
Proof.
  intros Hat. unfold BI_Prev. rewrite (valid_at st i Hat). cbn [negb]. pose proof Hat as (e & He & -> & _ & _ & Hix & Hs).
  pose proof (lookup_lt_Some _ _ _ He) as Hlt. unfold index_ok in Hix. rewrite num_restarts_eq in Hix |- *.
  destruct (back_ok st i (Z.to_nat (Z.of_nat nrestarts)) ltac:(lia) (Z.to_nat (restart_index_ st)) ltac:(lia) ltac:(lia)) as (r & Hr & Hres).
  rewrite Z2Nat.id in Hr by lia. rewrite Hr. cbn [mbind option_bind]. destruct r as [k'|st'].
  - destruct Hres as (k0 & -> & Hk0 & Hki). destruct (seek_restart st k0 Hk0 Hs) as (st1 & -> & Hb). cbn [mbind option_bind].
    pose proof scan_fuel_ge. destruct (scan_ok (scan_fuel the_iter) st1 _ i Hb ltac:(lia) ltac:(nia)) as (st' & -> & Hat').
    exists st'. split; [done|]. destruct i as [|j]; [lia|]. cbn in Hat'. by rewrite Nat.sub_0_r in Hat'.
  - destruct Hres as (-> & Hc & Hst). exists st'. split; [done|]. split; [done|]. by rewrite Hst.
Qed.

(** *** Seek *)
Context {CL : ComparatorLaws uc}.

(** The first entry not before [t]. *)
Definition seek_pos (t : list Z) : option nat := fst <$> list_find (fun e : bentry => 0 <= Compare uc e.1 t) es.

Lemma sorted_keys_lookup i j a b : (i < j)%nat -> es !! i = Some a -> es !! j = Some b -> Compare uc a.1 b.1 < 0.
Proof.
  intros Hij Ha Hb. apply (cmp_neg uc). unfold sorted_keys in Hsorted. rewrite <- (take_drop_middle es i a Ha) in Hsorted. apply StronglySorted_app_1_r in Hsorted.
  inversion Hsorted as [|? ? _ Hf]; subst. rewrite list.Forall_forall in Hf. enough (Compare uc b.1 a.1 > 0) by lia. apply Hf.
  apply list_elem_of_lookup. exists (j - S i)%nat. rewrite lookup_drop. by replace (S i + (j - S i))%nat with j by lia.
Qed.

(** All the entries before the [i]th are before [t]. *)
Definition below (t : list Z) (i : nat) : Prop := forall j e, (j < i)%nat -> es !! j = Some e -> Compare uc e.1 t < 0.

Lemma seek_loop_ok fuel t : forall st i, before st i -> (i <= length es)%nat -> (length es < i + fuel)%nat -> below t i ->
  exists st', seek_loop fuel the_iter st t = Some st' /\ cursor st' (seek_pos t).
Proof.
  induction fuel as [|fuel IH]; intros st i Hb Hi Hf Hbel; [lia|]. cbn [seek_loop].
  destruct (parse_cursor st i Hb Hi) as (st' & more & -> & Hc & ->). cbn [mbind option_bind]. destruct (Nat.ltb_spec i (length es)) as [Hlt|Hge]; cbn [negb].
  - pose proof Hc as (e & He & _ & -> & _). cbn [the_iter bi_comparator_]. fold the_iter. destruct (Z.leb_spec 0 (Compare uc e.1 t)) as [Hge|Hl].
    + exists st'. split; [done|]. assert (list_find (fun e : bentry => 0 <= Compare uc e.1 t) es = Some (i, e)) as E.
      { apply list_find_Some. split_and!; [done|done|]. intros j y Hy Hj. specialize (Hbel j y Hj Hy). lia. }
      unfold seek_pos. by rewrite E.
    + apply (IH _ (S i)); [by apply at_before|lia|lia|]. intros j y Hj Hy. destruct (decide (j = i)) as [->|]; [|apply (Hbel j); [lia|done]].
      rewrite He in Hy. by injection Hy as <-.
  - exists st'. split; [done|]. assert (list_find (fun e : bentry => 0 <= Compare uc e.1 t) es = None) as E.
    { apply list_find_None. apply list.Forall_forall. intros y [j Hj]%list_elem_of_lookup. pose proof (lookup_lt_Some _ _ _ Hj). specialize (Hbel j y ltac:(lia) Hj). lia. }
    unfold seek_pos. by rewrite E.
Qed.

Lemma bsearch_ok t fuel : forall l r, (l <= r)%nat -> (r < nrestarts)%nat -> (r - l <= fuel)%nat -> below t (l * R) ->
  exists k, bsearch_loop fuel the_iter t (Z.of_nat l) (Z.of_nat r) = Some (Some (Z.of_nat k)) /\ (k < nrestarts)%nat /\ below t (k * R).
Proof.
  induction fuel as [|fuel IH]; intros l r Hlr Hr Hf Hbel; cbn [bsearch_loop].
  { rewrite (proj2 (Z.ltb_ge _ _)) by lia. exists l. split_and!; [done|lia|done]. }
  destruct (Z.ltb_spec (Z.of_nat l) (Z.of_nat r)) as [H|H]; [|exists l; split_and!; [done|lia|done]].
  set (m := ((l + r + 1) / 2)%nat). assert (Hm : (l < m <= r)%nat).
  { unfold m. pose proof (Nat.div_mod_eq (l + r + 1) 2). pose proof (Nat.mod_upper_bound (l + r + 1) 2). lia. }
  assert (Em : u32 (Z.of_nat l + Z.of_nat r + 1) / 2 = Z.of_nat m).
  { pose proof limit_small as [_ Hl]. pose proof num_restarts_eq as Hn. cbn in Hn. rewrite Hn in Hl. unfold u32. rewrite wrap_id by (unfold in_u; lia).
    unfold m. rewrite Nat2Z.inj_div. f_equal. lia. }
  rewrite Em, restart_at by lia. cbn [mbind option_bind].
  destruct (restart_index_le m ltac:(lia)) as [_ [Hlt|E]]; [|exfalso; revert Hr; unfold nrestarts; rewrite E; cbn; lia].
  destruct (lookup_lt_is_Some_2 es _ Hlt) as [e He]. pose proof (decode_at _ e He) as Hd. destruct (read_at _ e He) as [Hrd _].
  assert (E0 : shared_at es (m * R) = 0%nat) by (unfold shared_at; by rewrite Nat.Div0.mod_mul). rewrite E0 in Hd, Hrd. change (drop 0 e.1) with e.1 in Hrd.
  cbn [the_iter bi_data_ bi_restarts_ bi_comparator_]. fold the_iter. rewrite Hd. cbn [mbind option_bind]. change (Z.of_nat 0 =? 0) with true. cbn [negb].
  rewrite Hrd. cbn [mbind option_bind drop]. destruct (Z.ltb_spec (Compare uc e.1 t) 0) as [Hc|Hc].
  - apply IH; [lia|lia|lia|]. intros j y Hj Hy. apply (cmp_lt_le uc _ e.1); [|lia]. by apply (sorted_keys_lookup j (m * R)).
  - replace (Z.of_nat m - 1) with (Z.of_nat (m - 1)) by lia. rewrite u32_index by lia. apply IH; [lia|lia|lia|done].
Qed.

Lemma Seek_ok st t : status_ st = OK -> exists st', BI_Seek the_iter st t = Some st' /\ cursor st' (seek_pos t).
Proof.
  intros Hs. unfold BI_Seek. pose proof nrestarts_pos. rewrite num_restarts_eq. replace (Z.of_nat nrestarts - 1) with (Z.of_nat (nrestarts - 1)) by lia. rewrite u32_index by lia.
  destruct (bsearch_ok t (Z.to_nat (Z.of_nat nrestarts)) 0 (nrestarts - 1)) as (k & E & Hk & Hbel); [lia..|intros j e Hj; lia|].
  change (Z.of_nat 0) with 0 in E. rewrite E. cbn [mbind option_bind]. destruct (seek_restart st k Hk Hs) as (st1 & -> & Hb). cbn [mbind option_bind].
  destruct (restart_index_le k Hk) as [Hle _]. pose proof scan_fuel_ge. apply (seek_loop_ok _ t st1 _ Hb); [done|nia|done].
Qed.

(** *** Histories *)
Inductive iter_op := OFirst | OLast | OSeek (t : list Z) | ONext | OPrev.

(** [Next] and [Prev] are only called on a valid iterator. *)
Definition run_iter_op (it : BlockIter) (st : IterState) (o : iter_op) : option IterState :=
  match o with
  | OFirst => BI_SeekToFirst it st
  | OLast => BI_SeekToLast it st
  | OSeek t => BI_Seek it st t
  | ONext => if BI_Valid it st then BI_Next it st else Some st
  | OPrev => if BI_Valid it st then BI_Prev it st else Some st
  end.
Definition spec_iter_op (pos : option nat) (o : iter_op) : option nat :=
  match o with
  | OFirst => if (0 <? length es)%nat then Some 0%nat else None
  | OLast => if (0 <? length es)%nat then Some (length es - 1)%nat else None
  | OSeek t => seek_pos t
  | ONext => i ← pos; if (S i <? length es)%nat then Some (S i) else None
  | OPrev => i ← pos; match i with O => None | S j => Some j end
  end.
Fixpoint run_iter (it : BlockIter) (st : IterState) (os : list iter_op) : option IterState :=
  match os with [] => Some st | o :: os => st ← run_iter_op it st o; run_iter it st os end.

Lemma run_iter_ok os : forall st pos, cursor st pos -> exists st', run_iter the_iter st os = Some st' /\ cursor st' (foldl spec_iter_op pos os).
Proof.
  induction os as [|o os IH]; intros st pos Hc; cbn [run_iter foldl]; [by exists st|]. pose proof (cursor_status st pos Hc) as Hs.
  enough (exists st1, run_iter_op the_iter st o = Some st1 /\ cursor st1 (spec_iter_op pos o)) as (st1 & -> & H1) by (cbn [mbind option_bind]; by apply IH).
  destruct o as [| |t| |]; cbn [run_iter_op spec_iter_op].
  - by apply SeekToFirst_ok.
  - by apply SeekToLast_ok.
  - by apply Seek_ok.
  - destruct pos as [i|]; cbn in Hc; [rewrite (valid_at st i Hc); by apply Next_ok|rewrite (valid_end st Hc); by exists st].
  - destruct pos as [i|]; cbn in Hc; [rewrite (valid_at st i Hc); by apply Prev_ok|rewrite (valid_end st Hc); by exists st].
Qed.

(** What a client sees: the entry the iterator is at, and its status. *)
Definition observe (it : BlockIter) (st : IterState) : option (option bentry * Status) :=
  if BI_Valid it st then k ← BI_key it st; v ← BI_value it st; Some (Some (k, v), BI_status st) else Some (None, BI_status st).
Lemma observe_ok st pos : cursor st pos -> observe the_iter st = Some (i ← pos; es !! i, OK).
Proof.
  destruct pos as [i|]; cbn; intros Hc; unfold observe, BI_key, BI_value, BI_status.
  - rewrite (valid_at st i Hc). cbn [negb]. destruct Hc as (e & He & _ & Hk & Hv & _ & Hs). cbn [mbind option_bind]. rewrite Hv. cbn [mbind option_bind the_iter bi_data_].
    destruct (read_at i e He) as [_ Hr]. rewrite Hr. cbn [mbind option_bind]. rewrite Hk, Hs, He. by destruct e.
  - rewrite (valid_end st Hc). destruct Hc as [_ Hs]. by rewrite Hs.
Qed.

Lemma open_block : exists blk st, new_Block (block_of es) = Some blk /\ NewIterator uc blk = Some (inr (the_iter, st)) /\ cursor st None.
Proof.
  pose proof (block_fits es HR Hsize) as Hfit. pose proof num_restarts_eq as Hn. cbn in Hn. pose proof nrestarts_pos. pose proof (zlen_nonneg (concat (items es))).
  assert (Hlen : zlen (block_of es) = zlen (concat (items es)) + 4 * zlen (restart_points es) + 4) by (unfold block_of; rewrite !zlen_app, zlen_encs, zlen_le_enc; lia).
  assert (HN : NumRestarts (block_of es) (zlen (block_of es)) = Some (zlen (restart_points es))).
  { unfold NumRestarts. rewrite (proj2 (Z.leb_le _ _)) by lia. cbn [negb]. unfold block_of at 1.
    replace (concat (items es) ++ encs 4 (restart_points es) ++ le_enc 4 (zlen (restart_points es))) with
      ((concat (items es) ++ encs 4 (restart_points es)) ++ le_enc 4 (zlen (restart_points es)) ++ []) by (by rewrite app_nil_r, <- app_assoc).
    rewrite DecodeFixed32_ok; [|apply bytes_le_enc|apply zlen_le_enc|rewrite Hlen, zlen_app, zlen_encs; lia]. rewrite le_dec_enc, wrap_id; [done|]. unfold in_u. change (8 * Z.of_nat 4) with 32. lia. }
  unfold new_Block. rewrite (proj2 (Z.ltb_ge (zlen (block_of es)) 4)) by lia. rewrite HN. cbn [mbind option_bind].
  rewrite (proj2 (Z.ltb_ge _ (zlen (restart_points es)))) by (apply Z.div_le_lower_bound; lia). eexists _, _. split; [done|].
  unfold NewIterator. cbn [size_ data_ restart_offset_]. rewrite (proj2 (Z.ltb_ge (zlen (block_of es)) 4)) by lia. rewrite HN. cbn [mbind option_bind].
  rewrite (proj2 (Z.eqb_neq _ 0)) by lia. unfold new_BlockIter. rewrite (proj2 (Z.ltb_lt 0 _)) by lia. cbn [negb mbind option_bind].
  assert (Eo : u32 (zlen (block_of es) - u32 (1 + zlen (restart_points es)) * 4) = zlen (concat (items es))).
  { unfold u32. rewrite (wrap_id 32 (1 + _)) by (unfold in_u; lia). rewrite wrap_id by (unfold in_u; lia). lia. }
  rewrite Eo. split; [done|]. done.
Qed.
End Iterator.
End Layout.

(** ** Building and reading a block *)

(** C8: a block gives back what was put in it.  Entries with increasing keys, in
    the order of any comparator that keeps the laws, are all added by a new or
    reset builder, with any restart interval; the size it estimated is the size
    of the finished block; and an iterator over that block, after any sequence
    of [SeekToFirst], [SeekToLast], [Seek], [Next] and [Prev], is valid, with the
    key and the value, exactly where a cursor in the list of entries would be,
    and its status stays OK. *)
Theorem block_refines {P : Platform} (uc : Comparator) {CL : ComparatorLaws uc} (R : nat) (es : list bentry) :
  (0 < R)%nat -> raw_size es < 2 ^ 32 -> Forall (fun e : bentry => bytes e.1 /\ bytes e.2) es -> sorted_keys uc es ->
  exists b0 b b' contents blk it st,
    new_BlockBuilder (Z.of_nat R) = Some b0 /\ (forall b, BlockBuilder_Reset b = b0) /\ add_entries R uc b0 es = Some b /\
    BlockBuilder_Finish b = Some (b', contents) /\ CurrentSizeEstimate b = zlen contents /\
    new_Block contents = Some blk /\ NewIterator uc blk = Some (inr (it, st)) /\
    forall os, exists st', run_iter it st os = Some st' /\
      observe it st' = Some (i ← foldl (spec_iter_op uc es) None os; es !! i, OK).
Proof.
  intros HR Hs Hb Hk. destruct (Finish_ok R es HR Hs) as (b' & HF & HC). destruct (open_block R uc es HR Hs) as (blk & st & E1 & E2 & Hc).
  exists (built R []), (built R es), b', (block_of R es), blk, (the_iter R uc es), st. split_and!; try done.
  - unfold new_BlockBuilder. by rewrite (proj2 (Z.leb_le 1 (Z.of_nat R))) by lia.
  - exact (add_entries_ok R uc es [] HR Hk Hs).
  - intros os. destruct (run_iter_ok R uc es HR Hs Hb Hk os st None Hc) as (st' & E & Hc'). exists st'. split; [done|]. exact (observe_ok R uc es HR Hs Hb st' _ Hc').
Qed.

Lemma block_refines_witness :
  exists b0 b b' contents blk it st,
    new_BlockBuilder 2 = Some b0 /\ (forall b, BlockBuilder_Reset b = b0) /\
    add_entries (P:=be_host) 2 BytewiseComparator b0 [([1], [5]); ([1; 2], [6; 6]); ([1; 2; 3], []); ([2], [7])] = Some b /\
    BlockBuilder_Finish (P:=be_host) b = Some (b', contents) /\ CurrentSizeEstimate b = zlen contents /\
    new_Block (P:=be_host) contents = Some blk /\ NewIterator (P:=be_host) BytewiseComparator blk = Some (inr (it, st)) /\
    forall os, exists st', run_iter (P:=be_host) it st os = Some st' /\
      observe it st' = Some (i ← foldl (spec_iter_op BytewiseComparator [([1], [5]); ([1; 2], [6; 6]); ([1; 2; 3], []); ([2], [7])]) None os;
        [([1], [5]); ([1; 2], [6; 6]); ([1; 2; 3], []); ([2], [7])] !! i, OK).
Proof.
  apply (block_refines (P:=be_host) BytewiseComparator 2 [([1], [5]); ([1; 2], [6; 6]); ([1; 2; 3], []); ([2], [7])]).
  - lia.
  - by vm_compute.
  - repeat constructor; by vm_compute.
  - repeat constructor; by vm_compute.
Defined.

(** ** Entries of any bytes *)

Lemma varint32_at p l s : bytes l -> exists r, GetVarint32Ptr (p ++ l ++ s) (zlen p) (zlen p + zlen l) = Some r /\
  match r with None => True | Some (q, v) => in_u 32 v /\ exists x l', l = x ++ l' /\ 1 <= zlen x /\ q = zlen (p ++ x) end.
Proof.
  intros Hl. rewrite GetVarint32Ptr_ok by done. eexists. split; [done|].
  destruct (vdec 5 l) as [[v rest]|] eqn:E; [|done]. apply vdec_suffix in E as (x & -> & Hx).
  split; [by apply wrap_range|]. exists x, rest. rewrite !zlen_app. split_and!; [done|unfold zlen; lia|lia].
Qed.

(** Three numbers of at least a byte each. *)
Lemma varints_at p l s : bytes l -> let lim := zlen p + zlen l in exists r,
  (q ← GetVarint32Ptr (p ++ l ++ s) (zlen p) lim;
   match q with
   | None => Some None
   | Some (p', a) =>
       q ← GetVarint32Ptr (p ++ l ++ s) p' lim;
       match q with
       | None => Some None
       | Some (p', b) =>
           q ← GetVarint32Ptr (p ++ l ++ s) p' lim;
           match q with None => Some None | Some (p', c) => Some (Some (p', a, b, c)) end
       end
   end) = Some r /\
  match r with None => True | Some (q, a, b, c) => in_u 32 a /\ in_u 32 b /\ in_u 32 c /\ zlen p + 3 <= q <= lim end.
Proof.
  intros Hl lim. unfold lim. destruct (varint32_at p l s Hl) as (r & -> & Hr). cbn [mbind option_bind].
  destruct r as [[q a]|]; [|by exists None]. destruct Hr as (Ha & x & l1 & -> & Hx & ->). unfold bytes in Hl. apply Forall_app in Hl as [_ Hl].
  replace (p ++ (x ++ l1) ++ s) with ((p ++ x) ++ l1 ++ s) by (by rewrite <- !app_assoc).
  replace (zlen p + zlen (x ++ l1)) with (zlen (p ++ x) + zlen l1) by (rewrite !zlen_app; lia).
  destruct (varint32_at (p ++ x) l1 s Hl) as (r & -> & Hr). cbn [mbind option_bind].
  destruct r as [[q b]|]; [|by exists None]. destruct Hr as (Hb & y & l2 & -> & Hy & ->). unfold bytes in Hl. apply Forall_app in Hl as [_ Hl].
  replace ((p ++ x) ++ (y ++ l2) ++ s) with (((p ++ x) ++ y) ++ l2 ++ s) by (by rewrite <- !app_assoc).
  replace (zlen (p ++ x) + zlen (y ++ l2)) with (zlen ((p ++ x) ++ y) + zlen l2) by (rewrite !zlen_app; lia).
  destruct (varint32_at ((p ++ x) ++ y) l2 s Hl) as (r & -> & Hr). cbn [mbind option_bind].
  destruct r as [[q c]|]; [|by exists None]. destruct Hr as (Hc & z & l3 & -> & Hz & ->). pose proof (zlen_nonneg l3).
  eexists. split; [done|]. split_and!; [done..|rewrite !zlen_app; lia|rewrite !zlen_app; lia].
Qed.

Lemma DecodeEntry_any p l s : bytes l -> zlen p + zlen l < 2 ^ 32 -> let lim := zlen p + zlen l in
  exists r, DecodeEntry (p ++ l ++ s) (zlen p) lim = Some r /\
  match r with
  | None => True
  | Some (q, a, b, c) => in_u 32 a /\ in_u 32 b /\ in_u 32 c /\ zlen p + 3 <= q <= lim /\ (b + c < 2 ^ 32 -> q + b + c <= lim)
  end.
Proof.
  intros Hl Hlt lim. unfold lim, DecodeEntry. pose proof (zlen_nonneg p). destruct (Z.ltb_spec (zlen p + zlen l - zlen p) 3); [by exists None|].
  destruct (varints_at p l s Hl) as (r & Er & Hr). rewrite Er.
  assert (exists x y z t, l = x :: y :: z :: t) as (x & y & z & t & El).
  { destruct l as [|x [|y [|z t]]]; [zlens; lia..|by exists x, y, z, t]. }
  pose proof Hl as Hb. rewrite El in Hb. inversion Hb as [|? ? Hx Hb1]; subst. inversion Hb1 as [|? ? Hy Hb2]; subst. inversion Hb2 as [|? ? Hz _]; subst.
  rewrite (znth_seg0 p (x :: y :: z :: t) s x), (znth_seg p (x :: y :: z :: t) s 1 y), (znth_seg p (x :: y :: z :: t) s 2 z) by done.
  cbn [mbind option_bind]. set (lm := zlen p + zlen (x :: y :: z :: t)) in *.
  assert (exists r', (if Z.lor (Z.lor x y) z <? 128 then Some (Some (zlen p + 3, x, y, z)) else Some r) = Some r' /\
    match r' with None => True | Some (q, a, b, c) => in_u 32 a /\ in_u 32 b /\ in_u 32 c /\ zlen p + 3 <= q <= lm end) as (r' & -> & Hr').
  { destruct (_ <? 128); [|by exists r]. eexists. split; [done|]. unfold is_byte, in_u in *. split_and!; lia. }
  cbn [mbind option_bind]. destruct r' as [[[[q a] b] c]|]; [|by exists None]. destruct Hr' as (Ha & Hb' & Hc & Hq).
  destruct (Z.ltb_spec (u32 (lm - q)) (u32 (b + c))) as [|Hle]; [by exists None|]. eexists. split; [done|]. split_and!; [done..|lia|lia|].
  intros Hs. unfold in_u in *. unfold u32 in Hle. rewrite !wrap_id in Hle by (unfold in_u; lia). lia.
Qed.

(** ** Lengths that add up past 32 bits *)

(** C40: the check of the lengths of an entry, and where it fails.  On any bytes
    before the limit [DecodeEntry] returns, and an entry it accepts whose two
    lengths add up to less than 2^32 ends before the limit.  But every entry whose
    lengths add up to 2^32 or more, by no more than the bytes [k] that are left,
    is accepted too, although it ends behind the limit; and an iterator that comes
    to it reads outside the block when its key is longer than the rest of the
    block. *)
Theorem block_length_wraps {P : Platform} (p s : list Z) :
  (forall l, bytes l -> let lim := zlen p + zlen l in lim < 2 ^ 32 ->
     exists r, DecodeEntry (p ++ l ++ s) (zlen p) lim = Some r /\
     match r with
     | None => True
     | Some (q, a, b, c) => zlen p + 3 <= q <= lim /\ (b + c < 2 ^ 32 -> q + b + c <= lim)
     end) /\
  (forall k a b c, bytes k -> in_u 32 a -> in_u 32 b -> in_u 32 c ->
     let l := varint a ++ varint b ++ varint c ++ k in
     let lim := zlen p + zlen l in
     lim < 2 ^ 32 -> 2 ^ 32 <= b + c <= 2 ^ 32 + zlen k ->
     DecodeEntry (p ++ l ++ s) (zlen p) lim = Some (Some (lim - zlen k, a, b, c)) /\ lim < lim - zlen k + b + c /\
     forall it st, bi_data_ it = p ++ l ++ s -> bi_restarts_ it = lim -> NextEntryOffset st = Some (zlen p) ->
       a <= zlen (key_ st) -> zlen k + zlen s < b -> ParseNextKey it st = None).
Proof.
  split.
  { intros l Hl lim Hlt. destruct (DecodeEntry_any p l s Hl Hlt) as (r & E & Hr). exists r. split; [done|].
    destruct r as [[[[q a] b] c]|]; [|done]. by destruct Hr as (_ & _ & _ & ? & ?). }
  intros k a b c Hk Ha Hb Hc l lim Hlim Hbc. pose proof (zlen_nonneg k). pose proof (zlen_nonneg p).
  pose proof (varint_pos a). pose proof (zlen_nonneg (varint b)). pose proof (zlen_nonneg (varint c)).
  assert (Hl : zlen l = zlen (varint a) + zlen (varint b) + zlen (varint c) + zlen k) by (unfold l; rewrite !zlen_app; lia).
  assert (E : DecodeEntry (p ++ l ++ s) (zlen p) lim = Some (Some (lim - zlen k, a, b, c))).
  { unfold l. rewrite (DecodeEntry_three p a b c k s lim) by done. unfold u32. rewrite (wrap_id 32 (zlen k)) by (unfold in_u; lia).
    unfold in_u in *. replace (wrap 32 (b + c)) with (b + c - 2 ^ 32) by (unfold wrap; rewrite <- (Z.mod_unique (b + c) (2 ^ 32) 1 (b + c - 2 ^ 32)); lia).
    by rewrite (proj2 (Z.ltb_ge (zlen k) (b + c - 2 ^ 32))) by lia. }
  split_and!; [done|lia|]. intros it st Hd Hr Hn Hkey Hout. unfold ParseNextKey. rewrite Hn, Hr, Hd. cbn [mbind option_bind].
  rewrite (proj2 (Z.leb_gt lim (zlen p))) by lia. rewrite E. cbn [mbind option_bind]. rewrite (proj2 (Z.ltb_ge (zlen (key_ st)) a)) by lia.
  destruct (rd (p ++ l ++ s) (lim - zlen k) b) as [x|] eqn:Erd; [|done]. apply rd_inv in Erd as (_ & _ & Hle & _). rewrite !zlen_app in Hle. lia.
Qed.

(** One entry that claims a key of 2^32-1 bytes and a value of one, in a block
    with one restart point. *)
Lemma block_length_wraps_witness :
  let it := mk_bi BytewiseComparator [0; 255; 255; 255; 255; 15; 1; 7; 0; 0; 0; 0; 1; 0; 0; 0] 8 1 in
  DecodeEntry (bi_data_ it) 0 8 = Some (Some (7, 0, 2 ^ 32 - 1, 1)) /\ BI_SeekToFirst (P:=be_host) it (mk_is 8 1 [] None OK) = None.
Proof.
  intros it. destruct (block_length_wraps (P:=be_host) [] [0; 0; 0; 0; 1; 0; 0; 0]) as [_ H].
  destruct (H [7] 0 (2 ^ 32 - 1) 1) as (H1 & _ & H2); [repeat constructor; by vm_compute|split; by vm_compute..|by vm_compute|split; by vm_compute|].
  split; [exact H1|].
  unfold BI_SeekToFirst.
  assert (SeekToRestartPoint (P:=be_host) it (mk_is 8 1 [] None OK) 0 = Some (mk_is 8 0 [] (Some (0, 0)) OK)) as -> by done.
  cbn [mbind option_bind]. rewrite H2; [done|done|done|done|by vm_compute|by vm_compute].
Defined.
