(* ===== verification/LdbBloom.v ===== *)
(** * leveldb: util/hash.cc, util/bloom.cc and filter_policy.h

    The hash, the interface of filter policies with what it demands of them, and
    the Bloom filter, which keeps the demand.  A key and a filter are the lists
    of their bytes; [None] is a read or a write outside them. *)

From Stdlib Require Import ZArith Lia Bool.
From stdpp Require Import base option list numbers.
From S2P Require Import Prelude LdbCoding.
Open Scope Z_scope.

(** ** The code *)
(** The constants of [Hash]. *)
Notation hash_m := 0xc6a4a793.
Notation hash_r := 24.

Section Code.
Context {P : Platform}.


Fixpoint Hash_loop (fuel : nat) (buf : list Z) (data limit h : Z) : option (Z * Z) :=
  if data + 4 <=? limit then
    match fuel with
    | O => None
    | S fuel =>
        w ← DecodeFixed32 buf data;
        let h := u32 (h + w) in
        let h := u32 (h * hash_m) in
        Hash_loop fuel buf (data + 4) limit (Z.lxor h (Z.shiftr h 16))
    end
  else Some (data, h).

(** Each case falls through to the next. *)
Definition Hash_tail (buf : list Z) (data limit h : Z) : option Z :=
  let rest := limit - data in
  h ← (if rest =? 3 then b ← znth buf (data + 2); Some (u32 (h + Z.shiftl b 16)) else Some h);
  h ← (if (rest =? 3) || (rest =? 2) then b ← znth buf (data + 1); Some (u32 (h + Z.shiftl b 8)) else Some h);
  if (rest =? 3) || (rest =? 2) || (rest =? 1) then
    b ← znth buf data;
    let h := u32 (h + b) in
    let h := u32 (h * hash_m) in
    Some (Z.lxor h (Z.shiftr h hash_r))
  else Some h.

Definition Hash (data : list Z) (seed : Z) : option Z :=
  let n := zlen data in
  let h := u32 (Z.lxor seed (u64 (n * hash_m))) in
  '(p, h) ← Hash_loop (length data) data 0 n h;
  Hash_tail data p n h.

(** [FilterPolicy]: the two functions that a filter block uses. *)
Record FilterPolicy := {
  CreateFilter : list (list Z) -> list Z -> option (list Z);
  KeyMayMatch : list Z -> list Z -> option bool
}.

(** *** BloomFilterPolicy *)
Definition BloomHash (key : list Z) : option Z := Hash key 0xbc9f1d34.

Record BloomFilterPolicy := mk_bloom { bits_per_key_ : Z; k_ : Z }.

(** [bits_per_key * 0.69] is computed in double precision.  Its integer part is
    that of the exact product unless [bits_per_key] is a multiple of 100, where
    both are cut to 30 or the product is 0.  A product of -1 or below cannot be
    converted to [size_t]. *)
Definition new_BloomFilterPolicy (bits_per_key : Z) : option BloomFilterPolicy :=
  let k := Z.quot (bits_per_key * 69) 100 in
  if k <? 0 then None
  else
    let k := if k <? 1 then 1 else k in
    let k := if 30 <? k then 30 else k in
    Some (mk_bloom (u64 bits_per_key) k).

(** [(h >> 17) | (h << 15)]. *)
Definition bloom_delta (h : Z) : Z := Z.lor (Z.shiftr h 17) (u32 (Z.shiftl h 15)).

(** [array] is [dst] from [init_size] on. *)
Fixpoint set_probes (j : nat) (dst : list Z) (init_size bits h delta : Z) : option (list Z) :=
  match j with
  | O => Some dst
  | S j =>
      let bitpos := u32 (h mod bits) in
      b ← znth dst (init_size + bitpos / 8);
      dst ← zset dst (init_size + bitpos / 8) (u8 (Z.lor b (Z.shiftl 1 (bitpos mod 8))));
      set_probes j dst init_size bits (u32 (h + delta)) delta
  end.
Fixpoint set_keys (k : Z) (keys : list (list Z)) (dst : list Z) (init_size bits : Z) : option (list Z) :=
  match keys with
  | [] => Some dst
  | key :: keys =>
      h ← BloomHash key;
      dst ← set_probes (Z.to_nat k) dst init_size bits h (bloom_delta h);
      set_keys k keys dst init_size bits
  end.
Definition Bloom_CreateFilter (p : BloomFilterPolicy) (keys : list (list Z)) (dst : list Z) : option (list Z) :=
  let n := zlen keys in
  let bits := u64 (n * bits_per_key_ p) in
  let bits := if bits <? 64 then 64 else bits in
  let bytes := u64 (bits + 7) / 8 in
  let bits := u64 (bytes * 8) in
  let init_size := zlen dst in
  let dst := dst ++ replicate (Z.to_nat bytes) 0 ++ [u8 (k_ p)] in
  set_keys (k_ p) keys dst init_size bits.

Fixpoint test_probes (j : nat) (array : list Z) (bits h delta : Z) : option bool :=
  match j with
  | O => Some true
  | S j =>
      let bitpos := u32 (h mod bits) in
      b ← znth array (bitpos / 8);
      if Z.land b (Z.shiftl 1 (bitpos mod 8)) =? 0 then Some false
      else test_probes j array bits (u32 (h + delta)) delta
  end.
(** The last byte is a [char] converted to [size_t]. *)
Definition Bloom_KeyMayMatch (key bloom_filter : list Z) : option bool :=
  let len := zlen bloom_filter in
  if len <? 2 then Some false
  else
    let bits := u64 ((len - 1) * 8) in
    c ← znth bloom_filter (len - 1);
    let k := u64 (i8 c) in
    if 30 <? k then Some true
    else
      h ← BloomHash key;
      test_probes (Z.to_nat k) bloom_filter bits h (bloom_delta h).

Definition NewBloomFilterPolicy (bits_per_key : Z) : option FilterPolicy :=
  p ← new_BloomFilterPolicy bits_per_key;
  Some {| CreateFilter := Bloom_CreateFilter p; KeyMayMatch := Bloom_KeyMayMatch |}.
End Code.

(** ** The interface *)

(** Keys that the callers can pass: their number is an [int]. *)
Definition keys_ok (keys : list (list Z)) : Prop := Forall bytes keys /\ zlen keys < 2 ^ 31.

(** What filter_policy.h demands: a filter is appended to [*dst], whatever that
    holds, and matches every key it was made from; a lookup in it returns.  Also
    in an empty slice, which filter_block.cc passes for a stretch without keys. *)
Class FilterPolicyLaws (fp : FilterPolicy) := {
  fp_create : forall keys, keys <> [] -> keys_ok keys -> exists f, bytes f /\
    (forall dst, CreateFilter fp keys dst = Some (dst ++ f)) /\ (forall k, k ∈ keys -> KeyMayMatch fp k f = Some true) /\
    (forall key, bytes key -> zlen f < 2 ^ 32 -> exists b, KeyMayMatch fp key f = Some b);
  fp_empty : forall key, bytes key -> exists b, KeyMayMatch fp key [] = Some b
}.

(** ** The Bloom filter keeps the laws *)
Section Facts.
Context {P : Platform}.

Lemma u32_range z : in_u 32 (u32 z).
Proof. apply wrap_range. lia. Qed.
Lemma lxor_shift_range h n : in_u 32 h -> 0 <= n -> in_u 32 (Z.lxor h (Z.shiftr h n)).
Proof.
  unfold in_u. intros Hh Hn. assert (Hs : 0 <= Z.shiftr h n <= h).
  { rewrite Z.shiftr_div_pow2 by done. pose proof (Z.pow_pos_nonneg 2 n). split; [apply Z.div_pos; lia|]. apply Z.div_le_upper_bound; nia. }
  split; [apply Z.lxor_nonneg; lia|]. destruct (Z.eq_dec (Z.lxor h (Z.shiftr h n)) 0) as [->|E]; [lia|].
  assert (0 <= Z.lxor h (Z.shiftr h n)) by (apply Z.lxor_nonneg; lia). apply Z.log2_lt_pow2; [lia|].
  assert (Hlog : forall x, 0 <= x <= h -> Z.log2 x < 32).
  { intros x Hx. destruct (Z.eq_dec x 0) as [->|]; [cbn; lia|]. apply Z.log2_lt_pow2; lia. }
  pose proof (Z.log2_lxor h (Z.shiftr h n) ltac:(lia) ltac:(lia)). pose proof (Hlog h ltac:(lia)). pose proof (Hlog (Z.shiftr h n) ltac:(lia)). lia.
Qed.

Lemma Hash_loop_ok fuel buf h : bytes buf -> in_u 32 h -> forall data, 0 <= data <= zlen buf -> zlen buf - data <= Z.of_nat fuel ->
  exists p h', Hash_loop fuel buf data (zlen buf) h = Some (p, h') /\ data <= p <= zlen buf /\ zlen buf - p < 4 /\ in_u 32 h'.
Proof.
  intros Hb. revert h. induction fuel as [|fuel IH]; intros h Hh data Hd Hf; cbn [Hash_loop]; (destruct (Z.leb_spec (data + 4) (zlen buf)); [|exists data, h; split_and!; done || lia]); [lia|].
  destruct (fixed_split buf data 4) as (p & y & s & -> & -> & Hy); [lia..|]. pose proof Hb as Hb'. unfold bytes in Hb'. rewrite !Forall_app in Hb'.
  rewrite DecodeFixed32_ok by (done || apply Hb'). cbn [mbind option_bind].
  destruct (IH (Z.lxor (u32 (u32 (h + le_dec y) * hash_m)) (Z.shiftr (u32 (u32 (h + le_dec y) * hash_m)) 16)) ltac:(apply lxor_shift_range; [apply u32_range|lia]) (zlen p + 4)) as (q & h' & E & Hq & Hr & Hh');
    [lia..|]. exists q, h'. split_and!; done || lia.
Qed.
Lemma Hash_tail_ok buf data h : 0 <= data <= zlen buf -> in_u 32 h -> exists h', Hash_tail buf data (zlen buf) h = Some h' /\ in_u 32 h'.
Proof.
  intros Hd Hh. unfold Hash_tail.
  destruct (Z.eqb_spec (zlen buf - data) 3); [|destruct (Z.eqb_spec (zlen buf - data) 2); [|destruct (Z.eqb_spec (zlen buf - data) 1)]]; cbn [orb mbind option_bind]; [..|by exists h];
    repeat match goal with |- context [znth buf ?i] => let b := fresh "b" in let E := fresh "E" in destruct (znth_is_Some buf i ltac:(lia)) as [b E]; rewrite E; cbn [mbind option_bind] end;
    (eexists; split; [done|apply lxor_shift_range; [apply u32_range|lia]]).
Qed.
Lemma Hash_ok key seed : bytes key -> exists h, Hash key seed = Some h /\ in_u 32 h.
Proof.
  intros Hb. unfold Hash. pose proof (zlen_nonneg key).
  destruct (Hash_loop_ok (length key) key (u32 (Z.lxor seed (u64 (zlen key * hash_m)))) Hb (u32_range _) 0) as (p & h & -> & Hp & _ & Hh); [lia|unfold zlen; lia|].
  cbn [mbind option_bind]. apply Hash_tail_ok; [lia|done].
Qed.

(** Bit [i] of an array of bytes. *)
Definition has_bit (a : list Z) (i : Z) : Prop := exists b, znth a (i / 8) = Some b /\ Z.testbit b (i mod 8) = true.
Fixpoint probes (j : nat) (bits h delta : Z) : list Z :=
  match j with O => [] | S j => h mod bits :: probes j bits (u32 (h + delta)) delta end.

Lemma lor_bit_byte b i : is_byte b -> 0 <= i < 8 -> u8 (Z.lor b (Z.shiftl 1 i)) = Z.lor b (Z.shiftl 1 i) /\ is_byte (Z.lor b (Z.shiftl 1 i)).
Proof.
  unfold is_byte. intros Hb Hi. assert (0 <= Z.lor b (Z.shiftl 1 i) < 2 ^ 8) as H; [|split; [apply wrap_id; exact H|pow2s; lia]].
  assert (Hs : 0 < Z.shiftl 1 i < 2 ^ 8). { rewrite Z.shiftl_1_l. split; [apply Z.pow_pos_nonneg; lia|apply Z.pow_lt_mono_r; lia]. }
  assert (Hn : 0 <= Z.lor b (Z.shiftl 1 i)) by (apply Z.lor_nonneg; lia). split; [done|].
  destruct (Z.eq_dec (Z.lor b (Z.shiftl 1 i)) 0); [lia|]. apply Z.log2_lt_pow2; [lia|]. rewrite Z.log2_lor by lia.
  assert (Hlog : forall x, 0 <= x < 2 ^ 8 -> Z.log2 x < 8).
  { intros x Hx. destruct (Z.eq_dec x 0) as [->|]; [cbn; lia|]. apply Z.log2_lt_pow2; lia. }
  pose proof (Hlog b ltac:(pow2s; lia)). pose proof (Hlog (Z.shiftl 1 i) ltac:(lia)). lia.
Qed.
Lemma land_bit b i : 0 <= i -> (Z.land b (Z.shiftl 1 i) =? 0) = negb (Z.testbit b i).
Proof.
  intros Hi. rewrite Z.shiftl_1_l. destruct (Z.testbit b i) eqn:E; cbn [negb].
  - apply Z.eqb_neq. intros H. apply (f_equal (fun z => Z.testbit z i)) in H. rewrite Z.land_spec, E, Z.pow2_bits_true, Z.bits_0 in H by done. done.
  - apply Z.eqb_eq. apply Z.bits_inj'. intros n Hn. rewrite Z.land_spec, Z.bits_0, Z.pow2_bits_eqb by done. destruct (Z.eqb_spec i n); [subst; by rewrite E|apply andb_false_r].
Qed.

(** One key: the array grows, wherever it lies, and has the bits of all the
    probes. *)
Lemma set_probes_ok j bits delta : forall a h, bytes a -> in_u 32 h -> bits = 8 * zlen a -> 0 < bits ->
  exists a', (forall d0 tail, set_probes j (d0 ++ a ++ tail) (zlen d0) bits h delta = Some (d0 ++ a' ++ tail)) /\ bytes a' /\ zlen a' = zlen a /\
    (forall i, has_bit a i -> has_bit a' i) /\ Forall (has_bit a') (probes j bits h delta).
Proof.
  induction j as [|j IH]; intros a h Ha Hh Hbits Hpos; cbn [set_probes probes]; [exists a; by split_and!|].
  set (i := h mod bits). pose proof (Z.mod_pos_bound h bits Hpos) as Hi. fold i in Hi.
  assert (Hu : u32 i = i). { apply wrap_id. unfold in_u in *. pose proof (Z.mod_le h bits ltac:(lia) Hpos). fold i in H. lia. }
  assert (Hq : 0 <= i / 8 < zlen a) by (split; [apply Z.div_pos; lia|apply Z.div_lt_upper_bound; lia]).
  destruct (znth_is_Some a (i / 8) Hq) as [b Eb]. pose proof (Z.mod_pos_bound i 8 ltac:(lia)) as Hm. assert (Hb : is_byte b).
  { unfold bytes in Ha. rewrite list.Forall_forall in Ha. apply Ha. rewrite znth_nat in Eb by lia. by eapply list_elem_of_lookup_2. }
  destruct (lor_bit_byte b (i mod 8) Hb Hm) as [Hlor Hb']. set (b' := Z.lor b (Z.shiftl 1 (i mod 8))) in *. set (a1 := <[Z.to_nat (i / 8) := b']> a).
  assert (Hz1 : zlen a1 = zlen a) by apply zlen_insert.
  destruct (IH a1 (u32 (h + delta))) as (a' & E & H1 & H2 & H3 & H4); [by apply Forall_insert|apply u32_range|by rewrite Hz1|done|].
  assert (Hmono : forall n, has_bit a n -> has_bit a1 n).
  { intros n (c & Hc & Ht). unfold has_bit, a1. rewrite znth_insert by done. destruct (Z.eqb_spec (n / 8) (i / 8)) as [En|]; [|by exists c].
    exists b'. split; [done|]. rewrite En, Eb in Hc. injection Hc as <-. unfold b'. by rewrite Z.lor_spec, Ht. }
  exists a'. split_and!; [|done|lia| |].
  - intros d0 tail. rewrite Hu, (znth_seg d0 a tail _ b Eb). cbn [mbind option_bind]. fold b'. rewrite Hlor, zset_Some by (rewrite !zlen_app; pose proof (zlen_nonneg d0); pose proof (zlen_nonneg tail); lia).
    cbn [mbind option_bind]. rewrite <- E. f_equal. rewrite Z2Nat.inj_add, to_nat_zlen by (apply zlen_nonneg || lia). rewrite insert_app_r. f_equal.
    apply insert_app_l. unfold zlen in Hq. lia.
  - intros n Hn. by apply H3, Hmono.
  - constructor; [|done]. apply H3. exists b'. unfold a1. rewrite znth_insert, Z.eqb_refl by done. split; [done|]. unfold b'.
    rewrite Z.lor_spec, Z.shiftl_1_l, Z.pow2_bits_true by lia. apply orb_true_r.
Qed.

Lemma test_probes_ok a tail bits delta j : forall h, bits = 8 * zlen a -> 0 < bits -> in_u 32 h -> Forall (has_bit a) (probes j bits h delta) ->
  test_probes j (a ++ tail) bits h delta = Some true.
Proof.
  induction j as [|j IH]; intros h Hbits Hpos Hh Hp; cbn [test_probes]; [done|]. cbn [probes] in Hp. apply list.Forall_cons in Hp as [(b & Eb & Ht) Hp].
  set (i := h mod bits) in *. assert (Hu : u32 i = i).
  { apply wrap_id. unfold in_u in *. pose proof (Z.mod_le h bits ltac:(lia) Hpos). pose proof (Z.mod_pos_bound h bits Hpos). fold i in H, H0. lia. }
  rewrite Hu. assert (znth (a ++ tail) (i / 8) = Some b) as ->.
  { pose proof (znth_range _ _ _ Eb). rewrite znth_nat in * by lia. rewrite lookup_app_l; [done|by eapply lookup_lt_Some]. }
  cbn [mbind option_bind]. pose proof (Z.mod_pos_bound i 8). rewrite land_bit, Ht by lia. cbn [negb]. by apply IH; [..|apply u32_range|].
Qed.

Lemma test_probes_total a bits delta j : forall h, bits = 8 * (zlen a - 1) -> 0 < bits < 2 ^ 64 -> in_u 32 h -> exists b, test_probes j a bits h delta = Some b.
Proof.
  induction j as [|j IH]; intros h Hbits Hpos Hh; cbn [test_probes]; [by exists true|].
  set (i := h mod bits) in *. assert (Hi : u32 i = i /\ 0 <= i < bits).
  { pose proof (Z.mod_le h bits ltac:(unfold in_u in Hh; lia) ltac:(lia)) as H. pose proof (Z.mod_pos_bound h bits ltac:(lia)) as H0. fold i in H, H0. split; [|done]. apply wrap_id. unfold in_u in *. lia. }
  destruct Hi as [-> Hi]. destruct (znth_is_Some a (i / 8)) as [b ->]; [split; [apply Z.div_pos; lia|apply Z.div_lt_upper_bound; lia]|].
  cbn [mbind option_bind]. destruct (_ =? 0); [by exists false|]. by apply IH; [..|apply u32_range].
Qed.

(** All the probes of a key are in the array. *)
Definition covers (k bits : Z) (a key : list Z) : Prop :=
  exists h, BloomHash key = Some h /\ in_u 32 h /\ Forall (has_bit a) (probes (Z.to_nat k) bits h (bloom_delta h)).
Lemma set_keys_ok k bits keys : forall a, Forall bytes keys -> bytes a -> bits = 8 * zlen a -> 0 < bits ->
  exists a', bytes a' /\ zlen a' = zlen a /\ (forall d0 tail, set_keys k keys (d0 ++ a ++ tail) (zlen d0) bits = Some (d0 ++ a' ++ tail)) /\
    (forall i, has_bit a i -> has_bit a' i) /\ Forall (covers k bits a') keys.
Proof.
  induction keys as [|key keys IH]; intros a Hk Ha Hbits Hpos; cbn [set_keys]; [exists a; by split_and!|].
  apply list.Forall_cons in Hk as [Hkey Hk]. destruct (Hash_ok key 0xbc9f1d34 Hkey) as (h & Eh & Hh).
  destruct (set_probes_ok (Z.to_nat k) bits (bloom_delta h) a h Ha Hh Hbits Hpos) as (a1 & E & H1 & H2 & H3 & H4).
  destruct (IH a1 Hk H1 ltac:(lia) Hpos) as (a' & G1 & G2 & G3 & G4 & G5). exists a'. split_and!; [done|lia| | |].
  - intros d0 tail. unfold BloomHash. rewrite Eh. cbn [mbind option_bind]. rewrite E. apply G3.
  - intros i Hi. by apply G4, H3.
  - constructor; [|done]. exists h. split_and!; [done|done|]. eapply list.Forall_impl; [exact H4|]. exact G4.
Qed.

Lemma bloom_create p keys : 0 <= bits_per_key_ p < 2 ^ 31 -> 1 <= k_ p <= 30 -> keys_ok keys -> exists f, bytes f /\
  zlen f = (Z.max 64 (zlen keys * bits_per_key_ p) + 7) / 8 + 1 /\
  (forall dst, Bloom_CreateFilter p keys dst = Some (dst ++ f)) /\ forall key, key ∈ keys -> Bloom_KeyMayMatch key f = Some true.
Proof.
  intros Hb Hk [Hkeys Hn]. pose proof (zlen_nonneg keys). assert (Hprod : 0 <= zlen keys * bits_per_key_ p < 2 ^ 62).
  { change (2 ^ 62) with (2 ^ 31 * 2 ^ 31). nia. }
  set (bits0 := if zlen keys * bits_per_key_ p <? 64 then 64 else zlen keys * bits_per_key_ p).
  assert (H0 : 64 <= bits0 < 2 ^ 62) by (unfold bits0; destruct (Z.ltb_spec (zlen keys * bits_per_key_ p) 64); pow2s; lia).
  set (n := (bits0 + 7) / 8). assert (Hn8 : 8 <= n < 2 ^ 60) by (split; [apply Z.div_le_lower_bound; lia|apply Z.div_lt_upper_bound; pow2s; lia]).
  destruct (set_keys_ok (k_ p) (8 * n) keys (replicate (Z.to_nat n) 0) Hkeys) as (a & Ha & Hz & Hset & _ & Hcov).
  { apply Forall_replicate. unfold is_byte. lia. } { rewrite zlen_replicate. lia. } { lia. }
  rewrite zlen_replicate, Z2Nat.id in Hz by lia. assert (Hk8 : u8 (k_ p) = k_ p) by (apply wrap_id; unfold in_u; pow2s; lia).
  exists (a ++ [k_ p]). split_and!.
  - apply Forall_app. split; [done|]. constructor; [unfold is_byte; lia|constructor].
  - rewrite zlen_app, Hz. change (zlen [k_ p]) with 1. unfold n, bits0. destruct (Z.ltb_spec (zlen keys * bits_per_key_ p) 64); [by rewrite Z.max_l by lia|by rewrite Z.max_r by lia].
  - intros dst. unfold Bloom_CreateFilter, u64. cbv zeta. rewrite (wrap_id 64 (zlen keys * _)) by (unfold in_u; pow2s; lia). fold bits0.
    rewrite (wrap_id 64 (bits0 + 7)) by (unfold in_u; pow2s; lia). fold n. rewrite (wrap_id 64 (n * 8)) by (unfold in_u; pow2s; lia).
    rewrite Hk8, Z.mul_comm. apply Hset.
  - intros key Hin. rewrite list.Forall_forall in Hcov. destruct (Hcov key Hin) as (h & Eh & Hh & Hp). unfold Bloom_KeyMayMatch. rewrite zlen_app, Hz. change (zlen [k_ p]) with 1.
    rewrite (proj2 (Z.ltb_ge _ _)) by lia. replace (n + 1 - 1) with (zlen a) by lia. rewrite znth_middle. cbn [mbind option_bind].
    assert (u64 (i8 (k_ p)) = k_ p) as ->.
    { unfold u64, i8. rewrite swrap_id by (unfold in_s; pow2s; lia). apply wrap_id. unfold in_u. pow2s. lia. }
    rewrite (proj2 (Z.ltb_ge _ _)), Eh by lia. cbn [mbind option_bind]. unfold u64. rewrite wrap_id by (unfold in_u; pow2s; lia). rewrite Hz, (Z.mul_comm n 8).
    apply test_probes_ok; [lia|lia|done|done].
Qed.
Lemma bloom_total key f : bytes key -> bytes f -> zlen f < 2 ^ 32 -> exists b, Bloom_KeyMayMatch key f = Some b.
Proof.
  intros Hkey Hf Hl. unfold Bloom_KeyMayMatch. destruct (Z.ltb_spec (zlen f) 2); [by exists false|].
  destruct (znth_is_Some f (zlen f - 1) ltac:(lia)) as [c ->]. cbn [mbind option_bind]. destruct (30 <? _); [by exists true|].
  destruct (Hash_ok key 0xbc9f1d34 Hkey) as (h & Eh & Hh). unfold BloomHash. rewrite Eh. cbn [mbind option_bind].
  unfold u64 at 2. rewrite wrap_id by (unfold in_u; pow2s; lia). apply test_probes_total; [lia|pow2s; lia|done].
Qed.

(** The policy for a sensible number of bits. *)
Lemma new_bloom_ok bits_per_key : 0 <= bits_per_key < 2 ^ 31 -> exists p, new_BloomFilterPolicy bits_per_key = Some p /\ bits_per_key_ p = bits_per_key /\ 1 <= k_ p <= 30.
Proof.
  intros Hb. unfold new_BloomFilterPolicy. pose proof (Z.quot_pos (bits_per_key * 69) 100 ltac:(lia) ltac:(lia)). rewrite (proj2 (Z.ltb_ge _ 0)) by lia.
  eexists. split_and!; [done|apply wrap_id; unfold in_u; pow2s; lia|..]; cbn [k_]; repeat match goal with |- context [if ?a <? ?b then _ else _] => destruct (Z.ltb_spec a b) end; lia.
Qed.
Lemma bloom_laws bits_per_key fp : 0 <= bits_per_key < 2 ^ 31 -> NewBloomFilterPolicy bits_per_key = Some fp -> FilterPolicyLaws fp.
Proof.
  intros Hb H. destruct (new_bloom_ok bits_per_key Hb) as (p & E & Hp & Hk). unfold NewBloomFilterPolicy in H. rewrite E in H. cbn [mbind option_bind] in H. injection H as <-.
  split; cbn [CreateFilter KeyMayMatch]; [|intros key Hkey; apply bloom_total; [done|constructor|done]]. intros keys _ Hok. destruct (bloom_create p keys) as (f & Hf & _ & Hc & Hm); [lia|done|done|].
  exists f. split_and!; [done..|]. intros key Hkey Hl. by apply bloom_total.
Qed.
End Facts.

(** C28: a Bloom filter has no false negatives.  For every number of bits per key
    and every list of keys the filter is appended to whatever [*dst] holds, has
    the promised size (at least 64 bits, and a byte for the number of probes),
    and matches every one of the keys; and a lookup of any key in any filter
    returns, without a read outside the filter. *)
Theorem bloom_no_false_negatives {P : Platform} (bits_per_key : Z) (keys : list (list Z)) :
  0 <= bits_per_key < 2 ^ 31 -> keys_ok keys ->
  exists fp f, NewBloomFilterPolicy bits_per_key = Some fp /\ (forall dst, CreateFilter fp keys dst = Some (dst ++ f)) /\
    zlen f = (Z.max 64 (zlen keys * bits_per_key) + 7) / 8 + 1 /\
    (forall key, key ∈ keys -> KeyMayMatch fp key f = Some true) /\
    (forall key g, bytes key -> bytes g -> zlen g < 2 ^ 32 -> exists m, KeyMayMatch fp key g = Some m).
Proof.
  intros Hb Hok. destruct (new_bloom_ok bits_per_key Hb) as (p & E & Hp & Hk). destruct (bloom_create p keys) as (f & Hf & Hz & Hc & Hm); [lia|done|done|].
  eexists _, f. split_and!; [unfold NewBloomFilterPolicy; by rewrite E|exact Hc|by rewrite Hz, Hp|exact Hm|exact bloom_total].
Qed.

Lemma bloom_no_false_negatives_witness :
  exists fp f, NewBloomFilterPolicy (P := be_host) 10 = Some fp /\ (forall dst, CreateFilter fp [[1; 2; 3]; [255; 0; 7; 9; 200]] dst = Some (dst ++ f)) /\
    zlen f = 9 /\ (forall key, key ∈ [[1; 2; 3]; [255; 0; 7; 9; 200]] -> KeyMayMatch fp key f = Some true) /\
    (forall key g, bytes key -> bytes g -> zlen g < 2 ^ 32 -> exists m, KeyMayMatch fp key g = Some m).
Proof.
  apply (bloom_no_false_negatives (P := be_host) 10 [[1; 2; 3]; [255; 0; 7; 9; 200]]).
  - lia.
  - split; [repeat constructor; by vm_compute|by vm_compute].
Defined.
