(* ===== verification/LdbFilter.v ===== *)
(** * leveldb: table/filter_block.cc

    The filters of a table file, one for the blocks that start in each 2 KB of
    it.  The builder and the reader are for any filter policy; the theorem uses
    only what the interface [FilterPolicyLaws] demands.  [None] is a failed
    [assert], a shift by 64 or more, or a read outside the block. *)

From Stdlib Require Import ZArith Lia Bool.
From stdpp Require Import base option list numbers sorting.
From S2P Require Import Prelude LdbCoding LdbBloom.
Open Scope Z_scope.

(** ** The code *)
Definition kFilterBaseLg : Z := 11.
Definition kFilterBase : Z := Z.shiftl 1 kFilterBaseLg.

(** [tmp_keys_] is empty between calls. *)
Record FilterBlockBuilder := mk_fb {
  fb_keys_ : list Z;
  fb_start_ : list Z;
  fb_result_ : list Z;
  fb_offsets_ : list Z
}.
Definition new_FilterBlockBuilder : FilterBlockBuilder := mk_fb [] [] [] [].

Section Code.
Context {P : Platform}.

Fixpoint collect_keys (n : nat) (keys start : list Z) (i : Z) : option (list (list Z)) :=
  match n with
  | O => Some []
  | S n =>
      base ← znth start i;
      next ← znth start (i + 1);
      k ← rd keys base (next - base);
      ks ← collect_keys n keys start (i + 1);
      Some (k :: ks)
  end.
Definition GenerateFilter (fp : FilterPolicy) (b : FilterBlockBuilder) : option FilterBlockBuilder :=
  let num_keys := length (fb_start_ b) in
  let offsets := fb_offsets_ b ++ [u32 (zlen (fb_result_ b))] in
  if (num_keys =? 0)%nat then Some (mk_fb (fb_keys_ b) (fb_start_ b) (fb_result_ b) offsets)
  else
    let start := fb_start_ b ++ [zlen (fb_keys_ b)] in
    tmp_keys ← collect_keys num_keys (fb_keys_ b) start 0;
    result ← CreateFilter fp tmp_keys (fb_result_ b);
    Some (mk_fb [] [] result offsets).

Fixpoint start_loop (n : nat) (fp : FilterPolicy) (b : FilterBlockBuilder) : option FilterBlockBuilder :=
  match n with O => Some b | S n => b ← GenerateFilter fp b; start_loop n fp b end.
(** Each turn adds an offset, so the loop runs once for each that is missing. *)
Definition StartBlock (fp : FilterPolicy) (b : FilterBlockBuilder) (block_offset : Z) : option FilterBlockBuilder :=
  let filter_index := block_offset / kFilterBase in
  if negb (zlen (fb_offsets_ b) <=? filter_index) then None
  else start_loop (Z.to_nat (filter_index - zlen (fb_offsets_ b))) fp b.

Definition AddKey (b : FilterBlockBuilder) (key : list Z) : FilterBlockBuilder :=
  mk_fb (fb_keys_ b ++ key) (fb_start_ b ++ [zlen (fb_keys_ b)]) (fb_result_ b) (fb_offsets_ b).

Fixpoint put_offsets (result offsets : list Z) : option (list Z) :=
  match offsets with [] => Some result | o :: offsets => result ← PutFixed32 result o; put_offsets result offsets end.
Definition FilterBlock_Finish (fp : FilterPolicy) (b : FilterBlockBuilder) : option (list Z) :=
  b ← (if negb (length (fb_start_ b) =? 0)%nat then GenerateFilter fp b else Some b);
  let array_offset := u32 (zlen (fb_result_ b)) in
  result ← put_offsets (fb_result_ b) (fb_offsets_ b);
  result ← PutFixed32 result array_offset;
  Some (result ++ [u8 kFilterBaseLg]).

(** [offset_] is an offset from [data_]; both are null when [fr_data_] is
    [None]. *)
Record FilterBlockReader := mk_fr { fr_data_ : option (list Z * Z); fr_num_ : Z; fr_base_lg_ : Z }.

Definition new_FilterBlockReader (contents : list Z) : option FilterBlockReader :=
  let n := zlen contents in
  if n <? 5 then Some (mk_fr None 0 0)
  else
    c ← znth contents (n - 1);
    let base_lg := u64 (i8 c) in
    last_word ← DecodeFixed32 contents (n - 5);
    if n - 5 <? last_word then Some (mk_fr None 0 base_lg)
    else Some (mk_fr (Some (contents, last_word)) ((n - 5 - last_word) / 4) base_lg).

Definition Filter_KeyMayMatch (fp : FilterPolicy) (r : FilterBlockReader) (block_offset : Z) (key : list Z) : option bool :=
  if negb (fr_base_lg_ r <? 64) then None
  else
    let index := Z.shiftr block_offset (fr_base_lg_ r) in
    if index <? fr_num_ r then
      '(data, offset) ← fr_data_ r;
      start ← DecodeFixed32 data (offset + index * 4);
      limit ← DecodeFixed32 data (offset + index * 4 + 4);
      if (start <=? limit) && (limit <=? offset) then
        filter ← rd data start (limit - start);
        KeyMayMatch fp key filter
      else if start =? limit then Some false
      else Some true
    else Some true.
End Code.

(** ** Building the filters *)

(** The blocks of a table: where each starts, and its keys. *)
Notation fblock := (prod Z (list (list Z))).
(** The keys of the blocks that start in the [i]th stretch of the file. *)
Definition index_keys (bs : list fblock) (i : Z) : list (list Z) := concat (map (fun b => if b.1 / kFilterBase =? i then b.2 else []) bs).

Section Facts.
Context {P : Platform} (fp : FilterPolicy) {FL : FilterPolicyLaws fp}.

Definition add_block (b : FilterBlockBuilder) (blk : fblock) : option FilterBlockBuilder :=
  b ← StartBlock fp b blk.1; Some (foldl AddKey b blk.2).
Fixpoint add_blocks (b : FilterBlockBuilder) (bs : list fblock) : option FilterBlockBuilder :=
  match bs with [] => Some b | blk :: bs => b ← add_block b blk; add_blocks b bs end.

(** [f] is the filter of [ks]; there is none when there are no keys. *)
Definition filter_of (ks : list (list Z)) (f : list Z) : Prop :=
  match ks with [] => f = [] | _ => bytes f /\ (forall dst, CreateFilter fp ks dst = Some (dst ++ f)) /\ (forall k, k ∈ ks -> KeyMayMatch fp k f = Some true) /\
    forall key, bytes key -> zlen f < 2 ^ 32 -> exists b, KeyMayMatch fp key f = Some b end.

Definition sums {A} (l : list (list A)) : list Z := map (fun i => zlen (concat (take i l))) (seq 0 (length l)).
Lemma sums_snoc {A} (l : list (list A)) x : sums (l ++ [x]) = sums l ++ [zlen (concat l)].
Proof.
  unfold sums. rewrite length_app. cbn [length]. rewrite seq_app, map_app. cbn [seq map Nat.add]. f_equal.
  - apply map_ext_in. intros i [_ Hi]%in_seq. by rewrite take_app_le by lia.
  - by rewrite take_app_length.
Qed.
Lemma sums_length {A} (l : list (list A)) : length (sums l) = length l.
Proof. unfold sums. by rewrite length_map, length_seq. Qed.
Lemma sums_lookup {A} (l : list (list A)) i : (i < length l)%nat -> sums l !! i = Some (zlen (concat (take i l))).
Proof. intros H. unfold sums. change (map ?f ?k) with (f <$> k). rewrite list_lookup_fmap, lookup_seq_lt by done. done. Qed.

(** The filters [fs] are done and the keys [ps] wait for the next. *)
Definition fb_of (fs ps : list (list Z)) : FilterBlockBuilder := mk_fb (concat ps) (sums ps) (concat fs) (map u32 (sums fs)).

Lemma AddKey_ok fs ps key : AddKey (fb_of fs ps) key = fb_of fs (ps ++ [key]).
Proof. unfold AddKey, fb_of. cbn [fb_keys_ fb_start_ fb_result_ fb_offsets_]. rewrite sums_snoc, concat_app. cbn [concat]. by rewrite app_nil_r. Qed.
Lemma AddKeys_ok fs ks : forall ps, foldl AddKey (fb_of fs ps) ks = fb_of fs (ps ++ ks).
Proof. induction ks as [|k ks IH]; intros ps; cbn [foldl]; [by rewrite app_nil_r|]. by rewrite AddKey_ok, IH, <- app_assoc. Qed.

Lemma collect_ok ps : forall n done, done ++ drop (length done) ps = ps -> (length done + n = length ps)%nat ->
  collect_keys n (concat ps) (sums ps ++ [zlen (concat ps)]) (Z.of_nat (length done)) = Some (drop (length done) ps).
Proof.
  assert (Hall : forall i, (i <= length ps)%nat -> znth (sums ps ++ [zlen (concat ps)]) (Z.of_nat i) = Some (zlen (concat (take i ps)))).
  { intros i Hi. rewrite znth_nat, Nat2Z.id by lia. destruct (decide (i = length ps)) as [->|].
    - rewrite lookup_app_r, sums_length, Nat.sub_diag, firstn_all by (rewrite sums_length; lia). done.
    - rewrite lookup_app_l by (rewrite sums_length; lia). apply sums_lookup. lia. }
  induction n as [|n IH]; intros done Hd Hn; cbn [collect_keys]; [by rewrite drop_ge by lia|].
  set (i := length done) in *. destruct (lookup_lt_is_Some_2 ps i ltac:(lia)) as [x Hx].
  rewrite Hall by lia. cbn [mbind option_bind]. replace (Z.of_nat i + 1) with (Z.of_nat (S i)) by lia. rewrite Hall by lia. cbn [mbind option_bind].
  rewrite (take_S_r _ _ _ Hx), concat_app, zlen_app. cbn [concat]. rewrite app_nil_r.
  assert (rd (concat ps) (zlen (concat (take i ps))) (zlen (concat (take i ps)) + zlen x - zlen (concat (take i ps))) = Some x) as ->.
  { rewrite <- (take_drop_middle _ _ _ Hx) at 1. rewrite concat_app. cbn [concat]. apply rd_seg; [done|lia]. }
  cbn [mbind option_bind]. specialize (IH (done ++ [x])). rewrite length_app in IH. cbn [length] in IH. rewrite Nat.add_1_r in IH. fold i in IH. rewrite IH; [|..].
  - cbn [mbind option_bind]. by rewrite (drop_S _ _ _ Hx).
  - rewrite <- app_assoc. cbn [app]. rewrite <- (drop_S _ _ _ Hx). exact Hd.
  - lia.
Qed.
Lemma GenerateFilter_ok fs ps : keys_ok ps -> exists f, GenerateFilter fp (fb_of fs ps) = Some (fb_of (fs ++ [f]) []) /\ filter_of ps f.
Proof.
  intros Hok. unfold GenerateFilter, fb_of. cbn [fb_keys_ fb_start_ fb_result_ fb_offsets_]. rewrite sums_length. setoid_rewrite sums_snoc. setoid_rewrite map_app. cbn [map].
  destruct ps as [|p ps]; [exists []; rewrite concat_app; cbn; by rewrite app_nil_r|]. destruct (fp_create (p :: ps) ltac:(done) Hok) as (f & Hf & Hc & Hk & Ht).
  exists f. split; [|by split_and!]. pose proof (collect_ok (p :: ps) (length (p :: ps)) [] eq_refl eq_refl) as E. cbn [length] in E |- *. cbn [Nat.eqb].
  change (Z.of_nat 0) with 0 in E. rewrite E. cbn [mbind option_bind]. rewrite drop_0, Hc. cbn [mbind option_bind]. rewrite concat_app. cbn [concat]. by rewrite app_nil_r.
Qed.

Lemma index_keys_app bs cs i : index_keys (bs ++ cs) i = index_keys bs i ++ index_keys cs i.
Proof. unfold index_keys. by rewrite map_app, concat_app. Qed.
Lemma index_keys_ok bs i : keys_ok (concat (map snd bs)) -> keys_ok (index_keys bs i).
Proof.
  intros [H1 H2]. enough (Forall bytes (index_keys bs i) /\ zlen (index_keys bs i) <= zlen (concat (map snd bs))) as [? ?] by (split; [done|lia]). clear H2.
  induction bs as [|b bs IH]; [done|]. unfold index_keys in *. cbn [map concat] in *. rewrite Forall_app in H1. destruct H1 as [Hb Hbs]. specialize (IH Hbs) as [? ?].
  rewrite Forall_app, !zlen_app. pose proof (zlen_nonneg b.2). destruct (_ =? i); split; try (split; [|done]); try done; rewrite ?zlen_nil; lia.
Qed.

(** The builder after the blocks [bs]. *)
Record fb_inv (bs : list fblock) (fs ps : list (list Z)) : Prop := {
  fi_keys : ps = index_keys bs (zlen fs);
  fi_filters : forall i f, fs !! i = Some f -> filter_of (index_keys bs (Z.of_nat i)) f;
  fi_last : Forall (fun b : fblock => b.1 / kFilterBase <= zlen fs) bs
}.

Lemma no_keys_past bs i : Forall (fun b : fblock => b.1 / kFilterBase < i) bs -> index_keys bs i = [].
Proof. induction 1 as [|b bs Hb _ IH]; [done|]. unfold index_keys in *. cbn [map concat]. rewrite IH, (proj2 (Z.eqb_neq _ _)) by lia. done. Qed.
Lemma generate_inv bs fs ps : keys_ok (concat (map snd bs)) -> fb_inv bs fs ps -> exists f, GenerateFilter fp (fb_of fs ps) = Some (fb_of (fs ++ [f]) []) /\ fb_inv bs (fs ++ [f]) [].
Proof.
  intros Hok [Hk Hf Hl]. destruct (GenerateFilter_ok fs ps) as (f & E & HF); [rewrite Hk; by apply index_keys_ok|]. exists f. split; [done|]. split.
  - symmetry. apply no_keys_past. eapply list.Forall_impl; [exact Hl|]. intros b Hb. rewrite zlen_app. change (zlen [f]) with 1. cbn in Hb. lia.
  - intros i g Hi. destruct (decide (i < length fs)%nat) as [Hlt|].
    + rewrite lookup_app_l in Hi by done. by apply Hf.
    + pose proof (lookup_lt_Some _ _ _ Hi) as Hlen. rewrite length_app in Hlen. cbn in Hlen. assert (i = length fs) as -> by lia.
      rewrite lookup_app_r, Nat.sub_diag in Hi by lia. injection Hi as <-. by rewrite Hk in HF.
  - eapply list.Forall_impl; [exact Hl|]. intros b Hb. rewrite zlen_app. change (zlen [f]) with 1. cbn in Hb |- *. lia.
Qed.
Lemma start_loop_inv bs n : keys_ok (concat (map snd bs)) -> forall fs ps, fb_inv bs fs ps ->
  exists fs' ps', start_loop n fp (fb_of fs ps) = Some (fb_of fs' ps') /\ fb_inv bs fs' ps' /\ zlen fs' = zlen fs + Z.of_nat n.
Proof.
  intros Hok. induction n as [|n IH]; intros fs ps Hi; cbn [start_loop]; [exists fs, ps; split_and!; done || lia|].
  destruct (generate_inv bs fs ps Hok Hi) as (f & -> & Hi'). cbn [mbind option_bind]. destruct (IH _ _ Hi') as (fs' & ps' & E & Hi'' & Hz).
  exists fs', ps'. split_and!; [done|done|]. rewrite zlen_app in Hz. change (zlen [f]) with 1 in Hz. lia.
Qed.
Lemma add_block_inv bs fs ps blk : keys_ok (concat (map snd bs)) -> fb_inv bs fs ps -> zlen fs <= blk.1 / kFilterBase ->
  exists fs' ps', add_block (fb_of fs ps) blk = Some (fb_of fs' ps') /\ fb_inv (bs ++ [blk]) fs' ps' /\ zlen fs' = blk.1 / kFilterBase.
Proof.
  intros Hok Hi Hle. unfold add_block, StartBlock. assert (Hz : zlen (fb_offsets_ (fb_of fs ps)) = zlen fs).
  { cbn. rewrite zlen_map. unfold zlen. by rewrite sums_length. }
  rewrite Hz, (proj2 (Z.leb_le _ _) Hle). cbn [negb]. destruct (start_loop_inv bs (Z.to_nat (blk.1 / kFilterBase - zlen fs)) Hok fs ps Hi) as (fs' & ps' & -> & Hi' & Hz').
  cbn [mbind option_bind]. exists fs', (ps' ++ blk.2). rewrite AddKeys_ok. assert (Hz2 : zlen fs' = blk.1 / kFilterBase) by lia. split_and!; [done| |done].
  destruct Hi' as [Hk Hf Hl]. assert (Hone : forall i, index_keys [blk] i = if blk.1 / kFilterBase =? i then blk.2 else []) by (intros i; unfold index_keys; cbn; by rewrite app_nil_r).
  split.
  - by rewrite index_keys_app, Hone, <- Hk, Hz2, Z.eqb_refl.
  - intros i f Hif. rewrite index_keys_app, Hone, (proj2 (Z.eqb_neq _ _)), app_nil_r; [by apply Hf|]. apply lookup_lt_Some in Hif. unfold zlen in Hz2. lia.
  - apply Forall_app. split; [done|]. constructor; [lia|constructor].
Qed.
Lemma kFilterBase_pos : 0 < kFilterBase.
Proof. done. Qed.
Lemma add_blocks_inv cs : forall bs fs ps, keys_ok (concat (map snd (bs ++ cs))) -> fb_inv bs fs ps ->
  StronglySorted Z.le (map fst cs) -> Forall (fun b : fblock => zlen fs <= b.1 / kFilterBase) cs ->
  exists fs' ps', add_blocks (fb_of fs ps) cs = Some (fb_of fs' ps') /\ fb_inv (bs ++ cs) fs' ps'.
Proof.
  induction cs as [|c cs IH]; intros bs fs ps Hok Hi Hs Hle; cbn [add_blocks]; [exists fs, ps; by rewrite app_nil_r|].
  apply list.Forall_cons in Hle as [Hc _]. inversion Hs as [|? ? Hs' Hf]; subst.
  assert (Hok1 : keys_ok (concat (map snd bs))).
  { destruct Hok as [H1 H2]. rewrite map_app, concat_app in H1, H2. rewrite Forall_app in H1. rewrite zlen_app in H2. destruct H1. split; [done|].
    match type of H2 with _ + zlen ?l < _ => pose proof (zlen_nonneg l) end. lia. }
  destruct (add_block_inv bs fs ps c Hok1 Hi Hc) as (fs' & ps' & -> & Hi' & Hz). cbn [mbind option_bind].
  replace (bs ++ c :: cs) with ((bs ++ [c]) ++ cs) in * by (by rewrite <- app_assoc). apply IH; [done|done|done|].
  apply list.Forall_forall. intros b Hb. rewrite Hz. apply Z.div_le_mono; [apply kFilterBase_pos|]. rewrite list.Forall_forall in Hf. apply Hf.
  by apply (list_elem_of_fmap_2 fst).
Qed.

(** ** Reading the block *)

Lemma put_offsets_ok l : forall result, put_offsets result l = Some (result ++ encs 4 l).
Proof.
  induction l as [|x l IH]; intros result; cbn [put_offsets]; [by rewrite encs_nil, app_nil_r|]. rewrite PutFixed32_ok. cbn [mbind option_bind].
  rewrite IH, encs_cons. by rewrite <- app_assoc.
Qed.
Lemma encs_u32 l : encs 4 (map u32 l) = encs 4 l.
Proof. induction l as [|x l IH]; [done|]. cbn [map]. rewrite !encs_cons, IH. f_equal. exact (le_enc_wrap 4 x). Qed.

Lemma lookup_concat_le (fs : list (list Z)) i f : fs !! i = Some f -> zlen f <= zlen (concat fs).
Proof.
  intros H. rewrite <- (take_drop_middle _ _ _ H), concat_app. cbn [concat]. rewrite !zlen_app.
  pose proof (zlen_nonneg (concat (take i fs))). pose proof (zlen_nonneg (concat (drop (S i) fs))). lia.
Qed.

(** The offsets of the filters and of the end of the last. *)
Definition filter_block_of (fs : list (list Z)) : list Z := concat fs ++ encs 4 (sums fs ++ [zlen (concat fs)]) ++ [kFilterBaseLg].
Lemma zlen_filter_block fs : zlen (filter_block_of fs) = zlen (concat fs) + 4 * zlen fs + 5.
Proof.
  unfold filter_block_of. rewrite !zlen_app, zlen_encs, zlen_app. change (zlen [kFilterBaseLg]) with 1. change (zlen [zlen (concat fs)]) with 1.
  unfold zlen at 2. rewrite sums_length. fold (zlen fs). lia.
Qed.

Lemma Finish_inv bs fs ps : keys_ok (concat (map snd bs)) -> fb_inv bs fs ps -> exists fs',
  FilterBlock_Finish fp (fb_of fs ps) = Some (filter_block_of fs') /\
  (forall i f, fs' !! i = Some f -> filter_of (index_keys bs (Z.of_nat i)) f) /\ (forall i, zlen fs' <= i -> index_keys bs i = []).
Proof.
  intros Hok Hi. assert (exists fs', (if negb (length (sums ps) =? 0)%nat then GenerateFilter fp (fb_of fs ps) else Some (fb_of fs ps)) = Some (fb_of fs' []) /\
    (forall i f, fs' !! i = Some f -> filter_of (index_keys bs (Z.of_nat i)) f) /\ (forall i, zlen fs' <= i -> index_keys bs i = [])) as (fs' & E & H1 & H2).
  { rewrite sums_length. destruct ps as [|p ps]; cbn [length Nat.eqb negb].
    - destruct Hi as [Hk Hf Hl]. exists fs. split_and!; [done|done|]. intros i Hle. destruct (decide (i = zlen fs)) as [->|]; [done|]. apply no_keys_past.
      eapply list.Forall_impl; [exact Hl|]. intros b Hb. cbn in Hb. lia.
    - destruct (generate_inv bs fs (p :: ps) Hok Hi) as (f & -> & [Hk Hf Hl]). exists (fs ++ [f]). split_and!; [done|done|]. intros i Hle.
      destruct (decide (i = zlen (fs ++ [f]))) as [->|]; [done|]. apply no_keys_past. eapply list.Forall_impl; [exact Hl|]. intros b Hb. cbn in Hb. lia. }
  exists fs'. split_and!; [|done|done]. unfold FilterBlock_Finish. change (fb_start_ (fb_of fs ps)) with (sums ps). rewrite E. cbn [mbind option_bind]. cbn [fb_of fb_result_ fb_offsets_].
  rewrite put_offsets_ok, encs_u32. cbn [mbind option_bind]. rewrite PutFixed32_ok. cbn [mbind option_bind]. unfold filter_block_of. rewrite encs_app, encs_cons, encs_nil, app_nil_r.
  f_equal. rewrite <- !app_assoc. do 2 f_equal. f_equal. exact (le_enc_wrap 4 (zlen (concat fs'))).
Qed.

Section Reader.
Context (fs : list (list Z)) (Hsmall : zlen (filter_block_of fs) < 2 ^ 32).

Definition bounds : list Z := sums fs ++ [zlen (concat fs)].
Lemma take_concat_le i : 0 <= zlen (concat (take i fs)) <= zlen (concat fs).
Proof. rewrite <- (take_drop i fs) at 3. rewrite concat_app, zlen_app. pose proof (zlen_nonneg (concat (drop i fs))). pose proof (zlen_nonneg (concat (take i fs))). lia. Qed.
Lemma bounds_lookup i : (i <= length fs)%nat -> bounds !! i = Some (zlen (concat (take i fs))).
Proof.
  intros Hi. unfold bounds. destruct (decide (i = length fs)) as [->|].
  - by rewrite lookup_app_r, sums_length, Nat.sub_diag, firstn_all by (rewrite sums_length; lia).
  - rewrite lookup_app_l by (rewrite sums_length; lia). apply sums_lookup. lia.
Qed.
Lemma bound_at i : (i <= length fs)%nat -> DecodeFixed32 (filter_block_of fs) (zlen (concat fs) + Z.of_nat i * 4) = Some (zlen (concat (take i fs))).
Proof.
  intros Hi. pose proof (bounds_lookup i Hi) as Hb. unfold filter_block_of. fold bounds. rewrite (encs_lookup 4 _ _ _ Hb).
  replace (concat fs ++ (encs 4 (take i bounds) ++ le_enc 4 (zlen (concat (take i fs))) ++ encs 4 (drop (S i) bounds)) ++ [kFilterBaseLg])
    with ((concat fs ++ encs 4 (take i bounds)) ++ le_enc 4 (zlen (concat (take i fs))) ++ (encs 4 (drop (S i) bounds) ++ [kFilterBaseLg])) by (by rewrite <- !app_assoc).
  rewrite DecodeFixed32_ok; [|apply bytes_le_enc|apply zlen_le_enc|].
  - rewrite le_dec_enc, wrap_id; [done|]. pose proof (take_concat_le i). rewrite zlen_filter_block in Hsmall. pose proof (zlen_nonneg fs). unfold in_u. change (8 * Z.of_nat 4) with 32. lia.
  - rewrite zlen_app, zlen_encs, zlen_take. pose proof (lookup_zlen _ _ _ Hb). lia.
Qed.
Definition the_reader : FilterBlockReader := mk_fr (Some (filter_block_of fs, zlen (concat fs))) (zlen fs) kFilterBaseLg.
Lemma reader_ok : new_FilterBlockReader (filter_block_of fs) = Some the_reader.
Proof.
  pose proof (zlen_filter_block fs) as Hz. pose proof (zlen_nonneg fs). pose proof (zlen_nonneg (concat fs)). unfold new_FilterBlockReader.
  rewrite (proj2 (Z.ltb_ge _ 5)) by lia. assert (znth (filter_block_of fs) (zlen (filter_block_of fs) - 1) = Some kFilterBaseLg) as ->.
  { rewrite Hz. unfold filter_block_of. rewrite app_assoc. replace (zlen (concat fs) + 4 * zlen fs + 5 - 1) with (zlen (concat fs ++ encs 4 (sums fs ++ [zlen (concat fs)]))); [apply znth_middle|].
    unfold filter_block_of in Hz. rewrite app_assoc, zlen_app in Hz. change (zlen [kFilterBaseLg]) with 1 in Hz. lia. }
  cbn [mbind option_bind]. pose proof (bound_at (length fs) ltac:(lia)) as Hb. rewrite firstn_all in Hb. fold (zlen fs) in Hb.
  replace (zlen (filter_block_of fs) - 5) with (zlen (concat fs) + zlen fs * 4) by lia. rewrite Hb. cbn [mbind option_bind].
  rewrite (proj2 (Z.ltb_ge _ _)) by lia. unfold the_reader. do 2 f_equal. replace (zlen (concat fs) + zlen fs * 4 - zlen (concat fs)) with (zlen fs * 4) by lia. by apply Z.div_mul.
Qed.
Lemma lookup_filter o key : 0 <= o -> Filter_KeyMayMatch fp the_reader o key =
  match fs !! Z.to_nat (o / kFilterBase) with Some f => KeyMayMatch fp key f | None => Some true end.
Proof.
  intros Ho. unfold Filter_KeyMayMatch. cbn [the_reader fr_base_lg_ fr_num_ fr_data_]. change (negb (kFilterBaseLg <? 64)) with false. cbv iota.
  rewrite Z.shiftr_div_pow2 by done. change (2 ^ kFilterBaseLg) with kFilterBase. pose proof (Z.div_pos o kFilterBase Ho kFilterBase_pos) as Hp. set (n := o / kFilterBase) in *.
  destruct (Z.ltb_spec n (zlen fs)) as [Hlt|Hge]; [|rewrite lookup_ge_None_2 by (unfold zlen in Hge; lia); done].
  unfold zlen in Hlt. destruct (lookup_lt_is_Some_2 fs (Z.to_nat n) ltac:(lia)) as [f Hf]. rewrite Hf. cbn [mbind option_bind].
  pose proof (bound_at (Z.to_nat n) ltac:(lia)) as H1. pose proof (bound_at (S (Z.to_nat n)) ltac:(lia)) as H2. rewrite Nat2Z.inj_succ in H2. rewrite Z2Nat.id in H1, H2 by lia.
  rewrite H1. cbn [mbind option_bind]. replace (zlen (concat fs) + n * 4 + 4) with (zlen (concat fs) + Z.succ n * 4) by lia. rewrite H2. cbn [mbind option_bind].
  pose proof (take_concat_le (S (Z.to_nat n))). rewrite (take_S_r _ _ _ Hf), concat_app, zlen_app in *. cbn [concat] in *. rewrite app_nil_r in *. pose proof (zlen_nonneg f).
  rewrite (proj2 (Z.leb_le _ (_ + _))), (proj2 (Z.leb_le _ (zlen (concat fs)))) by lia. cbn [andb].
  assert (rd (filter_block_of fs) (zlen (concat (take (Z.to_nat n) fs))) (zlen (concat (take (Z.to_nat n) fs)) + zlen f - zlen (concat (take (Z.to_nat n) fs))) = Some f) as ->; [|done].
  unfold filter_block_of. rewrite <- (take_drop_middle _ _ _ Hf) at 1. rewrite concat_app. cbn [concat]. rewrite <- !app_assoc. apply rd_seg; [done|lia].
Qed.
End Reader.
End Facts.

(** C9: a filter block never hides a key.  The blocks of a table are started in
    the order of their offsets and their keys added, with any filter policy that
    keeps the demands of its interface; when the result fits 32-bit offsets, a
    lookup for any block offset always returns, it returns true for every key of
    the blocks that start in the same 2 KB, and where there are such keys it
    asks the policy about the one filter made from exactly these. *)
Theorem filter_block_sound {P : Platform} (fp : FilterPolicy) {FL : FilterPolicyLaws fp} (bs : list fblock) :
  StronglySorted Z.le (map fst bs) -> Forall (fun b : fblock => 0 <= b.1 < 2 ^ 64) bs -> keys_ok (concat (map snd bs)) ->
  exists b contents, add_blocks fp new_FilterBlockBuilder bs = Some b /\ FilterBlock_Finish fp b = Some contents /\
    (zlen contents < 2 ^ 32 -> exists r, new_FilterBlockReader contents = Some r /\ forall o key, 0 <= o < 2 ^ 64 ->
      let ks := index_keys bs (o / kFilterBase) in
      (key ∈ ks -> Filter_KeyMayMatch fp r o key = Some true) /\
      (ks <> [] -> Filter_KeyMayMatch fp r o key = (f ← CreateFilter fp ks []; KeyMayMatch fp key f)) /\
      (bytes key -> exists m, Filter_KeyMayMatch fp r o key = Some m)).
Proof.
  intros Hs Ho Hok. destruct (add_blocks_inv fp bs [] [] [] Hok) as (fs & ps & E & Hi); [by split|done| |].
  { eapply list.Forall_impl; [exact Ho|]. intros b Hb. cbn in Hb. change (zlen []) with 0. apply Z.div_pos; [lia|apply kFilterBase_pos]. }
  destruct (Finish_inv fp bs fs ps Hok Hi) as (fs' & EF & Hf & Hno). exists (fb_of fs ps), (filter_block_of fs'). split_and!; [exact E|exact EF|].
  intros Hsmall. exists (the_reader fs'). split; [by apply reader_ok|]. intros o key Hor ks. rewrite lookup_filter by (done || lia).
  pose proof (Z.div_pos o kFilterBase ltac:(lia) kFilterBase_pos) as Hp. destruct (fs' !! Z.to_nat (o / kFilterBase)) as [f|] eqn:Ef.
  - pose proof (Hf _ _ Ef) as HF. rewrite Z2Nat.id in HF by done. fold ks in HF. unfold filter_of in HF.
    assert (Hlen : zlen f < 2 ^ 32).
    { pose proof (zlen_filter_block fs'). pose proof (zlen_nonneg fs'). pose proof (lookup_concat_le _ _ _ Ef). lia. }
    destruct ks as [|k ks'] eqn:Ek.
    + subst f. split_and!; [by intros H%elem_of_nil|done|]. by apply fp_empty.
    + destruct HF as (Hbf & Hc & Hall & Ht). split_and!; [apply Hall| |intros Hb; by apply Ht]. intros _. by rewrite (Hc []).
  - apply lookup_ge_None_1 in Ef. assert (Hk : ks = []) by (apply Hno; unfold zlen; lia). rewrite Hk. split_and!; [by intros H%elem_of_nil|done|by exists true].
Qed.

(** The Bloom filter with ten bits per key. *)
Definition bloom10 : FilterPolicy := {| CreateFilter := Bloom_CreateFilter (P := be_host) (mk_bloom 10 6); KeyMayMatch := Bloom_KeyMayMatch (P := be_host) |}.

Lemma filter_block_sound_witness :
  exists b contents, add_blocks bloom10 new_FilterBlockBuilder [(0, [[1]; [2; 3]]); (100, [[4]]); (5000, [[5; 6; 7; 8; 9]])] = Some b /\
    FilterBlock_Finish (P := be_host) bloom10 b = Some contents /\
    (zlen contents < 2 ^ 32 -> exists r, new_FilterBlockReader (P := be_host) contents = Some r /\ forall o key, 0 <= o < 2 ^ 64 ->
      let ks := index_keys [(0, [[1]; [2; 3]]); (100, [[4]]); (5000, [[5; 6; 7; 8; 9]])] (o / kFilterBase) in
      (key ∈ ks -> Filter_KeyMayMatch (P := be_host) bloom10 r o key = Some true) /\
      (ks <> [] -> Filter_KeyMayMatch (P := be_host) bloom10 r o key = (f ← CreateFilter bloom10 ks []; KeyMayMatch bloom10 key f)) /\
      (bytes key -> exists m, Filter_KeyMayMatch (P := be_host) bloom10 r o key = Some m)).
Proof.
  apply (filter_block_sound (P := be_host) bloom10 (FL := bloom_laws (P := be_host) 10 bloom10 ltac:(lia) eq_refl)).
  - repeat constructor; by vm_compute.
  - repeat constructor; by vm_compute.
  - split; [repeat constructor; by vm_compute|by vm_compute].
Defined.
